(* ===== verification/_CoqProject ===== *)
-Q . S2P
Prelude.v
RustStd.v
Utf8.v
RustStr.v
Float64.v
Display64.v
Error.v
Runtime.v
Types.v
Parser.v
ParserFacts.v
ParserProps.v
Wire.v
Writer.v
Crc16.v
Python.v
Response.v
ResponseProps.v
Config.v
Tcp.v
TcpProps.v
Receive.v
Pool.v
PoolLive.v
Standalone.v
Client.v
Pipeline.v
Session.v
Concurrent.v
ConcurrentLive.v
Graph.v
Cluster.v
ClusterProps.v
ClusterTopology.v
ClusterPools.v
Redirects.v
ClusterLocks.v
ClusterOnce.v
ClusterBatch.v
Sentinel.v
Failover.v
Router.v
Conformance.v
