(* ===== verification/Prelude.v ===== *)
(** * pyrsedis: a verification of the Redis client

    pyrsedis is a Redis client for Python written in Rust. A method of the
    Python class [Redis] builds a command as a list of byte strings; a router
    takes a connection to a server from a pool; the connection writes the
    encoded command and reads the bytes of one reply from the socket, however the
    network cuts them; the reply is turned into a Python object. A [Pipeline]
    buffers commands and sends them in one batch. Routers exist for a single
    server, for a cluster (hash slots, redirections) and for sentinels (master
    discovery, failover). This development models the crate function by function
    as executable definitions and proves what makes it correct. Paths below are
    relative to the crate, src/.

    ** Files

    Foundations.
    - Prelude (this file): results, the state monad [stm], machine integers,
      slices and indexing that panic as Rust's do, counted loops, byte lists,
      the hint databases [pyrsedis] and [lens] and the tactic [len_lia].
    - RustStd, Utf8, RustStr, Float64, Display64: what the code uses of Rust's
      standard library (decimal printing, integer and float parsing, UTF-8
      validation and lossy decoding, [str] methods, printing of [f64]).

    Protocol.
    - Error (src/error.rs): [RedisErrorKind], [PyrsedisError], classification
      of server messages, MOVED/ASK redirections, Python exception classes.
    - Runtime (src/runtime.rs, src/lib.rs): the process-wide tokio runtime with
      [block_on] and [spawn], and the initialisation of the Python module.
    - Types (src/resp/types.rs): [RespValue] and its accessors.
    - Parser (src/resp/parser.rs): [parse] and the frame scanner
      [resp_frame_len], one definition per type parser. ParserFacts and
      ParserProps prove totality, streaming and the scanner's agreement.
    - Wire: the RESP2/RESP3 grammar as a relation [wire v w] between values and
      bytes. It is the abstract specification of the parser, which is proved to
      implement it, exactly but for one overflow of release builds.
    - Writer (src/resp/writer.rs): [encode_command], [encode_pipeline] and
      their capacity computation.
    - Crc16 (src/crc16.rs): the lookup table, [crc16], [hash_slot].

    Python.
    - Python: the interfaces [PyRuntime] and [PyExtract] to CPython, and
      [cpython], a runtime of plain values that implements them.
    - Response (src/response.rs): the reference conversion [resp_to_python] and
      the fused parser [parse_to_python], with the slots of the lists it builds
      through the C API. ResponseProps proves the two equal and lists where
      they differ.

    Connections.
    - Config (src/config.rs): [ConnectionConfig] and the URL parser.
    - Tcp (src/connection/tcp.rs): a connection over a scripted socket: the
      [inbox] is what the peer will do (deliver bytes, stay silent until the
      timeout, close, fail), [sent] what was written. TcpProps has its theorems.
      Receive specifies reading a reply on every script ([receive]) and shows that
      operations with a read timeout end ([timely]).
    - Pool (src/connection/pool.rs): the queue of idle connections and the
      semaphore, as functions and as a step relation of concurrent tasks; PoolLive
      adds the semaphore's queue and infinite runs.

    Routers and clients.
    - Standalone (src/router/standalone.rs), Sentinel (src/router/sentinel.rs),
      Cluster (src/router/cluster.rs) with the theorems of ClusterProps,
      ClusterTopology (the slot map over time), ClusterPools (the router over real
      pools), Redirects (every kind of redirection), ClusterLocks (the permits that
      concurrent commands and batches take from the nodes' pools), ClusterOnce (what is
      written to the nodes and read from them, and when a command is sent again) and
      ClusterBatch (which reply each command of a batch gets). No client uses a cluster
      or sentinel router yet: [Redis] and [Pipeline] hold a standalone one.
    - Failover: the steps of concurrent calls of the sentinel router's [failover].
    - Router (src/router/mod.rs): the [Router] trait, its laws and its three
      implementations.
    - Client and Pipeline (src/client.rs): every method of the classes [Redis]
      and [Pipeline]. Session puts a client and a server together; Concurrent puts
      many threads of a client, making calls and executing pipelines, a server and
      failing connections together, as a step relation over the pool, the connections'
      buffers and the bytes on their way, read timeouts and late replies included;
      ConcurrentLive shows that calls end.
    - Graph (src/graph.rs): compact results of FalkorDB queries.
    - Conformance: the crate's unit tests, evaluated on the model.

    ** How the code is represented

    A fallible function returns [res E A]: [Ok], [Err], or [Panic] where Rust
    panics. Code that changes a connection, a pool or a router is in the state
    monad [stm S E A], which keeps the state on errors too, since a guard is
    dropped and a buffer keeps its bytes when an I/O operation fails. [let?]
    and [let!] are the [?] operator in the two settings. Integers are [Z]; the
    places where the code adds, negates, multiplies or casts at a machine width
    say so ([usize_add], [i64_neg], [wrap_i64], [as_u16] and so on). A Rust
    [Vec] that is sized from the wire asks for its memory with [with_capacity],
    which panics above [isize::MAX] bytes. Asynchronous code is sequential
    between its awaits; an await that never completes is [Panic Pending], and its
    caller keeps its guard and its permit ([hangs]).

    ** Interfaces

    What the sources only call is a class, and theorems that rely on its
    documented behaviour name the laws as hypotheses:
    - [Target]: layout sizes and whether the build checks overflow;
      [release64] and [debug64] are instances;
    - [Tokio] (building a runtime) and [PyModule] (adding a name to a module);
    - [BytesMut]: how much a read buffer grows;
    - [PyRuntime], [PyExtract], with the laws [MemoryAvailable] (allocations
      succeed) and [PyTotal] (the runtime's calls return);
    - [Pooled]: what the pool needs of a connection, and [Identified], which tells
      connections apart where a theorem says that none is shared;
    - [RawRouter]: what a client needs of a router (implemented by
      Standalone), with [InOrder] for a server that answers a batch as it
      answers the commands one by one;
    - [Transport]: what the cluster router needs of the nodes' pools
      (implemented by Standalone's pools, [pooled_nodes]);
    - [HashOrder]: the iteration order of a [HashMap];
    - [Router], the trait, with [RouterLaws], what its users rely on.
    The crates [memchr] and [itoa] are each called for one function whose
    documentation determines its result (the first position of a byte, the
    decimal digits of an integer); these are definitions.

    ** What is proved

    - Protocol: [parse] accepts the grammar and returns the number of bytes of the
      encoding, and accepts nothing else but, in release builds, integer headers of
      2^63 ([parse_exact]); it returns on every input, its only
      panics being the allocation of a huge declared count and, in debug builds,
      one negation ([parse_total]); its answer does not change when more bytes
      arrive, and every proper prefix of a reply is incomplete
      ([parse_streaming]); the scanner finds the same end ([frame_len_agrees]);
      what the writer emits parses back ([encode_parse_roundtrip]).
    - Conversion: the fused parser computes what parsing and converting
      computes ([fused_equals_two_pass]) except where [fused_differences] says;
      it returns on every input ([parse_to_python_total]), refuses deep nesting
      ([deep_nesting_refused]) and stores each slot of the lists it builds exactly
      once ([list_slots_filled]).
    - Connections: a reply is read whatever the pieces it arrives in
      ([read_response_any_chunks]), and on every script of the network the readers
      do what collecting bytes until they decide does ([readers_refine_receive]);
      the handshake authenticates and selects the
      database ([init_handshake]); URLs read back ([from_url_roundtrip]).
    - Pool: at most [pool_size] connections exist at any time and none is
      shared, in every interleaving ([pool_never_overcommits]); every task that
      waits for a connection is served ([waiting_task_served]); connections are
      returned and reused as documented.
    - Clients: a call, and a batch, from Python to Python over an idle pooled
      connection ([exec_raw_end_to_end], [pipeline_end_to_end]); calls against
      any server machine refine remote procedure calls ([session_refines_rpc]); a
      pipeline equals the [execute_command] calls it stands for, on the wire
      ([batch_equals_calls]) and for any router that answers in order
      ([pipeline_equals_calls]); its methods mirror the client's
      ([pipeline_mirrors_client]). Threads that share a client
      are linearizable ([calls_linearizable]) until a reply is later than the read
      timeout: each command of a call or of a pipeline
      takes effect at most once, in order, between the start and the return, and the
      call returns the answers to its own commands or fails; what the threads do to the
      pool is a run of its step relation ([client_refines_pool]); with a read timeout
      the calls end, even if the server is silent ([calls_end]), and without one they
      may not ([silent_server_blocks]). The runtime underneath is
      transparent ([block_on_transparent]).
    - Cluster: table-driven CRC16 is the division by the polynomial
      ([crc16_is_xmodem]); keys with one hash tag share a slot
      ([hash_tag_colocates]); the binary searches find the master and the replica of
      a slot and the range to update, exactly ([slot_lookup_correct]), in the map read from CLUSTER SLOTS
      ([from_cluster_slots_correct]); redirections are followed, up to an ASK, whose
      reply is final ([redirections_followed], [asked_reply_is_final]); a pipeline
      split over nodes gives each command the reply read for it, redirected ones
      included, on any nodes ([cluster_pipeline_aligned]); a command goes from its key to the bytes on a
      pooled connection and back ([cluster_end_to_end]), and no call leaks a permit
      ([cluster_conserves_permits]). However
      the callers and the background refresh interleave, the map stays well
      formed ([slot_map_stays_wf]), and a command goes to the node that owns the
      slot of its key ([command_reaches_owner]). Commands hold one permit at a time,
      so no interleaving of them deadlocks as long as the nodes answer
      ([commands_never_block]). A command is sent again only after a refusal was read
      for it ([resent_only_if_refused]); on a connection that was put back with replies
      outstanding that refusal may be another command's.
    - Sentinel: the first sentinel that knows the master decides
      ([resolve_first_answer]); a READONLY reply leads to a failover and a retry
      on a connection to the address the sentinels name ([readonly_fails_over]);
      failovers that do not overlap keep the host and port of the pool those of the
      recorded master ([serial_failovers_agree]); a batch is the batch of
      a single server ([sentinel_batch_is_standalone]).
    - Every router answers a batch with one reply per command
      ([every_command_answered]).
    - Graph: a result in the compact format reads back as its columns, rows and
      statistics ([graph_result_roundtrip]).
    - Behaviour a user should know of, proved as such: a connection whose read
      timed out is reused and gives its late reply to the next command
      ([timed_out_connection_is_reused]); a closed connection is handed out
      again ([closed_connection_sticks], [retries_reuse_closed_connection]); a
      redirection moves a whole slot range ([update_moves_range]); overlapping
      failovers can leave the pool of one server beside the address of another
      ([failover_race]); a batch redirected back to a node whose only connection it
      holds waits for ever ([redirect_cycle_blocks_batch]), and so can batches that
      are redirected to each other's nodes ([batches_can_block]); a redirection that
      fails leaves the other replies of its batch to the next command
      ([failed_redirect_leaves_replies]); the cursor of SCAN is taken for a key
      ([scan_changes_nodes]); the retry of a sentinel router can repeat a
      command ([retry_sends_again]); [select] switches one pooled connection
      ([select_is_forgotten]); [set]
      swallows error replies ([set_outcomes]), and in a pipeline gives the text OK
      ([pipelined_set_is_text]); unchecked integers wrap
      ([fused_parse_int_spec]).

    ** Fuel

    Recursion that is not structural carries fuel, and running out of it is
    [Panic RecursionLimit], a value no Rust function produces; the totality
    theorems exclude it. [parse] and [resp_frame_len] recurse on strictly
    shorter buffers, so [S (length buf)] is enough, and so is [loop_fuel buf]
    for the loops over a declared count, each element of which takes a byte.
    [parse_inner] is bounded by the code's own [MAX_PARSE_DEPTH]. The read loop
    of a connection takes an event of the script at each turn ([read_fuel]).
    The binary search halves a size bounded by the length of the table. Cluster
    redirections use the code's [MAX_REDIRECTS], sentinel retries its retry
    count.

    ** What is not modelled

    - Threads: interleaving is modelled for the pool and for the calls of a client
      (step relations of tasks and threads), for the slot map and the permits of a
      cluster router and for the failover of a sentinel router (atomic steps under
      their locks). Reading a reply is one step once its bytes have arrived: a thread
      that has half a reply does nothing another can see. Its connections are opened
      to a server that answers the handshake and sends nothing unasked. The results of a cluster or sentinel router
      are stated for one caller at a time.
    - Exhaustion of memory, which aborts the process, and of the stack by the
      recursion of [parse] and [resp_frame_len]. The panics of [ConnectionPool::new]
      on a huge [pool_size] are modelled where the client creates it ([new_checks]).
    - PyO3's conversion of arguments, apart from the [extract] calls in the
      methods' bodies; the [cmd!] macro, which collects arguments; TLS, which the
      crate refuses.

    ** Plan

    Possible next: the values that concurrent commands on a cluster return while slots
    move; the sentinel router's callers on real connections. That printing an [f64] and
    reading it back is the identity is the standard library's promise; it is checked on
    examples only. *)

From Stdlib Require Import Strings.Byte.
From stdpp Require Export base list sets numbers strings.
From stdpp Require Import countable.

#[global] Open Scope Z_scope.

(** * Results

    Every fallible Rust function returns a [res]: the [Ok] and [Err] of
    [std::result::Result], plus [Panic] for the places where the Rust code
    panics (index or slice out of range, capacity overflow, overflow checks)
    instead of returning. *)

(** Why a Rust computation stopped without returning. Two of them are not
    panics: [RecursionLimit] marks a model computation that ran out of fuel (the
    theorems show that the fuel given is always enough), and [Pending] an
    [await] that never completes because the peer stays silent. *)
Inductive panic :=
| IndexOutOfBounds
| CapacityOverflow
| ArithmeticOverflow
| Explicit (msg : list byte)
| Pending
| RecursionLimit.

Inductive res (E A : Type) :=
| Ok (a : A)
| Err (e : E)
| Panic (p : panic).
Arguments Ok {E A} a.
Arguments Err {E A} e.
Arguments Panic {E A} p.

(** An await that never completes: its caller keeps all it holds for ever. *)
Definition hangs {E A} (r : res E A) : bool :=
  match r with Panic Pending => true | _ => false end.

Definition bind {E A B} (r : res E A) (f : A -> res E B) : res E B :=
  match r with
  | Ok a => f a
  | Err e => Err e
  | Panic p => Panic p
  end.

(** [Result::map_err]. *)
Definition map_err {E F A} (f : E -> F) (r : res E A) : res F A :=
  match r with
  | Ok a => Ok a
  | Err e => Err (f e)
  | Panic p => Panic p
  end.

(** [Option::ok_or_else]. *)
Definition ok_or {E A} (o : option A) (e : E) : res E A :=
  match o with
  | Some a => Ok a
  | None => Err e
  end.

Declare Scope rust_scope.
Delimit Scope rust_scope with rust.

(** [let? x := e in k] is Rust's [let x = e?; k]. *)
Notation "'let?' x ':=' e 'in' k" := (bind e (fun x => k))
  (at level 10, x pattern, e at level 100, k at level 200,
   format "'[v' 'let?'  x  ':='  e  'in' '/' k ']'") : rust_scope.
#[global] Open Scope rust_scope.

Lemma bind_ok {E A B} (r : res E A) (f : A -> res E B) b :
  bind r f = Ok b -> exists a, r = Ok a /\ f a = Ok b.
Proof. destruct r; simpl; naive_solver. Qed.

Lemma bind_assoc {E A B C} (r : res E A) (f : A -> res E B) (g : B -> res E C) :
  bind (bind r f) g = bind r (fun a => bind (f a) g).
Proof. by destruct r. Qed.

Lemma bind_ret {E A} (r : res E A) : bind r Ok = r.
Proof. by destruct r. Qed.

(** [iter().map(f).collect::<Result<Vec<_>, _>>()]: stops at the first error. *)
Fixpoint mapM {E A B} (f : A -> res E B) (l : list A) : res E (list B) :=
  match l with
  | [] => Ok []
  | x :: l => let? y := f x in let? ys := mapM f l in Ok (y :: ys)
  end.

(** A [for] loop over a collection whose body can fail. *)
Fixpoint foldM {E S A} (f : S -> A -> res E S) (l : list A) (s : S) : res E S :=
  match l with
  | [] => Ok s
  | x :: l => let? s := f s x in foldM f l s
  end.

Lemma foldM_app {E S A} (f : S -> A -> res E S) l k s :
  foldM f (l ++ k) s = (let? s := foldM f l s in foldM f k s).
Proof.
  revert s. induction l as [|x l IH]; intros s; simpl; [done|].
  destruct (f s x); [apply IH|done..].
Qed.

Lemma mapM_snoc {E A B} (f : A -> res E B) l x :
  mapM f (l ++ [x]) =
  (let? ys := mapM f l in let? y := f x in Ok (ys ++ [y])).
Proof.
  induction l as [|a l IH]; simpl; [by destruct (f x)|].
  destruct (f a); [|done..]. simpl. rewrite IH.
  destruct (mapM f l); [|done..]. simpl. by destruct (f x).
Qed.

Lemma mapM_length {E A B} (f : A -> res E B) l ys :
  mapM f l = Ok ys -> length ys = length l.
Proof.
  revert ys. induction l as [|a l IH]; simpl; intros ys H; [naive_solver|].
  apply bind_ok in H as (y & _ & H). apply bind_ok in H as (zs & Hzs & H).
  simplify_eq. simpl. by rewrite (IH zs).
Qed.

(** Strengthen a pointwise relation with a fact about its left side. *)
Lemma Forall2_with {A B} (R Q : A -> B -> Prop) (P : A -> Prop) l k :
  Forall2 R l k -> Forall P l -> (forall x y, R x y -> P x -> Q x y) -> Forall2 Q l k.
Proof. intros HR. induction HR; inversion 1; subst; constructor; auto. Qed.

(** ** A small calculus of postconditions

    [post r P Q X] reads a result: [P] of the value, [Q] of the error, [X] of
    the panic. [post_bind] and [post_for_count] make it compositional, so a
    property of a parser is proved function by function. *)
Definition post {E A} (r : res E A) (P : A -> Prop) (Q : E -> Prop)
    (X : panic -> Prop) : Prop :=
  match r with
  | Ok a => P a
  | Err e => Q e
  | Panic p => X p
  end.

Lemma post_bind {E A B} (r : res E A) (f : A -> res E B) P Q X :
  post r (fun a => post (f a) P Q X) Q X -> post (bind r f) P Q X.
Proof. by destruct r. Qed.

Lemma post_mono {E A} (r : res E A) (P P' : A -> Prop) (Q Q' : E -> Prop)
    (X X' : panic -> Prop) :
  post r P Q X ->
  (forall a, P a -> P' a) -> (forall e, Q e -> Q' e) -> (forall p, X p -> X' p) ->
  post r P' Q' X'.
Proof. destruct r; simpl; naive_solver. Qed.

Lemma post_ok_inv {E A} (r : res E A) P Q X a :
  post r P Q X -> r = Ok a -> P a.
Proof. by intros H ->. Qed.

Lemma post_conj {E A} (r : res E A) (P P' : A -> Prop) (Q Q' : E -> Prop)
    (X X' : panic -> Prop) :
  post r P Q X -> post r P' Q' X' ->
  post r (fun a => P a /\ P' a) (fun e => Q e /\ Q' e) (fun p => X p /\ X' p).
Proof. by destruct r. Qed.

(** The result was reached without running out of fuel. *)
Definition not_limit (p : panic) : Prop := p <> RecursionLimit.
Definition terminates {E A} (r : res E A) : Prop :=
  post r (fun _ => True) (fun _ => True) not_limit.

(** No panic of any kind, and enough fuel. *)
Definition no_panic {E A} (r : res E A) : Prop :=
  post r (fun _ => True) (fun _ => True) (fun _ => False).

(** * The [for _ in 0..count] loop

    [count] comes from the wire and can be as large as [i64::MAX], so the loop
    counts down in [Z] and recurses on a separate fuel. *)
Fixpoint for_count {E S} (body : S -> res E S) (fuel : nat) (count : Z) (s : S)
    : res E S :=
  if count <=? 0 then Ok s else
  match fuel with
  | O => Panic RecursionLimit
  | Datatypes.S fuel =>
      let? s' := body s in for_count body fuel (count - 1) s'
  end.

Lemma for_count_done {E S} (body : S -> res E S) fuel count s :
  count <= 0 -> for_count body fuel count s = Ok s.
Proof. intros H. destruct fuel; simpl; by rewrite (proj2 (Z.leb_le _ _) H). Qed.

Lemma for_count_step {E S} (body : S -> res E S) fuel count s :
  0 < count ->
  for_count body (Datatypes.S fuel) count s =
  (let? s' := body s in for_count body fuel (count - 1) s').
Proof. intros H. simpl. by rewrite (proj2 (Z.leb_gt _ _) H). Qed.

(** A loop invariant, with a measure that every iteration decreases: the
    postcondition holds and the fuel suffices. *)
Lemma post_for_count {E S} (body : S -> res E S) (I : S -> Prop)
    (m : S -> nat) (Q : E -> Prop) (X : panic -> Prop) fuel count s :
  I s -> (m s < fuel)%nat ->
  (forall s, I s -> post (body s) (fun s' => I s' /\ (m s' < m s)%nat) Q X) ->
  post (for_count body fuel count s) I Q X.
Proof.
  intros HI Hm Hbody. revert fuel count s HI Hm.
  induction fuel as [|fuel IH]; intros count s HI Hm; [lia|].
  destruct (Z.le_gt_cases count 0); [by rewrite for_count_done|].
  rewrite for_count_step by lia. apply post_bind.
  eapply post_mono; [by apply Hbody|..]; [|done..].
  intros s' [? ?]. apply IH; [done|lia].
Qed.

(** A loop whose body decreases a measure never runs out of fuel, whatever
    happens in its iterations. *)
Lemma for_count_terminates {E S} (body : S -> res E S) (I : S -> Prop)
    (m : S -> nat) fuel count s :
  I s -> (m s < fuel)%nat ->
  (forall s, I s ->
     post (body s) (fun s' => I s' /\ (m s' < m s)%nat) (fun _ => True) not_limit) ->
  terminates (for_count body fuel count s).
Proof.
  intros. eapply post_mono; [by eapply (post_for_count body I m)|done..].
Qed.

(** ** Computations with state

    A stateful Rust method is a function from the state to an outcome and the
    state it leaves: an error keeps the changes made before it. *)
Definition stm (S E A : Type) : Type := S -> res E A * S.

Definition lift {S E A} (r : res E A) : stm S E A := fun s => (r, s).
Definition gets {S E A} (f : S -> A) : stm S E A := fun s => (Ok (f s), s).
Definition modify {S E} (f : S -> S) : stm S E unit := fun s => (Ok tt, f s).
Definition sbind {S E A B} (m : stm S E A) (f : A -> stm S E B) : stm S E B :=
  fun s =>
    match m s with
    | (Ok a, s') => f a s'
    | (Err e, s') => (Err e, s')
    | (Panic p, s') => (Panic p, s')
    end.
Notation "'let!' x ':=' e 'in' k" := (sbind e (fun x => k))
  (at level 10, x pattern, e at level 100, k at level 200,
   format "'[v' 'let!'  x  ':='  e  'in' '/' k ']'") : rust_scope.

(** A caller that goes on after each call, whatever its outcome. *)
Fixpoint run_all {S E A} (ms : list (stm S E A)) (s : S) : list (res E A) * S :=
  match ms with
  | [] => ([], s)
  | m :: ms =>
      let '(r, s) := m s in
      let '(rs, s) := run_all ms s in
      (r :: rs, s)
  end.

Lemma sbind_ok {S E A B} (m : stm S E A) (f : A -> stm S E B) s a s' :
  m s = (Ok a, s') -> sbind m f s = f a s'.
Proof. intros Hm. unfold sbind. by rewrite Hm. Qed.

Lemma sbind_inv {S E A B} (m : stm S E A) (f : A -> stm S E B) s b s' :
  sbind m f s = (Ok b, s') -> exists a t, m s = (Ok a, t) /\ f a t = (Ok b, s').
Proof. unfold sbind. destruct (m s) as [[]]; naive_solver. Qed.

(** ** Relations between two computations *)

(** [simulates R r1 r2]: what [r1] returns, [r2] returns up to [R]; the errors
    in [keep] are kept; nothing is said when [r1] fails otherwise. *)
Definition simulates {E A B} (keep : E -> Prop) (R : A -> B -> Prop)
    (r1 : res E A) (r2 : res E B) : Prop :=
  match r1 with
  | Ok a => exists b, r2 = Ok b /\ R a b
  | Err e => keep e -> r2 = Err e
  | Panic _ => True
  end.

Lemma simulates_bind {E A B A' B'} (keep : E -> Prop) (R : A -> B -> Prop)
    (R' : A' -> B' -> Prop) r1 r2 f g :
  simulates keep R r1 r2 ->
  (forall a b, r1 = Ok a -> r2 = Ok b -> R a b -> simulates keep R' (f a) (g b)) ->
  simulates keep R' (bind r1 f) (bind r2 g).
Proof. destruct r1; simpl; [intros (b & -> & ?)|..]; naive_solver. Qed.

Lemma simulates_for_count {E S T} (keep : E -> Prop) (R : S -> T -> Prop)
    (f : S -> res E S) (g : T -> res E T) fuel count s t :
  R s t ->
  (forall s t, R s t -> simulates keep R (f s) (g t)) ->
  simulates keep R (for_count f fuel count s) (for_count g fuel count t).
Proof.
  intros HR Hb. revert count s t HR.
  induction fuel as [|fuel IH]; intros count s t HR; simpl;
    (destruct (count <=? 0); [by exists t|]); [done|].
  eapply simulates_bind; [by apply Hb|]. naive_solver.
Qed.

(** [stable final r1 r2]: if the outcome [r1] is final, [r2] is the same. *)
Definition final {E A} (retry : E -> Prop) (r : res E A) : Prop :=
  post r (fun _ => True) (fun e => ~ retry e) not_limit.
Definition stable {E A} (retry : E -> Prop) (r1 r2 : res E A) : Prop :=
  final retry r1 -> r2 = r1.

Lemma stable_refl {E A} (retry : E -> Prop) (r : res E A) : stable retry r r.
Proof. by intros _. Qed.

Lemma stable_bind {E A B} (retry : E -> Prop) (r1 r2 : res E A)
    (f g : A -> res E B) :
  stable retry r1 r2 ->
  (forall a, r1 = Ok a -> stable retry (f a) (g a)) ->
  stable retry (bind r1 f) (bind r2 g).
Proof.
  unfold stable. destruct r1; simpl; intros H1 H2 Hf.
  - rewrite H1 by done. simpl. by apply H2.
  - by rewrite H1.
  - by rewrite H1.
Qed.

(** More fuel and a stable body keep the outcome of a loop. *)
Lemma stable_for_count {E S} (retry : E -> Prop) (I : S -> Prop)
    (f g : S -> res E S) fuel fuel' count s :
  I s -> (fuel <= fuel')%nat ->
  (forall s, I s -> stable retry (f s) (g s)) ->
  (forall s s', I s -> f s = Ok s' -> I s') ->
  stable retry (for_count f fuel count s) (for_count g fuel' count s).
Proof.
  intros HI Hle Hst Hinv. revert fuel' count s HI Hle.
  induction fuel as [|fuel IH]; intros fuel' count s HI Hle.
  { destruct (Z.le_gt_cases count 0) as [Hc|Hc].
    - rewrite !for_count_done by done. apply stable_refl.
    - simpl. rewrite (proj2 (Z.leb_gt _ _) Hc). intros Hf. by destruct Hf. }
  destruct fuel' as [|fuel']; [lia|].
  destruct (Z.le_gt_cases count 0).
  - rewrite !for_count_done by done. apply stable_refl.
  - rewrite !for_count_step by done. apply stable_bind; [by apply Hst|].
    intros s' Hs'. apply IH; [by eapply Hinv|lia].
Qed.

(** * Bytes and slices *)

Abbreviation byte := Byte.byte.
Abbreviation bytes := (list byte).

#[global] Instance byte_eq_dec : EqDecision byte := Byte.byte_eq_dec.
#[global] Instance byte_countable : Countable byte.
Proof.
  refine (inj_countable Byte.to_N Byte.of_N _). apply Byte.of_to_N.
Defined.

(** A byte as a [u8]. *)
Definition u8 (b : byte) : Z := Z.of_N (Byte.to_N b).

Lemma u8_range b : 0 <= u8 b < 256.
Proof.
  unfold u8. pose proof (Byte.to_N_bounded b). lia.
Qed.

Lemma u8_inj b c : u8 b = u8 c -> b = c.
Proof.
  unfold u8. intros H. apply N2Z.inj in H.
  pose proof (Byte.of_to_N b) as Hb. rewrite H, Byte.of_to_N in Hb. congruence.
Qed.

(** The byte of value [z] mod 256. *)
Definition byte_of (z : Z) : byte :=
  match Byte.of_N (Z.to_N (z mod 256)) with
  | Some b => b
  | None => x00
  end.

Lemma u8_byte_of z : 0 <= z < 256 -> u8 (byte_of z) = z.
Proof.
  intros Hz. unfold byte_of, u8. rewrite Z.mod_small by done.
  destruct (Byte.of_N (Z.to_N z)) eqn:E.
  - apply Byte.to_of_N in E. rewrite E. lia.
  - apply Byte.of_N_None_iff in E. lia.
Qed.

(** A Rust byte-string literal or the bytes of a [str] literal. *)
Definition bs (s : string) : bytes := String.list_byte_of_string s.
Arguments bs s%_string_scope.

Definition CR : byte := x0d.
Definition LF : byte := x0a.
Definition CRLF : bytes := [CR; LF].

(** [buf.len()] as a [usize]. *)
Definition len {A} (l : list A) : Z := Z.of_nat (length l).

Lemma len_nonneg {A} (l : list A) : 0 <= len l.
Proof. unfold len. lia. Qed.
Lemma len_nil {A} : len (@nil A) = 0.
Proof. done. Qed.
Lemma len_cons {A} (x : A) l : len (x :: l) = 1 + len l.
Proof. unfold len. simpl. lia. Qed.
Lemma len_nat {A} (l : list A) : Z.to_nat (len l) = length l.
Proof. unfold len. lia. Qed.
Lemma len_app {A} (l k : list A) : len (l ++ k) = len l + len k.
Proof. unfold len. rewrite length_app. lia. Qed.

(** [&buf[from..]]; panics when [from > buf.len()]. *)
Definition slice_from {E} (buf : bytes) (from : Z) : res E bytes :=
  if (0 <=? from) && (from <=? len buf) then Ok (drop (Z.to_nat from) buf)
  else Panic IndexOutOfBounds.

(** [&buf[from..to]]; panics unless [from <= to <= buf.len()]. *)
Definition slice {E} (buf : bytes) (from to : Z) : res E bytes :=
  if (0 <=? from) && (from <=? to) && (to <=? len buf)
  then Ok (take (Z.to_nat (to - from)) (drop (Z.to_nat from) buf))
  else Panic IndexOutOfBounds.

(** [buf[i]]; panics when [i >= buf.len()]. *)
Definition index {E} (buf : bytes) (i : Z) : res E byte :=
  if (0 <=? i) && (i <? len buf) then
    match buf !! Z.to_nat i with
    | Some b => Ok b
    | None => Panic IndexOutOfBounds
    end
  else Panic IndexOutOfBounds.

(** [usize] addition of a 64-bit target, with its overflow. *)
Definition USIZE_MAX : Z := 2 ^ 64 - 1.
Definition ISIZE_MAX : Z := 2 ^ 63 - 1.
Definition usize_add {E} (a b : Z) : res E Z :=
  if a + b <=? USIZE_MAX then Ok (a + b) else Panic ArithmeticOverflow.

Lemma usize_add_ok {E} a b : a + b <= USIZE_MAX -> @usize_add E a b = Ok (a + b).
Proof. intros H. unfold usize_add. by rewrite (proj2 (Z.leb_le _ _) H). Qed.

Lemma slice_from_ok {E} buf n :
  0 <= n <= len buf -> @slice_from E buf n = Ok (drop (Z.to_nat n) buf).
Proof.
  intros H. unfold slice_from.
  by rewrite (proj2 (Z.leb_le 0 n)), (proj2 (Z.leb_le n _)) by lia.
Qed.

Lemma slice_ok {E} buf a b :
  0 <= a -> a <= b -> b <= len buf ->
  @slice E buf a b = Ok (take (Z.to_nat (b - a)) (drop (Z.to_nat a) buf)).
Proof.
  intros H1 H2 H3. unfold slice.
  by rewrite (proj2 (Z.leb_le 0 a)), (proj2 (Z.leb_le a b)), (proj2 (Z.leb_le b _)).
Qed.

Lemma drop_len_app {A} (l k : list A) : drop (Z.to_nat (len l)) (l ++ k) = k.
Proof. unfold len. rewrite Nat2Z.id. by rewrite drop_app_length. Qed.

Lemma take_len_app {A} (l k : list A) : take (Z.to_nat (len l)) (l ++ k) = l.
Proof. unfold len. rewrite Nat2Z.id. by rewrite take_app_length. Qed.

Lemma slice_from_app {E} pre rest :
  @slice_from E (pre ++ rest) (len pre) = Ok rest.
Proof.
  rewrite slice_from_ok by (rewrite len_app; pose proof (len_nonneg rest);
    pose proof (len_nonneg pre); lia).
  by rewrite drop_len_app.
Qed.

Lemma slice_app {E} pre mid rest a b :
  a = len pre -> b = len pre + len mid ->
  @slice E (pre ++ mid ++ rest) a b = Ok mid.
Proof.
  intros -> ->.
  pose proof (len_nonneg pre); pose proof (len_nonneg mid); pose proof (len_nonneg rest).
  rewrite slice_ok by (rewrite ?len_app; lia).
  rewrite drop_len_app. replace (len pre + len mid - len pre) with (len mid) by lia.
  by rewrite take_len_app.
Qed.

Lemma index_app {E} pre b rest i :
  i = len pre -> @index E (pre ++ b :: rest) i = Ok b.
Proof.
  intros ->. unfold index.
  pose proof (len_nonneg pre); pose proof (len_nonneg rest).
  rewrite (proj2 (Z.leb_le 0 _)) by lia.
  rewrite (proj2 (Z.ltb_lt _ _)) by (rewrite len_app, len_cons; lia). simpl.
  unfold len. rewrite Nat2Z.id. by rewrite list_lookup_middle.
Qed.

Lemma index_is {E} buf i :
  0 <= i < len buf -> exists b, @index E buf i = Ok b /\ buf !! Z.to_nat i = Some b.
Proof.
  intros Hi. unfold index.
  rewrite (proj2 (Z.leb_le 0 _)), (proj2 (Z.ltb_lt _ _)) by lia. simpl.
  destruct (buf !! Z.to_nat i) eqn:E'; [eauto|].
  apply lookup_ge_None in E'. unfold len in Hi. lia.
Qed.

(** Reading inside the buffer does not see what is appended to it. *)
Lemma index_app_l {E} buf ext i : i < len buf -> @index E (buf ++ ext) i = index buf i.
Proof.
  intros Hi. unfold index. destruct (Z.leb_spec 0 i); simpl; [|done].
  rewrite len_app. pose proof (len_nonneg ext).
  rewrite !(proj2 (Z.ltb_lt _ _)) by lia.
  rewrite lookup_app_l; [done|]. unfold len in Hi. lia.
Qed.

Lemma slice_app_l {E} buf ext a b :
  b <= len buf -> @slice E (buf ++ ext) a b = slice buf a b.
Proof.
  intros Hb. unfold slice.
  destruct (Z.leb_spec 0 a); simpl; [|done].
  destruct (Z.leb_spec a b); simpl; [|done].
  rewrite len_app. pose proof (len_nonneg ext).
  rewrite !(proj2 (Z.leb_le b _)) by lia.
  unfold len in *. rewrite drop_app_le by lia.
  by rewrite take_app_le by (rewrite length_drop; lia).
Qed.

Lemma slice_from_app_l {E} buf ext a r :
  @slice_from E buf a = Ok r -> @slice_from E (buf ++ ext) a = Ok (r ++ ext).
Proof.
  unfold slice_from.
  destruct (Z.leb_spec 0 a); simpl; [|done].
  destruct (Z.leb_spec a (len buf)); intros Hr; [|done]. simplify_eq.
  rewrite len_app. pose proof (len_nonneg ext).
  rewrite (proj2 (Z.leb_le _ _)) by lia.
  unfold len in *. by rewrite drop_app_le by lia.
Qed.

(** Reads fail by panicking, never with an error. *)
Lemma index_not_err {E} buf i e : @index E buf i <> Err e.
Proof. unfold index. destruct (_ && _); [destruct (_ !! _)|]; done. Qed.

Lemma slice_not_err {E} buf i j e : @slice E buf i j <> Err e.
Proof. unfold slice. by destruct (_ && _ && _). Qed.

Lemma slice_from_inv {E} buf i r :
  @slice_from E buf i = r ->
  (0 <= i <= len buf /\ r = Ok (drop (Z.to_nat i) buf)) \/ r = Panic IndexOutOfBounds.
Proof.
  unfold slice_from. intros <-.
  destruct (Z.leb_spec 0 i); simpl; [|by right].
  destruct (Z.leb_spec i (len buf)); [left|by right]. split; [lia|done].
Qed.

(** [memchr]: the position of the first occurrence of a byte. *)
Fixpoint memchr (c : byte) (l : bytes) : option Z :=
  match l with
  | [] => None
  | x :: l =>
      if decide (x = c) then Some 0 else
      match memchr c l with
      | Some p => Some (1 + p)
      | None => None
      end
  end.

Lemma memchr_Some c l p :
  memchr c l = Some p <->
  exists pre post, l = pre ++ c :: post /\ (c ∉ pre) /\ p = len pre.
Proof.
  revert p. induction l as [|x l IH]; intros p; simpl.
  { split; [done|]. intros ([|??] & ? & ? & _); done. }
  case_decide as Hx; [subst x|].
  - split.
    + intros [= <-]. exists [], l. split_and!; [done|set_solver|done].
    + intros (pre & post & Hl & Hpre & ->). destruct pre as [|y pre]; [done|].
      simplify_eq/=. set_solver.
  - destruct (memchr c l) as [q|]; split.
    + intros [= <-]. destruct (proj1 (IH q) eq_refl) as (pre & post & -> & ? & ->).
      exists (x :: pre), post. rewrite len_cons. set_solver.
    + intros (pre & post & Hl & Hpre & ->). destruct pre as [|y pre]; simplify_eq/=.
      rewrite len_cons. do 2 f_equal.
      assert (Some q = Some (len pre)) by (apply IH; exists pre, post; set_solver).
      by simplify_eq.
    + done.
    + intros (pre & post & Hl & Hpre & ->). destruct pre as [|y pre]; simplify_eq/=.
      assert (None = Some (len pre)) by (apply IH; exists pre, post; set_solver).
      done.
Qed.

Lemma memchr_None c l : memchr c l = None <-> c ∉ l.
Proof.
  induction l as [|x l IH]; simpl; [set_solver|].
  case_decide; [set_solver|]. destruct (memchr c l); set_solver.
Qed.

Lemma memchr_app pre c post : c ∉ pre -> memchr c (pre ++ c :: post) = Some (len pre).
Proof. intros. apply memchr_Some. eauto. Qed.

(** * Automation *)

Create HintDb pyrsedis.
#[export] Hint Resolve len_nonneg u8_range : pyrsedis.
Create Rewrite HintDb lens.
#[export] Hint Rewrite @len_nil @len_cons @len_app : lens.

(** Normalise every length and finish by linear arithmetic. *)
Ltac len_pos :=
  repeat match goal with
  | |- context [len ?l] =>
      lazymatch goal with
      | _ : 0 <= len l |- _ => fail
      | _ => pose proof (len_nonneg l)
      end
  | _ : context [len ?l] |- _ =>
      lazymatch goal with
      | _ : 0 <= len l |- _ => fail
      | _ => pose proof (len_nonneg l)
      end
  end.
Ltac len_lia := autorewrite with lens in *; len_pos; lia.

(** Split the first undecided test of the goal, keeping its meaning. *)
Ltac case_test :=
  match goal with
  | |- context [Z.ltb ?a ?b] => destruct (Z.ltb_spec a b)
  | |- context [Z.leb ?a ?b] => destruct (Z.leb_spec a b)
  | |- context [Z.eqb ?a ?b] => destruct (Z.eqb_spec a b)
  | |- context [decide ?P] => destruct (decide P)
  end.
