(* ===== verification/RustStd.v ===== *)
(** Decimal numbers as Rust's standard library prints and reads them:
    [to_string] (and the [itoa] crate's output, which is the same), hexadecimal
    escapes, and [str::parse] for the integer types. *)

From Stdlib Require Import Strings.Byte.
From S2P Require Import Prelude.

(** * Decimal numbers *)

Definition digit (d : Z) : byte := byte_of (48 + d).

Fixpoint digits_from (fuel : nat) (n : Z) (acc : bytes) : bytes :=
  match fuel with
  | O => acc
  | S fuel =>
      let acc := digit (n mod 10) :: acc in
      if n / 10 =? 0 then acc else digits_from fuel (n / 10) acc
  end.

(** [itoa::Buffer::format] of an unsigned number. *)
Definition itoa (n : Z) : bytes := digits_from (S (Z.to_nat (Z.log2 n))) n [].

(** [to_string] of a signed number. *)
Definition to_string (z : Z) : bytes :=
  if z <? 0 then "-"%byte :: itoa (- z) else itoa z.

Definition is_ascii_digit (b : byte) : bool := (48 <=? u8 b) && (u8 b <=? 57).

(** The number written by a sequence of digits. *)
Definition dec_value (ds : bytes) : Z :=
  fold_left (fun n b => n * 10 + (u8 b - 48)) ds 0.

Lemma u8_digit d : 0 <= d < 10 -> u8 (digit d) = 48 + d.
Proof. intros. unfold digit. apply u8_byte_of. lia. Qed.

Lemma is_ascii_digit_digit d : 0 <= d < 10 -> is_ascii_digit (digit d) = true.
Proof. intros. unfold is_ascii_digit. rewrite u8_digit by done. lia. Qed.

Lemma fold_dec_shift ds n :
  fold_left (fun n b => n * 10 + (u8 b - 48)) ds n =
  n * 10 ^ len ds + dec_value ds.
Proof.
  unfold dec_value. revert n. induction ds as [|d ds IH]; intros n.
  { simpl. rewrite len_nil. lia. }
  cbn [fold_left].
  rewrite IH, (IH (0 * 10 + _)), len_cons, Z.pow_add_r by len_lia. lia.
Qed.

Lemma dec_value_cons d ds :
  dec_value (d :: ds) = (u8 d - 48) * 10 ^ len ds + dec_value ds.
Proof.
  unfold dec_value at 1. cbn [fold_left]. rewrite fold_dec_shift. lia.
Qed.

Lemma dec_value_nonneg ds :
  Forall (fun b => is_ascii_digit b = true) ds -> 0 <= dec_value ds.
Proof.
  induction 1 as [|d ds Hd _ IH]; [done|].
  rewrite dec_value_cons. unfold is_ascii_digit in Hd.
  pose proof (Z.pow_nonneg 10 (len ds)). nia.
Qed.

Lemma digits_from_spec fuel n acc :
  0 <= n < 10 ^ Z.of_nat fuel ->
  exists ds, digits_from fuel n acc = ds ++ acc /\
    dec_value ds = n /\ Forall (fun b => is_ascii_digit b = true) ds /\
    (fuel <> O -> ds <> []).
Proof.
  revert n acc. induction fuel as [|fuel IH]; intros n acc Hn.
  { exists []. change (10 ^ Z.of_nat 0) with 1 in Hn.
    split_and!; [done|unfold dec_value; simpl; lia|done|done]. }
  assert (0 <= n mod 10 < 10) by (apply Z.mod_pos_bound; lia).
  simpl. destruct (Z.eqb_spec (n / 10) 0) as [Hq|Hq].
  - exists [digit (n mod 10)]. split_and!; [done| |by repeat constructor; apply is_ascii_digit_digit|done].
    unfold dec_value. simpl. rewrite u8_digit by done.
    pose proof (Z.div_mod n 10). lia.
  - destruct (IH (n / 10) (digit (n mod 10) :: acc)) as (ds & -> & Hv & Hd & _).
    { split; [apply Z.div_pos; lia|]. apply Z.div_lt_upper_bound; [lia|].
      rewrite Nat2Z.inj_succ, Z.pow_succ_r in Hn by lia. lia. }
    exists (ds ++ [digit (n mod 10)]). split_and!.
    + by rewrite <- app_assoc.
    + unfold dec_value in *. rewrite fold_left_app, Hv. simpl.
      rewrite u8_digit by done. pose proof (Z.div_mod n 10). lia.
    + apply Forall_app. split; [done|]. repeat constructor. by apply is_ascii_digit_digit.
    + intros _. by destruct ds.
Qed.

Lemma itoa_fuel n : 0 <= n -> n < 10 ^ Z.of_nat (S (Z.to_nat (Z.log2 n))).
Proof.
  intros Hn. destruct (Z.eq_dec n 0) as [->|]; [done|].
  rewrite Nat2Z.inj_succ, Z2Nat.id by apply Z.log2_nonneg.
  destruct (Z.log2_spec n) as [_ Hlt]; [lia|].
  eapply Z.lt_le_trans; [exact Hlt|].
  apply Z.pow_le_mono_l. split; [lia|lia].
Qed.

(** Printing then reading back gives the number. *)
Lemma itoa_spec n :
  0 <= n ->
  dec_value (itoa n) = n /\
  Forall (fun b => is_ascii_digit b = true) (itoa n) /\ itoa n <> [].
Proof.
  intros Hn. unfold itoa.
  destruct (digits_from_spec (S (Z.to_nat (Z.log2 n))) n []) as (ds & -> & ? & ? & ?).
  { split; [done|by apply itoa_fuel]. }
  rewrite app_nil_r. naive_solver.
Qed.

(** [itoa n] has at most [k] digits when [n < 10^k]. *)
Lemma digits_from_length fuel n acc k :
  0 <= n < 10 ^ Z.of_nat k -> (0 < k)%nat ->
  (length (digits_from fuel n acc) <= k + length acc)%nat.
Proof.
  revert n acc k. induction fuel as [|fuel IH]; intros n acc k Hn Hk; simpl; [lia|].
  destruct (Z.eqb_spec (n / 10) 0) as [Hq|Hq]; simpl; [lia|].
  destruct k as [|[|k]]; [lia| |].
  - exfalso. apply Hq. apply Z.div_small. simpl in Hn. lia.
  - transitivity (S k + length (digit (n mod 10) :: acc))%nat; [|simpl; lia].
    apply IH; [|lia]. split; [apply Z.div_pos; lia|].
    apply Z.div_lt_upper_bound; [lia|].
    rewrite Nat2Z.inj_succ, Z.pow_succ_r in Hn by lia. lia.
Qed.

Lemma itoa_length n k :
  0 <= n < 10 ^ Z.of_nat k -> (0 < k)%nat -> len (itoa n) <= Z.of_nat k.
Proof.
  intros Hn Hk. unfold itoa, len.
  pose proof (digits_from_length (S (Z.to_nat (Z.log2 n))) n [] k Hn Hk).
  simpl in *. lia.
Qed.

Lemma digit_not_CR ds :
  Forall (fun b => is_ascii_digit b = true) ds -> CR ∉ ds.
Proof.
  intros H Hin. rewrite Forall_forall in H.
  apply H in Hin. vm_compute in Hin. done.
Qed.

Lemma itoa_not_CR n : 0 <= n -> CR ∉ itoa n.
Proof. intros. by apply digit_not_CR, itoa_spec. Qed.

(** [{b:02x}]. *)
Definition hex_digit (d : Z) : byte :=
  if d <? 10 then byte_of (48 + d) else byte_of (87 + d).
Definition hex02 (b : byte) : bytes :=
  [hex_digit (u8 b / 16); hex_digit (u8 b mod 16)].

(** * Integer parsing

    [<integer>::from_str] with radix 10: an optional sign (a minus only for a
    signed type), at least one digit, only digits, the value in range. *)
Fixpoint all_digits (l : bytes) : bool :=
  match l with
  | [] => true
  | b :: l => is_ascii_digit b && all_digits l
  end.

Definition parse_unsigned (max : Z) (s : bytes) : option Z :=
  let ds := match s with
            | b :: t => if decide (b = "+"%byte) then t else s
            | [] => s
            end in
  match ds with
  | [] => None
  | _ => if all_digits ds && (dec_value ds <=? max) then Some (dec_value ds) else None
  end.

Definition U16_MAX : Z := 2 ^ 16 - 1.
Definition I64_MIN : Z := - 2 ^ 63.
Definition I64_MAX : Z := 2 ^ 63 - 1.

Definition parse_u16 (s : bytes) : option Z := parse_unsigned U16_MAX s.
Definition parse_usize (s : bytes) : option Z := parse_unsigned USIZE_MAX s.

Definition parse_i64 (s : bytes) : option Z :=
  match s with
  | b :: t =>
      if decide (b = "-"%byte) then
        match t with
        | [] => None
        | _ => if all_digits t && (I64_MIN <=? - dec_value t)
               then Some (- dec_value t) else None
        end
      else parse_unsigned I64_MAX s
  | [] => None
  end.

Lemma all_digits_Forall l :
  all_digits l = true <-> Forall (fun b => is_ascii_digit b = true) l.
Proof.
  induction l as [|b l IH]; simpl; [done|].
  rewrite andb_true_iff, IH, Forall_cons. done.
Qed.

Lemma parse_unsigned_itoa max n :
  0 <= n <= max -> parse_unsigned max (itoa n) = Some n.
Proof.
  intros Hn. destruct (itoa_spec n) as (Hv & Hd & Hne); [lia|].
  unfold parse_unsigned. pose proof (proj2 (all_digits_Forall _) Hd) as Hall.
  destruct (itoa n) as [|b t] eqn:E; [done|].
  rewrite decide_False.
  - rewrite Hall, Hv, (proj2 (Z.leb_le _ _)) by lia. done.
  - intros ->. inversion Hd. done.
Qed.

Lemma parse_unsigned_range max s n :
  parse_unsigned max s = Some n -> 0 <= n <= max.
Proof.
  unfold parse_unsigned. intros H.
  match type of H with context [match ?e with [] => None | _ => _ end] =>
    destruct e as [|d ds] eqn:E; [done|] end.
  destruct (all_digits (d :: ds)) eqn:Ha; [|done].
  destruct (Z.leb_spec (dec_value (d :: ds)) max); [|done]. simpl in H. simplify_eq.
  apply all_digits_Forall in Ha. split; [by apply dec_value_nonneg|done].
Qed.
