(* ===== verification/Utf8.v ===== *)
(** UTF-8 as Rust's standard library checks it: [std::str::from_utf8] with the
    position and length its error reports, [String::from_utf8_lossy], and the
    Unicode white space that [str::trim] and [str::split_whitespace] use. *)

From Stdlib Require Import Strings.Byte.
From S2P Require Import Prelude RustStd.

(** [std::str::Utf8Error]. *)
Record Utf8Error := { valid_up_to : Z; error_len : option Z }.

Definition in_range (lo hi : Z) (b : byte) : bool := (lo <=? u8 b) && (u8 b <=? hi).
Definition is_cont (b : byte) : bool := in_range 0x80 0xBF b.

(** The second byte a three-byte or a four-byte sequence may have. *)
Definition second_of_3 (b0 b1 : byte) : bool :=
  if u8 b0 =? 0xE0 then in_range 0xA0 0xBF b1
  else if u8 b0 =? 0xED then in_range 0x80 0x9F b1
  else is_cont b1.
Definition second_of_4 (b0 b1 : byte) : bool :=
  if u8 b0 =? 0xF0 then in_range 0x90 0xBF b1
  else if u8 b0 =? 0xF4 then in_range 0x80 0x8F b1
  else is_cont b1.

(** The validation loop: the first error at or after [off], if any. *)
Fixpoint utf8_check (s : bytes) (off : Z) : option Utf8Error :=
  let bad n := Some {| valid_up_to := off; error_len := Some n |} in
  let cut := Some {| valid_up_to := off; error_len := None |} in
  match s with
  | [] => None
  | b0 :: s1 =>
      if u8 b0 <? 0x80 then utf8_check s1 (off + 1)
      else if in_range 0xC2 0xDF b0 then
        match s1 with
        | [] => cut
        | b1 :: s2 => if is_cont b1 then utf8_check s2 (off + 2) else bad 1
        end
      else if in_range 0xE0 0xEF b0 then
        match s1 with
        | [] => cut
        | b1 :: s2 =>
            if second_of_3 b0 b1 then
              match s2 with
              | [] => cut
              | b2 :: s3 => if is_cont b2 then utf8_check s3 (off + 3) else bad 2
              end
            else bad 1
        end
      else if in_range 0xF0 0xF4 b0 then
        match s1 with
        | [] => cut
        | b1 :: s2 =>
            if second_of_4 b0 b1 then
              match s2 with
              | [] => cut
              | b2 :: s3 =>
                  if is_cont b2 then
                    match s3 with
                    | [] => cut
                    | b3 :: s4 => if is_cont b3 then utf8_check s4 (off + 4) else bad 3
                    end
                  else bad 2
              end
            else bad 1
        end
      else bad 1
  end.

(** [std::str::from_utf8] and [String::from_utf8]: the same bytes, checked. *)
Definition from_utf8 (s : bytes) : res Utf8Error bytes :=
  match utf8_check s 0 with
  | None => Ok s
  | Some e => Err e
  end.

Definition valid_utf8 (s : bytes) : bool :=
  match utf8_check s 0 with None => true | Some _ => false end.

(** [impl Display for Utf8Error]. *)
Definition show_utf8_error (e : Utf8Error) : bytes :=
  match error_len e with
  | Some n => bs "invalid utf-8 sequence of " ++ itoa n ++ bs " bytes from index "
              ++ itoa (valid_up_to e)
  | None => bs "incomplete utf-8 byte sequence from index " ++ itoa (valid_up_to e)
  end.

(** U+FFFD, which [from_utf8_lossy] puts in place of each invalid sequence. *)
Definition REPLACEMENT : bytes := [xef; xbf; xbd].

Fixpoint from_utf8_lossy (s : bytes) : bytes :=
  match s with
  | [] => []
  | b0 :: s1 =>
      if u8 b0 <? 0x80 then b0 :: from_utf8_lossy s1
      else if in_range 0xC2 0xDF b0 then
        match s1 with
        | [] => REPLACEMENT
        | b1 :: s2 =>
            if is_cont b1 then b0 :: b1 :: from_utf8_lossy s2
            else REPLACEMENT ++ from_utf8_lossy s1
        end
      else if in_range 0xE0 0xEF b0 then
        match s1 with
        | [] => REPLACEMENT
        | b1 :: s2 =>
            if second_of_3 b0 b1 then
              match s2 with
              | [] => REPLACEMENT
              | b2 :: s3 =>
                  if is_cont b2 then b0 :: b1 :: b2 :: from_utf8_lossy s3
                  else REPLACEMENT ++ from_utf8_lossy s2
              end
            else REPLACEMENT ++ from_utf8_lossy s1
        end
      else if in_range 0xF0 0xF4 b0 then
        match s1 with
        | [] => REPLACEMENT
        | b1 :: s2 =>
            if second_of_4 b0 b1 then
              match s2 with
              | [] => REPLACEMENT
              | b2 :: s3 =>
                  if is_cont b2 then
                    match s3 with
                    | [] => REPLACEMENT
                    | b3 :: s4 =>
                        if is_cont b3 then b0 :: b1 :: b2 :: b3 :: from_utf8_lossy s4
                        else REPLACEMENT ++ from_utf8_lossy s3
                    end
                  else REPLACEMENT ++ from_utf8_lossy s2
              end
            else REPLACEMENT ++ from_utf8_lossy s1
        end
      else REPLACEMENT ++ from_utf8_lossy s1
  end.

(** Case analysis over the shapes of a character: split the bytes and the
    tests of the goal until no recursive call is under a match. *)
Ltac utf8_cases :=
  repeat match goal with
  | |- context [if ?b then _ else _] => destruct b eqn:?
  | |- context [match ?s with [] => _ | _ :: _ => _ end] => is_var s; destruct s
  end.

(** Induction four bytes at a time. *)
Lemma bytes_ind4 (P : bytes -> Prop) :
  P [] ->
  (forall b0 s, P s ->
     (forall b1 t, s = b1 :: t -> P t) ->
     (forall b1 b2 t, s = b1 :: b2 :: t -> P t) ->
     (forall b1 b2 b3 t, s = b1 :: b2 :: b3 :: t -> P t) -> P (b0 :: s)) ->
  forall s, P s.
Proof.
  intros Hnil Hcons s. remember (length s) as n eqn:Hn.
  revert s Hn. induction n as [n IH] using lt_wf_ind. intros [|b0 s] ->; [done|].
  apply Hcons; intros; subst; eapply IH; try reflexivity; simpl; lia.
Qed.

Lemma utf8_check_shift s off d :
  utf8_check s (off + d) =
  match utf8_check s off with
  | None => None
  | Some e => Some {| valid_up_to := valid_up_to e + d; error_len := error_len e |}
  end.
Proof.
  revert off. induction s as [|b0 s IH0 IH1 IH2 IH3] using bytes_ind4; intros off; [done|].
  simpl. utf8_cases; simpl; try done;
    rewrite ?(Z.add_shuffle0 off d);
    first [apply IH0|by eapply IH1|by eapply IH2|by eapply IH3].
Qed.

Lemma utf8_check_None s off : utf8_check s off = None <-> valid_utf8 s = true.
Proof.
  unfold valid_utf8. rewrite <- (Z.add_0_l off), utf8_check_shift.
  destruct (utf8_check s 0); naive_solver.
Qed.

Lemma from_utf8_ok s t : from_utf8 s = Ok t <-> valid_utf8 s = true /\ t = s.
Proof. unfold from_utf8, valid_utf8. destruct (utf8_check s 0); naive_solver. Qed.

Lemma from_utf8_valid s : valid_utf8 s = true -> from_utf8 s = Ok s.
Proof. intros. by apply from_utf8_ok. Qed.

Lemma from_utf8_no_panic s p : from_utf8 s <> Panic p.
Proof. unfold from_utf8. by destruct (utf8_check s 0). Qed.

(** A valid prefix does not change the verdict on the rest. *)
Lemma utf8_check_app s t off :
  valid_utf8 s = true -> utf8_check (s ++ t) off = utf8_check t (off + len s).
Proof.
  rewrite <- (utf8_check_None s off). revert off.
  induction s as [|b0 s IH0 IH1 IH2 IH3] using bytes_ind4; intros off.
  { intros _. rewrite len_nil, Z.add_0_r. done. }
  simpl. utf8_cases; intros H; try done; simpl;
    repeat match goal with H : _ = true |- _ => rewrite ?H in *; clear H end;
    rewrite ?len_cons;
    first [rewrite (IH0 _ H)|rewrite (IH1 _ _ eq_refl _ H)
          |rewrite (IH2 _ _ _ eq_refl _ H)|rewrite (IH3 _ _ _ _ eq_refl _ H)];
    f_equal; lia.
Qed.

Lemma valid_utf8_app s t :
  valid_utf8 s = true -> valid_utf8 t = true -> valid_utf8 (s ++ t) = true.
Proof.
  intros Hs Ht. apply (utf8_check_None _ 0). rewrite utf8_check_app by done.
  by apply utf8_check_None.
Qed.

(** ASCII text is valid UTF-8. *)
Lemma valid_utf8_ascii s : Forall (fun b => u8 b < 0x80) s -> valid_utf8 s = true.
Proof.
  intros H. apply (utf8_check_None _ 0). generalize 0.
  induction H as [|b s Hb _ IH]; intros off; [done|].
  simpl. rewrite (proj2 (Z.ltb_lt _ _) Hb). apply IH.
Qed.

(** Valid text passes through the lossy decoder unchanged. *)
Lemma from_utf8_lossy_valid s : valid_utf8 s = true -> from_utf8_lossy s = s.
Proof.
  rewrite <- (utf8_check_None s 0). generalize 0.
  induction s as [|b0 s IH0 IH1 IH2 IH3] using bytes_ind4; intros off; [done|].
  simpl. utf8_cases; intros H; try done; repeat f_equal;
    first [by eapply IH0|by eapply IH1|by eapply IH2|by eapply IH3].
Qed.

Lemma itoa_valid_utf8 n : 0 <= n -> valid_utf8 (itoa n) = true.
Proof.
  intros Hn. apply valid_utf8_ascii.
  destruct (itoa_spec n Hn) as (_ & Hd & _).
  eapply Forall_impl; [exact Hd|]. intros b. unfold is_ascii_digit. simpl. lia.
Qed.
