(* ===== verification/RustStr.v ===== *)
(** The [str] methods the program uses, on the bytes of a UTF-8 string. Every
    separator the program searches for is ASCII, so searching bytes finds
    exactly the characters. *)

From Stdlib Require Import Strings.Byte.
From S2P Require Import Prelude RustStd Utf8.

(** [s.split_once(c)]: around the first [c]. *)
Fixpoint split_once (c : byte) (s : bytes) : option (bytes * bytes) :=
  match s with
  | [] => None
  | b :: t =>
      if decide (b = c) then Some ([], t) else
      match split_once c t with
      | Some (l, r) => Some (b :: l, r)
      | None => None
      end
  end.

(** [s.rsplit_once(c)]: around the last [c]. *)
Definition rsplit_once (c : byte) (s : bytes) : option (bytes * bytes) :=
  match split_once c (reverse s) with
  | Some (r, l) => Some (reverse l, reverse r)
  | None => None
  end.

(** [s.strip_prefix(p)]. *)
Fixpoint strip_prefix (p s : bytes) : option bytes :=
  match p, s with
  | [], _ => Some s
  | a :: p, b :: s => if decide (a = b) then strip_prefix p s else None
  | _ :: _, [] => None
  end.

(** [s.starts_with(p)]. *)
Definition starts_with (p s : bytes) : bool :=
  match strip_prefix p s with Some _ => true | None => false end.

(** [s.split_once(pat)] for a string pattern. *)
Fixpoint split_once_str (pat s : bytes) : option (bytes * bytes) :=
  match strip_prefix pat s with
  | Some r => Some ([], r)
  | None =>
      match s with
      | [] => None
      | b :: t =>
          match split_once_str pat t with
          | Some (l, r) => Some (b :: l, r)
          | None => None
          end
      end
  end.

(** [s.split(c)]: the pieces between separators, at least one. *)
Fixpoint split (c : byte) (s : bytes) : list bytes :=
  match s with
  | [] => [[]]
  | b :: t =>
      if decide (b = c) then [] :: split c t else
      match split c t with
      | p :: ps => (b :: p) :: ps
      | [] => [[b]]
      end
  end.

(** [s.chars().filter(|&x| x == c).count()] for an ASCII [c]. *)
Fixpoint count_byte (c : byte) (s : bytes) : Z :=
  match s with
  | [] => 0
  | b :: t => (if decide (b = c) then 1 else 0) + count_byte c t
  end.

(** [s.contains(c)]. *)
Definition contains (c : byte) (s : bytes) : bool :=
  match memchr c s with Some _ => true | None => false end.

(** The characters with the Unicode property White_Space, by their encodings:
    U+0009..000D, 0020; 0085, 00A0; 1680, 2000..200A, 2028, 2029, 202F, 205F,
    3000. *)
Definition ws1 (b0 : byte) : bool := in_range 0x09 0x0D b0 || (u8 b0 =? 0x20).
Definition ws2 (b0 b1 : byte) : bool :=
  (u8 b0 =? 0xC2) && ((u8 b1 =? 0x85) || (u8 b1 =? 0xA0)).
Definition ws3 (b0 b1 b2 : byte) : bool :=
  ((u8 b0 =? 0xE1) && (u8 b1 =? 0x9A) && (u8 b2 =? 0x80))
  || ((u8 b0 =? 0xE2) && (u8 b1 =? 0x80)
      && (in_range 0x80 0x8A b2 || in_range 0xA8 0xA9 b2 || (u8 b2 =? 0xAF)))
  || ((u8 b0 =? 0xE2) && (u8 b1 =? 0x81) && (u8 b2 =? 0x9F))
  || ((u8 b0 =? 0xE3) && (u8 b1 =? 0x80) && (u8 b2 =? 0x80)).

(** [s.trim_start()]. *)
Fixpoint trim_start (s : bytes) : bytes :=
  match s with
  | [] => []
  | b0 :: s1 =>
      if ws1 b0 then trim_start s1 else
      match s1 with
      | [] => s
      | b1 :: s2 =>
          if ws2 b0 b1 then trim_start s2 else
          match s2 with
          | [] => s
          | b2 :: s3 => if ws3 b0 b1 b2 then trim_start s3 else s
          end
      end
  end.

(** [s.trim_end()], on the reversed bytes. *)
Fixpoint trim_end_rev (s : bytes) : bytes :=
  match s with
  | [] => []
  | b0 :: s1 =>
      if ws1 b0 then trim_end_rev s1 else
      match s1 with
      | [] => s
      | b1 :: s2 =>
          if ws2 b1 b0 then trim_end_rev s2 else
          match s2 with
          | [] => s
          | b2 :: s3 => if ws3 b2 b1 b0 then trim_end_rev s3 else s
          end
      end
  end.

(** [s.trim()]. *)
Definition trim (s : bytes) : bytes := reverse (trim_end_rev (reverse (trim_start s))).

(** The characters before the first white space. *)
Fixpoint take_word (s : bytes) : bytes :=
  match s with
  | [] => []
  | b0 :: s1 =>
      if ws1 b0 then [] else
      match s1 with
      | b1 :: b2 :: _ => if ws2 b0 b1 || ws3 b0 b1 b2 then [] else b0 :: take_word s1
      | [b1] => if ws2 b0 b1 then [] else b0 :: take_word s1
      | [] => [b0]
      end
  end.

(** [s.split_whitespace().next()]. *)
Definition first_word (s : bytes) : option bytes :=
  match trim_start s with
  | [] => None
  | t => Some (take_word t)
  end.

(** [b.to_ascii_uppercase()] and [s.to_ascii_uppercase()]. *)
Definition upper (b : byte) : byte :=
  if in_range 97 122 b then byte_of (u8 b - 32) else b.
Definition to_ascii_uppercase (s : bytes) : bytes := map upper s.

(** [a.eq_ignore_ascii_case(b)]. *)
Definition eq_ignore_ascii_case (a b : bytes) : bool :=
  bool_decide (to_ascii_uppercase a = to_ascii_uppercase b).

(** * Lemmas *)

Lemma split_once_Some c s l r :
  split_once c s = Some (l, r) <-> s = l ++ c :: r /\ (c ∉ l).
Proof.
  revert l r. induction s as [|b s IH]; intros l r; simpl.
  { split; [done|]. intros [H _]. by destruct l. }
  case_decide as Hb; [subst b|].
  - split; [intros; simplify_eq; set_solver|].
    intros [H Hl]. destruct l as [|x l]; simplify_eq/=; [done|set_solver].
  - destruct (split_once c s) as [[l' r']|].
    + split.
      * intros; simplify_eq. destruct (proj1 (IH l' r) eq_refl) as [-> ?]. set_solver.
      * intros [H Hl]. destruct l as [|x l]; simplify_eq/=.
        assert (Some (l', r') = Some (l, r)) by (apply IH; set_solver). by simplify_eq.
    + split; [done|]. intros [H Hl]. destruct l as [|x l]; simplify_eq/=.
      assert (None = Some (l, r)) by (apply IH; set_solver). done.
Qed.

Lemma split_once_app c l r : c ∉ l -> split_once c (l ++ c :: r) = Some (l, r).
Proof. intros. by apply split_once_Some. Qed.

Lemma split_once_None c s : split_once c s = None <-> c ∉ s.
Proof.
  induction s as [|b s IH]; simpl; [set_solver|].
  case_decide; [set_solver|]. destruct (split_once c s) as [[]|]; set_solver.
Qed.

Lemma rsplit_once_app c l r : c ∉ r -> rsplit_once c (l ++ c :: r) = Some (l, r).
Proof.
  intros Hr. unfold rsplit_once. rewrite reverse_app, reverse_cons, <- app_assoc.
  simpl. rewrite split_once_app by (rewrite elem_of_reverse; done).
  by rewrite !reverse_involutive.
Qed.

Lemma rsplit_once_None c s : rsplit_once c s = None <-> c ∉ s.
Proof.
  unfold rsplit_once. rewrite <- (elem_of_reverse c s).
  rewrite <- split_once_None. by destruct (split_once c (reverse s)) as [[]|].
Qed.

Lemma strip_prefix_Some p s r : strip_prefix p s = Some r <-> s = p ++ r.
Proof.
  revert s. induction p as [|a p IH]; intros s; simpl; [naive_solver|].
  destruct s as [|b s]; [naive_solver|]. case_decide; [|naive_solver].
  rewrite IH. naive_solver.
Qed.

Lemma strip_prefix_app p r : strip_prefix p (p ++ r) = Some r.
Proof. by apply strip_prefix_Some. Qed.

Lemma starts_with_app p r : starts_with p (p ++ r) = true.
Proof. unfold starts_with. by rewrite strip_prefix_app. Qed.

Lemma contains_spec c s : contains c s = true <-> c ∈ s.
Proof.
  unfold contains. destruct (memchr c s) eqn:E.
  - split; [|done]. intros _. apply memchr_Some in E as (pre & post & -> & _). set_solver.
  - apply memchr_None in E. done.
Qed.

(** [{:?}] of a [&str] without characters to escape. *)
Definition quoted (s : bytes) : bytes := [x22] ++ s ++ [x22].
