(* ===== verification/Float64.v ===== *)
(** [f64] as the standard library's [spec_float] at binary64: parsing with
    [f64::from_str] (correctly rounded) and the cast [i64 as f64]. *)

From Stdlib Require Import Strings.Byte SpecFloat.
From S2P Require Import Prelude RustStd Utf8 RustStr.

Definition prec : Z := 53.
Definition emax : Z := 1024.

Abbreviation f64 := spec_float.

Definition f64_INFINITY : f64 := S754_infinity false.
Definition f64_NEG_INFINITY : f64 := S754_infinity true.
Definition f64_NAN : f64 := S754_nan.
Definition f64_zero : f64 := S754_zero false.

(** [i as f64] for an [i64]: round to nearest, ties to even. *)
Definition f64_of_i64 (i : Z) : f64 := binary_normalize prec emax i 0 false.

(** [m * 10^e] rounded to nearest even, for [m >= 0]. The two cut-offs keep
    the powers of ten small: above the first every value is infinite, below the
    second every value rounds to zero. *)
Definition f64_of_decimal (neg : bool) (m e : Z) (ndigits : Z) : f64 :=
  match m with
  | Zpos p =>
      if 310 <? e then S754_infinity neg
      else if e + ndigits <? -330 then S754_zero neg
      else if 0 <=? e then
        binary_normalize prec emax (cond_Zopp neg (m * 10 ^ e)) 0 neg
      else SFdiv prec emax (S754_finite neg p 0)
             (S754_finite false (Z.to_pos (10 ^ (- e))) 0)
  | _ => S754_zero neg
  end.

(** [std::num::ParseFloatError] and its [Display]. *)
Inductive ParseFloatError := FloatEmpty | FloatInvalid.
Definition show_parse_float_error (e : ParseFloatError) : bytes :=
  match e with
  | FloatEmpty => bs "cannot parse float from empty string"
  | FloatInvalid => bs "invalid float literal"
  end.

(** The leading digits and the rest. *)
Fixpoint take_digits (s : bytes) : bytes * bytes :=
  match s with
  | b :: t =>
      if is_ascii_digit b then let '(ds, r) := take_digits t in (b :: ds, r)
      else ([], s)
  | [] => ([], [])
  end.

(** The optional exponent: [None] when the text is not a float. *)
Definition parse_exponent (s : bytes) : option Z :=
  match s with
  | [] => Some 0
  | b :: t =>
      if bool_decide (b = "e"%byte) || bool_decide (b = "E"%byte) then
        let '(neg, t) :=
          match t with
          | c :: t' =>
              if decide (c = "-"%byte) then (true, t')
              else if decide (c = "+"%byte) then (false, t') else (false, t)
          | [] => (false, t)
          end in
        match take_digits t with
        | ([], _) => None
        | (ds, []) => Some (if neg : bool then - dec_value ds else dec_value ds)
        | (_, _ :: _) => None
        end
      else None
  end.

(** The decimal forms: digits, an optional fraction, an optional exponent. *)
Definition parse_decimal (neg : bool) (s : bytes) : option f64 :=
  let '(ds, r) := take_digits s in
  let '(fs, r) :=
    match r with
    | b :: t => if decide (b = "."%byte) then take_digits t else ([], r)
    | [] => ([], [])
    end in
  match ds ++ fs with
  | [] => None
  | m =>
      match parse_exponent r with
      | Some e => Some (f64_of_decimal neg (dec_value m) (e - len fs) (len m))
      | None => None
      end
  end.

(** [inf], [infinity] and [nan], in any case. *)
Definition parse_special (neg : bool) (s : bytes) : option f64 :=
  if eq_ignore_ascii_case s (bs "inf") || eq_ignore_ascii_case s (bs "infinity")
  then Some (S754_infinity neg)
  else if eq_ignore_ascii_case s (bs "nan") then Some S754_nan else None.

(** [s.parse::<f64>()]. *)
Definition parse_f64 (s : bytes) : res ParseFloatError f64 :=
  match s with
  | [] => Err FloatEmpty
  | b :: t =>
      let '(neg, t) :=
        if decide (b = "-"%byte) then (true, t)
        else if decide (b = "+"%byte) then (false, t) else (false, s) in
      match t with
      | [] => Err FloatInvalid
      | _ =>
          match parse_decimal neg t with
          | Some f => Ok f
          | None => ok_or (parse_special neg t) FloatInvalid
          end
      end
  end.

Lemma parse_f64_no_panic s p : parse_f64 s <> Panic p.
Proof.
  unfold parse_f64. destruct s as [|b s]; [done|].
  repeat case_decide; destruct s; try done;
    repeat match goal with
    | |- context [match parse_decimal ?n ?t with _ => _ end] =>
        destruct (parse_decimal n t); try done
    | |- context [parse_special ?n ?t] => destruct (parse_special n t); try done
    end.
Qed.

(** The three spellings the RESP grammar names parse as the constants the
    parser uses for them. *)
Lemma parse_f64_inf : parse_f64 (bs "inf") = Ok f64_INFINITY.
Proof. reflexivity. Qed.
Lemma parse_f64_neg_inf : parse_f64 (bs "-inf") = Ok f64_NEG_INFINITY.
Proof. reflexivity. Qed.
Lemma parse_f64_nan : parse_f64 (bs "nan") = Ok f64_NAN.
Proof. reflexivity. Qed.

Example parse_f64_quarter : parse_f64 (bs "0.25") = Ok (S754_finite false 4503599627370496 (-54)).
Proof. vm_compute. reflexivity. Qed.
Example parse_f64_1e400 : parse_f64 (bs "-1e400") = Ok f64_NEG_INFINITY.
Proof. vm_compute. reflexivity. Qed.
