(* ===== verification/Display64.v ===== *)
(** [f64]'s [Display] ([to_string]): the shortest decimal that reads back as
    the same number, the closest one among those of that length, written without
    an exponent. *)

From Stdlib Require Import Strings.Byte SpecFloat.
From S2P Require Import Prelude RustStd Utf8 RustStr Float64.

(** [m * 2^e * 10^s] as a fraction: numerator and denominator. *)
Definition scaled (m e s : Z) : Z * Z :=
  let num := m * 2 ^ (Z.max e 0) * 10 ^ (Z.max s 0) in
  let den := 2 ^ (Z.max (- e) 0) * 10 ^ (Z.max (- s) 0) in
  (num, den).

(** Does [c * 10^(-s)] read back as [m * 2^e]? *)
Definition reads_back (m : positive) (e c s : Z) : bool :=
  match f64_of_decimal false c (- s) (len (itoa c)) with
  | S754_finite false m' e' => (m =? m')%positive && (e =? e')
  | _ => false
  end.

(** The decimal exponent: the least [p] at or after [est] with [v < 10^p]. *)
Fixpoint decimal_exponent (fuel : nat) (m e p : Z) : Z :=
  match fuel with
  | O => p
  | S fuel =>
      let '(num, den) := scaled m e (- p) in
      if num <? den then p else decimal_exponent fuel m e (p + 1)
  end.

(** The shortest digits and their scale, trying [k], [k + 1], ... digits. *)
Fixpoint shortest (fuel : nat) (m : positive) (e p k : Z) : Z * Z :=
  let s := k - p in
  let '(num, den) := scaled (Zpos m) e s in
  let lo := num / den in
  let hi := lo + 1 in
  match reads_back m e lo s, reads_back m e hi s with
  | true, true => if 2 * num <? (lo + hi) * den then (lo, s) else (hi, s)
  | true, false => (lo, s)
  | false, true => (hi, s)
  | false, false =>
      match fuel with
      | O => (lo, s)
      | S fuel => shortest fuel m e p (k + 1)
      end
  end.

(** Drop the zeros at the end of the digits. *)
Fixpoint strip_zeros (fuel : nat) (c s : Z) : Z * Z :=
  match fuel with
  | O => (c, s)
  | S fuel => if c mod 10 =? 0 then strip_zeros fuel (c / 10) (s - 1) else (c, s)
  end.

Definition zeros (n : Z) : bytes := repeat "0"%byte (Z.to_nat n).

(** [c * 10^(-s)] without an exponent. *)
Definition positional (c s : Z) : bytes :=
  let ds := itoa c in
  if s <=? 0 then ds ++ zeros (- s)
  else if s <? len ds
  then take (Z.to_nat (len ds - s)) ds ++ bs "." ++ drop (Z.to_nat (len ds - s)) ds
  else bs "0." ++ zeros (s - len ds) ++ ds.

Definition f64_magnitude (m : positive) (e : Z) : bytes :=
  let est := (Z.log2 (Zpos m) + e) * 30103 / 100000 - 1 in
  let p := decimal_exponent 4 (Zpos m) e est in
  let '(c, s) := shortest 16 m e p 1 in
  let '(c, s) := strip_zeros 20 c s in
  positional c s.

Definition f64_to_string (f : f64) : bytes :=
  match f with
  | S754_nan => bs "NaN"
  | S754_infinity neg => if neg then bs "-inf" else bs "inf"
  | S754_zero neg => if neg then bs "-0" else bs "0"
  | S754_finite neg m e => (if neg then bs "-" else []) ++ f64_magnitude m e
  end.

(** The text of a decimal, through the nearest float. *)
Definition reprint (s : string) : bytes :=
  match parse_f64 (bs s) with Ok f => f64_to_string f | _ => [] end.

Example display_values :
  map reprint ["1"; "1.5"; "0.1"; "-2.50"; "3.141592653589793"; "1e21"; "1e-7"; "100"; "123456.789";
    "0.30000000000000004"; "9007199254740993"] =
  map bs ["1"; "1.5"; "0.1"; "-2.5"; "3.141592653589793"; "1000000000000000000000"; "0.0000001";
    "100"; "123456.789"; "0.30000000000000004"; "9007199254740992"].
Proof. vm_compute. reflexivity. Qed.
