(* ===== verification/Error.v ===== *)
(** src/error.rs: the structured kinds of Redis errors, the crate's error type
    and its conversion to Python exceptions. *)

From Stdlib Require Import Strings.Byte.
From S2P Require Import Prelude RustStd Utf8 RustStr.

(** [RedisErrorKind]. *)
Module RedisErrorKind.
Inductive t :=
| Err
| WrongType
| Moved (slot : Z) (addr : bytes)
| Ask (slot : Z) (addr : bytes)
| ClusterDown
| Loading
| ReadOnly
| NoScript
| Busy
| TryAgain
| Other (prefix : bytes).

(** The structured form of a redirection: [slot addr] after the prefix. *)
Definition parse_redirect (rest : bytes) : option (Z * bytes) :=
  match split_once " "%byte rest with
  | Some (slot_str, addr) =>
      match parse_u16 slot_str with
      | Some slot => Some (slot, addr)
      | None => None
      end
  | None => None
  end.

Definition from_error_msg (msg : bytes) : t * bytes :=
  match strip_prefix (bs "MOVED ") msg with
  | Some rest =>
      match parse_redirect rest with
      | Some (slot, addr) => (Moved slot addr, msg)
      | None => (Other (bs "MOVED"), msg)
      end
  | None =>
  match strip_prefix (bs "ASK ") msg with
  | Some rest =>
      match parse_redirect rest with
      | Some (slot, addr) => (Ask slot addr, msg)
      | None => (Other (bs "ASK"), msg)
      end
  | None =>
      let kind :=
        if starts_with (bs "WRONGTYPE") msg then WrongType
        else if starts_with (bs "CLUSTERDOWN") msg then ClusterDown
        else if starts_with (bs "LOADING") msg then Loading
        else if starts_with (bs "READONLY") msg then ReadOnly
        else if starts_with (bs "NOSCRIPT") msg then NoScript
        else if starts_with (bs "BUSY") msg then Busy
        else if starts_with (bs "TRYAGAIN") msg then TryAgain
        else if starts_with (bs "ERR") msg then Err
        else Other (default (bs "UNKNOWN") (first_word msg)) in
      (kind, msg)
  end
  end.
End RedisErrorKind.

(** [std::io::Error]: the kinds the program creates, and any other the
    operating system reports, each with the text it displays. *)
Inductive IoErrorKind := IoOther | UnexpectedEof | IoOs.
Record IoError := { io_kind : IoErrorKind; io_text : bytes }.

(** [PyrsedisError]. *)
Inductive PyrsedisError :=
| Connection (e : IoError)
| Protocol (msg : bytes)
| Incomplete
| Redis (kind : RedisErrorKind.t) (message : bytes)
| Graph (msg : bytes)
| Type_ (msg : bytes)
| Timeout (msg : bytes)
| Cluster (msg : bytes)
| Sentinel (msg : bytes).

(** [pub type Result<T>]. *)
Abbreviation Result := (res PyrsedisError).

(** [PyrsedisError::redis]. *)
Definition redis (msg : bytes) : PyrsedisError :=
  let '(kind, message) := RedisErrorKind.from_error_msg msg in Redis kind message.

Definition is_moved (e : PyrsedisError) : bool :=
  match e with Redis (RedisErrorKind.Moved _ _) _ => true | _ => false end.

Definition is_ask (e : PyrsedisError) : bool :=
  match e with Redis (RedisErrorKind.Ask _ _) _ => true | _ => false end.

Definition moved_info (e : PyrsedisError) : option (Z * bytes) :=
  match e with
  | Redis (RedisErrorKind.Moved slot addr) _ => Some (slot, addr)
  | _ => None
  end.

Definition ask_info (e : PyrsedisError) : option (Z * bytes) :=
  match e with
  | Redis (RedisErrorKind.Ask slot addr) _ => Some (slot, addr)
  | _ => None
  end.

(** [impl fmt::Display for PyrsedisError]. *)
Definition show_error (e : PyrsedisError) : bytes :=
  match e with
  | Connection e => bs "connection error: " ++ io_text e
  | Protocol msg => bs "protocol error: " ++ msg
  | Incomplete => bs "incomplete RESP message"
  | Redis _ message => bs "redis error: " ++ message
  | Graph msg => bs "graph error: " ++ msg
  | Type_ msg => bs "type error: " ++ msg
  | Timeout msg => bs "timeout: " ++ msg
  | Cluster msg => bs "cluster error: " ++ msg
  | Sentinel msg => bs "sentinel error: " ++ msg
  end.

(** [impl From<io::Error> for PyrsedisError]. *)
Definition from_io_error (e : IoError) : PyrsedisError := Connection e.

(** The Python exception classes of [mod exc], with the two built-in classes
    they meet. *)
Module exc.
Inductive class :=
| PyException
| PyTypeError
| PyrsedisError
| RedisConnectionError
| RedisTimeoutError
| ProtocolError
| RedisError
| GraphError
| ClusterError
| SentinelError
| ResponseError
| WrongTypeError
| ReadOnlyError
| NoScriptError
| BusyError
| ClusterDownError.

(** The base class each [create_exception!] names. *)
Definition base (c : class) : option class :=
  match c with
  | PyException => None
  | PyTypeError => Some PyException
  | PyrsedisError => Some PyException
  | RedisConnectionError | RedisTimeoutError | ProtocolError | RedisError
  | GraphError | ClusterError | SentinelError => Some PyrsedisError
  | ResponseError | WrongTypeError | ReadOnlyError | NoScriptError | BusyError
  | ClusterDownError => Some RedisError
  end.

(** [issubclass(c, d)]. *)
Inductive subclass : class -> class -> Prop :=
| subclass_refl c : subclass c c
| subclass_base c b d : base c = Some b -> subclass b d -> subclass c d.
End exc.

(** [PyErr]: an exception of one of these classes with its message, or one
    that the Python runtime raised itself. *)
Inductive PyErr :=
| PyExc (c : exc.class) (msg : bytes)
| PyRuntimeExc (name msg : bytes).

Abbreviation PyResult := (res PyErr).

(** [impl From<PyrsedisError> for PyErr]. *)
Definition to_pyerr (err : PyrsedisError) : PyErr :=
  let msg := show_error err in
  match err with
  | Connection _ => PyExc exc.RedisConnectionError msg
  | Protocol _ | Incomplete => PyExc exc.ProtocolError msg
  | Redis kind _ =>
      match kind with
      | RedisErrorKind.WrongType => PyExc exc.WrongTypeError msg
      | RedisErrorKind.ReadOnly => PyExc exc.ReadOnlyError msg
      | RedisErrorKind.NoScript => PyExc exc.NoScriptError msg
      | RedisErrorKind.Busy => PyExc exc.BusyError msg
      | RedisErrorKind.ClusterDown => PyExc exc.ClusterDownError msg
      | _ => PyExc exc.ResponseError msg
      end
  | Graph _ => PyExc exc.GraphError msg
  | Type_ _ => PyExc exc.PyTypeError msg
  | Timeout _ => PyExc exc.RedisTimeoutError msg
  | Cluster _ => PyExc exc.ClusterError msg
  | Sentinel _ => PyExc exc.SentinelError msg
  end.

(** [register_exceptions]: the names added to the Python module. *)
Definition register_exceptions : list (bytes * exc.class) :=
  [ (bs "PyrsedisError", exc.PyrsedisError);
    (bs "RedisConnectionError", exc.RedisConnectionError);
    (bs "RedisTimeoutError", exc.RedisTimeoutError);
    (bs "ProtocolError", exc.ProtocolError);
    (bs "RedisError", exc.RedisError);
    (bs "GraphError", exc.GraphError);
    (bs "ClusterError", exc.ClusterError);
    (bs "SentinelError", exc.SentinelError);
    (bs "ResponseError", exc.ResponseError);
    (bs "WrongTypeError", exc.WrongTypeError);
    (bs "ReadOnlyError", exc.ReadOnlyError);
    (bs "NoScriptError", exc.NoScriptError);
    (bs "BusyError", exc.BusyError);
    (bs "ClusterDownError", exc.ClusterDownError) ].

(** * Properties *)

Import RedisErrorKind.

Lemma parse_redirect_Some rest slot addr :
  parse_redirect rest = Some (slot, addr) <->
  exists slot_str, rest = slot_str ++ " "%byte :: addr /\ (" "%byte ∉ slot_str) /\
    parse_u16 slot_str = Some slot.
Proof.
  unfold parse_redirect. split.
  - destruct (split_once _ rest) as [[s a]|] eqn:E; [|done].
    apply split_once_Some in E as [-> ?].
    destruct (parse_u16 s) eqn:?; naive_solver.
  - intros (s & -> & Hs & Hp). by rewrite split_once_app, Hp.
Qed.

(** The message is kept whole whatever its kind. *)
Lemma from_error_msg_message msg : snd (from_error_msg msg) = msg.
Proof.
  unfold from_error_msg.
  repeat match goal with
  | |- context [match ?e with _ => _ end] => destruct e as [?|]; simpl
  end; repeat case_match; done.
Qed.

Lemma redis_eq msg : redis msg = Redis (fst (from_error_msg msg)) msg.
Proof.
  unfold redis. pose proof (from_error_msg_message msg).
  destruct (from_error_msg msg). by simplify_eq/=.
Qed.

Lemma kind_of_prefixes msg slot addr :
  fst (from_error_msg msg) = Moved slot addr \/ fst (from_error_msg msg) = Ask slot addr ->
  (exists rest, strip_prefix (bs "MOVED ") msg = Some rest /\
     fst (from_error_msg msg) = Moved slot addr /\
     parse_redirect rest = Some (slot, addr)) \/
  (exists rest, strip_prefix (bs "MOVED ") msg = None /\
     strip_prefix (bs "ASK ") msg = Some rest /\
     fst (from_error_msg msg) = Ask slot addr /\
     parse_redirect rest = Some (slot, addr)).
Proof.
  unfold from_error_msg.
  destruct (strip_prefix (bs "MOVED ") msg) as [rest|].
  { destruct (parse_redirect rest) as [[s a]|] eqn:?; simpl; naive_solver. }
  destruct (strip_prefix (bs "ASK ") msg) as [rest|].
  { destruct (parse_redirect rest) as [[s a]|] eqn:?; simpl; naive_solver. }
  simpl. repeat case_match; naive_solver.
Qed.

(** An error reply is a MOVED redirection to [addr] for [slot] exactly when
    it reads ["MOVED <slot> <addr>"] with [slot] a [u16]; the address is all
    that follows the second space. *)
Theorem moved_info_spec msg slot addr :
  moved_info (redis msg) = Some (slot, addr) <->
  exists slot_str,
    msg = bs "MOVED " ++ slot_str ++ bs " " ++ addr /\ (" "%byte ∉ slot_str) /\
    parse_u16 slot_str = Some slot.
Proof.
  rewrite redis_eq. split.
  - intros H. assert (fst (from_error_msg msg) = Moved slot addr) as Hk.
    { simpl in H. destruct (fst (from_error_msg msg)); naive_solver. }
    destruct (kind_of_prefixes msg slot addr) as [(rest & Hs & _ & Hp)|(rest & _ & _ & Ha & _)];
      [by left| |congruence].
    apply strip_prefix_Some in Hs as ->.
    apply parse_redirect_Some in Hp as (s & -> & ? & ?). exists s. by rewrite <- ?app_assoc.
  - intros (s & -> & Hs & Hp). unfold from_error_msg.
    rewrite strip_prefix_app.
    assert (parse_redirect (s ++ bs " " ++ addr) = Some (slot, addr)) as ->; [|done].
    apply parse_redirect_Some. by exists s.
Qed.

(** Classifying an ASK message. *)
Lemma from_error_msg_ask slot_str slot addr :
  (" "%byte ∉ slot_str) -> parse_u16 slot_str = Some slot ->
  from_error_msg (bs "ASK " ++ slot_str ++ bs " " ++ addr) =
    (Ask slot addr, bs "ASK " ++ slot_str ++ bs " " ++ addr).
Proof.
  intros Hs Hp. unfold from_error_msg at 1.
  assert (strip_prefix (bs "MOVED ") (bs "ASK " ++ slot_str ++ bs " " ++ addr) = None) as ->
    by done.
  rewrite strip_prefix_app.
  assert (parse_redirect (slot_str ++ bs " " ++ addr) = Some (slot, addr)) as ->; [|done].
  apply parse_redirect_Some. by exists slot_str.
Qed.

(** A server error reply always reaches Python as a subclass of
    [RedisError] (hence of [PyrsedisError]) whose text ends with the server's
    message unchanged. *)
Theorem redis_error_class msg :
  exists c, to_pyerr (redis msg) = PyExc c (bs "redis error: " ++ msg) /\
    exc.subclass c exc.RedisError /\ exc.subclass c exc.PyrsedisError.
Proof.
  rewrite redis_eq. unfold to_pyerr. simpl show_error.
  assert (exc.subclass exc.RedisError exc.PyrsedisError) as Hb.
  { eapply exc.subclass_base; [reflexivity|constructor]. }
  destruct (fst (from_error_msg msg)); eexists; (split; [reflexivity|]);
    (split; eapply exc.subclass_base; [reflexivity|constructor|reflexivity|exact Hb]).
Qed.

(** Every error of the crate except [Type] is raised as a subclass of the
    crate's base exception; [Type] is raised as the built-in [TypeError], which
    is not one. *)
Theorem pyerr_base_class e :
  exists c, to_pyerr e = PyExc c (show_error e) /\
    (exc.subclass c exc.PyrsedisError <-> forall m, e <> Type_ m).
Proof.
  assert (forall c, c = exc.PyTypeError -> ~ exc.subclass c exc.PyrsedisError) as Hn.
  { intros c -> H. inversion H as [|? b ? Hb H']; subst. simpl in Hb. simplify_eq.
    inversion H' as [|? b' ? Hb' ?]; subst. done. }
  assert (exc.subclass exc.RedisError exc.PyrsedisError) as Hb.
  { eapply exc.subclass_base; [reflexivity|constructor]. }
  destruct e as [| | |[]| | | | |]; eexists; (split; [reflexivity|]);
    split; intros Hs; try done;
    try (eapply exc.subclass_base; [reflexivity|first [exact Hb|constructor]]).
  - by apply Hn in Hs.
  - naive_solver.
Qed.

(** The reply to a consumer group that already exists
    (["BUSYGROUP ..."]) is classified as the script-running [Busy] kind and
    raised as [BusyError], because the prefix test does not end at a space. *)
Theorem busygroup_is_busy rest :
  from_error_msg (bs "BUSYGROUP" ++ rest) = (Busy, bs "BUSYGROUP" ++ rest) /\
  to_pyerr (redis (bs "BUSYGROUP" ++ rest)) =
    PyExc exc.BusyError (bs "redis error: BUSYGROUP" ++ rest).
Proof. split; reflexivity. Qed.
