(* ===== verification/Runtime.v ===== *)
(** src/runtime.rs and src/lib.rs: the process-wide tokio runtime, created at
    its first use, and what importing the Python module registers. Tokio and the
    interpreter's module object are interfaces. *)

From Stdlib Require Import Strings.Byte.
From stdpp Require Import gmap.
From S2P Require Import Prelude RustStd Utf8 RustStr Error.

(** * The runtime *)

(** [tokio::runtime::Builder], as far as [get_runtime] sets it. *)
Record Builder := {
  all_enabled : bool;
  worker_threads : option Z;
  thread_name : option bytes
}.

(** [build] starts the threads, which the operating system may refuse. *)
Class Tokio (Rt OS : Type) := {
  build : Builder -> OS -> (Rt + IoError) * OS
}.

(** [RUNTIME] with the rest of the process: the bytes of the variable
    [PYRSEDIS_RUNTIME_THREADS], the operating system, and the futures given to
    the runtime. *)
Record Process (Rt OS Future : Type) := {
  RUNTIME : option Rt;
  threads_var : option bytes;
  os : OS;
  spawned : list Future
}.
Arguments RUNTIME {Rt OS Future}.
Arguments threads_var {Rt OS Future}.
Arguments os {Rt OS Future}.
Arguments spawned {Rt OS Future}.

(** [std::env::var]: an error when the variable is unset or not Unicode. *)
Definition env_var (raw : option bytes) : option bytes :=
  match raw with
  | Some s => match from_utf8 s with Ok s => Some s | _ => None end
  | None => None
  end.

Definition new_multi_thread : Builder :=
  {| all_enabled := false; worker_threads := None; thread_name := None |}.

(** The builder that [get_runtime] hands to [build]. *)
Definition configure (raw : option bytes) : Builder :=
  let builder := {| all_enabled := true; worker_threads := worker_threads new_multi_thread;
                    thread_name := thread_name new_multi_thread |} in
  let builder :=
    match env_var raw with
    | Some threads =>
        match parse_usize threads with
        | Some n =>
            if 0 <? n
            then {| all_enabled := all_enabled builder; worker_threads := Some n;
                    thread_name := thread_name builder |}
            else builder
        | None => builder
        end
    | None => builder
    end in
  {| all_enabled := all_enabled builder; worker_threads := worker_threads builder;
     thread_name := Some (bs "pyrsedis-rt") |}.

Section runtime.
Context {Rt OS Future : Type} `{Tokio Rt OS}.
Abbreviation Proc := (Process Rt OS Future).

Definition set_runtime (rt : option Rt) (o : OS) (p : Proc) : Proc :=
  {| RUNTIME := rt; threads_var := threads_var p; os := o; spawned := spawned p |}.

(** [RUNTIME.get_or_init(..)]: a closure that panics leaves the cell empty. *)
Definition get_runtime {E} : stm Proc E Rt :=
  fun p =>
    match RUNTIME p with
    | Some rt => (Ok rt, p)
    | None =>
        match build (configure (threads_var p)) (os p) with
        | (inl rt, o) => (Ok rt, set_runtime (Some rt) o p)
        | (inr e, o) =>
            (Panic (Explicit (bs "pyrsedis: failed to create tokio runtime: " ++ io_text e)),
             set_runtime None o p)
        end
    end.

(** [block_on]: the calling thread drives the future, a computation on [W], to
    its end. *)
Definition block_on {W E A} (future : stm W E A) : stm (Proc * W) E A :=
  fun '(p, w) =>
    match get_runtime p with
    | (Ok _, p) => let '(r, w) := future w in (r, (p, w))
    | (Err e, p) => (Err e, (p, w))
    | (Panic q, p) => (Panic q, (p, w))
    end.

(** [spawn]: the future now belongs to the runtime. *)
Definition spawn {E} (future : Future) : stm Proc E Rt :=
  let! rt := get_runtime in
  let! _ := modify (fun p => {| RUNTIME := RUNTIME p; threads_var := threads_var p; os := os p;
                                spawned := spawned p ++ [future] |}) in
  lift (Ok rt).

(** * The runtime is created once *)

Lemma block_on_ready {W E A} (future : stm W E A) p w rt :
  RUNTIME p = Some rt ->
  block_on future (p, w) = (fst (future w), (p, snd (future w))).
Proof. intros Hr. unfold block_on, get_runtime. rewrite Hr. by destruct (future w). Qed.

Lemma block_on_all_ready {W E A} (futures : list (stm W E A)) p w rt :
  RUNTIME p = Some rt ->
  run_all (map block_on futures) (p, w) =
  (fst (run_all futures w), (p, snd (run_all futures w))).
Proof.
  intros Hr. revert w. induction futures as [|f futures IH]; intros w; [done|].
  cbn [map run_all]. rewrite (block_on_ready f p w rt Hr). destruct (f w) as [r w'].
  cbn [fst snd]. rewrite IH. by destruct (run_all futures w').
Qed.

(** The runtime is transparent: the calls of a process, each blocking on a
    future, return what the futures return run one after the other, and leave
    what they leave. The runtime is built once, by the first call, from the
    environment of that moment. When the operating system refuses, that call
    panics without running its future and the next one tries again. *)
Theorem block_on_transparent {W E A} (future : stm W E A) futures (p : Proc) w :
  RUNTIME p = None ->
  match build (configure (threads_var p)) (os p) with
  | (inl rt, o) =>
      run_all (map block_on (future :: futures)) (p, w) =
      let '(rs, w') := run_all (future :: futures) w in (rs, (set_runtime (Some rt) o p, w'))
  | (inr e, o) =>
      run_all (map block_on (future :: futures)) (p, w) =
      let '(rs, pw) := run_all (map block_on futures) (set_runtime None o p, w) in
      (Panic (Explicit (bs "pyrsedis: failed to create tokio runtime: " ++ io_text e)) :: rs, pw)
  end.
Proof.
  intros Hn. destruct (build _ _) as [[rt|e] o] eqn:Hb.
  - cbn [map run_all]. unfold block_on at 1, get_runtime. rewrite Hn, Hb.
    destruct (future w) as [r w']. rewrite (block_on_all_ready futures _ w' rt) by done.
    by destruct (run_all futures w').
  - cbn [map run_all]. unfold block_on at 1, get_runtime. by rewrite Hn, Hb.
Qed.
End runtime.

(** The number of worker threads is overridden exactly by a variable that holds
    a positive [usize]; tokio, which panics on 0, is never given 0. *)
Theorem configure_threads raw n :
  worker_threads (configure raw) = Some n <->
  exists s, env_var raw = Some s /\ parse_usize s = Some n /\ 0 < n.
Proof.
  unfold configure. destruct (env_var raw) as [s|]; [|naive_solver].
  destruct (parse_usize s) as [m|] eqn:Hp; [|naive_solver].
  destruct (Z.ltb_spec 0 m); cbn; split.
  - intros [= <-]. by exists s.
  - intros (s' & [= <-] & Hs' & _). by rewrite Hp in Hs'.
  - done.
  - intros (s' & [= <-] & Hs' & Hm). rewrite Hp in Hs'. injection Hs' as ->. lia.
Qed.

(** * The Python module *)

(** What a name of the module is bound to. *)
Inductive Entry :=
| Text (s : bytes)
| Class_ (name : string)
| Exception_ (c : exc.class).

(** [PyModule::add]; [add_class] adds a class under its name. *)
Class PyModule (M : Type) := {
  mod_add : bytes -> Entry -> stm M PyErr unit
}.

Section module.
Context {M : Type} `{PyModule M}.

(** [m.add(..)?] once for each entry. *)
Fixpoint add_each (entries : list (bytes * Entry)) : stm M PyErr unit :=
  match entries with
  | [] => lift (Ok tt)
  | (name, e) :: entries => let! _ := mod_add name e in add_each entries
  end.

Definition CARGO_PKG_VERSION : bytes := bs "0.1.0".

(** [_pyrsedis], the initialisation function of the module. *)
Definition _pyrsedis : stm M PyErr unit :=
  let! _ := mod_add (bs "__version__") (Text CARGO_PKG_VERSION) in
  let! _ := mod_add (bs "Redis") (Class_ "Redis") in
  let! _ := mod_add (bs "Pipeline") (Class_ "Pipeline") in
  let! _ := add_each (map (fun '(name, c) => (name, Exception_ c)) register_exceptions) in
  lift (Ok tt).
End module.

(** A module is a dictionary. *)
#[export] Instance dict_module : PyModule (gmap bytes Entry) := {
  mod_add name e := modify (insert name e)
}.

Definition added (entries : list (bytes * Entry)) (m : gmap bytes Entry) : gmap bytes Entry :=
  fold_left (fun m '(n, e) => <[n := e]> m) entries m.

Lemma add_each_dict entries m : add_each entries m = (Ok tt, added entries m).
Proof. revert m. induction entries as [|[n e] entries IH]; intros m; [done|]. apply IH. Qed.

Lemma added_other entries m n : n ∉ map fst entries -> added entries m !! n = m !! n.
Proof.
  revert m. induction entries as [|[k e] entries IH]; intros m Hn; [done|]. cbn in Hn |- *.
  apply not_elem_of_cons in Hn as [Hk Hn]. unfold added in IH.
  rewrite IH by done. by rewrite lookup_insert_ne by done.
Qed.

Lemma added_lookup entries m n e :
  NoDup (map fst entries) -> (n, e) ∈ entries -> added entries m !! n = Some e.
Proof.
  revert m. induction entries as [|[k f] entries IH]; intros m Hnd Hin.
  { by apply not_elem_of_nil in Hin. }
  cbn in Hnd |- *. apply NoDup_cons in Hnd as [Hk Hnd].
  apply elem_of_cons in Hin as [[= -> ->]|Hin]; [|by apply IH].
  pose proof (added_other entries (<[k := f]> m) k Hk) as Ho. unfold added in Ho.
  rewrite Ho. apply lookup_insert_eq.
Qed.

(** The names of the module. *)
Definition entries : list (bytes * Entry) :=
  [(bs "__version__", Text CARGO_PKG_VERSION); (bs "Redis", Class_ "Redis");
   (bs "Pipeline", Class_ "Pipeline")] ++
  map (fun '(name, c) => (name, Exception_ c)) register_exceptions.

Lemma entries_distinct : NoDup (map fst entries).
Proof. apply (bool_decide_unpack _). vm_compute. exact I. Qed.

Lemma _pyrsedis_entries m : _pyrsedis m = (Ok tt, added entries m).
Proof.
  unfold _pyrsedis. do 3 erewrite sbind_ok by reflexivity.
  by rewrite (sbind_ok _ _ _ _ _ (add_each_dict _ _)).
Qed.

Lemma raised_registered e c msg :
  to_pyerr e = PyExc c msg -> (exists t, e = Type_ t) \/ exists name, (name, c) ∈ register_exceptions.
Proof.
  intros He. destruct e as [| | |kind ?| |t| | |]; [..|left; by exists t| | |]; right;
    unfold to_pyerr in He; try destruct kind; injection He as <- _; eexists;
    unfold register_exceptions;
    repeat first [apply list_elem_of_here|apply list_elem_of_further].
Qed.

(** Importing the module binds its three names and every exception class the
    crate raises ([TypeError], which is Python's, apart), no name hiding another,
    so that what a method raises can be imported and caught. *)
Theorem exceptions_importable e c msg m :
  to_pyerr e = PyExc c msg ->
  (exists t, e = Type_ t) \/
  exists name, snd (_pyrsedis m) !! name = Some (Exception_ c) /\
    snd (_pyrsedis m) !! bs "__version__" = Some (Text CARGO_PKG_VERSION) /\
    snd (_pyrsedis m) !! bs "Redis" = Some (Class_ "Redis") /\
    snd (_pyrsedis m) !! bs "Pipeline" = Some (Class_ "Pipeline").
Proof.
  intros He. destruct (raised_registered e c msg He) as [?|[name Hin]]; [by left|right].
  exists name. rewrite _pyrsedis_entries. cbn [snd].
  split_and!; apply (added_lookup _ _ _ _ entries_distinct); unfold entries.
  - apply elem_of_app. right. apply list_elem_of_fmap. by exists (name, c).
  - apply list_elem_of_here.
  - apply list_elem_of_further, list_elem_of_here.
  - apply list_elem_of_further, list_elem_of_further, list_elem_of_here.
Qed.

(** * The runtime at work *)

(** An operating system that refuses while its counter is positive. *)
Definition stingy : Tokio Builder nat := {|
  build b n := match n with
               | O => (inl b, O)
               | S n => (inr {| io_kind := IoOs; io_text := bs "no threads" |}, n)
               end
|}.

Definition fresh (n : nat) : Process Builder nat unit :=
  {| RUNTIME := None; threads_var := Some (bs "4"); os := n; spawned := [] |}.

Definition tick : stm Z PyErr Z := fun w => (Ok w, w + 1).

Example second_call_succeeds :
  fst (run_all (map (block_on (H := stingy)) [tick; tick; tick]) (fresh 1, 0)) =
  [Panic (Explicit (bs "pyrsedis: failed to create tokio runtime: no threads")); Ok 0; Ok 1].
Proof. reflexivity. Qed.

Lemma block_on_transparent_witness :
  run_all (map (block_on (H := stingy)) [tick; tick]) (fresh 0, 7) =
  ([Ok 7; Ok 8], (set_runtime (Some (configure (Some (bs "4")))) 0%nat (fresh 0), 9)).
Proof. exact (block_on_transparent (H := stingy) tick [tick] (fresh 0) 7 eq_refl). Defined.
