(* ===== verification/Types.v ===== *)
(** src/resp/types.rs: the RESP2 and RESP3 values and their accessors. *)

From Stdlib Require Import Strings.Byte.
From S2P Require Import Prelude RustStd Utf8 RustStr Float64 Error.

(** [RespValue]; a [String] is the bytes of its UTF-8 encoding ([wf_value]
    below says they are valid), [Set] is [Set_] because [Set] is reserved. *)
Inductive RespValue :=
| SimpleString (s : bytes)
| Error (s : bytes)
| Integer (i : Z)
| BulkString (b : bytes)
| Array (items : list RespValue)
| Null
| Double (f : f64)
| Boolean (b : bool)
| Map (pairs : list (RespValue * RespValue))
| Set_ (items : list RespValue)
| VerbatimString (encoding data : bytes)
| BigNumber (s : bytes)
| BulkError (s : bytes)
| Push (kind : bytes) (data : list RespValue)
| Attribute (data : RespValue) (attributes : list (RespValue * RespValue)).

Definition as_str (v : RespValue) : option bytes :=
  match v with
  | SimpleString s => Some s
  | BulkString b => match from_utf8 b with Ok s => Some s | _ => None end
  | VerbatimString _ data => Some data
  | _ => None
  end.

Definition as_bytes (v : RespValue) : option bytes :=
  match v with
  | BulkString b => Some b
  | SimpleString s => Some s
  | _ => None
  end.

Definition as_int (v : RespValue) : option Z :=
  match v with Integer i => Some i | _ => None end.

Definition as_f64 (v : RespValue) : option f64 :=
  match v with
  | Double d => Some d
  | Integer i => Some (f64_of_i64 i)
  | _ => None
  end.

Definition as_bool (v : RespValue) : option bool :=
  match v with
  | Boolean b => Some b
  | Integer i => Some (negb (i =? 0))
  | _ => None
  end.

Definition into_array (v : RespValue) : option (list RespValue) :=
  match v with Array a => Some a | _ => None end.

Definition into_map (v : RespValue) : option (list (RespValue * RespValue)) :=
  match v with Map m => Some m | _ => None end.

Definition into_set (v : RespValue) : option (list RespValue) :=
  match v with Set_ s => Some s | _ => None end.

Definition is_null (v : RespValue) : bool :=
  match v with Null => true | _ => false end.

Definition is_error (v : RespValue) : bool :=
  match v with Error _ | BulkError _ => true | _ => false end.

Definition as_error_msg (v : RespValue) : option bytes :=
  match v with
  | Error msg => Some msg
  | BulkError msg => Some msg
  | _ => None
  end.

Definition is_push (v : RespValue) : bool :=
  match v with Push _ _ => true | _ => false end.

Definition type_name (v : RespValue) : bytes :=
  match v with
  | SimpleString _ => bs "simple_string"
  | Error _ => bs "error"
  | Integer _ => bs "integer"
  | BulkString _ => bs "bulk_string"
  | Array _ => bs "array"
  | Null => bs "null"
  | Double _ => bs "double"
  | Boolean _ => bs "boolean"
  | Map _ => bs "map"
  | Set_ _ => bs "set"
  | VerbatimString _ _ => bs "verbatim_string"
  | BigNumber _ => bs "big_number"
  | BulkError _ => bs "bulk_error"
  | Push _ _ => bs "push"
  | Attribute _ _ => bs "attribute"
  end.

(** * Structure *)

(** Induction with the hypothesis on every element of the nested lists. *)
Section induction.
Context (P : RespValue -> Prop).
Context (HSimpleString : forall s, P (SimpleString s)) (HError : forall s, P (Error s))
  (HInteger : forall i, P (Integer i)) (HBulkString : forall b, P (BulkString b))
  (HArray : forall vs, Forall P vs -> P (Array vs)) (HNull : P Null)
  (HDouble : forall f, P (Double f)) (HBoolean : forall b, P (Boolean b))
  (HMap : forall kvs, Forall (fun kv => P kv.1 /\ P kv.2) kvs -> P (Map kvs))
  (HSet : forall vs, Forall P vs -> P (Set_ vs))
  (HVerbatim : forall e d, P (VerbatimString e d))
  (HBigNumber : forall s, P (BigNumber s)) (HBulkError : forall s, P (BulkError s))
  (HPush : forall k vs, Forall P vs -> P (Push k vs))
  (HAttribute : forall d kvs, P d -> Forall (fun kv => P kv.1 /\ P kv.2) kvs ->
     P (Attribute d kvs)).

Fixpoint RespValue_nested_ind (v : RespValue) : P v :=
  let all := fix all vs : Forall P vs :=
    match vs with
    | [] => Forall_nil_2 P
    | v :: vs => Forall_cons_2 P v vs (RespValue_nested_ind v) (all vs)
    end in
  let pairs := fix pairs kvs : Forall (fun kv => P kv.1 /\ P kv.2) kvs :=
    match kvs with
    | [] => Forall_nil_2 _
    | (k, v) :: kvs =>
        Forall_cons_2 (fun kv => P kv.1 /\ P kv.2) (k, v) kvs
          (conj (RespValue_nested_ind k) (RespValue_nested_ind v)) (pairs kvs)
    end in
  match v with
  | SimpleString s => HSimpleString s
  | Error s => HError s
  | Integer i => HInteger i
  | BulkString b => HBulkString b
  | Array vs => HArray vs (all vs)
  | Null => HNull
  | Double f => HDouble f
  | Boolean b => HBoolean b
  | Map kvs => HMap kvs (pairs kvs)
  | Set_ vs => HSet vs (all vs)
  | VerbatimString e d => HVerbatim e d
  | BigNumber s => HBigNumber s
  | BulkError s => HBulkError s
  | Push k vs => HPush k vs (all vs)
  | Attribute d kvs => HAttribute d kvs (RespValue_nested_ind d) (pairs kvs)
  end.
End induction.

(** How deep the containers nest. *)
Fixpoint depth (v : RespValue) : Z :=
  let deepest := foldr (fun v d => Z.max (depth v) d) 0 in
  let deepest_pair := foldr (fun (kv : RespValue * RespValue) d =>
    let '(k, v) := kv in Z.max (Z.max (depth k) (depth v)) d) 0 in
  match v with
  | Array vs | Set_ vs | Push _ vs => 1 + deepest vs
  | Map kvs => 1 + deepest_pair kvs
  | Attribute d kvs => 1 + Z.max (depth d) (deepest_pair kvs)
  | _ => 0
  end.

Lemma foldr_max_nonneg {A} (f : A -> Z) l : 0 <= foldr (fun v d => Z.max (f v) d) 0 l.
Proof. induction l; simpl; lia. Qed.

Lemma foldr_max_elem {A} (f : A -> Z) l x :
  x ∈ l -> f x <= foldr (fun v d => Z.max (f v) d) 0 l.
Proof. induction 1; simpl; lia. Qed.

Definition pair_depth (kv : RespValue * RespValue) : Z := Z.max (depth kv.1) (depth kv.2).

Lemma depth_map kvs :
  depth (Map kvs) = 1 + foldr (fun kv d => Z.max (pair_depth kv) d) 0 kvs.
Proof. simpl. f_equal. induction kvs as [|[k v] kvs IH]; simpl; [done|]. by rewrite IH. Qed.

Lemma depth_nonneg v : 0 <= depth v.
Proof.
  destruct v; rewrite ?depth_map; cbn [depth]; try lia;
    try (pose proof (foldr_max_nonneg depth items); lia);
    try (pose proof (foldr_max_nonneg depth data); lia).
  - pose proof (foldr_max_nonneg pair_depth pairs). lia.
  - pose proof (foldr_max_nonneg pair_depth attributes) as Hn.
    pose proof (depth_map attributes) as Hm. cbn [depth] in Hm. lia.
Qed.

Lemma depth_elem x vs : x ∈ vs -> depth x < depth (Array vs).
Proof. intros Hx. pose proof (foldr_max_elem depth vs x Hx). simpl. lia. Qed.

(** Every [String] is UTF-8, every [Integer] an [i64], a big number is an
    optionally signed run of digits, an encoding has three bytes. *)
Definition big_number_digits (s : bytes) : bytes :=
  match s with
  | b :: t => if bool_decide (b = "+"%byte) || bool_decide (b = "-"%byte) then t else s
  | [] => s
  end.

Inductive wf_value : RespValue -> Prop :=
| wf_SimpleString s : valid_utf8 s = true -> wf_value (SimpleString s)
| wf_Error s : valid_utf8 s = true -> wf_value (Error s)
| wf_Integer i : I64_MIN <= i <= I64_MAX -> wf_value (Integer i)
| wf_BulkString b : wf_value (BulkString b)
| wf_Array vs : Forall wf_value vs -> wf_value (Array vs)
| wf_Null : wf_value Null
| wf_Double f : wf_value (Double f)
| wf_Boolean b : wf_value (Boolean b)
| wf_Map kvs : Forall (fun kv => wf_value kv.1 /\ wf_value kv.2) kvs -> wf_value (Map kvs)
| wf_Set vs : Forall wf_value vs -> wf_value (Set_ vs)
| wf_Verbatim e d : valid_utf8 e = true -> len e = 3 -> valid_utf8 d = true ->
    wf_value (VerbatimString e d)
| wf_BigNumber s : valid_utf8 s = true -> big_number_digits s <> [] ->
    all_digits (big_number_digits s) = true -> wf_value (BigNumber s)
| wf_BulkError s : valid_utf8 s = true -> wf_value (BulkError s)
| wf_Push k vs : valid_utf8 k = true -> Forall wf_value vs -> wf_value (Push k vs)
| wf_Attribute d kvs : wf_value d ->
    Forall (fun kv => wf_value kv.1 /\ wf_value kv.2) kvs -> wf_value (Attribute d kvs).

#[export] Hint Constructors wf_value : pyrsedis.

(** * Properties *)

(** The text accessor of a well-formed value returns valid UTF-8, as its
    type [&str] promises. *)
Lemma as_str_valid v s : wf_value v -> as_str v = Some s -> valid_utf8 s = true.
Proof.
  destruct 1; simpl; intros Hs; simplify_eq; try done.
  destruct (from_utf8 b) eqn:E; simplify_eq. by apply from_utf8_ok in E as [? ->].
Qed.

(** A value carries an error message exactly when it is an error. *)
Lemma is_error_msg v : is_error v = true <-> exists m, as_error_msg v = Some m.
Proof. destruct v; naive_solver. Qed.

(** [as_str] and [as_bytes] agree where both apply. *)
Lemma as_str_as_bytes v s b : as_str v = Some s -> as_bytes v = Some b -> s = b.
Proof.
  destruct v; simpl; intros Hs Hb; simplify_eq; try done.
  destruct (from_utf8 b) eqn:E; simplify_eq. by apply from_utf8_ok in E as [? ->].
Qed.

(** The variant names are pairwise different between constructors. *)
Definition same_variant (v w : RespValue) : bool :=
  match v, w with
  | SimpleString _, SimpleString _ | Error _, Error _ | Integer _, Integer _
  | BulkString _, BulkString _ | Array _, Array _ | Null, Null | Double _, Double _
  | Boolean _, Boolean _ | Map _, Map _ | Set_ _, Set_ _
  | VerbatimString _ _, VerbatimString _ _ | BigNumber _, BigNumber _
  | BulkError _, BulkError _ | Push _ _, Push _ _ | Attribute _ _, Attribute _ _ => true
  | _, _ => false
  end.

Lemma type_name_inj v w : type_name v = type_name w <-> same_variant v w = true.
Proof. destruct v, w; split; (done || (intros H; vm_compute in H; done)). Qed.
