(* ===== verification/Parser.v ===== *)
(** src/resp/parser.rs: the streaming RESP2/RESP3 parser and the frame-length
    scanner. The recursive calls of [parse] and [resp_frame_len] are made
    through a parameter, which [parse_rec] and [frame_rec] tie with a fuel
    equal to the recursion depth. *)

From Stdlib Require Import Strings.Byte.
From S2P Require Import Prelude RustStd Utf8 RustStr Float64 Error Types.

(** What the code depends on beyond its text: the size of the values a [Vec]
    allocates, which the compiler's layout chooses (a [VerbatimString] alone
    holds two 24-byte [String]s), and whether the build checks arithmetic
    overflow (a debug build does, the release profile of Cargo.toml does not). *)
Class Target := {
  size_of_RespValue : Z;
  size_of_pair : Z;
  size_of_RedisConnection : Z;
  overflow_checks : bool;
  size_of_RespValue_ge : 48 <= size_of_RespValue;
  size_of_pair_ge : 2 * size_of_RespValue <= size_of_pair;
  size_of_RedisConnection_ge : 64 <= size_of_RedisConnection
}.

(** [i64] arithmetic. *)
Definition in_i64 (z : Z) : bool := (I64_MIN <=? z) && (z <=? I64_MAX).
Definition checked_i64 (z : Z) : option Z := if in_i64 z then Some z else None.

Section parser.
Context `{Target}.

(** [-n] on an [i64]: the one value it overflows on is [i64::MIN]. *)
Definition i64_neg {E} (n : Z) : res E Z :=
  if n =? I64_MIN
  then (if overflow_checks then Panic ArithmeticOverflow else Ok I64_MIN)
  else Ok (- n).

(** [Vec::with_capacity(count)] of elements of [size] bytes: panics when the
    allocation would exceed [isize::MAX] bytes. *)
Definition with_capacity {E} (size count : Z) : res E unit :=
  if size * count <=? ISIZE_MAX then Ok tt else Panic CapacityOverflow.

(** * Helpers *)

Definition find_crlf (buf : bytes) (offset : Z) : Result Z :=
  let? search := slice_from buf offset in
  match memchr CR search with
  | Some pos =>
      let abs := offset + pos in
      if abs + 1 <? len buf then
        let? b := index buf (abs + 1) in
        if bool_decide (b = LF) then Ok abs
        else Err (Protocol (bs "expected \n after \r"))
      else Err Incomplete
  | None => Err Incomplete
  end.

Definition read_line (buf : bytes) (offset : Z) : Result (bytes * Z) :=
  let? cr := find_crlf buf offset in
  let? line := slice buf offset cr in
  Ok (line, cr + 2).

(** The accumulation loop of [parse_int_from_bytes], towards the negative. *)
Fixpoint int_digits (n : Z) (digits : bytes) : Result Z :=
  match digits with
  | [] => Ok n
  | b :: digits =>
      if negb (is_ascii_digit b)
      then Err (Protocol (bs "invalid byte in integer: 0x" ++ hex02 b))
      else
        let? n' := ok_or (n10 ← checked_i64 (n * 10); checked_i64 (n10 - (u8 b - 48)))
                     (Protocol (bs "integer overflow")) in
        int_digits n' digits
  end.

(** Its second half: the digits after the sign, and the final negation. *)
Definition parse_digits (negative : bool) (digits : bytes) : Result Z :=
  match digits with
  | [] => Err (Protocol (bs "integer has no digits"))
  | _ =>
      let? n := int_digits 0 digits in
      if negative then Ok n else i64_neg n
  end.

Definition parse_int_from_bytes (b : bytes) : Result Z :=
  match b with
  | [] => Err (Protocol (bs "empty integer"))
  | b0 :: t =>
      if decide (b0 = "-"%byte) then parse_digits true t
      else if decide (b0 = "+"%byte) then parse_digits false t
      else parse_digits false b
  end.

(** [from_utf8] with its error turned into a protocol error. *)
Definition utf8_or (what : string) (s : bytes) : Result bytes :=
  map_err (fun e => Protocol (bs what ++ bs ": " ++ show_utf8_error e)) (from_utf8 s).

(** * Type parsers *)

Definition parse_simple_string (buf : bytes) : Result (RespValue * Z) :=
  let? (line, next) := read_line buf 1 in
  let? s :=
    if bool_decide (line = bs "OK") then Ok (bs "OK")
    else if bool_decide (line = bs "PONG") then Ok (bs "PONG")
    else if bool_decide (line = bs "QUEUED") then Ok (bs "QUEUED")
    else utf8_or "invalid UTF-8 in simple string" line in
  Ok (SimpleString s, next).

Definition parse_simple_error (buf : bytes) : Result (RespValue * Z) :=
  let? (line, next) := read_line buf 1 in
  let? s := utf8_or "invalid UTF-8 in error" line in
  Ok (Error s, next).

Definition parse_integer (buf : bytes) : Result (RespValue * Z) :=
  let? (line, next) := read_line buf 1 in
  let? i := parse_int_from_bytes line in
  Ok (Integer i, next).

(** The [\r\n] test at [end_] that the length-prefixed types share:
    [buf.len() < end + 2], then [buf[end]] and [buf[end + 1]]. *)
Definition check_terminator (buf : bytes) (end_ : Z) (msg : bytes) : Result unit :=
  let? total := usize_add end_ 2 in
  if len buf <? total then Err Incomplete else
  let? b0 := index buf end_ in
  if negb (bool_decide (b0 = CR)) then Err (Protocol msg) else
  let? b1 := index buf (end_ + 1) in
  if negb (bool_decide (b1 = LF)) then Err (Protocol msg) else Ok tt.

Definition parse_bulk_string (buf : bytes) : Result (RespValue * Z) :=
  let? (line, next) := read_line buf 1 in
  let? n := parse_int_from_bytes line in
  if n <? 0 then Ok (Null, next) else
  let? data_end := usize_add next n in
  let? _ := check_terminator buf data_end (bs "bulk string not terminated by \r\n") in
  let? data := slice buf next data_end in
  Ok (BulkString data, data_end + 2).

Definition parse_null (buf : bytes) : Result (RespValue * Z) :=
  if len buf <? 3 then Err Incomplete else
  let? b1 := index buf 1 in
  let? b2 := index buf 2 in
  if negb (bool_decide (b1 = CR)) || negb (bool_decide (b2 = LF))
  then Err (Protocol (bs "null type not terminated by \r\n"))
  else Ok (Null, 3).

Definition parse_boolean (buf : bytes) : Result (RespValue * Z) :=
  if len buf <? 4 then Err Incomplete else
  let? b1 := index buf 1 in
  let? val :=
    if decide (b1 = "t"%byte) then Ok true
    else if decide (b1 = "f"%byte) then Ok false
    else Err (Protocol (bs "invalid boolean value: 0x" ++ hex02 b1)) in
  let? b2 := index buf 2 in
  let? b3 := index buf 3 in
  if negb (bool_decide (b2 = CR)) || negb (bool_decide (b3 = LF))
  then Err (Protocol (bs "boolean not terminated by \r\n"))
  else Ok (Boolean val, 4).

Definition parse_double (buf : bytes) : Result (RespValue * Z) :=
  let? (line, next) := read_line buf 1 in
  let? s := utf8_or "invalid UTF-8 in double" line in
  let? d :=
    if bool_decide (s = bs "inf") then Ok f64_INFINITY
    else if bool_decide (s = bs "-inf") then Ok f64_NEG_INFINITY
    else if bool_decide (s = bs "nan") then Ok f64_NAN
    else map_err (fun e => Protocol (bs "invalid double: " ++ show_parse_float_error e))
           (parse_f64 s) in
  Ok (Double d, next).

Definition parse_big_number (buf : bytes) : Result (RespValue * Z) :=
  let? (line, next) := read_line buf 1 in
  let? s := utf8_or "invalid UTF-8 in big number" line in
  let digits := big_number_digits s in
  if bool_decide (digits = []) || negb (all_digits digits)
  then Err (Protocol (bs "invalid big number: " ++ s))
  else Ok (BigNumber s, next).

Definition parse_bulk_error (buf : bytes) : Result (RespValue * Z) :=
  let? (line, next) := read_line buf 1 in
  let? n := parse_int_from_bytes line in
  if n <? 0 then Err (Protocol (bs "negative bulk error length")) else
  let? end_ := usize_add next n in
  let? _ := check_terminator buf end_ (bs "bulk error not terminated by \r\n") in
  let? content := slice buf next end_ in
  let? s := utf8_or "invalid UTF-8 in bulk error" content in
  Ok (BulkError s, end_ + 2).

Definition parse_verbatim_string (buf : bytes) : Result (RespValue * Z) :=
  let? (line, next) := read_line buf 1 in
  let? n := parse_int_from_bytes line in
  if n <? 0 then Err (Protocol (bs "negative verbatim string length")) else
  let? end_ := usize_add next n in
  let? _ := check_terminator buf end_ (bs "verbatim string not terminated by \r\n") in
  let? content := slice buf next end_ in
  let missing := Err (Protocol (bs "verbatim string missing encoding prefix")) in
  if n <? 4 then missing else
  let? b3 := index content 3 in
  if negb (bool_decide (b3 = ":"%byte)) then missing else
  let? enc := slice content 0 3 in
  let? encoding := utf8_or "invalid encoding in verbatim string" enc in
  let? rest := slice_from content 4 in
  let? data := utf8_or "invalid data in verbatim string" rest in
  Ok (VerbatimString encoding data, end_ + 2).

(** The fuel of an element loop: every element consumes at least one byte, so
    more iterations than bytes cannot succeed. *)
Definition loop_fuel (buf : bytes) : nat := S (length buf).

Section recursive.
(** The recursive call. *)
Context (parse : bytes -> Result (RespValue * Z)).

(** [parse(&buf.slice(next..))] and the update of [next]. *)
Definition parse_at (buf : bytes) (next : Z) : Result (RespValue * Z) :=
  let? sub := slice_from buf next in
  let? (val, consumed) := parse sub in
  Ok (val, next + consumed).

(** One iteration of the element loops: [elements.push(val)]. *)
Definition push_element (buf : bytes) (st : list RespValue * Z)
    : Result (list RespValue * Z) :=
  let '(elements, next) := st in
  let? (val, next) := parse_at buf next in
  Ok (elements ++ [val], next).

(** One iteration of the key-value loops: [pairs.push((key, val))]. *)
Definition push_pair (buf : bytes) (st : list (RespValue * RespValue) * Z)
    : Result (list (RespValue * RespValue) * Z) :=
  let '(pairs, next) := st in
  let? (key, next) := parse_at buf next in
  let? (val, next) := parse_at buf next in
  Ok (pairs ++ [(key, val)], next).

Definition parse_array (buf : bytes) : Result (RespValue * Z) :=
  let? (line, next) := read_line buf 1 in
  let? count := parse_int_from_bytes line in
  if count <? 0 then Ok (Null, next) else
  let? _ := with_capacity size_of_RespValue count in
  let? (elements, next) :=
    for_count (push_element buf) (loop_fuel buf) count ([], next) in
  Ok (Array elements, next).

Definition parse_map (buf : bytes) : Result (RespValue * Z) :=
  let? (line, next) := read_line buf 1 in
  let? count := parse_int_from_bytes line in
  if count <? 0 then Err (Protocol (bs "negative map count")) else
  let? _ := with_capacity size_of_pair count in
  let? (pairs, next) :=
    for_count (push_pair buf) (loop_fuel buf) count ([], next) in
  Ok (Map pairs, next).

Definition parse_set (buf : bytes) : Result (RespValue * Z) :=
  let? (line, next) := read_line buf 1 in
  let? count := parse_int_from_bytes line in
  if count <? 0 then Err (Protocol (bs "negative set count")) else
  let? _ := with_capacity size_of_RespValue count in
  let? (elements, next) :=
    for_count (push_element buf) (loop_fuel buf) count ([], next) in
  Ok (Set_ elements, next).

(** The kind of a push message, from its first element. *)
Definition push_kind (kind_val : RespValue) : Result bytes :=
  match kind_val with
  | SimpleString s => Ok s
  | BulkString b => utf8_or "invalid push kind" b
  | other => Err (Protocol (bs "push kind must be a string, got " ++ type_name other))
  end.

Definition parse_push (buf : bytes) : Result (RespValue * Z) :=
  let? (line, next) := read_line buf 1 in
  let? count := parse_int_from_bytes line in
  if count <? 0 then Err (Protocol (bs "negative push count")) else
  if count =? 0
  then Err (Protocol (bs "push message must have at least one element (kind)")) else
  let? (kind_val, next) := parse_at buf next in
  let? kind := push_kind kind_val in
  let? _ := with_capacity size_of_RespValue (count - 1) in
  let? (data, next) :=
    for_count (push_element buf) (loop_fuel buf) (count - 1) ([], next) in
  Ok (Push kind data, next).

Definition parse_attribute (buf : bytes) : Result (RespValue * Z) :=
  let? (line, next) := read_line buf 1 in
  let? count := parse_int_from_bytes line in
  if count <? 0 then Err (Protocol (bs "negative attribute count")) else
  let? _ := with_capacity size_of_pair count in
  let? (attributes, next) :=
    for_count (push_pair buf) (loop_fuel buf) count ([], next) in
  let? (data, next) := parse_at buf next in
  Ok (Attribute data attributes, next).

Definition unknown_type {A} (other : byte) : Result A :=
  Err (Protocol (bs "unknown RESP type byte: 0x" ++ hex02 other)).

(** The body of [parse]: dispatch on the type byte. *)
Definition parse_body (buf : bytes) : Result (RespValue * Z) :=
  match buf with
  | [] => Err Incomplete
  | b :: _ =>
      if decide (b = "+"%byte) then parse_simple_string buf
      else if decide (b = "-"%byte) then parse_simple_error buf
      else if decide (b = ":"%byte) then parse_integer buf
      else if decide (b = "$"%byte) then parse_bulk_string buf
      else if decide (b = "*"%byte) then parse_array buf
      else if decide (b = "_"%byte) then parse_null buf
      else if decide (b = "#"%byte) then parse_boolean buf
      else if decide (b = ","%byte) then parse_double buf
      else if decide (b = "("%byte) then parse_big_number buf
      else if decide (b = "!"%byte) then parse_bulk_error buf
      else if decide (b = "="%byte) then parse_verbatim_string buf
      else if decide (b = "%"%byte) then parse_map buf
      else if decide (b = "~"%byte) then parse_set buf
      else if decide (b = ">"%byte) then parse_push buf
      else if decide (b = "|"%byte) then parse_attribute buf
      else unknown_type b
  end.
End recursive.

Fixpoint parse_rec (fuel : nat) (buf : bytes) : Result (RespValue * Z) :=
  match fuel with
  | O => Panic RecursionLimit
  | S fuel => parse_body (parse_rec fuel) buf
  end.

Definition parse (buf : bytes) : Result (RespValue * Z) :=
  parse_rec (S (length buf)) buf.

(** [parse_slice] copies the slice into a [Bytes] and parses it. *)
Definition parse_slice (buf : bytes) : Result (RespValue * Z) := parse buf.

(** * The frame-length scanner *)

Section frame_recursive.
(** The recursive call. *)
Context (resp_frame_len : bytes -> Result Z).

(** [next += resp_frame_len(&buf[next..])?]. *)
Definition skip_frame (buf : bytes) (next : Z) : Result Z :=
  let? sub := slice_from buf next in
  let? child_len := resp_frame_len sub in
  Ok (next + child_len).

Definition skip_pair (buf : bytes) (next : Z) : Result Z :=
  let? next := skip_frame buf next in
  skip_frame buf next.

Definition frame_line (buf : bytes) : Result Z :=
  let? (_, next) := read_line buf 1 in
  Ok next.

Definition frame_bulk (buf : bytes) : Result Z :=
  let? (line, next) := read_line buf 1 in
  let? n := parse_int_from_bytes line in
  if n <? 0 then Ok next else
  let? end_ := usize_add next n in
  let? total := usize_add end_ 2 in
  if len buf <? total then Err Incomplete else Ok total.

Definition frame_array (buf : bytes) : Result Z :=
  let? (line, next) := read_line buf 1 in
  let? count := parse_int_from_bytes line in
  if count <? 0 then Ok next else
  for_count (skip_frame buf) (loop_fuel buf) count next.

Definition frame_map (buf : bytes) : Result Z :=
  let? (line, next) := read_line buf 1 in
  let? count := parse_int_from_bytes line in
  if count <? 0 then Err (Protocol (bs "negative map count")) else
  for_count (skip_pair buf) (loop_fuel buf) count next.

Definition frame_attribute (buf : bytes) : Result Z :=
  let? (line, next) := read_line buf 1 in
  let? count := parse_int_from_bytes line in
  if count <? 0 then Err (Protocol (bs "negative attribute count")) else
  let? next := for_count (skip_pair buf) (loop_fuel buf) count next in
  skip_frame buf next.

(** The body of [resp_frame_len]. *)
Definition frame_body (buf : bytes) : Result Z :=
  match buf with
  | [] => Err Incomplete
  | b :: _ =>
      if bool_decide (b ∈ ["+"; "-"; ":"; ","; "("]%byte) then frame_line buf
      else if decide (b = "_"%byte) then
        if len buf <? 3 then Err Incomplete else Ok 3
      else if decide (b = "#"%byte) then
        if len buf <? 4 then Err Incomplete else Ok 4
      else if bool_decide (b ∈ ["$"; "!"; "="]%byte) then frame_bulk buf
      else if bool_decide (b ∈ ["*"; "~"; ">"]%byte) then frame_array buf
      else if decide (b = "%"%byte) then frame_map buf
      else if decide (b = "|"%byte) then frame_attribute buf
      else unknown_type b
  end.
End frame_recursive.

Fixpoint frame_rec (fuel : nat) (buf : bytes) : Result Z :=
  match fuel with
  | O => Panic RecursionLimit
  | S fuel => frame_body (frame_rec fuel) buf
  end.

Definition resp_frame_len (buf : bytes) : Result Z := frame_rec (S (length buf)) buf.
End parser.

(** The two builds of a 64-bit target, with rustc's current layout. *)
Definition release64 : Target :=
  {| size_of_RespValue := 56; size_of_pair := 112; size_of_RedisConnection := 104;
     overflow_checks := false;
     size_of_RespValue_ge := ltac:(lia); size_of_pair_ge := ltac:(lia);
     size_of_RedisConnection_ge := ltac:(lia) |}.
Definition debug64 : Target :=
  {| size_of_RespValue := 56; size_of_pair := 112; size_of_RedisConnection := 104;
     overflow_checks := true;
     size_of_RespValue_ge := ltac:(lia); size_of_pair_ge := ltac:(lia);
     size_of_RedisConnection_ge := ltac:(lia) |}.

Definition crlf_lines (l : list string) : bytes := concat (map (fun s => bs s ++ CRLF) l).

Example parse_array_example :
  parse (H := release64) (crlf_lines ["*2"; "$3"; "foo"; ":-42"] ++ bs "+rest") =
  Ok (Array [BulkString (bs "foo"); Integer (-42)], 19).
Proof. vm_compute. reflexivity. Qed.

Example frame_array_example :
  resp_frame_len (H := release64) (crlf_lines ["*2"; "$3"; "foo"; ":-42"] ++ bs "+rest") = Ok 19.
Proof. vm_compute. reflexivity. Qed.

Example parse_incomplete_example :
  parse (H := release64) (crlf_lines ["*2"; "$3"; "foo"]) = Err Incomplete.
Proof. vm_compute. reflexivity. Qed.

Example parse_attribute_example :
  parse (H := release64) (crlf_lines ["|1"; "+ttl"; ":3600"; "#t"]) =
  Ok (Attribute (Boolean true) [(SimpleString (bs "ttl"), Integer 3600)], 21).
Proof. vm_compute. reflexivity. Qed.

Example parse_verbatim_example :
  parse (H := release64) (crlf_lines ["=8"; "txt:abcd"]) =
  Ok (VerbatimString (bs "txt") (bs "abcd"), 14).
Proof. vm_compute. reflexivity. Qed.
