(* ===== verification/ParserFacts.v ===== *)
(** Facts about the parser and the frame scanner of Parser.v: totality, bounds
    and panics; independence of the fuel; stability when the buffer grows;
    agreement of the scanner with the parser. *)

From Stdlib Require Import Strings.Byte.
From S2P Require Import Prelude RustStd Utf8 RustStr Float64 Error Types Parser.

(** The error that asks for more data. *)
Abbreviation retry := (eq Incomplete).

Section facts.
Context `{Target}.

(** * Lines *)

(** The three outcomes of reading a line after a type byte. *)
Inductive line_view (rest : bytes) : Result (bytes * Z) -> Prop :=
| line_complete line tail :
    rest = line ++ CR :: LF :: tail -> (CR ∉ line) ->
    line_view rest (Ok (line, len line + 3))
| line_broken line x tail :
    rest = line ++ CR :: x :: tail -> (CR ∉ line) -> x <> LF ->
    line_view rest (Err (Protocol (bs "expected \n after \r")))
| line_cut : (CR ∉ rest) -> line_view rest (Err Incomplete)
| line_cut_cr line : rest = line ++ [CR] -> (CR ∉ line) -> line_view rest (Err Incomplete).

Lemma slice_from_1 {E} b rest : @slice_from E (b :: rest) 1 = Ok rest.
Proof. apply (slice_from_app [b] rest). Qed.

Lemma slice_line {E} b line rest :
  @slice E (b :: line ++ rest) 1 (1 + len line) = Ok line.
Proof. exact (slice_app [b] line rest 1 (1 + len line) eq_refl eq_refl). Qed.

(** Reading a complete line. *)
Lemma read_line_app b line tail :
  (CR ∉ line) -> read_line (b :: line ++ CR :: LF :: tail) 1 = Ok (line, len line + 3).
Proof.
  intros Hl. unfold read_line, find_crlf. rewrite slice_from_1. cbn [bind].
  rewrite memchr_app by done.
  rewrite (proj2 (Z.ltb_lt _ _)) by len_lia.
  replace (b :: line ++ CR :: LF :: tail) with ((b :: line ++ [CR]) ++ LF :: tail)
    at 1 by (simpl; by rewrite <- app_assoc).
  rewrite index_app by len_lia. cbn [bind]. rewrite bool_decide_true by done. cbn [bind].
  rewrite slice_line. simpl. do 2 f_equal. lia.
Qed.

Lemma read_line_view b rest : line_view rest (read_line (b :: rest) 1).
Proof.
  destruct (memchr CR rest) as [pos|] eqn:E.
  - apply memchr_Some in E as (line & post & -> & Hline & ->).
    destruct post as [|x tail].
    + unfold read_line, find_crlf. rewrite slice_from_1. cbn [bind].
      rewrite memchr_app by done. rewrite (proj2 (Z.ltb_ge _ _)) by len_lia.
      by eapply line_cut_cr.
    + destruct (decide (x = LF)) as [->|Hx].
      { rewrite read_line_app by done. by eapply line_complete. }
      unfold read_line, find_crlf. rewrite slice_from_1. cbn [bind].
      rewrite memchr_app by done. rewrite (proj2 (Z.ltb_lt _ _)) by len_lia.
      replace (b :: line ++ CR :: x :: tail) with ((b :: line ++ [CR]) ++ x :: tail)
        by (simpl; by rewrite <- app_assoc).
      rewrite index_app by len_lia. cbn [bind]. rewrite bool_decide_false by done.
      by eapply line_broken.
  - unfold read_line, find_crlf. rewrite slice_from_1. cbn [bind]. rewrite E.
    apply memchr_None in E. by apply line_cut.
Qed.

Lemma post_read_line b rest X :
  post (read_line (b :: rest) 1)
    (fun '(line, next) => next = len line + 3 /\ next <= len (b :: rest) /\
       exists tail, rest = line ++ CR :: LF :: tail /\ (CR ∉ line))
    (fun _ => True) X.
Proof.
  destruct (read_line_view b rest); simpl; [|done..]. subst.
  split_and!; [done|len_lia|by eexists].
Qed.

(** Appending to the buffer does not change a line already read. *)
Lemma read_line_stable b rest ext :
  stable retry (read_line (b :: rest) 1) (read_line (b :: rest ++ ext) 1).
Proof.
  destruct (read_line_view b rest) as [line tail -> Hl|line x tail -> Hl Hx| |];
    intros Hf.
  - rewrite <- app_assoc. simpl. by apply read_line_app.
  - rewrite <- app_assoc. simpl.
    destruct (read_line_view b (line ++ CR :: x :: tail ++ ext)) as
      [line' tail' E Hl'|line' x' tail' E Hl' Hx'|Hn|line' E Hl'].
    all: try (pose proof (memchr_app line CR (x :: tail ++ ext) Hl) as M1; rewrite E in M1;
      rewrite memchr_app in M1 by done; injection M1 as M1).
    + unfold len in M1. apply app_inj_1 in E as [-> E]; [|lia]. naive_solver.
    + done.
    + exfalso. apply Hn. set_solver.
    + unfold len in M1. apply app_inj_1 in E as [-> E]; [|lia]. naive_solver.
  - exfalso. by apply Hf.
  - exfalso. by apply Hf.
Qed.

(** * Integers *)

Lemma int_digits_post n ds X :
  I64_MIN <= n <= 0 ->
  post (int_digits n ds) (fun m => I64_MIN <= m <= 0) (fun e => e <> Incomplete) X.
Proof.
  revert n. induction ds as [|b ds IH]; intros n Hn; simpl; [done|].
  destruct (is_ascii_digit b) eqn:Hd; simpl; [|done].
  unfold is_ascii_digit in Hd. unfold checked_i64, in_i64.
  destruct ((I64_MIN <=? n * 10) && (n * 10 <=? I64_MAX)) eqn:H1; simpl; [|done].
  destruct ((I64_MIN <=? n * 10 - (u8 b - 48)) && (n * 10 - (u8 b - 48) <=? I64_MAX)) eqn:H2;
    simpl; [|done].
  apply IH. lia.
Qed.

(** What a panic of the parsers can be. *)
Definition parser_panic (p : panic) : Prop :=
  p = CapacityOverflow \/ (p = ArithmeticOverflow /\ overflow_checks = true).
Definition scanner_panic (p : panic) : Prop :=
  p = ArithmeticOverflow /\ overflow_checks = true.

Lemma parse_digits_post neg ds :
  post (parse_digits neg ds) (fun n => I64_MIN <= n <= I64_MAX)
    (fun e => e <> Incomplete) scanner_panic.
Proof.
  unfold parse_digits. destruct ds as [|d ds]; [done|]. apply post_bind.
  eapply post_mono; [apply (int_digits_post 0 (d :: ds) (fun _ => False))|..|done|done].
  { unfold I64_MIN. lia. }
  intros n Hn. destruct neg; simpl; [unfold I64_MIN, I64_MAX in *; lia|].
  unfold i64_neg. destruct (Z.eqb_spec n I64_MIN).
  - destruct overflow_checks eqn:Ho; simpl; [split; done|unfold I64_MIN, I64_MAX; lia].
  - simpl. unfold I64_MIN, I64_MAX in *. lia.
Qed.

Lemma parse_int_post l :
  post (parse_int_from_bytes l) (fun n => I64_MIN <= n <= I64_MAX)
    (fun e => e <> Incomplete) scanner_panic.
Proof.
  unfold parse_int_from_bytes. destruct l as [|b0 t]; [done|].
  repeat case_decide; apply parse_digits_post.
Qed.

(** The value of a run of digits, read towards the negative. *)
Lemma int_digits_value n ds :
  Forall (fun b => is_ascii_digit b = true) ds -> n <= 0 ->
  int_digits n ds =
  if I64_MIN <=? n * 10 ^ len ds - dec_value ds
  then Ok (n * 10 ^ len ds - dec_value ds)
  else if bool_decide (ds = []) then Ok n else Err (Protocol (bs "integer overflow")).
Proof.
  intros Hds. revert n. induction Hds as [|b ds Hb Hds IH]; intros n Hn.
  { simpl. rewrite len_nil. change (dec_value []) with 0.
    replace (n * 10 ^ 0 - 0) with n by lia. by destruct (I64_MIN <=? n). }
  rewrite bool_decide_false by done.
  cbn [int_digits]. rewrite Hb. cbn [negb].
  pose proof (dec_value_nonneg ds Hds) as Hnn.
  rewrite dec_value_cons, len_cons, Z.pow_add_r by len_lia.
  assert (0 < 10 ^ len ds) as Hpow by (apply Z.pow_pos_nonneg; len_lia).
  unfold is_ascii_digit in Hb.
  set (p := 10 ^ len ds) in *. set (d := u8 b - 48) in *.
  assert (0 <= d <= 9) by lia.
  assert (n * (10 ^ 1 * p) - (d * p + dec_value ds) = (n * 10 - d) * p - dec_value ds) as ->
    by (change (10 ^ 1) with 10; lia).
  unfold checked_i64, in_i64.
  destruct (Z.leb_spec I64_MIN ((n * 10 - d) * p - dec_value ds)) as [Hok|Hbad].
  - assert (I64_MIN <= n * 10 - d) by nia.
    rewrite (proj2 (Z.leb_le I64_MIN (n * 10))) by lia.
    rewrite (proj2 (Z.leb_le (n * 10) I64_MAX)) by (unfold I64_MAX; lia). simpl.
    rewrite (proj2 (Z.leb_le I64_MIN (n * 10 - d))) by lia.
    rewrite (proj2 (Z.leb_le (n * 10 - d) I64_MAX)) by (unfold I64_MAX; lia). simpl.
    rewrite IH by lia. by rewrite (proj2 (Z.leb_le _ _)).
  - destruct ((I64_MIN <=? n * 10) && (n * 10 <=? I64_MAX)) eqn:H1; simpl; [|done].
    destruct ((I64_MIN <=? n * 10 - d) && (n * 10 - d <=? I64_MAX)) eqn:H2; simpl; [|done].
    rewrite IH by lia. rewrite (proj2 (Z.leb_gt _ _)) by lia.
    case_bool_decide; [|done]. subst ds. exfalso.
    change p with 1 in *. change (dec_value []) with 0 in *. lia.
Qed.

(** * Bounds and panics *)

Lemma utf8_or_post what s X :
  post (utf8_or what s) (fun t => t = s /\ valid_utf8 s = true)
    (fun e => e <> Incomplete) X.
Proof.
  unfold utf8_or. destruct (from_utf8 s) eqn:E; simpl; [|done|].
  - by apply from_utf8_ok in E as [? ->].
  - by apply from_utf8_no_panic in E.
Qed.

Lemma check_terminator_post buf e msg X :
  0 <= e -> e + 2 <= USIZE_MAX ->
  post (check_terminator buf e msg) (fun _ => e + 2 <= len buf) (fun _ => True) X.
Proof.
  intros He Hmax. unfold check_terminator. rewrite usize_add_ok by done. cbn [bind].
  destruct (Z.ltb_spec (len buf) (e + 2)); [done|].
  destruct (@index_is PyrsedisError buf e) as (b0 & -> & _); [lia|]. cbn [bind].
  case_bool_decide; [|done]. cbn [negb].
  destruct (@index_is PyrsedisError buf (e + 1)) as (b1 & -> & _); [lia|]. cbn [bind].
  case_bool_decide; [|done]. simpl. lia.
Qed.

(** What is promised of the result of parsing [buf]. *)
Definition parse_ok (buf : bytes) (r : Result (RespValue * Z)) : Prop :=
  post r (fun '(v, n) => 3 <= n <= len buf /\ wf_value v) (fun _ => True) parser_panic.
Definition frame_ok (buf : bytes) (r : Result Z) : Prop :=
  post r (fun n => 3 <= n <= len buf) (fun _ => True) scanner_panic.

Lemma scanner_parser_panic p : scanner_panic p -> parser_panic p.
Proof. by right. Qed.

(** Peel the first bind with a lemma about what it runs. *)
Tactic Notation "pbind" uconstr(L) :=
  apply post_bind; eapply post_mono; [apply L|cbn beta|done|first [done|apply scanner_parser_panic]].
Ltac pline :=
  pbind post_read_line; intros [line next] (-> & Hle & tail & -> & Hcr).
Ltac pint n := pbind parse_int_post; intros n Hn.

Lemma usize_add_post {E} a c (X : panic -> Prop) :
  a + c <= USIZE_MAX -> post (@usize_add E a c) (fun n => n = a + c) (fun _ => True) X.
Proof. intros. by rewrite usize_add_ok. Qed.

Lemma slice_post {E} buf i j (X : panic -> Prop) :
  0 <= i -> i <= j -> j <= len buf ->
  post (@slice E buf i j) (fun s => len s = j - i) (fun _ => True) X.
Proof.
  intros. rewrite slice_ok by done. simpl. unfold len in *.
  rewrite length_take, length_drop. lia.
Qed.

Section leaves.
Context (b : byte) (rest : bytes) (Hmax : len (b :: rest) < ISIZE_MAX).

Lemma simple_string_ok : parse_ok (b :: rest) (parse_simple_string (b :: rest)).
Proof using All.
  unfold parse_ok, parse_simple_string. pline.
  apply post_bind. repeat (case_bool_decide; [simpl; split; [len_lia|by constructor]|]).
  eapply post_mono; [apply utf8_or_post| |done|apply scanner_parser_panic].
  intros ? [-> ?]. simpl. split; [len_lia|by constructor].
Qed.

Lemma simple_error_ok : parse_ok (b :: rest) (parse_simple_error (b :: rest)).
Proof using All.
  unfold parse_ok, parse_simple_error. pline. pbind utf8_or_post.
  intros ? [-> ?]. simpl. split; [len_lia|by constructor].
Qed.

Lemma integer_ok : parse_ok (b :: rest) (parse_integer (b :: rest)).
Proof using All.
  unfold parse_ok, parse_integer. pline. pint n.
  simpl. split; [len_lia|by constructor].
Qed.

Lemma null_ok : parse_ok (b :: rest) (parse_null (b :: rest)).
Proof using All.
  unfold parse_ok, parse_null. destruct (Z.ltb_spec (len (b :: rest)) 3); [done|].
  destruct (@index_is PyrsedisError (b :: rest) 1) as (? & -> & _); [lia|].
  destruct (@index_is PyrsedisError (b :: rest) 2) as (? & -> & _); [lia|].
  cbn [bind]. destruct (_ || _); simpl; [done|]. split; [lia|constructor].
Qed.

Lemma boolean_ok : parse_ok (b :: rest) (parse_boolean (b :: rest)).
Proof using All.
  unfold parse_ok, parse_boolean. destruct (Z.ltb_spec (len (b :: rest)) 4); [done|].
  destruct (@index_is PyrsedisError (b :: rest) 1) as (? & -> & _); [lia|].
  destruct (@index_is PyrsedisError (b :: rest) 2) as (? & -> & _); [lia|].
  destruct (@index_is PyrsedisError (b :: rest) 3) as (? & -> & _); [lia|].
  cbn [bind]. repeat case_decide; cbn [bind]; try done;
    (destruct (_ || _); simpl; [done|]; split; [lia|constructor]).
Qed.

Lemma double_ok : parse_ok (b :: rest) (parse_double (b :: rest)).
Proof using All.
  unfold parse_ok, parse_double. pline. pbind utf8_or_post. intros s [-> Hs].
  apply post_bind. repeat (case_bool_decide; [simpl; split; [len_lia|by constructor]|]).
  destruct (parse_f64 line) eqn:E; simpl; [split; [len_lia|constructor]|done|].
  by apply parse_f64_no_panic in E.
Qed.

Lemma big_number_ok : parse_ok (b :: rest) (parse_big_number (b :: rest)).
Proof using All.
  unfold parse_ok, parse_big_number. pline. pbind utf8_or_post. intros s [-> Hs].
  destruct (bool_decide _) eqn:E1; simpl; [done|]. apply bool_decide_eq_false in E1.
  destruct (all_digits _) eqn:E2; simpl; [|done]. split; [len_lia|by constructor].
Qed.

Lemma bulk_string_ok : parse_ok (b :: rest) (parse_bulk_string (b :: rest)).
Proof using All.
  unfold parse_ok, parse_bulk_string. pline. pint n.
  destruct (Z.ltb_spec n 0); [simpl; split; [len_lia|constructor]|].
  unfold I64_MAX, ISIZE_MAX in *.
  pbind usize_add_post; [unfold USIZE_MAX; lia|]. intros end_ ->.
  pbind check_terminator_post; [len_lia|unfold USIZE_MAX; lia|]. intros _ Hend.
  pbind slice_post; [len_lia|lia|lia|]. intros data _.
  simpl. split; [len_lia|constructor].
Qed.

Lemma bulk_error_ok : parse_ok (b :: rest) (parse_bulk_error (b :: rest)).
Proof using All.
  unfold parse_ok, parse_bulk_error. pline. pint n.
  destruct (Z.ltb_spec n 0); [done|].
  unfold I64_MAX, ISIZE_MAX in *.
  pbind usize_add_post; [unfold USIZE_MAX; lia|]. intros end_ ->.
  pbind check_terminator_post; [len_lia|unfold USIZE_MAX; lia|]. intros _ Hend.
  pbind slice_post; [len_lia|lia|lia|]. intros data _.
  pbind utf8_or_post. intros ? [-> ?].
  simpl. split; [len_lia|by constructor].
Qed.

Lemma verbatim_string_ok : parse_ok (b :: rest) (parse_verbatim_string (b :: rest)).
Proof using All.
  unfold parse_ok, parse_verbatim_string. pline. pint n.
  destruct (Z.ltb_spec n 0); [done|].
  unfold I64_MAX, ISIZE_MAX in *.
  pbind usize_add_post; [unfold USIZE_MAX; lia|]. intros end_ ->.
  pbind check_terminator_post; [len_lia|unfold USIZE_MAX; lia|]. intros _ Hend.
  pbind slice_post; [len_lia|lia|lia|]. intros content Hc.
  destruct (Z.ltb_spec n 4); [done|].
  destruct (@index_is PyrsedisError content 3) as (? & -> & _); [lia|]. cbn [bind].
  case_bool_decide; [|done]. cbn [negb].
  pbind slice_post; [lia|lia|lia|]. intros enc Henc.
  pbind utf8_or_post. intros ? [-> ?].
  rewrite slice_from_ok by lia. cbn [bind].
  pbind utf8_or_post. intros ? [-> ?].
  simpl. split; [len_lia|constructor; [done|lia|done]].
Qed.
End leaves.

Lemma with_capacity_post {E} size count :
  post (@with_capacity E size count) (fun _ => True) (fun _ => True) parser_panic.
Proof. unfold with_capacity. destruct (_ <=? _); simpl; [done|by left]. Qed.

Section nodes.
Context (p : bytes -> Result (RespValue * Z)) (b : byte) (rest : bytes).
Context (Hmax : len (b :: rest) < ISIZE_MAX)
  (Hp : forall sub, (length sub < length (b :: rest))%nat -> len sub < ISIZE_MAX ->
          parse_ok sub (p sub)).

Lemma parse_at_post next :
  1 <= next <= len (b :: rest) ->
  post (parse_at p (b :: rest) next)
    (fun '(v, n) => next + 3 <= n <= len (b :: rest) /\ wf_value v)
    (fun _ => True) parser_panic.
Proof using All.
  intros Hn. unfold parse_at. rewrite slice_from_ok by lia. cbn [bind].
  set (sub := drop _ _).
  assert (len sub = len (b :: rest) - next) as Hl.
  { unfold sub, len in *. rewrite length_drop. lia. }
  pbind (Hp sub); [unfold len in *; lia|lia|]. intros [v n] [? ?]. simpl. split; [lia|done].
Qed.

(** The invariant of the element loops: the values so far are well formed and
    the position is inside the buffer, past the header. *)
Definition elems_inv (st : list RespValue * Z) : Prop :=
  Forall wf_value st.1 /\ 3 <= st.2 <= len (b :: rest).
Definition pairs_inv (st : list (RespValue * RespValue) * Z) : Prop :=
  Forall (fun kv => wf_value kv.1 /\ wf_value kv.2) st.1 /\ 3 <= st.2 <= len (b :: rest).
Definition left_over {A} (st : A * Z) : nat := Z.to_nat (len (b :: rest) - st.2).

Lemma loop_fuel_enough {A} (st : A * Z) :
  3 <= st.2 -> (left_over st < loop_fuel (b :: rest))%nat.
Proof using Type. unfold left_over, loop_fuel, len. lia. Qed.

Lemma elements_post count next :
  3 <= next <= len (b :: rest) ->
  post (for_count (push_element p (b :: rest)) (loop_fuel (b :: rest)) count ([], next))
    elems_inv (fun _ => True) parser_panic.
Proof using All.
  intros Hn. apply (post_for_count _ _ left_over).
  - split; simpl; [constructor|lia].
  - apply loop_fuel_enough. simpl. lia.
  - intros [vs n] [Hvs Hn']. simpl in *. pbind parse_at_post; [lia|].
    intros [v n'] [? ?]. unfold elems_inv, left_over. simpl. split_and!; [|lia|lia|lia].
    apply Forall_app. split; [done|]. by constructor.
Qed.

Lemma pairs_post count next :
  3 <= next <= len (b :: rest) ->
  post (for_count (push_pair p (b :: rest)) (loop_fuel (b :: rest)) count ([], next))
    pairs_inv (fun _ => True) parser_panic.
Proof using All.
  intros Hn. apply (post_for_count _ _ left_over).
  - split; simpl; [constructor|lia].
  - apply loop_fuel_enough. simpl. lia.
  - intros [kvs n] [Hkvs Hn']. simpl in *.
    pbind parse_at_post; [lia|]. intros [k n1] [? ?].
    pbind parse_at_post; [lia|]. intros [v n2] [? ?].
    unfold pairs_inv, left_over. simpl. split_and!; [|lia|lia|lia].
    apply Forall_app. split; [done|]. by constructor.
Qed.

Lemma array_ok : parse_ok (b :: rest) (parse_array p (b :: rest)).
Proof using All.
  unfold parse_ok, parse_array. pbind post_read_line. intros [line next] (? & ? & _).
  pint n. destruct (Z.ltb_spec n 0); [simpl; split; [len_lia|constructor]|].
  pbind with_capacity_post; [intros _ _].
  pbind elements_post; [len_lia|]. intros [vs n'] [? ?]. simpl. auto with pyrsedis.
Qed.

Lemma set_ok : parse_ok (b :: rest) (parse_set p (b :: rest)).
Proof using All.
  unfold parse_ok, parse_set. pbind post_read_line. intros [line next] (? & ? & _).
  pint n. destruct (Z.ltb_spec n 0); [done|].
  pbind with_capacity_post; [intros _ _].
  pbind elements_post; [len_lia|]. intros [vs n'] [? ?]. simpl. auto with pyrsedis.
Qed.

Lemma map_ok : parse_ok (b :: rest) (parse_map p (b :: rest)).
Proof using All.
  unfold parse_ok, parse_map. pbind post_read_line. intros [line next] (? & ? & _).
  pint n. destruct (Z.ltb_spec n 0); [done|].
  pbind with_capacity_post; [intros _ _].
  pbind pairs_post; [len_lia|]. intros [kvs n'] [? ?]. simpl. auto with pyrsedis.
Qed.

Lemma push_kind_post v :
  wf_value v ->
  post (push_kind v) (fun k => valid_utf8 k = true) (fun e => e <> Incomplete) parser_panic.
Proof using Type.
  intros Hv. destruct v; simpl; try done.
  - by inversion Hv.
  - eapply post_mono; [apply utf8_or_post| |done|apply scanner_parser_panic].
    by intros ? [-> ?].
Qed.

Lemma push_ok : parse_ok (b :: rest) (parse_push p (b :: rest)).
Proof using All.
  unfold parse_ok, parse_push. pbind post_read_line. intros [line next] (? & ? & _).
  pint n. destruct (Z.ltb_spec n 0); [done|]. destruct (Z.eqb_spec n 0); [done|].
  pbind parse_at_post; [len_lia|]. intros [kv n1] [? ?].
  apply post_bind. eapply post_mono; [by apply push_kind_post| |done|done].
  intros k ?.
  pbind with_capacity_post; [intros _ _].
  pbind elements_post; [len_lia|]. intros [vs n'] [? ?]. simpl. auto with pyrsedis.
Qed.

Lemma attribute_ok : parse_ok (b :: rest) (parse_attribute p (b :: rest)).
Proof using All.
  unfold parse_ok, parse_attribute. pbind post_read_line. intros [line next] (? & ? & _).
  pint n. destruct (Z.ltb_spec n 0); [done|].
  pbind with_capacity_post; [intros _ _].
  pbind pairs_post; [len_lia|]. intros [kvs n'] [? ?]. simpl in *.
  pbind parse_at_post; [lia|]. intros [v n2] [? ?]. simpl. split; [lia|].
  auto with pyrsedis.
Qed.

Lemma parse_body_ok : parse_ok (b :: rest) (parse_body p (b :: rest)).
Proof using All.
  unfold parse_body. repeat case_decide;
    eauto using simple_string_ok, simple_error_ok, integer_ok, bulk_string_ok, array_ok,
      null_ok, boolean_ok, double_ok, big_number_ok, bulk_error_ok, verbatim_string_ok,
      map_ok, set_ok, push_ok, attribute_ok.
  done.
Qed.
End nodes.

Lemma parse_rec_ok fuel buf :
  (length buf < fuel)%nat -> len buf < ISIZE_MAX -> parse_ok buf (parse_rec fuel buf).
Proof.
  revert buf. induction fuel as [|fuel IH]; intros buf Hf Hmax; [lia|].
  destruct buf as [|b rest]; [done|]. cbn [parse_rec].
  apply parse_body_ok; [done|]. intros sub Hs Hm. apply IH; [simpl in *; lia|done].
Qed.

(** ** The scanner *)

Section frame_nodes.
Context (f : bytes -> Result Z) (b : byte) (rest : bytes).
Context (Hmax : len (b :: rest) < ISIZE_MAX)
  (Hf : forall sub, (length sub < length (b :: rest))%nat -> len sub < ISIZE_MAX ->
          frame_ok sub (f sub)).

Lemma skip_frame_post next :
  1 <= next <= len (b :: rest) ->
  post (skip_frame f (b :: rest) next) (fun n => next + 3 <= n <= len (b :: rest))
    (fun _ => True) scanner_panic.
Proof using All.
  intros Hn. unfold skip_frame. rewrite slice_from_ok by lia. cbn [bind].
  set (sub := drop _ _).
  assert (len sub = len (b :: rest) - next) as Hl.
  { unfold sub, len in *. rewrite length_drop. lia. }
  apply post_bind. eapply post_mono; [apply (Hf sub); [unfold len in *; lia|lia]| |done|done].
  intros n ?. simpl in *. lia.
Qed.

Lemma skip_pair_post next :
  1 <= next <= len (b :: rest) ->
  post (skip_pair f (b :: rest) next) (fun n => next + 3 <= n <= len (b :: rest))
    (fun _ => True) scanner_panic.
Proof using All.
  intros Hn. unfold skip_pair. apply post_bind.
  eapply post_mono; [by apply skip_frame_post| |done|done]. cbv beta. intros n ?.
  eapply post_mono; [apply skip_frame_post; lia| |done|done]. cbv beta. lia.
Qed.

Lemma skip_loop_post (body : Z -> Result Z) count next :
  (forall n, 1 <= n <= len (b :: rest) ->
     post (body n) (fun n' => n + 3 <= n' <= len (b :: rest)) (fun _ => True) scanner_panic) ->
  3 <= next <= len (b :: rest) ->
  post (for_count body (loop_fuel (b :: rest)) count next)
    (fun n => 3 <= n <= len (b :: rest)) (fun _ => True) scanner_panic.
Proof using Type.
  intros Hb Hn.
  apply (post_for_count _ _ (fun n => Z.to_nat (len (b :: rest) - n))); [done| |].
  - cbv beta. unfold loop_fuel, len in *. lia.
  - intros n Hn'. eapply post_mono; [apply Hb; lia| |done|done]. cbv beta. intros. lia.
Qed.

(** The header the sized frames start with: a line holding an integer. *)
Lemma frame_header_ok (k : Z -> Z -> Result Z) :
  (forall next n, 3 <= next <= len (b :: rest) -> I64_MIN <= n <= I64_MAX ->
     frame_ok (b :: rest) (k next n)) ->
  frame_ok (b :: rest)
    (let? (line, next) := read_line (b :: rest) 1 in
     let? n := parse_int_from_bytes line in k next n).
Proof using All.
  intros Hk. unfold frame_ok. apply post_bind.
  eapply post_mono; [apply post_read_line| |done|done].
  intros [line next] (-> & ? & _). apply post_bind.
  eapply post_mono; [apply parse_int_post| |done|done]. intros n Hn.
  apply Hk; [len_lia|done].
Qed.

Lemma frame_body_ok : frame_ok (b :: rest) (frame_body f (b :: rest)).
Proof using All.
  unfold frame_body. case_bool_decide.
  { unfold frame_ok, frame_line. apply post_bind.
    eapply post_mono; [apply post_read_line| |done|done].
    intros [line next] (-> & ? & _). simpl. len_lia. }
  case_decide.
  { unfold frame_ok. destruct (Z.ltb_spec (len (b :: rest)) 3); simpl; [done|lia]. }
  case_decide.
  { unfold frame_ok. destruct (Z.ltb_spec (len (b :: rest)) 4); simpl; [done|lia]. }
  case_bool_decide.
  { apply frame_header_ok. intros next n ? ?. destruct (Z.ltb_spec n 0); [done|].
    unfold I64_MAX, ISIZE_MAX, frame_ok in *.
    rewrite usize_add_ok by (unfold USIZE_MAX; lia). cbn [bind].
    rewrite usize_add_ok by (unfold USIZE_MAX; lia). cbn [bind].
    destruct (Z.ltb_spec (len (b :: rest)) (next + n + 2)); simpl; [done|lia]. }
  case_bool_decide.
  { apply frame_header_ok. intros next n ? ?. destruct (Z.ltb_spec n 0); [done|].
    apply skip_loop_post; [apply skip_frame_post|done]. }
  case_decide.
  { apply frame_header_ok. intros next n ? ?. destruct (Z.ltb_spec n 0); [done|].
    apply skip_loop_post; [apply skip_pair_post|done]. }
  case_decide; [|done].
  apply frame_header_ok. intros next n ? ?. destruct (Z.ltb_spec n 0); [done|].
  unfold frame_ok. apply post_bind.
  eapply post_mono; [apply skip_loop_post; [apply skip_pair_post|done]| |done|done].
  cbv beta. intros n' ?.
  eapply post_mono; [apply skip_frame_post; lia| |done|done]. cbv beta. lia.
Qed.
End frame_nodes.

Lemma frame_rec_ok fuel buf :
  (length buf < fuel)%nat -> len buf < ISIZE_MAX -> frame_ok buf (frame_rec fuel buf).
Proof.
  revert buf. induction fuel as [|fuel IH]; intros buf Hf Hmax; [lia|].
  destruct buf as [|b rest]; [done|]. cbn [frame_rec].
  apply frame_body_ok; [done|]. intros sub Hs Hm. apply IH; [simpl in *; lia|done].
Qed.

(** * Stability

    An outcome other than "incomplete" does not change when more bytes are
    appended to the buffer, nor when more fuel is given. *)

Lemma usize_add_inv {E} a c n : @usize_add E a c = Ok n -> n = a + c.
Proof. unfold usize_add. destruct (_ <=? _); naive_solver. Qed.

Lemma check_terminator_stable buf ext e msg :
  0 <= e ->
  stable retry (check_terminator buf e msg) (check_terminator (buf ++ ext) e msg).
Proof.
  intros He. unfold check_terminator. apply stable_bind; [apply stable_refl|].
  intros total Ht.
  apply usize_add_inv in Ht as ->.
  destruct (Z.ltb_spec (len buf) (e + 2)); [intros Hf; by destruct Hf|].
  rewrite (proj2 (Z.ltb_ge _ _)) by len_lia.
  rewrite !index_app_l by lia. apply stable_refl.
Qed.

Lemma check_terminator_inv buf e msg u :
  check_terminator buf e msg = Ok u -> e + 2 <= len buf.
Proof.
  unfold check_terminator. intros Hc. apply bind_ok in Hc as (total & Ht & Hc).
  apply usize_add_inv in Ht as ->.
  destruct (Z.ltb_spec (len buf) (e + 2)); [done|lia].
Qed.

Section stable_leaves.
Context (b : byte) (rest ext : bytes).

Lemma header_stable {A} (k k' : Z -> Z -> Result A) :
  (forall next n, 3 <= next <= len (b :: rest) -> stable retry (k next n) (k' next n)) ->
  stable retry
    (let? (line, next) := read_line (b :: rest) 1 in
     let? n := parse_int_from_bytes line in k next n)
    (let? (line, next) := read_line (b :: rest ++ ext) 1 in
     let? n := parse_int_from_bytes line in k' next n).
Proof using Type.
  intros Hk. apply stable_bind; [apply read_line_stable|]. intros [line next] Hl.
  apply stable_bind; [apply stable_refl|]. intros n _. apply Hk.
  pose proof (post_ok_inv _ _ _ _ _ (post_read_line b rest not_limit) Hl) as (-> & ? & _).
  len_lia.
Qed.

(** A body that appears after the header of a length-prefixed value. *)
Lemma bulk_body_stable {A} next n msg (k : Z -> bytes -> Result A) :
  3 <= next -> 0 <= n ->
  stable retry
    (let? end_ := usize_add next n in
     let? _ := check_terminator (b :: rest) end_ msg in
     let? data := slice (b :: rest) next end_ in k end_ data)
    (let? end_ := usize_add next n in
     let? _ := check_terminator (b :: rest ++ ext) end_ msg in
     let? data := slice (b :: rest ++ ext) next end_ in k end_ data).
Proof using Type.
  intros Hn Hn0. apply stable_bind; [apply stable_refl|]. intros end_ He.
  apply usize_add_inv in He as ->.
  apply stable_bind; [apply (check_terminator_stable (b :: rest)); lia|].
  intros u Hu. apply check_terminator_inv in Hu.
  change (b :: rest ++ ext) with ((b :: rest) ++ ext).
  rewrite slice_app_l by lia. apply stable_refl.
Qed.

Lemma bulk_string_stable :
  stable retry (parse_bulk_string (b :: rest)) (parse_bulk_string (b :: rest ++ ext)).
Proof using Type.
  apply header_stable. intros next n Hn.
  destruct (Z.ltb_spec n 0); [apply stable_refl|]. apply bulk_body_stable; lia.
Qed.

Lemma bulk_error_stable :
  stable retry (parse_bulk_error (b :: rest)) (parse_bulk_error (b :: rest ++ ext)).
Proof using Type.
  apply header_stable. intros next n Hn.
  destruct (Z.ltb_spec n 0); [apply stable_refl|]. apply bulk_body_stable; lia.
Qed.

Lemma verbatim_string_stable :
  stable retry (parse_verbatim_string (b :: rest)) (parse_verbatim_string (b :: rest ++ ext)).
Proof using Type.
  apply header_stable. intros next n Hn.
  destruct (Z.ltb_spec n 0); [apply stable_refl|]. apply bulk_body_stable; lia.
Qed.

(** The fixed-size types only read inside their own bytes. *)
Ltac fixed_size_stable n :=
  destruct (Z.ltb_spec (len (b :: rest)) n); [by intros []|];
  rewrite (proj2 (Z.ltb_ge _ _)) by len_lia;
  change (b :: rest ++ ext) with ((b :: rest) ++ ext);
  rewrite !index_app_l by lia; apply stable_refl.

Lemma null_stable :
  stable retry (parse_null (b :: rest)) (parse_null (b :: rest ++ ext)).
Proof using Type. unfold parse_null. fixed_size_stable 3. Qed.

Lemma boolean_stable :
  stable retry (parse_boolean (b :: rest)) (parse_boolean (b :: rest ++ ext)).
Proof using Type. unfold parse_boolean. fixed_size_stable 4. Qed.
End stable_leaves.

Section stable_nodes.
Context (p p' : bytes -> Result (RespValue * Z)) (b : byte) (rest ext : bytes).
Context (Hmax : len (b :: rest) < ISIZE_MAX)
  (Hp : forall sub, (length sub < length (b :: rest))%nat -> len sub < ISIZE_MAX ->
          parse_ok sub (p sub))
  (Hst : forall sub, (length sub < length (b :: rest))%nat -> len sub < ISIZE_MAX ->
           stable retry (p sub) (p' (sub ++ ext))).

Lemma parse_at_stable next :
  1 <= next <= len (b :: rest) ->
  stable retry (parse_at p (b :: rest) next) (parse_at p' (b :: rest ++ ext) next).
Proof using All.
  intros Hn. unfold parse_at.
  pose proof (@slice_from_ok PyrsedisError (b :: rest) next) as Hs.
  rewrite Hs by lia. specialize (Hs ltac:(lia)).
  apply (slice_from_app_l _ ext) in Hs.
  change (b :: rest ++ ext) with ((b :: rest) ++ ext). rewrite Hs. cbn [bind].
  apply stable_bind; [|intros [??] _; apply stable_refl].
  apply Hst; unfold len in *; rewrite length_drop; simpl in *; lia.
Qed.

Lemma parse_at_inside next v n :
  1 <= next <= len (b :: rest) -> parse_at p (b :: rest) next = Ok (v, n) ->
  1 <= n <= len (b :: rest).
Proof using All.
  intros Hn He.
  pose proof (post_ok_inv _ _ _ _ _ (parse_at_post p b rest Hmax Hp next Hn) He) as [? _].
  lia.
Qed.

Lemma elements_stable count next :
  1 <= next <= len (b :: rest) ->
  stable retry
    (for_count (push_element p (b :: rest)) (loop_fuel (b :: rest)) count ([], next))
    (for_count (push_element p' (b :: rest ++ ext)) (loop_fuel (b :: rest ++ ext)) count
       ([], next)).
Proof using All.
  intros Hn. apply (stable_for_count _ (fun st => 1 <= st.2 <= len (b :: rest))); [done| |..].
  - unfold loop_fuel. simpl. rewrite length_app. lia.
  - intros [vs n] Hn'. apply stable_bind; [by apply parse_at_stable|].
    intros [v n'] _. apply stable_refl.
  - intros [vs n] [vs' n'] Hn' He. apply bind_ok in He as ([v n1] & He & ?).
    simplify_eq. by eapply parse_at_inside.
Qed.

Lemma pairs_stable count next :
  1 <= next <= len (b :: rest) ->
  stable retry
    (for_count (push_pair p (b :: rest)) (loop_fuel (b :: rest)) count ([], next))
    (for_count (push_pair p' (b :: rest ++ ext)) (loop_fuel (b :: rest ++ ext)) count
       ([], next)).
Proof using All.
  intros Hn. apply (stable_for_count _ (fun st => 1 <= st.2 <= len (b :: rest))); [done| |..].
  - unfold loop_fuel. simpl. rewrite length_app. lia.
  - intros [kvs n] Hn'. apply stable_bind; [by apply parse_at_stable|].
    intros [k n1] Hk. apply stable_bind; [|intros [v n'] _; apply stable_refl].
    apply parse_at_stable. by eapply parse_at_inside.
  - intros [kvs n] [kvs' n'] Hn' He. apply bind_ok in He as ([k n1] & Hk & He).
    apply bind_ok in He as ([v n2] & Hv & ?). simplify_eq.
    eapply parse_at_inside; [|exact Hv]. by eapply parse_at_inside.
Qed.

(** Where the element loop of a container ends. *)
Lemma pairs_inside count next kvs n :
  3 <= next <= len (b :: rest) ->
  for_count (push_pair p (b :: rest)) (loop_fuel (b :: rest)) count ([], next) = Ok (kvs, n) ->
  1 <= n <= len (b :: rest).
Proof using All.
  intros Hn He.
  pose proof (post_ok_inv _ _ _ _ _ (pairs_post p b rest Hmax Hp count next Hn) He) as [_ ?].
  simpl in *. lia.
Qed.

Ltac container :=
  apply header_stable; intros next n Hn;
  destruct (Z.ltb_spec n 0); [apply stable_refl|];
  apply stable_bind; [apply stable_refl|intros _ _].

Lemma array_stable :
  stable retry (parse_array p (b :: rest)) (parse_array p' (b :: rest ++ ext)).
Proof using All.
  container. apply stable_bind; [apply elements_stable; lia|].
  intros [??] _. apply stable_refl.
Qed.

Lemma set_stable :
  stable retry (parse_set p (b :: rest)) (parse_set p' (b :: rest ++ ext)).
Proof using All.
  container. apply stable_bind; [apply elements_stable; lia|].
  intros [??] _. apply stable_refl.
Qed.

Lemma map_stable :
  stable retry (parse_map p (b :: rest)) (parse_map p' (b :: rest ++ ext)).
Proof using All.
  container. apply stable_bind; [apply pairs_stable; lia|].
  intros [??] _. apply stable_refl.
Qed.

Lemma attribute_stable :
  stable retry (parse_attribute p (b :: rest)) (parse_attribute p' (b :: rest ++ ext)).
Proof using All.
  container. apply stable_bind; [apply pairs_stable; lia|]. intros [kvs n'] He.
  apply stable_bind; [|intros [??] _; apply stable_refl].
  apply parse_at_stable. eapply pairs_inside; [|exact He]. lia.
Qed.

Lemma push_stable :
  stable retry (parse_push p (b :: rest)) (parse_push p' (b :: rest ++ ext)).
Proof using All.
  apply header_stable. intros next n Hn.
  destruct (Z.ltb_spec n 0); [apply stable_refl|].
  destruct (Z.eqb_spec n 0); [apply stable_refl|].
  apply stable_bind; [apply parse_at_stable; lia|]. intros [kv n1] Hk.
  apply parse_at_inside in Hk; [|lia].
  apply stable_bind; [apply stable_refl|intros k _].
  apply stable_bind; [apply stable_refl|intros _ _].
  apply stable_bind; [by apply elements_stable|]. intros [??] _. apply stable_refl.
Qed.

Lemma parse_body_stable :
  stable retry (parse_body p (b :: rest)) (parse_body p' (b :: rest ++ ext)).
Proof using All.
  unfold parse_body. repeat case_decide;
    auto using bulk_string_stable, bulk_error_stable, verbatim_string_stable, null_stable,
      boolean_stable, array_stable, map_stable, set_stable, push_stable, attribute_stable,
      stable_refl;
    (apply stable_bind; [apply read_line_stable|intros [??] _; apply stable_refl]).
Qed.
End stable_nodes.

Lemma parse_rec_stable fuel fuel' buf ext :
  (length buf < fuel)%nat -> (length (buf ++ ext) < fuel')%nat -> len buf < ISIZE_MAX ->
  stable retry (parse_rec fuel buf) (parse_rec fuel' (buf ++ ext)).
Proof.
  revert fuel' buf. induction fuel as [|fuel IH]; intros fuel' buf Hf Hf' Hmax; [lia|].
  destruct buf as [|b rest]; [intros []; done|].
  destruct fuel' as [|fuel']; [simpl in *; lia|]. cbn [parse_rec app].
  apply parse_body_stable; [done|..]; intros sub Hs Hm.
  - apply parse_rec_ok; [simpl in *; lia|done].
  - apply IH; [simpl in *; lia| |done]. rewrite length_app in *. simpl in *. lia.
Qed.
End facts.
