(* ===== verification/ParserProps.v ===== *)
(** What makes the parser a streaming parser: it is total, its outcome is
    stable under more input, and the frame scanner agrees with it. *)

From Stdlib Require Import Strings.Byte.
From S2P Require Import Prelude RustStd Utf8 RustStr Float64 Error Types Parser ParserFacts.

Section props.
Context `{Target}.

(** * Stability of the scanner *)

Section frame_stable.
Context (f f' : bytes -> Result Z) (b : byte) (rest ext : bytes).
Context (Hmax : len (b :: rest) < ISIZE_MAX)
  (Hf : forall sub, (length sub < length (b :: rest))%nat -> len sub < ISIZE_MAX ->
          frame_ok sub (f sub))
  (Hst : forall sub, (length sub < length (b :: rest))%nat -> len sub < ISIZE_MAX ->
           stable retry (f sub) (f' (sub ++ ext))).

Lemma skip_frame_stable next :
  1 <= next <= len (b :: rest) ->
  stable retry (skip_frame f (b :: rest) next) (skip_frame f' (b :: rest ++ ext) next).
Proof using All.
  intros Hn. unfold skip_frame.
  pose proof (@slice_from_ok PyrsedisError (b :: rest) next) as Hs.
  rewrite Hs by lia. specialize (Hs ltac:(lia)).
  apply (slice_from_app_l _ ext) in Hs.
  change (b :: rest ++ ext) with ((b :: rest) ++ ext). rewrite Hs. cbn [bind].
  apply stable_bind; [|intros ? _; apply stable_refl].
  apply Hst; unfold len in *; rewrite length_drop; simpl in *; lia.
Qed.

Lemma skip_frame_inside next n :
  1 <= next <= len (b :: rest) -> skip_frame f (b :: rest) next = Ok n ->
  1 <= n <= len (b :: rest).
Proof using All.
  intros Hn He.
  pose proof (post_ok_inv _ _ _ _ _ (skip_frame_post f b rest Hmax Hf next Hn) He) as ?.
  simpl in *. lia.
Qed.

Lemma skip_pair_stable next :
  1 <= next <= len (b :: rest) ->
  stable retry (skip_pair f (b :: rest) next) (skip_pair f' (b :: rest ++ ext) next).
Proof using All.
  intros Hn. unfold skip_pair. apply stable_bind; [by apply skip_frame_stable|].
  intros n Hk. apply skip_frame_stable. by eapply skip_frame_inside.
Qed.

Lemma skip_pair_inside next n :
  1 <= next <= len (b :: rest) -> skip_pair f (b :: rest) next = Ok n ->
  1 <= n <= len (b :: rest).
Proof using All.
  intros Hn He. apply bind_ok in He as (n1 & H1 & H2).
  eapply skip_frame_inside; [|exact H2]. by eapply skip_frame_inside.
Qed.

Lemma skip_loop_stable (body body' : Z -> Result Z) count next :
  (forall n, 1 <= n <= len (b :: rest) -> stable retry (body n) (body' n)) ->
  (forall n n', 1 <= n <= len (b :: rest) -> body n = Ok n' -> 1 <= n' <= len (b :: rest)) ->
  1 <= next <= len (b :: rest) ->
  stable retry (for_count body (loop_fuel (b :: rest)) count next)
    (for_count body' (loop_fuel (b :: rest ++ ext)) count next).
Proof using Type.
  intros Hb Hi Hn. apply (stable_for_count _ (fun n => 1 <= n <= len (b :: rest))); try done.
  unfold loop_fuel. simpl. rewrite length_app. lia.
Qed.

Lemma skip_loop_inside (body : Z -> Result Z) fuel count next n :
  (forall n n', 1 <= n <= len (b :: rest) -> body n = Ok n' -> 1 <= n' <= len (b :: rest)) ->
  1 <= next <= len (b :: rest) -> for_count body fuel count next = Ok n ->
  1 <= n <= len (b :: rest).
Proof using Type.
  intros Hi. revert count next. induction fuel as [|fuel IH]; intros count next Hn; simpl;
    (destruct (count <=? 0); [intros; by simplify_eq|]); [done|].
  intros He. apply bind_ok in He as (n1 & H1 & H2). eapply IH; [|exact H2]. by eapply Hi.
Qed.

Lemma frame_body_stable :
  stable retry (frame_body f (b :: rest)) (frame_body f' (b :: rest ++ ext)).
Proof using All.
  unfold frame_body. case_bool_decide.
  { apply stable_bind; [apply read_line_stable|intros [??] _; apply stable_refl]. }
  case_decide.
  { destruct (Z.ltb_spec (len (b :: rest)) 3); [by intros []|].
    rewrite (proj2 (Z.ltb_ge _ _)) by len_lia. apply stable_refl. }
  case_decide.
  { destruct (Z.ltb_spec (len (b :: rest)) 4); [by intros []|].
    rewrite (proj2 (Z.ltb_ge _ _)) by len_lia. apply stable_refl. }
  case_bool_decide.
  { apply header_stable. intros next n ?. destruct (Z.ltb_spec n 0); [apply stable_refl|].
    apply stable_bind; [apply stable_refl|intros end_ _].
    apply stable_bind; [apply stable_refl|intros total _].
    destruct (Z.ltb_spec (len (b :: rest)) total); [by intros []|].
    rewrite (proj2 (Z.ltb_ge _ _)) by len_lia. apply stable_refl. }
  case_bool_decide.
  { apply header_stable. intros next n ?. destruct (Z.ltb_spec n 0); [apply stable_refl|].
    apply skip_loop_stable; [apply skip_frame_stable|apply skip_frame_inside|lia]. }
  case_decide.
  { apply header_stable. intros next n ?. destruct (Z.ltb_spec n 0); [apply stable_refl|].
    apply skip_loop_stable; [apply skip_pair_stable|apply skip_pair_inside|lia]. }
  case_decide; [|apply stable_refl].
  apply header_stable. intros next n ?. destruct (Z.ltb_spec n 0); [apply stable_refl|].
  apply stable_bind.
  - apply skip_loop_stable; [apply skip_pair_stable|apply skip_pair_inside|lia].
  - intros n' Hl. apply skip_frame_stable.
    eapply skip_loop_inside; [apply skip_pair_inside| |exact Hl]. lia.
Qed.
End frame_stable.

Lemma frame_rec_stable fuel fuel' buf ext :
  (length buf < fuel)%nat -> (length (buf ++ ext) < fuel')%nat -> len buf < ISIZE_MAX ->
  stable retry (frame_rec fuel buf) (frame_rec fuel' (buf ++ ext)).
Proof.
  revert fuel' buf. induction fuel as [|fuel IH]; intros fuel' buf Hf Hf' Hmax; [lia|].
  destruct buf as [|b rest]; [intros []; done|].
  destruct fuel' as [|fuel']; [simpl in *; lia|]. cbn [frame_rec app].
  apply frame_body_stable; [done|..]; intros sub Hs Hm.
  - apply frame_rec_ok; [simpl in *; lia|done].
  - apply IH; [simpl in *; lia| |done]. rewrite length_app in *. simpl in *. lia.
Qed.

(** * The scanner agrees with the parser *)

(** What a parse that returns tells of the scan; an incomplete parse is an
    incomplete scan. *)
Abbreviation agrees := (simulates retry (fun (vn : RespValue * Z) n => vn.2 = n)).

(** The result of a continuation that returns at [n] and never asks for more. *)
Definition returns_at (n : Z) (r : Result (RespValue * Z)) : Prop :=
  post r (fun vn => vn.2 = n) (fun e => e <> Incomplete) (fun _ => True).

Lemma agrees_returns_at n r : returns_at n r -> agrees r (Ok n).
Proof. unfold returns_at. destruct r as [[]| |]; simpl; naive_solver. Qed.

Lemma agrees_line b rest (k : bytes -> Z -> Result (RespValue * Z)) :
  (forall line next, returns_at next (k line next)) ->
  agrees (let? (line, next) := read_line (b :: rest) 1 in k line next)
    (frame_line (b :: rest)).
Proof.
  intros Hk. unfold frame_line.
  eapply (simulates_bind _ (=)); [destruct (read_line _ _); simpl; eauto|].
  intros [line next] ? _ _ <-. by apply agrees_returns_at.
Qed.

Lemma agrees_header b rest {A B} (R : A -> B -> Prop) (k : Z -> Z -> Result A)
    (k' : Z -> Z -> Result B) :
  (forall next n, 3 <= next -> simulates retry R (k next n) (k' next n)) ->
  simulates retry R
    (let? (line, next) := read_line (b :: rest) 1 in
     let? n := parse_int_from_bytes line in k next n)
    (let? (line, next) := read_line (b :: rest) 1 in
     let? n := parse_int_from_bytes line in k' next n).
Proof.
  intros Hk. eapply (simulates_bind _ (=)); [destruct (read_line _ _); simpl; eauto|].
  intros [line next] ? Hl _ <-.
  eapply (simulates_bind _ (=)); [destruct (parse_int_from_bytes _); simpl; eauto|].
  intros n ? _ _ <-. apply Hk.
  pose proof (post_ok_inv _ _ _ _ _ (post_read_line b rest not_limit) Hl) as (-> & _).
  len_lia.
Qed.

(** The length-prefixed types: the scanner checks the length only. *)
Lemma agrees_bulk_body b rest next n msg (k : Z -> bytes -> Result (RespValue * Z)) :
  (forall e d, returns_at (e + 2) (k e d)) ->
  agrees
    (let? end_ := usize_add next n in
     let? _ := check_terminator (b :: rest) end_ msg in
     let? data := slice (b :: rest) next end_ in k end_ data)
    (let? end_ := usize_add next n in
     let? total := usize_add end_ 2 in
     if len (b :: rest) <? total then Err Incomplete else Ok total).
Proof.
  intros Hk. unfold check_terminator.
  destruct (usize_add next n) as [end_| |]; [|done..]. cbn [bind].
  destruct (usize_add end_ 2) as [total| |] eqn:Ht; [|done..]. cbn [bind].
  apply usize_add_inv in Ht as ->.
  destruct (len (b :: rest) <? end_ + 2); [done|].
  destruct (index (b :: rest) end_) as [b0|e|] eqn:E0; [|by apply index_not_err in E0|done].
  cbn [bind]. destruct (negb (bool_decide (b0 = CR))); [done|].
  destruct (index (b :: rest) (end_ + 1)) as [b1|e|] eqn:E1;
    [|by apply index_not_err in E1|done].
  cbn [bind]. destruct (negb _); [done|]. cbn [bind].
  destruct (slice _ _ _) as [data|e|] eqn:E2; [|by apply slice_not_err in E2|done].
  cbn [bind]. by apply agrees_returns_at.
Qed.

Section agrees_nodes.
Context (p : bytes -> Result (RespValue * Z)) (f : bytes -> Result Z) (b : byte) (rest : bytes).
Context (Hmax : len (b :: rest) < ISIZE_MAX)
  (Hf : forall sub, (length sub < length (b :: rest))%nat -> len sub < ISIZE_MAX ->
          frame_ok sub (f sub))
  (Hag : forall sub, (length sub < length (b :: rest))%nat -> len sub < ISIZE_MAX ->
           agrees (p sub) (f sub)).

Lemma agrees_at next :
  1 <= next -> agrees (parse_at p (b :: rest) next) (skip_frame f (b :: rest) next).
Proof using All.
  intros Hn. unfold parse_at, skip_frame.
  destruct (@slice_from_inv PyrsedisError (b :: rest) next _ eq_refl) as [[Hle ->]| ->]; [|done].
  cbn [bind]. eapply simulates_bind; [apply Hag|].
  - rewrite length_drop. unfold len in *. lia.
  - unfold len in *. rewrite length_drop. lia.
  - intros [v c] ? _ _ <-. simpl. eauto.
Qed.

Lemma skip_frame_forward next n :
  1 <= next -> skip_frame f (b :: rest) next = Ok n -> 1 <= n.
Proof using All.
  intros Hn He.
  destruct (@slice_from_inv PyrsedisError (b :: rest) next _ eq_refl) as [[Hle Hs]|Hs].
  - pose proof (skip_frame_post f b rest Hmax Hf next) as Hp. rewrite He in Hp.
    simpl in Hp. lia.
  - unfold skip_frame in He. by rewrite Hs in He.
Qed.

(** The loops over elements and over pairs, against the skipping loops. *)
Abbreviation same_position := (fun st n => st.2 = n /\ 1 <= n).

Lemma agrees_elements fuel count next :
  1 <= next ->
  simulates retry same_position
    (for_count (push_element p (b :: rest)) fuel count ([], next))
    (for_count (skip_frame f (b :: rest)) fuel count next).
Proof using All.
  intros Hn. apply simulates_for_count; [done|]. intros [vs n] ? [<- Hn1]. simpl in *.
  unfold push_element.
  rewrite <- (bind_ret (skip_frame f (b :: rest) n)).
  eapply simulates_bind; [by apply agrees_at|].
  intros [v n'] ? _ He <-. simpl. eexists. split; [done|]. split; [done|].
  by eapply skip_frame_forward.
Qed.

Lemma agrees_pairs fuel count next :
  1 <= next ->
  simulates retry same_position
    (for_count (push_pair p (b :: rest)) fuel count ([], next))
    (for_count (skip_pair f (b :: rest)) fuel count next).
Proof using All.
  intros Hn. apply simulates_for_count; [done|]. intros [kvs n] ? [<- Hn1]. simpl in *.
  unfold push_pair, skip_pair.
  eapply simulates_bind; [by apply agrees_at|]. intros [k n1] ? _ Hk <-.
  apply skip_frame_forward in Hk; [|done]. simpl in *.
  rewrite <- (bind_ret (skip_frame f (b :: rest) n1)).
  eapply simulates_bind; [by apply agrees_at|].
  intros [v n2] ? _ He <-. simpl. eexists. split; [done|]. split; [done|].
  by eapply skip_frame_forward.
Qed.

(** One iteration taken out of the skipping loop: it has fuel to spare. *)
Lemma skip_loop_unroll count next :
  0 < count -> 3 <= next ->
  for_count (skip_frame f (b :: rest)) (loop_fuel (b :: rest)) count next =
  (let? next := skip_frame f (b :: rest) next in
   for_count (skip_frame f (b :: rest)) (loop_fuel (b :: rest)) (count - 1) next).
Proof using All.
  intros Hc Hn. unfold loop_fuel at 1. rewrite for_count_step by done.
  destruct (@slice_from_inv PyrsedisError (b :: rest) next _ eq_refl) as [[Hle _]|Hs].
  2: { unfold skip_frame at 1 3. by rewrite Hs. }
  pose proof (skip_frame_post f b rest Hmax Hf next ltac:(lia)) as Hp.
  destruct (skip_frame f (b :: rest) next) as [n1| |]; [|done..]. simpl in Hp. cbn [bind].
  symmetry.
  apply (stable_for_count (fun _ => False) (fun n => 1 <= n <= len (b :: rest)));
    [lia|unfold loop_fuel; lia|intros; apply stable_refl| |].
  - intros n n' Hn' He. pose proof (skip_frame_post f b rest Hmax Hf n Hn') as Hq.
    rewrite He in Hq. simpl in Hq. lia.
  - assert (post (for_count (skip_frame f (b :: rest)) (length (b :: rest)) (count - 1) n1)
      (fun n => 1 <= n <= len (b :: rest)) (fun _ => True) scanner_panic) as Hloop.
    { apply (post_for_count _ _ (fun n => Z.to_nat (len (b :: rest) - n)));
        [lia|unfold len in *; lia|].
      intros n Hn'. eapply post_mono; [by apply skip_frame_post| |done|done].
      cbv beta. intros. lia. }
    eapply post_mono; [exact Hloop|done|by intros ? _ []|by intros ? [-> _]].
Qed.

Lemma agrees_container (mk : list RespValue -> RespValue) count next :
  1 <= next ->
  agrees
    (let? _ := with_capacity size_of_RespValue count in
     let? (elements, next) :=
       for_count (push_element p (b :: rest)) (loop_fuel (b :: rest)) count ([], next) in
     Ok (mk elements, next))
    (for_count (skip_frame f (b :: rest)) (loop_fuel (b :: rest)) count next).
Proof using All.
  intros Hn. unfold with_capacity. destruct (_ <=? _); [|done]. cbn [bind].
  rewrite <- (bind_ret (for_count (skip_frame f (b :: rest)) _ _ _)).
  eapply simulates_bind; [by apply agrees_elements|].
  intros [vs n] ? _ _ [<- _]. simpl. eauto.
Qed.

Lemma utf8_or_returns what l (k : bytes -> Result (RespValue * Z)) n :
  (forall s, returns_at n (k s)) -> returns_at n (let? s := utf8_or what l in k s).
Proof using Type.
  intros Hk. apply post_bind. eapply post_mono; [apply (utf8_or_post _ _ (fun _ => True))|..]; try done.
  intros. apply Hk.
Qed.

Lemma agrees_simple_types :
  agrees (parse_simple_string (b :: rest)) (frame_line (b :: rest)) /\
  agrees (parse_simple_error (b :: rest)) (frame_line (b :: rest)) /\
  agrees (parse_integer (b :: rest)) (frame_line (b :: rest)) /\
  agrees (parse_double (b :: rest)) (frame_line (b :: rest)) /\
  agrees (parse_big_number (b :: rest)) (frame_line (b :: rest)).
Proof using Type.
  split_and!; apply agrees_line; intros line next.
  - repeat case_bool_decide; try done. by apply utf8_or_returns.
  - by apply utf8_or_returns.
  - apply post_bind. eapply post_mono; [apply parse_int_post|done..].
  - apply utf8_or_returns. intros s. repeat case_bool_decide; try done.
    by destruct (parse_f64 s).
  - apply utf8_or_returns. intros s. by destruct (_ || _).
Qed.

Lemma agrees_bulk_types :
  agrees (parse_bulk_string (b :: rest)) (frame_bulk (b :: rest)) /\
  agrees (parse_bulk_error (b :: rest)) (frame_bulk (b :: rest)) /\
  agrees (parse_verbatim_string (b :: rest)) (frame_bulk (b :: rest)).
Proof using Type.
  split_and!; apply agrees_header; intros next n Hn; (destruct (n <? 0); [simpl; by eauto|]);
    apply agrees_bulk_body; intros e d.
  - done.
  - by apply utf8_or_returns.
  - destruct (n <? 4); [done|].
    destruct (index d 3) eqn:E; [|by apply index_not_err in E|done]. cbn [bind].
    destruct (negb _); [done|].
    destruct (slice d 0 3) eqn:E'; [|by apply slice_not_err in E'|done]. cbn [bind].
    apply utf8_or_returns. intros s.
    destruct (@slice_from_inv PyrsedisError d 4 _ eq_refl) as [[_ ->]| ->]; [|done].
    by apply utf8_or_returns.
Qed.

Lemma agrees_fixed :
  agrees (parse_null (b :: rest)) (if len (b :: rest) <? 3 then Err Incomplete else Ok 3) /\
  agrees (parse_boolean (b :: rest)) (if len (b :: rest) <? 4 then Err Incomplete else Ok 4).
Proof using Type.
  unfold parse_null, parse_boolean.
  split; [destruct (Z.ltb_spec (len (b :: rest)) 3)|destruct (Z.ltb_spec (len (b :: rest)) 4)];
    try done.
  - destruct (@index_is PyrsedisError (b :: rest) 1) as (? & -> & _); [lia|].
    destruct (@index_is PyrsedisError (b :: rest) 2) as (? & -> & _); [lia|].
    apply agrees_returns_at. cbn [bind]. by destruct (_ || _).
  - destruct (@index_is PyrsedisError (b :: rest) 1) as (? & -> & _); [lia|].
    destruct (@index_is PyrsedisError (b :: rest) 2) as (? & -> & _); [lia|].
    destruct (@index_is PyrsedisError (b :: rest) 3) as (? & -> & _); [lia|].
    apply agrees_returns_at. cbn [bind].
    repeat case_decide; cbn [bind]; try done; by destruct (_ || _).
Qed.

Lemma agrees_array_types :
  agrees (parse_array p (b :: rest)) (frame_array f (b :: rest)) /\
  agrees (parse_set p (b :: rest)) (frame_array f (b :: rest)) /\
  agrees (parse_push p (b :: rest)) (frame_array f (b :: rest)).
Proof using All.
  split_and!; unfold frame_array.
  - apply agrees_header. intros next n Hn. destruct (n <? 0); [simpl; by eauto|].
    apply agrees_container. lia.
  - apply agrees_header. intros next n Hn. destruct (n <? 0); [done|].
    apply agrees_container. lia.
  - apply agrees_header. intros next n Hn. destruct (Z.ltb_spec n 0); [done|].
    destruct (Z.eqb_spec n 0); [done|]. rewrite skip_loop_unroll by lia.
    eapply simulates_bind; [apply agrees_at; lia|]. intros [kv n1] ? _ Hk <-.
    apply skip_frame_forward in Hk; [|lia]. simpl in *.
    destruct (push_kind kv) as [k|e|] eqn:Ek; [| |done]; cbn [bind].
    + by apply (agrees_container (Push k)).
    + simpl. intros <-. destruct kv; simpl in Ek; simplify_eq.
      pose proof (utf8_or_post "invalid push kind" b0 not_limit) as Hu. by rewrite Ek in Hu.
Qed.

Lemma agrees_pair_types :
  agrees (parse_map p (b :: rest)) (frame_map f (b :: rest)) /\
  agrees (parse_attribute p (b :: rest)) (frame_attribute f (b :: rest)).
Proof using All.
  split; apply agrees_header; intros next n Hn; (destruct (n <? 0); [done|]);
    unfold with_capacity; (destruct (_ <=? _); [|done]); cbn [bind].
  - rewrite <- (bind_ret (for_count (skip_pair f (b :: rest)) _ _ _)).
    eapply simulates_bind; [apply agrees_pairs; lia|].
    intros [vs n'] ? _ _ [<- _]. simpl. eauto.
  - eapply simulates_bind; [apply agrees_pairs; lia|].
    intros [vs n1] ? _ _ [<- Hn1]. simpl in *.
    rewrite <- (bind_ret (skip_frame f (b :: rest) n1)).
    eapply simulates_bind; [by apply agrees_at|].
    intros [v n2] ? _ _ <-. simpl. eauto.
Qed.

Lemma parse_body_agrees : agrees (parse_body p (b :: rest)) (frame_body f (b :: rest)).
Proof using All.
  destruct agrees_simple_types as (? & ? & ? & ? & ?).
  destruct agrees_bulk_types as (? & ? & ?). destruct agrees_fixed as (? & ?).
  destruct agrees_array_types as (? & ? & ?). destruct agrees_pair_types as (? & ?).
  unfold parse_body. repeat case_decide; try (subst b; assumption). done.
Qed.
End agrees_nodes.

Lemma parse_rec_agrees fuel buf :
  (length buf < fuel)%nat -> len buf < ISIZE_MAX ->
  agrees (parse_rec fuel buf) (frame_rec fuel buf).
Proof.
  revert buf. induction fuel as [|fuel IH]; intros buf Hf Hmax; [lia|].
  destruct buf as [|b rest]; [done|]. cbn [parse_rec frame_rec].
  apply parse_body_agrees; [done|..]; intros sub Hs Hm.
  - apply frame_rec_ok; [simpl in *; lia|done].
  - apply IH; [simpl in *; lia|done].
Qed.

(** * The theorems *)

(** C8: parsing is total on every buffer: it returns a value or an error; the
    value is well formed (every string is UTF-8, every integer an [i64]) and
    the count of consumed bytes lies between 3 and the length of the buffer.
    The only ways to panic are the allocation of an announced count that
    exceeds the address space and, in a build with overflow checks, the
    negation of [i64::MIN]. *)
Theorem parse_total buf :
  len buf < ISIZE_MAX ->
  match parse buf with
  | Ok (v, n) => wf_value v /\ 3 <= n <= len buf
  | Err _ => True
  | Panic p => p = CapacityOverflow \/ (p = ArithmeticOverflow /\ overflow_checks = true)
  end.
Proof.
  intros Hmax. pose proof (parse_rec_ok (S (length buf)) buf ltac:(lia) Hmax) as Hok.
  unfold parse. unfold parse_ok in Hok.
  destruct (parse_rec _ buf) as [[v n]|e|p]; simpl in Hok; naive_solver.
Qed.

(** Scanning the length of a frame never panics in a release build, on any
    bytes, and a length it reports is inside the buffer. *)
Theorem resp_frame_len_total buf :
  overflow_checks = false -> len buf < ISIZE_MAX ->
  match resp_frame_len buf with
  | Ok n => 3 <= n <= len buf
  | Err _ => True
  | Panic _ => False
  end.
Proof.
  intros Ho Hmax. pose proof (frame_rec_ok (S (length buf)) buf ltac:(lia) Hmax) as Hok.
  unfold resp_frame_len. unfold frame_ok, scanner_panic in Hok. rewrite Ho in Hok.
  destruct (frame_rec _ buf); simpl in Hok; naive_solver.
Qed.

Lemma parse_stable buf ext :
  len buf < ISIZE_MAX -> parse buf <> Err Incomplete ->
  parse (buf ++ ext) = parse buf.
Proof.
  intros Hmax Hne.
  pose proof (parse_rec_stable (S (length buf)) (S (length (buf ++ ext))) buf ext) as Hst.
  apply Hst; [lia|lia|done|]. pose proof (parse_rec_ok (S (length buf)) buf) as Hok.
  specialize (Hok ltac:(lia) Hmax). unfold parse in Hne.
  destruct (parse_rec _ buf) as [|e|p]; simpl; [done|congruence|].
  unfold parse_ok, parser_panic in Hok. simpl in Hok. unfold not_limit. naive_solver.
Qed.

(** C6: the parser is a streaming parser: an outcome other than "incomplete"
    (a value, a protocol error or a panic) is not changed by the bytes that
    arrive after it. *)
Theorem parse_streaming buf ext :
  len buf < ISIZE_MAX -> parse buf <> Err Incomplete ->
  parse (buf ++ ext) = parse buf.
Proof. apply parse_stable. Qed.

(** The frame scanner is streaming too. *)
Theorem resp_frame_len_streaming buf ext :
  len buf < ISIZE_MAX -> resp_frame_len buf <> Err Incomplete ->
  resp_frame_len (buf ++ ext) = resp_frame_len buf.
Proof.
  intros Hmax Hne.
  pose proof (frame_rec_stable (S (length buf)) (S (length (buf ++ ext))) buf ext) as Hst.
  apply Hst; [lia|lia|done|]. pose proof (frame_rec_ok (S (length buf)) buf) as Hok.
  specialize (Hok ltac:(lia) Hmax). unfold resp_frame_len in Hne.
  destruct (frame_rec _ buf) as [|e|p]; simpl; [done|congruence|].
  unfold frame_ok, scanner_panic in Hok. simpl in Hok. unfold not_limit. naive_solver.
Qed.

(** C7: the allocation-free scanner and the parser agree: where the parser
    returns a value, the scanner reports exactly the bytes it consumed, and
    where the parser needs more data, so does the scanner. *)
Theorem frame_len_agrees buf :
  len buf < ISIZE_MAX ->
  (forall v n, parse buf = Ok (v, n) -> resp_frame_len buf = Ok n) /\
  (parse buf = Err Incomplete -> resp_frame_len buf = Err Incomplete).
Proof.
  intros Hmax. pose proof (parse_rec_agrees (S (length buf)) buf ltac:(lia) Hmax) as Hag.
  unfold parse, resp_frame_len. unfold simulates in Hag. split.
  - intros v n He. rewrite He in Hag. destruct Hag as (n' & -> & Hn). simpl in Hn. by subst.
  - intros He. rewrite He in Hag. by apply Hag.
Qed.
End props.

(** * The theorems at concrete replies *)

Definition reply : bytes := crlf_lines ["*2"; "$3"; "foo"; ":-42"].

Lemma parse_total_witness :
  len reply < ISIZE_MAX /\
  match parse (H := release64) reply with
  | Ok (v, n) => wf_value v /\ 3 <= n <= len reply
  | _ => False
  end.
Proof.
  assert (len reply < ISIZE_MAX) as Hl by reflexivity. split; [exact Hl|].
  exact (parse_total (H := release64) reply Hl).
Defined.

Lemma resp_frame_len_total_witness :
  exists n, resp_frame_len (H := release64) (reply ++ reply) = Ok n /\ 3 <= n <= 40.
Proof.
  exists 19. split; [reflexivity|].
  exact (resp_frame_len_total (H := release64) (reply ++ reply) eq_refl eq_refl).
Defined.

Lemma parse_streaming_witness :
  parse (H := release64) (reply ++ reply) = Ok (Array [BulkString (bs "foo"); Integer (-42)], 19).
Proof.
  rewrite (parse_streaming (H := release64) reply reply); [reflexivity..|].
  vm_compute. discriminate.
Defined.

Lemma resp_frame_len_streaming_witness :
  resp_frame_len (H := release64) (reply ++ bs "garbage") = Ok 19.
Proof.
  rewrite (resp_frame_len_streaming (H := release64) reply (bs "garbage"));
    [reflexivity..|]. vm_compute. discriminate.
Defined.

Lemma frame_len_agrees_witness : resp_frame_len (H := release64) reply = Ok 19.
Proof.
  destruct (frame_len_agrees (H := release64) reply eq_refl) as [Hf _].
  by apply (Hf (Array [BulkString (bs "foo"); Integer (-42)])).
Defined.
