(* ===== verification/Wire.v ===== *)
(** The RESP2/RESP3 wire format as a relation between values and bytes, the
    specification the parser of Parser.v is proved against: it accepts every
    encoding the grammar gives a value, and whatever it accepts is one. *)

From Stdlib Require Import Strings.Byte.
From S2P Require Import Prelude RustStd Utf8 RustStr Float64 Error Types Parser ParserFacts.
From S2P Require Import ParserProps.

(** * The grammar *)

Section wire.
Context `{Target}.

(** The texts of an [i64]: an optional sign and digits in range. *)
Inductive int_text : Z -> bytes -> Prop :=
| int_pos sign ds : (sign = [] \/ sign = ["+"%byte]) ->
    ds <> [] -> all_digits ds = true -> dec_value ds <= I64_MAX ->
    int_text (dec_value ds) (sign ++ ds)
| int_neg ds : ds <> [] -> all_digits ds = true -> I64_MIN <= - dec_value ds ->
    int_text (- dec_value ds) ("-"%byte :: ds).

(** The texts that overflow an [i64] by one: [2^63] without a minus sign. *)
Inductive overflow_text : bytes -> Prop :=
| overflow_pos sign ds : (sign = [] \/ sign = ["+"%byte]) ->
    ds <> [] -> all_digits ds = true -> dec_value ds = 2 ^ 63 ->
    overflow_text (sign ++ ds).

(** A type byte, a line and the rest of the encoding. *)
Definition header (t : byte) (line : bytes) (body : bytes) : bytes :=
  t :: line ++ CR :: LF :: body.

(** A line of text: valid UTF-8 without a carriage return. *)
Definition line_text (s : bytes) : Prop := valid_utf8 s = true /\ (CR ∉ s).

(** The RESP2/RESP3 encodings of a value, for a reading [T] of the integers
    that stand in the headers. *)
Inductive wire_over {T : Z -> bytes -> Prop} : RespValue -> bytes -> Prop :=
| wire_simple s : line_text s -> wire_over (SimpleString s) (header "+" s [])
| wire_error s : line_text s -> wire_over (Error s) (header "-" s [])
| wire_integer i txt : T i txt -> wire_over (Integer i) (header ":" txt [])
| wire_bulk b txt : T (len b) txt ->
    wire_over (BulkString b) (header "$" txt (b ++ CRLF))
| wire_null_bulk n txt : T n txt -> n < 0 -> wire_over Null (header "$" txt [])
| wire_null_array n txt : T n txt -> n < 0 -> wire_over Null (header "*" txt [])
| wire_null : wire_over Null (header "_" [] [])
| wire_boolean (v : bool) :
    wire_over (Boolean v) (header "#" [if v then "t"%byte else "f"%byte] [])
| wire_double d txt : line_text txt -> parse_f64 txt = Ok d ->
    wire_over (Double d) (header "," txt [])
| wire_big_number s : line_text s -> big_number_digits s <> [] ->
    all_digits (big_number_digits s) = true -> wire_over (BigNumber s) (header "(" s [])
| wire_bulk_error s txt : T (len s) txt -> valid_utf8 s = true ->
    wire_over (BulkError s) (header "!" txt (s ++ CRLF))
| wire_verbatim e d txt : T (len (e ++ ":"%byte :: d)) txt -> len e = 3 ->
    valid_utf8 e = true -> valid_utf8 d = true ->
    wire_over (VerbatimString e d) (header "=" txt ((e ++ ":"%byte :: d) ++ CRLF))
| wire_array vs ws txt : T (len vs) txt -> Forall2 wire_over vs ws ->
    wire_over (Array vs) (header "*" txt (concat ws))
| wire_set vs ws txt : T (len vs) txt -> Forall2 wire_over vs ws ->
    wire_over (Set_ vs) (header "~" txt (concat ws))
| wire_map kvs ws txt : T (len kvs) txt -> Forall2 wire_pair_over kvs ws ->
    wire_over (Map kvs) (header "%" txt (concat ws))
| wire_push k kv wk vs ws txt :
    T (1 + len vs) txt -> (kv = SimpleString k \/ kv = BulkString k) ->
    valid_utf8 k = true -> wire_over kv wk -> Forall2 wire_over vs ws ->
    wire_over (Push k vs) (header ">" txt (wk ++ concat ws))
| wire_attribute d wd kvs ws txt :
    T (len kvs) txt -> Forall2 wire_pair_over kvs ws -> wire_over d wd ->
    wire_over (Attribute d kvs) (header "|" txt (concat ws ++ wd))
with wire_pair_over {T : Z -> bytes -> Prop} : RespValue * RespValue -> bytes -> Prop :=
| wire_key_value k v wk wv : wire_over k wk -> wire_over v wv -> wire_pair_over (k, v) (wk ++ wv).

Arguments wire_over T _ _ : clear implicits.
Arguments wire_pair_over T _ _ : clear implicits.

(** The grammar: integers are read as [i64] texts. *)
Definition wire : RespValue -> bytes -> Prop := wire_over int_text.
Definition wire_pair : RespValue * RespValue -> bytes -> Prop := wire_pair_over int_text.

(** Some header line of the bytes is an overflowing integer. *)
Definition overflowing (w : bytes) : Prop :=
  exists pre t txt post, w = pre ++ header t txt post /\ overflow_text txt.

(** What the machine reads: a build without overflow checks wraps [2^63]
    around to [i64::MIN]. Only a stepping stone of the proofs. *)
Definition machine_int (i : Z) (txt : bytes) : Prop :=
  int_text i txt \/ (overflow_checks = false /\ i = I64_MIN /\ overflow_text txt).
Definition accepted : RespValue -> bytes -> Prop := wire_over machine_int.
Definition accepted_pair : RespValue * RespValue -> bytes -> Prop := wire_pair_over machine_int.

(** * Texts of integers *)

Lemma int_text_range i txt : int_text i txt -> I64_MIN <= i <= I64_MAX.
Proof.
  destruct 1 as [? ds _ _ Hd Hr|ds _ Hd Hr];
    apply all_digits_Forall, dec_value_nonneg in Hd; unfold I64_MIN, I64_MAX in *; lia.
Qed.

Lemma sign_no_CR sign ds :
  (sign = [] \/ sign = ["+"%byte]) -> all_digits ds = true -> CR ∉ sign ++ ds.
Proof.
  intros Hs Hd. apply all_digits_Forall, digit_not_CR in Hd.
  rewrite not_elem_of_app. split; [|done]. destruct Hs as [-> | ->]; [set_solver|].
  by rewrite list_elem_of_singleton.
Qed.

Lemma int_text_no_CR i txt : int_text i txt -> CR ∉ txt.
Proof.
  destruct 1 as [? ds Hs _ Hd _|ds _ Hd _]; [by apply sign_no_CR|].
  apply all_digits_Forall, digit_not_CR in Hd. rewrite not_elem_of_cons. by split.
Qed.

Lemma machine_int_range i txt : machine_int i txt -> I64_MIN <= i <= I64_MAX.
Proof. intros [Hi|(_ & -> & _)]; [by eapply int_text_range|unfold I64_MIN, I64_MAX; lia]. Qed.

Lemma machine_int_no_CR i txt : machine_int i txt -> CR ∉ txt.
Proof.
  intros [Hi|(_ & _ & [sign ds Hs _ Hd _])]; [by eapply int_text_no_CR|by apply sign_no_CR].
Qed.

Lemma all_digits_head d ds b :
  all_digits (d :: ds) = true -> is_ascii_digit b = false -> d <> b.
Proof. intros Hd Hb ->. simpl in Hd. by rewrite Hb in Hd. Qed.

Lemma parse_digits_value neg ds :
  ds <> [] -> all_digits ds = true -> I64_MIN <= - dec_value ds ->
  parse_digits neg ds = if neg then Ok (- dec_value ds) else i64_neg (- dec_value ds).
Proof.
  intros Hne Hd Hr. apply all_digits_Forall in Hd. unfold parse_digits.
  destruct ds as [|d ds]; [done|]. rewrite int_digits_value by (done || lia).
  rewrite Z.mul_0_l, Z.sub_0_l. by rewrite (proj2 (Z.leb_le _ _)).
Qed.

Lemma parse_signed sign ds :
  (sign = [] \/ sign = ["+"%byte]) -> ds <> [] -> all_digits ds = true ->
  parse_int_from_bytes (sign ++ ds) = parse_digits false ds.
Proof.
  intros [-> | ->] Hne Hd; [|done]. destruct ds as [|d ds]; [done|].
  simpl app. unfold parse_int_from_bytes.
  by rewrite !decide_False by (eapply all_digits_head; [exact Hd|done]).
Qed.

Lemma i64_neg_nonneg {E} n : 0 <= n <= I64_MAX -> @i64_neg _ E (- n) = Ok n.
Proof.
  intros Hn. unfold i64_neg. rewrite (proj2 (Z.eqb_neq _ _)); [f_equal; lia|].
  unfold I64_MIN, I64_MAX in *. lia.
Qed.

(** Every text of an integer is read back as that integer. *)
Lemma parse_int_text i txt : machine_int i txt -> parse_int_from_bytes txt = Ok i.
Proof.
  intros [[? ds Hs Hne Hd Hr|ds Hne Hd Hr]|(Ho & -> & [? ds Hs Hne Hd Hr])];
    pose proof (dec_value_nonneg ds (proj1 (all_digits_Forall _) Hd)) as Hnn.
  - rewrite parse_signed, parse_digits_value by (done || (unfold I64_MIN, I64_MAX in *; lia)).
    by apply i64_neg_nonneg.
  - simpl. by rewrite parse_digits_value.
  - rewrite parse_signed, parse_digits_value by (done || (unfold I64_MIN in *; lia)).
    unfold i64_neg. by rewrite Hr, Ho.
Qed.

(** What the accumulation loop accepts is a run of digits in range. *)
Lemma int_digits_all n ds m : int_digits n ds = Ok m -> all_digits ds = true.
Proof.
  revert n. induction ds as [|b ds IH]; intros n Hi; [done|]. simpl in *.
  destruct (is_ascii_digit b); simpl in *; [|done].
  apply bind_ok in Hi as (n' & _ & Hi). by eapply IH.
Qed.

Lemma parse_digits_inv neg ds i :
  parse_digits neg ds = Ok i ->
  ds <> [] /\ all_digits ds = true /\ I64_MIN <= - dec_value ds /\
  (if neg then Ok (- dec_value ds) else i64_neg (- dec_value ds)) =
    @Ok PyrsedisError Z i.
Proof.
  intros Hi. destruct ds as [|d ds]; [done|]. pose proof Hi as Hi'.
  unfold parse_digits in Hi. apply bind_ok in Hi as (m & Hm & _).
  pose proof (int_digits_all _ _ _ Hm) as Hd.
  rewrite int_digits_value in Hm; [|by apply all_digits_Forall|lia].
  rewrite Z.mul_0_l, Z.sub_0_l in Hm.
  destruct (Z.leb_spec I64_MIN (- dec_value (d :: ds))); [|done].
  rewrite parse_digits_value in Hi' by done. done.
Qed.

Lemma parse_signed_inv sign ds i :
  (sign = [] \/ sign = ["+"%byte]) -> parse_digits false ds = Ok i ->
  machine_int i (sign ++ ds).
Proof.
  intros Hs (Hne & Hd & Hr & Hi)%parse_digits_inv. unfold i64_neg in Hi.
  destruct (Z.eqb_spec (- dec_value ds) I64_MIN).
  - destruct overflow_checks eqn:Ho; simplify_eq.
    right. split_and!; [done..|]. constructor; try done. unfold I64_MIN in *. lia.
  - simplify_eq. rewrite Z.opp_involutive. left. apply int_pos; try done.
    unfold I64_MIN, I64_MAX in *. lia.
Qed.

(** What is read as an integer is a text of it, or wrapped around. *)
Lemma parse_int_inv txt i : parse_int_from_bytes txt = Ok i -> machine_int i txt.
Proof.
  unfold parse_int_from_bytes. destruct txt as [|b t]; [done|].
  repeat case_decide; intros Hi; subst.
  - apply parse_digits_inv in Hi as (Hne & Hd & Hr & Hi). simplify_eq. left. by constructor.
  - apply (parse_signed_inv ["+"%byte]); [by right|done].
  - apply (parse_signed_inv []); [by left|done].
Qed.

(** * Headers *)

Lemma header_app t line body rest :
  header t line body ++ rest = header t line [] ++ body ++ rest.
Proof. unfold header. simpl. by rewrite <- !app_assoc. Qed.

Lemma len_header t line body : len (header t line body) = len line + 3 + len body.
Proof. unfold header. len_lia. Qed.

Lemma read_header t line body rest :
  (CR ∉ line) ->
  read_line (header t line body ++ rest) 1 = Ok (line, len (header t line [])).
Proof.
  intros Hl. rewrite header_app. unfold header at 1. simpl. rewrite <- app_assoc. simpl.
  rewrite read_line_app by done. do 2 f_equal. rewrite len_header. len_lia.
Qed.

Lemma wire_min {T} v w : wire_over T v w -> 3 <= len w.
Proof. destruct 1; rewrite len_header; len_lia. Qed.

Lemma elements_bound {T} vs ws : Forall2 (wire_over T) vs ws -> len vs <= len (concat ws).
Proof.
  induction 1 as [|v w vs ws Hw _ IH]; [done|]. apply wire_min in Hw. simpl. len_lia.
Qed.

Lemma pairs_bound {T} kvs ws : Forall2 (wire_pair_over T) kvs ws -> len kvs <= len (concat ws).
Proof.
  induction 1 as [|kv w kvs ws Hw _ IH]; [done|]. destruct Hw as [k v wk wv Hk Hv].
  apply wire_min in Hk, Hv. simpl. len_lia.
Qed.

(** * The parser accepts every encoding *)

Lemma utf8_or_valid what s : valid_utf8 s = true -> utf8_or what s = Ok s.
Proof. intros Hs. unfold utf8_or. by rewrite from_utf8_valid. Qed.

Lemma check_terminator_app pre body rest msg :
  len pre + len body + 2 <= USIZE_MAX ->
  check_terminator (pre ++ (body ++ CRLF) ++ rest) (len pre + len body) msg = Ok tt.
Proof.
  intros Hm. unfold check_terminator. rewrite usize_add_ok by lia. cbn [bind].
  unfold CRLF. rewrite (proj2 (Z.ltb_ge _ _)) by len_lia.
  replace (pre ++ (body ++ [CR; LF]) ++ rest) with ((pre ++ body) ++ CR :: LF :: rest)
    by (by rewrite <- !app_assoc).
  rewrite index_app by len_lia. cbn.
  replace ((pre ++ body) ++ CR :: LF :: rest) with (((pre ++ body) ++ [CR]) ++ LF :: rest)
    by (by rewrite <- !app_assoc).
  by rewrite index_app by len_lia.
Qed.

(** The recursive calls accept the encodings inside a buffer of [n] bytes. *)
Definition accepts (p : bytes -> Result (RespValue * Z)) (n : nat) : Prop :=
  forall v w rest, accepted v w -> (length (w ++ rest) < n)%nat -> p (w ++ rest) = Ok (v, len w).

Section complete_nodes.
Context (p : bytes -> Result (RespValue * Z)).

Lemma parse_at_accepts pre v w rest :
  accepts p (length (pre ++ w ++ rest)) -> pre <> [] -> accepted v w ->
  parse_at p (pre ++ w ++ rest) (len pre) = Ok (v, len pre + len w).
Proof using Type.
  intros Hp Hpre Hw. unfold parse_at. rewrite slice_from_app. cbn [bind].
  rewrite (Hp v w rest Hw); [done|]. destruct pre; [done|]. simpl.
  rewrite !length_app. lia.
Qed.

Lemma elements_accepts vs ws pre rest acc fuel :
  Forall2 accepted vs ws -> accepts p (length (pre ++ concat ws ++ rest)) -> pre <> [] ->
  (length vs <= fuel)%nat ->
  for_count (push_element p (pre ++ concat ws ++ rest)) fuel (len vs) (acc, len pre) =
  Ok (acc ++ vs, len pre + len (concat ws)).
Proof using Type.
  intros Hws. revert pre acc fuel.
  induction Hws as [|v w vs ws Hw Hws IH]; intros pre acc fuel Hp Hpre Hf.
  { rewrite for_count_done by done. rewrite app_nil_r. do 2 f_equal. simpl. len_lia. }
  destruct fuel as [|fuel]; [simpl in Hf; lia|]. rewrite for_count_step by len_lia.
  simpl concat in *. rewrite <- app_assoc in *. unfold push_element at 1.
  rewrite (parse_at_accepts pre v w) by done. cbn [bind].
  specialize (IH (pre ++ w) (acc ++ [v]) fuel). rewrite <- !app_assoc in IH.
  replace (len (v :: vs) - 1) with (len vs) by len_lia.
  rewrite <- len_app. rewrite IH; [|done|by destruct pre|simpl in Hf; lia].
  do 2 f_equal. len_lia.
Qed.

Lemma pairs_accepts kvs ws pre rest acc fuel :
  Forall2 accepted_pair kvs ws -> accepts p (length (pre ++ concat ws ++ rest)) -> pre <> [] ->
  (length kvs <= fuel)%nat ->
  for_count (push_pair p (pre ++ concat ws ++ rest)) fuel (len kvs) (acc, len pre) =
  Ok (acc ++ kvs, len pre + len (concat ws)).
Proof using Type.
  intros Hws. revert pre acc fuel.
  induction Hws as [|kv w kvs ws Hw Hws IH]; intros pre acc fuel Hp Hpre Hf.
  { rewrite for_count_done by done. rewrite app_nil_r. do 2 f_equal. simpl. len_lia. }
  destruct fuel as [|fuel]; [simpl in Hf; lia|]. rewrite for_count_step by len_lia.
  destruct Hw as [k v wk wv Hk Hv].
  simpl concat in *. rewrite <- !app_assoc in *. unfold push_pair at 1.
  rewrite (parse_at_accepts pre k wk) by done. cbn [bind].
  specialize (IH (pre ++ wk ++ wv) (acc ++ [(k, v)]) fuel).
  pose proof (parse_at_accepts (pre ++ wk) v wv (concat ws ++ rest)) as Hpv.
  rewrite <- !app_assoc in IH. rewrite <- !app_assoc in Hpv.
  rewrite <- len_app.
  rewrite Hpv; [|done|by destruct pre|done]. cbn [bind].
  replace (len ((k, v) :: kvs) - 1) with (len kvs) by len_lia.
  replace (len (pre ++ wk) + len wv) with (len (pre ++ wk ++ wv)) by len_lia.
  rewrite IH; [|done|by destruct pre|simpl in Hf; lia].
  do 2 f_equal. len_lia.
Qed.

Lemma bulk_accepts {A} t txt body rest msg n (k : Z -> bytes -> Result A) :
  let buf := header t txt (body ++ CRLF) ++ rest in
  n = len body -> len buf < ISIZE_MAX ->
  (let? end_ := usize_add (len (header t txt [])) n in
   let? _ := check_terminator buf end_ msg in
   let? data := slice buf (len (header t txt [])) end_ in k end_ data) =
  k (len (header t txt []) + len body) body.
Proof using Type.
  cbv zeta. intros -> Hm. rewrite header_app in *. unfold ISIZE_MAX, CRLF in Hm.
  rewrite usize_add_ok by (unfold USIZE_MAX; len_lia). cbn [bind].
  rewrite check_terminator_app by (unfold USIZE_MAX; len_lia). cbn [bind].
  rewrite <- app_assoc. by rewrite slice_app.
Qed.

(** A length-prefixed container: its capacity is available and its loop has
    the fuel for its elements. *)
Lemma container_bounds t txt body rest (n : Z) :
  size_of_pair * len (header t txt body ++ rest) <= ISIZE_MAX -> 0 <= n <= len body ->
  @with_capacity PyrsedisError size_of_RespValue n = Ok tt /\
  @with_capacity PyrsedisError size_of_pair n = Ok tt /\
  (Z.to_nat n <= loop_fuel (header t txt body ++ rest))%nat.
Proof using Type.
  intros Hc Hn. rewrite len_app, len_header in Hc.
  pose proof size_of_RespValue_ge. pose proof size_of_pair_ge.
  pose proof (len_nonneg txt). pose proof (len_nonneg rest).
  unfold with_capacity. rewrite !(proj2 (Z.leb_le _ _)) by nia.
  split_and!; [done..|]. unfold loop_fuel.
  pose proof (len_header t txt body) as Hh. unfold len in *. rewrite length_app. lia.
Qed.

(** Read the header of the encoding, then its integer. *)
Ltac enter :=
  match goal with
  | Hi : machine_int _ _ |- _ => pose proof (machine_int_range _ _ Hi);
      rewrite read_header by (by eapply machine_int_no_CR); cbn [bind];
      rewrite (parse_int_text _ _ Hi); cbn [bind]
  | |- _ => rewrite read_header by done; cbn [bind]
  end.
Ltac lens := rewrite ?len_app, ?len_header; unfold CRLF; len_lia.

Lemma simple_string_accepts s rest :
  line_text s ->
  parse_simple_string (header "+" s [] ++ rest) = Ok (SimpleString s, len (header "+" s [])).
Proof using Type.
  intros [? ?]. unfold parse_simple_string. enter.
  repeat (case_bool_decide; [by subst|]). by rewrite utf8_or_valid.
Qed.

Lemma simple_error_accepts s rest :
  line_text s ->
  parse_simple_error (header "-" s [] ++ rest) = Ok (Error s, len (header "-" s [])).
Proof using Type. intros [? ?]. unfold parse_simple_error. enter. by rewrite utf8_or_valid. Qed.

Lemma bulk_string_accepts b txt rest :
  let w := header "$" txt (b ++ CRLF) in
  machine_int (len b) txt -> len (w ++ rest) < ISIZE_MAX ->
  parse_bulk_string (w ++ rest) = Ok (BulkString b, len w).
Proof using Type.
  cbv zeta. intros Hi Hm. unfold parse_bulk_string. enter.
  rewrite (proj2 (Z.ltb_ge _ _)) by (by auto with pyrsedis).
  rewrite bulk_accepts by done. do 2 f_equal. lens.
Qed.

Lemma null_accepts rest : parse_null (header "_" [] [] ++ rest) = Ok (Null, 3).
Proof using Type.
  unfold parse_null. rewrite (proj2 (Z.ltb_ge _ _)) by lens.
  unfold header. simpl app. rewrite (index_app ["_"%byte] CR (LF :: rest)) by done. cbn [bind].
  by rewrite (index_app ["_"%byte; CR] LF rest) by done.
Qed.

Lemma boolean_accepts (c : bool) rest :
  parse_boolean (header "#" [if c then "t"%byte else "f"%byte] [] ++ rest) = Ok (Boolean c, 4).
Proof using Type.
  unfold parse_boolean. rewrite (proj2 (Z.ltb_ge _ _)) by lens.
  unfold header. simpl app. set (x := if c then _ else _).
  rewrite (index_app ["#"%byte] x (CR :: LF :: rest)) by done. cbn [bind].
  rewrite (index_app ["#"%byte; x] CR (LF :: rest)) by done.
  rewrite (index_app ["#"%byte; x; CR] LF rest) by done. by destruct c.
Qed.

Lemma double_accepts d txt rest :
  line_text txt -> parse_f64 txt = Ok d ->
  parse_double (header "," txt [] ++ rest) = Ok (Double d, len (header "," txt [])).
Proof using Type.
  intros [? ?] Hd. unfold parse_double. enter. rewrite utf8_or_valid by done. cbn [bind].
  case_bool_decide; [subst; rewrite parse_f64_inf in Hd; by simplify_eq|].
  case_bool_decide; [subst; rewrite parse_f64_neg_inf in Hd; by simplify_eq|].
  case_bool_decide; [subst; rewrite parse_f64_nan in Hd; by simplify_eq|].
  by rewrite Hd.
Qed.

Lemma big_number_accepts s rest :
  line_text s -> big_number_digits s <> [] -> all_digits (big_number_digits s) = true ->
  parse_big_number (header "(" s [] ++ rest) = Ok (BigNumber s, len (header "(" s [])).
Proof using Type.
  intros [? ?] Hb1 Hb2. unfold parse_big_number. enter. rewrite utf8_or_valid by done.
  cbn [bind]. rewrite bool_decide_false by done. by rewrite Hb2.
Qed.

Lemma bulk_error_accepts s txt rest :
  let w := header "!" txt (s ++ CRLF) in
  machine_int (len s) txt -> valid_utf8 s = true -> len (w ++ rest) < ISIZE_MAX ->
  parse_bulk_error (w ++ rest) = Ok (BulkError s, len w).
Proof using Type.
  cbv zeta. intros Hi Hs Hm. unfold parse_bulk_error. enter.
  rewrite (proj2 (Z.ltb_ge _ _)) by (by auto with pyrsedis).
  rewrite bulk_accepts by done. rewrite utf8_or_valid by done. cbn [bind].
  do 2 f_equal. lens.
Qed.

Lemma verbatim_accepts e d txt rest :
  let w := header "=" txt ((e ++ ":"%byte :: d) ++ CRLF) in
  machine_int (len (e ++ ":"%byte :: d)) txt -> len e = 3 -> valid_utf8 e = true ->
  valid_utf8 d = true -> len (w ++ rest) < ISIZE_MAX ->
  parse_verbatim_string (w ++ rest) = Ok (VerbatimString e d, len w).
Proof using Type.
  cbv zeta. intros Hi He Hv1 Hv2 Hm. unfold parse_verbatim_string. enter.
  rewrite (proj2 (Z.ltb_ge _ _)) by (by auto with pyrsedis).
  rewrite bulk_accepts by done. rewrite (proj2 (Z.ltb_ge _ _)) by len_lia.
  rewrite index_app by done. cbn [bind]. rewrite bool_decide_true by done. cbn [negb].
  rewrite (slice_app [] e (":"%byte :: d)) by len_lia. cbn [bind].
  rewrite utf8_or_valid by done. cbn [bind].
  assert (@slice_from PyrsedisError (e ++ ":"%byte :: d) 4 = Ok d) as ->.
  { replace (e ++ ":"%byte :: d) with ((e ++ [":"%byte]) ++ d) by (by rewrite <- app_assoc).
    replace 4 with (len (e ++ [":"%byte])) by len_lia. apply slice_from_app. }
  cbn [bind]. rewrite utf8_or_valid by done. cbn [bind]. do 2 f_equal. lens.
Qed.

(** The containers, in a buffer that fits in memory. *)
Section containers.
Context (t : byte) (txt rest : bytes) (ws : list bytes).
Context (Hcap : size_of_pair * len (header t txt (concat ws) ++ rest) <= ISIZE_MAX)
  (Hp : accepts p (length (header t txt (concat ws) ++ rest))).
Let buf := header t txt (concat ws) ++ rest.

Lemma elements_header vs :
  Forall2 accepted vs ws ->
  for_count (push_element p buf) (loop_fuel buf) (len vs) ([], len (header t txt [])) =
  Ok (vs, len (header t txt (concat ws))) /\
  @with_capacity PyrsedisError size_of_RespValue (len vs) = Ok tt.
Proof using Hcap Hp.
  intros Hws. pose proof (elements_bound _ _ Hws).
  destruct (container_bounds _ _ _ _ (len vs) Hcap) as (? & _ & Hf); [by len_pos|].
  split; [|done]. subst buf. rewrite header_app in *.
  rewrite elements_accepts by (done || (unfold len in Hf; lia)).
  do 2 f_equal. lens.
Qed.

Lemma pairs_header kvs :
  Forall2 accepted_pair kvs ws ->
  for_count (push_pair p buf) (loop_fuel buf) (len kvs) ([], len (header t txt [])) =
  Ok (kvs, len (header t txt (concat ws))) /\
  @with_capacity PyrsedisError size_of_pair (len kvs) = Ok tt.
Proof using Hcap Hp.
  intros Hws. pose proof (pairs_bound _ _ Hws).
  destruct (container_bounds _ _ _ _ (len kvs) Hcap) as (_ & ? & Hf); [by len_pos|].
  split; [|done]. subst buf. rewrite header_app in *.
  rewrite pairs_accepts by (done || (unfold len in Hf; lia)).
  do 2 f_equal. lens.
Qed.
End containers.

Lemma push_accepts k kv wk vs ws txt rest :
  let w := header ">" txt (wk ++ concat ws) in
  machine_int (1 + len vs) txt -> (kv = SimpleString k \/ kv = BulkString k) ->
  valid_utf8 k = true -> accepted kv wk -> Forall2 accepted vs ws ->
  size_of_pair * len (w ++ rest) <= ISIZE_MAX -> accepts p (length (w ++ rest)) ->
  parse_push p (w ++ rest) = Ok (Push k vs, len w).
Proof using Type.
  cbv zeta. intros Hi Hkv Hk Hwk Hws Hcap Hp. unfold parse_push. enter.
  pose proof (elements_bound _ _ Hws). pose proof (len_nonneg vs).
  rewrite (proj2 (Z.ltb_ge _ _)), (proj2 (Z.eqb_neq _ _)) by lia.
  destruct (container_bounds _ _ _ _ (len vs) Hcap) as (Hw & _ & Hf); [by len_lia|].
  set (f := loop_fuel _) in *. clearbody f.
  rewrite header_app in *. rewrite <- app_assoc in *.
  rewrite (parse_at_accepts _ _ wk) by done. cbn [bind].
  assert (push_kind kv = Ok k) as -> by (destruct Hkv; subst; [done|by apply utf8_or_valid]).
  cbn [bind]. replace (1 + len vs - 1) with (len vs) by lia. rewrite Hw. cbn [bind].
  rewrite <- len_app. rewrite app_assoc in *.
  rewrite elements_accepts by (done || (unfold len in Hf; lia)). cbn [bind].
  do 2 f_equal. lens.
Qed.

Lemma attribute_accepts d wd kvs ws txt rest :
  let w := header "|" txt (concat ws ++ wd) in
  machine_int (len kvs) txt -> Forall2 accepted_pair kvs ws -> accepted d wd ->
  size_of_pair * len (w ++ rest) <= ISIZE_MAX -> accepts p (length (w ++ rest)) ->
  parse_attribute p (w ++ rest) = Ok (Attribute d kvs, len w).
Proof using Type.
  cbv zeta. intros Hi Hws Hd.
  assert (forall r, header "|" txt (concat ws ++ wd) ++ r =
    header "|" txt (concat ws) ++ wd ++ r) as Hassoc.
  { intros r. rewrite header_app, <- app_assoc. by rewrite (header_app _ _ (concat ws)). }
  rewrite !Hassoc. intros Hcap Hp. unfold parse_attribute. enter.
  rewrite (proj2 (Z.ltb_ge _ _)) by (by auto with pyrsedis).
  destruct (pairs_header _ _ _ _ Hcap Hp kvs Hws) as [-> ->]. cbn [bind].
  rewrite (parse_at_accepts _ d) by done. cbn [bind]. do 2 f_equal. lens.
Qed.

Lemma parse_body_accepts v w rest :
  accepted v w -> size_of_pair * len (w ++ rest) <= ISIZE_MAX ->
  accepts p (length (w ++ rest)) -> parse_body p (w ++ rest) = Ok (v, len w).
Proof using Type.
  intros Hw Hcap Hp.
  assert (len (w ++ rest) < ISIZE_MAX) as Hm.
  { pose proof size_of_RespValue_ge. pose proof size_of_pair_ge. unfold ISIZE_MAX in *.
    pose proof (len_nonneg (w ++ rest)). nia. }
  destruct Hw as [s|s|i txt Hi|b txt|n txt Hi Hn|n txt Hi Hn| | | | |s txt|e d txt
    |vs ws txt Hi Hws|vs ws txt Hi Hws|kvs ws txt Hi Hws|k kv wk vs ws txt|d wd kvs ws txt].
  - by apply simple_string_accepts.
  - by apply simple_error_accepts.
  - change (parse_integer (header ":" txt [] ++ rest) =
      Ok (Integer i, len (header ":" txt []))). unfold parse_integer. by enter.
  - by apply bulk_string_accepts.
  - change (parse_bulk_string (header "$" txt [] ++ rest) =
      Ok (Null, len (header "$" txt []))).
    unfold parse_bulk_string. enter. by rewrite (proj2 (Z.ltb_lt _ _)).
  - change (parse_array p (header "*" txt [] ++ rest) =
      Ok (Null, len (header "*" txt []))).
    unfold parse_array. enter. by rewrite (proj2 (Z.ltb_lt _ _)).
  - apply null_accepts.
  - by apply boolean_accepts.
  - by apply double_accepts.
  - by apply big_number_accepts.
  - by apply bulk_error_accepts.
  - by apply verbatim_accepts.
  - change (parse_array p (header "*" txt (concat ws) ++ rest) =
      Ok (Array vs, len (header "*" txt (concat ws)))). unfold parse_array. enter.
    rewrite (proj2 (Z.ltb_ge _ _)) by (by auto with pyrsedis).
    by destruct (elements_header _ _ _ _ Hcap Hp vs Hws) as [-> ->].
  - change (parse_set p (header "~" txt (concat ws) ++ rest) =
      Ok (Set_ vs, len (header "~" txt (concat ws)))). unfold parse_set. enter.
    rewrite (proj2 (Z.ltb_ge _ _)) by (by auto with pyrsedis).
    by destruct (elements_header _ _ _ _ Hcap Hp vs Hws) as [-> ->].
  - change (parse_map p (header "%" txt (concat ws) ++ rest) =
      Ok (Map kvs, len (header "%" txt (concat ws)))). unfold parse_map. enter.
    rewrite (proj2 (Z.ltb_ge _ _)) by (by auto with pyrsedis).
    by destruct (pairs_header _ _ _ _ Hcap Hp kvs Hws) as [-> ->].
  - by eapply push_accepts.
  - by apply attribute_accepts.
Qed.
End complete_nodes.

Lemma parse_rec_accepts fuel n :
  (n <= fuel)%nat -> size_of_pair * Z.of_nat n <= ISIZE_MAX -> accepts (parse_rec fuel) n.
Proof.
  revert n. induction fuel as [|fuel IH]; intros n Hn Hcap v w rest Hw Hl; [lia|].
  cbn [parse_rec]. pose proof size_of_RespValue_ge. pose proof size_of_pair_ge.
  apply parse_body_accepts; [done| |]; [unfold len; nia|].
  apply IH; [lia|nia].
Qed.

Lemma parse_accepted v w rest :
  accepted v w -> size_of_pair * (1 + len (w ++ rest)) <= ISIZE_MAX ->
  parse (w ++ rest) = Ok (v, len w).
Proof.
  intros Hw Hcap. apply (parse_rec_accepts _ (S (length (w ++ rest)))); [lia| |done|lia].
  unfold len in Hcap. lia.
Qed.

(** * Whatever the parser accepts is an encoding *)

(** [yields r P]: if [r] returns, its value satisfies [P]. *)
Definition yields {A} (r : Result A) (P : A -> Prop) : Prop :=
  post r P (fun _ => True) (fun _ => True).
Definition encodes (buf : bytes) (vn : RespValue * Z) : Prop :=
  exists w rest, buf = w ++ rest /\ accepted vn.1 w /\ vn.2 = len w.
Definition sound (p : bytes -> Result (RespValue * Z)) : Prop :=
  forall buf, yields (p buf) (encodes buf).

Lemma yields_bind {A B} (r : Result A) (f : A -> Result B) (P : A -> Prop) Q :
  yields r P -> (forall a, P a -> yields (f a) Q) -> yields (bind r f) Q.
Proof. destruct r; simpl; naive_solver. Qed.

Lemma yields_mono {A} (r : Result A) (P Q : A -> Prop) :
  yields r P -> (forall a, P a -> Q a) -> yields r Q.
Proof. destruct r; simpl; naive_solver. Qed.

Lemma yields_any {A} (r : Result A) : yields r (fun a => r = Ok a).
Proof. by destruct r. Qed.

Lemma yields_int line : yields (parse_int_from_bytes line) (fun i => machine_int i line).
Proof. eapply yields_mono; [apply yields_any|apply parse_int_inv]. Qed.

Lemma yields_line b rest :
  yields (read_line (b :: rest) 1) (fun ln => exists tail,
    b :: rest = header b ln.1 [] ++ tail /\ (CR ∉ ln.1) /\ ln.2 = len (header b ln.1 [])).
Proof.
  eapply yields_mono; [apply (post_read_line b rest)|].
  intros [line next] (-> & _ & tail & -> & Hl). exists tail. split_and!; [|done|].
  - unfold header. simpl. by rewrite <- app_assoc.
  - cbn [fst snd]. rewrite len_header. len_lia.
Qed.

Lemma yields_utf8 what s : yields (utf8_or what s) (fun t => t = s /\ valid_utf8 s = true).
Proof. eapply post_mono; [apply (utf8_or_post what s (fun _ => True))|done..]. Qed.

Lemma check_terminator_at pre tail n msg :
  0 <= n ->
  yields (check_terminator (pre ++ tail) (len pre + n) msg)
    (fun _ => exists data rest, tail = data ++ CRLF ++ rest /\ len data = n).
Proof.
  intros Hn. destruct (check_terminator _ _ _) as [[]| |] eqn:E; [|done..]. simpl.
  pose proof (check_terminator_inv _ _ _ _ E) as Hl.
  assert (Z.to_nat n + 2 <= length tail)%nat as Hl' by (unfold len in *; rewrite length_app in Hl; lia).
  exists (take (Z.to_nat n) tail), (drop 2 (drop (Z.to_nat n) tail)).
  pose proof (take_drop (Z.to_nat n) tail) as Htd.
  assert (len (take (Z.to_nat n) tail) = n) as Hlen
    by (unfold len; rewrite length_take; lia).
  assert (2 <= length (drop (Z.to_nat n) tail))%nat as Hd by (rewrite length_drop; lia).
  destruct (drop (Z.to_nat n) tail) as [|x [|y rest]] eqn:Ed; [simpl in *; lia..|].
  rewrite <- Htd in E. set (d := take _ _) in *. clearbody d. simpl drop.
  split; [|done]. rewrite <- Htd. f_equal. unfold check_terminator in E.
  apply bind_ok in E as (total & Ht & E). destruct (_ <? _); [done|].
  rewrite app_assoc, index_app in E by len_lia. cbn [bind] in E.
  case_bool_decide; [|done]. cbn [negb] in E.
  replace ((pre ++ d) ++ x :: y :: rest) with (((pre ++ d) ++ [x]) ++ y :: rest) in E
    by (by rewrite <- !app_assoc).
  rewrite index_app in E by len_lia. cbn [bind] in E. case_bool_decide; [|done]. by subst.
Qed.

(** The length-prefixed content of a header. *)
Lemma bulk_yields {A} buf pre tail n msg (k : Z -> bytes -> Result A) (Q : A -> Prop) :
  buf = pre ++ tail -> 0 <= n ->
  (forall data rest, tail = (data ++ CRLF) ++ rest -> n = len data ->
     yields (k (len pre + n) data) Q) ->
  yields (let? end_ := usize_add (len pre) n in
          let? _ := check_terminator buf end_ msg in
          let? data := slice buf (len pre) end_ in k end_ data) Q.
Proof.
  intros -> Hn Hk. eapply yields_bind; [apply yields_any|]. intros e ->%usize_add_inv.
  eapply yields_bind; [by apply check_terminator_at|]. intros _ (data & rest & -> & <-).
  rewrite slice_app by done. apply (Hk data rest); [by rewrite app_assoc|done].
Qed.

(** Read the header line. *)
Ltac sline :=
  eapply yields_bind; [apply yields_line|];
  let line := fresh "line" in let tail := fresh "tail" in
  let next := fresh "next" in
  intros [line next] (tail & Hb & Hcr & Hn); cbn [fst snd] in *; subst next.

Section sound_leaves.
Context (rest : bytes).

(** Conclude with a constructor of the grammar and the rest of the buffer. *)
Ltac encoded tail :=
  match goal with
  | Hb : ?b :: rest = header ?b _ [] ++ _ |- encodes _ (_, len (header ?b _ [])) =>
      eexists _, tail; split_and!; [exact Hb| |done]
  | Hb : ?b :: rest = header ?b _ [] ++ _ |- encodes _ (_, ?n) =>
      eexists _, tail; split_and!; [rewrite Hb, header_app; reflexivity| |]
  end.
(** The frame of a length-prefixed value, once its content is known. *)
Lemma bulk_encodes (b : byte) v line data r tail :
  b :: rest = header b line [] ++ tail -> tail = (data ++ CRLF) ++ r ->
  accepted v (header b line (data ++ CRLF)) ->
  encodes (b :: rest) (v, len (header b line []) + len data + 2).
Proof using Type.
  intros Hb -> Hv. exists (header b line (data ++ CRLF)), r. split_and!; [|done|].
  - by rewrite Hb, (header_app _ _ (data ++ CRLF)).
  - simpl. rewrite !len_header. unfold CRLF. len_lia.
Qed.

Lemma simple_string_sound :
  yields (parse_simple_string ("+"%byte :: rest)) (encodes ("+"%byte :: rest)).
Proof using Type.
  unfold parse_simple_string. sline.
  apply yields_bind with (P := fun s => s = line /\ valid_utf8 line = true).
  - repeat (case_bool_decide; [by subst|]). apply yields_utf8.
  - intros s [-> Hs]. simpl. encoded tail. by constructor.
Qed.

Lemma simple_error_sound :
  yields (parse_simple_error ("-"%byte :: rest)) (encodes ("-"%byte :: rest)).
Proof using Type.
  unfold parse_simple_error. sline. eapply yields_bind; [apply yields_utf8|].
  intros s [-> Hs]. simpl. encoded tail. by constructor.
Qed.

Lemma integer_sound :
  yields (parse_integer (":"%byte :: rest)) (encodes (":"%byte :: rest)).
Proof using Type.
  unfold parse_integer. sline. eapply yields_bind; [apply yields_int|]. intros i Hi.
  simpl. encoded tail. by constructor.
Qed.

Lemma bulk_string_sound :
  yields (parse_bulk_string ("$"%byte :: rest)) (encodes ("$"%byte :: rest)).
Proof using Type.
  unfold parse_bulk_string. sline. eapply yields_bind; [apply yields_int|]. intros n Hi.
  destruct (Z.ltb_spec n 0).
  - simpl. encoded tail. by apply (wire_null_bulk n).
  - apply (bulk_yields _ _ _ _ _ _ _ Hb); [done|]. intros data r Ht ->. simpl.
    eapply bulk_encodes; [done..|]. by constructor.
Qed.

Lemma null_sound : yields (parse_null ("_"%byte :: rest)) (encodes ("_"%byte :: rest)).
Proof using Type.
  unfold parse_null. destruct (Z.ltb_spec (len ("_"%byte :: rest)) 3) as [|Hl]; [done|].
  destruct rest as [|x [|y r]]; [done..|].
  rewrite (index_app ["_"%byte] x (y :: r)) by done. cbn [bind].
  rewrite (index_app ["_"%byte; x] y r) by done. cbn [bind].
  repeat case_bool_decide; [|done..]. subst. simpl.
  exists (header "_" [] []), r. split_and!; [done|constructor|done].
Qed.

Lemma boolean_sound : yields (parse_boolean ("#"%byte :: rest)) (encodes ("#"%byte :: rest)).
Proof using Type.
  unfold parse_boolean. destruct (Z.ltb_spec (len ("#"%byte :: rest)) 4) as [|Hl]; [done|].
  destruct rest as [|x [|y [|z r]]]; [done..|].
  rewrite (index_app ["#"%byte] x (y :: z :: r)) by done. cbn [bind].
  apply yields_bind with (P := fun c : bool => x = if c then "t"%byte else "f"%byte).
  { by repeat case_decide. }
  intros c ->. set (x := if c then _ else _).
  rewrite (index_app ["#"%byte; x] y (z :: r)) by done. cbn [bind].
  rewrite (index_app ["#"%byte; x; y] z r) by done. cbn [bind].
  repeat case_bool_decide; [|done..]. subst. simpl.
  exists (header "#" [x] []), r. split_and!; [done|constructor|done].
Qed.

Lemma double_sound : yields (parse_double (","%byte :: rest)) (encodes (","%byte :: rest)).
Proof using Type.
  unfold parse_double. sline. eapply yields_bind; [apply yields_utf8|]. intros s [-> Hs].
  apply yields_bind with (P := fun d => parse_f64 line = Ok d).
  - case_bool_decide; [subst; apply parse_f64_inf|].
    case_bool_decide; [subst; apply parse_f64_neg_inf|].
    case_bool_decide; [subst; apply parse_f64_nan|]. by destruct (parse_f64 line).
  - intros d Hd. simpl. encoded tail. by constructor.
Qed.

Lemma big_number_sound :
  yields (parse_big_number ("("%byte :: rest)) (encodes ("("%byte :: rest)).
Proof using Type.
  unfold parse_big_number. sline. eapply yields_bind; [apply yields_utf8|].
  intros s [-> Hs]. case_bool_decide as H1; [done|].
  destruct (all_digits _) eqn:H2; [|done]. simpl. encoded tail. by constructor.
Qed.

Lemma bulk_error_sound :
  yields (parse_bulk_error ("!"%byte :: rest)) (encodes ("!"%byte :: rest)).
Proof using Type.
  unfold parse_bulk_error. sline. eapply yields_bind; [apply yields_int|]. intros n Hi.
  destruct (Z.ltb_spec n 0); [done|].
  apply (bulk_yields _ _ _ _ _ _ _ Hb); [done|]. intros data r Ht ->.
  eapply yields_bind; [apply yields_utf8|]. intros s [-> Hs]. simpl.
  eapply bulk_encodes; [done..|]. by constructor.
Qed.

Lemma verbatim_string_sound :
  yields (parse_verbatim_string ("="%byte :: rest)) (encodes ("="%byte :: rest)).
Proof using Type.
  unfold parse_verbatim_string. sline. eapply yields_bind; [apply yields_int|]. intros n Hi.
  destruct (Z.ltb_spec n 0); [done|].
  apply (bulk_yields _ _ _ _ _ _ _ Hb); [done|]. intros data r Ht Hn.
  destruct (Z.ltb_spec n 4); [done|].
  destruct data as [|e0 [|e1 [|e2 [|c d]]]]; [subst; vm_compute in H1; done..|].
  rewrite (index_app [e0; e1; e2] c d) by done. cbn [bind].
  case_bool_decide; [|done]. subst c. cbn [negb].
  rewrite (slice_app [] [e0; e1; e2] (":"%byte :: d)) by done. cbn [bind].
  eapply yields_bind; [apply yields_utf8|]. intros e [-> He].
  change (e0 :: e1 :: e2 :: ":"%byte :: d) with ([e0; e1; e2; ":"%byte] ++ d).
  rewrite (slice_from_app [e0; e1; e2; ":"%byte] d). cbn [bind].
  eapply yields_bind; [apply yields_utf8|]. intros s [-> Hs]. simpl. subst n.
  eapply bulk_encodes; [done..|]. by apply (wire_verbatim [e0; e1; e2]).
Qed.
End sound_leaves.

Section sound_nodes.
Context (p : bytes -> Result (RespValue * Z)) (Hp : sound p).

Lemma parse_at_sound pre tail :
  yields (parse_at p (pre ++ tail) (len pre)) (fun vn =>
    exists w r, tail = w ++ r /\ accepted vn.1 w /\ vn.2 = len (pre ++ w)).
Proof using Hp.
  unfold parse_at. rewrite slice_from_app. cbn [bind].
  eapply yields_bind; [apply Hp|]. intros [v n] (w & r & -> & Hw & Hn). simpl in *. subst n.
  exists w, r. split_and!; [done..|]. by rewrite len_app.
Qed.

Lemma elements_sound fuel count pre tail acc :
  0 <= count ->
  yields (for_count (push_element p (pre ++ tail)) fuel count (acc, len pre)) (fun st =>
    exists vs ws r, st.1 = acc ++ vs /\ len vs = count /\ Forall2 accepted vs ws /\
      tail = concat ws ++ r /\ st.2 = len (pre ++ concat ws)).
Proof using Hp.
  revert count pre tail acc. induction fuel as [|fuel IH]; intros count pre tail acc Hc.
  all: destruct (decide (count = 0)) as [->|Hne];
    [rewrite for_count_done by done; exists [], [], tail; by rewrite !app_nil_r|].
  { simpl. by rewrite (proj2 (Z.leb_gt _ _)) by lia. }
  rewrite for_count_step by lia. unfold push_element at 1. rewrite bind_assoc.
  eapply yields_bind; [apply parse_at_sound|]. intros [v n] (w & r & -> & Hw & Hn).
  cbn [bind fst snd] in *. subst n. rewrite app_assoc.
  eapply yields_mono; [apply IH; lia|].
  intros [vs' n] (vs & ws & r' & Hvs & Hl & Hws & -> & Hn). cbn [fst snd] in *.
  exists (v :: vs), (w :: ws), r'. rewrite Hvs, Hn, <- !app_assoc.
  split_and!; [done|len_lia|by constructor|simpl; by rewrite app_assoc|done].
Qed.

Lemma pairs_sound fuel count pre tail acc :
  0 <= count ->
  yields (for_count (push_pair p (pre ++ tail)) fuel count (acc, len pre)) (fun st =>
    exists kvs ws r, st.1 = acc ++ kvs /\ len kvs = count /\ Forall2 accepted_pair kvs ws /\
      tail = concat ws ++ r /\ st.2 = len (pre ++ concat ws)).
Proof using Hp.
  revert count pre tail acc. induction fuel as [|fuel IH]; intros count pre tail acc Hc.
  all: destruct (decide (count = 0)) as [->|Hne];
    [rewrite for_count_done by done; exists [], [], tail; by rewrite !app_nil_r|].
  { simpl. by rewrite (proj2 (Z.leb_gt _ _)) by lia. }
  rewrite for_count_step by lia. unfold push_pair at 1. rewrite bind_assoc.
  eapply yields_bind; [apply parse_at_sound|]. intros [k n] (wk & r & -> & Hk & Hn).
  cbn [bind fst snd] in *. subst n. rewrite app_assoc, bind_assoc.
  eapply yields_bind; [apply parse_at_sound|]. intros [v n] (wv & r1 & -> & Hv & Hn).
  cbn [bind fst snd] in *. subst n. rewrite app_assoc.
  eapply yields_mono; [apply IH; lia|].
  intros [kvs' n] (kvs & ws & r' & Hkvs & Hl & Hws & -> & Hn). cbn [fst snd] in *.
  exists ((k, v) :: kvs), ((wk ++ wv) :: ws), r'. rewrite Hkvs, Hn, <- !app_assoc. simpl.
  rewrite <- !app_assoc. split_and!; [done|len_lia| |done..].
  constructor; [by constructor|done].
Qed.

(** Close a container: its header, its elements, the rest of the buffer. *)
Lemma container_encodes (b : byte) buf v line body r :
  buf = header b line [] ++ body ++ r -> accepted v (header b line body) ->
  encodes buf (v, len (header b line [] ++ body)).
Proof using Type.
  intros -> Hv. exists (header b line body), r. split_and!; [|done|].
  - by rewrite (header_app _ _ body).
  - simpl. pose proof (header_app b line body []) as He. rewrite !app_nil_r in He. by rewrite He.
Qed.

Lemma array_sound rest :
  yields (parse_array p ("*"%byte :: rest)) (encodes ("*"%byte :: rest)).
Proof using Hp.
  unfold parse_array. sline. eapply yields_bind; [apply yields_int|]. intros n Hi.
  rewrite Hb. destruct (Z.ltb_spec n 0).
  - exists (header "*" line []), tail; split_and!; [done| |done]. by apply (wire_null_array n).
  - eapply yields_bind; [apply yields_any|]. intros _ _.
    eapply yields_bind; [by apply elements_sound|].
    intros [vs n'] (? & ws & r & ? & ? & Hws & ? & ?). simpl in *. subst.
    eapply container_encodes; [reflexivity|]. by constructor.
Qed.

Lemma set_sound rest : yields (parse_set p ("~"%byte :: rest)) (encodes ("~"%byte :: rest)).
Proof using Hp.
  unfold parse_set. sline. eapply yields_bind; [apply yields_int|]. intros n Hi.
  rewrite Hb. destruct (Z.ltb_spec n 0); [done|].
  eapply yields_bind; [apply yields_any|]. intros _ _.
  eapply yields_bind; [by apply elements_sound|].
  intros [vs n'] (? & ws & r & ? & ? & Hws & ? & ?). simpl in *. subst.
  eapply container_encodes; [reflexivity|]. by constructor.
Qed.

Lemma map_sound rest : yields (parse_map p ("%"%byte :: rest)) (encodes ("%"%byte :: rest)).
Proof using Hp.
  unfold parse_map. sline. eapply yields_bind; [apply yields_int|]. intros n Hi.
  rewrite Hb. destruct (Z.ltb_spec n 0); [done|].
  eapply yields_bind; [apply yields_any|]. intros _ _.
  eapply yields_bind; [by apply pairs_sound|].
  intros [kvs n'] (? & ws & r & ? & ? & Hws & ? & ?). simpl in *. subst.
  eapply container_encodes; [reflexivity|]. by constructor.
Qed.

Lemma push_sound rest : yields (parse_push p (">"%byte :: rest)) (encodes (">"%byte :: rest)).
Proof using Hp.
  unfold parse_push. sline. eapply yields_bind; [apply yields_int|]. intros n Hi.
  rewrite Hb. destruct (Z.ltb_spec n 0); [done|]. destruct (Z.eqb_spec n 0); [done|].
  eapply yields_bind; [apply parse_at_sound|]. intros [kv n'] (wk & r & -> & Hk & Hn).
  cbn [bind fst snd] in *. subst n'.
  apply yields_bind with (P := fun k =>
    (kv = SimpleString k \/ kv = BulkString k) /\ valid_utf8 k = true).
  { destruct kv; try done; simpl; [|eapply yields_mono; [apply yields_utf8|naive_solver]].
    split; [by left|]. by inversion Hk as [? [? ?]| | | | | | | | | | | | | | | |]. }
  intros k [Hkv Hv]. eapply yields_bind; [apply yields_any|]. intros _ _.
  rewrite app_assoc. eapply yields_bind; [apply elements_sound; lia|].
  intros [vs m] (vs' & ws & r' & ? & Hl & Hws & ? & ?). cbn [fst snd] in *. subst.
  cbn [bind yields post].
  rewrite <- !app_assoc. apply (container_encodes _ _ _ _ _ r'); [by rewrite ?app_assoc|].
  apply (wire_push _ kv); [|done..]. simpl. by replace (1 + len vs') with n by lia.
Qed.

Lemma attribute_sound rest :
  yields (parse_attribute p ("|"%byte :: rest)) (encodes ("|"%byte :: rest)).
Proof using Hp.
  unfold parse_attribute. sline. eapply yields_bind; [apply yields_int|]. intros n Hi.
  rewrite Hb. destruct (Z.ltb_spec n 0); [done|].
  eapply yields_bind; [apply yields_any|]. intros _ _.
  eapply yields_bind; [by apply pairs_sound|].
  intros [kvs m] (? & ws & r & ? & ? & Hws & ? & ?). cbn [fst snd] in *. subst.
  cbn [bind yields post].
  rewrite app_assoc. eapply yields_bind; [apply parse_at_sound|].
  intros [d m] (wd & r' & ? & Hd & ?). cbn [fst snd] in *. subst.
  cbn [bind yields post].
  rewrite <- !app_assoc. apply (container_encodes _ _ _ _ _ r'); [by rewrite ?app_assoc|].
  by apply wire_attribute.
Qed.

Lemma parse_body_sound : sound (parse_body p).
Proof using Hp.
  intros [|b rest]; [done|]. unfold parse_body.
  repeat (case_decide; [subst b|]);
    auto using simple_string_sound, simple_error_sound, integer_sound, bulk_string_sound,
      array_sound, null_sound, boolean_sound, double_sound, big_number_sound,
      bulk_error_sound, verbatim_string_sound, map_sound, set_sound, push_sound,
      attribute_sound.
  done.
Qed.
End sound_nodes.

Lemma parse_rec_sound fuel : sound (parse_rec fuel).
Proof. induction fuel as [|fuel IH]; [done|]. by apply parse_body_sound. Qed.

(** * From one reading of the integers to another *)

(** Some header line of the bytes satisfies [P]. *)
Definition has_header (P : bytes -> Prop) (w : bytes) : Prop :=
  exists pre t txt post, w = pre ++ header t txt post /\ P txt.

Lemma has_header_app P pre w post : has_header P w -> has_header P (pre ++ w ++ post).
Proof.
  intros (a & t & txt & b & -> & Ht). exists (pre ++ a), t, txt, (b ++ post).
  split; [|done]. unfold header. rewrite <- !app_assoc. simpl. by rewrite <- !app_assoc.
Qed.

Lemma has_header_body (P : bytes -> Prop) t txt body :
  has_header P body -> has_header P (header t txt body).
Proof.
  intros Hb. replace (header t txt body) with (header t txt [] ++ body ++ []).
  - by apply has_header_app.
  - by rewrite <- header_app, app_nil_r.
Qed.

Lemma has_header_here (P : bytes -> Prop) t txt body : P txt -> has_header P (header t txt body).
Proof. intros Ht. by exists [], t, txt, body. Qed.

Lemma has_header_l P w post : has_header P w -> has_header P (w ++ post).
Proof. apply (has_header_app P [] w post). Qed.

Lemma has_header_r P pre w : has_header P w -> has_header P (pre ++ w).
Proof. intros Hw. rewrite <- (app_nil_r w). by apply has_header_app. Qed.

Section transfer.
Context {T T' : Z -> bytes -> Prop} (P : bytes -> Prop).
Hypothesis read_in : forall i txt, T i txt -> T' i txt \/ P txt.

(** The encodings shorter than [n] carry over, unless a header is in [P]. *)
Definition carries (n : nat) : Prop :=
  forall v w, (length w < n)%nat -> wire_over T v w -> wire_over T' v w \/ has_header P w.

Lemma elements_carry n vs ws :
  carries n -> (length (concat ws) < n)%nat -> Forall2 (wire_over T) vs ws ->
  Forall2 (wire_over T') vs ws \/ has_header P (concat ws).
Proof using Type.
  intros Hn Hl Hws. induction Hws as [|v w vs ws Hw Hws IH]; [by left|].
  simpl in *. rewrite length_app in Hl.
  destruct (Hn v w) as [Hv|Hb]; [lia|done| |right; by apply has_header_l].
  destruct IH as [IH|Hb]; [lia|left; by constructor|right; by apply has_header_r].
Qed.

Lemma pairs_carry n kvs ws :
  carries n -> (length (concat ws) < n)%nat -> Forall2 (wire_pair_over T) kvs ws ->
  Forall2 (wire_pair_over T') kvs ws \/ has_header P (concat ws).
Proof using Type.
  intros Hn Hl Hws. induction Hws as [|kv w kvs ws Hw Hws IH]; [by left|].
  destruct Hw as [k v wk wv Hk Hv]. simpl in *. rewrite !length_app in Hl.
  destruct (Hn k wk) as [Hk'|Hb]; [lia|done| |right; by apply has_header_l, has_header_l].
  destruct (Hn v wv) as [Hv'|Hb]; [lia|done| |right; by apply has_header_l, has_header_r].
  destruct IH as [IH|Hb]; [lia|left; constructor; [by constructor|done]|].
  right. by apply has_header_r.
Qed.

Lemma length_header t txt body :
  (length (header t txt body) = S (length txt + S (S (length body))))%nat.
Proof using Type. unfold header. simpl. by rewrite length_app. Qed.

(** Decide how each integer and each part of an encoding is carried over. *)
Ltac carry n Hn :=
  repeat match goal with
  | Hi : T _ _ |- _ =>
      apply read_in in Hi as [Hi|Hi]; [|by right; apply has_header_here]
  | Hws : Forall2 (wire_over T) _ _ |- _ =>
      apply (elements_carry n) in Hws as [Hws|Hws]; [| |done|lia]
  | Hws : Forall2 (wire_pair_over T) _ _ |- _ =>
      apply (pairs_carry n) in Hws as [Hws|Hws]; [| |done|lia]
  | Hw : wire_over T _ _ |- _ => apply Hn in Hw as [Hw|Hw]; [| |lia]
  end.

Lemma wire_carries n : carries n.
Proof using read_in.
  induction n as [|n Hn]; intros v w Hl Hw; [lia|].
  destruct Hw; rewrite length_header, ?length_app in Hl; carry n Hn;
    first [left; by econstructor
          |right; apply has_header_body;
             first [done|by apply has_header_l|by apply has_header_r]].
Qed.
End transfer.

Lemma wire_accepted v w : wire v w -> accepted v w.
Proof.
  intros Hw. destruct (wire_carries (T := int_text) (T' := machine_int) (fun _ => False)
    ltac:(by left; left) (S (length w)) v w) as [?|(? & ? & ? & ? & _ & [])]; [lia|done..].
Qed.

Lemma accepted_wire v w :
  accepted v w -> wire v w \/ (overflow_checks = false /\ overflowing w).
Proof.
  intros Hw. destruct (wire_carries (T := machine_int) (T' := int_text)
    (fun txt => overflow_checks = false /\ overflow_text txt) ltac:(unfold machine_int; naive_solver)
    (S (length w)) v w) as [?|(? & t & txt & ? & -> & Ho & Ht)]; [lia|done|by left|right].
  split; [done|]. by repeat eexists.
Qed.

Lemma parse_wire v w rest :
  wire v w -> size_of_pair * (1 + len (w ++ rest)) <= ISIZE_MAX ->
  parse (w ++ rest) = Ok (v, len w).
Proof. intros Hw. by apply parse_accepted, wire_accepted. Qed.

Lemma parse_sound buf v n :
  parse buf = Ok (v, n) -> exists w rest, buf = w ++ rest /\ accepted v w /\ n = len w.
Proof.
  intros Hv. pose proof (parse_rec_sound (S (length buf)) buf) as Hs.
  unfold parse in Hv. rewrite Hv in Hs. exact Hs.
Qed.

(** C1: the parser is the RESP2/RESP3 grammar. Every buffer that fits in
    memory and starts with an encoding of a value gives that value and the
    length of the encoding; and whatever [parse] returns was an encoding of it,
    except that a build without overflow checks also accepts replies with an
    integer header of exactly [2^63]. *)
Theorem parse_exact buf :
  size_of_pair * (1 + len buf) <= ISIZE_MAX ->
  (forall v w rest, buf = w ++ rest -> wire v w -> parse buf = Ok (v, len w)) /\
  (forall v n, parse buf = Ok (v, n) ->
    exists w rest, buf = w ++ rest /\ n = len w /\
      (wire v w \/ (overflow_checks = false /\ overflowing w))).
Proof.
  intros Hcap. split; [intros v w rest -> Hw; by apply parse_wire|].
  intros v n (w & rest & -> & Hw%accepted_wire & ->)%parse_sound. by exists w, rest.
Qed.

(** The wire format is unambiguous: if two encodings start the same
    buffer they encode the same value and are the same bytes, so replies on a
    connection have one reading. *)
Theorem wire_unambiguous v w rest v' w' rest' :
  wire v w -> wire v' w' -> w ++ rest = w' ++ rest' ->
  size_of_pair * (1 + len (w ++ rest)) <= ISIZE_MAX ->
  v = v' /\ w = w' /\ rest = rest'.
Proof.
  intros Hw Hw' He Hcap. pose proof (parse_wire v w rest Hw Hcap) as H1.
  rewrite He in H1, Hcap. rewrite (parse_wire v' w' rest' Hw' Hcap) in H1. simplify_eq.
  apply app_inj_1 in He as [-> ->]; [done|]. unfold len in *. lia.
Qed.
End wire.

(** A build without overflow checks reads [2^63] as [i64::MIN] instead
    of reporting an overflow (the negation of the accumulated [i64::MIN] wraps),
    for integers and, through the sign test, as a null bulk string or array; a
    build with overflow checks panics on the same replies. *)
Theorem integer_wraps rest :
  let w63 := bs "9223372036854775808" in
  parse_int_from_bytes (H := release64) w63 = Ok I64_MIN /\
  parse_int_from_bytes (H := debug64) w63 = Panic ArithmeticOverflow /\
  parse_bulk_string (H := release64) (header "$" w63 rest) = Ok (Null, 22) /\
  parse_int_from_bytes (H := release64) (bs "9223372036854775809") =
    Err (Protocol (bs "integer overflow")).
Proof.
  cbv zeta. split_and!; [vm_compute; reflexivity..| |vm_compute; reflexivity].
  unfold parse_bulk_string. pose proof (@read_header "$"%byte (bs "9223372036854775808")
    rest []) as Hr.
  rewrite app_nil_r in Hr. rewrite Hr; [vm_compute; reflexivity|].
  by apply digit_not_CR, all_digits_Forall.
Qed.

(** * The theorems at concrete replies *)

Lemma wire_PONG : wire (SimpleString (bs "PONG")) (header "+" (bs "PONG") []).
Proof. constructor. split; [reflexivity|]. by apply memchr_None. Qed.

Lemma parse_exact_witness :
  let buf := header "+" (bs "PONG") [] ++ bs ":1" in
  parse (H := release64) buf = Ok (SimpleString (bs "PONG"), 7) /\
  exists w rest, buf = w ++ rest /\ 7 = len w /\
    (wire (SimpleString (bs "PONG")) w \/
     @overflow_checks release64 = false /\ overflowing w).
Proof.
  cbv zeta.
  pose proof (parse_exact (H := release64) (header "+" (bs "PONG") [] ++ bs ":1")) as [Hc Hs];
    [done|].
  split; [by apply (Hc _ (header "+" (bs "PONG") []) (bs ":1")), wire_PONG|].
  apply Hs. reflexivity.
Defined.

Lemma wire_unambiguous_witness :
  SimpleString (bs "PONG") = SimpleString (bs "PONG") /\
  header "+" (bs "PONG") [] = bs "+PONG" ++ CRLF /\ bs ":1" = bs ":1".
Proof.
  apply (wire_unambiguous (H := release64)); [apply wire_PONG..|reflexivity|done].
Defined.
