(* ===== verification/Writer.v ===== *)
(** src/resp/writer.rs: the command serializer. The output buffer is threaded
    through the pushes of the code, one definition per loop body; the round
    trip is stated against the parser of Parser.v. *)

From Stdlib Require Import Strings.Byte.
From S2P Require Import Prelude RustStd Utf8 Error Types Parser ParserFacts ParserProps Wire.

(** The capacities the code reserves for a header line and for an argument. *)
Definition header_cap : Z := 1 + 10 + 2.
Definition arg_cap (arg : bytes) : Z := 1 + 10 + 2 + len arg + 2.

Definition command_cap (args : list bytes) : Z :=
  fold_left (fun cap arg => cap + arg_cap arg) args header_cap.

(** [$<len>\r\n<data>\r\n]. *)
Definition push_arg (buf arg : bytes) : bytes :=
  let buf := buf ++ ["$"%byte] in
  let buf := buf ++ itoa (len arg) in
  let buf := buf ++ CRLF in
  let buf := buf ++ arg in
  buf ++ CRLF.

(** [*<N>\r\n] and the arguments. *)
Definition push_command (buf : bytes) (args : list bytes) : bytes :=
  let buf := buf ++ ["*"%byte] in
  let buf := buf ++ itoa (len args) in
  let buf := buf ++ CRLF in
  fold_left push_arg args buf.

(** [Vec::with_capacity(cap)] is an empty buffer. *)
Definition encode_command (args : list bytes) : bytes := push_command [] args.

(** A [&str] argument is its bytes. *)
Definition encode_command_str (args : list bytes) : bytes := encode_command args.

Definition pipeline_cap (commands : list (list bytes)) : Z :=
  fold_left (fun cap args =>
    fold_left (fun cap arg => cap + arg_cap arg) args (cap + header_cap)) commands 0.

Definition encode_pipeline (commands : list (list bytes)) : bytes :=
  fold_left push_command commands [].

Definition encode_inline (cmd : bytes) : bytes := cmd ++ CRLF.

Example encode_set :
  encode_command [bs "SET"; bs "key"; bs "value"] =
  crlf_lines ["*3"; "$3"; "SET"; "$3"; "key"; "$5"; "value"].
Proof. reflexivity. Qed.

(** * The shape of the output *)

Definition arg_wire (arg : bytes) : bytes := header "$" (itoa (len arg)) (arg ++ CRLF).

Lemma push_args_eq args buf :
  fold_left push_arg args buf = buf ++ concat (map arg_wire args).
Proof.
  revert buf. induction args as [|arg args IH]; intros buf; simpl; [by rewrite app_nil_r|].
  rewrite IH. unfold push_arg, arg_wire, header, CRLF.
  rewrite <- !app_assoc. simpl. by rewrite <- !app_assoc.
Qed.

Lemma push_command_eq buf args : push_command buf args = buf ++ encode_command args.
Proof.
  unfold encode_command, push_command. rewrite !push_args_eq. by rewrite <- !app_assoc.
Qed.

Lemma encode_command_eq args :
  encode_command args = header "*" (itoa (len args)) (concat (map arg_wire args)).
Proof.
  unfold encode_command, push_command. rewrite push_args_eq.
  unfold header, CRLF. by rewrite <- !app_assoc.
Qed.

Lemma encode_pipeline_cons cmd cmds :
  encode_pipeline (cmd :: cmds) = encode_command cmd ++ encode_pipeline cmds.
Proof.
  unfold encode_pipeline. simpl. change (push_command [] cmd) with (encode_command cmd).
  generalize (encode_command cmd). induction cmds as [|c cmds IH]; intros buf; simpl;
    [by rewrite app_nil_r|].
  rewrite IH, push_command_eq, <- app_assoc. f_equal. symmetry. apply IH.
Qed.

Lemma encode_pipeline_eq cmds : encode_pipeline cmds = concat (map encode_command cmds).
Proof. induction cmds; simpl; [done|]. rewrite encode_pipeline_cons. by f_equal. Qed.

#[export] Instance BulkString_inj : Inj eq eq BulkString.
Proof. by intros ?? [= ->]. Qed.
#[export] Instance map_inj {A B} (f : A -> B) : Inj eq eq f -> Inj eq eq (map f).
Proof. intros Hf l. induction l; intros [|??]; simpl; naive_solver. Qed.

Section writer.
Context `{Target}.

Lemma int_text_itoa n : 0 <= n <= I64_MAX -> int_text n (itoa n).
Proof.
  intros Hn. destruct (itoa_spec n) as (Hv & Hd & Hne); [lia|].
  rewrite <- Hv at 1. apply (int_pos []); [by left|done| |lia].
  by apply all_digits_Forall.
Qed.

Lemma arg_wire_ok arg : len arg <= I64_MAX -> wire (BulkString arg) (arg_wire arg).
Proof. intros Hl. constructor. apply int_text_itoa. by len_pos. Qed.

Lemma args_size args : len args <= len (concat (map arg_wire args)).
Proof.
  induction args as [|arg args IH]; [done|]. cbn [map concat].
  rewrite len_app. unfold arg_wire at 1. rewrite len_header. len_lia.
Qed.

Lemma args_wire args :
  Forall (fun arg => len arg <= I64_MAX) args ->
  Forall2 wire (map BulkString args) (map arg_wire args).
Proof. induction 1; simpl; constructor; auto using arg_wire_ok. Qed.

Lemma arg_size args arg : arg ∈ args -> len arg <= len (concat (map arg_wire args)).
Proof.
  induction 1 as [arg args|arg x args _ IH]; cbn [map concat];
    rewrite len_app; unfold arg_wire at 1; rewrite len_header; len_lia.
Qed.

(** A command is an encoding of the array of its arguments. *)
Lemma encode_command_wire args :
  len (encode_command args) <= I64_MAX ->
  wire (Array (map BulkString args)) (encode_command args).
Proof.
  rewrite encode_command_eq. intros Hl. rewrite len_header in Hl.
  pose proof (args_size args). constructor.
  - replace (len (map BulkString args)) with (len args) by (unfold len; by rewrite length_map).
    apply int_text_itoa. by len_lia.
  - apply args_wire, Forall_forall. intros arg Hin%arg_size. len_lia.
Qed.

Lemma capacity_fits n : size_of_pair * (1 + n) <= ISIZE_MAX -> 0 <= n -> n <= I64_MAX.
Proof.
  pose proof size_of_RespValue_ge. pose proof size_of_pair_ge.
  unfold ISIZE_MAX, I64_MAX. nia.
Qed.

Lemma parse_encoded args rest :
  size_of_pair * (1 + len (encode_command args ++ rest)) <= ISIZE_MAX ->
  parse (encode_command args ++ rest) =
  Ok (Array (map BulkString args), len (encode_command args)).
Proof.
  intros Hcap. apply parse_wire; [|done]. apply encode_command_wire.
  apply capacity_fits in Hcap; len_lia.
Qed.

(** C9: what a client writes is read back argument for argument: parsing an
    encoded command gives the array of its arguments as bulk strings, whatever
    bytes the arguments hold, and leaves the bytes after it. *)
Theorem encode_parse_roundtrip args rest :
  size_of_pair * (1 + len (encode_command args ++ rest)) <= ISIZE_MAX ->
  parse (encode_command args ++ rest) =
  Ok (Array (map BulkString args), len (encode_command args)).
Proof. apply parse_encoded. Qed.

(** The single buffer of a pipeline reads back as its commands one after
    the other: the first parse gives the first command and what it leaves is
    the buffer of the remaining commands. *)
Theorem encode_pipeline_roundtrip cmd cmds :
  let buf := encode_pipeline (cmd :: cmds) in
  size_of_pair * (1 + len buf) <= ISIZE_MAX ->
  exists n, parse buf = Ok (Array (map BulkString cmd), n) /\
    @slice_from PyrsedisError buf n = Ok (encode_pipeline cmds).
Proof.
  cbv zeta. rewrite encode_pipeline_cons. intros Hcap.
  exists (len (encode_command cmd)). split; [by apply parse_encoded|apply slice_from_app].
Qed.

(** Commands cannot be confused on the wire: two argument lists with the
    same encoding are the same arguments, whatever separators they contain. *)
Theorem encode_command_inj args args' :
  size_of_pair * (1 + len (encode_command args)) <= ISIZE_MAX ->
  encode_command args = encode_command args' -> args = args'.
Proof.
  intros Hcap He. pose proof (parse_encoded args []) as H1.
  rewrite app_nil_r in H1. specialize (H1 Hcap). rewrite He in H1, Hcap.
  pose proof (parse_encoded args' []) as H2. rewrite app_nil_r in H2.
  rewrite H1 in H2 by done. specialize (H2 Hcap). simplify_eq.
  by apply (inj (map BulkString)).
Qed.
End writer.

(** * Capacity *)

Definition ten_digits (n : Z) : Prop := n < 10 ^ 10.

Lemma caps_shift args cap :
  fold_left (fun cap arg => cap + arg_cap arg) args cap =
  cap + fold_left (fun cap arg => cap + arg_cap arg) args 0.
Proof.
  revert cap. induction args as [|a args IH]; intros cap; cbn [fold_left]; [lia|].
  rewrite (IH (cap + _)), (IH (0 + _)). lia.
Qed.

Lemma itoa_ten n : 0 <= n -> ten_digits n -> len (itoa n) <= 10.
Proof. intros Hn Ht. apply (itoa_length n 10); [unfold ten_digits in Ht; lia|lia]. Qed.

Lemma command_fits args :
  ten_digits (len args) -> Forall (fun arg => ten_digits (len arg)) args ->
  len (encode_command args) <= command_cap args.
Proof.
  intros Hn Ha. rewrite encode_command_eq, len_header. unfold command_cap, header_cap.
  rewrite caps_shift. apply itoa_ten in Hn; [|apply len_nonneg].
  enough (len (concat (map arg_wire args)) <=
    fold_left (fun cap arg => cap + arg_cap arg) args 0) by lia. clear Hn.
  induction Ha as [|a args Hd Ha IH]; [done|]. cbn [map concat fold_left]. rewrite caps_shift, len_app.
  unfold arg_wire at 1, arg_cap at 1. rewrite len_header.
  apply itoa_ten in Hd; [|apply len_nonneg]. unfold CRLF. len_lia.
Qed.

(** The reserved capacity covers the output, so the buffers are written
    without reallocation, as long as every count and length has at most ten
    digits. *)
Theorem capacity_sufficient cmds :
  Forall (fun args => ten_digits (len args) /\
    Forall (fun arg => ten_digits (len arg)) args) cmds ->
  (forall args, args ∈ cmds -> len (encode_command args) <= command_cap args) /\
  len (encode_pipeline cmds) <= pipeline_cap cmds.
Proof.
  intros Hc. split.
  { intros args Hin. rewrite Forall_forall in Hc. destruct (Hc _ Hin). by apply command_fits. }
  rewrite encode_pipeline_eq. unfold pipeline_cap.
  assert (forall cap, cap + len (concat (map encode_command cmds)) <=
    fold_left (fun cap args =>
      fold_left (fun cap arg => cap + arg_cap arg) args (cap + header_cap)) cmds cap) as Hcap.
  { induction Hc as [|args cmds [Hn Ha] _ IH]; intros cap; cbn [map concat fold_left]; [len_lia|].
    eapply Z.le_trans; [|apply IH]. rewrite caps_shift, len_app.
    pose proof (command_fits args Hn Ha) as Hf. unfold command_cap in Hf.
    rewrite caps_shift in Hf. lia. }
  specialize (Hcap 0). lia.
Qed.

(** * The theorems at concrete commands *)

Definition set_cmd : list bytes := [bs "SET"; bs "k"; CRLF].

Lemma encode_parse_roundtrip_witness :
  parse (H := release64) (encode_command set_cmd ++ bs "*1") =
  Ok (Array [BulkString (bs "SET"); BulkString (bs "k"); BulkString CRLF], 28).
Proof. apply (encode_parse_roundtrip (H := release64) set_cmd (bs "*1")). done. Defined.

Lemma encode_pipeline_roundtrip_witness :
  exists n, parse (H := release64) (encode_pipeline [set_cmd; [bs "PING"]]) =
      Ok (Array (map BulkString set_cmd), n) /\
    @slice_from PyrsedisError (encode_pipeline [set_cmd; [bs "PING"]]) n =
      Ok (encode_pipeline [[bs "PING"]]).
Proof. apply (encode_pipeline_roundtrip (H := release64) set_cmd [[bs "PING"]]). done. Defined.

Lemma encode_command_inj_witness :
  set_cmd = [bs "SET"; bs "k"; [CR; LF]].
Proof. by apply (encode_command_inj (H := release64)). Defined.

Lemma capacity_sufficient_witness :
  len (encode_pipeline [set_cmd; [bs "PING"]]) <= pipeline_cap [set_cmd; [bs "PING"]].
Proof.
  apply (capacity_sufficient [set_cmd; [bs "PING"]]).
  repeat constructor; unfold ten_digits; vm_compute; reflexivity.
Defined.
