(* ===== verification/Crc16.v ===== *)
(** src/crc16.rs: CRC16-XMODEM with its lookup table, hash tags and cluster
    slots. The table-driven checksum is proved equal to the bit-serial division
    by the polynomial 0x1021. *)

From Stdlib Require Import Strings.Byte.
From S2P Require Import Prelude.

Definition SLOT_COUNT : Z := 16384.

(** [x << n] on a [u16]: the bits shifted out are lost. *)
Definition shl16 (x n : Z) : Z := Z.land (Z.shiftl x n) 0xFFFF.

(** One round of the inner [while j < 8]. *)
Definition table_round (crc : Z) : Z :=
  if negb (Z.land crc 0x8000 =? 0) then Z.lxor (shl16 crc 1) 0x1021 else shl16 crc 1.

(** The entry the outer [while i < 256] stores at [i]. *)
Definition table_entry (i : Z) : Z := Nat.iter 8 table_round (shl16 i 8).

Definition CRC16_TABLE : list Z := map table_entry (seqZ 0 256).

(** The body of the loop over the data; [CRC16_TABLE[idx]] panics out of range. *)
Definition crc16_update {E} (crc : Z) (b : byte) : res E Z :=
  let idx := Z.lxor (Z.shiftr crc 8) (u8 b) in
  match CRC16_TABLE !! Z.to_nat idx with
  | Some entry => Ok (Z.lxor (shl16 crc 8) entry)
  | None => Panic IndexOutOfBounds
  end.

Fixpoint crc16_loop {E} (crc : Z) (data : bytes) : res E Z :=
  match data with
  | [] => Ok crc
  | b :: data => let? crc := crc16_update crc b in crc16_loop crc data
  end.

Definition crc16 {E} (data : bytes) : res E Z := crc16_loop 0 data.

Definition extract_hash_tag {E} (key : bytes) : res E bytes :=
  match memchr "{" key with
  | Some open =>
      let? tail := slice_from key (open + 1) in
      match memchr "}" tail with
      | Some close_offset =>
          if 0 <? close_offset
          then slice key (open + 1) (open + 1 + close_offset)
          else Ok key
      | None => Ok key
      end
  | None => Ok key
  end.

Definition hash_slot {E} (key : bytes) : res E Z :=
  let? tag := extract_hash_tag key in
  let? crc := crc16 tag in
  Ok (crc mod SLOT_COUNT).

Example crc16_check : @crc16 Empty_set (bs "123456789") = Ok 0x31C3.
Proof. vm_compute. reflexivity. Qed.
Example hash_slot_foo : @hash_slot Empty_set (bs "foo") = Ok 12182.
Proof. vm_compute. reflexivity. Qed.

(** * The reference: bit-serial division *)

(** The register of a CRC-16 fed one bit: the bit shifted out, added to the
    input bit, selects the subtraction of the polynomial. *)
Definition crc_bit (reg : Z) (bit : bool) : Z :=
  let out := xorb (Z.testbit reg 15) bit in
  Z.lxor (shl16 reg 1) (if out then 0x1021 else 0).

(** The bits of a byte, most significant first. *)
Definition bits_of (b : byte) : list bool :=
  map (fun i => Z.testbit (u8 b) (7 - i)) (seqZ 0 8).

Definition crc_reference (data : bytes) : Z :=
  fold_left crc_bit (concat (map bits_of data)) 0.

(** * The proof of equivalence *)

(** A [u16]. *)
Definition is_u16 (x : Z) : Prop := Z.land x 0xFFFF = x.

Lemma is_u16_range x : is_u16 x <-> 0 <= x < 2 ^ 16.
Proof.
  unfold is_u16. change 0xFFFF with (Z.ones 16). rewrite Z.land_ones by lia. split.
  - intros <-. apply Z.mod_pos_bound. lia.
  - apply Z.mod_small.
Qed.

Lemma lxor_land x y m : Z.land (Z.lxor x y) m = Z.lxor (Z.land x m) (Z.land y m).
Proof.
  apply Z.bits_inj'. intros n Hn. rewrite ?Z.land_spec, ?Z.lxor_spec, ?Z.land_spec.
  by destruct (Z.testbit x n), (Z.testbit y n), (Z.testbit m n).
Qed.

Lemma shl16_lxor x y n : shl16 (Z.lxor x y) n = Z.lxor (shl16 x n) (shl16 y n).
Proof. unfold shl16. by rewrite Z.shiftl_lxor, lxor_land. Qed.

Lemma shl16_u16 x n : is_u16 (shl16 x n).
Proof. unfold is_u16, shl16. by rewrite <- Z.land_assoc. Qed.

Lemma lxor_u16 x y : is_u16 x -> is_u16 y -> is_u16 (Z.lxor x y).
Proof. unfold is_u16. intros Hx Hy. by rewrite lxor_land, Hx, Hy. Qed.

Lemma crc_bit_u16 reg bit : is_u16 (crc_bit reg bit).
Proof. apply lxor_u16; [apply shl16_u16|]. by destruct (xorb _ _). Qed.

Lemma lxor_interchange a b c d :
  Z.lxor (Z.lxor a b) (Z.lxor c d) = Z.lxor (Z.lxor a c) (Z.lxor b d).
Proof.
  rewrite !Z.lxor_assoc. f_equal. rewrite <- !Z.lxor_assoc. f_equal. apply Z.lxor_comm.
Qed.

(** Feeding is linear in the register and the bits together. *)
Lemma crc_bit_lxor x y b c :
  crc_bit (Z.lxor x y) (xorb b c) = Z.lxor (crc_bit x b) (crc_bit y c).
Proof.
  unfold crc_bit. rewrite shl16_lxor, Z.lxor_spec, lxor_interchange. f_equal.
  by destruct (Z.testbit x 15), (Z.testbit y 15), b, c.
Qed.

Lemma crc_bits_lxor bits x y :
  fold_left crc_bit bits (Z.lxor x y) =
  Z.lxor (fold_left crc_bit (map (fun _ => false) bits) x) (fold_left crc_bit bits y).
Proof.
  revert x y. induction bits as [|b bits IH]; intros x y; simpl; [done|].
  rewrite <- IH. f_equal. by rewrite <- crc_bit_lxor.
Qed.

(** A round of the table is a zero bit. *)
Lemma table_round_eq crc : table_round crc = crc_bit crc false.
Proof.
  unfold table_round, crc_bit. rewrite xorb_false_r.
  assert ((Z.land crc 0x8000 =? 0) = negb (Z.testbit crc 15)) as ->.
  { change 0x8000 with (2 ^ 15). destruct (Z.testbit crc 15) eqn:E; simpl.
    - apply Z.eqb_neq. intros H. apply (f_equal (fun z => Z.testbit z 15)) in H.
      by rewrite Z.land_spec, E, Z.pow2_bits_true in H by lia.
    - apply Z.eqb_eq, Z.bits_inj'. intros n Hn. rewrite Z.land_spec, Z.bits_0.
      destruct (decide (n = 15)) as [->|]; [by rewrite E|].
      by rewrite Z.pow2_bits_false, andb_false_r by lia. }
  destruct (Z.testbit crc 15); simpl; [done|]. by rewrite Z.lxor_0_r.
Qed.

Definition zeros8 : list bool := repeat false 8.

Lemma table_entry_eq i : table_entry i = fold_left crc_bit zeros8 (shl16 i 8).
Proof. unfold table_entry, zeros8. simpl. by rewrite !table_round_eq. Qed.

(** Facts about the 256 bytes, checked by evaluation. *)
Definition all_bytes : list byte := map byte_of (seqZ 0 256).

Lemma elem_all_bytes b : b ∈ all_bytes.
Proof.
  apply list_elem_of_fmap. exists (u8 b). pose proof (u8_range b). split.
  - apply u8_inj. by rewrite u8_byte_of.
  - rewrite elem_of_seqZ. lia.
Qed.

Lemma byte_bits b :
  fold_left crc_bit (bits_of b) 0 = table_entry (u8 b) /\
  fold_left crc_bit zeros8 (u8 b) = shl16 (u8 b) 8.
Proof.
  assert (forallb (fun b =>
    (fold_left crc_bit (bits_of b) 0 =? table_entry (u8 b)) &&
    (fold_left crc_bit zeros8 (u8 b) =? shl16 (u8 b) 8)) all_bytes = true) as Hall
    by (vm_compute; reflexivity).
  rewrite forallb_forall in Hall.
  specialize (Hall b (proj1 (list_elem_of_In _ _) (elem_all_bytes b))).
  by apply andb_true_iff in Hall as [?%Z.eqb_eq ?%Z.eqb_eq].
Qed.

Lemma table_lookup i : 0 <= i < 256 -> CRC16_TABLE !! Z.to_nat i = Some (table_entry i).
Proof.
  intros Hi. unfold CRC16_TABLE. rewrite list_lookup_fmap, lookup_seqZ_lt by lia. simpl.
  do 2 f_equal. lia.
Qed.

Lemma map_zeros b : map (fun _ => false) (bits_of b) = zeros8.
Proof. done. Qed.

Lemma zeros_lxor x y :
  fold_left crc_bit zeros8 (Z.lxor x y) =
  Z.lxor (fold_left crc_bit zeros8 x) (fold_left crc_bit zeros8 y).
Proof. apply (crc_bits_lxor zeros8 x y). Qed.

(** The high and low bytes of the register. *)
Lemma split_u16 x :
  is_u16 x ->
  exists hi lo, Z.shiftr x 8 = u8 hi /\ x = Z.lxor (shl16 (u8 hi) 8) (u8 lo) /\
    shl16 x 8 = shl16 (u8 lo) 8.
Proof.
  intros Hx%is_u16_range. exists (byte_of (x / 256)), (byte_of (x mod 256)).
  assert (0 <= x / 256 < 256) by (split; [apply Z.div_pos|apply Z.div_lt_upper_bound]; lia).
  pose proof (Z.mod_pos_bound x 256 ltac:(lia)).
  rewrite !u8_byte_of by lia. rewrite Z.shiftr_div_pow2 by lia.
  assert (shl16 (x / 256) 8 = x / 256 * 256) as Hhi.
  { unfold shl16. rewrite Z.shiftl_mul_pow2 by lia. apply is_u16_range. lia. }
  split_and!; [done| |].
  - rewrite Hhi. assert (Z.land (x / 256 * 256) (x mod 256) = 0) as Hd.
    { change 256 with (2 ^ 8). rewrite <- Z.shiftl_mul_pow2, <- Z.land_ones by lia.
      apply Z.bits_inj'. intros n Hn. rewrite !Z.land_spec, Z.bits_0.
      rewrite Z.testbit_ones_nonneg by lia. destruct (Z.ltb_spec n 8).
      - by rewrite Z.shiftl_spec_low by lia.
      - by rewrite !andb_false_r. }
    rewrite <- Z.add_nocarry_lxor by done. rewrite (Z.div_mod x 256) at 1 by lia. lia.
  - unfold shl16. change 0xFFFF with (Z.ones 16).
    rewrite !Z.land_ones, !Z.shiftl_mul_pow2 by lia. change (2 ^ 16) with (256 * 256).
    change (2 ^ 8) with 256. rewrite !Zmult_mod_distr_r. by rewrite Zmod_mod.
Qed.

(** A step of the table-driven loop is eight steps of the reference. *)
Lemma crc16_update_eq {E} crc b :
  is_u16 crc -> @crc16_update E crc b = Ok (fold_left crc_bit (bits_of b) crc).
Proof.
  intros Hc. destruct (split_u16 crc Hc) as (hi & lo & Hhi & Hsplit & Hlo).
  unfold crc16_update. rewrite Hhi.
  assert (0 <= Z.lxor (u8 hi) (u8 b) < 256) as Hidx.
  { assert (Z.lxor (u8 hi) (u8 b) = Z.land (Z.lxor (u8 hi) (u8 b)) (Z.ones 8)) as ->.
    { rewrite lxor_land, !Z.land_ones by lia. pose proof (u8_range hi); pose proof (u8_range b).
      by rewrite !Z.mod_small by lia. }
    rewrite Z.land_ones by lia. apply Z.mod_pos_bound. lia. }
  rewrite table_lookup by done. f_equal. rewrite Hlo.
  rewrite <- (Z.lxor_0_r crc), crc_bits_lxor, map_zeros, (proj1 (byte_bits b)).
  rewrite Hsplit, zeros_lxor, (proj2 (byte_bits lo)), table_entry_eq, shl16_lxor, zeros_lxor.
  rewrite <- !table_entry_eq, <- Z.lxor_assoc. f_equal. apply Z.lxor_comm.
Qed.

Lemma crc_bits_u16 bits reg : is_u16 reg -> is_u16 (fold_left crc_bit bits reg).
Proof.
  revert reg. induction bits as [|b bits IH]; intros reg Hr; [done|].
  apply IH, crc_bit_u16.
Qed.

Lemma crc16_loop_eq {E} data crc :
  is_u16 crc ->
  @crc16_loop E crc data = Ok (fold_left crc_bit (concat (map bits_of data)) crc).
Proof.
  revert crc. induction data as [|b data IH]; intros crc Hc; [done|].
  cbn [crc16_loop map concat]. rewrite crc16_update_eq by done. cbn [bind].
  rewrite fold_left_app. by apply IH, crc_bits_u16.
Qed.

Lemma crc16_eq {E} data : @crc16 E data = Ok (crc_reference data).
Proof. by apply crc16_loop_eq. Qed.

(** C36: the table-driven checksum is CRC16-XMODEM: on any data it never
    indexes outside the table and gives the register of the bit-serial division
    by the polynomial 0x1021, a [u16]. *)
Theorem crc16_is_xmodem {E} data :
  @crc16 E data = Ok (crc_reference data) /\ 0 <= crc_reference data < 2 ^ 16.
Proof.
  split; [apply crc16_eq|]. apply is_u16_range. by apply crc_bits_u16.
Qed.

(** * Hash tags *)

Lemma extract_no_tag {E} key :
  (forall pre tag post, key = pre ++ "{"%byte :: tag ++ "}"%byte :: post ->
     ("{"%byte ∉ pre) -> ("}"%byte ∉ tag) -> tag = []) ->
  @extract_hash_tag E key = Ok key.
Proof.
  intros Hno. unfold extract_hash_tag. destruct (memchr "{" key) as [open|] eqn:Ho; [|done].
  apply memchr_Some in Ho as (pre & tail & -> & Hpre & ->).
  replace (pre ++ "{"%byte :: tail) with ((pre ++ ["{"%byte]) ++ tail)
    by (by rewrite <- app_assoc).
  replace (len pre + 1) with (len (pre ++ ["{"%byte])) by len_lia.
  rewrite slice_from_app. cbn [bind].
  destruct (memchr "}" tail) as [close|] eqn:Hc; [|done].
  apply memchr_Some in Hc as (tag & post & -> & Htag & ->).
  destruct (Z.ltb_spec 0 (len tag)) as [Hl|]; [|done].
  rewrite (Hno pre tag post) in Hl; done.
Qed.

Lemma extract_tag {E} pre tag post :
  ("{"%byte ∉ pre) -> ("}"%byte ∉ tag) -> tag <> [] ->
  @extract_hash_tag E (pre ++ "{"%byte :: tag ++ "}"%byte :: post) = Ok tag.
Proof.
  intros Hpre Htag Hne. unfold extract_hash_tag. rewrite memchr_app by done.
  replace (pre ++ "{"%byte :: tag ++ "}"%byte :: post) with
    ((pre ++ ["{"%byte]) ++ tag ++ "}"%byte :: post) by (by rewrite <- app_assoc).
  replace (len pre + 1) with (len (pre ++ ["{"%byte])) by len_lia.
  rewrite slice_from_app. cbn [bind]. rewrite memchr_app by done.
  rewrite (proj2 (Z.ltb_lt _ _)) by (destruct tag; [done|]; len_lia).
  by rewrite slice_app.
Qed.

Lemma extract_hash_tag_ok {E} key : exists tag, @extract_hash_tag E key = Ok tag.
Proof.
  destruct (memchr "{" key) as [open|] eqn:Ho.
  2: { exists key. unfold extract_hash_tag. by rewrite Ho. }
  apply memchr_Some in Ho as (pre & tail & -> & Hpre & ->).
  destruct (memchr "}" tail) as [close|] eqn:Hc.
  - apply memchr_Some in Hc as (tag & post & -> & Htag & ->).
    destruct (decide (tag = [])) as [->|]; [|exists tag; by apply extract_tag].
    eexists. apply extract_no_tag. intros pre' tag' post' He Hp' Ht'.
    apply (f_equal (memchr "{")) in He as Hm. rewrite !memchr_app in Hm by done.
    simplify_eq. apply app_inj_1 in He as [_ He]; [|unfold len in *; lia].
    destruct tag' as [|c tag']; [done|]. simplify_eq/=. set_solver.
  - exists (pre ++ "{"%byte :: tail). apply extract_no_tag.
    intros pre' tag' post' He Hp' Ht'.
    apply (f_equal (memchr "{")) in He as Hm. rewrite !memchr_app in Hm by done.
    simplify_eq. apply app_inj_1 in He as [_ He]; [|unfold len in *; lia].
    simplify_eq. apply memchr_None in Hc. set_solver.
Qed.

(** Every key has a slot below 16384, the checksum of its hash tag modulo
    the slot count; no key makes the code panic. *)
Theorem hash_slot_total {E} key :
  exists tag, @extract_hash_tag E key = Ok tag /\
    @hash_slot E key = Ok (crc_reference tag mod SLOT_COUNT) /\
    0 <= crc_reference tag mod SLOT_COUNT < SLOT_COUNT.
Proof.
  destruct (@extract_hash_tag_ok E key) as [tag Ht]. exists tag. split; [done|].
  unfold hash_slot. rewrite Ht. cbn [bind]. rewrite crc16_eq. split; [done|].
  apply Z.mod_pos_bound. done.
Qed.

(** C21: Keys that share a hash tag live in the slot of the tag, whatever
    surrounds it; an empty tag or a missing brace hashes the whole key. *)
Theorem hash_tag_colocates {E} pre tag post :
  ("{"%byte ∉ pre) -> ("}"%byte ∉ tag) ->
  @hash_slot E (pre ++ "{"%byte :: tag ++ "}"%byte :: post) =
  if bool_decide (tag = [])
  then Ok (crc_reference (pre ++ "{"%byte :: tag ++ "}"%byte :: post) mod SLOT_COUNT)
  else @hash_slot E tag.
Proof.
  intros Hpre Htag. unfold hash_slot at 1. case_bool_decide as Hd.
  - subst tag. unfold extract_hash_tag. rewrite memchr_app by done.
    replace (pre ++ "{"%byte :: [] ++ "}"%byte :: post) with
      ((pre ++ ["{"%byte]) ++ "}"%byte :: post) by (by rewrite <- app_assoc).
    replace (len pre + 1) with (len (pre ++ ["{"%byte])) by len_lia.
    rewrite slice_from_app. cbn [bind memchr]. rewrite decide_True by done.
    cbn [Z.ltb Z.compare bind]. by rewrite crc16_eq.
  - rewrite extract_tag by done. unfold hash_slot.
    rewrite (extract_no_tag tag); [done|]. intros pre' tag' post' -> _ _. set_solver.
Qed.

Lemma hash_tag_colocates_witness :
  @hash_slot Empty_set (bs "{user1000}.following") = hash_slot (bs "user1000").
Proof.
  apply (hash_tag_colocates [] (bs "user1000") (bs ".following"));
    by apply memchr_None.
Defined.
