(* ===== verification/Python.v ===== *)
(** The CPython runtime as the code uses it through PyO3: the objects a reply
    is turned into and the operations that build them. The runtime is not part
    of the crate, so it is an interface; [cpython] below is a small runtime of
    plain values, for evaluating examples. *)

From Stdlib Require Import Strings.Byte.
From S2P Require Import Prelude RustStd Utf8 Float64 Error.

(** Dictionaries and sets are built before anyone else can see them, so their
    construction threads a value. [dict_set_item] and [set_add] fail on
    unhashable objects, [py_int_parse] (the call [int(s)]) on text that is not a
    number; the two FFI allocations fail when memory is exhausted. *)
Class PyRuntime := {
  PyObj : Type;
  PyDict : Type;
  PySet : Type;
  py_none : PyObj;
  py_bool : bool -> PyObj;
  py_int : Z -> PyObj;
  py_float : f64 -> PyObj;
  py_str : bytes -> PyObj;
  py_bytes : bytes -> PyObj;
  py_list : list PyObj -> PyObj;
  py_dict : PyDict -> PyObj;
  py_set : PySet -> PyObj;
  dict_new : PyDict;
  dict_set_item : PyDict -> PyObj -> PyObj -> PyResult PyDict;
  set_empty : PyResult PySet;
  set_add : PySet -> PyObj -> PyResult PySet;
  py_int_parse : bytes -> PyResult PyObj;
  PyLong_FromLongLong : Z -> PyResult PyObj;
  PyList_New : Z -> PyResult unit
}.

(** [PyAny::extract]: a Python object as a Rust value, or the exception raised
    when it has another type. *)
Class PyExtract `{PyRuntime} := {
  extract_string : PyObj -> PyResult bytes;
  extract_f64 : PyObj -> PyResult f64
}.

(** The FFI allocations succeed; a fresh integer is that integer. *)
Class MemoryAvailable `{PyRuntime} : Prop := {
  long_ok n : PyLong_FromLongLong n = Ok (py_int n);
  list_new_ok n : PyList_New n = Ok tt
}.

(** * A runtime of plain values *)

Inductive pyval :=
| VNone
| VBool (b : bool)
| VInt (z : Z)
| VFloat (f : f64)
| VStr (s : bytes)
| VBytes (s : bytes)
| VList (l : list pyval)
| VDict (l : list (pyval * pyval))
| VSet (l : list pyval).

(** Equality of hashable values. *)
Definition key_eqb (x y : pyval) : bool :=
  match x, y with
  | VNone, VNone => true
  | VBool b, VBool c => Bool.eqb b c
  | VInt a, VInt b => a =? b
  | VStr s, VStr t | VBytes s, VBytes t => bool_decide (s = t)
  | _, _ => false
  end.

Definition unhashable (x : pyval) : bool :=
  match x with VList _ | VDict _ | VSet _ => true | _ => false end.

Definition unhashable_err : PyErr := PyRuntimeExc (bs "TypeError") (bs "unhashable type").

Fixpoint assoc_set (d : list (pyval * pyval)) (k v : pyval) : list (pyval * pyval) :=
  match d with
  | [] => [(k, v)]
  | (k', v') :: d => if key_eqb k k' then (k', v) :: d else (k', v') :: assoc_set d k v
  end.

Definition cpython : PyRuntime := {|
  PyObj := pyval;
  PyDict := list (pyval * pyval);
  PySet := list pyval;
  py_none := VNone;
  py_bool := VBool;
  py_int := VInt;
  py_float := VFloat;
  py_str := VStr;
  py_bytes := VBytes;
  py_list := VList;
  py_dict := VDict;
  py_set := VSet;
  dict_new := [];
  dict_set_item d k v := if unhashable k then Err unhashable_err else Ok (assoc_set d k v);
  set_empty := Ok [];
  set_add s x :=
    if unhashable x then Err unhashable_err
    else Ok (if existsb (key_eqb x) s then s else s ++ [x]);
  py_int_parse s :=
    match s with
    | "-"%byte :: t => Ok (VInt (- dec_value t))
    | "+"%byte :: t => Ok (VInt (dec_value t))
    | _ => Ok (VInt (dec_value s))
    end;
  PyLong_FromLongLong z := Ok (VInt z);
  PyList_New _ := Ok tt
|}.

Lemma cpython_memory : MemoryAvailable (H := cpython).
Proof. by split. Qed.

Definition wrong_type : PyErr := PyRuntimeExc (bs "TypeError") (bs "wrong type").

Definition cpython_extract : PyExtract (H := cpython) :=
  Build_PyExtract cpython
    (fun x => match x with VStr s => Ok s | _ => Err wrong_type end)
    (fun x => match x with
              | VFloat f => Ok f
              | VInt z => Ok (f64_of_i64 z)
              | _ => Err wrong_type
              end).
