(* ===== verification/Response.v ===== *)
(** src/response.rs: the conversion of replies to Python objects, in two
    passes ([resp_to_python] on a parsed value) and in one ([parse_to_python],
    the fused parser of the raw bytes). *)

From Stdlib Require Import Strings.Byte.
From S2P Require Import Prelude RustStd Utf8 RustStr Float64 Error Types Parser Python.

Definition MAX_RESP_ELEMENTS : Z := 16777216.
Definition MAX_PARSE_DEPTH : Z := 512.
Definition MAX_BIGNUMBER_LEN : Z := 10000.

(** [?] in a function returning [PyResult], on a crate error. *)
Definition into_py {A} (r : Result A) : PyResult A := map_err to_pyerr r.
Definition py_protocol {A} (msg : bytes) : PyResult A := Err (to_pyerr (Protocol msg)).

Section convert.
Context `{PyRuntime}.

(** * Two passes: converting a parsed value *)

(** The body of the dictionary loops. *)
Definition set_converted (conv : RespValue -> PyResult PyObj) (dict : PyDict)
    (kv : RespValue * RespValue) : PyResult PyDict :=
  let '(k, v) := kv in
  let? py_key := conv k in
  let? py_val := conv v in
  dict_set_item dict py_key py_val.

(** The body of the set loops. *)
Definition add_converted (conv : RespValue -> PyResult PyObj) (set : PySet)
    (item : RespValue) : PyResult PySet :=
  let? py_item := conv item in
  set_add set py_item.

(** The dictionary of an attribute, from its data and its attributes. *)
Definition attribute_dict (data : PyResult PyObj) (attrs : PyResult PyDict) : PyResult PyObj :=
  let? py_data := data in
  let? dict := dict_set_item dict_new (py_str (bs "__data__")) py_data in
  let? attrs_dict := attrs in
  let? dict := dict_set_item dict (py_str (bs "__attrs__")) (py_dict attrs_dict) in
  Ok (py_dict dict).

Fixpoint resp_to_python (value : RespValue) : PyResult PyObj :=
  match value with
  | SimpleString s => Ok (py_str s)
  | BulkString b => Ok (py_bytes b)
  | Integer i => Ok (py_int i)
  | Null => Ok py_none
  | Array items => let? py_items := mapM resp_to_python items in Ok (py_list py_items)
  | Error msg => Err (to_pyerr (redis msg))
  | BulkError msg => Err (to_pyerr (redis msg))
  | Boolean b => Ok (py_bool b)
  | Double f => Ok (py_float f)
  | BigNumber s => py_int_parse s
  | Map pairs =>
      let? dict := foldM (set_converted resp_to_python) pairs dict_new in Ok (py_dict dict)
  | Set_ items =>
      let? set := set_empty in
      let? set := foldM (add_converted resp_to_python) items set in Ok (py_set set)
  | VerbatimString _ data => Ok (py_str data)
  | Push _ data => let? py_items := mapM resp_to_python data in Ok (py_list py_items)
  | Attribute data attributes =>
      attribute_dict (resp_to_python data)
        (foldM (set_converted resp_to_python) attributes dict_new)
  end.

Fixpoint resp_to_python_decoded (value : RespValue) : PyResult PyObj :=
  match value with
  | BulkString b =>
      match from_utf8 b with
      | Ok s => Ok (py_str s)
      | _ => Ok (py_bytes b)
      end
  | Array items =>
      let? py_items := mapM resp_to_python_decoded items in Ok (py_list py_items)
  | Map pairs =>
      let? dict := foldM (set_converted resp_to_python_decoded) pairs dict_new in
      Ok (py_dict dict)
  | Set_ items =>
      let? set := set_empty in
      let? set := foldM (add_converted resp_to_python_decoded) items set in Ok (py_set set)
  | Push _ data =>
      let? py_items := mapM resp_to_python_decoded data in Ok (py_list py_items)
  | Attribute data attributes =>
      attribute_dict (resp_to_python_decoded data)
        (foldM (set_converted resp_to_python_decoded) attributes dict_new)
  | other => resp_to_python other
  end.
End convert.

(** * Reading values without Python *)

Definition resp_to_bytes (value : RespValue) : option bytes :=
  match value with
  | BulkString b => Some b
  | SimpleString s => Some s
  | VerbatimString _ data => Some data
  | _ => None
  end.

Definition resp_to_string (value : RespValue) : option bytes :=
  match value with
  | SimpleString s => Some s
  | BulkString b => match from_utf8 b with Ok s => Some s | _ => None end
  | VerbatimString _ data => Some data
  | _ => None
  end.

Definition resp_to_i64 (value : RespValue) : option Z :=
  match value with
  | Integer i => Some i
  | SimpleString s | BigNumber s => parse_i64 s
  | BulkString b => match from_utf8 b with Ok s => parse_i64 s | _ => None end
  | _ => None
  end.

Definition resp_to_bool (value : RespValue) : option bool :=
  match value with
  | Boolean b => Some b
  | Integer i => Some (negb (i =? 0))
  | SimpleString s =>
      if bool_decide (s ∈ [bs "OK"; bs "ok"; bs "1"; bs "true"; bs "TRUE"]) then Some true
      else if bool_decide (s ∈ [bs "0"; bs "false"; bs "FALSE"]) then Some false
      else None
  | _ => None
  end.

Definition is_ok_response (value : RespValue) : bool :=
  match value with SimpleString s => bool_decide (s = bs "OK") | _ => false end.

(** * The fused parser *)

(** The scan of short lines, at position [i]. *)
Fixpoint scan_cr (search : bytes) (i : Z) : option Z :=
  match search with
  | [] => None
  | b :: search => if decide (b = CR) then Some i else scan_cr search (i + 1)
  end.

Definition fused_find_crlf (buf : bytes) (offset : Z) : Result Z :=
  let? search := slice_from buf offset in
  let cr_pos := if len search <=? 32 then scan_cr search 0 else memchr CR search in
  match cr_pos with
  | Some pos =>
      let abs := offset + pos in
      let? lf := if abs + 1 <? len buf
                 then let? b := index buf (abs + 1) in Ok (bool_decide (b = LF))
                 else Ok false in
      if (lf : bool) then Ok abs
      else if len buf <=? abs + 1 then Err Incomplete
      else Err (Protocol (bs "expected \n after \r"))
  | None => Err Incomplete
  end.

Definition fused_read_line (buf : bytes) (offset : Z) : Result (bytes * Z) :=
  let? cr := fused_find_crlf buf offset in
  let? line := slice buf offset cr in
  Ok (line, cr + 2).

(** [i64] arithmetic that wraps around. *)
Definition wrap_i64 (z : Z) : Z := (z + 2 ^ 63) mod 2 ^ 64 - 2 ^ 63.

(** [b.wrapping_sub(b'0')] on a [u8]. *)
Definition digit_of (b : byte) : Z := (u8 b - 48) mod 256.

Definition digits_check (digits : bytes) : Z :=
  fold_left (fun check b => Z.lor check (digit_of b)) digits 0.

(** The search for the byte of the error message. *)
Fixpoint find_non_digit (digits : bytes) : option byte :=
  match digits with
  | [] => None
  | b :: digits =>
      if (u8 b <? 48) || (57 <? u8 b) then Some b else find_non_digit digits
  end.

Definition wrapping_value (digits : bytes) : Z :=
  fold_left (fun n b => wrap_i64 (wrap_i64 (n * 10) + digit_of b)) digits 0.

Definition validated_count (count : Z) : PyResult Z :=
  if count <? 0 then py_protocol (bs "negative element count")
  else if MAX_RESP_ELEMENTS <? count
  then py_protocol (bs "element count " ++ to_string count ++ bs " exceeds maximum " ++
         to_string MAX_RESP_ELEMENTS)
  else Ok count.

Section fused.
Context `{Target} `{PyRuntime}.

(** The part of [fused_parse_int] after the sign. *)
Definition fused_digits (negative : bool) (digits : bytes) : Result Z :=
  match digits with
  | [] => Err (Protocol (bs "integer has no digits"))
  | _ =>
      match (if 9 <? digits_check digits then find_non_digit digits else None) with
      | Some b => Err (Protocol (bs "invalid byte in integer: 0x" ++ hex02 b))
      | None =>
          let n := wrapping_value digits in
          if negative then i64_neg n else Ok n
      end
  end.

Definition fused_parse_int (b : bytes) : Result Z :=
  match b with
  | [] => Err (Protocol (bs "empty integer"))
  | b0 :: t =>
      if decide (b0 = "-"%byte) then fused_digits true t
      else if decide (b0 = "+"%byte) then fused_digits false t
      else fused_digits false b
  end.

(** [fused_read_line] then [fused_parse_int]: the header of most types. *)
Definition fused_header (buf : bytes) (pos : Z) : PyResult (Z * Z) :=
  let? (line, next) := into_py (fused_read_line buf (pos + 1)) in
  let? n := into_py (fused_parse_int line) in
  Ok (n, next).

(** The [n] bytes of a length-prefixed type and the position after them. *)
Definition fused_bulk (buf : bytes) (next n : Z) : PyResult (bytes * Z) :=
  let? end_ := usize_add next n in
  let? total := usize_add end_ 2 in
  if len buf <? total then Err (to_pyerr Incomplete) else
  let? data := slice buf next end_ in
  Ok (data, total).

Definition fused_utf8 (what : string) (s : bytes) : PyResult bytes :=
  into_py (utf8_or what s).

(** ** Lists through the FFI *)

(** A list under construction: [PyList_New] leaves its slots empty. A slot
    keeps every reference ever stored in it, the current one first:
    [PyList_SET_ITEM] takes a reference over and does not release the one it
    replaces, so a slot stored twice leaks an object. *)
Abbreviation Slots := (list (list PyObj)).
Definition PyList_SET_ITEM (slots : Slots) (i : nat) (item : PyObj) : Slots :=
  alter (cons item) i slots.

(** The clean-up after an error at slot [i]: it and the remaining slots are
    filled with [None] before the list is released. *)
Definition fill_none (slots : Slots) (i count : nat) : Slots :=
  fold_left (fun slots j => PyList_SET_ITEM slots j py_none) (seq i (count - i)) slots.

Section recursive.
Context (parse_inner : bytes -> Z -> PyResult (PyObj * Z)).

(** The filling loop from slot [i]: the slots at the end and the outcome. *)
Fixpoint fill_slots (buf : bytes) (fuel : nat) (pos : Z) (i count : nat) (slots : Slots)
    : Slots * PyResult Z :=
  if (count <=? i)%nat then (slots, Ok pos) else
  match fuel with
  | O => (slots, Panic RecursionLimit)
  | Datatypes.S fuel =>
      match parse_inner buf pos with
      | Ok (item, end_) =>
          fill_slots buf fuel end_ (Datatypes.S i) count (PyList_SET_ITEM slots i item)
      | Err e => (fill_none slots i count, Err e)
      | Panic p => (slots, Panic p)
      end
  end.

Definition build_pylist_ffi (buf : bytes) (pos count : Z) : PyResult (PyObj * Z) :=
  let? _ := PyList_New count in
  let n := Z.to_nat count in
  let '(slots, r) := fill_slots buf (loop_fuel buf) pos 0 n (repeat [] n) in
  let? pos := r in
  Ok (py_list (omap head slots), pos).

(** ** The arms of [parse_inner] *)

(** One iteration of the dictionary loops. *)
Definition insert_parsed (buf : bytes) (st : PyDict * Z) : PyResult (PyDict * Z) :=
  let '(dict, next) := st in
  let? (key, next) := parse_inner buf next in
  let? (val, next) := parse_inner buf next in
  let? dict := dict_set_item dict key val in
  Ok (dict, next).

(** One iteration of the set loop. *)
Definition add_parsed (buf : bytes) (st : PySet * Z) : PyResult (PySet * Z) :=
  let '(set, next) := st in
  let? (item, next) := parse_inner buf next in
  let? set := set_add set item in
  Ok (set, next).

Definition fused_simple (buf : bytes) (pos : Z) : PyResult (PyObj * Z) :=
  let? (line, next) := into_py (fused_read_line buf (pos + 1)) in
  let? s := fused_utf8 "invalid UTF-8" line in
  Ok (py_str s, next).

Definition fused_error (buf : bytes) (pos : Z) : PyResult (PyObj * Z) :=
  let? (line, _) := into_py (fused_read_line buf (pos + 1)) in
  Err (to_pyerr (redis (from_utf8_lossy line))).

Definition fused_integer (buf : bytes) (pos : Z) : PyResult (PyObj * Z) :=
  let? (n, next) := fused_header buf pos in
  let? obj := PyLong_FromLongLong n in
  Ok (obj, next).

Definition fused_bulk_string (decode : bool) (buf : bytes) (pos : Z) : PyResult (PyObj * Z) :=
  let? (n, next) := fused_header buf pos in
  if n <? 0 then Ok (py_none, next) else
  let? (data, total) := fused_bulk buf next n in
  if decode then
    match from_utf8 data with
    | Ok s => Ok (py_str s, total)
    | _ => Ok (py_bytes data, total)
    end
  else Ok (py_bytes data, total).

Definition fused_array (buf : bytes) (pos : Z) : PyResult (PyObj * Z) :=
  let? (count, next) := fused_header buf pos in
  if count <? 0 then Ok (py_none, next) else
  let? count := validated_count count in
  build_pylist_ffi buf next count.

Definition fused_null (buf : bytes) (pos : Z) : PyResult (PyObj * Z) :=
  if len buf <? pos + 3 then Err (to_pyerr Incomplete) else Ok (py_none, pos + 3).

Definition fused_boolean (buf : bytes) (pos : Z) : PyResult (PyObj * Z) :=
  if len buf <? pos + 4 then Err (to_pyerr Incomplete) else
  let? b1 := index buf (pos + 1) in
  Ok (py_bool (bool_decide (b1 = "t"%byte)), pos + 4).

Definition fused_double (buf : bytes) (pos : Z) : PyResult (PyObj * Z) :=
  let? (line, next) := into_py (fused_read_line buf (pos + 1)) in
  let? s := fused_utf8 "invalid UTF-8 in double" line in
  let? f := into_py
    (map_err (fun e => Protocol (bs "invalid double: " ++ show_parse_float_error e))
       (parse_f64 s)) in
  Ok (py_float f, next).

Definition fused_big_number (buf : bytes) (pos : Z) : PyResult (PyObj * Z) :=
  let? (line, next) := into_py (fused_read_line buf (pos + 1)) in
  if MAX_BIGNUMBER_LEN <? len line
  then py_protocol (bs "BigNumber length " ++ to_string (len line) ++
         bs " exceeds maximum " ++ to_string MAX_BIGNUMBER_LEN)
  else
  let? s := fused_utf8 "invalid UTF-8 in big number" line in
  let? obj := py_int_parse s in
  Ok (obj, next).

Definition fused_bulk_error (buf : bytes) (pos : Z) : PyResult (PyObj * Z) :=
  let? (n, next) := fused_header buf pos in
  if n <? 0 then py_protocol (bs "negative bulk error length") else
  let? (data, _) := fused_bulk buf next n in
  Err (to_pyerr (redis (from_utf8_lossy data))).

Definition fused_verbatim (buf : bytes) (pos : Z) : PyResult (PyObj * Z) :=
  let? (n, next) := fused_header buf pos in
  if n <? 0 then py_protocol (bs "negative verbatim string length") else
  let? (data, total) := fused_bulk buf next n in
  let? prefixed := if 4 <? len data
                   then let? b3 := index data 3 in Ok (bool_decide (b3 = ":"%byte))
                   else Ok false in
  let? text := if (prefixed : bool) then slice_from data 4 else Ok data in
  let? s := fused_utf8 "invalid UTF-8" text in
  Ok (py_str s, total).

Definition fused_map (buf : bytes) (pos : Z) : PyResult (PyObj * Z) :=
  let? (count, next) := fused_header buf pos in
  let? count := validated_count count in
  let? (dict, next) := for_count (insert_parsed buf) (loop_fuel buf) count (dict_new, next) in
  Ok (py_dict dict, next).

Definition fused_set (buf : bytes) (pos : Z) : PyResult (PyObj * Z) :=
  let? (count, next) := fused_header buf pos in
  let? count := validated_count count in
  let? set := set_empty in
  let? (set, next) := for_count (add_parsed buf) (loop_fuel buf) count (set, next) in
  Ok (py_set set, next).

Definition fused_push (buf : bytes) (pos : Z) : PyResult (PyObj * Z) :=
  let? (count, next) := fused_header buf pos in
  let? count := validated_count count in
  build_pylist_ffi buf next count.

Definition fused_attribute (buf : bytes) (pos : Z) : PyResult (PyObj * Z) :=
  let? (count, next) := fused_header buf pos in
  let? count := validated_count count in
  let? (attrs_dict, next) :=
    for_count (insert_parsed buf) (loop_fuel buf) count (dict_new, next) in
  let? (data, next) := parse_inner buf next in
  let? dict := dict_set_item dict_new (py_str (bs "__attrs__")) (py_dict attrs_dict) in
  let? dict := dict_set_item dict (py_str (bs "__data__")) data in
  Ok (py_dict dict, next).

(** The dispatch on the type byte. *)
Definition fused_dispatch (decode : bool) (buf : bytes) (pos : Z) : PyResult (PyObj * Z) :=
  if len buf <=? pos then Err (to_pyerr Incomplete) else
  let? b := index buf pos in
  if decide (b = "+"%byte) then fused_simple buf pos
  else if decide (b = "-"%byte) then fused_error buf pos
  else if decide (b = ":"%byte) then fused_integer buf pos
  else if decide (b = "$"%byte) then fused_bulk_string decode buf pos
  else if decide (b = "*"%byte) then fused_array buf pos
  else if decide (b = "_"%byte) then fused_null buf pos
  else if decide (b = "#"%byte) then fused_boolean buf pos
  else if decide (b = ","%byte) then fused_double buf pos
  else if decide (b = "("%byte) then fused_big_number buf pos
  else if decide (b = "!"%byte) then fused_bulk_error buf pos
  else if decide (b = "="%byte) then fused_verbatim buf pos
  else if decide (b = "%"%byte) then fused_map buf pos
  else if decide (b = "~"%byte) then fused_set buf pos
  else if decide (b = ">"%byte) then fused_push buf pos
  else if decide (b = "|"%byte) then fused_attribute buf pos
  else into_py (unknown_type b).
End recursive.

(** The depth test bounds the recursion, so a fuel of [MAX_PARSE_DEPTH + 2]
    calls is never exhausted. *)
Fixpoint parse_inner (fuel : nat) (decode : bool) (depth : Z) (buf : bytes) (pos : Z)
    : PyResult (PyObj * Z) :=
  match fuel with
  | O => Panic RecursionLimit
  | Datatypes.S fuel =>
      if MAX_PARSE_DEPTH <? depth
      then py_protocol (bs "RESP nesting depth exceeds maximum of " ++
             to_string MAX_PARSE_DEPTH)
      else fused_dispatch (parse_inner fuel decode (depth + 1)) decode buf pos
  end.

Definition parse_to_python (buf : bytes) (decode : bool) : PyResult (PyObj * Z) :=
  if bool_decide (buf = []) then Err (to_pyerr Incomplete)
  else parse_inner (Z.to_nat (MAX_PARSE_DEPTH + 2)) decode 0 buf 0.
End fused.

Example fused_example :
  parse_to_python (H := release64) (H0 := cpython)
    (crlf_lines ["%2"; "$1"; "a"; "*2"; ":1"; "_"; "+b"; ",inf"]) true =
  Ok (VDict [(VStr (bs "a"), VList [VInt 1; VNone]);
             (VStr (bs "b"), VFloat f64_INFINITY)], 32).
Proof. vm_compute. reflexivity. Qed.

Example fused_error_example :
  parse_to_python (H := release64) (H0 := cpython)
    (crlf_lines ["*2"; ":1"; "-ERR no"]) true =
  Err (to_pyerr (redis (bs "ERR no"))).
Proof. vm_compute. reflexivity. Qed.
