(* ===== verification/ResponseProps.v ===== *)
(** Theorems about src/response.rs: the fused parser agrees with parsing then
    converting, never panics, bounds its recursion, and hands every list it
    builds to Python with all of its slots filled. *)

From Stdlib Require Import Strings.Byte.
From S2P Require Import Prelude RustStd Utf8 RustStr Float64 Error Types Parser ParserFacts.
From S2P Require Import ParserProps Wire Python Response.

(** * Lines *)

Lemma scan_cr_memchr s i : scan_cr s i = (fun p => i + p) <$> memchr CR s.
Proof.
  revert i. induction s as [|b s IH]; intros i; simpl; [done|].
  case_decide; [simpl; f_equal; lia|]. rewrite IH. destruct (memchr CR s); simpl; [|done].
  f_equal. lia.
Qed.

(** The fused reader of lines is the reader of the parser. *)
Lemma fused_read_line_eq buf off : fused_read_line buf off = read_line buf off.
Proof.
  unfold fused_read_line, read_line. f_equal. unfold fused_find_crlf, find_crlf.
  destruct (slice_from buf off) as [search| |]; [|done..]. cbn [bind].
  replace (if len search <=? 32 then scan_cr search 0 else memchr CR search)
    with (memchr CR search).
  2: { destruct (_ <=? _); [|done]. rewrite scan_cr_memchr. by destruct (memchr CR search). }
  destruct (memchr CR search) as [pos|]; [|done].
  destruct (Z.ltb_spec (off + pos + 1) (len buf)).
  - destruct (index buf (off + pos + 1)); [|done..]. cbn [bind].
    case_bool_decide; [done|]. by rewrite (proj2 (Z.leb_gt _ _)) by lia.
  - cbn [bind]. by rewrite (proj2 (Z.leb_le _ _)) by lia.
Qed.

(** * Integers *)

Lemma wrap_i64_mod z : wrap_i64 z mod 2 ^ 64 = z mod 2 ^ 64.
Proof.
  unfold wrap_i64. rewrite Zminus_mod_idemp_l. f_equal. lia.
Qed.

Lemma wrap_i64_eq a b : a mod 2 ^ 64 = b mod 2 ^ 64 -> wrap_i64 a = wrap_i64 b.
Proof.
  intros He. unfold wrap_i64. f_equal.
  rewrite <- (Zplus_mod_idemp_l a), <- (Zplus_mod_idemp_l b). by rewrite He.
Qed.

Lemma wrap_i64_small z : I64_MIN <= z <= I64_MAX -> wrap_i64 z = z.
Proof.
  intros Hz. unfold wrap_i64, I64_MIN, I64_MAX in *. rewrite Z.mod_small; lia.
Qed.

Lemma digit_of_digit b : is_ascii_digit b = true -> digit_of b = u8 b - 48.
Proof.
  unfold is_ascii_digit, digit_of. intros [?%Z.leb_le ?%Z.leb_le]%andb_true_iff.
  apply Z.mod_small. lia.
Qed.

(** The wrapping accumulation computes the number modulo [2^64]. *)
Lemma wrapping_value_eq ds :
  all_digits ds = true -> wrapping_value ds = wrap_i64 (dec_value ds).
Proof.
  intros Hd. apply all_digits_Forall in Hd. unfold wrapping_value, dec_value.
  assert (forall n m, n = wrap_i64 m ->
    fold_left (fun n b => wrap_i64 (wrap_i64 (n * 10) + digit_of b)) ds n =
    wrap_i64 (fold_left (fun n b => n * 10 + (u8 b - 48)) ds m)) as Hgen;
    [|by apply Hgen].
  induction Hd as [|b ds Hb Hd IH]; intros n m ->; [done|]. cbn [fold_left].
  apply IH. rewrite digit_of_digit by done. apply wrap_i64_eq.
  rewrite Z.add_mod, wrap_i64_mod, <- Z.add_mod by done.
  rewrite Z.add_mod, Z.mul_mod, wrap_i64_mod, <- Z.mul_mod, <- Z.add_mod by done. done.
Qed.

Lemma find_non_digit_None ds : find_non_digit ds = None <-> all_digits ds = true.
Proof.
  rewrite all_digits_Forall. induction ds as [|b ds IH]; simpl.
  - split; [constructor|done].
  - rewrite Forall_cons, <- IH. unfold is_ascii_digit.
    destruct (Z.ltb_spec (u8 b) 48), (Z.ltb_spec 57 (u8 b)), (Z.leb_spec 48 (u8 b)),
      (Z.leb_spec (u8 b) 57); simpl; try lia; naive_solver.
Qed.

Lemma lor_ge a b : 0 <= a -> b <= Z.lor a b.
Proof.
  intros Ha. pose proof (Z.add_lor_land (Z.ldiff a b) b) as Hs.
  assert (Z.land (Z.ldiff a b) b = 0) as H0.
  { apply Z.bits_inj'. intros n _. rewrite Z.land_spec, Z.ldiff_spec, Z.bits_0.
    by destruct (Z.testbit a n), (Z.testbit b n). }
  assert (Z.lor (Z.ldiff a b) b = Z.lor a b) as Hl.
  { apply Z.bits_inj'. intros n _. rewrite !Z.lor_spec, Z.ldiff_spec.
    by destruct (Z.testbit a n), (Z.testbit b n). }
  assert (0 <= Z.ldiff a b) by (apply Z.ldiff_nonneg; auto). lia.
Qed.

(** The branchless test lets every non-digit through to the search. *)
Lemma digits_check_mono ds check :
  0 <= check -> check <= fold_left (fun check b => Z.lor check (digit_of b)) ds check.
Proof.
  revert check. induction ds as [|b ds IH]; intros check Hc; simpl; [lia|].
  assert (0 <= digit_of b) by (apply Z.mod_pos_bound; lia).
  etrans; [|apply IH; by apply Z.lor_nonneg]. rewrite Z.lor_comm. by apply lor_ge.
Qed.

Lemma digits_check_found ds b :
  find_non_digit ds = Some b -> 9 < digits_check ds.
Proof.
  unfold digits_check. assert (0 <= 0) as H0 by lia. revert H0. generalize 0 at 2 3.
  induction ds as [|c ds IH]; intros check Hc Hf; simpl in *; [done|].
  assert (0 <= digit_of c) by (apply Z.mod_pos_bound; lia).
  assert (0 <= Z.lor check (digit_of c)) by (by apply Z.lor_nonneg).
  destruct ((u8 c <? 48) || (57 <? u8 c)) eqn:Ht; [|by apply IH].
  eapply Z.lt_le_trans; [|by apply digits_check_mono].
  eapply Z.lt_le_trans; [|by apply lor_ge]. unfold digit_of. pose proof (u8_range c).
  destruct (Z.ltb_spec (u8 c) 48); simpl in Ht.
  - rewrite <- (Z_mod_plus_full _ 1), Z.mod_small; lia.
  - apply Z.ltb_lt in Ht. rewrite Z.mod_small; lia.
Qed.

Section fused_int.
Context `{Target} (Hrelease : overflow_checks = false).

(** Negation that wraps around. *)
Lemma i64_neg_wrap {E} z :
  @i64_neg _ E (wrap_i64 z) = Ok (wrap_i64 (- z)).
Proof using Hrelease.
  unfold i64_neg. destruct (Z.eqb_spec (wrap_i64 z) I64_MIN) as [He|Hne].
  - rewrite Hrelease. f_equal. unfold wrap_i64, I64_MIN in *.
    assert (z mod 2 ^ 64 = 2 ^ 63) as Hz.
    { rewrite <- wrap_i64_mod. unfold wrap_i64. rewrite He. reflexivity. }
    rewrite <- Zplus_mod_idemp_l, Z.mod_opp_l_nz, Hz by (rewrite ?Hz; done). done.
  - f_equal. rewrite <- (wrap_i64_small (- wrap_i64 z)).
    + apply wrap_i64_eq. rewrite <- (Z.mul_1_l (- wrap_i64 z)), <- Z.mul_opp_comm.
      rewrite Z.mul_mod, wrap_i64_mod, <- Z.mul_mod by done. by f_equal; lia.
    + unfold wrap_i64, I64_MIN, I64_MAX in *.
      pose proof (Z.mod_pos_bound (z + 2 ^ 63) (2 ^ 64) ltac:(lia)). lia.
Qed.

Lemma fused_digits_spec neg ds :
  fused_digits neg ds =
  match ds with
  | [] => Err (Protocol (bs "integer has no digits"))
  | _ =>
      match find_non_digit ds with
      | Some b => Err (Protocol (bs "invalid byte in integer: 0x" ++ hex02 b))
      | None => Ok (wrap_i64 (if neg then - dec_value ds else dec_value ds))
      end
  end.
Proof using Hrelease.
  unfold fused_digits. destruct ds as [|d ds]; [done|].
  destruct (find_non_digit (d :: ds)) as [b|] eqn:Hf.
  - apply digits_check_found in Hf as Hc. by rewrite (proj2 (Z.ltb_lt _ _) Hc).
  - assert ((if 9 <? digits_check (d :: ds) then None else None) = @None byte) as ->
      by (by destruct (_ <? _)).
    apply find_non_digit_None in Hf. rewrite wrapping_value_eq by done.
    destruct neg; [apply i64_neg_wrap|done].
Qed.

(** On every text of an [i64] the fused integer parser gives that integer. *)
Lemma fused_int_text i txt : machine_int i txt -> fused_parse_int txt = Ok i.
Proof using Hrelease.
  assert (forall neg ds, ds <> [] -> all_digits ds = true ->
    fused_digits neg ds = Ok (wrap_i64 (if neg then - dec_value ds else dec_value ds))) as Hds.
  { intros neg ds Hne Hd. rewrite fused_digits_spec. destruct ds; [done|].
    by rewrite (proj2 (find_non_digit_None _) Hd). }
  assert (forall sign ds, (sign = [] \/ sign = ["+"%byte]) -> ds <> [] ->
    all_digits ds = true -> fused_parse_int (sign ++ ds) = Ok (wrap_i64 (dec_value ds))) as Hs.
  { intros sign ds [-> | ->] Hne Hd; [|by rewrite <- (Hds false)].
    destruct ds as [|d ds]; [done|]. simpl app. unfold fused_parse_int.
    rewrite !decide_False by (eapply all_digits_head; [exact Hd|done]). by apply (Hds false). }
  intros Hi. pose proof (machine_int_range i txt Hi) as Hr.
  destruct Hi as [Hi|(_ & -> & [sign ds Hsg Hne Hd Hm])];
    [destruct Hi as [sign ds Hsg Hne Hd Hm|ds Hne Hd Hm]|].
  - rewrite Hs, wrap_i64_small by done. done.
  - change (fused_digits true ds = Ok (- dec_value ds)). rewrite Hds by done.
    by rewrite wrap_i64_small.
  - rewrite Hs by done. by rewrite Hm.
Qed.
End fused_int.

(** * The fused parser against parsing then converting *)

(** The values both passes turn into the same object: not a push message nor
    an attribute (whose dictionaries the two routines build differently), no
    empty verbatim string, and within the limits of the fused parser. *)
Fixpoint fused_ok (v : RespValue) : bool :=
  match v with
  | Array vs | Set_ vs => (len vs <=? MAX_RESP_ELEMENTS) && forallb fused_ok vs
  | Map kvs =>
      (len kvs <=? MAX_RESP_ELEMENTS) &&
      forallb (fun kv => let '(k, v) := kv in fused_ok k && fused_ok v) kvs
  | VerbatimString _ d => negb (bool_decide (d = []))
  | BigNumber s => len s <=? MAX_BIGNUMBER_LEN
  | Push _ _ | Attribute _ _ => false
  | _ => true
  end.

Lemma read_line_at pre line tail :
  (CR ∉ line) ->
  read_line (pre ++ line ++ CR :: LF :: tail) (len pre) = Ok (line, len pre + len line + 2).
Proof.
  intros Hl. unfold read_line, find_crlf. rewrite slice_from_app. cbn [bind].
  rewrite memchr_app by done. rewrite (proj2 (Z.ltb_lt _ _)) by len_lia.
  replace (pre ++ line ++ CR :: LF :: tail) with ((pre ++ line ++ [CR]) ++ LF :: tail)
    by (by rewrite <- !app_assoc).
  rewrite index_app by len_lia. cbn [bind]. rewrite bool_decide_true by done.
  rewrite <- !app_assoc. cbn [bind]. rewrite slice_app by done. done.
Qed.

(** A slot that was stored once. *)
Definition stored `{PyRuntime} (o : PyObj) : list PyObj := [o].

(** Storing into the first empty slot. *)
Lemma set_next `{PyRuntime} (items : list PyObj) o n :
  PyList_SET_ITEM (map stored items ++ repeat [] (S n)) (length items) o =
  map stored (items ++ [o]) ++ repeat [] n.
Proof.
  unfold PyList_SET_ITEM. rewrite map_app, <- app_assoc. simpl.
  rewrite <- (length_map stored items) at 1. by rewrite alter_app_r_alt, Nat.sub_diag by lia.
Qed.

Section equivalence.
Context `{Target} (Hrelease : overflow_checks = false) `{MemoryAvailable}.
Context (decode : bool).

Definition convert : RespValue -> PyResult PyObj :=
  if decode then resp_to_python_decoded else resp_to_python.

Lemma convert_array vs :
  convert (Array vs) = (let? l := mapM convert vs in Ok (py_list l)).
Proof. unfold convert. by destruct decode. Qed.
Lemma convert_set vs :
  convert (Set_ vs) =
  (let? s := set_empty in let? s := foldM (add_converted convert) vs s in Ok (py_set s)).
Proof. unfold convert. by destruct decode. Qed.
Lemma convert_map kvs :
  convert (Map kvs) =
  (let? d := foldM (set_converted convert) kvs dict_new in Ok (py_dict d)).
Proof. unfold convert. by destruct decode. Qed.

(** Reading the line and the integer of a header anywhere in the buffer. *)
Lemma fused_line_at pre t line body rest :
  (CR ∉ line) ->
  fused_read_line (pre ++ header t line body ++ rest) (len pre + 1) =
  Ok (line, len pre + len (header t line [])).
Proof using Type.
  intros Hl. rewrite fused_read_line_eq. unfold header. simpl. rewrite <- app_assoc. simpl.
  replace (pre ++ t :: line ++ CR :: LF :: body ++ rest) with
    ((pre ++ [t]) ++ line ++ CR :: LF :: body ++ rest) by (by rewrite <- app_assoc).
  replace (len pre + 1) with (len (pre ++ [t])) by len_lia.
  rewrite read_line_at by done. do 2 f_equal. len_lia.
Qed.

Lemma fused_header_at pre t txt body rest i :
  machine_int i txt ->
  fused_header (pre ++ header t txt body ++ rest) (len pre) =
  Ok (i, len pre + len (header t txt [])).
Proof using Hrelease.
  intros Hi. unfold fused_header.
  rewrite fused_line_at by (by eapply machine_int_no_CR). cbn.
  by rewrite (fused_int_text Hrelease _ _ Hi).
Qed.

Lemma fused_bulk_at pre t txt body rest :
  len (pre ++ header t txt (body ++ CRLF) ++ rest) < ISIZE_MAX ->
  fused_bulk (pre ++ header t txt (body ++ CRLF) ++ rest)
    (len pre + len (header t txt [])) (len body) =
  Ok (body, len pre + len (header t txt (body ++ CRLF))).
Proof using Type.
  rewrite header_app. rewrite <- len_app, app_assoc.
  set (q := pre ++ header t txt []). intros Hm.
  assert (len pre + len (header t txt (body ++ CRLF)) = len q + len body + 2) as ->.
  { subst q. rewrite len_app, !len_header. unfold CRLF. len_lia. }
  unfold fused_bulk, ISIZE_MAX, CRLF in *.
  rewrite !usize_add_ok by (unfold USIZE_MAX; len_lia). cbn [bind].
  rewrite usize_add_ok by (unfold USIZE_MAX; len_lia). cbn [bind].
  rewrite (proj2 (Z.ltb_ge _ _)) by len_lia. rewrite <- (app_assoc body).
  by rewrite slice_app by done.
Qed.

(** ** Loops *)

Section loops.
Context (p : bytes -> Z -> PyResult (PyObj * Z)) (buf : bytes).

(** The recursive call does on the encoding [w] what converting [v] does. *)
Definition agrees_on (v : RespValue) (w : bytes) : Prop :=
  forall pre rest, buf = pre ++ w ++ rest ->
  p buf (len pre) = (let? o := convert v in Ok (o, len pre + len w)).

Definition agrees_on_pair (kv : RespValue * RespValue) (w : bytes) : Prop :=
  exists wk wv, w = wk ++ wv /\ agrees_on kv.1 wk /\ agrees_on kv.2 wv.

Lemma fill_agrees vs ws pre rest done fuel :
  Forall2 agrees_on vs ws -> buf = pre ++ concat ws ++ rest -> (length vs <= fuel)%nat ->
  let r := fill_slots p buf fuel (len pre) (length done) (length done + length vs)
    (map stored done ++ repeat [] (length vs)) in
  match mapM convert vs with
  | Ok objs => r = (map stored (done ++ objs), Ok (len pre + len (concat ws)))
  | Err e => r.2 = Err e
  | Panic q => r.2 = Panic q
  end.
Proof using Type.
  intros Hws. revert pre done fuel.
  induction Hws as [|v w vs ws Hw Hws IH]; intros pre done fuel Hb Hf; cbv zeta.
  { simpl. rewrite !app_nil_r, Nat.add_0_r. rewrite Z.add_0_r. destruct fuel; simpl;
      by rewrite (proj2 (Nat.leb_le _ _)). }
  destruct fuel as [|fuel]; [simpl in Hf; lia|]. cbn [fill_slots].
  rewrite (proj2 (Nat.leb_gt _ _)) by (simpl; lia).
  simpl concat in *. rewrite <- app_assoc in Hb. rewrite (Hw pre _ Hb). cbn [mapM].
  destruct (convert v) as [o|e|q]; [|done..]. cbn [bind].
  specialize (IH (pre ++ w) (done ++ [o]) fuel). rewrite <- !app_assoc in IH.
  specialize (IH Hb ltac:(simpl in Hf; lia)). cbv zeta in IH.
  assert (PyList_SET_ITEM (map stored done ++ repeat [] (length (v :: vs))) (length done) o =
    map stored (done ++ [o]) ++ repeat [] (length vs)) as ->.
  { apply set_next. }
  rewrite length_app in IH. simpl length in *. rewrite len_app in IH.
  replace (length done + S (length vs))%nat with (length done + 1 + length vs)%nat by lia.
  replace (S (length done)) with (length done + 1)%nat by lia.
  destruct (mapM convert vs) as [objs|e|q]; cbn [bind]; [|done..].
  by rewrite IH, <- app_assoc, (len_app w), Z.add_assoc.
Qed.

Lemma add_agrees vs ws pre rest set fuel :
  Forall2 agrees_on vs ws -> buf = pre ++ concat ws ++ rest -> (length vs <= fuel)%nat ->
  for_count (add_parsed p buf) fuel (len vs) (set, len pre) =
  (let? set := foldM (add_converted convert) vs set in Ok (set, len pre + len (concat ws))).
Proof using Type.
  intros Hws. revert pre set fuel.
  induction Hws as [|v w vs ws Hw Hws IH]; intros pre set fuel Hb Hf.
  { rewrite for_count_done by done. simpl. by rewrite Z.add_0_r. }
  destruct fuel as [|fuel]; [simpl in Hf; lia|]. rewrite for_count_step by len_lia.
  simpl concat in *. rewrite <- app_assoc in Hb. unfold add_parsed at 1.
  rewrite (Hw pre _ Hb). cbn [foldM]. unfold add_converted at 1.
  destruct (convert v) as [o|e|q]; [|done..]. cbn [bind].
  destruct (set_add set o) as [set'|e|q]; [|done..]. cbn [bind].
  specialize (IH (pre ++ w) set' fuel). rewrite <- !app_assoc, len_app in IH.
  replace (len (v :: vs) - 1) with (len vs) by len_lia.
  rewrite (IH Hb ltac:(simpl in Hf; lia)).
  destruct (foldM _ vs set'); [|done..]. cbn [bind]. by rewrite (len_app w), Z.add_assoc.
Qed.

Lemma insert_agrees kvs ws pre rest dict fuel :
  Forall2 agrees_on_pair kvs ws -> buf = pre ++ concat ws ++ rest -> (length kvs <= fuel)%nat ->
  for_count (insert_parsed p buf) fuel (len kvs) (dict, len pre) =
  (let? dict := foldM (set_converted convert) kvs dict in
   Ok (dict, len pre + len (concat ws))).
Proof using Type.
  intros Hws. revert pre dict fuel.
  induction Hws as [|[k v] w kvs ws Hw Hws IH]; intros pre dict fuel Hb Hf.
  { rewrite for_count_done by done. simpl. by rewrite Z.add_0_r. }
  destruct fuel as [|fuel]; [simpl in Hf; lia|]. rewrite for_count_step by len_lia.
  destruct Hw as (wk & wv & -> & Hk & Hv). simpl in Hk, Hv.
  simpl concat in *. rewrite <- !app_assoc in Hb. unfold insert_parsed at 1.
  rewrite (Hk pre _ Hb). cbn [foldM]. unfold set_converted at 1.
  destruct (convert k) as [ok|e|q]; [|done..]. cbn [bind].
  rewrite <- len_app. rewrite (Hv (pre ++ wk) (concat ws ++ rest)) by (by rewrite <- app_assoc).
  destruct (convert v) as [ov|e|q]; [|done..]. cbn [bind].
  destruct (dict_set_item dict ok ov) as [dict'|e|q]; [|done..]. cbn [bind].
  specialize (IH ((pre ++ wk) ++ wv) dict' fuel). rewrite <- !app_assoc in IH.
  replace (len ((k, v) :: kvs) - 1) with (len kvs) by len_lia.
  replace (len (pre ++ wk) + len wv) with (len (pre ++ wk ++ wv)) by len_lia.
  rewrite (IH Hb ltac:(simpl in Hf; lia)).
  destruct (foldM _ kvs dict'); [|done..]. cbn [bind]. do 2 f_equal. len_lia.
Qed.
End loops.

(** ** The arms *)

Lemma index_header {E} pre t line body rest :
  @index E (pre ++ header t line body ++ rest) (len pre) = Ok t.
Proof using Type. unfold header. simpl. by rewrite index_app. Qed.

Lemma len_past {A} (pre w rest : list A) : 0 < len w -> len pre < len (pre ++ w ++ rest).
Proof using Type. len_lia. Qed.

Lemma utf8_fused what s : valid_utf8 s = true -> fused_utf8 what s = Ok s.
Proof using Type. intros Hs. unfold fused_utf8. by rewrite utf8_or_valid. Qed.

(** Find the arm of the type byte. *)
Ltac dispatch :=
  unfold fused_dispatch;
  rewrite (proj2 (Z.leb_gt _ _)) by (apply len_past; rewrite len_header; len_lia);
  rewrite index_header; cbn [bind];
  repeat first [rewrite decide_True by done|rewrite decide_False by done].
Ltac enter_line := rewrite fused_line_at by done; cbn [into_py map_err bind].
Ltac enter_int := erewrite fused_header_at by done; cbn [bind].
Ltac nonneg := rewrite (proj2 (Z.ltb_ge _ _)) by (by auto with pyrsedis).
Ltac converted := unfold convert; by destruct decode.

Section arms.
Context (p : bytes -> Z -> PyResult (PyObj * Z)) (pre rest : bytes).

(** What an arm gives on the encoding [w] of [v]. *)
Definition arm_ok (v : RespValue) (w : bytes) : Prop :=
  len (pre ++ w ++ rest) < ISIZE_MAX ->
  fused_dispatch p decode (pre ++ w ++ rest) (len pre) =
  (let? o := convert v in Ok (o, len pre + len w)).

Lemma simple_string_arm s : line_text s -> arm_ok (SimpleString s) (header "+" s []).
Proof using Type.
  intros [? ?] Hm. dispatch. unfold fused_simple. enter_line.
  rewrite utf8_fused by done. converted.
Qed.

Lemma error_arm s : line_text s -> arm_ok (Error s) (header "-" s []).
Proof using Type.
  intros [? ?] Hm. dispatch. unfold fused_error. enter_line.
  rewrite from_utf8_lossy_valid by done. converted.
Qed.

Lemma integer_arm i txt : machine_int i txt -> arm_ok (Integer i) (header ":" txt []).
Proof using Hrelease H1.
  intros Hi Hm. dispatch. unfold fused_integer. enter_int. rewrite long_ok. converted.
Qed.

Lemma bulk_string_arm b txt :
  machine_int (len b) txt -> arm_ok (BulkString b) (header "$" txt (b ++ CRLF)).
Proof using Hrelease.
  intros Hi Hm. dispatch. unfold fused_bulk_string. enter_int. nonneg.
  rewrite fused_bulk_at by done. cbn [bind]. unfold convert. destruct decode; [|done].
  simpl. by destruct (from_utf8 b).
Qed.

Lemma null_bulk_arm n txt : machine_int n txt -> n < 0 -> arm_ok Null (header "$" txt []).
Proof using Hrelease.
  intros Hi Hn Hm. dispatch. unfold fused_bulk_string. enter_int.
  rewrite (proj2 (Z.ltb_lt _ _)) by done. converted.
Qed.

Lemma null_array_arm n txt : machine_int n txt -> n < 0 -> arm_ok Null (header "*" txt []).
Proof using Hrelease.
  intros Hi Hn Hm. dispatch. unfold fused_array. enter_int.
  rewrite (proj2 (Z.ltb_lt _ _)) by done. converted.
Qed.

Lemma null_arm : arm_ok Null (header "_" [] []).
Proof using Type.
  intros Hm. dispatch. unfold fused_null. rewrite (proj2 (Z.ltb_ge _ _)).
  - converted.
  - rewrite !len_app, len_header. len_lia.
Qed.

Lemma boolean_arm (c : bool) :
  arm_ok (Boolean c) (header "#" [if c then "t"%byte else "f"%byte] []).
Proof using Type.
  intros Hm. dispatch. unfold fused_boolean. rewrite (proj2 (Z.ltb_ge _ _)).
  2: { rewrite !len_app, len_header. len_lia. }
  set (x := if c then _ else _).
  assert (pre ++ header "#" [x] [] ++ rest = (pre ++ ["#"%byte]) ++ x :: CR :: LF :: rest) as ->
    by (by rewrite <- app_assoc).
  rewrite index_app by len_lia. cbn [bind]. subst x. unfold convert.
  by destruct decode, c.
Qed.

Lemma double_arm d txt :
  line_text txt -> parse_f64 txt = Ok d -> arm_ok (Double d) (header "," txt []).
Proof using Type.
  intros [? ?] Hd Hm. dispatch. unfold fused_double. enter_line.
  rewrite utf8_fused by done. cbn [bind]. rewrite Hd. converted.
Qed.

Lemma big_number_arm s :
  line_text s -> len s <= MAX_BIGNUMBER_LEN -> arm_ok (BigNumber s) (header "(" s []).
Proof using Type.
  intros [? ?] Hl Hm. dispatch. unfold fused_big_number. enter_line.
  rewrite (proj2 (Z.ltb_ge _ _)) by done. rewrite utf8_fused by done. cbn [bind].
  converted.
Qed.

Lemma bulk_error_arm s txt :
  machine_int (len s) txt -> valid_utf8 s = true ->
  arm_ok (BulkError s) (header "!" txt (s ++ CRLF)).
Proof using Hrelease.
  intros Hi Hs Hm. dispatch. unfold fused_bulk_error. enter_int. nonneg.
  rewrite fused_bulk_at by done. cbn [bind]. rewrite from_utf8_lossy_valid by done. converted.
Qed.

Lemma verbatim_arm e d txt :
  machine_int (len (e ++ ":"%byte :: d)) txt -> len e = 3 -> valid_utf8 d = true -> d <> [] ->
  arm_ok (VerbatimString e d) (header "=" txt ((e ++ ":"%byte :: d) ++ CRLF)).
Proof using Hrelease.
  intros Hi He Hd Hne Hm. dispatch. unfold fused_verbatim. enter_int. nonneg.
  rewrite fused_bulk_at by done. cbn [bind].
  rewrite (proj2 (Z.ltb_lt _ _)) by (destruct d; [done|]; len_lia).
  rewrite index_app by done. cbn [bind]. rewrite bool_decide_true by done.
  assert (@slice_from PyErr (e ++ ":"%byte :: d) 4 = Ok d) as ->.
  { replace (e ++ ":"%byte :: d) with ((e ++ [":"%byte]) ++ d) by (by rewrite <- app_assoc).
    replace 4 with (len (e ++ [":"%byte])) by len_lia. apply slice_from_app. }
  cbn [bind]. rewrite utf8_fused by done. converted.
Qed.

(** ** Containers *)

Lemma validated n : 0 <= n <= MAX_RESP_ELEMENTS -> validated_count n = Ok n.
Proof using Type.
  intros Hn. unfold validated_count.
  by rewrite !(proj2 (Z.ltb_ge _ _)) by lia.
Qed.

Lemma body_at t txt body :
  pre ++ header t txt body ++ rest = (pre ++ header t txt []) ++ body ++ rest.
Proof using Type. by rewrite header_app, app_assoc. Qed.

Lemma body_end t txt body :
  len (pre ++ header t txt []) + len body = len pre + len (header t txt body).
Proof using Type. rewrite len_app, !len_header. len_lia. Qed.

Lemma fuel_at t txt body n :
  n <= len body -> (Z.to_nat n <= loop_fuel (pre ++ header t txt body ++ rest))%nat.
Proof using Type.
  intros Hn. unfold loop_fuel. pose proof (len_header t txt body) as Hh. unfold len in *.
  rewrite !length_app. lia.
Qed.

Lemma list_agrees t txt vs ws :
  let buf := pre ++ header t txt (concat ws) ++ rest in
  Forall2 accepted vs ws -> Forall2 (agrees_on p buf) vs ws ->
  build_pylist_ffi p buf (len pre + len (header t txt [])) (len vs) =
  (let? l := mapM convert vs in
   Ok (py_list l, len pre + len (header t txt (concat ws)))).
Proof using H1.
  cbv zeta. intros Hw Hag. unfold build_pylist_ffi. rewrite list_new_ok. cbn [bind].
  pose proof (fuel_at t txt _ _ (elements_bound _ _ Hw)) as Hf.
  rewrite len_nat in *.
  pose proof (fill_agrees p _ vs ws (pre ++ header t txt []) rest [] _ Hag
    (body_at t txt (concat ws)) Hf) as Hfill.
  cbn [length app map plus] in Hfill. rewrite <- len_app. destruct (mapM convert vs) as [objs|e|q].
  - rewrite Hfill. cbn [bind]. rewrite body_end. do 3 f_equal.
    clear. induction objs as [|o objs IH]; simpl; [done|]. f_equal. apply IH.
  - destruct (fill_slots _ _ _ _ _ _ _) as [slots r]. simpl in Hfill. by rewrite Hfill.
  - destruct (fill_slots _ _ _ _ _ _ _) as [slots r]. simpl in Hfill. by rewrite Hfill.
Qed.

Lemma array_arm vs ws txt :
  let w := header "*" txt (concat ws) in
  machine_int (len vs) txt -> Forall2 accepted vs ws -> len vs <= MAX_RESP_ELEMENTS ->
  Forall2 (agrees_on p (pre ++ w ++ rest)) vs ws -> arm_ok (Array vs) w.
Proof using Hrelease H1.
  cbv zeta. intros Hi Hw Hl Hag Hm. dispatch. unfold fused_array. enter_int. nonneg.
  rewrite validated by (by len_pos). cbn [bind]. rewrite list_agrees by done.
  rewrite convert_array. by destruct (mapM convert vs).
Qed.

Lemma set_arm vs ws txt :
  let w := header "~" txt (concat ws) in
  machine_int (len vs) txt -> Forall2 accepted vs ws -> len vs <= MAX_RESP_ELEMENTS ->
  Forall2 (agrees_on p (pre ++ w ++ rest)) vs ws -> arm_ok (Set_ vs) w.
Proof using Hrelease.
  cbv zeta. intros Hi Hw Hl Hag Hm. dispatch. unfold fused_set. enter_int.
  rewrite validated by (by len_pos). cbn [bind]. rewrite convert_set.
  destruct set_empty as [s0| |]; [|done..]. cbn [bind].
  pose proof (fuel_at "~" txt _ _ (elements_bound _ _ Hw)) as Hf.
  rewrite len_nat in Hf. rewrite <- len_app.
  rewrite (add_agrees p _ vs ws _ rest) by (done || apply body_at).
  rewrite body_end. by destruct (foldM _ vs s0).
Qed.

Lemma map_arm kvs ws txt :
  let w := header "%" txt (concat ws) in
  machine_int (len kvs) txt -> Forall2 accepted_pair kvs ws -> len kvs <= MAX_RESP_ELEMENTS ->
  Forall2 (agrees_on_pair p (pre ++ w ++ rest)) kvs ws -> arm_ok (Map kvs) w.
Proof using Hrelease.
  cbv zeta. intros Hi Hw Hl Hag Hm. dispatch. unfold fused_map. enter_int.
  rewrite validated by (by len_pos). cbn [bind]. rewrite convert_map.
  pose proof (fuel_at "%" txt _ _ (pairs_bound _ _ Hw)) as Hf.
  rewrite len_nat in Hf. rewrite <- len_app.
  rewrite (insert_agrees p _ kvs ws _ rest) by (done || apply body_at).
  rewrite body_end. by destruct (foldM _ kvs dict_new).
Qed.
End arms.

(** ** The whole parser *)

(** The elements of a container satisfy what [fused_ok] and the depth ask of
    them, so the recursive calls agree on them. *)
Lemma elements_agree p d vs ws buf :
  (forall v w pre rest, accepted v w -> fused_ok v = true -> 1 + depth v <= d ->
     buf = pre ++ w ++ rest -> p buf (len pre) = (let? o := convert v in Ok (o, len pre + len w))) ->
  Forall2 accepted vs ws -> forallb fused_ok vs = true ->
  1 + foldr (fun v d => Z.max (depth v) d) 0 vs <= d ->
  Forall2 (agrees_on p buf) vs ws.
Proof using Type.
  intros Hp Hw Hok Hd. rewrite forallb_forall in Hok.
  apply (Forall2_with _ _ (fun v => fused_ok v = true /\ 1 + depth v <= d) _ _ Hw).
  - apply Forall_forall. intros v Hv. split; [by apply Hok, list_elem_of_In|].
    pose proof (foldr_max_elem depth vs v Hv). lia.
  - intros v w Hvw [? ?] pre rest Hb. by eapply Hp.
Qed.

Lemma pairs_agree p d kvs ws buf :
  (forall v w pre rest, accepted v w -> fused_ok v = true -> 1 + depth v <= d ->
     buf = pre ++ w ++ rest -> p buf (len pre) = (let? o := convert v in Ok (o, len pre + len w))) ->
  Forall2 accepted_pair kvs ws ->
  forallb (fun kv => let '(k, v) := kv in fused_ok k && fused_ok v) kvs = true ->
  depth (Map kvs) <= d ->
  Forall2 (agrees_on_pair p buf) kvs ws.
Proof using Type.
  intros Hp Hw Hok Hd. rewrite forallb_forall in Hok. rewrite depth_map in Hd.
  apply (Forall2_with _ _ (fun kv => (fused_ok kv.1 = true /\ fused_ok kv.2 = true) /\
    1 + pair_depth kv <= d) _ _ Hw).
  - apply Forall_forall. intros [k v] Hkv. split.
    + specialize (Hok (k, v) (proj1 (list_elem_of_In _ _) Hkv)). simpl in Hok.
      by apply andb_true_iff in Hok.
    + pose proof (foldr_max_elem pair_depth kvs _ Hkv). lia.
  - intros kv w Hvw [[? ?] ?]. destruct Hvw as [k v wk wv Hk Hv]. unfold pair_depth in *.
    cbn [fst snd] in *. exists wk, wv. split_and!; [done|..]; intros pre rest Hb;
      (eapply Hp; [done|done|cbn [fst snd]; lia|done]).
Qed.

Lemma parse_inner_agrees fuel v w d pre rest :
  accepted v w -> fused_ok v = true -> d + depth v <= MAX_PARSE_DEPTH ->
  depth v < Z.of_nat fuel -> len (pre ++ w ++ rest) < ISIZE_MAX ->
  parse_inner fuel decode d (pre ++ w ++ rest) (len pre) =
  (let? o := convert v in Ok (o, len pre + len w)).
Proof using Hrelease H1.
  revert v w d pre rest. induction fuel as [|fuel IH]; intros v w d pre rest Hw Hok Hd Hf Hm;
    pose proof (depth_nonneg v); [lia|].
  cbn [parse_inner]. rewrite (proj2 (Z.ltb_ge _ _)) by lia.
  assert (forall v' w' pre' rest', accepted v' w' -> fused_ok v' = true -> 1 + depth v' <= depth v ->
    pre ++ w ++ rest = pre' ++ w' ++ rest' ->
    parse_inner fuel decode (d + 1) (pre ++ w ++ rest) (len pre') =
    (let? o := convert v' in Ok (o, len pre' + len w'))) as Hrec.
  { intros v' w' pre' rest' Hw' Hok' Hd' Hb. rewrite Hb in *. apply IH; (done || lia). }
  destruct Hw as [s|s|i txt|b txt|n txt|n txt| | | |s|s txt|e dd txt
    |vs ws txt Hi Hws|vs ws txt Hi Hws|kvs ws txt Hi Hws| | ]; cbn [fused_ok] in Hok.
  - by apply simple_string_arm.
  - by apply error_arm.
  - by apply integer_arm.
  - by apply bulk_string_arm.
  - by eapply null_bulk_arm.
  - by eapply null_array_arm.
  - by apply null_arm.
  - by apply boolean_arm.
  - by apply double_arm.
  - apply big_number_arm; [done|by apply Z.leb_le|done].
  - by apply bulk_error_arm.
  - apply verbatim_arm; try done. intros ->. done.
  - apply andb_true_iff in Hok as [Hl%Z.leb_le Hok]. apply array_arm; try done.
    by eapply (elements_agree _ (depth (Array vs))).
  - apply andb_true_iff in Hok as [Hl%Z.leb_le Hok]. apply set_arm; try done.
    by eapply (elements_agree _ (depth (Set_ vs))).
  - apply andb_true_iff in Hok as [Hl%Z.leb_le Hok]. apply map_arm; try done.
    by eapply (pairs_agree _ (depth (Map kvs))).
  - done.
  - done.
Qed.
End equivalence.

(** The fused parser on an encoding of [v]. *)
Lemma fused_accepted `{Target} `{MemoryAvailable} decode v w rest :
  overflow_checks = false -> len (w ++ rest) < ISIZE_MAX ->
  accepted v w -> fused_ok v = true -> depth v <= MAX_PARSE_DEPTH ->
  parse_to_python (w ++ rest) decode = (let? o := convert decode v in Ok (o, len w)).
Proof.
  intros Hrel Hm Hw Hok Hd. unfold parse_to_python. apply wire_min in Hw as Hlen.
  rewrite bool_decide_false by (intros [-> _]%app_nil; len_lia).
  change 0 with (len (@nil byte)) at 2.
  by rewrite (parse_inner_agrees Hrel decode (Z.to_nat (MAX_PARSE_DEPTH + 2)) v w 0 [] rest);
    [|done|done|lia|unfold MAX_PARSE_DEPTH in *; lia|done].
Qed.

Lemma fused_frame `{Target} `{MemoryAvailable} decode v w rest :
  overflow_checks = false -> len (w ++ rest) < ISIZE_MAX ->
  wire v w -> fused_ok v = true -> depth v <= MAX_PARSE_DEPTH ->
  parse_to_python (w ++ rest) decode = (let? o := convert decode v in Ok (o, len w)).
Proof. intros Hrel Hm Hw. by apply fused_accepted, wire_accepted. Qed.

(** C2: the single-pass parser is equivalent to the reference, in a release build:
    when [parse] reads a value (within the fused parser's limits on depth, element
    counts and big numbers, and without push, attribute or empty verbatim values),
    [parse_to_python] on the same bytes returns the object, or raises the error,
    that converting the parsed value gives, and consumes the same bytes. *)
Theorem fused_equals_two_pass `{Target} `{MemoryAvailable} decode buf v n :
  overflow_checks = false -> len buf < ISIZE_MAX ->
  parse buf = Ok (v, n) -> fused_ok v = true -> depth v <= MAX_PARSE_DEPTH ->
  parse_to_python buf decode =
  (let? o := (if decode then resp_to_python_decoded v else resp_to_python v) in Ok (o, n)).
Proof.
  intros Hrel Hm Hp Hok Hd.
  apply parse_sound in Hp as (w & rest & -> & Hw & ->).
  rewrite (fused_accepted decode v w rest) by done. unfold convert. by destruct decode.
Qed.

Lemma fused_equals_two_pass_witness :
  let buf := crlf_lines ["*2"; "$3"; "foo"; "%1"; "+k"; "#t"] in
  parse_to_python (H := release64) (H0 := cpython) (buf ++ buf) true =
  Ok (VList [VStr (bs "foo"); VDict [(VStr (bs "k"), VBool true)]], 25).
Proof.
  cbv zeta. set (buf := crlf_lines _).
  apply (fused_equals_two_pass (H := release64) (H1 := cpython_memory) true (buf ++ buf)
    (Array [BulkString (bs "foo"); Map [(SimpleString (bs "k"), Boolean true)]]) 25);
    vm_compute; (reflexivity || discriminate).
Defined.

(** * Totality *)

(** A runtime whose operations return or raise. *)
Class PyTotal `{PyRuntime} : Prop := {
  dict_set_item_total d k v : no_panic (dict_set_item d k v);
  set_empty_total : no_panic set_empty;
  set_add_total s o : no_panic (set_add s o);
  int_parse_total s : no_panic (py_int_parse s);
  long_total n : no_panic (PyLong_FromLongLong n);
  list_new_total n : no_panic (PyList_New n)
}.

Section total.
Context `{Target} (Hrelease : overflow_checks = false) `{PyTotal}.

(** [returns r P]: [r] does not panic, and a value it returns satisfies [P]. *)
Definition returns {E A} (r : res E A) (P : A -> Prop) : Prop :=
  post r P (fun _ => True) (fun _ => False).

Lemma returns_bind {E A B} (r : res E A) (f : A -> res E B) (P : A -> Prop) Q :
  returns r P -> (forall a, P a -> returns (f a) Q) -> returns (bind r f) Q.
Proof using Type. destruct r; simpl; naive_solver. Qed.

Lemma returns_mono {E A} (r : res E A) (P Q : A -> Prop) :
  returns r P -> (forall a, P a -> Q a) -> returns r Q.
Proof using Type. destruct r; simpl; naive_solver. Qed.

Lemma returns_any {E A} (r : res E A) : no_panic r -> returns r (fun _ => True).
Proof using Type. done. Qed.

Lemma returns_into_py {A} (r : Result A) P : returns r P -> returns (into_py r) P.
Proof using Type. by destruct r. Qed.

Lemma returns_line buf off :
  0 <= off <= len buf ->
  returns (into_py (fused_read_line buf off)) (fun ln => off + 2 <= ln.2 <= len buf).
Proof using Type.
  intros Ho. apply returns_into_py. rewrite fused_read_line_eq.
  unfold read_line, find_crlf. rewrite slice_from_ok by done. cbn [bind].
  destruct (memchr CR (drop (Z.to_nat off) buf)) as [pos|] eqn:Hc; [|done].
  apply memchr_Some in Hc as (line & tail & Hl & _ & ->).
  destruct (Z.ltb_spec (off + len line + 1) (len buf)); [|done].
  pose proof (len_nonneg line).
  destruct (@index_is PyrsedisError buf (off + len line + 1)) as (x & -> & _); [lia|].
  cbn [bind]. case_bool_decide; [|done]. cbn [bind].
  rewrite slice_ok by lia. simpl. lia.
Qed.

Lemma wrap_i64_range z : I64_MIN <= wrap_i64 z <= I64_MAX.
Proof using Type.
  unfold wrap_i64, I64_MIN, I64_MAX.
  pose proof (Z.mod_pos_bound (z + 2 ^ 63) (2 ^ 64) ltac:(lia)). lia.
Qed.

Lemma returns_int txt :
  returns (into_py (fused_parse_int txt)) (fun n => I64_MIN <= n <= I64_MAX).
Proof using Hrelease.
  apply returns_into_py.
  assert (forall neg ds, returns (fused_digits neg ds) (fun n => I64_MIN <= n <= I64_MAX)) as Hd.
  { intros neg ds. rewrite fused_digits_spec by done. destruct ds; [done|].
    destruct (find_non_digit _); [done|]. apply wrap_i64_range. }
  unfold fused_parse_int. destruct txt; [done|]. repeat case_decide; apply Hd.
Qed.

Lemma returns_header buf pos :
  0 <= pos < len buf ->
  returns (fused_header buf pos)
    (fun nn => I64_MIN <= nn.1 <= I64_MAX /\ pos + 3 <= nn.2 <= len buf).
Proof using Hrelease.
  intros Hp. unfold fused_header. eapply returns_bind; [apply returns_line; lia|].
  intros [line next] Hn. eapply returns_bind; [apply returns_int|]. intros n Hr.
  simpl in *. lia.
Qed.

Lemma returns_bulk buf next n :
  0 <= next <= len buf -> 0 <= n <= I64_MAX -> len buf < ISIZE_MAX ->
  returns (fused_bulk buf next n) (fun dt => len dt.1 = n /\ next <= dt.2 <= len buf).
Proof using Type.
  intros Hn Hr Hm. unfold fused_bulk. unfold I64_MAX, ISIZE_MAX in *.
  rewrite usize_add_ok by (unfold USIZE_MAX; lia). cbn [bind].
  rewrite usize_add_ok by (unfold USIZE_MAX; lia). cbn [bind].
  destruct (Z.ltb_spec (len buf) (next + n + 2)); [done|].
  rewrite slice_ok by lia. simpl. split; [|lia].
  unfold len in *. rewrite length_take, length_drop. lia.
Qed.

Lemma returns_utf8 what s : returns (fused_utf8 what s) (fun _ => True).
Proof using Type.
  apply returns_into_py. eapply post_mono; [apply (utf8_or_post what s (fun _ => False))|done..].
Qed.

Lemma returns_count n :
  returns (validated_count n) (fun c => c = n /\ 0 <= n <= MAX_RESP_ELEMENTS).
Proof using Type.
  unfold validated_count. destruct (Z.ltb_spec n 0); [done|].
  destruct (Z.ltb_spec MAX_RESP_ELEMENTS n); [done|]. simpl. lia.
Qed.

Section total_arms.
Context (p : bytes -> Z -> PyResult (PyObj * Z)) (buf : bytes) (pos : Z).
Context (Hm : len buf < ISIZE_MAX) (Hpos : 0 <= pos < len buf).

(** An object and a position further in the buffer. *)
Definition advances (from : Z) (on : PyObj * Z) : Prop := from + 3 <= on.2 <= len buf.
Context (Hp : forall pos', pos < pos' <= len buf -> returns (p buf pos') (advances pos')).

Ltac rline := eapply returns_bind; [apply returns_line; lia|]; intros [line next] Hnext;
  cbn [fst snd] in Hnext.
Ltac rheader := eapply returns_bind; [by apply returns_header|];
  intros [n next] [Hn Hnext]; cbn [fst snd] in Hn, Hnext.
Ltac rbulk := eapply returns_bind; [apply returns_bulk; [lia|lia|done]|];
  intros [data total] [Hdata Htotal]; cbn [fst snd] in Hdata, Htotal.
Ltac any L := eapply returns_bind; [apply returns_any, L|]; intros ? _.
Ltac fin := unfold advances; simpl; lia.

Lemma measured (n : Z) : pos + 3 <= n <= len buf -> (Z.to_nat (len buf - n) < loop_fuel buf)%nat.
Proof using Hpos. unfold loop_fuel, len in *. lia. Qed.

Lemma fill_returns fuel next i count slots :
  pos + 3 <= next <= len buf -> (Z.to_nat (len buf - next) < fuel)%nat ->
  returns (fill_slots p buf fuel next i count slots).2 (fun n => pos + 3 <= n <= len buf).
Proof using Hp.
  revert next i slots. induction fuel as [|fuel IH]; intros next i slots Hn Hf; [lia|].
  cbn [fill_slots]. destruct (count <=? i)%nat; [done|].
  pose proof (Hp next ltac:(lia)) as Hr.
  destruct (p buf next) as [[o n]|e|q]; [|done..]. unfold advances in Hr. simpl in Hr.
  apply IH; lia.
Qed.

Lemma list_returns next count :
  pos + 3 <= next <= len buf -> returns (build_pylist_ffi p buf next count) (advances pos).
Proof using Hp Hpos H1.
  intros Hn. unfold build_pylist_ffi. any list_new_total.
  pose proof (fill_returns (loop_fuel buf) next 0 (Z.to_nat count)
    (repeat [] (Z.to_nat count)) Hn (measured _ Hn)) as Hf.
  destruct (fill_slots _ _ _ _ _ _ _) as [slots r]. simpl in Hf.
  eapply returns_bind; [exact Hf|]. done.
Qed.

Lemma loop_returns {S} (body : S * Z -> PyResult (S * Z)) count s next :
  (forall s n, pos + 3 <= n <= len buf ->
     returns (body (s, n)) (fun st => n + 3 <= st.2 <= len buf)) ->
  pos + 3 <= next <= len buf ->
  returns (for_count body (loop_fuel buf) count (s, next)) (fun st => pos + 3 <= st.2 <= len buf).
Proof using Hpos.
  intros Hb Hn. apply (post_for_count body (fun st => pos + 3 <= st.2 <= len buf)
    (fun st => Z.to_nat (len buf - st.2))); [done|by apply measured|].
  intros [s' n'] Hn'. eapply returns_mono; [by apply Hb|]. simpl in *. intros [??]. simpl. lia.
Qed.

Lemma insert_returns dict next :
  pos + 3 <= next <= len buf ->
  returns (insert_parsed p buf (dict, next)) (fun st => next + 3 <= st.2 <= len buf).
Proof using Hp H1.
  intros Hn. unfold insert_parsed. eapply returns_bind; [apply Hp; lia|].
  intros [k n1] H2. unfold advances in H2. simpl in H2.
  eapply returns_bind; [apply Hp; lia|]. intros [v n2] H3. unfold advances in H3. simpl in H3.
  any dict_set_item_total. simpl. lia.
Qed.

Lemma add_returns set next :
  pos + 3 <= next <= len buf ->
  returns (add_parsed p buf (set, next)) (fun st => next + 3 <= st.2 <= len buf).
Proof using Hp H1.
  intros Hn. unfold add_parsed. eapply returns_bind; [apply Hp; lia|].
  intros [o n1] H2. unfold advances in H2. simpl in H2. any set_add_total. simpl. lia.
Qed.

Lemma text_arms_return :
  returns (fused_simple buf pos) (advances pos) /\ returns (fused_error buf pos) (advances pos) /\
  returns (fused_double buf pos) (advances pos) /\
  returns (fused_big_number buf pos) (advances pos).
Proof using Hpos H1.
  split_and!.
  - unfold fused_simple. rline. eapply returns_bind; [apply returns_utf8|]. intros ? _. fin.
  - unfold fused_error. rline. done.
  - unfold fused_double. rline. eapply returns_bind; [apply returns_utf8|]. intros s _.
    eapply (returns_bind _ _ (fun _ => True)); [|intros; fin].
    apply returns_into_py. destruct (parse_f64 s) eqn:E; simpl; [done..|].
    by apply parse_f64_no_panic in E.
  - unfold fused_big_number. rline. destruct (_ <? _); [done|].
    eapply returns_bind; [apply returns_utf8|]. intros s _. any int_parse_total. fin.
Qed.

Lemma sized_arms_return decode :
  returns (fused_integer buf pos) (advances pos) /\
  returns (fused_bulk_string decode buf pos) (advances pos) /\
  returns (fused_bulk_error buf pos) (advances pos) /\
  returns (fused_verbatim buf pos) (advances pos).
Proof using Hrelease Hpos Hm H1.
  split_and!.
  - unfold fused_integer. rheader. any long_total. fin.
  - unfold fused_bulk_string. rheader. destruct (Z.ltb_spec n 0); [fin|]. rbulk.
    destruct decode; [destruct (from_utf8 data)|]; fin.
  - unfold fused_bulk_error. rheader. destruct (Z.ltb_spec n 0); [done|]. by rbulk.
  - unfold fused_verbatim. rheader. destruct (Z.ltb_spec n 0); [done|]. rbulk.
    apply returns_bind with (P := fun b : bool => b = true -> 4 < len data).
    { destruct (Z.ltb_spec 4 (len data)); [|done].
      destruct (@index_is PyErr data 3) as (? & -> & _); [lia|]. by intros _. }
    intros b Hb. apply returns_bind with (P := fun _ => True).
    { destruct b; [|done]. rewrite slice_from_ok; [done|]. specialize (Hb eq_refl). lia. }
    intros t _. eapply returns_bind; [apply returns_utf8|]. intros s _. fin.
Qed.

Lemma container_arms_return :
  returns (fused_array p buf pos) (advances pos) /\ returns (fused_push p buf pos) (advances pos) /\
  returns (fused_map p buf pos) (advances pos) /\ returns (fused_set p buf pos) (advances pos) /\
  returns (fused_attribute p buf pos) (advances pos).
Proof using Hrelease Hpos Hp H1.
  split_and!.
  - unfold fused_array. rheader. destruct (Z.ltb_spec n 0); [fin|].
    eapply returns_bind; [apply returns_count|]. intros ? [-> ?]. by apply list_returns.
  - unfold fused_push. rheader. eapply returns_bind; [apply returns_count|].
    intros ? [-> ?]. by apply list_returns.
  - unfold fused_map. rheader. eapply returns_bind; [apply returns_count|]. intros ? [-> ?].
    eapply returns_bind; [apply loop_returns; [apply insert_returns|done]|].
    intros [d n'] Hn'. simpl in Hn'. fin.
  - unfold fused_set. rheader. eapply returns_bind; [apply returns_count|]. intros ? [-> ?].
    any set_empty_total. eapply returns_bind; [apply loop_returns; [apply add_returns|done]|].
    intros [d n'] Hn'. simpl in Hn'. fin.
  - unfold fused_attribute. rheader. eapply returns_bind; [apply returns_count|].
    intros ? [-> ?].
    eapply returns_bind; [apply loop_returns; [apply insert_returns|done]|].
    intros [d n'] Hn'. cbn [fst snd] in Hn'. eapply returns_bind; [apply Hp; lia|].
    intros [o n2] Hn2. unfold advances in Hn2. simpl in Hn2. any dict_set_item_total.
    any dict_set_item_total. fin.
Qed.

Lemma dispatch_returns decode : returns (fused_dispatch p decode buf pos) (advances pos).
Proof using Hrelease Hpos Hp Hm H1.
  destruct text_arms_return as (?&?&?&?). destruct (sized_arms_return decode) as (?&?&?&?).
  destruct container_arms_return as (?&?&?&?&?).
  unfold fused_dispatch. rewrite (proj2 (Z.leb_gt _ _)) by lia.
  destruct (@index_is PyErr buf pos) as (b & -> & _); [lia|]. cbn [bind].
  repeat case_decide; try done.
  - unfold fused_null. destruct (Z.ltb_spec (len buf) (pos + 3)); [done|]. fin.
  - unfold fused_boolean. destruct (Z.ltb_spec (len buf) (pos + 4)); [done|].
    destruct (@index_is PyErr buf (pos + 1)) as (? & -> & _); [lia|]. fin.
Qed.
End total_arms.

Lemma parse_inner_returns fuel decode d buf pos :
  len buf < ISIZE_MAX -> MAX_PARSE_DEPTH + 1 < d + Z.of_nat fuel -> d <= MAX_PARSE_DEPTH + 1 ->
  0 <= pos <= len buf -> returns (parse_inner fuel decode d buf pos) (advances buf pos).
Proof using Hrelease H1.
  intros Hm. revert d pos. induction fuel as [|fuel IH]; intros d pos Hf Hd Hpos; [lia|].
  cbn [parse_inner]. destruct (Z.ltb_spec MAX_PARSE_DEPTH d); [done|].
  destruct (decide (pos = len buf)) as [->|].
  { unfold fused_dispatch. by rewrite (proj2 (Z.leb_le _ _)). }
  apply dispatch_returns; [done|lia|]. intros pos' Hpos'. apply IH; lia.
Qed.
End total.

(** C34: the fused parser is total on arbitrary bytes: in a release build it
    returns an object and a position inside the buffer or raises, and never
    panics; its recursion is bounded by the nesting limit whatever the reply,
    and its loops by the length of the buffer. *)
Theorem parse_to_python_total `{Target} `{PyTotal} buf decode :
  overflow_checks = false -> len buf < ISIZE_MAX ->
  match parse_to_python buf decode with
  | Ok (_, n) => 3 <= n <= len buf
  | Err _ => True
  | Panic _ => False
  end.
Proof.
  intros Hrel Hm. unfold parse_to_python. case_bool_decide; [done|].
  pose proof (parse_inner_returns Hrel (Z.to_nat (MAX_PARSE_DEPTH + 2)) decode 0 buf 0 Hm) as Hr.
  specialize (Hr ltac:(unfold MAX_PARSE_DEPTH; lia) ltac:(unfold MAX_PARSE_DEPTH; lia)
    ltac:(by len_pos)).
  destruct (parse_inner _ _ _ _ _) as [[o n]|e|q]; [|done..]. exact Hr.
Qed.

Lemma cpython_total : PyTotal (H := cpython).
Proof.
  split; intros; cbn; try done.
  - by destruct (unhashable k).
  - by destruct (unhashable o).
  - by destruct s as [|[] ?].
Qed.

Lemma parse_to_python_total_witness :
  let buf := crlf_lines ["*2"; "~1"; "*0"; "(12"] in
  match parse_to_python (H := release64) (H0 := cpython) buf true with
  | Ok (_, n) => 3 <= n <= len buf
  | Err e => e = unhashable_err
  | Panic _ => False
  end.
Proof.
  cbv zeta. set (buf := crlf_lines _).
  pose proof (parse_to_python_total (H := release64) (H1 := cpython_total) buf true
    eq_refl eq_refl) as Ht.
  destruct (parse_to_python _ _) as [[o n]|e|q] eqn:E; [exact Ht| |exact Ht].
  vm_compute in E. by simplify_eq.
Defined.

(** * Lists handed to Python *)

Lemma fill_none_spec `{PyRuntime} (items : list PyObj) n :
  fill_none (map stored items ++ repeat [] n) (length items) (length items + n) =
  map stored (items ++ repeat py_none n).
Proof.
  unfold fill_none. replace (length items + n - length items)%nat with n by lia.
  revert items. induction n as [|n IH]; intros items; [simpl; by rewrite !app_nil_r|].
  specialize (IH (items ++ [py_none])). rewrite length_app, Nat.add_comm in IH. simpl in IH.
  rewrite <- app_assoc in IH. simpl in IH. cbn [seq fold_left]. rewrite set_next. exact IH.
Qed.

Section fill.
Context `{PyRuntime} (p : bytes -> Z -> PyResult (PyObj * Z)) (buf : bytes).

(** The objects that calls of the element parser give one after the other,
    from one position to another. *)
Inductive consecutive : Z -> list PyObj -> Z -> Prop :=
| consecutive_none pos : consecutive pos [] pos
| consecutive_next pos o pos1 objs pos2 :
    p buf pos = Ok (o, pos1) -> consecutive pos1 objs pos2 -> consecutive pos (o :: objs) pos2.

(** What the loop leaves behind from position [pos] on: [items] are the
    objects stored before, [n] slots are left and [fuel] bounds the calls. *)
Definition filled (fuel : nat) (pos : Z) (items : list PyObj) (n : nat)
    (result : list (list PyObj) * PyResult Z) : Prop :=
  exists objs pos', consecutive pos objs pos' /\
  match result.2 with
  | Ok e => e = pos' /\ length objs = n /\ result.1 = map stored (items ++ objs)
  | Err e => p buf pos' = Err e /\ (length objs < n)%nat /\
      result.1 = map stored (items ++ objs ++ repeat py_none (n - length objs))
  | Panic q =>
      (p buf pos' = Panic q \/ (q = RecursionLimit /\ length objs = fuel)) /\
      (length objs < n)%nat /\
      result.1 = map stored (items ++ objs) ++ repeat [] (n - length objs)
  end.

Lemma filled_next fuel pos pos1 o items n result :
  p buf pos = Ok (o, pos1) -> filled fuel pos1 (items ++ [o]) n result ->
  filled (S fuel) pos items (S n) result.
Proof using Type.
  intros Ho (objs & pos' & Hc & Hr). exists (o :: objs), pos'.
  split; [by econstructor|]. rewrite <- !app_assoc in Hr. simpl in *.
  destruct result.2; naive_solver lia.
Qed.

Lemma fill_slots_spec fuel pos items n :
  filled fuel pos items n
    (fill_slots p buf fuel pos (length items) (length items + n)
      (map stored items ++ repeat [] n)).
Proof using Type.
  revert pos items n. induction fuel as [|fuel IH]; intros pos items n; cbn [fill_slots].
  all: destruct n as [|n];
    [rewrite (proj2 (Nat.leb_le _ _)) by lia; exists [], pos;
     split_and!; [constructor|done..|by rewrite !app_nil_r]|].
  all: rewrite (proj2 (Nat.leb_gt _ _)) by lia.
  { exists [], pos. split; [constructor|]. rewrite app_nil_r. split_and!; [by right|simpl; lia|done]. }
  destruct (p buf pos) as [[o pos']|e|q] eqn:Ho.
  - eapply filled_next; [done|]. specialize (IH pos' (items ++ [o]) n).
    replace (length (items ++ [o])) with (S (length items)) in IH by (rewrite length_app; simpl; lia).
    rewrite set_next. by replace (length items + S n)%nat with (S (length items) + n)%nat by lia.
  - exists [], pos. split; [constructor|]. split_and!; [done|simpl; lia|]. apply fill_none_spec.
  - exists [], pos. split; [constructor|]. rewrite app_nil_r.
    split_and!; [by left|simpl; lia|done].
Qed.

(** C35: a list built through the FFI never reaches Python, nor the release
    after an error, with an empty slot or a slot stored twice. On success its
    slots hold the objects of [count] consecutive element parses, in order, each
    stored exactly once; when an element raises, the slots hold the objects
    parsed before it and then [None], each stored exactly once, and the error is
    that element's; and if an element parse panics no slot was stored twice. *)
Theorem list_slots_filled fuel pos n :
  let '(slots, r) := fill_slots p buf fuel pos 0 n (repeat [] n) in
  exists objs pos', consecutive pos objs pos' /\
  match r with
  | Ok e => e = pos' /\ length objs = n /\ slots = map stored objs
  | Err e => p buf pos' = Err e /\ (length objs < n)%nat /\
      slots = map stored (objs ++ repeat py_none (n - length objs))
  | Panic q =>
      (p buf pos' = Panic q \/ (q = RecursionLimit /\ length objs = fuel)) /\
      (length objs < n)%nat /\
      slots = map stored objs ++ repeat [] (n - length objs)
  end.
Proof using Type.
  pose proof (fill_slots_spec fuel pos [] n) as Hf. simpl in Hf.
  destruct (fill_slots _ _ _ _ _ _ _) as [slots r]. exact Hf.
Qed.
End fill.

(** * Integers, limits and differences *)

(** C40: in a release build the fused integer parser accepts exactly the
    optionally signed digit strings and gives their value modulo [2^64]; where
    the reference parser accepts, both give the same number. The branchless
    digit test accepts no other byte. *)
Theorem fused_parse_int_spec `{Target} txt i :
  overflow_checks = false ->
  (parse_int_from_bytes txt = Ok i -> fused_parse_int txt = Ok i) /\
  (fused_parse_int txt = Ok i <->
   exists (neg : bool) sign ds,
     txt = sign ++ ds /\ ds <> [] /\ all_digits ds = true /\
     (if neg then sign = ["-"%byte] else sign = [] \/ sign = ["+"%byte]) /\
     i = wrap_i64 (if neg then - dec_value ds else dec_value ds)).
Proof.
  intros Hrel. split.
  { intros Hp. by apply fused_int_text, parse_int_inv. }
  assert (forall neg ds j, fused_digits neg ds = Ok j <-> ds <> [] /\ all_digits ds = true /\
    j = wrap_i64 (if neg then - dec_value ds else dec_value ds)) as Hd.
  { intros neg ds j. rewrite fused_digits_spec by done. destruct ds; [naive_solver|].
    rewrite <- find_non_digit_None. destruct (find_non_digit _); naive_solver. }
  unfold fused_parse_int. split.
  - destruct txt as [|b t]; [done|]. repeat case_decide; subst; rewrite Hd; intros (?&?&?).
    + by exists true, ["-"%byte], t.
    + exists false, ["+"%byte], t. naive_solver.
    + exists false, [], (b :: t). naive_solver.
  - intros (neg & sign & ds & -> & Hne & Hds & Hs & ->).
    destruct neg; [subst; simpl; by apply Hd|]. destruct Hs as [-> | ->]; [|simpl; by apply Hd].
    destruct ds as [|d ds]; [done|]. cbn [app].
    rewrite !decide_False by (eapply all_digits_head; [exact Hds|done]). by apply Hd.
Qed.

Lemma fused_parse_int_spec_witness : fused_parse_int (H := release64) (bs "18446744073709551617") = Ok 1.
Proof.
  apply (fused_parse_int_spec (H := release64) (bs "18446744073709551617") 1); [reflexivity|].
  exists false, [], (bs "18446744073709551617"). split_and!; [done..|by left|reflexivity].
Defined.

(** Nested one-element arrays. *)
Definition nested (k : nat) : bytes := concat (repeat (header "*" (bs "1") []) k).

Lemma nesting_rejected `{Target} `{MemoryAvailable} decode k fuel d pre rest :
  overflow_checks = false -> (k < fuel)%nat -> d + Z.of_nat k = MAX_PARSE_DEPTH + 1 ->
  parse_inner fuel decode d (pre ++ nested k ++ rest) (len pre) =
  py_protocol (bs "RESP nesting depth exceeds maximum of 512").
Proof.
  intros Hrel. revert k d pre. induction fuel as [|fuel IH]; intros k d pre Hf Hd; [lia|].
  cbn [parse_inner]. destruct k as [|k].
  { by rewrite (proj2 (Z.ltb_lt _ _)) by lia. }
  rewrite (proj2 (Z.ltb_ge _ _)) by lia.
  assert (machine_int 1 (bs "1")) as H1t
    by (left; by apply (int_pos [] (bs "1")); [left|..]).
  assert (pre ++ nested (S k) ++ rest =
    pre ++ header "*" (bs "1") [] ++ (nested k ++ rest)) as Hb.
  { unfold nested. cbn [repeat concat]. by rewrite <- app_assoc. }
  rewrite Hb. unfold fused_dispatch. rewrite (proj2 (Z.leb_gt _ _)).
  2: { apply len_past. rewrite len_header. len_lia. }
  rewrite index_header. cbn [bind].
  repeat first [rewrite decide_True by done|rewrite decide_False by done].
  unfold fused_array. rewrite (fused_header_at Hrel _ _ _ _ _ 1 H1t). cbn [bind].
  change (1 <? 0) with false. cbv iota. change (validated_count 1) with (@Ok PyErr Z 1).
  cbn [bind]. unfold build_pylist_ffi. rewrite list_new_ok. cbn [bind].
  change (Z.to_nat 1) with 1%nat. unfold loop_fuel. cbn [fill_slots Nat.leb].
  rewrite <- len_app, app_assoc. rewrite IH by lia. done.
Qed.

(** A reply nested deeper than 512 containers is refused with a protocol
    error before its inside is read, whatever follows: the attack the limit is
    there for cannot grow the stack of the fused parser. *)
Theorem deep_nesting_refused `{Target} `{MemoryAvailable} decode rest :
  overflow_checks = false ->
  parse_to_python (nested 513 ++ rest) decode =
  py_protocol (bs "RESP nesting depth exceeds maximum of 512").
Proof.
  intros Hrel. unfold parse_to_python. rewrite bool_decide_false.
  - apply (nesting_rejected decode 513 _ 0 [] rest Hrel); [|done].
    apply Nat.ltb_lt. vm_compute. reflexivity.
  - done.
Qed.

Lemma deep_nesting_refused_witness :
  parse_to_python (H := release64) (H0 := cpython) (nested 513 ++ bs ":1") true =
  py_protocol (bs "RESP nesting depth exceeds maximum of 512").
Proof.
  by apply (deep_nesting_refused (H := release64) (H1 := cpython_memory)).
Defined.

(** Where the two routes from bytes to objects differ: the fused parser
    keeps the encoding prefix of an empty verbatim string (its test asks for
    more than four bytes), keeps the kind of a push message in the list, and
    inserts the keys of an attribute in the other order. *)
Theorem fused_differences :
  let two_pass buf :=
    let? (v, n) := into_py (parse (H := release64) buf) in
    let? o := resp_to_python (H := cpython) v in Ok (o, n) in
  let fused buf := parse_to_python (H := release64) (H0 := cpython) buf false in
  let verbatim := crlf_lines ["=4"; "txt:"] in
  let push := crlf_lines [">2"; "+message"; "_"] in
  let attribute := crlf_lines ["|1"; "+ttl"; ":5"; "_"] in
  let attrs := VDict [(VStr (bs "ttl"), VInt 5)] in
  two_pass verbatim = Ok (VStr [], 10) /\ fused verbatim = Ok (VStr (bs "txt:"), 10) /\
  two_pass push = Ok (VList [VNone], 17) /\
  fused push = Ok (VList [VStr (bs "message"); VNone], 17) /\
  two_pass attribute =
    Ok (VDict [(VStr (bs "__data__"), VNone); (VStr (bs "__attrs__"), attrs)], 17) /\
  fused attribute =
    Ok (VDict [(VStr (bs "__attrs__"), attrs); (VStr (bs "__data__"), VNone)], 17).
Proof. vm_compute. repeat split. Qed.
