(* ===== verification/Tcp.v ===== *)
(** src/connection/tcp.rs: a connection to a Redis server. The socket is a
    script of what the peer does ([inbox]) and a log of what was sent; the
    capacity of the [bytes::BytesMut] read buffer, which a library chooses, is
    an interface. *)

From Stdlib Require Import Strings.Byte.
From S2P Require Import Prelude RustStd Utf8 RustStr Error Types Parser ParserFacts ParserProps.
From S2P Require Import Wire Writer Config.

Definition DEFAULT_BUF_CAPACITY : Z := 64 * 1024.

(** What [BytesMut] promises of its capacity: [grown cap need] is the capacity
    after an operation that makes room for [need] bytes in all, [split_cap cap n]
    the one left after [split_to(n)]. *)
Class BytesMut := {
  grown : Z -> Z -> Z;
  split_cap : Z -> Z -> Z;
  grown_ge cap need : need <= grown cap need;
  grown_same cap need : need <= cap -> grown cap need = cap
}.

(** What a read of the socket meets: bytes ([Data []] is the end of the
    stream), an I/O error, or silence longer than any timeout. *)
Inductive Event :=
| Data (d : bytes)
| Fail (e : IoError)
| Silence.

Record RedisConnection := {
  inbox : list Event;
  writes : list (option IoError);
  sent : bytes;
  buf : bytes;
  cap : Z;
  max_buf_size : Z;
  read_timeout : option Z;
  last_used : Z;
  now : Z
}.

Abbreviation conn_io := (stm RedisConnection PyrsedisError).

(** [Duration]'s debug format, for a whole number of milliseconds. *)
Definition show_millis (ms : Z) : bytes :=
  if ms =? 0 then bs "0ns"
  else if ms <? 1000 then itoa ms ++ bs "ms"
  else
    let frac := ms mod 1000 in
    itoa (ms / 1000) ++
    (if frac =? 0 then []
     else if frac mod 100 =? 0 then bs "." ++ itoa (frac / 100)
     else if frac mod 10 =? 0
     then bs "." ++ (if frac <? 100 then bs "0" else []) ++ itoa (frac / 10)
     else bs "." ++ (if frac <? 10 then bs "00" else if frac <? 100 then bs "0" else []) ++
          itoa frac) ++ bs "s".

Section connection.
Context `{Target} `{BytesMut}.

(** * Field updates *)

Definition set_buf (b : bytes) (k : Z) (c : RedisConnection) : RedisConnection :=
  {| inbox := inbox c; writes := writes c; sent := sent c; buf := b; cap := k;
     max_buf_size := max_buf_size c; read_timeout := read_timeout c;
     last_used := last_used c; now := now c |}.
Definition set_inbox (i : list Event) (c : RedisConnection) : RedisConnection :=
  {| inbox := i; writes := writes c; sent := sent c; buf := buf c; cap := cap c;
     max_buf_size := max_buf_size c; read_timeout := read_timeout c;
     last_used := last_used c; now := now c |}.
(** [self.last_used = Instant::now()]. *)
Definition touch (c : RedisConnection) : RedisConnection :=
  {| inbox := inbox c; writes := writes c; sent := sent c; buf := buf c; cap := cap c;
     max_buf_size := max_buf_size c; read_timeout := read_timeout c;
     last_used := now c; now := now c |}.
Definition log_sent (d : bytes) (w : list (option IoError)) (c : RedisConnection)
    : RedisConnection :=
  {| inbox := inbox c; writes := w; sent := sent c ++ d; buf := buf c; cap := cap c;
     max_buf_size := max_buf_size c; read_timeout := read_timeout c;
     last_used := last_used c; now := now c |}.

(** The connection over a stream just opened at time [t]. *)
Definition opened (i : list Event) (w : list (option IoError)) (t max : Z) : RedisConnection :=
  {| inbox := i; writes := w; sent := []; buf := []; cap := DEFAULT_BUF_CAPACITY;
     max_buf_size := max; read_timeout := None; last_used := t; now := t |}.

(** How dialling an address ends: a stream, a refusal, or no answer (in time). *)
Inductive DialOutcome :=
| Connected (i : list Event) (w : list (option IoError)) (t : Z)
| Refused (e : IoError)
| NoAnswer.

Definition connect_with_max_buf (outcome : DialOutcome) (max : Z) : Result RedisConnection :=
  match outcome with
  | Connected i w t => Ok (opened i w t max)
  | Refused e => Err (from_io_error e)
  | NoAnswer => Panic Pending
  end.

Definition connect (outcome : DialOutcome) : Result RedisConnection :=
  connect_with_max_buf outcome DEFAULT_MAX_BUF_SIZE.

Definition connect_timeout_with_max_buf (outcome : DialOutcome) (addr : bytes) (timeout max : Z)
    : Result RedisConnection :=
  match outcome with
  | NoAnswer =>
      Err (Timeout (bs "connection to " ++ addr ++ bs " timed out after " ++ show_millis timeout))
  | _ => connect_with_max_buf outcome max
  end.

Definition connect_timeout (outcome : DialOutcome) (addr : bytes) (timeout : Z)
    : Result RedisConnection :=
  connect_timeout_with_max_buf outcome addr timeout DEFAULT_MAX_BUF_SIZE.

Definition set_read_timeout (timeout_ms : Z) (c : RedisConnection) : RedisConnection :=
  {| inbox := inbox c; writes := writes c; sent := sent c; buf := buf c; cap := cap c;
     max_buf_size := max_buf_size c;
     read_timeout := if 0 <? timeout_ms then Some timeout_ms else None;
     last_used := last_used c; now := now c |}.

(** * Buffer operations *)

Definition buf_split : conn_io bytes :=
  fun c => (Ok (buf c), set_buf [] (split_cap (cap c) (len (buf c))) c).
Definition buf_extend (d : bytes) : conn_io unit :=
  modify (fun c => set_buf (buf c ++ d) (grown (cap c) (len (buf c) + len d)) c).
Definition buf_reserve (additional : Z) : conn_io unit :=
  modify (fun c => set_buf (buf c) (grown (cap c) (len (buf c) + additional)) c).
Definition buf_split_to (n : Z) : conn_io bytes :=
  fun c =>
    match @slice PyrsedisError (buf c) 0 n, @slice_from PyrsedisError (buf c) n with
    | Ok front, Ok back => (Ok front, set_buf back (split_cap (cap c) n) c)
    | _, _ => (Panic IndexOutOfBounds, c)
    end.

(** [read_buf]: the bytes that fit in the spare capacity ([BytesMut] makes 64
    bytes of room when there is none); the rest of the data stays in the socket. *)
Definition read_buf (d : bytes) (c : RedisConnection) : bytes * RedisConnection :=
  let room := if cap c - len (buf c) <=? 0 then 64 else cap c - len (buf c) in
  let front := take (Z.to_nat room) d in
  let back := drop (Z.to_nat room) d in
  let c' := set_buf (buf c ++ front) (grown (cap c) (len (buf c) + len front)) c in
  (front, set_inbox (if bool_decide (back = []) then inbox c else Data back :: inbox c) c').

Definition closed_by_server : PyrsedisError :=
  Connection {| io_kind := UnexpectedEof; io_text := bs "connection closed by server" |}.

(** [read_with_timeout]: the script gives the outcome of the wait. *)
Fixpoint read_events (events : list Event) (c : RedisConnection)
    : res PyrsedisError Z * RedisConnection :=
  match events with
  | [] =>
      match read_timeout c with
      | Some t => (Err (Timeout (bs "read timed out after " ++ show_millis t)), set_inbox [] c)
      | None => (Panic Pending, set_inbox [] c)
      end
  | Silence :: events =>
      match read_timeout c with
      | Some t =>
          (Err (Timeout (bs "read timed out after " ++ show_millis t)), set_inbox events c)
      | None => read_events events c
      end
  | Fail e :: events => (Err (Connection e), set_inbox events c)
  | Data [] :: events => (Err closed_by_server, set_inbox events c)
  | Data d :: events =>
      let '(front, c') := read_buf d (set_inbox events c) in (Ok (len front), c')
  end.

Definition read_with_timeout : conn_io Z := fun c => read_events (inbox c) c.

Definition send_raw (data : bytes) : conn_io unit :=
  fun c =>
    match writes c with
    | Some e :: w => (Err (Connection e), log_sent [] w c)
    | None :: w => (Ok tt, touch (log_sent data w c))
    | [] => (Ok tt, touch (log_sent data [] c))
    end.

(** * Reading replies *)

Definition too_large (max : Z) : PyrsedisError :=
  Protocol (bs "RESP message too large: buffer would exceed " ++ itoa max ++ bs " bytes").

(** "Need more data": make room in the buffer. *)
Definition ensure_room : conn_io unit :=
  let! c := gets id in
  if cap c - len (buf c) <? 4096 then
    let new_cap := Z.max (cap c * 2) DEFAULT_BUF_CAPACITY in
    if max_buf_size c <? new_cap then
      if max_buf_size c <=? cap c then lift (Err (too_large (max_buf_size c)))
      else buf_reserve (max_buf_size c - cap c)
    else buf_reserve (new_cap - cap c)
  else lift (Ok tt).

(** One pass over the buffered data: [None] asks for more. *)
Definition try_response : conn_io (option RespValue) :=
  let! b := gets buf in
  if bool_decide (b = []) then lift (Ok None) else
  let! snapshot := buf_split in
  match parse snapshot with
  | Ok (value, consumed) =>
      let! _ :=
        if consumed <? len snapshot then
          let! rest := lift (slice_from snapshot consumed) in buf_extend rest
        else lift (Ok tt) in
      let! _ := modify touch in
      lift (Ok (Some value))
  | Err Incomplete => let! _ := buf_extend snapshot in lift (Ok None)
  | Err e => let! _ := buf_extend snapshot in lift (Err e)
  | Panic p => lift (Panic p)
  end.

Definition try_raw_response : conn_io (option bytes) :=
  let! b := gets buf in
  if bool_decide (b = []) then lift (Ok None) else
  match resp_frame_len b with
  | Ok n =>
      let! raw := buf_split_to n in
      let! _ := modify touch in
      lift (Ok (Some raw))
  | Err Incomplete => lift (Ok None)
  | Err e => lift (Err e)
  | Panic p => lift (Panic p)
  end.

(** The [loop] of both readers; every turn takes something from the script. *)
Fixpoint read_loop {A} (try : conn_io (option A)) (fuel : nat) : conn_io A :=
  let! r := try in
  match r with
  | Some a => lift (Ok a)
  | None =>
      match fuel with
      | O => lift (Panic RecursionLimit)
      | Datatypes.S fuel =>
          let! _ := ensure_room in
          let! _ := read_with_timeout in
          read_loop try fuel
      end
  end.

(** Turns that a script can take: one per event and one per byte. *)
Definition event_size (e : Event) : nat :=
  match e with Data d => Datatypes.S (length d) | _ => 1%nat end.
Definition read_fuel (c : RedisConnection) : nat :=
  Datatypes.S (list_sum (map event_size (inbox c))).

Definition read_response : conn_io RespValue :=
  fun c => read_loop try_response (read_fuel c) c.
Definition read_raw_response : conn_io bytes :=
  fun c => read_loop try_raw_response (read_fuel c) c.

(** * Commands *)

Definition execute (args : list bytes) : conn_io RespValue :=
  let! _ := send_raw (encode_command args) in read_response.

Definition execute_str (args : list bytes) : conn_io RespValue :=
  let! _ := send_raw (encode_command_str args) in read_response.

Definition expect_ok (what : string) (response : RespValue) : Result unit :=
  match response with
  | SimpleString s =>
      if bool_decide (s = bs "OK") then Ok tt
      else Err (Protocol (bs "unexpected " ++ bs what ++ bs " response: " ++
             quoted (type_name response)))
  | Error msg => Err (redis msg)
  | other => Err (Protocol (bs "unexpected " ++ bs what ++ bs " response: " ++
               quoted (type_name other)))
  end.

Definition auth (username : option bytes) (password : bytes) : conn_io unit :=
  let! response :=
    match username with
    | Some user => execute_str [bs "AUTH"; user; password]
    | None => execute_str [bs "AUTH"; password]
    end in
  lift (expect_ok "AUTH" response).

Definition select_db (db : Z) : conn_io unit :=
  if db =? 0 then lift (Ok tt) else
  let! response := execute_str [bs "SELECT"; itoa db] in
  lift (expect_ok "SELECT" response).

Definition ping : conn_io bool :=
  let! response := execute_str [bs "PING"] in
  match response with
  | SimpleString s => lift (Ok (bool_decide (s = bs "PONG")))
  | _ => lift (Ok false)
  end.

Definition hello3_args (username password : option bytes) : list bytes :=
  [bs "HELLO"; bs "3"] ++
  match password with
  | Some pass => [bs "AUTH"; match username with Some user => user | None => bs "default" end; pass]
  | None => []
  end.

Definition hello3 (username password : option bytes) : conn_io RespValue :=
  let! response := execute_str (hello3_args username password) in
  if is_error response
  then lift (Err (redis (match as_error_msg response with
                         | Some m => m
                         | None => bs "HELLO failed"
                         end)))
  else lift (Ok response).

Definition init (username password : option bytes) (db : Z) : conn_io unit :=
  let! _ := match password with
            | Some pass => auth username pass
            | None => lift (Ok tt)
            end in
  select_db db.
End connection.

(** A buffer that allocates exactly what it needs. *)
Definition exact_bytes : BytesMut :=
  {| grown k n := Z.max k n; split_cap k n := k - n;
     grown_ge k n := Z.le_max_r k n; grown_same k n h := Z.max_l k n h |}.

Definition test_conn (events : list Event) : RedisConnection :=
  opened events [] 0 DEFAULT_MAX_BUF_SIZE.

Example read_two_chunks :
  fst (read_response (H := release64) (H0 := exact_bytes)
    (test_conn [Data (bs "$3" ++ [CR]); Data ([LF] ++ bs "fo"); Data (bs "o" ++ CRLF ++ bs ":1")])) =
  Ok (BulkString (bs "foo")).
Proof. vm_compute. reflexivity. Qed.
