(* ===== verification/TcpProps.v ===== *)
(** Theorems about src/connection/tcp.rs: replies are read the same however
    the network cuts the stream, the handshake sends what it should, and a
    connection that timed out answers the next command with the late reply. *)

From Stdlib Require Import Strings.Byte.
From S2P Require Import Prelude RustStd Utf8 RustStr Error Types Parser ParserFacts ParserProps.
From S2P Require Import Wire Writer Config Tcp.

Section stream.
Context `{Target} `{BytesMut}.

(** A socket that only delivers data. *)
Definition event_data (e : Event) : bytes := match e with Data d => d | _ => [] end.
Definition delivers (e : Event) : Prop := event_data e <> [].

(** The bytes the connection has and will receive. *)
Definition stream (c : RedisConnection) : bytes :=
  buf c ++ concat (map event_data (inbox c)).

(** Everything but the buffer, its capacity, the script and the time stamp. *)
Definition same_session (c c' : RedisConnection) : Prop :=
  writes c' = writes c /\ sent c' = sent c /\ max_buf_size c' = max_buf_size c /\
  read_timeout c' = read_timeout c /\ now c' = now c.

#[global] Instance same_session_preorder : PreOrder same_session.
Proof using Type.
  split; [by intros c|]. intros c1 c2 c3 (?&?&?&?&?) (?&?&?&?&?).
  unfold same_session. split_and!; congruence.
Qed.

Lemma delivers_data e : delivers e -> exists b d, e = Data (b :: d).
Proof using Type. destruct e as [[|b d]| |]; try done. by eexists _, _. Qed.

(** The limit on the buffer, reached by a frame of [n] bytes: it is refused only
    when less than 4096 bytes would be left. *)
Definition over_limit {A} (max n : Z) (r : Result A) : Prop :=
  r = Err (too_large max) /\ max < n + 4096.

Lemma over_limit_mono {A} max n m (r : Result A) :
  over_limit max n r -> n <= m -> over_limit max m r.
Proof using Type. intros [-> ?] ?. split; [done|lia]. Qed.

(** ** One turn of the loop *)

Lemma ensure_room_outcome c :
  (exists k, ensure_room c = (Ok tt, set_buf (buf c) k c)) \/
  ensure_room c = (Err (too_large (max_buf_size c)), c) /\ max_buf_size c < len (buf c) + 4096.
Proof using Type.
  unfold ensure_room, sbind, gets, lift, buf_reserve, modify, id.
  destruct (Z.ltb_spec (cap c - len (buf c)) 4096); [|left; exists (cap c); by destruct c].
  destruct (max_buf_size c <? _); [|left; by eexists].
  destruct (Z.leb_spec (max_buf_size c) (cap c)); [right; split; [done|lia]|]. left. by eexists.
Qed.

Lemma read_buf_spec d c front c' :
  d <> [] -> read_buf d c = (front, c') ->
  exists back, d = front ++ back /\ front <> [] /\ buf c' = buf c ++ front /\
    inbox c' = (if bool_decide (back = []) then inbox c else Data back :: inbox c) /\
    same_session c c'.
Proof using Type.
  intros Hd Hr. unfold read_buf in Hr. simplify_eq.
  set (room := if _ <=? 0 then 64 else _).
  exists (drop (Z.to_nat room) d). split_and!; [by rewrite take_drop| |done..].
  assert (0 < room) by (subst room; destruct (Z.leb_spec (cap c - len (buf c)) 0); lia).
  destruct d as [|x d]; [done|]. destruct (Z.to_nat room) eqn:E; [lia|]. done.
Qed.

(** A read of a delivering socket moves bytes from the script to the buffer. *)
Lemma read_outcome c :
  Forall delivers (inbox c) -> inbox c <> [] ->
  exists n c', read_with_timeout c = (Ok n, c') /\ stream c' = stream c /\
    Forall delivers (inbox c') /\ same_session c c' /\
    (list_sum (map event_size (inbox c')) < list_sum (map event_size (inbox c)))%nat /\
    len (buf c) < len (buf c').
Proof using Type.
  intros Hd Hne. unfold read_with_timeout. destruct (inbox c) as [|e events] eqn:Ei; [done|].
  inversion Hd as [|? ? He Hevents]; subst. destruct (delivers_data _ He) as (b & d & ->).
  cbn [read_events].
  destruct (read_buf (b :: d) (set_inbox events c)) as [front c'] eqn:Er.
  destruct (read_buf_spec (b :: d) _ _ _ ltac:(done) Er) as (back & Hbd & Hf & Hb & Hin & Hs).
  simpl in Hb, Hin. exists (len front), c'. split; [done|].
  assert (1 <= length front)%nat by (destruct front; [done|simpl; lia]).
  assert (length front + length back = S (length d))%nat as Hlen
    by (rewrite <- length_app, <- Hbd; done).
  unfold stream. rewrite Hb, Hin, Ei. cbn [map concat event_data]. rewrite Hbd.
  split_and!.
  - case_bool_decide; subst; simpl; by rewrite ?app_nil_r, <- !app_assoc.
  - case_bool_decide; [done|]. by constructor.
  - apply Hs.
  - case_bool_decide; subst; simpl in *; rewrite ?length_app; lia.
  - unfold len in *. rewrite length_app. lia.
Qed.

(** ** The loop, for any way of trying the buffer *)

Section loop.
Context {A : Type} (try : conn_io (option A)) (a : A) (w rest : bytes).
Context (Hmore : forall c, len (buf c) < len w -> (exists ext, w = buf c ++ ext) ->
  exists k, try c = (Ok None, set_buf (buf c) k c)).
Context (Hdone : forall c r, buf c = w ++ r -> len (w ++ r) <= len (w ++ rest) ->
  exists c', try c = (Ok (Some a), c') /\ buf c' = r /\ inbox c' = inbox c /\ same_session c c').

Lemma prefix_cases c :
  stream c = w ++ rest ->
  (len (buf c) < len w /\ exists ext, w = buf c ++ ext) \/ exists r, buf c = w ++ r.
Proof using Type.
  unfold stream. intros Hs. destruct (Z.lt_ge_cases (len (buf c)) (len w)) as [Hl|Hl].
  - left. split; [done|]. exists (drop (length (buf c)) w).
    rewrite <- (take_drop (length (buf c)) w) at 1. f_equal.
    assert (take (length (buf c)) (w ++ rest) = take (length (buf c)) w) as <-.
    { rewrite take_app_le; [done|]. unfold len in Hl. lia. }
    by rewrite <- Hs, take_app_length.
  - right. exists (drop (length w) (buf c)).
    rewrite <- (take_drop (length w) (buf c)) at 1. f_equal.
    assert (take (length w) (buf c ++ concat (map event_data (inbox c))) =
      take (length w) (buf c)) as <-.
    { rewrite take_app_le; [done|]. unfold len in Hl. lia. }
    by rewrite Hs, take_app_length.
Qed.

(** The outcome: the expected result, leaving the rest of the stream; or the
    buffer limit, reached before the frame was complete. *)
Definition reads (c : RedisConnection) (o : res PyrsedisError A * RedisConnection) : Prop :=
  same_session c o.2 /\ Forall delivers (inbox o.2) /\
  ((o.1 = Ok a /\ stream o.2 = rest) \/
   over_limit (max_buf_size c) (len w) o.1).

Lemma read_loop_stream fuel c :
  stream c = w ++ rest -> Forall delivers (inbox c) ->
  (list_sum (map event_size (inbox c)) < fuel)%nat ->
  reads c (read_loop try fuel c).
Proof using Hmore Hdone.
  revert c. induction fuel as [|fuel IH]; intros c Hs Hd Hf; [lia|].
  cbn [read_loop]. destruct (prefix_cases c Hs) as [[Hl Hext]|[r Hr]].
  - destruct (Hmore c Hl Hext) as [k Hk]. rewrite (sbind_ok _ _ _ _ _ Hk).
    set (c1 := set_buf (buf c) k c). assert (stream c1 = stream c) as Hs1 by done.
    destruct (ensure_room_outcome c1) as [[k2 He]|[He Hcap]].
    2: { unfold sbind at 1. rewrite He. split_and!; try done. right. split; [done|].
         change (buf c1) with (buf c) in Hcap. change (max_buf_size c1) with (max_buf_size c) in Hcap. lia. }
    rewrite (sbind_ok _ _ _ _ _ He). set (c2 := set_buf (buf c1) k2 c1) in *.
    destruct (read_outcome c2) as (n & c3 & Hr & Hs3 & Hd3 & Hss & Hsz & _); [done| |].
    { intros Hin. change (inbox c = []) in Hin. unfold stream in Hs. rewrite Hin in Hs.
      simpl in Hs. rewrite app_nil_r in Hs. rewrite Hs in Hl. len_lia. }
    rewrite (sbind_ok _ _ _ _ _ Hr).
    destruct (IH c3) as (Hss3 & Hd4 & Ho); [by rewrite Hs3|done|simpl in Hsz; lia|].
    assert (max_buf_size c3 = max_buf_size c) as E3 by apply Hss.
    split_and!; [by trans c3|done|]. by rewrite E3 in Ho.
  - assert (len (w ++ r) <= len (w ++ rest)) as Hlr.
    { rewrite <- Hr, <- Hs. unfold stream. len_lia. }
    destruct (Hdone c r Hr Hlr) as (c' & Ht & Hb & Hi & Hss). rewrite (sbind_ok _ _ _ _ _ Ht).
    split; [done|]. unfold lift. cbn [fst snd]. rewrite Hi. split; [done|]. left.
    split; [done|]. unfold stream in *. rewrite Hb, Hi. rewrite Hr, <- app_assoc in Hs.
    by apply app_inv_head in Hs.
Qed.
End loop.

(** ** The two readers *)

Lemma fits_isize n : size_of_pair * (1 + n) <= ISIZE_MAX -> 0 <= n -> n < ISIZE_MAX.
Proof using Type.
  pose proof size_of_RespValue_ge. pose proof size_of_pair_ge. unfold ISIZE_MAX. nia.
Qed.

(** A strict prefix of an encoding is incomplete. *)
Lemma parse_prefix v p q :
  wire v (p ++ q) -> q <> [] -> size_of_pair * (1 + len (p ++ q)) <= ISIZE_MAX ->
  parse p = Err Incomplete.
Proof using Type.
  intros Hw Hq Hc. pose proof (parse_wire v (p ++ q) [] Hw) as Hp. rewrite app_nil_r in Hp.
  specialize (Hp Hc). pose proof (fits_isize _ Hc (len_nonneg _)) as Hm.
  assert (len p < ISIZE_MAX) as Hmp by len_lia.
  pose proof (parse_rec_stable (S (length p)) (S (length (p ++ q))) p q) as Hst.
  pose proof (parse_rec_ok (S (length p)) p ltac:(lia) Hmp) as Hok. unfold parse in *.
  assert (0 < len q) by (destruct q; [done|len_lia]).
  destruct (parse_rec (S (length p)) p) as [[v' n]|e|pn].
  - rewrite Hst in Hp by (done || lia). simplify_eq. destruct Hok. len_lia.
  - by destruct e; try done; (rewrite Hst in Hp; [|lia|lia| |]).
  - rewrite Hst in Hp; [done|lia|lia|done|]. simpl. unfold not_limit.
    unfold parse_ok, parser_panic in Hok. simpl in Hok. naive_solver.
Qed.

Section replies.
Context (v : RespValue) (w rest : bytes).
Context (Hw : wire v w) (Hcap : size_of_pair * (1 + len (w ++ rest)) <= ISIZE_MAX).

Lemma frame_wire r :
  size_of_pair * (1 + len (w ++ r)) <= ISIZE_MAX -> resp_frame_len (w ++ r) = Ok (len w).
Proof using Hw.
  intros Hc. pose proof (fits_isize _ Hc (len_nonneg _)) as Hm.
  pose proof (parse_rec_agrees (S (length (w ++ r))) (w ++ r) ltac:(lia) Hm) as Hag.
  pose proof (parse_wire v w r Hw Hc) as Hp. unfold parse in Hp. rewrite Hp in Hag.
  destruct Hag as (n' & Hf & Hn). simpl in Hn. by subst.
Qed.

Lemma w_nonempty : 3 <= len w.
Proof using Hw. by eapply wire_min. Qed.

Lemma smaller n : 0 <= n <= len w + len rest -> size_of_pair * (1 + n) <= ISIZE_MAX.
Proof using Hcap.
  intros Hn. rewrite len_app in Hcap. pose proof size_of_RespValue_ge.
  pose proof size_of_pair_ge. nia.
Qed.

Lemma try_response_more c :
  len (buf c) < len w -> (exists ext, w = buf c ++ ext) ->
  exists k, try_response c = (Ok None, set_buf (buf c) k c).
Proof using Hw Hcap.
  intros Hl [ext He]. unfold try_response, sbind at 1, gets.
  case_bool_decide as Hb; [exists (cap c); by destruct c|].
  unfold sbind at 1, buf_split.
  assert (parse (buf c) = Err Incomplete) as ->.
  { apply (parse_prefix v _ ext); [by rewrite <- He| |].
    - intros ->. rewrite app_nil_r in He. apply (f_equal len) in He. lia.
    - rewrite <- He. apply smaller. len_lia. }
  by eexists.
Qed.

Lemma try_response_done c r :
  buf c = w ++ r -> len (w ++ r) <= len (w ++ rest) ->
  exists c', try_response c = (Ok (Some v), c') /\ buf c' = r /\ inbox c' = inbox c /\
    same_session c c'.
Proof using Hw Hcap.
  intros Hb Hl. pose proof w_nonempty. unfold try_response, sbind at 1, gets.
  rewrite bool_decide_false by (rewrite Hb; intros [-> _]%app_nil; done).
  unfold sbind at 1, buf_split. rewrite Hb.
  rewrite (parse_wire v w r Hw) by (apply smaller; len_lia).
  destruct (Z.ltb_spec (len w) (len (w ++ r))) as [Hlt|Hge].
  - rewrite slice_from_app. cbn. by eexists.
  - cbn. eexists. split_and!; [done| |done|done]. simpl. destruct r; [done|len_lia].
Qed.

Lemma try_raw_more c :
  len (buf c) < len w -> (exists ext, w = buf c ++ ext) ->
  exists k, try_raw_response c = (Ok None, set_buf (buf c) k c).
Proof using Hw Hcap.
  intros Hl [ext He]. unfold try_raw_response, sbind at 1, gets. exists (cap c).
  assert (set_buf (buf c) (cap c) c = c) as Hc by (by destruct c).
  case_bool_decide as Hb; [by rewrite Hc|].
  assert (len (buf c) < ISIZE_MAX) as Hm.
  { eapply Z.lt_le_trans; [exact Hl|]. apply Z.lt_le_incl, fits_isize; [|apply len_nonneg].
    apply smaller. len_lia. }
  pose proof (parse_rec_agrees (S (length (buf c))) (buf c) ltac:(lia) Hm) as Hag.
  assert (parse_rec (S (length (buf c))) (buf c) = Err Incomplete) as Hi.
  { apply (parse_prefix v _ ext); [by rewrite <- He| |].
    - intros ->. rewrite app_nil_r in He. apply (f_equal len) in He. lia.
    - rewrite <- He. apply smaller. len_lia. }
  rewrite Hi in Hag. unfold resp_frame_len. rewrite Hag by done. by rewrite Hc.
Qed.

Lemma try_raw_done c r :
  buf c = w ++ r -> len (w ++ r) <= len (w ++ rest) ->
  exists c', try_raw_response c = (Ok (Some w), c') /\ buf c' = r /\ inbox c' = inbox c /\
    same_session c c'.
Proof using Hw Hcap.
  intros Hb Hl. pose proof w_nonempty. unfold try_raw_response, sbind at 1, gets.
  rewrite bool_decide_false by (rewrite Hb; intros [-> _]%app_nil; done).
  rewrite Hb. rewrite frame_wire by (apply smaller; len_lia).
  unfold sbind, buf_split_to. rewrite Hb.
  rewrite (slice_app [] w r) by len_lia. rewrite slice_from_app. by eexists.
Qed.
End replies.

Lemma read_response_stream v w rest c :
  wire v w -> size_of_pair * (1 + len (w ++ rest)) <= ISIZE_MAX ->
  stream c = w ++ rest -> Forall delivers (inbox c) ->
  reads v w rest c (read_response c).
Proof.
  intros Hw Hcap Hs Hd. apply (read_loop_stream _ _ w); try done.
  - by apply (try_response_more v w rest).
  - intros c' r Hb Hl. by apply (try_response_done v w rest).
  - unfold read_fuel. lia.
Qed.

(** C10: replies do not depend on how the network cuts them: on a stream that
    starts with an encoding of [v], cut in any non-empty pieces, [read_response]
    returns [v] and leaves exactly the bytes after it to be read; the only other
    outcome is the buffer limit, for a reply that leaves less than 4096 bytes of it. *)
Theorem read_response_any_chunks v w rest c :
  wire v w -> size_of_pair * (1 + len (w ++ rest)) <= ISIZE_MAX ->
  stream c = w ++ rest -> Forall delivers (inbox c) ->
  reads v w rest c (read_response c).
Proof. apply read_response_stream. Qed.

Lemma read_raw_response_stream v w rest c :
  wire v w -> size_of_pair * (1 + len (w ++ rest)) <= ISIZE_MAX ->
  stream c = w ++ rest -> Forall delivers (inbox c) ->
  reads w w rest c (read_raw_response c).
Proof.
  intros Hw Hcap Hs Hd. apply (read_loop_stream _ _ w); try done.
  - by apply (try_raw_more v w rest).
  - intros c' r Hb Hl. by apply (try_raw_done v w rest).
  - unfold read_fuel. lia.
Qed.

(** The raw reader does the same without parsing: it returns exactly the
    bytes of the encoding, for any chunking. *)
Theorem read_raw_response_any_chunks v w rest c :
  wire v w -> size_of_pair * (1 + len (w ++ rest)) <= ISIZE_MAX ->
  stream c = w ++ rest -> Forall delivers (inbox c) ->
  reads w w rest c (read_raw_response c).
Proof. apply read_raw_response_stream. Qed.

(** * Timeouts *)

Definition timed_out (t : Z) : PyrsedisError :=
  Timeout (bs "read timed out after " ++ show_millis t).

(** A reply awaited with an empty buffer fails as the first read does. *)
Lemma first_read_fails c r c' :
  buf c = [] -> 4096 <= cap c -> read_with_timeout c = (r, c') ->
  match r with
  | Ok _ => True
  | Err e => read_response c = (Err e, c')
  | Panic p => read_response c = (Panic p, c')
  end.
Proof.
  intros Hb Hcap Hr.
  assert (try_response c = (Ok None, c)) as Htry.
  { unfold try_response, sbind, gets. by rewrite Hb. }
  assert (ensure_room c = (Ok tt, c)) as He.
  { unfold ensure_room, sbind, gets, id. rewrite Hb, len_nil.
    by rewrite (proj2 (Z.ltb_ge _ _)) by lia. }
  assert (read_response c =
    (let! _ := read_with_timeout in read_loop try_response (list_sum (map event_size (inbox c)))) c) as Hl.
  { unfold read_response, read_fuel. cbn [read_loop].
    rewrite (sbind_ok _ _ _ _ _ Htry). by rewrite (sbind_ok _ _ _ _ _ He). }
  rewrite Hl. unfold sbind. rewrite Hr. by destruct r.
Qed.

Lemma execute_sends args c :
  writes c = [] ->
  execute args c = read_response (touch (log_sent (encode_command args) [] c)).
Proof. intros Hw. unfold execute, sbind, send_raw. by rewrite Hw. Qed.

(** A command on a connection whose first read fails: sent, failed, and nothing
    marks the connection. *)
Lemma execute_fails args c e c' :
  buf c = [] -> writes c = [] -> 4096 <= cap c ->
  read_with_timeout (touch (log_sent (encode_command args) [] c)) = (Err e, c') ->
  execute args c = (Err e, c').
Proof.
  intros Hb Hwr Hcap Hr. rewrite execute_sends by done. by apply (first_read_fails _ (Err e)).
Qed.

Lemma execute_silent args c events t :
  buf c = [] -> writes c = [] -> read_timeout c = Some t -> 4096 <= cap c ->
  inbox c = Silence :: events ->
  execute args c =
  (Err (timed_out t), set_inbox events (touch (log_sent (encode_command args) [] c))).
Proof.
  intros Hb Hwr Ht Hcap Hi. apply execute_fails; try done.
  unfold read_with_timeout. cbn [inbox touch log_sent]. rewrite Hi. cbn. by rewrite Ht.
Qed.

(** A connection closed by the server. *)
Lemma execute_closed args c events :
  buf c = [] -> writes c = [] -> 4096 <= cap c -> inbox c = Data [] :: events ->
  execute args c =
  (Err closed_by_server, set_inbox events (touch (log_sent (encode_command args) [] c))).
Proof.
  intros Hb Hwr Hcap Hi. apply execute_fails; try done.
  unfold read_with_timeout. cbn [inbox touch log_sent]. by rewrite Hi.
Qed.

(** A command whose reply, or one before it, is next in the stream. *)
Lemma execute_stream args v w rest c :
  wire v w -> size_of_pair * (1 + len (w ++ rest)) <= ISIZE_MAX ->
  writes c = [] -> stream c = w ++ rest -> Forall delivers (inbox c) ->
  let o := execute args c in
  (o.1 = Ok v /\ stream o.2 = rest) \/ over_limit (max_buf_size c) (len w) o.1.
Proof.
  intros Hw Hm Hwr Hs Hd. cbv zeta. rewrite execute_sends by done.
  destruct (read_response_stream v w rest (touch (log_sent (encode_command args) [] c)))
    as (_ & _ & Ho); done.
Qed.

Lemma execute_session args v w rest c :
  wire v w -> size_of_pair * (1 + len (w ++ rest)) <= ISIZE_MAX ->
  writes c = [] -> stream c = w ++ rest -> Forall delivers (inbox c) ->
  sent (execute args c).2 = sent c ++ encode_command args.
Proof.
  intros Hw Hm Hwr Hs Hd. rewrite execute_sends by done.
  destruct (read_response_stream v w rest (touch (log_sent (encode_command args) [] c)))
    as ((_ & -> & _) & _); done.
Qed.

(** * When the connection was last used

    Reading never makes a connection look older. *)

Definition fresh (c : RedisConnection) : Prop := last_used c = now c.
Definition keeps_fresh {A} (m : conn_io A) : Prop := forall c, fresh c -> fresh (m c).2.

Lemma keeps_fresh_lift {A} (x : Result A) : keeps_fresh (lift x).
Proof using Type. by intros c. Qed.
Lemma keeps_fresh_bind {A B} (m : conn_io A) (f : A -> conn_io B) :
  keeps_fresh m -> (forall a, keeps_fresh (f a)) -> keeps_fresh (sbind m f).
Proof using Type.
  intros Hm Hf c Hc. specialize (Hm c Hc). unfold sbind. destruct (m c) as [[a|e|p] c']; [|done..].
  by apply Hf.
Qed.
Lemma keeps_fresh_gets {A} (f : RedisConnection -> A) : keeps_fresh (gets f).
Proof using Type. by intros c. Qed.
Lemma keeps_fresh_touch : keeps_fresh (modify touch).
Proof using Type. by intros c. Qed.
Lemma keeps_fresh_extend d : keeps_fresh (buf_extend d).
Proof using Type. by intros c. Qed.
Lemma keeps_fresh_reserve d : keeps_fresh (buf_reserve d).
Proof using Type. by intros c. Qed.
Lemma keeps_fresh_split : keeps_fresh buf_split.
Proof using Type. by intros c. Qed.
Lemma keeps_fresh_split_to n : keeps_fresh (buf_split_to n).
Proof using Type. intros c Hc. unfold buf_split_to. by repeat case_match. Qed.
#[local] Hint Resolve keeps_fresh_lift keeps_fresh_bind keeps_fresh_gets keeps_fresh_touch
  keeps_fresh_extend keeps_fresh_reserve keeps_fresh_split keeps_fresh_split_to : core.

Lemma keeps_fresh_read : keeps_fresh read_with_timeout.
Proof using Type.
  intros c Hc. unfold read_with_timeout. generalize (inbox c) as events. intros events.
  induction events as [|ev events IH]; cbn; [by destruct (read_timeout c)|].
  destruct ev as [[|b d]| |]; [done|done|done|]. by destruct (read_timeout c).
Qed.

Lemma keeps_fresh_room : keeps_fresh ensure_room.
Proof using Type. unfold ensure_room. apply keeps_fresh_bind; auto. intros c. by repeat case_match. Qed.
#[local] Hint Resolve keeps_fresh_read keeps_fresh_room : core.

Lemma keeps_fresh_loop {A} (try : conn_io (option A)) fuel :
  keeps_fresh try -> keeps_fresh (read_loop try fuel).
Proof using Type.
  intros Ht. induction fuel as [|fuel IH]; cbn [read_loop]; apply keeps_fresh_bind; auto;
    intros [a|]; auto.
Qed.

Lemma keeps_fresh_try_raw : keeps_fresh try_raw_response.
Proof using Type.
  unfold try_raw_response. apply keeps_fresh_bind; auto. intros b. case_bool_decide; auto.
  destruct (resp_frame_len b) as [n|[]|p]; auto.
Qed.

Lemma keeps_fresh_read_raw : keeps_fresh read_raw_response.
Proof using Type. intros c. apply keeps_fresh_loop, keeps_fresh_try_raw. Qed.

(** * The handshake *)

Definition ok_wire : bytes := header "+" (bs "OK") [].

Lemma wire_OK : wire (SimpleString (bs "OK")) ok_wire.
Proof. constructor. split; [reflexivity|]. by apply memchr_None. Qed.

Definition handshake_commands (username password : option bytes) (db : Z) : list (list bytes) :=
  match password with
  | Some pass => [[bs "AUTH"] ++ match username with Some u => [u] | None => [] end ++ [pass]]
  | None => []
  end ++ (if db =? 0 then [] else [[bs "SELECT"; itoa db]]).

(** A command answered by [+OK], with room for the reply. *)
Lemma execute_ok args c rest :
  writes c = [] -> stream c = ok_wire ++ rest -> Forall delivers (inbox c) ->
  size_of_pair * (1 + len (ok_wire ++ rest)) <= ISIZE_MAX -> 
  let o := execute_str args c in
  writes o.2 = [] /\ Forall delivers (inbox o.2) /\ sent o.2 = sent c ++ encode_command args /\
  max_buf_size o.2 = max_buf_size c /\
  ((o.1 = Ok (SimpleString (bs "OK")) /\ stream o.2 = rest) \/
   over_limit (max_buf_size c) (len ok_wire) o.1).
Proof.
  intros Hw Hs Hd Hm. cbv zeta. change (execute_str args) with (execute args).
  rewrite execute_sends by done. set (c1 := touch _).
  destruct (read_response_stream _ _ rest c1 wire_OK) as ((Hw1 & Hs1 & Hm1 & _) & Hd1 & Ho);
    try done.
Qed.

(** The outcome of a step of the handshake that sends [cmds]. *)
Definition shakes (cmds : list (list bytes)) (rest : bytes) (c : RedisConnection)
    (o : res PyrsedisError unit * RedisConnection) : Prop :=
  writes o.2 = [] /\ Forall delivers (inbox o.2) /\ max_buf_size o.2 = max_buf_size c /\
  ((o.1 = Ok tt /\ stream o.2 = rest /\ sent o.2 = sent c ++ encode_pipeline cmds) \/
   over_limit (max_buf_size c) (len ok_wire) o.1).

Lemma shake_one what args c rest (m : conn_io unit) :
  (m = let! r := execute_str args in lift (expect_ok what r)) ->
  writes c = [] -> stream c = ok_wire ++ rest -> Forall delivers (inbox c) ->
  size_of_pair * (1 + len (ok_wire ++ rest)) <= ISIZE_MAX ->
  shakes [args] rest c (m c).
Proof.
  intros -> Hw Hs Hd Hm. destruct (execute_ok args c rest Hw Hs Hd Hm) as (?&?&Hsent&?&Ho).
  unfold sbind, shakes. destruct (execute_str args c) as [r c1]. cbn [fst snd] in *.
  rewrite encode_pipeline_eq. cbn [map concat]. rewrite app_nil_r.
  unfold over_limit in *. destruct Ho as [[-> ?]|[-> ?]]; cbn [fst snd lift]; naive_solver.
Qed.

(** C12: the handshake authenticates before it selects a database, sends
    nothing it does not need (no AUTH without a password, no SELECT for database
    0), and succeeds when the server accepts each command. *)
Theorem init_handshake username password db c rest :
  let cmds := handshake_commands username password db in
  writes c = [] -> Forall delivers (inbox c) ->
  stream c = concat (repeat ok_wire (length cmds)) ++ rest ->
  size_of_pair * (1 + len (stream c)) <= ISIZE_MAX ->
  shakes cmds rest c (init username password db c).
Proof.
  cbv zeta. unfold handshake_commands, init. intros Hw Hd Hs Hm.
  assert (forall c', writes c' = [] -> Forall delivers (inbox c') ->
    stream c' = concat (repeat ok_wire (if db =? 0 then 0 else 1)) ++ rest ->
    size_of_pair * (1 + len (stream c')) <= ISIZE_MAX ->
    shakes (if db =? 0 then [] else [[bs "SELECT"; itoa db]]) rest c' (select_db db c')) as Hsel.
  { intros c' Hw' Hd' Hs' Hm'. unfold select_db. destruct (db =? 0).
    - split_and!; try done. left. unfold lift. cbn. by rewrite app_nil_r.
    - cbn [repeat concat] in Hs'. rewrite app_nil_r in Hs'. rewrite Hs' in Hm'.
      by eapply (shake_one "SELECT"). }
  destruct password as [pass|].
  2: { unfold sbind, lift. apply Hsel; try done. rewrite Hs. by destruct (db =? 0). }
  set (args := [bs "AUTH"] ++ _ ++ [pass]) in *.
  assert (concat (repeat ok_wire (length ([args] ++
      (if db =? 0 then [] else [[bs "SELECT"; itoa db]])))) ++ rest = ok_wire ++ (concat (repeat ok_wire (if db =? 0 then 0 else 1)) ++ rest)) as Hsplit.
  { destruct (db =? 0); cbn [app length repeat concat]; by rewrite <- ?app_assoc. }
  rewrite Hsplit in Hs. rewrite Hs in Hm.
  destruct (shake_one "AUTH" args c _ (auth username pass)
    ltac:(by destruct username) Hw Hs Hd Hm) as (Hw1 & Hd1 & Hm1 & Ho).
  unfold sbind. destruct (auth username pass c) as [r c1]. cbn [fst snd] in *.
  destruct Ho as [(-> & Hs1 & Hsent)|Hlim].
  2: { unfold over_limit in *. destruct Hlim as [-> ?]. split_and!; try done. by right. }
  destruct (Hsel c1) as (Hw2 & Hd2 & Hm2 & Ho2); try done.
  { rewrite Hs1. rewrite len_app in Hm. pose proof (len_nonneg ok_wire).
    pose proof size_of_RespValue_ge. pose proof size_of_pair_ge. nia. }
  split_and!; [done..|by rewrite Hm2|]. rewrite Hm1 in Ho2.
  destruct Ho2 as [(-> & Hs2 & Hsent2)|Hlim]; [left|right; done].
  split_and!; [done..|]. rewrite Hsent2, Hsent, <- app_assoc. f_equal.
  rewrite !encode_pipeline_eq. simpl. by rewrite app_nil_r.
Qed.
End stream.

(** * The theorems at concrete connections *)

Definition pong_conn (events : list Event) : RedisConnection :=
  set_read_timeout 30000 (test_conn events).

Lemma read_response_any_chunks_witness :
  reads (SimpleString (bs "PONG")) (bs "+PONG" ++ CRLF) (bs ":1") (test_conn [Data (bs "+PO"); Data (bs "NG" ++ CRLF ++ bs ":1")])
    (read_response (H := release64) (H0 := exact_bytes)
       (test_conn [Data (bs "+PO"); Data (bs "NG" ++ CRLF ++ bs ":1")])).
Proof.
  apply (read_response_any_chunks (H := release64) (H0 := exact_bytes) _ _ (bs ":1") _
    wire_PONG); [done|reflexivity|]. repeat constructor; done.
Defined.

Lemma read_raw_response_any_chunks_witness :
  reads (bs "+PONG" ++ CRLF) (bs "+PONG" ++ CRLF) (bs ":1") (test_conn [Data (bs "+PO"); Data (bs "NG" ++ CRLF ++ bs ":1")])
    (read_raw_response (H := release64) (H0 := exact_bytes)
       (test_conn [Data (bs "+PO"); Data (bs "NG" ++ CRLF ++ bs ":1")])).
Proof.
  apply (read_raw_response_any_chunks (H := release64) (H0 := exact_bytes) _ _ (bs ":1") _
    wire_PONG); [done|reflexivity|]. repeat constructor; done.
Defined.

Lemma init_handshake_witness :
  fst (init (H := release64) (H0 := exact_bytes) None (Some (bs "pw")) 2
    (test_conn [Data ok_wire; Data ok_wire])) = Ok tt.
Proof.
  destruct (init_handshake (H := release64) (H0 := exact_bytes) None (Some (bs "pw")) 2
    (test_conn [Data ok_wire; Data ok_wire]) []) as (_ & _ & _ & Ho);
    [done|repeat constructor; done|reflexivity|done|].
  destruct Ho as [[Ho _]|[_ Ho]]; [exact Ho|]. vm_compute in Ho. discriminate.
Defined.
