(* ===== verification/Receive.v ===== *)
(** What reading a reply means (src/connection/tcp.rs, [read_response] and
    [read_raw_response]), on every script of the network: the loop that grows
    and splits its buffer, and takes the data of the socket in pieces that fit,
    does what a reader does that just collects bytes until they decide. *)

From Stdlib Require Import Strings.Byte.
From S2P Require Import Prelude RustStd Error Types Parser ParserFacts ParserProps Wire Writer.
From S2P Require Import Config Tcp TcpProps.

(** * The specification

    [decided b] is what the bytes [b] are as a reply, if they are enough to say.
    The reader collects the data of the script until they are; the end of the
    stream, a failure or a silence of the peer ends it before. *)
Section spec.
Context {A : Type} (decided : bytes -> option (Result A)).

Fixpoint receive (timeout : option Z) (b : bytes) (events : list Event) : Result A :=
  match decided b with
  | Some r => r
  | None =>
      match events with
      | [] => match timeout with Some t => Err (timed_out t) | None => Panic Pending end
      | Data [] :: _ => Err closed_by_server
      | Data d :: events => receive timeout (b ++ d) events
      | Fail e :: _ => Err (Connection e)
      | Silence :: events =>
          match timeout with
          | Some t => Err (timed_out t)
          | None => receive timeout b events
          end
      end
  end.
End spec.

Section loop.
Context `{Target} `{BytesMut} {A : Type} (decided : bytes -> option (Result A)).

(** Bytes that decide keep their decision. *)
Definition stable : Prop :=
  forall b ext r, len b < ISIZE_MAX -> decided b = Some r -> decided (b ++ ext) = Some r.

(** A way of trying the buffer that agrees with [decided]. *)
Definition tries (try : conn_io (option A)) : Prop :=
  forall c, len (buf c) < ISIZE_MAX ->
  match decided (buf c) with
  | Some r => (try c).1 = (let? a := r in Ok (Some a))
  | None => exists k, try c = (Ok None, set_buf (buf c) k c)
  end.

Lemma receive_decided t b events r : decided b = Some r -> receive decided t b events = r.
Proof. intros Hd. destruct events; cbn; by rewrite Hd. Qed.

Lemma sizes_cons ev events :
  list_sum (map event_size (ev :: events)) = (event_size ev + list_sum (map event_size events))%nat.
Proof. done. Qed.

(** The outcome of a read: the failure that [receive] gives, or some data. *)
Lemma read_events_cases events c :
  (forall b, decided b = None -> exists e : res PyrsedisError Z,
     (read_events events c).1 = e /\
     (forall n, e <> Ok n) /\
     receive decided (read_timeout c) b events = (let? _ := e in Panic Pending)) \/
  (exists d ev, d <> [] /\
     read_events events c =
       (let '(front, c') := read_buf d (set_inbox ev c) in (Ok (len front), c')) /\
     (list_sum (map event_size (Data d :: ev)) <= list_sum (map event_size events))%nat /\
     concat (map event_data events) = d ++ concat (map event_data ev) /\
     forall b, decided b = None ->
       receive decided (read_timeout c) b events = receive decided (read_timeout c) (b ++ d) ev).
Proof.
  induction events as [|ev events IH].
  { left. intros b Hb. cbn. rewrite Hb. destruct (read_timeout c); eexists; (split; [done|]);
      by split. }
  destruct ev as [[|x d]|e|].
  - left. intros b Hb. cbn. rewrite Hb. eexists. split; [done|]. by split.
  - right. exists (x :: d), events. split_and!; [done|done|done|done|]. intros b Hb. cbn.
    by rewrite Hb.
  - left. intros b Hb. cbn. rewrite Hb. eexists. split; [done|]. by split.
  - destruct (read_timeout c) as [t|] eqn:Ht.
    { left. intros b Hb. cbn. rewrite Hb, Ht. eexists. split; [done|]. by split. }
    cbn [read_events]. rewrite Ht. destruct IH as [IH|(d & ev & Hd & Hr & Hsz & Hc & Hrec)].
    + left. intros b Hb. destruct (IH b Hb) as (e & He & Hne & Hrec). exists e.
      split_and!; [done|done|]. cbn. by rewrite Hb.
    + right. exists d, ev. split_and!; [done|done|etrans; [exact Hsz|apply Nat.le_succ_diag_r]|done|].
      intros b Hb. cbn. rewrite Hb. by apply Hrec.
Qed.

(** The data of an event, read in two pieces. *)
Lemma receive_split t b front back events :
  stable -> len (b ++ front) < ISIZE_MAX ->
  receive decided t (b ++ front) (if bool_decide (back = []) then events else Data back :: events) =
  receive decided t (b ++ front ++ back) events.
Proof.
  intros Hst Hm. case_bool_decide as Hb; [by rewrite Hb, app_nil_r|].
  destruct (decided (b ++ front)) as [r|] eqn:Hd.
  - rewrite (receive_decided _ _ _ r Hd). apply (Hst _ back) in Hd; [|done].
    rewrite <- app_assoc in Hd. by rewrite (receive_decided _ _ _ r Hd).
  - cbn. rewrite Hd. destruct back as [|x back]; [done|]. by rewrite <- app_assoc.
Qed.

Lemma read_loop_receives try fuel c :
  stable -> tries try -> (list_sum (map event_size (inbox c)) < fuel)%nat ->
  len (stream c) < ISIZE_MAX -> len (stream c) + 4096 <= max_buf_size c ->
  (read_loop try fuel c).1 = receive decided (read_timeout c) (buf c) (inbox c).
Proof.
  intros Hst Htry. revert c. induction fuel as [|fuel IH]; intros c Hf Hm Hmax; [lia|].
  assert (len (buf c) <= len (stream c)) as Hbs by (unfold stream; len_lia).
  pose proof (Htry c ltac:(lia)) as Ht. cbn [read_loop].
  destruct (decided (buf c)) as [r|] eqn:Hd.
  { rewrite (receive_decided _ _ _ r Hd). unfold sbind. destruct (try c) as [o c']. cbn in Ht.
    subst o. by destruct r. }
  destruct Ht as [k Hk]. rewrite (sbind_ok _ _ _ _ _ Hk). set (c1 := set_buf (buf c) k c).
  destruct (ensure_room_outcome c1) as [[k2 He]|[_ Hcap]]; [|cbn in Hcap; lia].
  rewrite (sbind_ok _ _ _ _ _ He). set (c2 := set_buf (buf c1) k2 c1).
  unfold sbind, read_with_timeout. change (inbox c2) with (inbox c).
  destruct (read_events_cases (inbox c) c2) as [Herr|(d & ev & Hne & Hr & Hsz & Hc & Hrec)].
  { destruct (Herr (buf c) Hd) as (e & He1 & Hno & Hrec). change (read_timeout c) with (read_timeout c2).
    rewrite Hrec. destruct (read_events (inbox c) c2) as [o c3]. cbn in He1. subst o.
    destruct e as [n| |]; [by destruct (Hno n)|done..]. }
  rewrite Hr. destruct (read_buf d (set_inbox ev c2)) as [front c3] eqn:Hrb.
  pose proof (read_buf_spec _ _ _ _ Hne Hrb) as (back & -> & Hf0 & Hb3 & Hin3 & Hs3).
  change (inbox (set_inbox ev c2)) with ev in Hin3. change (buf (set_inbox ev c2)) with (buf c) in Hb3.
  destruct Hs3 as (_ & _ & Hmx & Hto & _).
  assert (stream c3 = stream c) as Hs3.
  { unfold stream. rewrite Hb3, Hin3, Hc. case_bool_decide as Hback; [subst back|];
      cbn [map concat event_data]; by rewrite ?app_nil_r, <- ?app_assoc. }
  rewrite IH.
  - rewrite Hto, Hb3, Hin3. change (read_timeout (set_inbox ev c2)) with (read_timeout c).
    rewrite receive_split; [|done|].
    + symmetry. by apply Hrec.
    + rewrite <- Hb3. rewrite <- Hs3 in Hm. unfold stream in Hm. len_lia.
  - rewrite Hin3. destruct front as [|x front]; [done|]. eapply Nat.lt_le_trans; [|apply Nat.lt_succ_r, Hf].
    eapply Nat.lt_le_trans; [|exact Hsz]. case_bool_decide; rewrite !sizes_cons;
      cbn [event_size app length]; rewrite ?length_app; lia.
  - by rewrite Hs3.
  - rewrite Hs3, Hmx. exact Hmax.
Qed.
End loop.

(** * The two readers *)

Section readers.
Context `{Target} `{BytesMut}.

(** Enough bytes for a value, or to see that there is none. *)
Definition value_of (b : bytes) : option (Result RespValue) :=
  match parse b with
  | Ok (v, _) => Some (Ok v)
  | Err Incomplete => None
  | Err e => Some (Err e)
  | Panic p => Some (Panic p)
  end.

(** Enough bytes for a frame. *)
Definition frame_of (b : bytes) : option (Result bytes) :=
  match resp_frame_len b with
  | Ok n => Some (Ok (take (Z.to_nat n) b))
  | Err Incomplete => None
  | Err e => Some (Err e)
  | Panic p => Some (Panic p)
  end.

Lemma value_of_stable : stable value_of.
Proof.
  intros b ext r Hm. unfold value_of. intros Hd. rewrite parse_stable; [done|done|].
  intros Hi. by rewrite Hi in Hd.
Qed.

Lemma frame_bounds b n : len b < ISIZE_MAX -> resp_frame_len b = Ok n -> 3 <= n <= len b.
Proof.
  intros Hm Hf. pose proof (frame_rec_ok (S (length b)) b ltac:(lia) Hm) as Hok.
  unfold resp_frame_len in Hf. by rewrite Hf in Hok.
Qed.

Lemma frame_of_stable : stable frame_of.
Proof.
  intros b ext r Hm. unfold frame_of. intros Hd. rewrite resp_frame_len_streaming; [|done|].
  - destruct (resp_frame_len b) as [n|e|p] eqn:Hf; [|done..].
    pose proof (frame_bounds b n Hm Hf) as Hb. rewrite take_app_le; [done|]. unfold len in Hb. lia.
  - intros Hi. by rewrite Hi in Hd.
Qed.

Lemma set_buf_same c : set_buf (buf c) (cap c) c = c.
Proof. by destruct c. Qed.

Lemma parse_empty : parse [] = Err Incomplete.
Proof. reflexivity. Qed.
Lemma resp_frame_len_empty : resp_frame_len [] = Err Incomplete.
Proof. reflexivity. Qed.

Lemma try_response_tries : tries value_of try_response.
Proof.
  intros c Hm. unfold value_of. destruct (decide (buf c = [])) as [Hb|Hb].
  { rewrite Hb, parse_empty, <- Hb. exists (cap c). rewrite set_buf_same.
    unfold try_response, sbind, gets. by rewrite bool_decide_true. }
  pose proof (parse_rec_ok (S (length (buf c))) (buf c) ltac:(lia) Hm) as Hok.
  change (parse_rec (S (length (buf c))) (buf c)) with (parse (buf c)) in Hok.
  unfold try_response, sbind, gets. rewrite bool_decide_false by done. unfold buf_split.
  destruct (parse (buf c)) as [[v n]|e|p]; [|destruct e; try done; by eexists|done].
  cbn in Hok. destruct (Z.ltb_spec n (len (buf c))); [|done].
  by rewrite slice_from_ok by lia.
Qed.

Lemma try_raw_response_tries : tries frame_of try_raw_response.
Proof.
  intros c Hm. unfold frame_of. destruct (decide (buf c = [])) as [Hb|Hb].
  { rewrite Hb, resp_frame_len_empty, <- Hb. exists (cap c). rewrite set_buf_same.
    unfold try_raw_response, sbind, gets. by rewrite bool_decide_true. }
  unfold try_raw_response, sbind, gets. rewrite bool_decide_false by done.
  destruct (resp_frame_len (buf c)) as [n|e|p] eqn:Hf; [| |done].
  - pose proof (frame_bounds _ _ Hm Hf) as Hn. unfold buf_split_to.
    rewrite slice_ok, slice_from_ok by lia. cbn. by rewrite Z.sub_0_r.
  - destruct e; try done. exists (cap c). by rewrite set_buf_same.
Qed.

(** C11: Reading a reply is collecting bytes until they decide, on every script: the
    result of either reader depends only on the bytes that arrive and on how the
    stream ends, not on the sizes of the pieces or of the buffer (as long as the
    data stays 4096 bytes below the limit). Malformed data, a stream that closes or
    fails in the middle of a reply, a silent peer with and without a timeout all
    give the outcome of the specification; the loop never runs for ever. *)
Theorem readers_refine_receive c :
  len (stream c) < ISIZE_MAX -> len (stream c) + 4096 <= max_buf_size c ->
  (read_response c).1 = receive value_of (read_timeout c) (buf c) (inbox c) /\
  (read_raw_response c).1 = receive frame_of (read_timeout c) (buf c) (inbox c).
Proof.
  intros Hm Hmax. split; apply read_loop_receives; try done; try (unfold read_fuel; lia).
  - apply value_of_stable.
  - apply try_response_tries.
  - apply frame_of_stable.
  - apply try_raw_response_tries.
Qed.
End readers.

(** * What a read leaves

    The raw reader loses nothing, whatever the script and whatever the outcome: the
    bytes it returns and the bytes of the connection afterwards are the bytes of
    the connection before. *)
Section conservation.
Context `{Target} `{BytesMut}.

Lemma take_drop_stream n c c' :
  0 <= n <= len (buf c) -> buf c' = drop (Z.to_nat n) (buf c) -> inbox c' = inbox c ->
  stream c = take (Z.to_nat n) (buf c) ++ stream c'.
Proof.
  intros Hn Hb Hi. unfold stream. rewrite Hb, Hi, app_assoc. by rewrite take_drop.
Qed.

Lemma try_raw_cases c :
  len (buf c) < ISIZE_MAX ->
  (try_raw_response c = (Ok None, c)) \/
  (exists n c', resp_frame_len (buf c) = Ok n /\ 3 <= n <= len (buf c) /\
     try_raw_response c = (Ok (Some (take (Z.to_nat n) (buf c))), c') /\
     same_session c c' /\ buf c' = drop (Z.to_nat n) (buf c) /\ inbox c' = inbox c) \/
  (exists r, (forall a, r <> Ok a) /\ try_raw_response c = (r, c)).
Proof.
  intros Hm. unfold try_raw_response, sbind, gets. case_bool_decide as Hb; [by left|].
  destruct (resp_frame_len (buf c)) as [n|e|p] eqn:Hf.
  - right. left. pose proof (frame_bounds _ _ Hm Hf) as Hn. unfold buf_split_to.
    rewrite slice_ok, slice_from_ok by lia. rewrite Z.sub_0_r. eexists n, _. split_and!; (done || lia).
  - destruct e; (by left) || (right; right; eexists; by split; [|reflexivity]).
  - right. right. eexists. by split; [|reflexivity].
Qed.

Lemma read_events_conserves events c o c' :
  read_events events c = (o, c') ->
  same_session c c' /\ stream c' = buf c ++ concat (map event_data events).
Proof.
  revert c. induction events as [|ev events IH]; intros c Hr.
  { cbn in Hr. destruct (read_timeout c); injection Hr as _ <-; by split. }
  destruct ev as [[|x d]|e|].
  - by injection Hr as _ <-.
  - cbn [read_events] in Hr. destruct (read_buf (x :: d) (set_inbox events c)) as [front c1] eqn:Hb.
    injection Hr as _ <-.
    destruct (read_buf_spec (x :: d) (set_inbox events c) front c1) as (back & Hd & _ & Hbuf & Hin & Hs);
      [done|done|].
    split; [exact Hs|]. unfold stream. rewrite Hbuf, Hin. cbn [map concat event_data buf inbox set_inbox].
    rewrite Hd. case_bool_decide as He; [rewrite He|cbn [map concat event_data]];
      by rewrite ?app_nil_r, <- !app_assoc.
  - by injection Hr as _ <-.
  - cbn in Hr. destruct (read_timeout c); [by injection Hr as _ <-|]. by apply IH in Hr.
Qed.

(** The bytes decide what is returned. *)
Definition takes_frame (c : RedisConnection) (o : Result bytes) (c' : RedisConnection) : Prop :=
  same_session c c' /\
  match o with
  | Ok w => stream c = w ++ stream c' /\ resp_frame_len (stream c) = Ok (len w)
  | _ => stream c' = stream c
  end.

Lemma buf_le_stream c : len (buf c) <= len (stream c).
Proof. unfold stream. len_lia. Qed.

Lemma frame_taken n c c' :
  len (stream c) < ISIZE_MAX -> resp_frame_len (buf c) = Ok n -> 3 <= n <= len (buf c) ->
  same_session c c' -> buf c' = drop (Z.to_nat n) (buf c) -> inbox c' = inbox c ->
  takes_frame c (Ok (take (Z.to_nat n) (buf c))) c'.
Proof.
  intros Hm Hf Hn Hs Hb Hi. pose proof (buf_le_stream c).
  split; [done|]. split; [apply take_drop_stream; (done || lia)|]. unfold stream.
  rewrite resp_frame_len_streaming, Hf; [|lia|by rewrite Hf].
  f_equal. unfold len. rewrite length_take. unfold len in Hn. lia.
Qed.

Lemma read_raw_loop_takes fuel c o c' :
  len (stream c) < ISIZE_MAX -> read_loop try_raw_response fuel c = (o, c') -> takes_frame c o c'.
Proof.
  revert c. induction fuel as [|fuel IH]; intros c Hm; cbn [read_loop];
    pose proof (buf_le_stream c) as Hle;
    (destruct (try_raw_cases c ltac:(lia)) as [Ht|[(n & c1 & Hf & Hn & Ht & Hs & Hb & Hi)|(r & Hr & Ht)]];
     [rewrite (sbind_ok _ _ _ _ _ Ht)|rewrite (sbind_ok _ _ _ _ _ Ht)|unfold sbind at 1; rewrite Ht]).
  - by intros [= <- <-].
  - intros [= <- <-]. by apply (frame_taken n).
  - destruct r as [a|e|p]; [by destruct (Hr a)|by intros [= <- <-]..].
  - destruct (ensure_room_outcome c) as [[k He]|[He _]].
    2: { unfold sbind at 1. rewrite He. by intros [= <- <-]. }
    rewrite (sbind_ok _ _ _ _ _ He). set (c1 := set_buf (buf c) k c).
    unfold sbind, read_with_timeout. destruct (read_events (inbox c1) c1) as [r c2] eqn:Hev.
    apply read_events_conserves in Hev as [Hs2 Hst2].
    change (stream c2 = stream c) in Hst2. change (same_session c c2) in Hs2.
    destruct r as [a|e|p]; [|by intros [= <- <-]..].
    intros Hl. apply IH in Hl as [Hs3 Ho]; [|by rewrite Hst2]. rewrite Hst2 in Ho.
    split; [by trans c2|done].
  - intros [= <- <-]. by apply (frame_taken n).
  - destruct r as [a|e|p]; [by destruct (Hr a)|by intros [= <- <-]..].
Qed.

Lemma read_raw_takes c o c' :
  len (stream c) < ISIZE_MAX -> read_raw_response c = (o, c') -> takes_frame c o c'.
Proof. apply read_raw_loop_takes. Qed.

(** What comes later does not matter to a read that returns a frame. *)
Definition with_later (es : list Event) (c : RedisConnection) : RedisConnection :=
  set_inbox (inbox c ++ es) c.

Lemma read_events_later es events c n c' :
  read_events events c = (Ok n, c') -> read_events (events ++ es) c = (Ok n, with_later es c').
Proof.
  induction events as [|ev events IH]; cbn [app read_events].
  { by destruct (read_timeout c). }
  destruct ev as [[|x d]|e|]; [done| |done|].
  - unfold read_buf. cbn. intros [= <- <-]. by case_bool_decide.
  - destruct (read_timeout c); [done|exact IH].
Qed.

Lemma read_events_inbox i events c : read_events events (set_inbox i c) = read_events events c.
Proof.
  induction events as [|ev events IH]; [done|]. destruct ev as [[|x d]|e|]; [done..|].
  cbn [read_events]. destruct (read_timeout c) eqn:Ht; cbn; by rewrite Ht.
Qed.

Lemma read_loop_later es fuel fuel' c w c' :
  (fuel <= fuel')%nat -> read_loop try_raw_response fuel c = (Ok w, c') ->
  read_loop try_raw_response fuel' (with_later es c) = (Ok w, with_later es c').
Proof.
  assert (forall c o c', try_raw_response c = (o, c') ->
    try_raw_response (with_later es c) = (o, with_later es c')) as Htry.
  { intros c0 o c1. unfold try_raw_response, sbind, gets. change (buf (with_later es c0)) with (buf c0).
    case_bool_decide; [by intros [= <- <-]|].
    destruct (resp_frame_len (buf c0)) as [n|[]|]; try by intros [= <- <-].
    unfold buf_split_to, modify. change (buf (with_later es c0)) with (buf c0).
    destruct (@slice PyrsedisError (buf c0) 0 n), (@slice_from PyrsedisError (buf c0) n);
      by intros [= <- <-]. }
  assert (forall c c', ensure_room c = (Ok tt, c') ->
    ensure_room (with_later es c) = (Ok tt, with_later es c')) as Hroom.
  { intros c0 c1. unfold ensure_room, sbind, gets, id, buf_reserve, modify, lift, with_later. cbn.
    repeat case_match; by intros [= <-]. }
  revert fuel' c. induction fuel as [|fuel IH]; intros fuel' c Hf; cbn [read_loop]; unfold sbind at 1;
    destruct (try_raw_response c) as [[[a|]|e|p] c1] eqn:Ht; try done; apply Htry in Ht.
  1,2: destruct fuel'; cbn [read_loop]; rewrite (sbind_ok _ _ _ _ _ Ht); by intros [= <- <-].
  destruct fuel' as [|fuel']; [lia|]. cbn [read_loop]. rewrite (sbind_ok _ _ _ _ _ Ht).
  unfold sbind at 1. destruct (ensure_room c1) as [[[]|e|p] c2] eqn:He; [|done..].
  rewrite (sbind_ok _ _ _ _ _ (Hroom _ _ He)). unfold sbind at 1.
  destruct (read_with_timeout c2) as [[n|e|p] c3] eqn:Hr; [|done..].
  assert (read_with_timeout (with_later es c2) = (Ok n, with_later es c3)) as Hr'.
  { unfold read_with_timeout, with_later at 2. cbn [inbox with_later set_inbox].
    rewrite read_events_inbox. by apply read_events_later. }
  rewrite (sbind_ok _ _ _ _ _ Hr'). apply IH. lia.
Qed.

Lemma read_raw_later es c w c' :
  read_raw_response c = (Ok w, c') ->
  read_raw_response (with_later es c) = (Ok w, with_later es c').
Proof.
  apply read_loop_later. unfold read_fuel, with_later. cbn. rewrite map_app, list_sum_app. lia.
Qed.

Lemma try_raw_not_pending c c' :
  len (buf c) < ISIZE_MAX -> try_raw_response c <> (Panic Pending, c').
Proof.
  intros Hm. unfold try_raw_response, sbind, gets. case_bool_decide; [done|].
  pose proof (frame_rec_ok (S (length (buf c))) (buf c) ltac:(lia) Hm) as Hok.
  change (frame_rec (S (length (buf c))) (buf c)) with (resp_frame_len (buf c)) in Hok.
  destruct (resp_frame_len (buf c)) as [n|e|p].
  - unfold buf_split_to. cbn in Hok. by rewrite slice_ok, slice_from_ok by lia.
  - by destruct e.
  - intros [= -> _]. cbn in Hok. unfold scanner_panic in Hok. by destruct Hok.
Qed.
End conservation.

(** * Reads with a timeout end

    With a read timeout an operation on a connection returns, whatever the peer does: it
    neither waits for ever nor runs out of turns, keeps the timeout, and adds nothing to
    the bytes that the connection has and will receive. *)
Section timely.
Context `{Target} `{BytesMut}.

Definition ends {A} (o : Result A) : Prop := o <> Panic Pending /\ o <> Panic RecursionLimit.

(** From a connection with the timeout [t] and at most [n] bytes. *)
Definition timed (t n : Z) (c : RedisConnection) : Prop :=
  read_timeout c = Some t /\ len (stream c) <= n /\ n < ISIZE_MAX.

Definition timely {A} (m : conn_io A) : Prop :=
  forall t n c, timed t n c -> ends (m c).1 /\ timed t n (m c).2.

Lemma ends_ok {A} (a : A) : ends (Ok a).
Proof. done. Qed.
Lemma ends_err {A} e : ends (A := A) (Err e).
Proof. done. Qed.

Lemma timely_lift {A} (r : Result A) : ends r -> timely (lift r).
Proof. by intros Hr t n c Hc. Qed.

Lemma timely_bind {A B} (m : conn_io A) (f : A -> conn_io B) :
  timely m -> (forall a, timely (f a)) -> timely (sbind m f).
Proof.
  intros Hm Hf t n c Hc. unfold sbind. destruct (Hm t n c Hc) as [He Ht].
  destruct (m c) as [[a|e|p] c']; [by apply Hf|done|]. split; [|done]. cbn in He.
  unfold ends in *. split; intros [= ->]; naive_solver.
Qed.

Lemma timely_send d : timely (send_raw d).
Proof. intros t n c Hc. unfold send_raw. by destruct (writes c) as [|[]]. Qed.

Lemma timed_stream t n c c' :
  timed t n c -> read_timeout c' = read_timeout c -> len (stream c') <= len (stream c) -> timed t n c'.
Proof. intros (Ht & Hl & Hn) Ht' Hl'. split; [by rewrite Ht'|lia]. Qed.

(** A way of trying the buffer: it takes nothing from the script. *)
Definition tries_timely {A} (try : conn_io (option A)) : Prop :=
  timely try /\ forall c, inbox (try c).2 = inbox c.

Lemma try_raw_timely : tries_timely try_raw_response.
Proof.
  split.
  - intros t n c (Ht & Hl & Hn). pose proof (buf_le_stream c).
    destruct (try_raw_cases c ltac:(lia)) as [He|[(k & c' & _ & Hk & He & Hs & Hb & Hi)|(r & Hr & He)]].
    + rewrite He. cbn. by split; [apply ends_ok|].
    + rewrite He. cbn. split; [done|]. apply (timed_stream t n c); [done|apply Hs|].
      unfold stream. rewrite Hb, Hi. rewrite !len_app. unfold len at 1 3. rewrite length_drop. lia.
    + rewrite He. cbn. split; [|done]. split; intros ->;
        [by apply (try_raw_not_pending c c ltac:(lia))|].
      unfold try_raw_response, sbind, gets in He. case_bool_decide; [done|].
      pose proof (frame_rec_ok (S (length (buf c))) (buf c) ltac:(lia) ltac:(lia)) as Hok.
      change (frame_rec (S (length (buf c))) (buf c)) with (resp_frame_len (buf c)) in Hok.
      destruct (resp_frame_len (buf c)) as [m|e|p].
      * unfold buf_split_to in He. cbn in Hok. by rewrite slice_ok, slice_from_ok in He by lia.
      * by destruct e.
      * injection He as ->. cbn in Hok. unfold scanner_panic in Hok. by destruct Hok.
  - intros c. unfold try_raw_response, sbind, gets. case_bool_decide; [done|].
    destruct (resp_frame_len (buf c)) as [m|[]|]; try done. unfold buf_split_to.
    by destruct (@slice PyrsedisError (buf c) 0 m), (@slice_from PyrsedisError (buf c) m).
Qed.

Lemma parse_okay b : len b < ISIZE_MAX -> parse_ok b (parse b).
Proof. apply parse_rec_ok. lia. Qed.

Lemma parse_ends b : len b < ISIZE_MAX -> ends (parse b).
Proof.
  intros Hp%parse_okay. unfold parse_ok in Hp. destruct (parse b) as [[v n]|e|p]; [done..|].
  cbn in Hp. unfold parser_panic, scanner_panic in Hp. split; intros [= ->]; naive_solver.
Qed.

Lemma try_response_outcome c :
  inbox (try_response c).2 = inbox c /\ read_timeout (try_response c).2 = read_timeout c /\
  (len (buf c) < ISIZE_MAX ->
   ends (try_response c).1 /\ len (buf (try_response c).2) <= len (buf c)).
Proof.
  unfold try_response, sbind, gets, buf_split. case_bool_decide as Hb; [done|].
  pose proof (parse_okay (buf c)) as Hok. pose proof (parse_ends (buf c)) as Hends.
  destruct (parse (buf c)) as [[v k]|e|p].
  - destruct (Z.ltb_spec k (len (buf c))).
    + destruct (@slice_from PyrsedisError (buf c) k) as [r|e|p] eqn:Hs; cbn;
        (split_and!; [done..|]); intros Hm; specialize (Hok Hm) as [Hk _];
        rewrite slice_from_ok in Hs by lia; [injection Hs as <-|done|done].
      split; [done|]. unfold len. rewrite length_drop. lia.
    + cbn. split_and!; [done..|]. intros _. split; [done|]. apply len_nonneg.
  - destruct e; cbn; (split_and!; [done..|]); by intros _.
  - cbn. split_and!; [done..|]. intros Hm. specialize (Hends Hm) as [He1 He2].
    split; [|apply len_nonneg]. unfold ends. split; intros [= ->]; naive_solver.
Qed.

Lemma try_response_timely : tries_timely try_response.
Proof.
  split; [|intros c; apply try_response_outcome]. intros t n c Hc. pose proof Hc as (Ht & Hl & Hn).
  pose proof (buf_le_stream c). destruct (try_response_outcome c) as (Hi & Hto & Hb).
  destruct Hb as [He Hb]; [lia|]. split; [done|]. apply (timed_stream t n c); [done..|].
  unfold stream. rewrite Hi, !len_app. lia.
Qed.

Lemma read_events_timely t n c :
  timed t n c -> forall o c', read_events (inbox c) c = (o, c') ->
  ends o /\ timed t n c' /\
  (forall k, o = Ok k ->
     (list_sum (map event_size (inbox c')) < list_sum (map event_size (inbox c)))%nat).
Proof.
  intros Hc o c' Hr. pose proof (read_events_conserves _ _ _ _ Hr) as [Hs Hst].
  split_and!.
  - destruct Hc as [Ht _]. destruct (inbox c) as [|[[|x d]|e|] events]; cbn in Hr; rewrite ?Ht in Hr;
      by injection Hr as <- _.
  - apply (timed_stream t n c); [done|apply Hs|]. by rewrite Hst.
  - intros k ->. destruct Hc as [Ht _]. destruct (inbox c) as [|[[|x d]|e|] events] eqn:Hin;
      cbn [read_events] in Hr; rewrite ?Ht in Hr; try done.
    destruct (read_buf (x :: d) (set_inbox events c)) as [front c1] eqn:Hb. injection Hr as _ <-.
    destruct (read_buf_spec (x :: d) (set_inbox events c) front c1 ltac:(done) Hb)
      as (back & Hd & Hne & _ & -> & _).
    apply (f_equal length) in Hd. rewrite length_app in Hd. destruct front as [|y front]; [done|].
    case_bool_decide; rewrite !sizes_cons; cbn [inbox set_inbox event_size length] in *; lia.
Qed.

Lemma read_loop_timely {A} (try : conn_io (option A)) fuel t n c :
  tries_timely try -> (list_sum (map event_size (inbox c)) < fuel)%nat -> timed t n c ->
  ends (read_loop try fuel c).1 /\ timed t n (read_loop try fuel c).2.
Proof.
  intros [Htry Hin]. revert c. induction fuel as [|fuel IH]; intros c Hf Hc; [lia|].
  cbn [read_loop]. unfold sbind at 1 4. destruct (Htry t n c Hc) as [He Hc1]. specialize (Hin c) as Hi.
  destruct (try c) as [[[a|]|e|p] c1]; cbn in He, Hc1, Hi; [done| |done|].
  2: { split; [|done]. unfold ends in *. split; intros [= ->]; naive_solver. }
  destruct (ensure_room_outcome c1) as [[k Hk]|[Hk _]]; unfold sbind at 1 3; rewrite Hk; [|done].
  set (c2 := set_buf (buf c1) k c1). assert (timed t n c2) as Hc2 by exact Hc1.
  unfold sbind, read_with_timeout. destruct (read_events (inbox c2) c2) as [o c3] eqn:Hr.
  destruct (read_events_timely t n c2 Hc2 _ _ Hr) as (Ho & Hc3 & Hd).
  destruct o as [m|e|p]; [|done|].
  - apply IH; [|done]. specialize (Hd m eq_refl). change (inbox c2) with (inbox c1) in Hd.
    rewrite Hi in Hd. lia.
  - split; [|done]. unfold ends in *. split; intros [= ->]; naive_solver.
Qed.

(** The timeout is kept, however much the peer sends. *)
Definition keeps_timeout {A} (m : conn_io A) : Prop := forall c, read_timeout (m c).2 = read_timeout c.

Lemma keeps_bind {A B} (m : conn_io A) (f : A -> conn_io B) :
  keeps_timeout m -> (forall a, keeps_timeout (f a)) -> keeps_timeout (sbind m f).
Proof.
  intros Hm Hf c. unfold sbind. specialize (Hm c). destruct (m c) as [[a|e|p] c']; [|done..].
  cbn in Hm. rewrite <- Hm. apply Hf.
Qed.

Lemma keeps_lift {A} (r : Result A) : keeps_timeout (lift r).
Proof. done. Qed.

Lemma read_loop_keeps {A} (try : conn_io (option A)) fuel :
  keeps_timeout try -> keeps_timeout (read_loop try fuel).
Proof.
  intros Htry. induction fuel as [|fuel IH]; cbn [read_loop]; apply keeps_bind; try done;
    intros [a|]; try done.
  apply keeps_bind; [|intros _; apply keeps_bind; [|intros _; exact IH]].
  - intros c. destruct (ensure_room_outcome c) as [[k ->]|[-> _]]; done.
  - intros c. unfold read_with_timeout. destruct (read_events (inbox c) c) as [o c'] eqn:Hr.
    by apply read_events_conserves in Hr as [(_ & _ & _ & Ht & _) _].
Qed.

Lemma execute_str_keeps args : keeps_timeout (execute_str args).
Proof.
  apply keeps_bind; [intros c; unfold send_raw; by destruct (writes c) as [|[]]|].
  intros _ c. apply read_loop_keeps. intros c1. apply try_response_outcome.
Qed.

Lemma read_response_timely : timely read_response.
Proof.
  intros t n c Hc. apply read_loop_timely; [apply try_response_timely|unfold read_fuel; lia|done].
Qed.
Lemma read_raw_timely : timely read_raw_response.
Proof. intros t n c Hc. apply read_loop_timely; [apply try_raw_timely|unfold read_fuel; lia|done]. Qed.

Lemma execute_str_timely args : timely (execute_str args).
Proof. apply timely_bind; [apply timely_send|intros _; apply read_response_timely]. Qed.

Lemma init_timely username password db : timely (init username password db).
Proof.
  assert (forall what v, ends (expect_ok what v)) as Hok.
  { intros what v. unfold expect_ok. by destruct v; try case_bool_decide. }
  unfold init, auth, select_db. apply timely_bind.
  - destruct password as [pass|]; [|by apply timely_lift]. apply timely_bind.
    + destruct username; apply execute_str_timely.
    + intros v. by apply timely_lift.
  - intros _. destruct (db =? 0); [by apply timely_lift|].
    apply timely_bind; [apply execute_str_timely|]. intros v. by apply timely_lift.
Qed.

Lemma init_keeps username password db : keeps_timeout (init username password db).
Proof.
  unfold init, auth, select_db. apply keeps_bind.
  - destruct password as [pass|]; [|done]. apply keeps_bind; [|done].
    destruct username; apply execute_str_keeps.
  - intros _. destruct (db =? 0); [done|]. by apply keeps_bind; [apply execute_str_keeps|].
Qed.
End timely.

(** * The theorem at concrete scripts *)

(** A reply cut by the end of the stream, and one that is malformed in its second
    piece. *)
Definition cut_script : list Event := [Data (bs "$5" ++ CRLF); Data (bs "he"); Data []].
Definition bad_script : list Event := [Data (bs ":4"); Data (bs "x" ++ CRLF); Silence].

Lemma readers_refine_receive_witness :
  (read_response (H := release64) (H0 := exact_bytes) (test_conn cut_script)).1 =
    Err closed_by_server /\
  (read_response (H := release64) (H0 := exact_bytes) (test_conn bad_script)).1 =
    Err (Protocol (bs "invalid byte in integer: 0x78")).
Proof.
  split.
  - by rewrite (proj1 (readers_refine_receive (H := release64) (H0 := exact_bytes)
      (test_conn cut_script) ltac:(reflexivity) ltac:(vm_compute; discriminate))).
  - by rewrite (proj1 (readers_refine_receive (H := release64) (H0 := exact_bytes)
      (test_conn bad_script) ltac:(reflexivity) ltac:(vm_compute; discriminate))).
Defined.
