(* ===== verification/Pool.v ===== *)
(** src/connection/pool.rs: the connection pool. The operations are functions
    on the queue of idle connections; the tasks that share the pool are a step
    relation that interleaves the operations at the points where the code awaits,
    takes the lock of the queue or gives up a permit. *)

From Stdlib Require Import Strings.Byte.
From stdpp Require Import relations.
From S2P Require Import Prelude RustStd Error Types Parser Wire Writer Config Tcp.

(** What [ConnectionPool::new] checks: the queue is allocated for [pool_size]
    connections, which panics above [isize::MAX] bytes, and [Semaphore::new] panics
    above [MAX_PERMITS]. *)
Definition MAX_PERMITS : Z := Z.shiftr USIZE_MAX 3.

Definition new_checks `{Target} {E} (config : ConnectionConfig) : res E unit :=
  let? _ := with_capacity size_of_RedisConnection (pool_size config) in
  if pool_size config <=? MAX_PERMITS then Ok tt
  else Panic (Explicit (bs "a semaphore may not have more than MAX_PERMITS permits")).

(** A connection is large enough for the first check to imply the second. *)
Lemma new_checks_capacity `{Target} {E} config :
  0 <= pool_size config ->
  new_checks (E := E) config = with_capacity size_of_RedisConnection (pool_size config).
Proof.
  intros Hs. unfold new_checks, with_capacity.
  destruct (Z.leb_spec (size_of_RedisConnection * pool_size config) ISIZE_MAX) as [Hle|]; [|done].
  cbn [bind]. rewrite (proj2 (Z.leb_le _ _)); [done|].
  pose proof size_of_RedisConnection_ge. change MAX_PERMITS with (2 ^ 61 - 1).
  unfold ISIZE_MAX in Hle. nia.
Qed.

(** What the pool asks of a connection: when it was last used. *)
Class Pooled (Conn : Type) := { conn_last_used : Conn -> Z }.

(** What tells connections apart when several tasks share a pool: opening one
    gives a new identity, using one keeps it. *)
Class Identified (Conn : Type) := { conn_id : Conn -> nat }.

Section pool.
Context {Conn : Type} `{!Pooled Conn}.

(** [idle] is a deque, its back at the end of the list; [permits] are the
    available permits of the semaphore. *)
Record ConnectionPool := {
  idle : list Conn;
  permits : Z;
  max_size : Z;
  idle_timeout : Z
}.

Definition new (config : ConnectionConfig) : ConnectionPool :=
  {| idle := []; permits := pool_size config; max_size := pool_size config;
     idle_timeout := idle_timeout_ms config |}.

Definition idle_count (p : ConnectionPool) : Z := len (idle p).
Definition available (p : ConnectionPool) : Z := permits p.

(** [conn.last_used.elapsed() > self.idle_timeout] at time [now]. *)
Definition stale (now timeout : Z) (c : Conn) : bool := timeout <? now - conn_last_used c.

(** The [while let Some(conn) = idle.pop_back()], on the reversed queue. *)
Fixpoint pop_healthy (now timeout : Z) (rev_idle : list Conn) : option Conn * list Conn :=
  match rev_idle with
  | [] => (None, [])
  | c :: rest => if stale now timeout c then pop_healthy now timeout rest else (Some c, rest)
  end.

Definition take_healthy_connection (now timeout : Z) (idle : list Conn)
    : option Conn * list Conn :=
  let '(c, rest) := pop_healthy now timeout (reverse idle) in (c, reverse rest).

Definition set_idle (i : list Conn) (p : ConnectionPool) : ConnectionPool :=
  {| idle := i; permits := permits p; max_size := max_size p; idle_timeout := idle_timeout p |}.
Definition add_permits (d : Z) (p : ConnectionPool) : ConnectionPool :=
  {| idle := idle p; permits := permits p + d; max_size := max_size p;
     idle_timeout := idle_timeout p |}.

Definition return_connection (now : Z) (conn : Conn) (p : ConnectionPool) : ConnectionPool :=
  if stale now (idle_timeout p) conn then p
  else if len (idle p) <? max_size p then set_idle (idle p ++ [conn]) p
  else p.

(** * Tasks sharing the pool *)

Context `{!Identified Conn}.

(** Where a task is: outside; in [get] with a permit, before or after looking at
    the queue; holding a guard; in the guard's [drop], after
    [return_connection] and before its permit is released. *)
Inductive Task :=
| Outside
| Acquired
| Creating
| Holding (c : Conn)
| Releasing.

Record State := {
  pool : ConnectionPool;
  tasks : list Task;
  clock : Z
}.

(** Update the pool and one task. *)
Definition at_task (p : ConnectionPool) (l1 : list Task) (t : Task) (l2 : list Task) (n : Z)
    : State :=
  {| pool := p; tasks := l1 ++ t :: l2; clock := n |}.

Definition held (t : Task) : list Conn := match t with Holding c => [c] | _ => [] end.
Definition connections (s : State) : list Conn := idle (pool s) ++ concat (map held (tasks s)).

Inductive step : State -> State -> Prop :=
(** [semaphore.acquire().await] *)
| step_acquire p l1 l2 n :
    0 < permits p ->
    step (at_task p l1 Outside l2 n) (at_task (add_permits (-1) p) l1 Acquired l2 n)
(** under the lock: an idle connection, or none *)
| step_take p l1 l2 n c rest :
    take_healthy_connection n (idle_timeout p) (idle p) = (Some c, rest) ->
    step (at_task p l1 Acquired l2 n) (at_task (set_idle rest p) l1 (Holding c) l2 n)
| step_miss p l1 l2 n rest :
    take_healthy_connection n (idle_timeout p) (idle p) = (None, rest) ->
    step (at_task p l1 Acquired l2 n) (at_task (set_idle rest p) l1 Creating l2 n)
(** [create_connection().await?] *)
| step_created p l1 l2 n c :
    (conn_id c ∉ map conn_id (connections (at_task p l1 Creating l2 n))) ->
    step (at_task p l1 Creating l2 n) (at_task p l1 (Holding c) l2 n)
| step_create_failed p l1 l2 n :
    step (at_task p l1 Creating l2 n) (at_task (add_permits 1 p) l1 Outside l2 n)
(** the future of [get] is dropped *)
| step_cancelled p l1 l2 n t :
    (t = Acquired \/ t = Creating) ->
    step (at_task p l1 t l2 n) (at_task (add_permits 1 p) l1 Outside l2 n)
(** I/O on the connection of a guard *)
| step_use p l1 l2 n c c' :
    conn_id c' = conn_id c ->
    step (at_task p l1 (Holding c) l2 n) (at_task p l1 (Holding c') l2 n)
(** the guard is dropped: [return_connection], then the permit *)
| step_return p l1 l2 n c :
    step (at_task p l1 (Holding c) l2 n) (at_task (return_connection n c p) l1 Releasing l2 n)
(** [PoolGuard::take]: the connection leaves the pool *)
| step_take_out p l1 l2 n c :
    step (at_task p l1 (Holding c) l2 n) (at_task p l1 Releasing l2 n)
| step_release p l1 l2 n :
    step (at_task p l1 Releasing l2 n) (at_task (add_permits 1 p) l1 Outside l2 n)
(** time passes *)
| step_tick p ts n dt :
    0 <= dt ->
    step {| pool := p; tasks := ts; clock := n |} {| pool := p; tasks := ts; clock := n + dt |}.

Definition initial (config : ConnectionConfig) (k : nat) : State :=
  {| pool := new config; tasks := repeat Outside k; clock := 0 |}.

Definition reachable (config : ConnectionConfig) (k : nat) : State -> Prop :=
  rtc step (initial config k).

(** * The invariant *)

Definition permit_of (t : Task) : Z := match t with Outside => 0 | _ => 1 end.
Definition busy (t : Task) : Z := match t with Holding _ | Creating => 1 | _ => 0 end.
Definition total (f : Task -> Z) (ts : list Task) : Z := foldr (fun t n => f t + n) 0 ts.

Record pool_ok (max : Z) (s : State) : Prop := {
  ok_size : max_size (pool s) = max;
  ok_permits : permits (pool s) + total permit_of (tasks s) = max /\ 0 <= permits (pool s);
  ok_busy : len (idle (pool s)) + total busy (tasks s) <= max;
  ok_unique : NoDup (map conn_id (connections s))
}.

Lemma total_app f l1 l2 : total f (l1 ++ l2) = total f l1 + total f l2.
Proof. unfold total. induction l1; simpl; lia. Qed.

Lemma total_at f l1 t l2 : total f (l1 ++ t :: l2) = total f l1 + f t + total f l2.
Proof. rewrite total_app. unfold total. simpl. lia. Qed.

Lemma total_nonneg f ts : (forall t, 0 <= f t) -> 0 <= total f ts.
Proof. intros Hf. unfold total. induction ts as [|t ts IH]; simpl; [lia|]. pose proof (Hf t). lia. Qed.

Lemma busy_permit ts : total busy ts <= total permit_of ts.
Proof. unfold total. induction ts as [|[] ts IH]; simpl; lia. Qed.

Lemma held_at l1 t l2 :
  concat (map held (l1 ++ t :: l2)) ≡ₚ held t ++ concat (map held (l1 ++ l2)).
Proof.
  rewrite !map_app, !concat_app. simpl. rewrite !app_assoc. f_equiv. apply Permutation_app_comm.
Qed.

Lemma pop_healthy_spec n timeout l c rest :
  pop_healthy n timeout l = (c, rest) ->
  exists dropped, l = dropped ++ option_list c ++ rest /\
    Forall (fun d => stale n timeout d = true) dropped /\
    match c with
    | Some c => stale n timeout c = false
    | None => rest = []
    end.
Proof.
  revert c rest. induction l as [|d l IH]; simpl; intros c rest Hp.
  { simplify_eq. by exists []. }
  destruct (stale n timeout d) eqn:Hd.
  - destruct (IH _ _ Hp) as (dropped & -> & ? & ?). exists (d :: dropped). simpl.
    split_and!; [done|by constructor|done].
  - simplify_eq. exists []. split_and!; [done|constructor|done].
Qed.

(** What the queue loses: the stale connections at its back and the one taken. *)
Lemma take_healthy_spec n timeout l c rest :
  take_healthy_connection n timeout l = (c, rest) ->
  exists dropped, l = rest ++ option_list c ++ dropped /\
    Forall (fun d => stale n timeout d = true) dropped /\
    match c with
    | Some c => stale n timeout c = false
    | None => rest = []
    end.
Proof.
  unfold take_healthy_connection. destruct (pop_healthy _ _ _) as [c' r] eqn:Hp.
  intros He. simplify_eq. apply pop_healthy_spec in Hp as (dropped & Hl & Hd & Hc).
  exists (reverse dropped). split_and!.
  - rewrite <- (reverse_involutive l), Hl, !reverse_app, <- app_assoc. by destruct c.
  - by apply Forall_reverse.
  - destruct c; [done|]. by subst.
Qed.

(** The invariant at a state, seen from one of its tasks. *)
Lemma at_task_ok max p l1 t l2 n :
  pool_ok max (at_task p l1 t l2 n) <->
  max_size p = max /\ permits p + permit_of t + total permit_of (l1 ++ l2) = max /\
  0 <= permits p /\ len (idle p) + busy t + total busy (l1 ++ l2) <= max /\
  NoDup (map conn_id (idle p ++ held t ++ concat (map held (l1 ++ l2)))).
Proof.
  assert (map conn_id (connections (at_task p l1 t l2 n)) ≡ₚ
    map conn_id (idle p ++ held t ++ concat (map held (l1 ++ l2)))) as Hperm.
  { apply Permutation_map. unfold connections. simpl. by rewrite held_at. }
  split.
  - intros [Hsz [Hp Hpos] Hb Hu]. simpl in *. rewrite total_at in Hp, Hb.
    rewrite !total_app. rewrite Hperm in Hu. split_and!; [done|lia|done|lia|done].
  - intros (Hsz & Hp & Hpos & Hb & Hu). rewrite total_app in Hp, Hb.
    constructor; simpl; rewrite ?total_at; [done|lia|lia|]. by rewrite Hperm.
Qed.

Lemma others_bound max p l1 t l2 n :
  pool_ok max (at_task p l1 t l2 n) -> total busy (l1 ++ l2) + permit_of t <= max.
Proof.
  rewrite at_task_ok. intros (_ & Hp & Hpos & _). pose proof (busy_permit (l1 ++ l2)). lia.
Qed.

Lemma NoDup_ids_sub l k :
  NoDup (map conn_id l) -> sublist k l -> NoDup (map conn_id k).
Proof. intros Hn Hs. eapply sublist_NoDup; [exact Hn|]. by apply (fmap_sublist conn_id). Qed.

(** A connection a task holds always fits back in the queue. *)
Lemma return_fits max p l1 c l2 n n' :
  pool_ok max (at_task p l1 (Holding c) l2 n) ->
  return_connection n' c p =
  if stale n' (idle_timeout p) c then p else set_idle (idle p ++ [c]) p.
Proof.
  rewrite at_task_ok. intros (Hsz & _ & _ & Hb & _). unfold return_connection.
  assert (0 <= total busy (l1 ++ l2)) by (apply total_nonneg; by intros []).
  simpl in Hb. by rewrite (proj2 (Z.ltb_lt _ _)) by lia.
Qed.

(** Every step keeps the invariant. *)
Lemma step_ok max s s' : pool_ok max s -> step s s' -> pool_ok max s'.
Proof.
  intros Hok Hs.
  destruct Hs as [p l1 l2 n Hp|p l1 l2 n c rest Ht|p l1 l2 n rest Ht|p l1 l2 n c Hc|p l1 l2 n
    |p l1 l2 n t Ht|p l1 l2 n c c' Hid|p l1 l2 n c|p l1 l2 n c|p l1 l2 n|p ts n dt Hdt].
  11: { by destruct Hok. }
  all: pose proof (others_bound _ _ _ _ _ _ Hok) as Hothers.
  8: rewrite (return_fits _ _ _ _ _ _ _ Hok).
  all: apply at_task_ok in Hok as (Hsz & Hperm & Hpos & Hbusy & Huniq).
  all: apply at_task_ok; cbn [permit_of busy held app add_permits set_idle permits idle max_size] in *.
  - split_and!; [done|lia..|done].
  - apply take_healthy_spec in Ht as (dropped & Hi & _ & _). rewrite Hi in Hbusy, Huniq.
    change (option_list (Some c) ++ dropped) with (c :: dropped) in *. split_and!; [done|lia|done|len_lia|].
    eapply NoDup_ids_sub; [exact Huniq|]. rewrite <- app_assoc. apply sublist_app; [done|].
    simpl. apply sublist_skip. by apply sublist_inserts_l.
  - apply take_healthy_spec in Ht as (dropped & Hi & _ & ->).
    split_and!; [done|lia|done|rewrite len_nil; lia|]. rewrite Hi in Huniq.
    eapply NoDup_ids_sub; [exact Huniq|]. by apply sublist_inserts_l.
  - split_and!; [done|lia|done|lia|]. rewrite <- Permutation_middle. simpl.
    apply NoDup_cons. split; [|done]. intros Hin. apply Hc. unfold connections. simpl.
    by rewrite held_at.
  - split_and!; [done|lia|lia|lia|done].
  - destruct Ht as [-> | ->]; cbn [permit_of busy held app] in *; split_and!; try done; lia.
  - split_and!; try done. rewrite map_app in *. simpl in *. by rewrite Hid.
  - destruct (stale _ _ _); cbn [set_idle permits idle max_size].
    + split_and!; [done|lia|done|lia|]. eapply NoDup_ids_sub; [exact Huniq|].
      apply sublist_app; [done|]. by apply sublist_cons.
    + rewrite <- app_assoc. split_and!; [done|lia|done|len_lia|done].
  - split_and!; [done|lia|done|lia|]. eapply NoDup_ids_sub; [exact Huniq|].
    apply sublist_app; [done|]. by apply sublist_cons.
  - split_and!; [done|lia|lia|lia|done].
Qed.

Lemma initial_ok config k : 0 <= pool_size config -> pool_ok (pool_size config) (initial config k).
Proof.
  intros Hp. assert (total permit_of (repeat Outside k) = 0 /\ total busy (repeat Outside k) = 0 /\
    concat (map held (repeat Outside k)) = []) as (H1 & H2 & H3).
  { unfold total. induction k as [|k IH]; simpl; naive_solver lia. }
  constructor; unfold connections; cbn [pool tasks initial new permits idle max_size];
    rewrite ?H1, ?H2, ?H3; [done|lia|unfold len; simpl; lia|constructor].
Qed.

Lemma reachable_ok config k s :
  0 <= pool_size config -> reachable config k s -> pool_ok (pool_size config) s.
Proof.
  intros Hp Hr. eapply (rtc_ind_r (pool_ok (pool_size config))); [| |exact Hr].
  - by apply initial_ok.
  - intros x y _ Hs Hok. by eapply step_ok.
Qed.

(** C13: the pool never over-commits: in every reachable state the free
    permits and the tasks inside the pool add up to the configured size, idle
    plus checked-out plus opening connections stay within it, and no connection
    is owned twice (queued or held by two tasks). *)
Theorem pool_never_overcommits config k s :
  0 <= pool_size config -> reachable config k s ->
  permits (pool s) + total permit_of (tasks s) = pool_size config /\
  idle_count (pool s) + total busy (tasks s) <= pool_size config /\
  NoDup (map conn_id (connections s)).
Proof. intros Hp Hr. destruct (reachable_ok config k s Hp Hr) as [_ [? _] ? ?]. done. Qed.

(** Returning a connection never loses a fresh one: when a guard is
    dropped in a reachable state the connection goes to the back of the queue
    unless it is stale; the "pool is full" branch is never taken. *)
Theorem guard_drop_returns config k p l1 c l2 n :
  0 <= pool_size config -> reachable config k (at_task p l1 (Holding c) l2 n) ->
  return_connection n c p =
  if idle_timeout p <? n - conn_last_used c then p else set_idle (idle p ++ [c]) p.
Proof. intros Hp Hr. eapply return_fits, reachable_ok; [exact Hp|exact Hr]. Qed.

Lemma stale_true now timeout c :
  stale now timeout c = true <-> timeout < now - conn_last_used c.
Proof. apply Z.ltb_lt. Qed.
Lemma stale_false now timeout c :
  stale now timeout c = false <-> now - conn_last_used c <= timeout.
Proof. apply Z.ltb_ge. Qed.

(** The pool hands out the most recently returned connection that is not
    stale: what it takes was last used at most [timeout] ago, everything behind it
    in the queue was idle for longer and is dropped, everything before it stays. *)
Theorem take_healthy_lifo n timeout l c rest :
  take_healthy_connection n timeout l = (Some c, rest) <->
  exists dropped, l = rest ++ [c] ++ dropped /\ n - conn_last_used c <= timeout /\
    Forall (fun d => timeout < n - conn_last_used d) dropped.
Proof.
  setoid_rewrite <- stale_true. setoid_rewrite <- stale_false.
  split.
  - intros Ht. apply take_healthy_spec in Ht as (dropped & -> & ? & ?). by exists dropped.
  - intros (dropped & -> & Hc & Hd). unfold take_healthy_connection.
    rewrite !reverse_app. change (reverse [c]) with [c].
    assert (pop_healthy n timeout ((reverse dropped ++ [c]) ++ reverse rest) =
      (Some c, reverse rest)) as ->.
    { apply Forall_reverse in Hd. rewrite <- app_assoc. simpl.
      induction Hd as [|d ds Hdd _ IH]; simpl; [by rewrite Hc|by rewrite Hdd]. }
    by rewrite reverse_involutive.
Qed.

(** With a pool of size zero no task ever gets past the semaphore: every
    task of every reachable state is still waiting to acquire a permit. *)
Theorem empty_pool_blocks config k s t :
  pool_size config = 0 -> reachable config k s -> t ∈ tasks s -> t = Outside.
Proof.
  intros Hp Hr Hin. destruct (reachable_ok config k s ltac:(lia) Hr) as [_ [Hperm Hpos] _ _].
  rewrite Hp in Hperm. apply list_elem_of_split in Hin as (l1 & l2 & Heq).
  rewrite Heq, total_at in Hperm.
  assert (forall l, 0 <= total permit_of l) as Hn by (intros; apply total_nonneg; by intros []).
  pose proof (Hn l1). pose proof (Hn l2). destruct t; simpl in Hperm; [done|lia..].
Qed.
End pool.
Arguments ConnectionPool : clear implicits.
Arguments Task : clear implicits.
Arguments State : clear implicits.

(** * Opening connections *)

#[export] Instance redis_pooled : Pooled RedisConnection :=
  {| conn_last_used := last_used |}.

Section create.
Context `{Target} `{BytesMut}.

Definition create_connection (outcome : DialOutcome) (config : ConnectionConfig)
    : Result RedisConnection :=
  if tls config
  then Err (Protocol (bs "TLS connections (rediss://) are not yet supported. Use redis:// or set tls=false."))
  else
  let addr := primary_addr config in
  let? conn := connect_timeout_with_max_buf outcome addr (connect_timeout_ms config)
    (max_buffer_size config) in
  let conn := set_read_timeout (read_timeout_ms config) conn in
  let '(r, conn) := init (username config) (password config) (db config) conn in
  let? _ := r in
  Ok conn.
End create.

(** * The theorems at concrete pools *)

Section witnesses.
#[local] Instance int_pooled : Pooled Z := {| conn_last_used c := c |}.
#[local] Instance int_identified : Identified Z := {| conn_id := Z.to_nat |}.

(** Two tasks take, open, use and return connections. *)
Definition one_held : State Z :=
  at_task {| idle := []; permits := 7; max_size := 8; idle_timeout := 300000 |}
    [] (Holding 5) [Outside] 10.

Lemma one_held_reachable : reachable (Conn := Z) default_config 2 one_held.
Proof.
  unfold reachable, initial, new, one_held. simpl.
  eapply rtc_l; [apply (step_acquire _ [] [Outside] 0); simpl; unfold default_config; simpl; lia|].
  eapply rtc_l; [apply (step_miss _ [] [Outside] 0); reflexivity|].
  eapply rtc_l; [apply (step_created _ [] [Outside] 0 5); apply not_elem_of_nil|].
  apply rtc_once. apply (step_tick _ _ 0 10). lia.
Qed.

Lemma pool_never_overcommits_witness :
  permits (pool one_held) + total permit_of (tasks one_held) = 8 /\
  idle_count (pool one_held) + total busy (tasks one_held) <= 8 /\
  NoDup (map conn_id (connections one_held)).
Proof.
  apply (pool_never_overcommits default_config 2 one_held);
    [vm_compute; discriminate|apply one_held_reachable].
Defined.

Lemma guard_drop_returns_witness :
  return_connection 10 5 (pool one_held) = set_idle [5] (pool one_held).
Proof.
  exact (guard_drop_returns default_config 2 (pool one_held) [] 5 [Outside] 10
    ltac:(vm_compute; discriminate) one_held_reachable).
Defined.

Definition no_pool : ConnectionConfig :=
  {| host := bs "h"; port := 1; username := None; password := None; db := 0; tls := false;
     topology := Standalone; pool_size := 0; connect_timeout_ms := 0; read_timeout_ms := 0;
     idle_timeout_ms := 0; max_buffer_size := 0 |}.

Lemma empty_pool_blocks_witness : @Outside Z = Outside.
Proof.
  apply (empty_pool_blocks no_pool 1 (initial no_pool 1)); [reflexivity|constructor|].
  by left.
Defined.
End witnesses.
