(* ===== verification/PoolLive.v ===== *)
(** Waiting for a connection (src/connection/pool.rs, [get]): tokio's semaphore
    serves the tasks that wait for a permit in the order in which they asked.
    Together with callers that eventually drop their guards, this makes every
    waiting task get its connection. *)

From stdpp Require Import relations.
From S2P Require Import Prelude Config Pool.

Section live.
Context {Conn : Type} `{!Pooled Conn} `{!Identified Conn}.

(** The pool's tasks, with the queue of those that wait in
    [semaphore.acquire().await], the first to be served at its head. *)
Record Waiting := {
  base : State Conn;
  queue : list nat
}.

Definition task_at (s : Waiting) (t : nat) : option (Task Conn) := tasks (base s) !! t.

(** What happens: a task starts to wait, gets its permit, gives up waiting, or
    something else happens in the pool. *)
Inductive Event := Join (t : nat) | Grant (t : nat) | Cancel (t : nat) | Inner.

(** The step of Pool.v by which task [t] takes a permit. *)
Definition acquires (t : nat) (s s' : State Conn) : Prop :=
  exists p l1 l2 n, length l1 = t /\ 0 < permits p /\
    s = at_task p l1 Outside l2 n /\ s' = at_task (add_permits (-1) p) l1 Acquired l2 n.

(** A step by which no task takes a permit. *)
Definition inner (s s' : State Conn) : Prop :=
  step s s' /\ forall t, tasks s !! t = Some Outside -> tasks s' !! t = Some Outside.

Inductive fair_step : Waiting -> Event -> Waiting -> Prop :=
| fair_join s q t :
    tasks s !! t = Some Outside -> t ∉ q ->
    fair_step {| base := s; queue := q |} (Join t) {| base := s; queue := q ++ [t] |}
| fair_grant s s' t q :
    acquires t s s' ->
    fair_step {| base := s; queue := t :: q |} (Grant t) {| base := s'; queue := q |}
| fair_cancel s q1 t q2 :
    fair_step {| base := s; queue := q1 ++ t :: q2 |} (Cancel t) {| base := s; queue := q1 ++ q2 |}
| fair_inner s s' q :
    inner s s' -> fair_step {| base := s; queue := q |} Inner {| base := s'; queue := q |}.

(** * Steps *)

Lemma acquires_step t s s' : acquires t s s' -> step s s'.
Proof. intros (p & l1 & l2 & n & _ & Hp & -> & ->). by constructor. Qed.

Lemma fair_base s e s' : fair_step s e s' -> base s = base s' \/ step (base s) (base s').
Proof.
  destruct 1 as [| s s' t q Ha | |s s' q [Hs _]]; cbn; auto. right. by eapply acquires_step.
Qed.

(** A task that moves from inside the pool to outside gives its permit back. *)
Lemma at_task_lookup p l1 (u : Task Conn) l2 n t :
  tasks (at_task p l1 u l2 n) !! t =
  if decide (t = length l1) then Some u else (l1 ++ l2) !! (if decide (t < length l1)%nat then t else pred t).
Proof.
  cbn. case_decide as Ht.
  - subst. apply list_lookup_middle. done.
  - case_decide as Hl.
    + by rewrite !lookup_app_l by done.
    + rewrite !lookup_app_r by lia. replace (t - length l1)%nat with (S (pred t - length l1)) by lia.
      done.
Qed.

Lemma exit_frees s s' t u :
  step s s' -> tasks s !! t = Some u -> u <> Outside -> tasks s' !! t = Some Outside ->
  permits (pool s') = permits (pool s) + 1.
Proof.
  intros Hs Hu Hne Ho.
  destruct Hs; [..|by simplify_eq/=];
    rewrite at_task_lookup in Hu, Ho; case_decide; simplify_eq; done.
Qed.

(** Only a grant takes permits away. *)
Lemma permits_kept s e s' :
  fair_step s e s' -> (forall t, e <> Grant t) ->
  permits (pool (base s)) <= permits (pool (base s')).
Proof.
  intros Hs Hne. destruct Hs as [|s s' t q _| |s s' q [Hs Hin]]; cbn; [lia|by destruct (Hne t)|lia|].
  destruct Hs as [p l1 l2 n Hp| | | | | | |p l1 l2 n c| | |]; cbn; try lia.
  - specialize (Hin (length l1)). rewrite !at_task_lookup, !decide_True in Hin by done.
    by specialize (Hin eq_refl).
  - unfold return_connection. destruct (stale _ _ _); [lia|]. destruct (_ <? _); cbn; lia.
Qed.

(** * Runs *)

(** An infinite run from the initial state, with its events. *)
Record run (config : ConnectionConfig) (k : nat) (s : nat -> Waiting) (e : nat -> Event) : Prop := {
  run_initial : s 0%nat = {| base := initial config k; queue := [] |};
  run_steps n : fair_step (s n) (e n) (s (S n))
}.

(** Callers finish: a task that has a permit (it opens a connection, uses it or
    gives it back) does not keep it for ever. *)
Definition callers_finish (s : nat -> Waiting) : Prop :=
  forall n t u, task_at (s n) t = Some u -> u <> Outside ->
    exists m, (n <= m)%nat /\ task_at (s m) t = Some Outside.

(** The semaphore is awake: it does not leave a free permit and a waiting task
    side by side for ever. *)
Definition grantable (s : Waiting) : Prop := queue s <> [] /\ 0 < permits (pool (base s)).
Definition semaphore_awake (s : nat -> Waiting) (e : nat -> Event) : Prop :=
  forall n, exists m, (n <= m)%nat /\ (~ grantable (s m) \/ exists t, e m = Grant t).

Section runs.
Context (config : ConnectionConfig) (k : nat) (s : nat -> Waiting) (e : nat -> Event).
Hypothesis Hrun : run config k s e.
Hypothesis Hsize : 0 < pool_size config.

Lemma run_ok n : pool_ok (pool_size config) (base (s n)).
Proof.
  induction n as [|n IH].
  - rewrite (run_initial _ _ _ _ Hrun). apply initial_ok. lia.
  - destruct (fair_base _ _ _ (run_steps _ _ _ _ Hrun n)) as [<-|Hs]; [done|]. by eapply step_ok.
Qed.

(** A task that is inside at [n] and outside at [m] left in between. *)
Lemma crossing n m t u :
  (n <= m)%nat -> task_at (s n) t = Some u -> u <> Outside -> task_at (s m) t = Some Outside ->
  exists i u', (n <= i < m)%nat /\ task_at (s i) t = Some u' /\ u' <> Outside /\
    task_at (s (S i)) t = Some Outside.
Proof.
  intros Hnm Hn Hu. revert Hnm. induction m as [|m IH]; intros Hnm Hm.
  { assert (n = 0%nat) as -> by lia. simplify_eq. }
  destruct (decide (n = S m)) as [->|Hne]; [simplify_eq|].
  destruct (task_at (s m) t) as [[| | |c|]|] eqn:Ht.
  - destruct IH as (i & u' & Hi & ?); [lia|done|]. exists i, u'. split; [lia|done].
  - exists m, Acquired. split_and!; [lia|lia|done..].
  - exists m, Creating. split_and!; [lia|lia|done..].
  - exists m, (Holding c). split_and!; [lia|lia|done..].
  - exists m, Releasing. split_and!; [lia|lia|done..].
  - exfalso. destruct (fair_base _ _ _ (run_steps _ _ _ _ Hrun m)) as [Hb|Hs].
    + unfold task_at in *. by rewrite Hb, Hm in Ht.
    + unfold task_at in *. apply lookup_ge_None_1 in Ht. apply lookup_lt_Some in Hm.
      assert (length (tasks (base (s m))) = length (tasks (base (s (S m))))) by
        (destruct Hs; cbn; rewrite ?length_app; done). lia.
Qed.

(** Some task is inside when no permit is free. *)
Lemma someone_inside (ts : list (Task Conn)) :
  0 < total permit_of ts -> exists t u, ts !! t = Some u /\ u <> Outside.
Proof.
  unfold total. induction ts as [|u ts IH]; cbn [foldr]; [lia|]. intros Ht.
  destruct u; [|by exists 0%nat, Acquired|by exists 0%nat, Creating|by eexists 0%nat, _
    |by exists 0%nat, Releasing].
  destruct IH as (t & u & Hu); [done|]. by exists (S t), u.
Qed.

Lemma permit_appears n :
  callers_finish s -> exists m, (n <= m)%nat /\ 0 < permits (pool (base (s m))).
Proof.
  intros Hf. destruct (run_ok n) as [_ [Hp Hpos] _ _].
  destruct (Z.lt_ge_cases 0 (permits (pool (base (s n))))) as [|Hz]; [by exists n|].
  destruct (someone_inside (tasks (base (s n)))) as (t & u & Hu & Hne); [lia|].
  destruct (Hf n t u Hu Hne) as (m & Hnm & Hm).
  destruct (crossing n m t u Hnm Hu Hne Hm) as (i & u' & Hi & Hu' & Hne' & Ho).
  exists (S i). split; [lia|]. destruct (run_ok i) as [_ [_ Hpi] _ _]. unfold task_at in *.
  destruct (fair_base _ _ _ (run_steps _ _ _ _ Hrun i)) as [Hb|Hs].
  - rewrite Hb in Hu'. by simplify_eq.
  - rewrite (exit_frees _ _ _ _ Hs Hu' Hne' Ho). lia.
Qed.

(** ** A waiting task *)

Section waiter.
Context (t : nat).

(** The wait of [t] ends. *)
Definition ends (ev : Event) : Prop := ev = Grant t \/ ev = Cancel t.
#[local] Instance ends_dec ev : Decision (ends ev).
Proof.
  destruct ev as [u|u|u|]; [right|destruct (decide (u = t)) as [->|]; [left|right]
    |destruct (decide (u = t)) as [->|]; [left|right]|right]; unfold ends; naive_solver.
Defined.

(** Until then, [t] keeps its place or moves forward, and a grant moves it. *)
Lemma place_step w w' ev q1 q2 :
  fair_step w ev w' -> queue w = q1 ++ t :: q2 -> ~ ends ev ->
  exists q1' q2', queue w' = q1' ++ t :: q2' /\ (length q1' <= length q1)%nat /\
    forall u, ev = Grant u -> (length q1' < length q1)%nat.
Proof.
  intros Hs Hq He. destruct Hs as [b q u _ _|b b' u q _|b r1 u r2|b b' q _]; cbn in Hq |- *.
  - exists q1, (q2 ++ [u]). subst q. rewrite <- app_assoc. split_and!; [done|done|naive_solver].
  - destruct q1 as [|x q1]; simplify_eq/=; [destruct He; by left|].
    exists q1, q2. split_and!; [done|lia|intros; lia].
  - assert (u <> t) as Hut by (intros ->; destruct He; by right).
    apply app_eq_app in Hq as (l & [[-> Hl]|[-> Hl]]).
    + destruct l as [|x l]; simplify_eq/=. exists q1, (l ++ r2).
      rewrite <- app_assoc. split_and!; [done|done|naive_solver].
    + destruct l as [|x l]; simplify_eq/=. exists (r1 ++ l), q2.
      rewrite <- app_assoc, !length_app. cbn. split_and!; [done|lia|naive_solver].
  - exists q1, q2. split_and!; [done|done|naive_solver].
Qed.

Lemma place n q1 q2 m :
  (n <= m)%nat -> queue (s n) = q1 ++ t :: q2 ->
  (exists i, (n <= i)%nat /\ ends (e i)) \/
  exists q1' q2', queue (s m) = q1' ++ t :: q2' /\ (length q1' <= length q1)%nat /\
    forall i u, (n <= i < m)%nat -> e i = Grant u -> (length q1' < length q1)%nat.
Proof.
  intros Hnm Hq. induction m as [|m IH].
  { right. exists q1, q2. assert (n = 0%nat) as -> by lia. split_and!; [done|done|lia]. }
  destruct (decide (n = S m)) as [->|Hne].
  { right. exists q1, q2. split_and!; [done|done|lia]. }
  destruct IH as [?|(r1 & r2 & Hr & Hl & Hg)]; [lia|by left|].
  destruct (decide (ends (e m))) as [He|He]; [left; exists m; split; [lia|done]|right].
  destruct (place_step _ _ _ r1 r2 (run_steps _ _ _ _ Hrun m) Hr He) as (p1 & p2 & Hp & Hlp & Hgp).
  exists p1, p2. split_and!; [done|lia|]. intros i u Hi Hu.
  destruct (decide (i = m)) as [->|]; [specialize (Hgp u Hu); lia|].
  specialize (Hg i u ltac:(lia) Hu). lia.
Qed.

(** While [t] waits and no one is granted a permit, a free permit stays free. *)
Lemma permit_stays n m :
  (n <= m)%nat -> 0 < permits (pool (base (s n))) ->
  (exists i u, (n <= i)%nat /\ e i = Grant u) \/ 0 < permits (pool (base (s m))).
Proof.
  intros Hnm Hp. induction m as [|m IH]; [right; by assert (n = 0%nat) as -> by lia|].
  destruct (decide (n = S m)) as [->|Hne]; [by right|].
  destruct IH as [?|IH]; [lia|by left|].
  pose proof (run_steps _ _ _ _ Hrun m) as Hs.
  destruct (e m) as [u|u|u|] eqn:He;
    [right|left; exists m, u; split; [lia|done]|right|right];
    (eapply Z.lt_le_trans; [exact IH|]); by eapply permits_kept.
Qed.

(** A waiting task sees a grant, or the end of its wait. *)
Lemma someone_granted n q1 q2 :
  callers_finish s -> semaphore_awake s e -> queue (s n) = q1 ++ t :: q2 ->
  (exists i, (n <= i)%nat /\ ends (e i)) \/ exists i u, (n <= i)%nat /\ e i = Grant u.
Proof.
  intros Hf Ha Hq. destruct (permit_appears n Hf) as (m & Hnm & Hp).
  destruct (Ha m) as (j & Hmj & [Hj|[u Hu]]); [|right; exists j, u; split; [lia|done]].
  destruct (permit_stays m j Hmj Hp) as [(i & u & Hi & Hu)|Hpj].
  { right. exists i, u. split; [lia|done]. }
  destruct (place n q1 q2 j ltac:(lia) Hq) as [?|(r1 & r2 & Hr & _)]; [by left|].
  destruct Hj. split; [|done]. rewrite Hr. by destruct r1.
Qed.
End waiter.

(** C16: Every task that waits for a connection is served: in a run where callers
    finish and the semaphore hands out free permits, a task in the queue gets its
    permit after finitely many steps, unless it gives up by itself. *)
Theorem waiting_task_served n t :
  callers_finish s -> semaphore_awake s e -> t ∈ queue (s n) ->
  exists m, (n <= m)%nat /\ (e m = Grant t \/ e m = Cancel t).
Proof.
  intros Hf Ha Hin. apply list_elem_of_split in Hin as (q1 & q2 & Hq).
  remember (length q1) as len eqn:Hlen. revert n q1 q2 Hq Hlen.
  induction (lt_wf len) as [len _ IH]. intros n q1 q2 Hq ->.
  destruct (someone_granted t n q1 q2 Hf Ha Hq) as [?|(i & u & Hi & Hu)]; [done|].
  destruct (place t n q1 q2 (S i) ltac:(lia) Hq) as [?|(r1 & r2 & Hr & _ & Hl)]; [done|].
  specialize (Hl i u ltac:(lia) Hu).
  destruct (IH (length r1) Hl (S i) r1 r2 Hr eq_refl) as (m & Hm & Hend).
  exists m. split; [lia|done].
Qed.
End runs.
End live.

(** * The theorem at a concrete run *)

Section witness.
#[local] Instance int_pooled : Pooled Z := {| conn_last_used c := c |}.
#[local] Instance int_identified : Identified Z := {| conn_id := Z.to_nat |}.

(** A pool of one connection and two tasks: the second waits while the first has
    the permit, and is served when the first gives up. *)
Definition one_connection : ConnectionConfig :=
  {| host := []; port := 1; username := None; password := None; db := 0; tls := false;
     topology := Standalone; pool_size := 1; connect_timeout_ms := 0; read_timeout_ms := 0;
     idle_timeout_ms := 0; max_buffer_size := 0 |}.

Definition snapshot (free : Z) (a b : Task Z) (q : list nat) : Waiting (Conn := Z) :=
  {| base := {| pool := {| idle := []; permits := free; max_size := 1; idle_timeout := 0 |};
                tasks := [a; b]; clock := 0 |};
     queue := q |}.

Definition demo (n : nat) : Waiting (Conn := Z) * Event :=
  match n with
  | 0 => (snapshot 1 Outside Outside [], Join 0)
  | 1 => (snapshot 1 Outside Outside [0%nat], Grant 0)
  | 2 => (snapshot 0 Acquired Outside [], Join 1)
  | 3 => (snapshot 0 Acquired Outside [1%nat], Inner)
  | 4 => (snapshot 1 Outside Outside [1%nat], Grant 1)
  | 5 => (snapshot 0 Outside Acquired [], Inner)
  | _ => (snapshot 1 Outside Outside [], Inner)
  end%nat.

Definition empty_pool (free : Z) : ConnectionPool Z :=
  {| idle := []; permits := free; max_size := 1; idle_timeout := 0 |}.

Lemma demo_run : run one_connection 2 (fun n => (demo n).1) (fun n => (demo n).2).
Proof.
  constructor; [done|]. intros [|[|[|[|[|[|n]]]]]]; cbn.
  - by constructor; [|apply not_elem_of_nil].
  - constructor. by exists (empty_pool 1), [], [Outside], 0.
  - by constructor; [|apply not_elem_of_nil].
  - constructor. split; [|by intros [|[|]]].
    exact (step_cancelled (empty_pool 0) [] [Outside] 0 Acquired (or_introl eq_refl)).
  - constructor. by exists (empty_pool 1), [Outside], [], 0.
  - constructor. split; [|by intros [|[|]]].
    exact (step_cancelled (empty_pool 0) [Outside] [] 0 Acquired (or_introl eq_refl)).
  - constructor. split; [|done]. apply (step_tick (empty_pool 1) [Outside; Outside] 0 0). lia.
Qed.

Lemma waiting_task_served_witness :
  exists m, (3 <= m)%nat /\ ((demo m).2 = Grant 1 \/ (demo m).2 = Cancel 1).
Proof.
  apply (waiting_task_served one_connection 2 _ _ demo_run ltac:(reflexivity) 3 1).
  - intros n t u Hu Hne. exists (max n 6). split; [lia|].
    destruct (max n 6) as [|[|[|[|[|[|m]]]]]] eqn:Hm; try lia.
    destruct t as [|[|t]]; [done|done|]. exfalso. unfold task_at in Hu.
    by destruct n as [|[|[|[|[|[|n]]]]]].
  - intros n. exists (max n 6). split; [lia|]. left.
    destruct (max n 6) as [|[|[|[|[|[|m]]]]]] eqn:Hm; try lia. by intros [Hq _].
  - apply list_elem_of_here.
Defined.
End witness.
