(* ===== verification/Standalone.v ===== *)
(** src/router/standalone.rs (and the [Router] trait of src/router/mod.rs): the
    router of a single server. A caller's view of the pool is sequential: it
    takes a permit and a connection, runs its I/O, and the guard gives both back
    whatever the outcome. *)

From Stdlib Require Import Strings.Byte.
From S2P Require Import Prelude RustStd Error Types Parser ParserFacts ParserProps Wire Writer.
From S2P Require Import Config Tcp TcpProps Pool.

(** The pool with what the network does to its next dials, and the time. *)
Record StandaloneRouter := {
  rpool : ConnectionPool RedisConnection;
  rconfig : ConnectionConfig;
  dials : list DialOutcome;
  time : Z
}.

Abbreviation router_io := (stm StandaloneRouter PyrsedisError).

(** [StandaloneRouter::new]. *)
Definition router_new (config : ConnectionConfig) (d : list DialOutcome) (t : Z)
    : StandaloneRouter :=
  {| rpool := new config; rconfig := config; dials := d; time := t |}.

Definition set_rpool (p : ConnectionPool RedisConnection) (d : list DialOutcome)
    (r : StandaloneRouter) : StandaloneRouter :=
  {| rpool := p; rconfig := rconfig r; dials := d; time := time r |}.

(** The connection sees the router's clock. *)
Definition at_time (t : Z) (c : RedisConnection) : RedisConnection :=
  {| inbox := inbox c; writes := writes c; sent := sent c; buf := buf c; cap := cap c;
     max_buf_size := max_buf_size c; read_timeout := read_timeout c;
     last_used := last_used c; now := t |}.

Section standalone.
Context `{Target} `{BytesMut}.

(** [pool.get().await?] with a permit taken: an idle connection or a new one. *)
Definition checkout (r : StandaloneRouter) : Result RedisConnection * StandaloneRouter :=
  let p := add_permits (-1) (rpool r) in
  let '(c, rest) := take_healthy_connection (time r) (idle_timeout p) (idle p) in
  let p := set_idle rest p in
  match c with
  | Some c => (Ok (at_time (time r) c), set_rpool p (dials r) r)
  | None =>
      match dials r with
      | [] => (Panic Pending, set_rpool p [] r)
      | outcome :: d =>
          match create_connection outcome (rconfig r) with
          | Ok c => (Ok (at_time (time r) c), set_rpool p d r)
          | Err e => (Err e, set_rpool (add_permits 1 p) d r)
          | Panic q => (Panic q, set_rpool p d r)
          end
      end
  end.

(** A guard around the I/O [body]: dropping it returns the connection and the
    permit, on success, on error and on a panic alike; while the body waits for
    ever the guard is not dropped. *)
Definition with_guard {A} (body : conn_io A) : router_io A :=
  fun r =>
    if permits (rpool r) <=? 0 then (Panic Pending, r) else
    let '(got, r) := checkout r in
    match got with
    | Ok c =>
        let '(res, c') := body c in
        (res, if hangs res then r else
              set_rpool (add_permits 1 (return_connection (time r) c' (rpool r))) (dials r) r)
    | Err e => (Err e, r)
    | Panic q => (Panic q, r)
    end.

Definition execute_raw (args : list bytes) : router_io bytes :=
  with_guard (let! _ := send_raw (encode_command_str args) in read_raw_response).

(** [for _ in commands { responses.push(reader().await?) }]. *)
Fixpoint read_each {A B} (reader : conn_io A) (commands : list B) : conn_io (list A) :=
  match commands with
  | [] => lift (Ok [])
  | _ :: commands =>
      let! r := reader in
      let! rs := read_each reader commands in
      lift (Ok (r :: rs))
  end.

Definition pipeline_raw (commands : list (list bytes)) : router_io (list bytes) :=
  with_guard (let! _ := send_raw (encode_pipeline commands) in
              read_each read_raw_response commands).

(** [Router::execute] and [Router::pipeline]. *)
Definition router_execute (args : list bytes) : router_io RespValue :=
  with_guard (let! _ := send_raw (encode_command_str args) in read_response).

Definition router_pipeline (commands : list (list bytes)) : router_io (list RespValue) :=
  with_guard (let! _ := send_raw (encode_pipeline commands) in
              read_each read_response commands).

Definition pool_idle_count (r : StandaloneRouter) : Z := idle_count (rpool r).
Definition pool_available (r : StandaloneRouter) : Z := available (rpool r).

(** * Permits *)

Lemma return_permits t (c : RedisConnection) p :
  permits (return_connection t c p) = permits p /\ max_size (return_connection t c p) = max_size p.
Proof.
  unfold return_connection. destruct (stale _ _ _); [done|]. by destruct (_ <? _).
Qed.

Lemma checkout_permits r got r' :
  checkout r = (got, r') ->
  max_size (rpool r') = max_size (rpool r) /\ time r' = time r /\ rconfig r' = rconfig r /\
  permits (rpool r') =
    match got with Err _ => permits (rpool r) | _ => permits (rpool r) - 1 end.
Proof.
  unfold checkout. destruct (take_healthy_connection _ _ _) as [[c|] rest].
  { intros ?; simplify_eq/=. split_and!; [done..|lia]. }
  destruct (dials r) as [|o d]; [intros ?; simplify_eq/=; split_and!; [done..|lia]|].
  destruct (create_connection o (rconfig r)); intros ?; simplify_eq/=; split_and!; done || lia.
Qed.

(** A router call never leaks or mints permits: whatever the I/O does, on
    success and on every error, the pool has as many permits after the call as
    before it. *)
Theorem guard_conserves_permits {A} (body : conn_io A) r o r' :
  with_guard body r = (o, r') ->
  match o with
  | Panic _ => True
  | _ => permits (rpool r') = permits (rpool r) /\ max_size (rpool r') = max_size (rpool r)
  end.
Proof.
  unfold with_guard. destruct (_ <=? 0); [intros ?; by simplify_eq|].
  destruct (checkout r) as [got r1] eqn:Hc. apply checkout_permits in Hc as (Hm & _ & _ & Hp).
  destruct got as [c|e|q]; [|intros; by simplify_eq..].
  destruct (body c) as [res c'] eqn:Hb. intros ?; simplify_eq. simpl.
  destruct (return_permits (time r1) c' (rpool r1)) as [Hrp Hrm].
  destruct o; [split; cbn; [rewrite Hrp; lia|by rewrite Hrm]..|done].
Qed.

(** * Pipelines *)

(** Reading one frame per command from a stream of encodings. *)
Lemma read_each_raw {B} (cmds : list B) vs ws rest c :
  Forall2 wire vs ws -> length ws = length cmds ->
  stream c = concat ws ++ rest -> Forall delivers (inbox c) ->
  size_of_pair * (1 + len (stream c)) <= ISIZE_MAX ->
  let o := read_each read_raw_response cmds c in
  same_session c o.2 /\
  ((o.1 = Ok ws /\ stream o.2 = rest) \/ over_limit (max_buf_size c) (len (concat ws)) o.1).
Proof.
  intros Hws. revert cmds c. induction Hws as [|v w vs ws Hw Hws IH]; intros cmds c Hl Hs Hd Hm.
  { destruct cmds; [|done]. cbn. split; [done|]. by left. }
  destruct cmds as [|cmd cmds]; [done|]. cbn [read_each]. cbv zeta. simpl concat in Hs.
  rewrite <- app_assoc in Hs. rewrite Hs in Hm.
  pose proof (read_raw_response_stream v w (concat ws ++ rest) c Hw Hm Hs Hd)
    as (Hss & Hd1 & Ho).
  destruct (read_raw_response c) as [r c1] eqn:Er. cbn [fst snd] in *.
  destruct Ho as [[-> Hs1]|Hlim].
  2: { unfold over_limit in *. destruct Hlim as [-> Hlim]. unfold sbind. rewrite Er.
       split; [done|]. right. split; [done|]. cbn [concat]. pose proof (len_nonneg (concat ws)).
       rewrite len_app. lia. }
  rewrite !(sbind_ok _ _ _ _ _ Er).
  destruct (IH cmds c1) as (Hss2 & Ho2); [by injection Hl|done|done| |].
  { rewrite Hs1. rewrite len_app in Hm. pose proof (len_nonneg w).
    pose proof size_of_RespValue_ge. pose proof size_of_pair_ge. nia. }
  assert (max_buf_size c1 = max_buf_size c) as Hmx by apply Hss. rewrite Hmx in Ho2.
  unfold sbind, lift. destruct (read_each read_raw_response cmds c1) as [rs c2].
  cbn [fst snd] in *.
  assert (same_session c c2) by (by trans c1).
  unfold over_limit in *. pose proof (len_nonneg w).
  destruct Ho2 as [[-> Hs2]|[-> Hlim]]; cbn [fst snd concat]; (split; [done|]); [by left|].
  right. split; [done|]. rewrite len_app. lia.
Qed.

(** A pipeline gets one reply per command, in order: the commands leave in
    one write, and when the server answers with the encodings [ws] cut in any
    pieces, [pipeline_raw] returns exactly those frames and the connection goes
    back to the pool with nothing left to read. *)
Lemma pipeline_raw_stream cmds vs ws r c rest :
  Forall2 wire vs ws -> length ws = length cmds -> 0 < permits (rpool r) ->
  take_healthy_connection (time r) (idle_timeout (rpool r)) (idle (rpool r)) = (Some c, rest) ->
  writes c = [] -> Forall delivers (inbox c) -> stream c = concat ws ->
  size_of_pair * (1 + len (stream c)) <= ISIZE_MAX ->
  let o := pipeline_raw cmds r in
  exists c', same_session (at_time (time r) (log_sent (encode_pipeline cmds) [] c)) c' /\
    o.2 = set_rpool (add_permits 1 (return_connection (time r) c'
            (set_idle rest (add_permits (-1) (rpool r))))) (dials r) r /\
    ((o.1 = Ok ws /\ stream c' = []) \/ over_limit (max_buf_size c) (len (concat ws)) o.1).
Proof.
  intros Hws Hl Hp Ht Hw Hd Hs Hm. cbv zeta. unfold pipeline_raw, with_guard.
  rewrite (proj2 (Z.leb_gt _ _)) by lia.
  unfold checkout. cbn [idle_timeout idle add_permits]. rewrite Ht.
  set (c0 := at_time (time r) c).
  assert (send_raw (encode_pipeline cmds) c0 =
    (Ok tt, touch (log_sent (encode_pipeline cmds) [] c0))) as Hsend.
  { unfold send_raw. change (writes c0) with (writes c). by rewrite Hw. }
  rewrite (sbind_ok _ _ _ _ _ Hsend). set (c1 := touch _).
  destruct (read_each_raw cmds vs ws [] c1 Hws Hl) as (Hss & Ho); try done.
  { rewrite app_nil_r. exact Hs. }
  destruct (read_each read_raw_response cmds c1) as [o c2]. cbn [fst snd] in *.
  exists c2. split_and!; [done| |exact Ho]. by destruct Ho as [[-> _]|[-> _]].
Qed.

(** A call that finds an idle connection. *)
Lemma with_guard_idle {A} (body : conn_io A) r rest c res c' :
  0 < permits (rpool r) -> 
  take_healthy_connection (time r) (idle_timeout (rpool r)) (idle (rpool r)) = (Some c, rest) ->
  body (at_time (time r) c) = (res, c') -> hangs res = false ->
  with_guard body r =
  (res, set_rpool (add_permits 1 (return_connection (time r) c'
          (set_idle rest (add_permits (-1) (rpool r))))) (dials r) r).
Proof.
  intros Hp Ht Hb Hh. unfold with_guard. rewrite (proj2 (Z.leb_gt _ _)) by lia.
  unfold checkout. cbn [idle_timeout idle add_permits]. by rewrite Ht, Hb, Hh.
Qed.

(** One command on an idle connection, answered by the encoding [w]. *)
Lemma execute_raw_stream args v w extra r c rest :
  wire v w -> size_of_pair * (1 + len (w ++ extra)) <= ISIZE_MAX -> 0 < permits (rpool r) ->
  take_healthy_connection (time r) (idle_timeout (rpool r)) (idle (rpool r)) = (Some c, rest) ->
  writes c = [] -> Forall delivers (inbox c) -> stream c = w ++ extra ->
  let o := execute_raw args r in
  exists c', same_session (at_time (time r) (log_sent (encode_command args) [] c)) c' /\
    o.2 = set_rpool (add_permits 1 (return_connection (time r) c'
            (set_idle rest (add_permits (-1) (rpool r))))) (dials r) r /\
    ((o.1 = Ok w /\ stream c' = extra) \/ over_limit (max_buf_size c) (len w) o.1).
Proof.
  intros Hw Hm Hp Ht Hwr Hd Hs. cbv zeta.
  set (c0 := at_time (time r) c). set (c1 := touch (log_sent (encode_command args) [] c0)).
  pose proof (read_raw_response_stream v w extra c1 Hw Hm Hs Hd) as (Hss & _ & Ho).
  destruct (read_raw_response c1) as [o c2] eqn:Er. cbn [fst snd] in *.
  assert ((let! _ := send_raw (encode_command_str args) in read_raw_response) c0 = (o, c2)) as He.
  { unfold sbind, send_raw. change (writes c0) with (writes c). by rewrite Hwr. }
  unfold execute_raw. rewrite (with_guard_idle _ r rest c o c2 Hp Ht He)
    by (by destruct Ho as [[-> _]|[-> _]]). exists c2.
  split_and!; [done|done|exact Ho].
Qed.

(** * A timed-out connection in the pool *)

(** A call on the only idle connection puts it back, whatever its outcome. *)
Lemma only_idle_connection {A} (body : conn_io A) r c res c1 :
  0 < permits (rpool r) -> 1 <= max_size (rpool r) -> 0 <= idle_timeout (rpool r) ->
  idle (rpool r) = [c] -> time r - last_used c <= idle_timeout (rpool r) ->
  body (at_time (time r) c) = (res, c1) -> last_used c1 = time r -> hangs res = false ->
  with_guard body r = (res, set_rpool (set_idle [c1] (rpool r)) (dials r) r).
Proof.
  intros Hp Hm Hi Hidle Hlu Hb Hl1 Hh. rewrite (with_guard_idle body r [] c res c1 Hp); [|..|done|done].
  - unfold return_connection, stale.
    cbn [set_idle add_permits idle idle_timeout max_size permits conn_last_used redis_pooled].
    rewrite Hl1, Z.sub_diag, (proj2 (Z.ltb_ge _ _)) by lia. rewrite len_nil.
    rewrite (proj2 (Z.ltb_lt _ _)) by lia.
    unfold set_rpool, set_idle, add_permits. cbn [app idle permits max_size idle_timeout].
    do 3 f_equal. lia.
  - unfold take_healthy_connection. rewrite Hidle. simpl. unfold stale. simpl.
    by rewrite (proj2 (Z.ltb_ge _ _)) by lia.
Qed.

(** C39: a reply can reach the wrong caller: after a command times out, its
    connection is put back at the front of the line, the next command is sent on
    it, and is answered with the late reply to the command that timed out. *)
Theorem timed_out_connection_is_reused cmd1 cmd2 v1 w1 rest events t r c :
  wire v1 w1 -> size_of_pair * (1 + len (w1 ++ rest)) <= ISIZE_MAX ->
  0 < permits (rpool r) -> 0 <= idle_timeout (rpool r) -> len (idle (rpool r)) <= max_size (rpool r) ->
  idle (rpool r) = [c] -> last_used c = time r ->
  buf c = [] -> writes c = [] -> read_timeout c = Some t -> 4096 <= cap c ->
  inbox c = Silence :: events -> Forall delivers events ->
  concat (map event_data events) = w1 ++ rest ->
  exists r1, router_execute cmd1 r = (Err (timed_out t), r1) /\
    let o := fst (router_execute cmd2 r1) in
    o = Ok v1 \/ over_limit (max_buf_size c) (len w1) o.
Proof.
  intros Hw Hm Hp Hi Hsz Hidle Hlu Hb Hwr Ht Hcap Hin Hd Hs.
  assert (1 <= max_size (rpool r)) as Hmx by (rewrite Hidle in Hsz; unfold len in Hsz; simpl in Hsz; lia).
  pose proof (execute_silent cmd1 (at_time (time r) c) events t Hb Hwr Ht Hcap Hin) as He1.
  pose proof (only_idle_connection _ r c _ _ Hp Hmx Hi Hidle ltac:(lia) He1 eq_refl eq_refl) as Hg.
  eexists. split; [exact Hg|]. cbv zeta. set (c1 := set_inbox _ _). set (r1 := set_rpool _ _ _).
  destruct (execute cmd2 (at_time (time r) c1)) as [o c2] eqn:He2.
  assert (take_healthy_connection (time r) (idle_timeout (rpool r)) [c1] = (Some c1, [])) as Hth.
  { unfold take_healthy_connection. simpl. unfold stale. simpl.
    by rewrite (proj2 (Z.ltb_ge _ _)) by lia. }
  change (router_execute cmd2 r1) with (with_guard (execute cmd2) r1).
  pose proof (execute_stream cmd2 v1 w1 rest (at_time (time r) c1) Hw Hm) as Ho.
  rewrite He2 in Ho. cbn [fst snd] in Ho. destruct Ho as [[-> _]|Hlim]; try done.
  - unfold stream. simpl. by rewrite Hb, Hs.
  - left. by rewrite (with_guard_idle (execute cmd2) r1 [] c1 (Ok v1) c2).
  - right. rewrite (with_guard_idle (execute cmd2) r1 [] c1 o c2); [done..|].
    by destruct Hlim as [-> _].
Qed.

(** Commands sent one after the other. *)
Fixpoint outcomes (cmds : list (list bytes)) (r : StandaloneRouter) : list (Result RespValue) :=
  match cmds with
  | [] => []
  | cmd :: cmds => let '(o, r) := router_execute cmd r in o :: outcomes cmds r
  end.

(** A connection closed by the server is never given up: it goes back to the
    pool after each failure and, being the most recent, is the one taken for the
    next command, so every command fails as long as the connection does not go
    stale, although a new connection could be opened. *)
Theorem closed_connection_sticks cmds r c :
  0 < permits (rpool r) -> 1 <= max_size (rpool r) -> 0 <= idle_timeout (rpool r) ->
  idle (rpool r) = [c] -> time r - last_used c <= idle_timeout (rpool r) ->
  buf c = [] -> writes c = [] -> 4096 <= cap c ->
  inbox c = repeat (Data []) (length cmds) ->
  outcomes cmds r = repeat (Err closed_by_server) (length cmds).
Proof.
  intros Hp Hm Hi Hidle Hlu Hb Hw Hcap Hin. revert r c Hp Hm Hi Hidle Hlu Hb Hw Hcap Hin.
  induction cmds as [|cmd cmds IH]; intros r c Hp Hm Hi Hidle Hlu Hb Hw Hcap Hin; [done|].
  cbn [outcomes length repeat] in *.
  pose proof (execute_closed cmd (at_time (time r) c) _ Hb Hw Hcap Hin) as He.
  pose proof (only_idle_connection _ r c _ _ Hp Hm Hi Hidle Hlu He eq_refl eq_refl) as Hg.
  change (router_execute cmd r) with (with_guard (execute cmd) r). rewrite Hg. f_equal.
  eapply IH; try done. cbn. lia.
Qed.
End standalone.

(** * The theorems at concrete routers *)

Definition pong_frame : bytes := header "+" (bs "PONG") [].
Definition one_idle (c : RedisConnection) : StandaloneRouter :=
  {| rpool := {| idle := [c]; permits := 8; max_size := 8; idle_timeout := 1000 |};
     rconfig := default_config; dials := []; time := 0 |}.

Lemma timed_out_connection_is_reused_witness :
  exists r1,
    router_execute (H := release64) (H0 := exact_bytes) [bs "GET"; bs "a"]
      (one_idle (set_read_timeout 500 (test_conn [Silence; Data pong_frame]))) =
      (Err (timed_out 500), r1) /\
    fst (router_execute (H := release64) (H0 := exact_bytes) [bs "GET"; bs "b"] r1) =
      Ok (SimpleString (bs "PONG")).
Proof.
  set (c := set_read_timeout 500 _).
  destruct (timed_out_connection_is_reused (H := release64) (H0 := exact_bytes)
    [bs "GET"; bs "a"] [bs "GET"; bs "b"] (SimpleString (bs "PONG")) pong_frame []
    [Data pong_frame] 500 (one_idle c) c) as (r1 & H1 & Ho);
    [apply wire_PONG|done..|repeat constructor; done|reflexivity|].
  exists r1. split; [exact H1|]. cbv zeta in Ho. destruct Ho as [Ho|[_ Ho]]; [exact Ho|].
  vm_compute in Ho. discriminate.
Defined.

Lemma closed_connection_sticks_witness :
  outcomes (H := release64) (H0 := exact_bytes) [[bs "PING"]; [bs "PING"]]
    (one_idle (test_conn [Data []; Data []])) =
  [Err closed_by_server; Err closed_by_server].
Proof.
  by apply (closed_connection_sticks (H := release64) (H0 := exact_bytes)
    [[bs "PING"]; [bs "PING"]] _ (test_conn [Data []; Data []])).
Defined.

Lemma guard_conserves_permits_witness :
  let r := one_idle (test_conn [Data []]) in
  permits (rpool (snd (router_execute (H := release64) (H0 := exact_bytes) [bs "PING"] r))) = 8.
Proof.
  cbv zeta. set (r := one_idle _).
  destruct (router_execute (H := release64) (H0 := exact_bytes) [bs "PING"] r) as [o r'] eqn:E.
  pose proof (guard_conserves_permits (H := release64) (H0 := exact_bytes) _ r o r' E) as Hc.
  assert (o = Err closed_by_server) as -> by (vm_compute in E; by injection E as <-).
  cbn [snd]. destruct Hc as [-> _]. reflexivity.
Defined.
