(* ===== verification/Client.v ===== *)
(** src/client.rs, the class [Redis]: each method builds a command, sends it
    through the router and turns the raw reply into a Python object. The router
    is shared with the client's pipelines ([Arc<StandaloneRouter>]), so it is
    the state of the computations here; [RawRouter] is all a client needs of it. *)

From Stdlib Require Import Strings.Byte.
From S2P Require Import Prelude RustStd Utf8 Float64 Display64 Error Types Parser ParserFacts.
From S2P Require Import ParserProps Wire Writer Python Response ResponseProps Config Tcp TcpProps.
From S2P Require Import Pool Standalone.

(** What the client asks of a router. *)
Class RawRouter (W : Type) := {
  raw_execute : list bytes -> stm W PyrsedisError bytes;
  raw_pipeline : list (list bytes) -> stm W PyrsedisError (list bytes)
}.

#[global] Instance standalone_router `{Target} `{BytesMut} : RawRouter StandaloneRouter := {
  raw_execute := execute_raw;
  raw_pipeline := pipeline_raw
}.

(** [py.detach(|| runtime::block_on(..)).map_err(|e| e.into())]. *)
Definition detached {W A} (m : stm W PyrsedisError A) : stm W PyErr A :=
  fun w => let '(r, w) := m w in (into_py r, w).

(** The [Redis] object, the router aside. *)
Record Redis := {
  addr : bytes;
  decode_responses : bool
}.

Section constructors.
Context `{Target}.

(** [Redis::new]; the dials and the clock are the world the router starts in. *)
Definition new (d : list DialOutcome) (t : Z) (host : bytes) (port db : Z)
    (password username : option bytes)
    (pool_size connect_timeout_ms read_timeout_ms idle_timeout_ms max_buffer_size : Z)
    (decode_responses : bool) : PyResult (Redis * StandaloneRouter) :=
  if pool_size =? 0 then Err (to_pyerr (Type_ (bs "pool_size must be > 0"))) else
  let config :=
    {| Config.host := host; Config.port := port; Config.db := db;
       Config.password := password; Config.username := username; Config.tls := false;
       Config.topology := Config.Standalone; Config.pool_size := pool_size;
       Config.connect_timeout_ms := connect_timeout_ms;
       Config.read_timeout_ms := read_timeout_ms;
       Config.idle_timeout_ms := idle_timeout_ms;
       Config.max_buffer_size := max_buffer_size |} in
  let addr := primary_addr config in
  let? _ := new_checks config in
  Ok ({| addr := addr; decode_responses := decode_responses |}, router_new config d t).

(** [Redis::from_url]. *)
Definition from_url (d : list DialOutcome) (t : Z) (url : bytes)
    (pool_size connect_timeout_ms read_timeout_ms idle_timeout_ms : Z)
    (decode_responses : bool) : PyResult (Redis * StandaloneRouter) :=
  let? config := into_py (Config.from_url url) in
  let config :=
    {| Config.host := host config; Config.port := port config; Config.db := db config;
       Config.password := password config; Config.username := username config;
       Config.tls := tls config; Config.topology := topology config;
       Config.pool_size := pool_size;
       Config.connect_timeout_ms := connect_timeout_ms;
       Config.read_timeout_ms := read_timeout_ms;
       Config.idle_timeout_ms := idle_timeout_ms;
       Config.max_buffer_size := max_buffer_size config |} in
  let addr := primary_addr config in
  let? _ := new_checks config in
  Ok ({| addr := addr; decode_responses := decode_responses |}, router_new config d t).

(** A client is created exactly when the queue of its pool can be allocated:
    a size of zero is refused with an exception, a huge one panics. *)
Theorem new_outcomes d t host port db pw user size cto rto ito mx dec :
  0 <= size ->
  match new d t host port db pw user size cto rto ito mx dec with
  | Ok (self, r) =>
      0 < size /\ size_of_RedisConnection * size <= ISIZE_MAX /\
      permits (rpool r) = size /\ idle (rpool r) = []
  | Err e => size = 0 /\ e = to_pyerr (Type_ (bs "pool_size must be > 0"))
  | Panic p => p = CapacityOverflow /\ ISIZE_MAX < size_of_RedisConnection * size
  end.
Proof.
  intros Hs. unfold new. destruct (Z.eqb_spec size 0) as [|Hne]; [done|].
  rewrite new_checks_capacity by done. unfold with_capacity. cbn [pool_size].
  destruct (Z.leb_spec (size_of_RedisConnection * size) ISIZE_MAX); cbn; [split_and!|]; (done || lia).
Qed.
End constructors.

Definition __repr__ (self : Redis) : bytes := bs "Redis(addr='" ++ addr self ++ bs "')".
Definition __str__ (self : Redis) : bytes := bs "Redis<" ++ addr self ++ bs ">".
Definition pool_idle_count (r : StandaloneRouter) : Z := Standalone.pool_idle_count r.
Definition pool_available (r : StandaloneRouter) : Z := Standalone.pool_available r.

(** [for n in &names { cmd.push(n); }]. *)
Definition push_each (cmd names : list bytes) : list bytes :=
  fold_left (fun cmd n => cmd ++ [n]) names cmd.

Lemma push_each_app cmd names : push_each cmd names = cmd ++ names.
Proof.
  unfold push_each. revert cmd. induction names as [|n names IH]; intros cmd; simpl;
    [by rewrite app_nil_r|]. by rewrite IH, <- app_assoc.
Qed.

Section redis.
Context `{Target} `{PyExtract} {W : Type} `{RawRouter W} (self : Redis).

Abbreviation io := (stm W PyErr).

Definition exec_raw (args : list bytes) : io PyObj :=
  let! raw := detached (raw_execute args) in
  let! (obj, _) := lift (parse_to_python raw (decode_responses self)) in
  lift (Ok obj).

(** ** Generic commands *)

Definition execute_command (args : list bytes) : io PyObj :=
  if bool_decide (args = [])
  then lift (Err (to_pyerr (Type_ (bs "execute_command requires at least one argument"))))
  else exec_raw args.

Definition ping : io bool :=
  let! raw := detached (raw_execute [bs "PING"]) in
  lift (Ok ((5 <=? len raw) && bool_decide (take 5 raw = bs "+PONG"))).

Definition set_cmd (name value : bytes) (ex px : option Z) (nx xx : bool) : list bytes :=
  let cmd := [bs "SET"; name; value] in
  let cmd := match ex with Some seconds => cmd ++ [bs "EX"; itoa seconds] | None => cmd end in
  let cmd := match px with Some millis => cmd ++ [bs "PX"; itoa millis] | None => cmd end in
  let cmd := if nx then cmd ++ [bs "NX"] else cmd in
  if xx then cmd ++ [bs "XX"] else cmd.

(** [raw[i] == b], after the length has been checked. *)
Definition at_is (raw : bytes) (i : nat) (b : byte) : bool := bool_decide (raw !! i = Some b).

Definition set_reply (raw : bytes) : PyObj :=
  if (4 <=? len raw) && at_is raw 0 "$" && at_is raw 1 "-" then py_none
  else py_bool ((3 <=? len raw) && at_is raw 0 "+" && at_is raw 1 "O" && at_is raw 2 "K").

Definition set (name value : bytes) (ex px : option Z) (nx xx : bool) : io PyObj :=
  let! raw := detached (raw_execute (set_cmd name value ex px nx xx)) in
  lift (Ok (set_reply raw)).

Definition get (name : bytes) : io PyObj := exec_raw [bs "GET"; name].
Definition delete (names : list bytes) : io PyObj := exec_raw (push_each [bs "DEL"] names).
Definition exists_ (names : list bytes) : io PyObj := exec_raw (push_each [bs "EXISTS"] names).
Definition expire (name : bytes) (seconds : Z) : io PyObj :=
  exec_raw [bs "EXPIRE"; name; itoa seconds].
Definition ttl (name : bytes) : io PyObj := exec_raw [bs "TTL"; name].
Definition incr (name : bytes) : io PyObj := exec_raw [bs "INCR"; name].
Definition decr (name : bytes) : io PyObj := exec_raw [bs "DECR"; name].
Definition incrby (name : bytes) (amount : Z) : io PyObj :=
  exec_raw [bs "INCRBY"; name; to_string amount].
Definition mget (names : list bytes) : io PyObj := exec_raw (push_each [bs "MGET"] names).
Definition mset (mapping : list (PyObj * PyObj)) : io PyObj :=
  let! cmd := lift (foldM (fun cmd '(k, v) =>
                let? k := extract_string k in
                let? v := extract_string v in
                Ok (cmd ++ [k] ++ [v])) mapping [bs "MSET"]) in
  exec_raw cmd.

(** ** Hash commands *)

Definition hset (name : bytes) (key : bytes) (value : bytes) : io PyObj :=
  exec_raw [bs "HSET"; name; key; value].
Definition hget (name : bytes) (key : bytes) : io PyObj := exec_raw [bs "HGET"; name; key].
Definition hgetall (name : bytes) : io PyObj := exec_raw [bs "HGETALL"; name].
Definition hdel (name : bytes) (keys : list bytes) : io PyObj :=
  exec_raw (push_each [bs "HDEL"; name] keys).
Definition hexists (name : bytes) (key : bytes) : io PyObj := exec_raw [bs "HEXISTS"; name; key].
Definition hkeys (name : bytes) : io PyObj := exec_raw [bs "HKEYS"; name].
Definition hvals (name : bytes) : io PyObj := exec_raw [bs "HVALS"; name].
Definition hlen (name : bytes) : io PyObj := exec_raw [bs "HLEN"; name].
Definition hincrby (name : bytes) (key : bytes) (amount : Z) : io PyObj :=
  exec_raw [bs "HINCRBY"; name; key; to_string amount].
Definition hincrbyfloat (name : bytes) (key : bytes) (amount : f64) : io PyObj :=
  exec_raw [bs "HINCRBYFLOAT"; name; key; f64_to_string amount].
Definition hsetnx (name : bytes) (key : bytes) (value : bytes) : io PyObj :=
  exec_raw [bs "HSETNX"; name; key; value].
Definition hmget (name : bytes) (keys : list bytes) : io PyObj :=
  exec_raw (push_each [bs "HMGET"; name] keys).

(** ** List commands *)

Definition lpush (name : bytes) (values : list bytes) : io PyObj :=
  exec_raw (push_each [bs "LPUSH"; name] values).
Definition rpush (name : bytes) (values : list bytes) : io PyObj :=
  exec_raw (push_each [bs "RPUSH"; name] values).
Definition lrange (name : bytes) (start : Z) (stop : Z) : io PyObj :=
  exec_raw [bs "LRANGE"; name; to_string start; to_string stop].
Definition llen (name : bytes) : io PyObj := exec_raw [bs "LLEN"; name].
Definition lpop (name : bytes) (count : option Z) : io PyObj :=
  exec_raw match count with
           | Some c => [bs "LPOP"; name; itoa c]
           | None => [bs "LPOP"; name]
           end.

Definition rpop (name : bytes) (count : option Z) : io PyObj :=
  exec_raw match count with
           | Some c => [bs "RPOP"; name; itoa c]
           | None => [bs "RPOP"; name]
           end.

Definition lindex (name : bytes) (index : Z) : io PyObj :=
  exec_raw [bs "LINDEX"; name; to_string index].
Definition lset (name : bytes) (index : Z) (value : bytes) : io PyObj :=
  exec_raw [bs "LSET"; name; to_string index; value].
Definition lrem (name : bytes) (count : Z) (value : bytes) : io PyObj :=
  exec_raw [bs "LREM"; name; to_string count; value].

(** ** Set commands *)

Definition sadd (name : bytes) (members : list bytes) : io PyObj :=
  exec_raw (push_each [bs "SADD"; name] members).
Definition smembers (name : bytes) : io PyObj := exec_raw [bs "SMEMBERS"; name].
Definition scard (name : bytes) : io PyObj := exec_raw [bs "SCARD"; name].
Definition srem (name : bytes) (members : list bytes) : io PyObj :=
  exec_raw (push_each [bs "SREM"; name] members).
Definition sismember (name : bytes) (value : bytes) : io PyObj :=
  exec_raw [bs "SISMEMBER"; name; value].
Definition spop (name : bytes) (count : option Z) : io PyObj :=
  exec_raw match count with
           | Some c => [bs "SPOP"; name; itoa c]
           | None => [bs "SPOP"; name]
           end.

Definition sinter (names : list bytes) : io PyObj := exec_raw (push_each [bs "SINTER"] names).
Definition sunion (names : list bytes) : io PyObj := exec_raw (push_each [bs "SUNION"] names).
Definition sdiff (names : list bytes) : io PyObj := exec_raw (push_each [bs "SDIFF"] names).

(** ** Sorted set commands *)

Definition zadd (name : bytes) (mapping : list (PyObj * PyObj)) (nx xx gt lt ch : bool)
    : io PyObj :=
  let cmd := [bs "ZADD"; name] in
  let cmd := if nx then cmd ++ [bs "NX"] else cmd in
  let cmd := if xx then cmd ++ [bs "XX"] else cmd in
  let cmd := if gt then cmd ++ [bs "GT"] else cmd in
  let cmd := if lt then cmd ++ [bs "LT"] else cmd in
  let cmd := if ch then cmd ++ [bs "CH"] else cmd in
  let! cmd := lift (foldM (fun cmd '(member, score) =>
                let? score := extract_f64 score in
                let cmd := cmd ++ [f64_to_string score] in
                let? member := extract_string member in
                Ok (cmd ++ [member])) mapping cmd) in
  exec_raw cmd.

Definition zrem (name : bytes) (members : list bytes) : io PyObj :=
  exec_raw (push_each [bs "ZREM"; name] members).
Definition zscore (name : bytes) (member : bytes) : io PyObj :=
  exec_raw [bs "ZSCORE"; name; member].
Definition zrank (name : bytes) (member : bytes) : io PyObj :=
  exec_raw [bs "ZRANK"; name; member].
Definition zcard (name : bytes) : io PyObj := exec_raw [bs "ZCARD"; name].
Definition zcount (name : bytes) (min : bytes) (max : bytes) : io PyObj :=
  exec_raw [bs "ZCOUNT"; name; min; max].
Definition zincrby (name : bytes) (amount : f64) (member : bytes) : io PyObj :=
  exec_raw [bs "ZINCRBY"; name; f64_to_string amount; member].
Definition zrange (name : bytes) (start stop : Z) (withscores : bool) : io PyObj :=
  let cmd := [bs "ZRANGE"; name; to_string start; to_string stop] in
  exec_raw (if withscores then cmd ++ [bs "WITHSCORES"] else cmd).

Definition zrevrange (name : bytes) (start stop : Z) (withscores : bool) : io PyObj :=
  let cmd := [bs "ZREVRANGE"; name; to_string start; to_string stop] in
  exec_raw (if withscores then cmd ++ [bs "WITHSCORES"] else cmd).

Definition zrangebyscore (name min max : bytes) (withscores : bool) (offset count : option Z)
    : io PyObj :=
  let cmd := [bs "ZRANGEBYSCORE"; name; min; max] in
  let cmd := if withscores then cmd ++ [bs "WITHSCORES"] else cmd in
  exec_raw match offset, count with
           | Some o, Some c => cmd ++ [bs "LIMIT"; to_string o; to_string c]
           | _, _ => cmd
           end.

Definition zremrangebyscore (name : bytes) (min : bytes) (max : bytes) : io PyObj :=
  exec_raw [bs "ZREMRANGEBYSCORE"; name; min; max].
Definition zremrangebyrank (name : bytes) (start : Z) (stop : Z) : io PyObj :=
  exec_raw [bs "ZREMRANGEBYRANK"; name; to_string start; to_string stop].

(** ** Key commands *)

Definition rename (src : bytes) (dst : bytes) : io PyObj := exec_raw [bs "RENAME"; src; dst].
Definition persist (name : bytes) : io PyObj := exec_raw [bs "PERSIST"; name].
Definition pexpire (name : bytes) (millis : Z) : io PyObj :=
  exec_raw [bs "PEXPIRE"; name; itoa millis].
Definition pttl (name : bytes) : io PyObj := exec_raw [bs "PTTL"; name].
Definition scan (cursor : option Z) (match_pattern : option bytes) (count : option Z)
    : io PyObj :=
  let cmd := [bs "SCAN"; itoa (default 0 cursor)] in
  let cmd := match match_pattern with Some p => cmd ++ [bs "MATCH"; p] | None => cmd end in
  exec_raw match count with Some c => cmd ++ [bs "COUNT"; itoa c] | None => cmd end.

(** ** String commands *)

Definition append (name : bytes) (value : bytes) : io PyObj :=
  exec_raw [bs "APPEND"; name; value].
Definition strlen (name : bytes) : io PyObj := exec_raw [bs "STRLEN"; name].
Definition getrange (name : bytes) (start : Z) (end_ : Z) : io PyObj :=
  exec_raw [bs "GETRANGE"; name; to_string start; to_string end_].
Definition getset (name : bytes) (value : bytes) : io PyObj :=
  exec_raw [bs "GETSET"; name; value].
Definition getdel (name : bytes) : io PyObj := exec_raw [bs "GETDEL"; name].
Definition setnx (name : bytes) (value : bytes) : io PyObj := exec_raw [bs "SETNX"; name; value].
Definition setex (name : bytes) (seconds : Z) (value : bytes) : io PyObj :=
  exec_raw [bs "SETEX"; name; itoa seconds; value].
Definition incrbyfloat (name : bytes) (amount : f64) : io PyObj :=
  exec_raw [bs "INCRBYFLOAT"; name; f64_to_string amount].
Definition decrby (name : bytes) (amount : Z) : io PyObj :=
  exec_raw [bs "DECRBY"; name; to_string amount].

(** ** Scripting *)

Definition eval (script : bytes) (numkeys : Z) (args : list bytes) : io PyObj :=
  exec_raw (push_each [bs "EVAL"; script; itoa numkeys] args).
Definition evalsha (sha : bytes) (numkeys : Z) (args : list bytes) : io PyObj :=
  exec_raw (push_each [bs "EVALSHA"; sha; itoa numkeys] args).
Definition script_load (script : bytes) : io PyObj := exec_raw [bs "SCRIPT"; bs "LOAD"; script].

(** ** Graph commands *)

Definition graph_query (graph query : bytes) (timeout : option Z) : io PyObj :=
  let cmd := [bs "GRAPH.QUERY"; graph; query; bs "--compact"] in
  let cmd := match timeout with Some ms => cmd ++ [bs "timeout " ++ itoa ms] | None => cmd end in
  let! raw := detached (raw_execute cmd) in
  let! (obj, _) := lift (parse_to_python raw (decode_responses self)) in
  lift (Ok obj).

Definition graph_ro_query (graph query : bytes) (timeout : option Z) : io PyObj :=
  let cmd := [bs "GRAPH.RO_QUERY"; graph; query; bs "--compact"] in
  let cmd := match timeout with Some ms => cmd ++ [bs "timeout " ++ itoa ms] | None => cmd end in
  let! raw := detached (raw_execute cmd) in
  let! (obj, _) := lift (parse_to_python raw (decode_responses self)) in
  lift (Ok obj).

Definition graph_delete (graph : bytes) : io PyObj := exec_raw [bs "GRAPH.DELETE"; graph].
Definition graph_list : io PyObj := exec_raw [bs "GRAPH.LIST"].
Definition graph_explain (graph : bytes) (query : bytes) : io PyObj :=
  exec_raw [bs "GRAPH.EXPLAIN"; graph; query].
Definition graph_profile (graph : bytes) (query : bytes) : io PyObj :=
  exec_raw [bs "GRAPH.PROFILE"; graph; query].
Definition graph_slowlog (graph : bytes) : io PyObj := exec_raw [bs "GRAPH.SLOWLOG"; graph].
Definition graph_config (action name : bytes) (value : option bytes) : io PyObj :=
  exec_raw match value with
           | Some v => [bs "GRAPH.CONFIG"; action; name; v]
           | None => [bs "GRAPH.CONFIG"; action; name]
           end.

(** ** Server commands *)

Definition select (db : Z) : io PyObj := exec_raw [bs "SELECT"; itoa db].
Definition flushall : io PyObj := exec_raw [bs "FLUSHALL"].
Definition randomkey : io PyObj := exec_raw [bs "RANDOMKEY"].
Definition lastsave : io PyObj := exec_raw [bs "LASTSAVE"].
Definition echo (message : bytes) : io PyObj := exec_raw [bs "ECHO"; message].
Definition publish (channel : bytes) (message : bytes) : io PyObj :=
  exec_raw [bs "PUBLISH"; channel; message].
Definition expireat (name : bytes) (when : Z) : io PyObj :=
  exec_raw [bs "EXPIREAT"; name; itoa when].
Definition dump (name : bytes) : io PyObj := exec_raw [bs "DUMP"; name].
Definition unlink (names : list bytes) : io PyObj := exec_raw (push_each [bs "UNLINK"] names).
Definition time : io PyObj := exec_raw [bs "TIME"].
Definition keys (pattern : option bytes) : io PyObj :=
  exec_raw [bs "KEYS"; default (bs "*") pattern].

Definition flushdb : io PyObj := exec_raw [bs "FLUSHDB"].
Definition info (section : option bytes) : io PyObj :=
  exec_raw match section with Some s => [bs "INFO"; s] | None => [bs "INFO"] end.

Definition dbsize : io PyObj := exec_raw [bs "DBSIZE"].
Definition key_type (name : bytes) : io PyObj := exec_raw [bs "TYPE"; name].

(** * What [set] makes of a reply *)

(** The fused parser raises an error reply. *)
Lemma error_raises s decode :
  (CR ∉ s) ->
  parse_to_python (header "-" s []) decode = Err (to_pyerr (redis (from_utf8_lossy s))).
Proof.
  intros Hs. unfold parse_to_python. rewrite bool_decide_false by done.
  change (Z.to_nat (MAX_PARSE_DEPTH + 2)) with (S (Z.to_nat (MAX_PARSE_DEPTH + 1))).
  cbn [parse_inner]. change (MAX_PARSE_DEPTH <? 0) with false. cbn iota.
  unfold fused_dispatch. rewrite (proj2 (Z.leb_gt _ _)) by (unfold header; len_lia).
  change (index (header "-" s []) 0) with (@Ok PyErr byte "-"%byte). cbn [bind].
  rewrite decide_False, decide_True by done. unfold fused_error.
  pose proof (fused_line_at [] "-" s [] [] Hs) as Hl. rewrite app_nil_r in Hl.
  change (len [] + 1) with (0 + 1) in Hl. cbn [app] in Hl. by rewrite Hl.
Qed.

(** [set] answers [True] to [+OK], [None] to the null bulk string of a failed
    [NX] or [XX] condition, and [False] to everything else: an error reply is not
    raised, although [exec_raw], which every other command but [ping] uses, raises
    it. *)
Theorem set_outcomes name value ex px nx xx w raw w' :
  raw_execute (set_cmd name value ex px nx xx) w = (Ok raw, w') ->
  (forall s, raw = header "+" s [] ->
     set name value ex px nx xx w = (Ok (py_bool (bool_decide (take 2 s = bs "OK"))), w')) /\
  (forall ds, raw = header "$" ("-"%byte :: ds) [] ->
     set name value ex px nx xx w = (Ok py_none, w')) /\
  (forall s, raw = header "-" s [] -> CR ∉ s ->
     set name value ex px nx xx w = (Ok (py_bool false), w') /\
     exec_raw (set_cmd name value ex px nx xx) w =
       (Err (to_pyerr (redis (from_utf8_lossy s))), w')).
Proof.
  intros Hraw.
  assert (set name value ex px nx xx w = (Ok (set_reply raw), w')) as Hset.
  { unfold set, sbind, detached. by rewrite Hraw. }
  rewrite Hset. split_and!; intros s ->.
  - unfold set_reply. change (at_is _ 0 "$") with false. rewrite andb_false_r. cbn iota.
    do 3 f_equal. destruct s as [|b [|b' s]].
    + done.
    + unfold at_is. cbn. rewrite (bool_decide_false ([b] = _)) by done.
      rewrite (bool_decide_false (Some CR = _)) by done. by rewrite !andb_false_r.
    + rewrite (proj2 (Z.leb_le _ _)) by (unfold header; len_lia).
      unfold at_is, header. simpl. rewrite take_0. change (bs "OK") with ["O"%byte; "K"%byte].
      repeat case_bool_decide; naive_solver.
  - unfold set_reply. by rewrite (proj2 (Z.leb_le _ _)) by (unfold header; len_lia).
  - intros Hs. split.
    + unfold set_reply, at_is. simpl. by rewrite !andb_false_r.
    + unfold exec_raw, sbind, detached, lift. rewrite Hraw. simpl. by rewrite error_raises.
Qed.
End redis.

(** * A command from end to end *)

Section end_to_end.
Context `{Target} `{BytesMut} `{PyExtract} `{!MemoryAvailable}.

(** A command, from Python to Python: on an idle connection the client sends
    exactly the encoding of the command; when the server answers with an encoding
    of [v], cut in any pieces, the method returns the object that [v] converts
    to, or raises its conversion's error (unless the reply comes within 4096 bytes
    of the buffer limit), and the connection goes back to the pool with the reply
    consumed. *)
Theorem exec_raw_end_to_end self args v w extra r c rest :
  overflow_checks = false -> wire v w -> fused_ok v = true -> depth v <= MAX_PARSE_DEPTH ->
  size_of_pair * (1 + len (w ++ extra)) <= ISIZE_MAX -> 0 < permits (rpool r) ->
  take_healthy_connection (Standalone.time r) (idle_timeout (rpool r)) (idle (rpool r)) =
    (Some c, rest) ->
  writes c = [] -> Forall delivers (inbox c) -> stream c = w ++ extra ->
  let o := exec_raw self args r in
  exists c', sent c' = sent c ++ encode_command args /\
    o.2 = set_rpool (add_permits 1 (return_connection (Standalone.time r) c'
            (set_idle rest (add_permits (-1) (rpool r))))) (dials r) r /\
    ((o.1 = convert (decode_responses self) v /\ stream c' = extra) \/
     (o.1 = Err (to_pyerr (too_large (max_buf_size c))) /\ max_buf_size c < len w + 4096)).
Proof.
  intros Hrel Hw Hok Hdep Hm Hp Ht Hwr Hd Hs. cbv zeta.
  destruct (execute_raw_stream args v w extra r c rest Hw Hm Hp Ht Hwr Hd Hs)
    as (c' & (_ & Hsent & _) & Hr & Ho).
  exists c'. split; [exact Hsent|]. unfold exec_raw, sbind, detached, lift.
  cbn [raw_execute standalone_router].
  destruct (execute_raw args r) as [o r']. cbn [fst snd] in *. subst r'.
  unfold over_limit in Ho. destruct Ho as [[-> Hx]|[-> Hlim]]; cbn.
  2: { split; [done|by right]. }
  pose proof (fused_frame (decode_responses self) v w [] Hrel) as Hf. rewrite app_nil_r in Hf.
  rewrite Hf; [|apply fits_isize in Hm; len_lia|done..].
  destruct (convert _ v) as [x|e|q]; cbn; (split; [done|by left]).
Qed.

(** A client without connections: the constructor refuses a pool of size
    zero, [from_url] accepts it, and then every command waits forever. *)
Theorem zero_pool_hangs d t url cto rto ito dec self r :
  from_url d t url 0 cto rto ito dec = Ok (self, r) ->
  (forall host port db pw user mx,
     new d t host port db pw user 0 cto rto ito mx dec =
     Err (to_pyerr (Type_ (bs "pool_size must be > 0")))) /\
  (forall args, exec_raw self args r = (Panic Pending, r)).
Proof.
  intros Hu. split; [done|]. intros args. unfold from_url in Hu.
  destruct (into_py _) as [cfg| |]; [|done..]. cbn in Hu.
  rewrite new_checks_capacity in Hu by done. unfold with_capacity in Hu. cbn in Hu.
  rewrite Z.mul_0_r in Hu. by simplify_eq/=.
Qed.
End end_to_end.

(** * The theorems at concrete clients *)

Definition client : Redis := {| addr := bs "h:1"; decode_responses := true |}.
Definition noauth : bytes := header "-" (bs "NOAUTH Authentication required.") [].

Lemma set_outcomes_witness :
  let r := one_idle (test_conn [Data noauth]) in
  fst (set (H0 := cpython) (H2 := standalone_router (H := release64) (H0 := exact_bytes))
         (bs "k") (bs "v") None None false false r) = Ok (VBool false).
Proof.
  cbv zeta. set (r := one_idle _).
  destruct (raw_execute (RawRouter := standalone_router (H := release64) (H0 := exact_bytes))
    (set_cmd (bs "k") (bs "v") None None false false) r) as [o r'] eqn:E.
  assert (o = Ok noauth) as -> by (vm_compute in E; by injection E as <-).
  destruct (set_outcomes (H := release64) (H0 := cpython) client _ _ _ _ _ _ _ _ _ E)
    as (_ & _ & He).
  destruct (He (bs "NOAUTH Authentication required.") eq_refl) as [-> _]; [|reflexivity].
  by apply (bool_decide_unpack _).
Defined.

Lemma exec_raw_end_to_end_witness :
  fst (exec_raw (H := release64) (H0 := cpython)
    (H2 := standalone_router (H := release64) (H0 := exact_bytes)) client [bs "PING"]
    (one_idle (test_conn [Data (bs "+PO"); Data (bs "NG" ++ CRLF)]))) = Ok (VStr (bs "PONG")).
Proof.
  set (c := test_conn _).
  destruct (exec_raw_end_to_end (H := release64) (H0 := exact_bytes)
    (H1 := cpython) (H3 := cpython_memory) client [bs "PING"] (SimpleString (bs "PONG")) pong_frame []
    (one_idle c) c []) as (c' & _ & _ & Ho);
    [done|apply wire_PONG|done..|repeat constructor; done|reflexivity|].
  destruct Ho as [[Ho _]|[_ Ho]]; [exact Ho|]. vm_compute in Ho. discriminate.
Defined.

Lemma zero_pool_hangs_witness :
  exists r, from_url (H := release64) [] 0 (bs "redis://localhost") 0 1 1 1 true =
    Ok ({| addr := bs "localhost:6379"; decode_responses := true |}, r) /\
  exec_raw (H := release64) (H0 := cpython)
    (H2 := standalone_router (H := release64) (H0 := exact_bytes))
    {| addr := bs "localhost:6379"; decode_responses := true |} [bs "PING"] r = (Panic Pending, r).
Proof.
  eexists. split; [vm_compute; reflexivity|].
  apply (zero_pool_hangs (H := release64) (H0 := exact_bytes) (H1 := cpython)
    [] 0 (bs "redis://localhost") 1 1 1 true).
  vm_compute. reflexivity.
Defined.

(** * [select] and the pool *)

(** One idle connection, and a server that also takes a second one. *)
Definition two_lives : StandaloneRouter :=
  {| rpool := {| idle := [test_conn [Data (header "+" (bs "OK") [])]]; permits := 8; max_size := 8;
                 idle_timeout := 1000 |};
     rconfig := default_config; dials := [Connected [Data pong_frame] [] 0]; Standalone.time := 0 |}.

Definition later (t : Z) (r : StandaloneRouter) : StandaloneRouter :=
  {| rpool := rpool r; rconfig := rconfig r; dials := dials r; Standalone.time := t |}.

(** [select] switches the database of the one connection it happens to use: when that
    connection has been idle too long, the next command is sent on a new one, on which
    no SELECT was sent, and works on the configured database. *)
Example select_is_forgotten :
  let router := standalone_router (H := release64) (H0 := exact_bytes) in
  let '(o1, r1) := select (H := release64) (H0 := cpython) (H2 := router) client 5 two_lives in
  let '(o2, r2) := get (H := release64) (H0 := cpython) (H2 := router) client (bs "k")
                     (later 2000 r1) in
  o1 = Ok (VStr (bs "OK")) /\ o2 = Ok (VStr (bs "PONG")) /\
  map sent (idle (rpool r1)) = [encode_command [bs "SELECT"; bs "5"]] /\
  map sent (idle (rpool r2)) = [encode_command [bs "GET"; bs "k"]].
Proof. by vm_compute. Qed.
