(* ===== verification/Pipeline.v ===== *)
(** src/client.rs, the class [Pipeline]: commands are buffered by methods that
    mirror those of [Redis] and leave in one batch. *)

From Stdlib Require Import Strings.Byte.
From S2P Require Import Prelude RustStd Utf8 Float64 Display64 Error Types Parser ParserFacts.
From S2P Require Import ParserProps Wire Writer Python Response ResponseProps Config Tcp TcpProps.
From S2P Require Import Pool Standalone Client.

(** The pipeline's own fields; its router is the client's, shared. *)
Record Pipeline := {
  commands : list (list bytes);
  decode_responses : bool
}.

(** [Redis::pipeline]. *)
Definition pipeline (self : Redis) : Pipeline :=
  {| commands := []; decode_responses := Client.decode_responses self |}.

(** [slf.commands.push(cmd); slf]. *)
Definition push_cmd (cmd : list bytes) (slf : Pipeline) : Pipeline :=
  {| commands := commands slf ++ [cmd]; decode_responses := decode_responses slf |}.

Definition execute_command (args : list bytes) : Pipeline -> Pipeline := push_cmd args.

(** [self.commands.clear()], and what [std::mem::take] leaves. *)
Definition reset (slf : Pipeline) : Pipeline :=
  {| commands := []; decode_responses := decode_responses slf |}.

Definition __len__ (slf : Pipeline) : Z := len (commands slf).
Definition __repr__ (slf : Pipeline) : bytes :=
  bs "Pipeline(commands=" ++ itoa (len (commands slf)) ++ bs ")".

Section execute.
Context `{Target} `{PyRuntime} {W : Type} `{RawRouter W}.

(** [Pipeline::execute]: the buffer is taken before the I/O, so it is empty
    afterwards whatever happens. *)
Definition execute : stm (Pipeline * W) PyErr PyObj :=
  fun '(slf, w) =>
    if bool_decide (commands slf = []) then (Ok (py_list []), (slf, w)) else
    let taken := commands slf in
    let slf := reset slf in
    let '(r, w) := detached (raw_pipeline taken) w in
    (let? raw_responses := r in
     let? py_items := mapM (fun raw =>
       let? (obj, _) := parse_to_python raw (decode_responses slf) in Ok obj) raw_responses in
     Ok (py_list py_items), (slf, w)).
End execute.

(** ** Convenience commands *)

Definition ping : Pipeline -> Pipeline := push_cmd [bs "PING"].
Definition set (name value : bytes) (ex px : option Z) (nx xx : bool) : Pipeline -> Pipeline :=
  let cmd := [bs "SET"; name; value] in
  let cmd := match ex with Some seconds => (cmd ++ [bs "EX"]) ++ [itoa seconds] | None => cmd end in
  let cmd := match px with Some millis => (cmd ++ [bs "PX"]) ++ [itoa millis] | None => cmd end in
  let cmd := if nx then cmd ++ [bs "NX"] else cmd in
  let cmd := if xx then cmd ++ [bs "XX"] else cmd in
  push_cmd cmd.

Definition get (name : bytes) : Pipeline -> Pipeline := push_cmd [bs "GET"; name].
Definition delete (names : list bytes) : Pipeline -> Pipeline := push_cmd ([bs "DEL"] ++ names).
Definition exists_ (names : list bytes) : Pipeline -> Pipeline :=
  push_cmd ([bs "EXISTS"] ++ names).
Definition expire (name : bytes) (seconds : Z) : Pipeline -> Pipeline :=
  push_cmd [bs "EXPIRE"; name; itoa seconds].
Definition ttl (name : bytes) : Pipeline -> Pipeline := push_cmd [bs "TTL"; name].
Definition incr (name : bytes) : Pipeline -> Pipeline := push_cmd [bs "INCR"; name].
Definition decr (name : bytes) : Pipeline -> Pipeline := push_cmd [bs "DECR"; name].
Definition hset (name : bytes) (key : bytes) (value : bytes) : Pipeline -> Pipeline :=
  push_cmd [bs "HSET"; name; key; value].
Definition hget (name : bytes) (key : bytes) : Pipeline -> Pipeline :=
  push_cmd [bs "HGET"; name; key].
Definition hgetall (name : bytes) : Pipeline -> Pipeline := push_cmd [bs "HGETALL"; name].
Definition lpush (name : bytes) (values : list bytes) : Pipeline -> Pipeline :=
  push_cmd ([bs "LPUSH"; name] ++ values).
Definition rpush (name : bytes) (values : list bytes) : Pipeline -> Pipeline :=
  push_cmd ([bs "RPUSH"; name] ++ values).
Definition lrange (name : bytes) (start : Z) (stop : Z) : Pipeline -> Pipeline :=
  push_cmd [bs "LRANGE"; name; to_string start; to_string stop].
Definition sadd (name : bytes) (members : list bytes) : Pipeline -> Pipeline :=
  push_cmd ([bs "SADD"; name] ++ members).
Definition smembers (name : bytes) : Pipeline -> Pipeline := push_cmd [bs "SMEMBERS"; name].
Definition scard (name : bytes) : Pipeline -> Pipeline := push_cmd [bs "SCARD"; name].
Definition srem (name : bytes) (members : list bytes) : Pipeline -> Pipeline :=
  push_cmd ([bs "SREM"; name] ++ members).
Definition sismember (name : bytes) (value : bytes) : Pipeline -> Pipeline :=
  push_cmd [bs "SISMEMBER"; name; value].

(** ** Sorted sets *)

Definition zscore (name : bytes) (member : bytes) : Pipeline -> Pipeline :=
  push_cmd [bs "ZSCORE"; name; member].
Definition zrank (name : bytes) (member : bytes) : Pipeline -> Pipeline :=
  push_cmd [bs "ZRANK"; name; member].
Definition zcard (name : bytes) : Pipeline -> Pipeline := push_cmd [bs "ZCARD"; name].
Definition zrem (name : bytes) (members : list bytes) : Pipeline -> Pipeline :=
  push_cmd ([bs "ZREM"; name] ++ members).
Definition zincrby (name : bytes) (amount : f64) (member : bytes) : Pipeline -> Pipeline :=
  push_cmd [bs "ZINCRBY"; name; f64_to_string amount; member].
Definition zrange (name : bytes) (start stop : Z) (withscores : bool) : Pipeline -> Pipeline :=
  let cmd := [bs "ZRANGE"; name; to_string start; to_string stop] in
  let cmd := if withscores then cmd ++ [bs "WITHSCORES"] else cmd in
  push_cmd cmd.

(** ** Lists *)

Definition lpop (name : bytes) (count : option Z) : Pipeline -> Pipeline :=
  let cmd := [bs "LPOP"; name] in
  let cmd := match count with Some c => cmd ++ [itoa c] | None => cmd end in
  push_cmd cmd.

Definition rpop (name : bytes) (count : option Z) : Pipeline -> Pipeline :=
  let cmd := [bs "RPOP"; name] in
  let cmd := match count with Some c => cmd ++ [itoa c] | None => cmd end in
  push_cmd cmd.

Definition llen (name : bytes) : Pipeline -> Pipeline := push_cmd [bs "LLEN"; name].
Definition lindex (name : bytes) (index : Z) : Pipeline -> Pipeline :=
  push_cmd [bs "LINDEX"; name; to_string index].

(** ** Hashes *)

Definition hexists (name : bytes) (key : bytes) : Pipeline -> Pipeline :=
  push_cmd [bs "HEXISTS"; name; key].
Definition hlen (name : bytes) : Pipeline -> Pipeline := push_cmd [bs "HLEN"; name].
Definition hkeys (name : bytes) : Pipeline -> Pipeline := push_cmd [bs "HKEYS"; name].
Definition hvals (name : bytes) : Pipeline -> Pipeline := push_cmd [bs "HVALS"; name].
Definition hdel (name : bytes) (keys : list bytes) : Pipeline -> Pipeline :=
  push_cmd ([bs "HDEL"; name] ++ keys).
Definition hmget (name : bytes) (keys : list bytes) : Pipeline -> Pipeline :=
  push_cmd ([bs "HMGET"; name] ++ keys).
Definition hincrby (name : bytes) (key : bytes) (amount : Z) : Pipeline -> Pipeline :=
  push_cmd [bs "HINCRBY"; name; key; to_string amount].

(** ** Keys *)

Definition rename (src : bytes) (dst : bytes) : Pipeline -> Pipeline :=
  push_cmd [bs "RENAME"; src; dst].
Definition persist (name : bytes) : Pipeline -> Pipeline := push_cmd [bs "PERSIST"; name].
Definition key_type (name : bytes) : Pipeline -> Pipeline := push_cmd [bs "TYPE"; name].
Definition unlink (names : list bytes) : Pipeline -> Pipeline :=
  push_cmd ([bs "UNLINK"] ++ names).

(** ** Strings *)

Definition append (name : bytes) (value : bytes) : Pipeline -> Pipeline :=
  push_cmd [bs "APPEND"; name; value].
Definition strlen (name : bytes) : Pipeline -> Pipeline := push_cmd [bs "STRLEN"; name].
Definition setnx (name : bytes) (value : bytes) : Pipeline -> Pipeline :=
  push_cmd [bs "SETNX"; name; value].
Definition incrby (name : bytes) (amount : Z) : Pipeline -> Pipeline :=
  push_cmd [bs "INCRBY"; name; to_string amount].
Definition decrby (name : bytes) (amount : Z) : Pipeline -> Pipeline :=
  push_cmd [bs "DECRBY"; name; to_string amount].

(** ** Graph *)

Definition graph_query (graph query : bytes) (timeout : option Z) : Pipeline -> Pipeline :=
  let cmd := [bs "GRAPH.QUERY"; graph; query; bs "--compact"] in
  let cmd := match timeout with Some ms => cmd ++ [bs "timeout " ++ itoa ms] | None => cmd end in
  push_cmd cmd.

Definition graph_ro_query (graph query : bytes) (timeout : option Z) : Pipeline -> Pipeline :=
  let cmd := [bs "GRAPH.RO_QUERY"; graph; query; bs "--compact"] in
  let cmd := match timeout with Some ms => cmd ++ [bs "timeout " ++ itoa ms] | None => cmd end in
  push_cmd cmd.

Definition graph_delete (graph : bytes) : Pipeline -> Pipeline :=
  push_cmd [bs "GRAPH.DELETE"; graph].
Definition graph_list : Pipeline -> Pipeline := push_cmd [bs "GRAPH.LIST"].

(** ** Server *)

Definition flushdb : Pipeline -> Pipeline := push_cmd [bs "FLUSHDB"].
Definition flushall : Pipeline -> Pipeline := push_cmd [bs "FLUSHALL"].
Definition dbsize : Pipeline -> Pipeline := push_cmd [bs "DBSIZE"].
Definition echo (message : bytes) : Pipeline -> Pipeline := push_cmd [bs "ECHO"; message].
Definition publish (channel : bytes) (message : bytes) : Pipeline -> Pipeline :=
  push_cmd [bs "PUBLISH"; channel; message].
Definition time : Pipeline -> Pipeline := push_cmd [bs "TIME"].

(** * The methods the two classes share *)

(** A call of a method that [Redis] and [Pipeline] both have. *)
Inductive Call :=
| CPing
| CSet (name : bytes) (value : bytes) (ex : option Z) (px : option Z) (nx : bool) (xx : bool)
| CGet (name : bytes)
| CDelete (names : list bytes)
| CExists (names : list bytes)
| CExpire (name : bytes) (seconds : Z)
| CTtl (name : bytes)
| CIncr (name : bytes)
| CDecr (name : bytes)
| CHset (name : bytes) (key : bytes) (value : bytes)
| CHget (name : bytes) (key : bytes)
| CHgetall (name : bytes)
| CLpush (name : bytes) (values : list bytes)
| CRpush (name : bytes) (values : list bytes)
| CLrange (name : bytes) (start : Z) (stop : Z)
| CSadd (name : bytes) (members : list bytes)
| CSmembers (name : bytes)
| CScard (name : bytes)
| CSrem (name : bytes) (members : list bytes)
| CSismember (name : bytes) (value : bytes)
| CZscore (name : bytes) (member : bytes)
| CZrank (name : bytes) (member : bytes)
| CZcard (name : bytes)
| CZrem (name : bytes) (members : list bytes)
| CZincrby (name : bytes) (amount : f64) (member : bytes)
| CZrange (name : bytes) (start : Z) (stop : Z) (withscores : bool)
| CLpop (name : bytes) (count : option Z)
| CRpop (name : bytes) (count : option Z)
| CLlen (name : bytes)
| CLindex (name : bytes) (index : Z)
| CHexists (name : bytes) (key : bytes)
| CHlen (name : bytes)
| CHkeys (name : bytes)
| CHvals (name : bytes)
| CHdel (name : bytes) (keys : list bytes)
| CHmget (name : bytes) (keys : list bytes)
| CHincrby (name : bytes) (key : bytes) (amount : Z)
| CRename (src : bytes) (dst : bytes)
| CPersist (name : bytes)
| CKeyType (name : bytes)
| CUnlink (names : list bytes)
| CAppend (name : bytes) (value : bytes)
| CStrlen (name : bytes)
| CSetnx (name : bytes) (value : bytes)
| CIncrby (name : bytes) (amount : Z)
| CDecrby (name : bytes) (amount : Z)
| CGraphQuery (graph : bytes) (query : bytes) (timeout : option Z)
| CGraphRoQuery (graph : bytes) (query : bytes) (timeout : option Z)
| CGraphDelete (graph : bytes)
| CGraphList
| CFlushdb
| CFlushall
| CDbsize
| CEcho (message : bytes)
| CPublish (channel : bytes) (message : bytes)
| CTime.

Section calls.
Context `{Target} `{PyExtract} {W : Type} `{RawRouter W} (self : Redis).

Definition on_client (c : Call) : stm W PyErr PyObj :=
  match c with
  | CPing => let! ok := Client.ping in lift (Ok (py_bool ok))
  | CSet name value ex px nx xx => Client.set name value ex px nx xx
  | CGet name => Client.get self name
  | CDelete names => Client.delete self names
  | CExists names => Client.exists_ self names
  | CExpire name seconds => Client.expire self name seconds
  | CTtl name => Client.ttl self name
  | CIncr name => Client.incr self name
  | CDecr name => Client.decr self name
  | CHset name key value => Client.hset self name key value
  | CHget name key => Client.hget self name key
  | CHgetall name => Client.hgetall self name
  | CLpush name values => Client.lpush self name values
  | CRpush name values => Client.rpush self name values
  | CLrange name start stop => Client.lrange self name start stop
  | CSadd name members => Client.sadd self name members
  | CSmembers name => Client.smembers self name
  | CScard name => Client.scard self name
  | CSrem name members => Client.srem self name members
  | CSismember name value => Client.sismember self name value
  | CZscore name member => Client.zscore self name member
  | CZrank name member => Client.zrank self name member
  | CZcard name => Client.zcard self name
  | CZrem name members => Client.zrem self name members
  | CZincrby name amount member => Client.zincrby self name amount member
  | CZrange name start stop withscores => Client.zrange self name start stop withscores
  | CLpop name count => Client.lpop self name count
  | CRpop name count => Client.rpop self name count
  | CLlen name => Client.llen self name
  | CLindex name index => Client.lindex self name index
  | CHexists name key => Client.hexists self name key
  | CHlen name => Client.hlen self name
  | CHkeys name => Client.hkeys self name
  | CHvals name => Client.hvals self name
  | CHdel name keys => Client.hdel self name keys
  | CHmget name keys => Client.hmget self name keys
  | CHincrby name key amount => Client.hincrby self name key amount
  | CRename src dst => Client.rename self src dst
  | CPersist name => Client.persist self name
  | CKeyType name => Client.key_type self name
  | CUnlink names => Client.unlink self names
  | CAppend name value => Client.append self name value
  | CStrlen name => Client.strlen self name
  | CSetnx name value => Client.setnx self name value
  | CIncrby name amount => Client.incrby self name amount
  | CDecrby name amount => Client.decrby self name amount
  | CGraphQuery graph query timeout => Client.graph_query self graph query timeout
  | CGraphRoQuery graph query timeout => Client.graph_ro_query self graph query timeout
  | CGraphDelete graph => Client.graph_delete self graph
  | CGraphList => Client.graph_list self
  | CFlushdb => Client.flushdb self
  | CFlushall => Client.flushall self
  | CDbsize => Client.dbsize self
  | CEcho message => Client.echo self message
  | CPublish channel message => Client.publish self channel message
  | CTime => Client.time self
  end.

End calls.

Definition on_pipeline (c : Call) : Pipeline -> Pipeline :=
  match c with
  | CPing => ping
  | CSet name value ex px nx xx => set name value ex px nx xx
  | CGet name => get name
  | CDelete names => delete names
  | CExists names => exists_ names
  | CExpire name seconds => expire name seconds
  | CTtl name => ttl name
  | CIncr name => incr name
  | CDecr name => decr name
  | CHset name key value => hset name key value
  | CHget name key => hget name key
  | CHgetall name => hgetall name
  | CLpush name values => lpush name values
  | CRpush name values => rpush name values
  | CLrange name start stop => lrange name start stop
  | CSadd name members => sadd name members
  | CSmembers name => smembers name
  | CScard name => scard name
  | CSrem name members => srem name members
  | CSismember name value => sismember name value
  | CZscore name member => zscore name member
  | CZrank name member => zrank name member
  | CZcard name => zcard name
  | CZrem name members => zrem name members
  | CZincrby name amount member => zincrby name amount member
  | CZrange name start stop withscores => zrange name start stop withscores
  | CLpop name count => lpop name count
  | CRpop name count => rpop name count
  | CLlen name => llen name
  | CLindex name index => lindex name index
  | CHexists name key => hexists name key
  | CHlen name => hlen name
  | CHkeys name => hkeys name
  | CHvals name => hvals name
  | CHdel name keys => hdel name keys
  | CHmget name keys => hmget name keys
  | CHincrby name key amount => hincrby name key amount
  | CRename src dst => rename src dst
  | CPersist name => persist name
  | CKeyType name => key_type name
  | CUnlink names => unlink names
  | CAppend name value => append name value
  | CStrlen name => strlen name
  | CSetnx name value => setnx name value
  | CIncrby name amount => incrby name amount
  | CDecrby name amount => decrby name amount
  | CGraphQuery graph query timeout => graph_query graph query timeout
  | CGraphRoQuery graph query timeout => graph_ro_query graph query timeout
  | CGraphDelete graph => graph_delete graph
  | CGraphList => graph_list
  | CFlushdb => flushdb
  | CFlushall => flushall
  | CDbsize => dbsize
  | CEcho message => echo message
  | CPublish channel message => publish channel message
  | CTime => time
  end.


(** * The pipeline mirrors the client *)

Definition no_commands : Pipeline := {| commands := []; decode_responses := true |}.

(** The command a call stands for. *)
Definition argv (c : Call) : list bytes :=
  default [] (last (commands (on_pipeline c no_commands))).

(** Every method pushes one command. *)
Lemma on_pipeline_push c slf : on_pipeline c slf = push_cmd (argv c) slf.
Proof. by destruct c. Qed.

(** The methods of [Redis] that convert the reply themselves. *)
Definition own_reply (c : Call) : bool :=
  match c with CPing | CSet _ _ _ _ _ _ => true | _ => false end.

Section mirror.
Context `{Target} `{PyExtract} {W : Type} `{RawRouter W} (self : Redis).

Lemma on_client_exec c : own_reply c = false -> on_client self c = exec_raw self (argv c).
Proof.
  destruct c; intros Hc; try discriminate Hc; try reflexivity; cbn [on_client].
  all: try (destruct count; reflexivity). all: try (destruct withscores; reflexivity).
  all: try (destruct timeout; reflexivity).
  all: unfold Client.delete, Client.exists_, Client.lpush, Client.rpush, Client.sadd,
         Client.srem, Client.zrem, Client.hdel, Client.hmget, Client.unlink;
       by rewrite push_each_app.
Qed.

Lemma exec_raw_state args w : snd (exec_raw self args w) = snd (raw_execute args w).
Proof.
  unfold exec_raw, sbind, detached, lift. destruct (raw_execute args w) as [[raw|e|p] w']; [|done..].
  cbn. by destruct (parse_to_python _ _) as [[]| |].
Qed.

(** A method of the client issues its command, once, to whatever router it has. *)
Lemma on_client_sends c w : snd (on_client self c w) = snd (raw_execute (argv c) w).
Proof.
  destruct (own_reply c) eqn:Hc; [|by rewrite on_client_exec, exec_raw_state].
  destruct c; try discriminate Hc; cbn [on_client];
    unfold Client.ping, Client.set, sbind, detached, lift.
  - change (argv CPing) with [bs "PING"]. by destruct (raw_execute _ w) as [[]].
  - replace (argv (CSet _ _ _ _ _ _)) with (Client.set_cmd name value ex px nx xx)
      by (by destruct ex, px, nx, xx).
    by destruct (raw_execute _ w) as [[]].
Qed.

(** C33: the pipeline mirrors the client: for each of the methods they share, the
    pipeline appends one command to its buffer, and the client issues exactly that
    command, once, to whatever router it has. *)
Theorem pipeline_mirrors_client c slf w :
  exists cmd, commands (on_pipeline c slf) = commands slf ++ [cmd] /\
    decode_responses (on_pipeline c slf) = decode_responses slf /\
    snd (on_client self c w) = snd (raw_execute cmd w).
Proof.
  exists (argv c). rewrite on_pipeline_push. split_and!; [done|done|apply on_client_sends].
Qed.

(** A run of calls, one after the other. *)
Fixpoint each {E A B} (f : A -> stm W E B) (l : list A) : stm W E (list B) :=
  match l with
  | [] => lift (Ok [])
  | x :: l => let! y := f x in let! ys := each f l in lift (Ok (y :: ys))
  end.

(** A server that answers a batch as it answers the commands one by one. *)
Class InOrder : Prop :=
  in_order cmds w : raw_pipeline cmds w = each raw_execute cmds w.

Definition parse_reply (raw : bytes) : PyResult PyObj :=
  let? (obj, _) := parse_to_python raw (Client.decode_responses self) in Ok obj.

Lemma each_replies cs w objs w' :
  Forall (fun c => own_reply c = false) cs ->
  each (on_client self) cs w = (Ok objs, w') ->
  exists raws, each raw_execute (map argv cs) w = (Ok raws, w') /\ mapM parse_reply raws = Ok objs.
Proof.
  intros Hcs. revert w objs. induction Hcs as [|c cs Hc Hcs IH]; intros w objs He; cbn in *.
  { unfold lift in *. simplify_eq. by exists []. }
  apply sbind_inv in He as (o & w1 & Ho & He). apply sbind_inv in He as (os & w2 & Hos & He).
  unfold lift in He. simplify_eq. apply IH in Hos as (raws & Hr & Hm).
  rewrite on_client_exec in Ho by done. unfold exec_raw in Ho.
  apply sbind_inv in Ho as (raw & w2 & Hraw & Ho). unfold detached in Hraw.
  destruct (raw_execute (argv c) w) as [[raw'| |] w3] eqn:Hx; cbn in Hraw; simplify_eq.
  apply sbind_inv in Ho as ([obj n] & w3 & Hp & Ho).
  unfold lift in *. injection Hp as Hp ->. simplify_eq.
  exists (raw :: raws). rewrite (sbind_ok _ _ _ _ _ Hx), (sbind_ok _ _ _ _ _ Hr).
  split; [done|]. cbn. unfold parse_reply at 1. rewrite Hp. cbn. by rewrite Hm.
Qed.

Lemma fold_push cs slf :
  foldl (fun p c => on_pipeline c p) slf cs =
  {| commands := commands slf ++ map argv cs; decode_responses := decode_responses slf |}.
Proof.
  revert slf. induction cs as [|c cs IH]; intros slf; cbn.
  { rewrite app_nil_r. by destruct slf. }
  rewrite IH, on_pipeline_push. cbn. by rewrite <- app_assoc.
Qed.

(** Batching changes nothing but the round trips: against a server that
    answers a batch in order, if the calls made one at a time return [objs], the
    pipeline of the same calls returns the list of [objs], leaves the server in the
    same state, and is empty again. ([ping] and [set] convert their replies
    differently and are excluded.) *)
Theorem pipeline_equals_calls `{!InOrder} cs w objs w' :
  Forall (fun c => own_reply c = false) cs ->
  each (on_client self) cs w = (Ok objs, w') ->
  execute (foldl (fun p c => on_pipeline c p) (pipeline self) cs, w) =
  (Ok (py_list objs), (pipeline self, w')).
Proof.
  intros Hcs He. rewrite fold_push. cbn [commands pipeline app decode_responses].
  apply each_replies in He as (raws & Hr & Hm); [|done]. unfold execute. cbn [commands].
  case_bool_decide as Hnil.
  { apply map_eq_nil in Hnil as ->. cbn in Hr. unfold lift in Hr. simplify_eq. cbn in Hm.
    by simplify_eq. }
  unfold detached. rewrite in_order, Hr. cbn. unfold parse_reply in Hm. by rewrite Hm.
Qed.
End mirror.

(** * A pipeline from end to end *)

Section end_to_end.
Context `{Target} `{BytesMut} `{PyRuntime} `{!MemoryAvailable}.

Lemma frames_convert decode vs ws :
  overflow_checks = false -> Forall2 wire vs ws ->
  Forall (fun v => fused_ok v = true /\ depth v <= MAX_PARSE_DEPTH) vs ->
  Forall (fun w => len w < ISIZE_MAX) ws ->
  mapM (fun raw => let? (obj, _) := parse_to_python raw decode in Ok obj) ws =
  mapM (convert decode) vs.
Proof.
  intros Hrel Hws. induction Hws as [|v w vs ws Hw Hws IH]; [done|].
  intros [[Hok Hd] Hvs]%Forall_cons [Hl Hls]%Forall_cons. cbn. rewrite IH by done.
  pose proof (fused_frame decode v w [] Hrel) as Hf. rewrite app_nil_r in Hf.
  rewrite Hf by done. by destruct (convert decode v).
Qed.

(** A pipeline, from Python to Python: the buffered commands leave in one
    write and the buffer is empty afterwards, whatever happens; when the server
    answers with encodings of [vs] in any pieces, the result is the list of their
    conversions in order, or the error of the first that does not convert. *)
Theorem pipeline_end_to_end slf vs ws r c rest :
  overflow_checks = false -> Forall2 wire vs ws -> commands slf <> [] ->
  length ws = length (commands slf) ->
  Forall (fun v => fused_ok v = true /\ depth v <= MAX_PARSE_DEPTH) vs ->
  0 < permits (rpool r) ->
  take_healthy_connection (Standalone.time r) (idle_timeout (rpool r)) (idle (rpool r)) =
    (Some c, rest) ->
  writes c = [] -> Forall delivers (inbox c) -> stream c = concat ws ->
  size_of_pair * (1 + len (stream c)) <= ISIZE_MAX ->
  let '(o, (slf', r')) := execute (slf, r) in
  commands slf' = [] /\
  (exists c', sent c' = sent c ++ encode_pipeline (commands slf) /\
    r' = set_rpool (add_permits 1 (return_connection (Standalone.time r) c'
           (set_idle rest (add_permits (-1) (rpool r))))) (dials r) r) /\
  (o = (let? objs := mapM (convert (decode_responses slf)) vs in Ok (py_list objs)) \/
   (o = Err (to_pyerr (too_large (max_buf_size c))) /\
    max_buf_size c < len (concat ws) + 4096)).
Proof.
  intros Hrel Hws Hne Hl Hvs Hp Ht Hwr Hd Hs Hm. unfold execute, detached.
  rewrite bool_decide_false by done.
  destruct (pipeline_raw_stream _ _ _ _ _ _ Hws Hl Hp Ht Hwr Hd Hs Hm)
    as (c' & (_ & Hsent & _) & Hr & Ho).
  cbn [raw_pipeline standalone_router].
  destruct (pipeline_raw (commands slf) r) as [o r']. cbn [fst snd] in *. subst r'.
  split_and!; [done|by exists c'|].
  unfold over_limit in Ho. destruct Ho as [[-> _]|[-> Hlim]]; cbn; [left|by right].
  rewrite (frames_convert _ vs ws Hrel Hws Hvs); [done|].
  apply Forall_forall. intros w Hin. apply fits_isize in Hm; [|apply len_nonneg].
  rewrite Hs in Hm. apply list_elem_of_split in Hin as (l1 & l2 & ->).
  rewrite concat_app, len_app in Hm. cbn [concat] in Hm. rewrite len_app in Hm.
  pose proof (len_nonneg (concat l1)). pose proof (len_nonneg (concat l2)). lia.
Qed.
End end_to_end.

(** * The theorems at concrete pipelines *)

(** A server that answers every command with the number of commands so far. *)
Definition counting : RawRouter Z :=
  let answer (args : list bytes) (n : Z) : Result bytes * Z :=
    (Ok (header ":" (itoa (n + 1)) []), n + 1) in
  {| raw_execute := answer; raw_pipeline := each answer |}.

Lemma counting_in_order : InOrder (W := Z) (H2 := counting).
Proof. done. Qed.

Lemma pipeline_equals_calls_witness :
  execute (H := release64) (H0 := cpython) (H1 := counting)
    (foldl (fun p c => on_pipeline c p) (pipeline client) [CIncr (bs "a"); CTtl (bs "b")], 6) =
  (Ok (VList [VInt 7; VInt 8]), (pipeline client, 8)).
Proof.
  apply (pipeline_equals_calls (H := release64) (H0 := cpython) (H2 := counting)
    (H3 := counting_in_order) client); [by repeat constructor|vm_compute; reflexivity].
Defined.

Lemma pipeline_end_to_end_witness :
  fst (execute (H := release64) (H0 := cpython)
    (H1 := standalone_router (H := release64) (H0 := exact_bytes))
    (ping (ping (pipeline client)),
     one_idle (test_conn [Data (bs "+PO"); Data (bs "NG" ++ CRLF ++ pong_frame)]))) =
  Ok (VList [VStr (bs "PONG"); VStr (bs "PONG")]).
Proof.
  set (c := test_conn _). set (slf := ping _).
  pose proof (pipeline_end_to_end (H := release64) (H0 := exact_bytes) (H1 := cpython)
    (H2 := cpython_memory) slf
    [SimpleString (bs "PONG"); SimpleString (bs "PONG")] [pong_frame; pong_frame]
    (one_idle c) c []) as Ht.
  destruct (execute _) as [o [slf' r']] eqn:E.
  destruct Ht as (_ & _ & Ho);
    [reflexivity|constructor; [apply wire_PONG|constructor; [apply wire_PONG|constructor]]
    |discriminate|reflexivity|by repeat constructor|reflexivity|reflexivity|reflexivity
    |by repeat constructor|reflexivity|vm_compute; discriminate|].
  destruct Ho as [Ho|[_ Ho]]; [exact Ho|]. vm_compute in Ho. discriminate.
Defined.
