(* ===== verification/Session.v ===== *)
(** A client and a server as one system: the client of src/client.rs over a
    pooled connection (src/router, src/connection) against any server that speaks
    the protocol is a remote procedure call. The server is an abstract machine
    that answers commands; between the two are the bytes. *)

From Stdlib Require Import Strings.Byte.
From S2P Require Import Prelude RustStd Utf8 RustStr Float64 Error Types Parser ParserFacts.
From S2P Require Import ParserProps Wire Writer Python Response ResponseProps Config Tcp TcpProps.
From S2P Require Import Pool Standalone Pipeline Client.

Section session.
Context `{Target} `{BytesMut} `{PyExtract} `{!MemoryAvailable}.
(** What the server keeps, and how it answers a command. *)
Context {S : Type} (serve : S -> list bytes -> RespValue * S).

(** * The specification: calls *)

Fixpoint replies (s : S) (cmds : list (list bytes)) : list RespValue :=
  match cmds with
  | [] => []
  | cmd :: cmds => let '(v, s) := serve s cmd in v :: replies s cmds
  end.

(** What the caller of the methods sees. *)
Definition rpc (decode : bool) (s : S) (cmds : list (list bytes)) : list (PyResult PyObj) :=
  map (convert decode) (replies s cmds).

(** * The server on the wire *)

(** Bytes that a server reads as a list of commands, each an array of bulk
    strings. *)
Inductive commands : bytes -> list (list bytes) -> Prop :=
| commands_done : commands [] []
| commands_next buf cmd n cmds :
    parse buf = Ok (Array (map BulkString cmd), n) -> commands (drop (Z.to_nat n) buf) cmds ->
    commands buf (cmd :: cmds).

(** A server in state [s] that reads [input] writes [output]: one encoding of
    each reply, in order. *)
Definition responds (s : S) (input output : bytes) : Prop :=
  exists cmds ws, commands input cmds /\ Forall2 wire (replies s cmds) ws /\ output = concat ws.

Lemma map_bulk_inj (a b : list bytes) : map BulkString a = map BulkString b -> a = b.
Proof.
  revert b. induction a as [|x a IH]; intros [|y b]; cbn; [done..|].
  intros [= -> Heq]. f_equal. by apply IH.
Qed.

Lemma commands_det input cmds cmds' : commands input cmds -> commands input cmds' -> cmds = cmds'.
Proof.
  intros Hc. revert cmds'. induction Hc as [|buf cmd n cmds Hp _ IH]; intros cmds' Hc'.
  - inversion Hc' as [|? ? ? ? Hp]; subst; [done|]. by vm_compute in Hp.
  - inversion Hc' as [|? cmd' n' cmds2 Hp' Hc2]; subst; [by vm_compute in Hp|].
    rewrite Hp in Hp'. injection Hp' as Hcmd <-. apply map_bulk_inj in Hcmd as ->.
    f_equal. by apply IH.
Qed.

(** What a client sends, a server reads. *)
Lemma commands_sent cmds :
  size_of_pair * (1 + len (concat (map encode_command cmds))) <= ISIZE_MAX ->
  commands (concat (map encode_command cmds)) cmds.
Proof.
  induction cmds as [|cmd cmds IH]; intros Hm; [constructor|]. cbn [map concat] in *.
  econstructor; [by apply parse_encoded|].
  unfold len at 1. rewrite Nat2Z.id, drop_app_length. apply IH.
  rewrite len_app in Hm. pose proof (len_nonneg (encode_command cmd)).
  pose proof size_of_RespValue_ge. pose proof size_of_pair_ge. nia.
Qed.

(** * The client on the wire *)

(** A router whose only connection [c] is idle, and can be used now. *)
Record ready (r : StandaloneRouter) (c : RedisConnection) : Prop := {
  ready_permit : 0 < permits (rpool r);
  ready_size : 1 <= max_size (rpool r);
  ready_timeout : 0 <= idle_timeout (rpool r);
  ready_idle : idle (rpool r) = [c];
  ready_recent : Standalone.time r - last_used c <= idle_timeout (rpool r);
  ready_writes : writes c = [];
  ready_inbox : Forall delivers (inbox c)
}.

(** One call: the command leaves, the reply at the front of the stream is taken,
    and the connection is ready for the next call. *)
Lemma one_call args v w extra r c :
  wire v w -> size_of_pair * (1 + len (w ++ extra)) <= ISIZE_MAX ->
  len w + 4096 <= max_buf_size c -> ready r c -> stream c = w ++ extra ->
  exists c' r', execute_raw args r = (Ok w, r') /\ ready r' c' /\ stream c' = extra /\
    sent c' = sent c ++ encode_command args /\ max_buf_size c' = max_buf_size c.
Proof.
  intros Hw Hm Hmax [Hp Hsz Hto Hi Hrec Hwr Hd] Hs.
  set (t := Standalone.time r). set (c1 := touch (log_sent (encode_command args) [] (at_time t c))).
  pose proof (read_raw_response_stream v w extra c1 Hw Hm Hs Hd) as (Hss & Hd1 & Ho).
  pose proof (keeps_fresh_read_raw c1 eq_refl) as Hf.
  destruct (read_raw_response c1) as [o c2] eqn:Er. cbn [fst snd] in *.
  destruct Ho as [[-> Hx]|[_ Hover]]; [|cbn in Hover; lia].
  destruct Hss as (Hw2 & Hsent & Hmx & _ & Hnow).
  assert ((let! _ := send_raw (encode_command_str args) in read_raw_response) (at_time t c) =
    (Ok w, c2)) as He.
  { unfold sbind, send_raw. change (writes (at_time t c)) with (writes c). by rewrite Hwr. }
  assert (last_used c2 = t) as Hlu by (unfold fresh in Hf; by rewrite Hf, Hnow).
  exists c2. eexists. split.
  { unfold execute_raw. by apply (only_idle_connection _ r c _ c2). }
  split_and!; [constructor; cbn; try done; fold t; lia|done|done|done].
Qed.

Lemma session_run self cmds ws s extra r c :
  overflow_checks = false -> Forall2 wire (replies s cmds) ws ->
  Forall (fun v => fused_ok v = true /\ depth v <= MAX_PARSE_DEPTH) (replies s cmds) ->
  size_of_pair * (1 + len (concat ws ++ extra)) <= ISIZE_MAX ->
  Forall (fun w => len w + 4096 <= max_buf_size c) ws ->
  ready r c -> stream c = concat ws ++ extra ->
  exists c' r', run_all (map (exec_raw self) cmds) r = (rpc (decode_responses self) s cmds, r') /\
    ready r' c' /\ stream c' = extra /\
    sent c' = sent c ++ concat (map encode_command cmds).
Proof.
  intros Hrel. revert ws s r c. induction cmds as [|cmd cmds IH]; intros ws s r c Hws Hok Hm Hmax Hr Hs.
  { inversion Hws; subst. exists c, r. split_and!; [done..|by rewrite app_nil_r]. }
  unfold rpc in *. cbn [replies map run_all] in *. destruct (serve s cmd) as [v s'].
  inversion Hws as [|? w ? ws' Hw Hws']; subst. cbn [map concat] in *.
  apply Forall_cons in Hok as [[Hv Hdep] Hok]. apply Forall_cons in Hmax as [Hmx Hmax].
  rewrite <- app_assoc in Hm, Hs.
  destruct (one_call cmd v w (concat ws' ++ extra) r c Hw Hm Hmx Hr Hs)
    as (c1 & r1 & He & Hr1 & Hs1 & Hsent & Hmb).
  assert (exec_raw self cmd r = (convert (decode_responses self) v, r1)) as ->.
  { unfold exec_raw, sbind, detached, lift. cbn [raw_execute standalone_router]. rewrite He. cbn.
    pose proof (fused_frame (decode_responses self) v w [] Hrel) as Hf. rewrite app_nil_r in Hf.
    rewrite Hf; [|apply fits_isize in Hm; len_lia|done..].
    by destruct (convert _ v) as [x|e|q]. }
  destruct (IH ws' s' r1 c1 Hws' Hok) as (c2 & r2 & -> & Hr2 & Hs2 & Hsent2); [|by rewrite Hmb|done..|].
  { rewrite len_app in Hm. pose proof (len_nonneg w).
    pose proof size_of_RespValue_ge. pose proof size_of_pair_ge. nia. }
  exists c2, r2. split_and!; [done..|]. by rewrite Hsent2, Hsent, <- app_assoc.
Qed.

Lemma wires_short (ws : list bytes) b : len (concat ws) <= b -> Forall (fun w => len w <= b) ws.
Proof.
  intros Hb. apply Forall_forall. intros w Hin. apply list_elem_of_split in Hin as (l1 & l2 & ->).
  rewrite concat_app, len_app in Hb. cbn in Hb. rewrite len_app in Hb.
  pose proof (len_nonneg (concat l1)). pose proof (len_nonneg (concat l2)). lia.
Qed.

(** C3: The client and the server on the wire refine remote procedure calls: take
    any server machine that reads what this client sends for [cmds] and answers it
    on the connection, its bytes cut in any pieces, with replies within the limits of
    the fused parser and no push, attribute or empty verbatim values, and a release
    build with one idle healthy connection. Then the calls return, one
    after the other, exactly what the server's answers convert to (or raise), the
    client has sent exactly those commands, and the connection is idle again with
    nothing of the exchange left on it. *)
Theorem session_refines_rpc self cmds s output extra r c :
  overflow_checks = false -> responds s (concat (map encode_command cmds)) output ->
  Forall (fun v => fused_ok v = true /\ depth v <= MAX_PARSE_DEPTH) (replies s cmds) ->
  size_of_pair * (1 + len (concat (map encode_command cmds))) <= ISIZE_MAX ->
  size_of_pair * (1 + len (output ++ extra)) <= ISIZE_MAX ->
  len output + 4096 <= max_buf_size c -> ready r c -> stream c = output ++ extra ->
  exists c' r', run_all (map (exec_raw self) cmds) r = (rpc (decode_responses self) s cmds, r') /\
    ready r' c' /\ stream c' = extra /\
    sent c' = sent c ++ concat (map encode_command cmds).
Proof.
  intros Hrel (cmds' & ws & Hc & Hws & ->) Hok Hin Hm Hmax Hr Hs.
  assert (cmds' = cmds) as -> by (eapply commands_det; [exact Hc|by apply commands_sent]).
  apply (session_run self cmds ws s extra r c Hrel Hws Hok Hm); [|done..].
  eapply Forall_impl; [apply (wires_short ws (len (concat ws))); done|]. cbn. intros w Hw. lia.
Qed.

(** * Batches *)





End session.

(** * The theorem at a concrete server *)

(** A counter: INCR adds one and answers the sum, anything else is refused. *)
Definition counter (n : Z) (cmd : list bytes) : RespValue * Z :=
  match cmd with
  | [name; _] => if bool_decide (name = bs "INCR") then (Integer (n + 1), n + 1)
                 else (Error (bs "ERR unknown command"), n)
  | _ => (Error (bs "ERR unknown command"), n)
  end.

Definition session_cmds : list (list bytes) :=
  [[bs "INCR"; bs "k"]; [bs "FLY"; bs "away"]; [bs "INCR"; bs "k"]].

Definition session_reply : bytes :=
  header ":" (bs "42") [] ++ header "-" (bs "ERR unknown command") [] ++ header ":" (bs "43") [].

Lemma counter_responds :
  responds (H := release64) counter 41 (concat (map encode_command session_cmds)) session_reply.
Proof.
  exists session_cmds,
    [header ":" (bs "42") []; header "-" (bs "ERR unknown command") []; header ":" (bs "43") []].
  split_and!; [apply commands_sent; vm_compute; discriminate| |reflexivity].
  constructor; [|constructor; [|constructor; [|constructor]]].
  - apply wire_integer. by apply (int_text_itoa 42).
  - apply wire_error. split; [reflexivity|]. by apply memchr_None.
  - apply wire_integer. by apply (int_text_itoa 43).
Qed.

Definition slow_reply : list Event := [Data (take 7 session_reply); Data (drop 7 session_reply)].

Lemma session_refines_rpc_witness :
  fst (run_all (map (exec_raw (H := release64) (H0 := cpython)
        (H2 := standalone_router (H := release64) (H0 := exact_bytes)) client) session_cmds)
    (one_idle (test_conn slow_reply))) =
  [Ok (VInt 42); Err (to_pyerr (redis (bs "ERR unknown command"))); Ok (VInt 43)].
Proof.
  set (c := test_conn slow_reply).
  destruct (session_refines_rpc (H := release64) (H0 := exact_bytes) (H1 := cpython)
    (H3 := cpython_memory) counter client session_cmds 41 session_reply [] (one_idle c) c)
    as (c' & r' & -> & _); [reflexivity|apply counter_responds|by repeat constructor
    |vm_compute; discriminate|vm_compute; discriminate|vm_compute; discriminate
    |constructor; try done; by repeat constructor|reflexivity|reflexivity].
Defined.


(** * Where a batch differs from the client's methods *)

(** The method [set] turns the reply OK into [True]; in a batch it stays a text. *)
Example pipelined_set_is_text :
  let r := one_idle (test_conn [Data (header "+" (bs "OK") [])]) in
  let empty := {| Pipeline.commands := []; Pipeline.decode_responses := true |} in
  fst (Client.set (H0 := cpython)
        (H2 := standalone_router (H := release64) (H0 := exact_bytes))
        (bs "k") (bs "v") None None false false r) = Ok (VBool true) /\
  fst (Pipeline.execute (H := release64) (H0 := cpython)
        (H1 := standalone_router (H := release64) (H0 := exact_bytes))
        (Pipeline.set (bs "k") (bs "v") None None false false empty, r)) =
    Ok (VList [VStr (bs "OK")]).
Proof. by vm_compute. Qed.
