(* ===== verification/Concurrent.v ===== *)
(** Many threads of one client against one server (src/client.rs [exec_raw] and
    [Pipeline::execute], src/router/standalone.rs [execute_raw] and [pipeline_raw],
    src/connection/pool.rs [get] and the guard's [drop]): every interleaving of the
    threads, the server, failing connections and read timeouts. As long as no reply
    comes later than the read timeout the client is linearizable: each command of a
    call takes effect at most once, at one moment between the call's start and its
    return, those of a batch in their order; a call that returns gives the server's
    answers to its own commands. *)

From Stdlib Require Import Strings.Byte.
From stdpp Require Import relations.
From S2P Require Import Prelude RustStd Utf8 RustStr Float64 Error Types Parser ParserFacts.
From S2P Require Import ParserProps Wire Writer Python Response ResponseProps Config Tcp TcpProps.
From S2P Require Import Receive Pool Standalone Pipeline Client Session.

(** * Lines *)

(** A connection as both ends see it: its identity, the client's side, how many of
    the bytes sent the server has read, and whether the server still serves it. *)
Record Line := {
  line_id : nat;
  conn : RedisConnection;
  read_to : nat;
  alive : bool
}.

#[export] Instance line_pooled : Pooled Line :=
  {| conn_last_used l := last_used (conn l) |}.
#[export] Instance line_identified : Identified Line := {| conn_id := line_id |}.

Definition set_conn (c : RedisConnection) (l : Line) : Line :=
  {| line_id := line_id l; conn := c; read_to := read_to l; alive := alive l |}.

(** What the server has not read yet. *)
Definition unread (l : Line) : bytes := drop (read_to l) (sent (conn l)).

(** The server has read [n] bytes more and the network brings [events]; writes
    from now on end as [ws] says. *)
Definition after (n : Z) (events : list Event) (ws : list (option IoError)) (up : bool) (l : Line)
    : Line :=
  {| line_id := line_id l;
     conn := {| inbox := inbox (conn l) ++ events; writes := ws; sent := sent (conn l);
                buf := buf (conn l); cap := cap (conn l); max_buf_size := max_buf_size (conn l);
                read_timeout := read_timeout (conn l); last_used := last_used (conn l);
                now := now (conn l) |};
     read_to := read_to l + Z.to_nat n; alive := up |}.

Section concurrent.
Context `{Target} `{BytesMut} `{PyExtract} `{!MemoryAvailable}.
Context {S : Type} (serve : S -> list bytes -> RespValue * S) (decode : bool).

(** * The world *)

(** A call: a command, or the commands of a pipeline. *)
Inductive Job := One (args : list bytes) | Batch (cmds : list (list bytes)).

Definition cmds_of (j : Job) : list (list bytes) :=
  match j with One args => [args] | Batch cmds => cmds end.

(** What it writes. *)
Definition payload (j : Job) : bytes :=
  match j with One args => encode_command_str args | Batch cmds => encode_pipeline cmds end.

(** What it makes of the objects of its replies. *)
Definition shape (j : Job) (objs : list PyObj) : PyObj :=
  match j with One _ => default py_none (head objs) | Batch _ => py_list objs end.

(** A thread: between calls; in [get], waiting for a permit, with one, or opening a
    connection; with a guard, before and after sending its commands (with the replies
    read so far), and when its replies have been read; with the connection returned. *)
Inductive Thread :=
| Ready
| Called (j : Job)
| Looking (j : Job)
| Dialing (j : Job)
| Owning (j : Job) (l : Line)
| Awaiting (j : Job) (raws : list bytes) (l : Line)
| Closing (j : Job) (raw : Result (list bytes)) (l : Line)
| Freeing (j : Job) (raw : Result (list bytes)).

(** What happens: a call, the server's work on a command of thread [t], a return, or
    that a reply is later than the read timeout on a connection that still works. *)
Inductive Ev :=
| Call (t : nat) (j : Job)
| Serve (t : option nat) (args : list bytes) (v : RespValue)
| Ret (t : nat) (r : PyResult PyObj)
| Late.

Record World := {
  wpool : ConnectionPool Line;
  threads : list Thread;
  time : Z;
  server : S;
  log : list Ev
}.

Definition at_thread p l1 th l2 n s h : World :=
  {| wpool := p; threads := l1 ++ th :: l2; time := n; server := s; log := h |}.

(** The end of [exec_raw] and of [Pipeline::execute], once the router has returned. *)
Definition finish (j : Job) (raws : Result (list bytes)) : PyResult PyObj :=
  let? raws := into_py raws in
  let? objs := mapM (fun raw => let? (obj, _) := parse_to_python raw decode in Ok obj) raws in
  Ok (shape j objs).

(** The thread after a read: the loop of [pipeline_raw] goes on, or ends. *)
Definition received (j : Job) (raws : list bytes) (raw : Result bytes) (l : Line) : Thread :=
  match raw with
  | Ok w =>
      let raws := raws ++ [w] in
      if (length raws <? length (cmds_of j))%nat then Awaiting j raws l else Closing j (Ok raws) l
  | Err e => Closing j (Err e) l
  | Panic p => Closing j (Panic p) l
  end.

Definition line_of (th : Thread) : option Line :=
  match th with Owning _ l | Awaiting _ _ l | Closing _ _ l => Some l | _ => None end.
Definition with_line (l : Line) (th : Thread) : Thread :=
  match th with
  | Owning j _ => Owning j l
  | Awaiting j raws _ => Awaiting j raws l
  | Closing j raw _ => Closing j raw l
  | _ => th
  end.

(** A reply that the client has room for, behind those it has not taken yet. *)
Definition fits (l : Line) (w : bytes) : Prop :=
  size_of_pair * (1 + len (stream (conn l) ++ w)) <= ISIZE_MAX /\
  len w + 4096 <= max_buf_size (conn l).

(** Commands that can be read back. *)
Definition sized (j : Job) : Prop :=
  size_of_pair * (1 + len (concat (map encode_command (cmds_of j)))) <= ISIZE_MAX.

(** Bytes that are no frame yet. *)
Definition starved (b : bytes) : Prop := resp_frame_len b = Err Incomplete /\ len b < ISIZE_MAX.

(** The server's side of a line: it reads a command and answers, in any pieces; it
    reads one and the line breaks before the whole answer is out; the line breaks (with
    an end of stream, a failure, or silence) behind the answers that are on their way. It
    does not serve a broken line. *)
Inductive peer : S -> Line -> option (list bytes * RespValue) -> S -> Line -> Prop :=
| peer_answer s l cmd n v s' pieces :
    alive l = true -> parse (unread l) = Ok (Array (map BulkString cmd), n) ->
    serve s cmd = (v, s') -> wire v (concat pieces) -> fits l (concat pieces) ->
    Forall (fun d => d <> []) pieces ->
    peer s l (Some (cmd, v)) s' (after n (map Data pieces) (writes (conn l)) true l)
| peer_cut s l cmd n v s' p q events ws :
    alive l = true -> parse (unread l) = Ok (Array (map BulkString cmd), n) ->
    serve s cmd = (v, s') -> wire v (p ++ q) -> q <> [] -> fits l (p ++ q) ->
    concat (map event_data events) = p ->
    peer s l (Some (cmd, v)) s' (after n events ws false l)
| peer_break s l events ws :
    Forall (fun e => event_data e = []) events ->
    peer s l None s (after 0 events ws false l).

(** The server answers with pauses longer than the read timeout before or between the
    pieces. *)
Inductive late : S -> Line -> list bytes -> RespValue -> S -> Line -> Prop :=
| late_answer s l cmd n v s' events :
    alive l = true -> parse (unread l) = Ok (Array (map BulkString cmd), n) ->
    serve s cmd = (v, s') -> wire v (concat (map event_data events)) ->
    fits l (concat (map event_data events)) ->
    Forall (fun e => delivers e \/ e = Silence) events ->
    late s l cmd v s' (after n events (writes (conn l)) true l).

Definition served (t : option nat) (o : option (list bytes * RespValue)) : list Ev :=
  match o with Some (cmd, v) => [Serve t cmd v] | None => [] end.

(** A connection that was just opened and initialised: nothing is on its way. *)
Definition calm (l : Line) : Prop :=
  stream (conn l) = [] /\ Forall delivers (inbox (conn l)) /\ writes (conn l) = [].
Definition resting (l : Line) : Prop :=
  if alive l then calm l /\ read_to l = length (sent (conn l)) else starved (stream (conn l)).

(** The configuration of the client's pool. *)
Context (config : ConnectionConfig).

(** What the threads of the client do by themselves. *)
Inductive client : World -> World -> Prop :=
(** a pipeline without commands *)
| step_empty p l1 l2 n s h :
    client (at_thread p l1 (Called (Batch [])) l2 n s h)
           (at_thread p l1 Ready l2 n s (h ++ [Ret (length l1) (Ok (py_list []))]))
(** [ConnectionPool::get] *)
| step_acquire p l1 l2 n s h j :
    cmds_of j <> [] -> 0 < permits p ->
    client (at_thread p l1 (Called j) l2 n s h)
           (at_thread (add_permits (-1) p) l1 (Looking j) l2 n s h)
| step_take p l1 l2 n s h j l rest :
    take_healthy_connection n (idle_timeout p) (idle p) = (Some l, rest) ->
    client (at_thread p l1 (Looking j) l2 n s h)
           (at_thread (set_idle rest p) l1 (Owning j l) l2 n s h)
| step_miss p l1 l2 n s h j rest :
    take_healthy_connection n (idle_timeout p) (idle p) = (None, rest) ->
    client (at_thread p l1 (Looking j) l2 n s h)
           (at_thread (set_idle rest p) l1 (Dialing j) l2 n s h)
| step_dialed p l1 l2 n s h j l outcome :
    create_connection outcome config = Ok (conn l) -> resting l ->
    line_id l ∉ map line_id (idle p ++ omap line_of (l1 ++ l2)) ->
    client (at_thread p l1 (Dialing j) l2 n s h) (at_thread p l1 (Owning j l) l2 n s h)
| step_dial_failed p l1 l2 n s h j outcome e :
    create_connection outcome config = Err e ->
    client (at_thread p l1 (Dialing j) l2 n s h)
           (at_thread (add_permits 1 p) l1 Ready l2 n s (h ++ [Ret (length l1) (finish j (Err e))]))
(** [conn.send_raw(..).await?] and [conn.read_raw_response().await?], once for each
    command: a thread reads when something has come or the line is broken, or waits
    for the read timeout *)
| step_send p l1 l2 n s h j l c :
    send_raw (payload j) (at_time n (conn l)) = (Ok tt, c) ->
    client (at_thread p l1 (Owning j l) l2 n s h)
           (at_thread p l1 (Awaiting j [] (set_conn c l)) l2 n s h)
| step_send_failed p l1 l2 n s h j l e c :
    send_raw (payload j) (at_time n (conn l)) = (Err e, c) ->
    client (at_thread p l1 (Owning j l) l2 n s h)
           (at_thread p l1 (Closing j (Err e) (set_conn c l)) l2 n s h)
| step_receive p l1 l2 n s h j raws l raw c :
    stream (conn l) <> [] \/ alive l = false ->
    read_raw_response (at_time n (conn l)) = (raw, c) -> raw <> Panic Pending ->
    client (at_thread p l1 (Awaiting j raws l) l2 n s h)
           (at_thread p l1 (received j raws raw (set_conn c l)) l2 n s h)
| step_lapse p l1 l2 n s h j raws l raw c :
    stream (conn l) = [] -> alive l = true ->
    read_raw_response (at_time n (conn l)) = (raw, c) -> raw <> Panic Pending ->
    client (at_thread p l1 (Awaiting j raws l) l2 n s h)
           (at_thread p l1 (received j raws raw (set_conn c l)) l2 n s (h ++ [Late]))
(** the guard's [drop], then the return *)
| step_drop p l1 l2 n s h j raw l :
    client (at_thread p l1 (Closing j raw l) l2 n s h)
           (at_thread (return_connection n l p) l1 (Freeing j raw) l2 n s h)
| step_return p l1 l2 n s h j raw :
    client (at_thread p l1 (Freeing j raw) l2 n s h)
           (at_thread (add_permits 1 p) l1 Ready l2 n s (h ++ [Ret (length l1) (finish j raw)])).

Inductive step : World -> World -> Prop :=
| step_client w w' : client w w' -> step w w'
(** a thread's program calls the client *)
| step_call p l1 l2 n s h j :
    sized j ->
    step (at_thread p l1 Ready l2 n s h)
         (at_thread p l1 (Called j) l2 n s (h ++ [Call (length l1) j]))
(** the server, on a line in use and on an idle one *)
| step_peer p l1 th l2 n s h l o s' l' :
    line_of th = Some l -> peer s l o s' l' ->
    step (at_thread p l1 th l2 n s h)
         (at_thread p l1 (with_line l' th) l2 n s' (h ++ served (Some (length l1)) o))
| step_peer_idle p i1 l i2 ts n s h o s' l' :
    idle p = i1 ++ l :: i2 -> peer s l o s' l' ->
    step {| wpool := p; threads := ts; time := n; server := s; log := h |}
         {| wpool := set_idle (i1 ++ l' :: i2) p; threads := ts; time := n; server := s';
            log := h ++ served None o |}
| step_late p l1 th l2 n s h l cmd v s' l' :
    line_of th = Some l -> late s l cmd v s' l' ->
    step (at_thread p l1 th l2 n s h)
         (at_thread p l1 (with_line l' th) l2 n s' (h ++ [Serve (Some (length l1)) cmd v; Late]))
| step_late_idle p i1 l i2 ts n s h cmd v s' l' :
    idle p = i1 ++ l :: i2 -> late s l cmd v s' l' ->
    step {| wpool := p; threads := ts; time := n; server := s; log := h |}
         {| wpool := set_idle (i1 ++ l' :: i2) p; threads := ts; time := n; server := s';
            log := h ++ [Serve None cmd v; Late] |}
| step_tick p ts n s h dt :
    0 <= dt ->
    step {| wpool := p; threads := ts; time := n; server := s; log := h |}
         {| wpool := p; threads := ts; time := n + dt; server := s; log := h |}.

Definition start (k : nat) (s0 : S) : World :=
  {| wpool := Pool.new config; threads := repeat Ready k; time := 0; server := s0; log := [] |}.

(** A thread's calls are what [exec_raw] and [Pipeline::execute] are made of. *)
Lemma finish_exec_raw self args r :
  Client.decode_responses self = decode ->
  fst (exec_raw self args r) =
    finish (One args) (let? raw := fst (execute_raw args r) in Ok [raw]).
Proof.
  intros Hd. unfold exec_raw, sbind, detached, lift. cbn [raw_execute standalone_router].
  destruct (execute_raw args r) as [[raw|e|p] r']; [|done..]. cbn. rewrite Hd.
  by destruct (parse_to_python raw decode) as [[obj n]|e|p].
Qed.

Lemma finish_execute slf r :
  Pipeline.decode_responses slf = decode -> Pipeline.commands slf <> [] ->
  fst (Pipeline.execute (slf, r)) =
    finish (Batch (Pipeline.commands slf)) (fst (pipeline_raw (Pipeline.commands slf) r)).
Proof.
  intros Hd Hne. unfold Pipeline.execute. rewrite bool_decide_false by done. unfold detached.
  cbn [raw_pipeline standalone_router]. destruct (pipeline_raw _ r) as [[raws|e|p] r']; [|done..].
  cbn. by rewrite Hd.
Qed.

Lemma payload_eq j : payload j = concat (map encode_command (cmds_of j)).
Proof. destruct j; cbn; [by rewrite app_nil_r|apply encode_pipeline_eq]. Qed.

(** * The specification

    The server alone: its state after the commands of the log, in that order. *)
Inductive legal (s0 : S) : list Ev -> S -> Prop :=
| legal_nil : legal s0 [] s0
| legal_serve h s t args : legal s0 h s ->
    legal s0 (h ++ [Serve t args (fst (serve s args))]) (snd (serve s args))
| legal_other h s e : legal s0 h s -> (forall t args v, e <> Serve t args v) ->
    legal s0 (h ++ [e]) s.

(** Where a thread is in its calls: between them; in one, with the answers of the
    server to its commands so far. *)
Inductive Phase :=
| Quiet
| InCall (j : Job) (vs : list RespValue).

Definition event_of (e : Ev) : option nat :=
  match e with Call t _ | Ret t _ => Some t | Serve t _ _ => t | Late => None end.

Definition failing (r : PyResult PyObj) : Prop := forall x, r <> Ok x.

(** What a call returns when all its commands were answered. *)
Definition answer (j : Job) (vs : list RespValue) : PyResult PyObj :=
  let? objs := mapM (convert decode) vs in Ok (shape j objs).

(** One event, seen by thread [t]: the commands of its call are served in their order,
    each at most once, and it returns the answers, or fails. *)
Inductive advance (t : nat) : Phase -> Ev -> Phase -> Prop :=
| advance_call j : advance t Quiet (Call t j) (InCall j [])
| advance_serve j vs args v :
    cmds_of j !! length vs = Some args ->
    advance t (InCall j vs) (Serve (Some t) args v) (InCall j (vs ++ [v]))
| advance_answer j vs :
    length vs = length (cmds_of j) -> advance t (InCall j vs) (Ret t (answer j vs)) Quiet
| advance_failed j vs r : failing r -> advance t (InCall j vs) (Ret t r) Quiet
| advance_other ph e : event_of e <> Some t -> advance t ph e ph.

Inductive history (t : nat) : list Ev -> Phase -> Prop :=
| history_nil : history t [] Quiet
| history_snoc h e ph ph' : history t h ph -> advance t ph e ph' -> history t (h ++ [e]) ph'.

Definition owned (k : nat) (e : Ev) : Prop := exists t, event_of e = Some t /\ (t < k)%nat.

(** * The invariant *)

Hypothesis release : overflow_checks = false.
Hypothesis server_convertible : forall s args,
  fused_ok (fst (serve s args)) = true /\ depth (fst (serve s args)) <= MAX_PARSE_DEPTH.

(** A reply that was received, or is on its way. *)
Definition reply (v : RespValue) (w : bytes) : Prop :=
  wire v w /\ (fused_ok v = true /\ depth v <= MAX_PARSE_DEPTH) /\ len w < ISIZE_MAX.

(** The replies [ws] are on their way, whole, before anything else: on a line that
    works nothing follows them, on a broken one no further reply. *)
Definition backlog (l : Line) (ws : list bytes) : Prop :=
  exists ds es, inbox (conn l) = ds ++ es /\ Forall delivers ds /\
    buf (conn l) ++ concat (map event_data ds) = concat ws /\
    size_of_pair * (1 + len (concat ws)) <= ISIZE_MAX /\
    Forall (fun w => len w + 4096 <= max_buf_size (conn l)) ws /\
    if alive l then es = [] /\ writes (conn l) = [] else starved (concat (map event_data es)).

(** How a line stands while its thread waits in [ph], having read [raws]: the answers
    are those that were read, those that are on their way, and those that are lost. *)
Definition waiting (j : Job) (raws : list bytes) (l : Line) (ph : Phase) : Prop :=
  exists us xs zs ws,
    ph = InCall j (us ++ xs ++ zs) /\ (length (us ++ xs ++ zs) <= length (cmds_of j))%nat /\
    (length raws < length (cmds_of j))%nat /\
    Forall2 reply us raws /\ Forall2 reply xs ws /\
    (backlog l ws \/ (ws = [] /\ alive l = false /\ starved (stream (conn l)))) /\
    (alive l = true -> zs = [] /\
       unread l = concat (map encode_command (drop (length (us ++ xs)) (cmds_of j))) /\
       (read_to l + length (unread l) = length (sent (conn l)))%nat).

(** The raw result of a call in [ph]. *)
Definition outcome (j : Job) (raw : Result (list bytes)) (ph : Phase) : Prop :=
  (exists vs raws, ph = InCall j vs /\ length vs = length (cmds_of j) /\ raw = Ok raws /\
     Forall2 reply vs raws) \/
  ((forall w, raw <> Ok w) /\ exists vs, ph = InCall j vs).

Definition thread_ok (th : Thread) (ph : Phase) : Prop :=
  match th with
  | Ready => ph = Quiet
  | Called j => sized j /\ ph = InCall j []
  | Looking j | Dialing j => sized j /\ cmds_of j <> [] /\ ph = InCall j []
  | Owning j l => sized j /\ cmds_of j <> [] /\ ph = InCall j [] /\ resting l
  | Awaiting j raws l => sized j /\ waiting j raws l ph
  | Closing j raw l => resting l /\ outcome j raw ph
  | Freeing j raw => outcome j raw ph
  end.

Record world_ok (k : nat) (s0 : S) (w : World) : Prop := {
  ok_threads : length (threads w) = k;
  ok_idle : Forall resting (idle (wpool w));
  ok_phase t th : threads w !! t = Some th -> exists ph, history t (log w) ph /\ thread_ok th ph;
  ok_legal : legal s0 (log w) (server w);
  ok_owned : Forall (owned k) (log w)
}.

(** ** Lines *)

Lemma prefix_starved v p q :
  wire v (p ++ q) -> q <> [] -> size_of_pair * (1 + len (p ++ q)) <= ISIZE_MAX -> starved p.
Proof.
  intros Hw Hq Hm. pose proof (fits_isize _ Hm (len_nonneg _)) as Hmax. rewrite len_app in Hmax.
  pose proof (len_nonneg q). split; [|lia].
  pose proof (parse_rec_agrees (Datatypes.S (length p)) p ltac:(lia) ltac:(lia)) as Hag.
  assert (parse p = Err Incomplete) as Hi by (by apply (parse_prefix v _ q)).
  unfold parse in Hi. rewrite Hi in Hag. by apply Hag.
Qed.

Lemma starved_nil : starved [].
Proof. split; [apply resp_frame_len_empty|done]. Qed.

Lemma calm_empty l : calm l -> inbox (conn l) = [].
Proof.
  intros (Hs & Hd & _). destruct (inbox (conn l)) as [|e events] eqn:Hi; [done|].
  apply Forall_cons in Hd as [He _]. apply delivers_data in He as (b & d & ->).
  unfold stream in Hs. rewrite Hi in Hs. cbn in Hs. by apply app_nil in Hs as [_ ?].
Qed.

Lemma after_stream n events ws up l :
  stream (conn (after n events ws up l)) =
  stream (conn l) ++ concat (map event_data events).
Proof. unfold stream. cbn. by rewrite map_app, concat_app, app_assoc. Qed.

Lemma no_data events : Forall (fun e => event_data e = []) events -> concat (map event_data events) = [].
Proof. induction 1 as [|e events He _ IH]; [done|]. cbn. by rewrite He, IH. Qed.

Lemma data_pieces pieces : concat (map event_data (map Data pieces)) = concat pieces.
Proof. induction pieces; cbn; [done|by f_equal]. Qed.

Lemma pieces_deliver pieces : Forall (fun d => d <> []) pieces -> Forall delivers (map Data pieces).
Proof. by induction 1; constructor. Qed.

Lemma delivers_nothing ds : Forall delivers ds -> concat (map event_data ds) = [] -> ds = [].
Proof.
  destruct 1 as [|e ds He _]; [done|]. apply delivers_data in He as (b & d & ->). cbn. done.
Qed.

(** The server finds nothing on a line at rest. *)
Lemma resting_peer s l o s' l' : resting l -> peer s l o s' l' -> o = None /\ s' = s /\ resting l'.
Proof.
  unfold resting. intros Hr Hp.
  assert (alive l = true -> unread l = []) as Hu.
  { intros Ha. rewrite Ha in Hr. unfold unread. rewrite (proj2 Hr). apply drop_all. }
  destruct Hp as [s l cmd n v s' pieces Ha Hparse|s l cmd n v s' p q events ws Ha Hparse
    |s l events ws Hev].
  1-2: by rewrite (Hu Ha), parse_empty in Hparse.
  split_and!; [done|done|]. cbn [alive after]. rewrite after_stream, (no_data _ Hev), app_nil_r.
  destruct (alive l); [|done]. destruct Hr as [(-> & _) _]. apply starved_nil.
Qed.

(** ** Replies on their way *)

Lemma backlog_stream l ws : alive l = true -> backlog l ws -> stream (conn l) = concat ws.
Proof.
  intros Ha (ds & es & Hin & _ & Hb & _ & _ & He). rewrite Ha in He. destruct He as [-> _].
  unfold stream. by rewrite Hin, app_nil_r.
Qed.

(** When no reply is on its way the line is at rest. *)
Lemma backlog_nil l : backlog l [] -> if alive l then calm l else starved (stream (conn l)).
Proof.
  intros (ds & es & Hin & Hd & Hb & _ & _ & He). apply app_nil in Hb as [Hb Hds].
  apply delivers_nothing in Hds as ->; [|done]. unfold calm, stream. rewrite Hin, Hb.
  destruct (alive l); [|done]. by destruct He as [-> ->].
Qed.

Lemma calm_backlog l :
  alive l = true -> calm l -> size_of_pair * 1 <= ISIZE_MAX -> backlog l [].
Proof.
  intros Ha Hc Hm. pose proof (calm_empty l Hc) as Hi. destruct Hc as (Hs & _ & Hw).
  exists [], []. unfold stream in Hs. rewrite Hi, app_nil_r in Hs. rewrite Ha, Hi, Hs, Hw. by split_and!.
Qed.

Lemma backlog_answer n l ws pieces :
  alive l = true -> backlog l ws -> fits l (concat pieces) -> Forall (fun d => d <> []) pieces ->
  backlog (after n (map Data pieces) (writes (conn l)) true l) (ws ++ [concat pieces]).
Proof.
  intros Ha Hb [Hm Hmax] Hp. rewrite (backlog_stream l ws Ha Hb) in Hm.
  destruct Hb as (ds & es & Hin & Hd & Hb & _ & Hws & He). rewrite Ha in He. destruct He as [-> Hw].
  exists (ds ++ map Data pieces), []. cbn. rewrite Hin, !app_nil_r, map_app, !concat_app, data_pieces.
  rewrite app_assoc, Hb. cbn. rewrite app_nil_r. split_and!; try done.
  - apply Forall_app. split; [done|by apply pieces_deliver].
  - apply Forall_app. split; [done|by constructor].
Qed.

(** A line breaks behind its replies. *)
Lemma backlog_breaks n events wr l ws :
  backlog l ws ->
  (if alive l then starved (concat (map event_data events))
   else Forall (fun e => event_data e = []) events) ->
  backlog (after n events wr false l) ws.
Proof.
  intros (ds & es & Hin & Hd & Hb & Hm & Hws & He) Hev. exists ds, (es ++ events). cbn.
  rewrite Hin, app_assoc. split_and!; try done. rewrite map_app, concat_app.
  destruct (alive l); [by destruct He as [-> _]|]. by rewrite (no_data _ Hev), app_nil_r.
Qed.

(** A read takes the first reply. *)
Lemma backlog_read n v w ws l raw c :
  backlog l (w :: ws) -> wire v w -> read_raw_response (at_time n (conn l)) = (raw, c) ->
  raw = Ok w /\ same_session (at_time n (conn l)) c /\ backlog (set_conn c l) ws.
Proof.
  intros (ds & es & Hin & Hd & Hb & Hm & Hws & He) Hw Hr. cbn [concat] in *.
  set (c0 := at_time n (set_inbox ds (conn l))).
  assert (at_time n (conn l) = with_later es c0) as Hc0.
  { unfold c0, with_later. cbn. rewrite <- Hin. by destruct (conn l). }
  apply Forall_cons in Hws as [Hmax Hws].
  destruct (read_raw_response_stream v w (concat ws) c0 Hw Hm) as (Hss & Hd' & Ho); [done|done|].
  destruct (read_raw_response c0) as [o c1] eqn:E. cbn [fst snd] in *.
  destruct Ho as [[-> Hst]|[_ Hover]]; [|cbn in Hover; lia].
  rewrite Hc0, (read_raw_later es c0 w c1 E) in Hr. injection Hr as <- <-.
  split; [done|]. rewrite Hc0. destruct Hss as (Hwr & Hsent & Hmb & Hrest). split; [done|].
  exists (inbox c1), es. cbn. split_and!; try done.
  - rewrite len_app in Hm. pose proof (len_nonneg w).
    pose proof size_of_RespValue_ge. pose proof size_of_pair_ge. nia.
  - by rewrite Hmb.
  - by rewrite Hwr.
Qed.

(** ** Waiting *)

(** What a server reads next on the line of a waiting thread is its next command. *)
Lemma waiting_command s j raws l ph cmd n v s' :
  sized j -> waiting j raws l ph -> alive l = true ->
  parse (unread l) = Ok (Array (map BulkString cmd), n) -> serve s cmd = (v, s') ->
  exists us xs ws rest,
    ph = InCall j (us ++ xs) /\ cmds_of j !! length (us ++ xs) = Some cmd /\
    drop (length (us ++ xs)) (cmds_of j) = cmd :: rest /\
    (length raws < length (cmds_of j))%nat /\ Forall2 reply us raws /\ Forall2 reply xs ws /\
    backlog l ws /\ (fused_ok v = true /\ depth v <= MAX_PARSE_DEPTH) /\
    (read_to l + Z.to_nat n + length (concat (map encode_command rest)) = length (sent (conn l)))%nat /\
    drop (read_to l + Z.to_nat n) (sent (conn l)) = concat (map encode_command rest).
Proof.
  intros Hsz (us & xs & zs & ws & -> & Hlen & Hraws & Hus & Hxs & Hback & Hal) Ha Hparse Hs.
  destruct (Hal Ha) as (-> & Hu & Hr). rewrite app_nil_r in *.
  destruct Hback as [Hback|(_ & Hdead & _)]; [|congruence].
  destruct (drop (length (us ++ xs)) (cmds_of j)) as [|args rest] eqn:Hdrop.
  { by rewrite Hu, parse_empty in Hparse. }
  cbn [map concat] in Hu.
  assert (size_of_pair * (1 + len (encode_command args ++ concat (map encode_command rest))) <= ISIZE_MAX)
    as Hm.
  { unfold sized in Hsz. rewrite <- (take_drop (length (us ++ xs)) (cmds_of j)), Hdrop in Hsz.
    rewrite map_app, concat_app, len_app in Hsz. cbn [map concat] in Hsz.
    pose proof (len_nonneg (concat (map encode_command (take (length (us ++ xs)) (cmds_of j))))).
    pose proof size_of_RespValue_ge. pose proof size_of_pair_ge. nia. }
  rewrite Hu, parse_encoded in Hparse by done. injection Hparse as Hmap <-.
  apply map_bulk_inj in Hmap as ->.
  exists us, xs, ws, rest. split_and!; try done.
  - rewrite <- (Nat.add_0_r (length _)), <- lookup_drop, Hdrop. done.
  - replace v with (fst (serve s cmd)) by (by rewrite Hs). apply server_convertible.
  - replace v with (fst (serve s cmd)) by (by rewrite Hs). apply server_convertible.
  - rewrite <- Hr, Hu, length_app. unfold len. lia.
  - unfold unread in Hu. rewrite <- drop_drop, Hu. unfold len. rewrite Nat2Z.id. apply drop_app_length.
Qed.

(** The server works on the line of a waiting thread: on its next command. *)
Lemma waiting_peer s j raws l ph o s' l' :
  sized j -> waiting j raws l ph -> peer s l o s' l' ->
  match o with
  | None => s' = s /\ waiting j raws l' ph
  | Some (cmd, v) => (v, s') = serve s cmd /\
      exists vs, ph = InCall j vs /\ cmds_of j !! length vs = Some cmd /\
        waiting j raws l' (InCall j (vs ++ [v]))
  end.
Proof.
  intros Hsz Hw Hp.
  destruct Hp as [s l cmd n v s' pieces Ha Hparse Hs Hwire Hfit Hpc
    |s l cmd n v s' p q events ws Ha Hparse Hs Hwire Hq Hfit Hev|s l events ws Hev].
  - destruct (waiting_command s j raws l ph cmd n v s' Hsz Hw Ha Hparse Hs)
      as (us & xs & ws & rest & -> & Hcmd & Hdrop & Hraws & Hus & Hxs & Hback & Hv & Hr & Hu).
    split; [done|]. exists (us ++ xs). split_and!; [done..|].
    apply lookup_lt_Some in Hcmd as Hlt.
    exists us, (xs ++ [v]), [], (ws ++ [concat pieces]). rewrite app_nil_r.
    split_and!; try done.
    + by rewrite app_assoc.
    + rewrite app_assoc, length_app. cbn. lia.
    + apply Forall2_app; [done|]. constructor; [|constructor]. split_and!; try apply Hv; try done.
      destruct Hfit as [Hm _]. apply fits_isize in Hm; [|apply len_nonneg]. len_lia.
    + left. by apply backlog_answer.
    + intros _. split; [done|]. unfold unread. cbn. rewrite Hu, app_assoc, length_app. cbn.
      rewrite <- drop_drop, Hdrop. split; [done|exact Hr].
  - destruct (waiting_command s j raws l ph cmd n v s' Hsz Hw Ha Hparse Hs)
      as (us & xs & ws' & rest & -> & Hcmd & Hdrop & Hraws & Hus & Hxs & Hback & Hv & Hr & Hu).
    split; [done|]. exists (us ++ xs). split_and!; [done..|].
    apply lookup_lt_Some in Hcmd as Hlt.
    exists us, xs, [v], ws'. split_and!; try done.
    + by rewrite app_assoc.
    + rewrite app_assoc, length_app. cbn. lia.
    + left. apply backlog_breaks; [done|]. rewrite Ha, Hev. apply (prefix_starved v p q); [done..|].
      destruct Hfit as [Hm _]. rewrite len_app in Hm. pose proof (len_nonneg (stream (conn l))).
      pose proof size_of_RespValue_ge. pose proof size_of_pair_ge. nia.
  - split; [done|].
    destruct Hw as (us & xs & zs & ws' & -> & Hlen & Hraws & Hus & Hxs & Hback & Hal).
    exists us, xs, zs, ws'. split_and!; try done. destruct Hback as [Hback|(-> & Hdead & Hst)].
    + left. apply backlog_breaks; [done|]. destruct (alive l); [|done].
      rewrite (no_data _ Hev). apply starved_nil.
    + right. split_and!; [done..|]. by rewrite after_stream, (no_data _ Hev), app_nil_r.
Qed.

Lemma resting_send j l n o c :
  sized j -> cmds_of j <> [] -> resting l -> send_raw (payload j) (at_time n (conn l)) = (o, c) ->
  match o with
  | Ok _ => waiting j [] (set_conn c l) (InCall j [])
  | _ => resting (set_conn c l)
  end.
Proof.
  unfold resting, send_raw. intros Hsz Hne Hr Hs.
  assert (0 < length (cmds_of j))%nat as Hpos by (destruct (cmds_of j); [done|cbn; lia]).
  change (writes (at_time n (conn l))) with (writes (conn l)) in Hs. destruct (alive l) eqn:Ha.
  - destruct Hr as [Hcalm Hrd]. pose proof Hcalm as (Hst & Hd & Hw). rewrite Hw in Hs.
    injection Hs as <- <-. exists [], [], [], []. cbn [app length]. split_and!; try done; [cbn; lia|..].
    + left. apply calm_backlog; [done|by split_and!|].
      unfold sized in Hsz. pose proof (len_nonneg (concat (map encode_command (cmds_of j)))).
      pose proof size_of_RespValue_ge. pose proof size_of_pair_ge. nia.
    + intros _. split; [done|]. unfold unread. cbn. rewrite payload_eq, Hrd, drop_app_length, length_app.
      by rewrite drop_0.
  - destruct (writes (conn l)) as [|[e|] w]; injection Hs as <- <-; cbn [alive set_conn conn];
      rewrite ?Ha; try exact Hr;
      (exists [], [], [], []; cbn [app length]; split_and!; try done; [cbn; lia|by right|];
       cbn; congruence).
Qed.

(** The read of a waiting thread. *)
Lemma waiting_receive j raws l ph n raw c :
  sized j -> waiting j raws l ph -> stream (conn l) <> [] \/ alive l = false ->
  read_raw_response (at_time n (conn l)) = (raw, c) ->
  thread_ok (received j raws raw (set_conn c l)) ph.
Proof.
  intros Hsz (us & xs & zs & ws & -> & Hlen & Hraws & Hus & Hxs & Hback & Hal) Hread Hr.
  destruct Hxs as [|v w xs ws [Hw Hv] Hxs].
  - assert (alive l = false /\ starved (stream (conn l))) as [Ha [Hst Hm]].
    { destruct Hback as [Hback%backlog_nil|(_ & Ha & Hst)]; [|done].
      destruct (alive l); [|done]. destruct Hback as (Hs & _). by destruct Hread. }
    destruct (read_raw_takes (at_time n (conn l)) raw c Hm Hr) as [_ Ho].
    change (stream (at_time n (conn l))) with (stream (conn l)) in Ho.
    destruct raw as [w|e|p]; [by destruct Ho as [_ Ho]; rewrite Ho in Hst|..]; cbn;
      (split; [unfold resting; cbn; by rewrite Ha, Ho|right; by eauto]).
  - destruct Hback as [Hback|(? & _)]; [|done].
    destruct (backlog_read n v w ws l raw c Hback Hw Hr) as (-> & (_ & Hsent & _) & Hback').
    assert (Forall2 reply (us ++ [v]) (raws ++ [w])) as Hus'.
    { apply Forall2_app; [done|]. constructor; [by split|constructor]. }
    assert (length (us ++ [v]) = length (raws ++ [w])) as Hll by (by eapply Forall2_length).
    assert (alive l = true -> unread (set_conn c l) = unread l /\ sent c = sent (conn l)) as Hsame.
    { unfold unread. cbn. by rewrite Hsent. }
    unfold received. destruct (Nat.ltb_spec (length (raws ++ [w])) (length (cmds_of j))) as [Hlt|Hge].
    + split; [done|]. exists (us ++ [v]), xs, zs, ws. rewrite <- !app_assoc. cbn [app].
      split_and!; try done; [by left|]. intros Ha. cbn in Ha. destruct (Hal Ha) as (-> & Hu & Hrd).
      destruct (Hsame Ha) as [-> Hsent']. rewrite Hu. cbn [conn set_conn read_to]. rewrite Hsent'.
      split_and!; [done|done|by rewrite <- Hu].
    + rewrite !length_app in *. cbn [length] in *.
      assert (xs = [] /\ zs = []) as [-> ->].
      { destruct xs, zs; cbn in *; try (exfalso; lia). done. }
      inversion Hxs; subst. split.
      * apply backlog_nil in Hback'. unfold resting. cbn [alive set_conn] in *.
        destruct (alive l); [|done]. split; [done|]. destruct (Hal eq_refl) as (_ & Hu & Hrd).
        rewrite drop_ge in Hu by lia. cbn in Hu. rewrite Hu in Hrd. cbn in Hrd. cbn.
        destruct (Hsame eq_refl) as [_ ->]. lia.
      * left. exists (us ++ [v]), (raws ++ [w]). rewrite length_app. cbn. split_and!; try done. lia.
Qed.

(** ** Results *)

Lemma replies_converted vs raws :
  Forall2 reply vs raws ->
  mapM (fun raw => let? (obj, _) := parse_to_python raw decode in Ok obj) raws = mapM (convert decode) vs.
Proof.
  induction 1 as [|v w vs raws (Hw & [Hok Hd] & Hm) _ IH]; [done|]. cbn.
  pose proof (fused_frame decode v w [] release) as Hf. rewrite app_nil_r in Hf.
  rewrite Hf by done. destruct (convert decode v); cbn; [|done..]. by rewrite IH.
Qed.

Lemma outcome_return t j raw ph : outcome j raw ph -> advance t ph (Ret t (finish j raw)) Quiet.
Proof.
  intros [(vs & raws & -> & Hl & -> & Hr)|[Hno [vs ->]]].
  - replace (finish j (Ok raws)) with (answer j vs); [by apply advance_answer|].
    unfold finish, answer. cbn. by rewrite (replies_converted vs raws Hr).
  - apply advance_failed. intros x. destruct raw as [w|e|p]; [by destruct (Hno w)|done..].
Qed.

(** ** Steps *)

Lemma history_other t h e ph :
  history t h ph -> event_of e <> Some t -> history t (h ++ [e]) ph.
Proof. intros Hh He. by eapply history_snoc, advance_other. Qed.

(** The log of a step: nothing, or one event of the thread that moves. *)
Inductive logs (t : nat) (h : list Ev) : list Ev -> Prop :=
| logs_nothing : logs t h h
| logs_event e : event_of e = Some t -> logs t h (h ++ [e]).

Lemma logs_others t t' h h' ph : logs t h h' -> t' <> t -> history t' h ph -> history t' h' ph.
Proof.
  destruct 1 as [|e He]; [done|]. intros Hne Hh. apply history_other; [done|]. rewrite He. congruence.
Qed.

Lemma logs_owned t k h h' : (t < k)%nat -> logs t h h' -> Forall (owned k) h -> Forall (owned k) h'.
Proof.
  intros Ht Hl Hh. destruct Hl as [|e He]; [done|]. apply Forall_app. split; [done|].
  constructor; [|constructor]. by exists t.
Qed.

(** One thread moves, and keeps its part of the invariant. *)
Lemma thread_moves k s0 p p' l1 th th' l2 n n' s s' h h' :
  world_ok k s0 (at_thread p l1 th l2 n s h) ->
  Forall resting (idle p') -> logs (length l1) h h' ->
  (legal s0 h s -> legal s0 h' s') ->
  (forall ph, history (length l1) h ph -> thread_ok th ph ->
     exists ph', history (length l1) h' ph' /\ thread_ok th' ph') ->
  world_ok k s0 (at_thread p' l1 th' l2 n' s' h').
Proof.
  intros [Hk Hidle Hph Hleg Hown] Hidle' Hlogs Hleg' Hmove. unfold at_thread in *. cbn in *.
  rewrite length_app in Hk. cbn in Hk.
  constructor; cbn; [by rewrite length_app|done| |by apply Hleg'|].
  - intros t u Hu. destruct (decide (t = length l1)) as [->|Hne].
    + rewrite list_lookup_middle in Hu by done. injection Hu as <-.
      destruct (Hph (length l1) th) as (ph & Hh & Hth); [by apply list_lookup_middle|].
      by apply (Hmove ph).
    + destruct (Hph t u) as (ph & Hh & Hth).
      { rewrite <- Hu. destruct (decide (t < length l1)%nat).
        - by rewrite !lookup_app_l by done.
        - rewrite !lookup_app_r by lia. by destruct (t - length l1)%nat eqn:E; [lia|]. }
      exists ph. split; [|done]. by eapply logs_others.
  - eapply logs_owned; [|done|done]. lia.
Qed.

(** Steps that leave the log alone. *)
Lemma thread_moves_quietly k s0 p p' l1 th th' l2 n s h :
  world_ok k s0 (at_thread p l1 th l2 n s h) ->
  Forall resting (idle p') -> (forall ph, thread_ok th ph -> thread_ok th' ph) ->
  world_ok k s0 (at_thread p' l1 th' l2 n s h).
Proof.
  intros Hok Hidle Hth. eapply thread_moves; [exact Hok|done|constructor|done|].
  intros ph Hh Hph. exists ph. auto.
Qed.

Lemma returned_resting n l p :
  resting l -> Forall resting (idle p) -> Forall resting (idle (return_connection n l p)).
Proof.
  intros Hl Hp. unfold return_connection. destruct (stale _ _ _); [done|].
  destruct (_ <? _); [|done]. cbn. apply Forall_app. by split; [|constructor].
Qed.

Lemma taken_resting n timeout i o rest :
  Forall resting i -> take_healthy_connection n timeout i = (o, rest) ->
  Forall resting rest /\ (forall l, o = Some l -> resting l).
Proof.
  intros Hi Ht. apply take_healthy_spec in Ht as (dropped & -> & _ & _).
  apply Forall_app in Hi as [Hrest Ho]. split; [done|]. intros l ->.
  apply Forall_app in Ho as [Ho _]. by apply Forall_cons in Ho as [? _].
Qed.

(** The server's step on the line of a thread. *)
Lemma thread_peer t s h l o s' l' th ph s0 :
  line_of th = Some l -> peer s l o s' l' -> history t h ph -> thread_ok th ph ->
  (legal s0 h s -> legal s0 (h ++ served (Some t) o) s') /\
  exists ph', history t (h ++ served (Some t) o) ph' /\ thread_ok (with_line l' th) ph'.
Proof.
  intros Hl Hp Hh Hth.
  destruct th as [|j|j|j|j l0|j raws l0|j raw l0|j raw]; try done; injection Hl as ->.
  - destruct Hth as (Hsz & Hne & -> & Hr). destruct (resting_peer _ _ _ _ _ Hr Hp) as (-> & -> & Hr').
    cbn. rewrite app_nil_r. split; [done|]. by exists (InCall j []).
  - destruct Hth as (Hsz & Hw). pose proof (waiting_peer _ _ _ _ _ _ _ _ Hsz Hw Hp) as Ho.
    destruct o as [[cmd v]|]; cbn.
    + destruct Ho as (Hs & vs & -> & Hcmd & Hw'). split.
      * intros Hleg. replace v with (fst (serve s cmd)) by (by rewrite <- Hs).
        replace s' with (snd (serve s cmd)) by (by rewrite <- Hs). by constructor.
      * exists (InCall j (vs ++ [v])). split; [|done]. eapply history_snoc; [done|by constructor].
    + destruct Ho as [-> Hw']. rewrite app_nil_r. split; [done|]. by exists ph.
  - destruct Hth as (Hr & Ho). destruct (resting_peer _ _ _ _ _ Hr Hp) as (-> & -> & Hr').
    cbn. rewrite app_nil_r. split; [done|]. by exists ph.
Qed.

Lemma legal_silent s0 h s e :
  (forall t args v, e <> Serve t args v) -> legal s0 h s -> legal s0 (h ++ [e]) s.
Proof. intros He Hl. by apply legal_other. Qed.

(** A thread's call returns. *)
Lemma thread_returns k s0 p p' l1 th l2 n s h r :
  world_ok k s0 (at_thread p l1 th l2 n s h) -> Forall resting (idle p') ->
  (forall ph, thread_ok th ph -> advance (length l1) ph (Ret (length l1) r) Quiet) ->
  world_ok k s0 (at_thread p' l1 Ready l2 n s (h ++ [Ret (length l1) r])).
Proof.
  intros Hok Hidle Hth.
  eapply thread_moves; [exact Hok|done|by constructor|by apply legal_silent|].
  intros ph Hh Hph. exists Quiet. split; [|done]. eapply history_snoc; [done|by apply Hth].
Qed.

(** A step in which nothing is late. *)
Lemma client_world_ok k s0 w w' :
  world_ok k s0 w -> client w w' -> Late ∉ log w' -> world_ok k s0 w'.
Proof.
  intros Hok Hs Hlate. pose proof (ok_idle _ _ _ Hok) as Hidle.
  destruct Hs as [p l1 l2 n s h|p l1 l2 n s h j Hne Hp|p l1 l2 n s h j l rest Ht
    |p l1 l2 n s h j rest Ht|p l1 l2 n s h j l o Hc Hl _|p l1 l2 n s h j o e _
    |p l1 l2 n s h j l c Hsend|p l1 l2 n s h j l e c Hsend|p l1 l2 n s h j raws l raw c Hin Hr _
    |p l1 l2 n s h j raws l raw c _ _ _ _
    |p l1 l2 n s h j raw l|p l1 l2 n s h j raw]; cbn [wpool at_thread] in Hidle.
  - eapply thread_returns; [exact Hok|done|]. intros ph [_ ->]. by apply (advance_answer _ (Batch []) []).
  - eapply thread_moves_quietly; [exact Hok|done|]. by intros ph [? ->].
  - destruct (taken_resting _ _ _ _ _ Hidle Ht) as [Hrest Hl].
    eapply thread_moves_quietly; [exact Hok|done|]. intros ph (? & ? & ->). cbn. auto.
  - destruct (taken_resting _ _ _ _ _ Hidle Ht) as [Hrest _]. by eapply thread_moves_quietly.
  - eapply thread_moves_quietly; [exact Hok|done|]. intros ph (? & ? & ->). by split_and!.
  - eapply thread_returns; [exact Hok|done|]. intros ph (_ & _ & ->). by apply advance_failed.
  - eapply thread_moves_quietly; [exact Hok|done|]. intros ph (Hsz & Hne & -> & Hrest). split; [done|].
    by apply (resting_send _ _ _ _ _ Hsz Hne Hrest Hsend).
  - eapply thread_moves_quietly; [exact Hok|done|]. intros ph (Hsz & Hne & -> & Hrest).
    split; [by apply (resting_send _ _ _ _ _ Hsz Hne Hrest Hsend)|]. right. split; [done|]. by exists [].
  - eapply thread_moves_quietly; [exact Hok|done|]. intros ph (Hsz & Hw).
    by eapply waiting_receive.
  - destruct Hlate. cbn. set_solver.
  - assert (resting l) as Hl.
    { destruct (ok_phase _ _ _ Hok (length l1) (Closing j raw l)) as (ph & _ & Hl & _); [|done].
      by apply list_lookup_middle. }
    eapply thread_moves_quietly; [exact Hok|by apply returned_resting|]. by intros ph [_ ?].
  - eapply thread_returns; [exact Hok|done|]. intros ph Ho. by apply outcome_return.
Qed.

Lemma step_world_ok k s0 w w' :
  world_ok k s0 w -> step w w' -> Late ∉ log w' -> world_ok k s0 w'.
Proof.
  intros Hok Hs Hlate. pose proof (ok_idle _ _ _ Hok) as Hidle.
  destruct Hs as [w w' Hs|p l1 l2 n s h j Hsz|p l1 th l2 n s h l o s' l' Hl Hp
    |p i1 l i2 ts n s h o s' l' Hi Hp|p l1 th l2 n s h l cmd v s' l' Hl Hp
    |p i1 l i2 ts n s h cmd v s' l' Hi Hp|p ts n s h dt Hdt]; cbn [wpool at_thread] in Hidle.
  - by eapply client_world_ok.
  - eapply thread_moves; [exact Hok|done|by constructor|by apply legal_silent|].
    intros ph Hh ->. exists (InCall j []). split; [|done].
    eapply history_snoc; [done|constructor].
  - destruct (ok_phase _ _ _ Hok (length l1) th) as (ph0 & Hh0 & Hth0);
      [by apply list_lookup_middle|].
    eapply thread_moves; [exact Hok|done| | |].
    + destruct o as [[cmd v]|]; cbn; [by constructor|rewrite app_nil_r; constructor].
    + by apply (thread_peer _ _ _ _ _ _ _ _ _ s0 Hl Hp Hh0 Hth0).
    + intros ph Hh Hth. by apply (thread_peer _ _ _ _ _ _ _ _ _ s0 Hl Hp Hh Hth).
  - rewrite Hi in Hidle. apply Forall_app in Hidle as [H1' [Hl H2']%Forall_cons].
    destruct (resting_peer _ _ _ _ _ Hl Hp) as (-> & -> & Hl').
    destruct Hok as [Hk _ Hph Hleg Hown]. cbn in *. rewrite app_nil_r.
    constructor; cbn; try done. apply Forall_app. by split; [|constructor].
  - destruct Hlate. cbn. set_solver.
  - destruct Hlate. cbn. set_solver.
  - by destruct Hok.
Qed.

(** The log only grows. *)
Lemma step_log w w' : step w w' -> exists h, log w' = log w ++ h.
Proof.
  destruct 1 as [w w' [ ]| | | | | |]; cbn; first [by eexists|exists []; by rewrite app_nil_r].
Qed.

Lemma start_ok k s0 : world_ok k s0 (start k s0).
Proof.
  constructor; cbn; [apply repeat_length|constructor| |constructor|constructor].
  intros t th Ht. exists Quiet. split; [constructor|]. apply list_elem_of_lookup_2, list_elem_of_In in Ht.
  by apply repeat_spec in Ht as ->.
Qed.

(** ** Reading a history *)

Lemma history_split t h e h' ph :
  history t (h ++ e :: h') ph -> exists ph1 ph2, history t h ph1 /\ advance t ph1 e ph2.
Proof.
  revert ph. induction h' as [|e' h' IH] using rev_ind; intros ph Hh.
  - inversion Hh as [Hn|h0 e0 ph1 ph2 Hh0 Ha Heq]; [by destruct h|].
    apply app_inj_tail in Heq as [-> ->]. by exists ph1, ph.
  - rewrite app_comm_cons, app_assoc in Hh.
    inversion Hh as [Hn|h0 e0 ph1 ph2 Hh0 Ha Heq]; [by destruct h|].
    apply app_inj_tail in Heq as [-> ->]. by apply (IH ph1).
Qed.

(** The events of thread [t]. *)
Definition mine (t : nat) : list Ev -> list Ev := filter (fun e => event_of e = Some t).

Lemma zip_with_snoc {A B C} (f : A -> B -> C) l k x y :
  l !! length k = Some x -> zip_with f l (k ++ [y]) = zip_with f l k ++ [f x y].
Proof.
  revert l. induction k as [|z k IH]; intros [|u l] Hx; try done; cbn in *.
  - injection Hx as ->. by destruct l.
  - by rewrite IH.
Qed.

(** A thread in a call: since it started, the server has worked on the first of its
    commands, in their order, and has given the answers. *)
Lemma history_in_call t h j vs :
  history t h (InCall j vs) ->
  exists a b, h = a ++ Call t j :: b /\ mine t b = zip_with (Serve (Some t)) (cmds_of j) vs.
Proof.
  remember (InCall j vs) as ph eqn:Hph. intros Hh. revert j vs Hph.
  induction Hh as [|h e ph1 ph2 Hh IH Ha]; intros j vs Hph; [done|]. subst ph2.
  inversion Ha as [j'|j' vs' args v Hc| | |ph' e' He]; subst.
  - exists h, []. split; [done|]. by destruct (cmds_of j).
  - destruct (IH _ _ eq_refl) as (a & b & -> & Hb). exists a, (b ++ [Serve (Some t) args v]).
    split; [by rewrite <- app_assoc|]. rewrite (zip_with_snoc _ _ _ args) by done. rewrite <- Hb.
    unfold mine. rewrite filter_app. cbn. by rewrite decide_True.
  - destruct (IH _ _ eq_refl) as (a & b & -> & Hb). exists a, (b ++ [e]).
    split; [by rewrite <- app_assoc|]. rewrite <- Hb. unfold mine. rewrite filter_app. cbn.
    rewrite decide_False by done. apply app_nil_r.
Qed.

Lemma history_result t h h' x ph :
  history t (h ++ Ret t (Ok x) :: h') ph ->
  exists j vs a b, h = a ++ Call t j :: b /\ length vs = length (cmds_of j) /\
    mine t b = zip_with (Serve (Some t)) (cmds_of j) vs /\ answer j vs = Ok x.
Proof.
  intros Hh. apply history_split in Hh as (ph1 & ph2 & Hh & Ha).
  inversion Ha as [| |j vs Hl|j vs r Hf|ph' e' He]; subst.
  - apply history_in_call in Hh as (a & b & Heq & Hb). by exists j, vs, a, b.
  - by destruct (Hf x).
  - by destruct He.
Qed.

Lemma reachable_world_ok k s0 w :
  rtc step (start k s0) w -> Late ∉ log w -> world_ok k s0 w.
Proof.
  intros Hr. eapply (rtc_ind_r (fun w => Late ∉ log w -> world_ok k s0 w));
    [intros _; apply start_ok| |exact Hr].
  intros x y _ Hs Hok Hlate. eapply step_world_ok; [|done|done]. apply Hok.
  destruct (step_log _ _ Hs) as [h Hh]. rewrite Hh in Hlate. set_solver.
Qed.

(** C4: The client is linearizable as long as no reply is late. Take a release build
    and a server that answers what it reads, with replies that the fused parser
    converts and that fit in the buffers, and sends nothing else. However [k] threads,
    the server, breaking connections and timeouts interleave, up to the first moment
    when, on a connection that still works, a reply is later than the read timeout:
    the commands take effect at the server one at a time, in the
    order of the log, each of them a command of a thread that is in a call with it;
    each thread's events are calls, whose commands are served in their order, each at
    most once, and that return or fail; and a call that returns [x] had each of its
    commands served exactly once between its start and its return, [x] being what the
    server's answers convert to: an object, or for a pipeline the list of them. (A late
    reply is taken for the next command's: [timed_out_connection_is_reused] in
    Standalone.v.) *)
Theorem calls_linearizable k s0 w :
  rtc step (start k s0) w -> Late ∉ log w ->
  legal s0 (log w) (server w) /\ Forall (owned k) (log w) /\
  (forall t, (t < k)%nat -> exists ph, history t (log w) ph) /\
  (forall t x h h', log w = h ++ Ret t (Ok x) :: h' ->
     exists j vs a b, h = a ++ Call t j :: b /\ length vs = length (cmds_of j) /\
       mine t b = zip_with (Serve (Some t)) (cmds_of j) vs /\ answer j vs = Ok x).
Proof.
  intros Hr Hlate. destruct (reachable_world_ok k s0 w Hr Hlate) as [Hk _ Hph Hleg Hown].
  assert (forall t, (t < k)%nat -> exists ph, history t (log w) ph) as Hhist.
  { intros t Ht. rewrite <- Hk in Ht. apply lookup_lt_is_Some in Ht as [th Hth].
    destruct (Hph t th Hth) as (ph & Hh & _). by exists ph. }
  split_and!; [done..|]. intros t x h h' Hlog. rewrite Hlog in Hown, Hhist.
  apply Forall_app in Hown as [_ [(t' & [= <-] & Ht) _]%Forall_cons].
  destruct (Hhist t Ht) as (ph & Hh). by eapply history_result.
Qed.

(** * The pool underneath

    Forget what the connections carry: the threads use the pool as the tasks of
    Pool.v do, so its bounds hold of them. *)
#[local] Instance abs_pooled : Pooled (nat * Z) := {| conn_last_used := snd |}.
#[local] Instance abs_identified : Identified (nat * Z) := {| conn_id := fst |}.

Definition abs_line (l : Line) : nat * Z := (line_id l, last_used (conn l)).

Definition abs_pool (p : ConnectionPool Line) : ConnectionPool (nat * Z) :=
  {| idle := map abs_line (idle p); permits := permits p; max_size := max_size p;
     idle_timeout := idle_timeout p |}.

Definition abs_thread (th : Thread) : Task (nat * Z) :=
  match th with
  | Ready | Called _ => Outside
  | Looking _ => Acquired
  | Dialing _ => Creating
  | Owning _ l | Awaiting _ _ l | Closing _ _ l => Holding (abs_line l)
  | Freeing _ _ => Releasing
  end.

Definition abs (w : World) : State (nat * Z) :=
  {| pool := abs_pool (wpool w); tasks := map abs_thread (threads w); clock := time w |}.

Lemma abs_at p l1 th l2 n s h :
  abs (at_thread p l1 th l2 n s h) =
  at_task (abs_pool p) (map abs_thread l1) (abs_thread th) (map abs_thread l2) n.
Proof. unfold abs, at_thread, at_task. cbn. by rewrite map_app. Qed.

Lemma pop_healthy_abs n timeout i :
  pop_healthy n timeout (map abs_line i) =
  (abs_line <$> fst (pop_healthy n timeout i), map abs_line (snd (pop_healthy n timeout i))).
Proof.
  induction i as [|l i IH]; [done|]. cbn.
  change (stale n timeout (abs_line l)) with (stale n timeout l).
  by destruct (stale n timeout l).
Qed.

Lemma take_healthy_abs n timeout i o rest :
  take_healthy_connection n timeout i = (o, rest) ->
  take_healthy_connection n timeout (map abs_line i) = (abs_line <$> o, map abs_line rest).
Proof.
  unfold take_healthy_connection. rewrite <- (fmap_reverse abs_line), pop_healthy_abs.
  destruct (pop_healthy n timeout (reverse i)) as [o' r]. intros [= <- <-]. cbn. by rewrite (fmap_reverse abs_line).
Qed.

Lemma return_abs n l p :
  abs_pool (return_connection n l p) = return_connection n (abs_line l) (abs_pool p).
Proof.
  unfold return_connection. change (stale n (idle_timeout (abs_pool p)) (abs_line l))
    with (stale n (idle_timeout p) l).
  destruct (stale n (idle_timeout p) l); [done|]. cbn [idle abs_pool max_size].
  replace (len (map abs_line (idle p))) with (len (idle p)) by (unfold len; by rewrite length_map).
  destruct (_ <? _); [|done].
  unfold abs_pool, set_idle. cbn. by rewrite map_app.
Qed.

Lemma held_abs ts : concat (map held (map abs_thread ts)) = map abs_line (omap line_of ts).
Proof. induction ts as [|th ts IH]; [done|]. by destruct th; cbn; rewrite IH. Qed.

Lemma abs_peer s l o s' l' : peer s l o s' l' -> abs_line l' = abs_line l.
Proof. by destruct 1. Qed.

Lemma abs_received j raws raw l : abs_thread (received j raws raw l) = Holding (abs_line l).
Proof. unfold received. destruct raw; [|done..]. by destruct (_ <? _)%nat. Qed.

Lemma abs_late s l cmd v s' l' : late s l cmd v s' l' -> abs_line l' = abs_line l.
Proof. by destruct 1. Qed.

Lemma abs_with_line th l l' :
  line_of th = Some l -> abs_line l' = abs_line l -> abs_thread (with_line l' th) = abs_thread th.
Proof. intros Hl Ha. destruct th; try done; injection Hl as ->; cbn; by rewrite Ha. Qed.

Lemma abs_idle p i1 l i2 l' :
  idle p = i1 ++ l :: i2 -> abs_line l' = abs_line l ->
  abs_pool (set_idle (i1 ++ l' :: i2) p) = abs_pool p.
Proof. intros Hi Ha. unfold abs_pool. cbn. by rewrite Hi, !map_app; cbn; rewrite Ha. Qed.

Lemma client_abs w w' : client w w' -> abs w = abs w' \/ Pool.step (abs w) (abs w').
Proof.
  destruct 1 as [p l1 l2 n s h|p l1 l2 n s h j Hne Hp|p l1 l2 n s h j l rest Ht
    |p l1 l2 n s h j rest Ht|p l1 l2 n s h j l o Hc Hl Hid|p l1 l2 n s h j o e _
    |p l1 l2 n s h j l c Hsend|p l1 l2 n s h j l e c Hsend|p l1 l2 n s h j raws l raw c Hin Hr _
    |p l1 l2 n s h j raws l raw c Hin _ Hr _
    |p l1 l2 n s h j raw l|p l1 l2 n s h j raw]; rewrite ?abs_at.
  - by left.
  - right. by constructor.
  - right. apply take_healthy_abs in Ht. exact (Pool.step_take (abs_pool p) _ _ n _ _ Ht).
  - right. apply take_healthy_abs in Ht. exact (Pool.step_miss (abs_pool p) _ _ n _ Ht).
  - right. apply (Pool.step_created (abs_pool p)). intros Hin. apply Hid.
    unfold connections in Hin. cbn [pool tasks at_task] in Hin. rewrite held_at in Hin. cbn in Hin.
    rewrite <- map_app, held_abs, <- map_app, map_map in Hin. exact Hin.
  - right. apply (Pool.step_create_failed (abs_pool p)).
  - right. by apply (Pool.step_use (abs_pool p)).
  - right. by apply (Pool.step_use (abs_pool p)).
  - right. rewrite abs_received. by apply (Pool.step_use (abs_pool p)).
  - right. rewrite abs_received. by apply (Pool.step_use (abs_pool p)).
  - right. rewrite return_abs. apply (Pool.step_return (abs_pool p)).
  - right. apply (Pool.step_release (abs_pool p)).
Qed.

Lemma step_abs w w' : step w w' -> abs w = abs w' \/ Pool.step (abs w) (abs w').
Proof.
  destruct 1 as [w w' Hs|p l1 l2 n s h j Hsz|p l1 th l2 n s h l o s' l' Hl Hp
    |p i1 l i2 ts n s h o s' l' Hi Hp|p l1 th l2 n s h l cmd v s' l' Hl Hp
    |p i1 l i2 ts n s h cmd v s' l' Hi Hp|p ts n s h dt Hdt]; rewrite ?abs_at.
  - by apply client_abs.
  - by left.
  - left. by rewrite (abs_with_line _ _ _ Hl (abs_peer _ _ _ _ _ Hp)).
  - left. unfold abs. cbn. by rewrite (abs_idle _ _ _ _ _ Hi (abs_peer _ _ _ _ _ Hp)).
  - left. by rewrite (abs_with_line _ _ _ Hl (abs_late _ _ _ _ _ _ Hp)).
  - left. unfold abs. cbn. by rewrite (abs_idle _ _ _ _ _ Hi (abs_late _ _ _ _ _ _ Hp)).
  - right. by apply (Pool.step_tick (abs_pool p)).
Qed.

Lemma abs_reachable k s0 w : rtc step (start k s0) w -> reachable config k (abs w).
Proof.
  intros Hr. unfold reachable.
  replace (initial config k) with (abs (start k s0)).
  2: { unfold abs, start, initial. cbn. f_equal. clear. induction k as [|k IH]; [done|]. cbn. by rewrite IH. }
  induction Hr as [w|w w1 w2 Hs _ IH]; [done|].
  destruct (step_abs _ _ Hs) as [->|Hp]; [done|by eapply rtc_l].
Qed.

(** C14: The threads of a client use the pool as its tasks may: whatever the client can
    do is, for the pool, a run of Pool.v, in which permits are never over-committed
    and no connection is shared. *)
Theorem client_refines_pool k s0 w : rtc step (start k s0) w -> reachable config k (abs w).
Proof. apply abs_reachable. Qed.
End concurrent.

(** * The theorems at a concrete run

    A thread increments a counter while another sends two increments as a batch. The
    server works on the first of the batch, then on the single one, then on the second of
    the batch, whose answers come in pieces that do not respect their bounds. *)

Definition dialed (id : nat) : Line :=
  {| line_id := id;
     conn := match create_connection (H := release64) (H0 := exact_bytes) (Connected [] [] 0)
                     default_config with
             | Ok c => c
             | _ => opened [] [] 0 0
             end;
     read_to := 0; alive := true |}.

Definition incr : list bytes := [bs "INCR"; bs "k"].
Definition single : Job := One incr.
Definition double : Job := Batch [incr; incr].

Abbreviation run config :=
  (rtc (step (H := release64) (H0 := exact_bytes) (H1 := cpython) counter true config)).

(** Python objects of the runtime of plain values. *)
Abbreviation obj v := (v : PyObj (PyRuntime := cpython)).

Definition race_log : list (Ev (H1 := cpython)) :=
  [Call 0 single; Call 1 double; Serve (Some 1%nat) incr (Integer 1);
   Serve (Some 0%nat) incr (Integer 2); Ret 0 (Ok (obj (VInt 2))); Serve (Some 1%nat) incr (Integer 3);
   Ret 1 (Ok (obj (VList [VInt 1; VInt 3])))].

Lemma single_sized : sized (H := release64) single.
Proof. vm_compute. discriminate. Qed.
Lemma double_sized : sized (H := release64) double.
Proof. vm_compute. discriminate. Qed.

Lemma dialed_resting id : resting (H := release64) (dialed id).
Proof. split; [split_and!; [done|constructor|done]|done]. Qed.

Lemma wire_int n :
  0 <= n <= I64_MAX -> wire (Integer n) (header ":" (itoa n) []).
Proof. intros Hn. apply wire_integer. by apply (int_text_itoa n). Qed.

(** The lines on their way. *)
Definition sent_on (j : Job) (l : Line) : Line :=
  set_conn (snd (send_raw (payload j) (at_time 0 (conn l)))) l.
Definition answered (pieces : list bytes) (l : Line) : Line :=
  after 21 (map Data pieces) (writes (conn l)) true l.
Definition read_on (l : Line) : Line :=
  set_conn (snd (read_raw_response (H := release64) (H0 := exact_bytes) (at_time 0 (conn l)))) l.

Definition one : list bytes := [bs ":"; bs "1" ++ CRLF].
Definition two : list bytes := [bs ":2" ++ CRLF].
Definition three : list bytes := [bs ":3"; CRLF].
Definition single_sent : Line := sent_on single (dialed 0).
Definition double_sent : Line := sent_on double (dialed 1).
Definition single_answered : Line := answered two single_sent.
Definition half_answered : Line := answered one double_sent.
Definition double_answered : Line := answered three half_answered.
Definition half_read : Line := read_on double_answered.

#[local] Tactic Notation "go" uconstr(rule) :=
  eapply rtc_l; [first [eapply rule|eapply step_client, rule]|].
#[local] Ltac computes := vm_compute; reflexivity.
(** The server answers on a line. *)
#[local] Ltac answers n pieces :=
  eapply (peer_answer counter _ _ incr 21 (Integer n) _ pieces);
  [done|computes|done|by apply wire_int|by vm_compute|by repeat constructor].

Lemma finish_single :
  finish (H := release64) (H1 := cpython) true single (Ok [concat two]) = Ok (obj (VInt 2)).
Proof. vm_compute. reflexivity. Qed.
Lemma finish_double :
  finish (H := release64) (H1 := cpython) true double (Ok [concat one; concat three]) =
  Ok (obj (VList [VInt 1; VInt 3])).
Proof. vm_compute. reflexivity. Qed.

Lemma race_runs : exists w, run default_config (start default_config 2 0) w /\ log w = race_log.
Proof.
  eexists. split.
  - unfold start. cbn [repeat].
    go (step_call _ _ _ _ [] [Ready] _ _ _ single); [apply single_sized|].
    go (step_call _ _ _ _ [Called single] [] _ _ _ double); [apply double_sized|].
    go (step_acquire _ _ _ [] [Called double]); [done|done|].
    go (step_miss _ _ _ [] [Called double]); [reflexivity|].
    go (step_dialed _ _ _ [] [Called double] _ _ _ _ (dialed 0) (Connected [] [] 0));
      [computes|apply dialed_resting|apply not_elem_of_nil|].
    go (step_send _ _ _ [] [Called double] _ _ _ _ (dialed 0) (conn single_sent)); [computes|].
    change (set_conn (conn single_sent) (dialed 0)) with single_sent.
    go (step_acquire _ _ _ [Awaiting single [] single_sent] []); [done|done|].
    go (step_miss _ _ _ [Awaiting single [] single_sent] []); [reflexivity|].
    go (step_dialed _ _ _ [Awaiting single [] single_sent] [] _ _ _ _ (dialed 1) (Connected [] [] 0));
      [computes|apply dialed_resting|by apply (bool_decide_unpack _)|].
    go (step_send _ _ _ [Awaiting single [] single_sent] [] _ _ _ _ (dialed 1) (conn double_sent));
      [computes|].
    change (set_conn (conn double_sent) (dialed 1)) with double_sent.
    go (step_peer _ _ _ _ [Awaiting single [] single_sent] (Awaiting double [] double_sent) [] _ _ _
      double_sent (Some (incr, Integer 1)) 1 half_answered); [done|answers 1 one|].
    go (step_peer _ _ _ _ [] (Awaiting single [] single_sent) [Awaiting double [] half_answered] _ _ _
      single_sent (Some (incr, Integer 2)) 2 single_answered); [done|answers 2 two|].
    go (step_receive _ _ _ [] [Awaiting double [] half_answered] _ _ _ single [] single_answered
      (Ok (concat two)) (conn (read_on single_answered))); [by left|computes|done|].
    go (step_drop _ _ _ [] [Awaiting double [] half_answered] _ _ _ single (Ok [concat two])).
    go (step_return _ _ _ [] [Awaiting double [] half_answered] _ _ _ single (Ok [concat two])).
    go (step_peer _ _ _ _ [Ready] (Awaiting double [] half_answered) [] _ _ _
      half_answered (Some (incr, Integer 3)) 3 double_answered); [done|answers 3 three|].
    go (step_receive _ _ _ [Ready] [] _ _ _ double [] double_answered
      (Ok (concat one)) (conn half_read)); [by left|computes|done|].
    go (step_receive _ _ _ [Ready] [] _ _ _ double [concat one] half_read
      (Ok (concat three)) (conn (read_on half_read))); [by left|computes|done|].
    go (step_drop _ _ _ [Ready] [] _ _ _ double (Ok [concat one; concat three])).
    go (step_return _ _ _ [Ready] [] _ _ _ double (Ok [concat one; concat three])). apply rtc_refl.
  - cbn [log at_thread served app length]. by rewrite finish_single, finish_double.
Qed.

Lemma counter_convertible s args :
  fused_ok (fst (counter s args)) = true /\ depth (fst (counter s args)) <= MAX_PARSE_DEPTH.
Proof. unfold counter. repeat case_match; cbn; done. Qed.

(** The batch read 1 and 3: the other thread's command was served between its two. *)
Lemma calls_linearizable_witness : exists w, log w = race_log /\
  legal counter 0 (log w) (server w) /\ exists ph, history true 1 (log w) ph.
Proof.
  destruct race_runs as (w & Hr & Hlog). exists w. split; [exact Hlog|].
  destruct (calls_linearizable (H := release64) (H0 := exact_bytes) (H1 := cpython)
    (H3 := cpython_memory) counter true default_config eq_refl counter_convertible 2 0 w Hr)
    as (Hleg & _ & Hh & _); [rewrite Hlog; by unfold race_log; set_solver|].
  split; [exact Hleg|]. apply Hh. lia.
Defined.

Lemma client_refines_pool_witness : exists w : World (H1 := cpython) (S := Z), log w = race_log /\
  reachable (Pooled0 := abs_pooled) (Identified0 := abs_identified) default_config 2 (abs w).
Proof.
  destruct race_runs as (w & Hr & Hlog). exists w. split; [exact Hlog|].
  exact (client_refines_pool (H := release64) (H0 := exact_bytes) (H1 := cpython) counter true
    default_config 2 0 w Hr).
Defined.
