(* ===== verification/Graph.v ===== *)
(** src/graph.rs: reading the compact result of a FalkorDB query. The grammar
    below says how a graph value is laid out in a reply, and the parser reads
    every encoding of a result back as that result. *)

From Stdlib Require Import Strings.Byte.
From stdpp Require Import gmap.
From S2P Require Import Prelude RustStd Utf8 RustStr Float64 Error Types.

(** * Types *)

Module ColumnType.
Inductive t := Unknown | Scalar | Node | Relation.

Definition from_int (i : Z) : t :=
  match i with 1 => Scalar | 2 => Node | 3 => Relation | _ => Unknown end.

(** The discriminant of the enumeration. *)
Definition code (c : t) : Z :=
  match c with Unknown => 0 | Scalar => 1 | Node => 2 | Relation => 3 end.

Lemma column_from_code c : from_int (code c) = c.
Proof. by destruct c. Qed.
End ColumnType.

Module ScalarType.
Inductive t := Null | String | Integer | Boolean | Double | Array | Edge | Node | Path | Map | Point.

Definition from_int (i : Z) : option t :=
  match i with
  | 1 => Some Null
  | 2 => Some String
  | 3 => Some Integer
  | 4 => Some Boolean
  | 5 => Some Double
  | 6 => Some Array
  | 7 => Some Edge
  | 8 => Some Node
  | 9 => Some Path
  | 10 => Some Map
  | 11 => Some Point
  | _ => None
  end.

(** The discriminant of the enumeration. *)
Definition code (s : t) : Z :=
  match s with
  | Null => 1
  | String => 2
  | Integer => 3
  | Boolean => 4
  | Double => 5
  | Array => 6
  | Edge => 7
  | Node => 8
  | Path => 9
  | Map => 10
  | Point => 11
  end.

Lemma from_code s : from_int (code s) = Some s.
Proof. by destruct s. Qed.
End ScalarType.

Record GraphPoint := { latitude : f64; longitude : f64 }.

(** The structs of a node and an edge, over the values their properties hold. *)
Record GraphNode (V : Type) := mkNode {
  node_id : Z;
  labels : list Z;
  node_properties : list (Z * V)
}.
Record GraphEdge (V : Type) := mkEdge {
  edge_id : Z;
  relation_type : Z;
  src_node : Z;
  dst_node : Z;
  edge_properties : list (Z * V)
}.
Arguments mkNode {V}.
Arguments mkEdge {V}.

Inductive GraphValue :=
| GNull
| GString (s : bytes)
| GInteger (i : Z)
| GBoolean (b : bool)
| GDouble (f : f64)
| GArray (vs : list GraphValue)
| GNode (n : GraphNode GraphValue)
| GEdge (e : GraphEdge GraphValue)
| GPath (nodes : list (GraphNode GraphValue)) (edges : list (GraphEdge GraphValue))
| GMap (pairs : list (bytes * GraphValue))
| GPoint (p : GraphPoint).

Record GraphColumn := { column_type : ColumnType.t; name : bytes }.
Record GraphStats := { raw : list bytes; values : gmap bytes bytes }.
Record GraphResult := {
  columns : list GraphColumn;
  rows : list (list GraphValue);
  stats : GraphStats
}.

(** * The parser *)

(** [while i + 1 < items.len() { .. items[i], items[i + 1] ..; i += 2 }]. *)
Fixpoint by_two {E A B} (f : A -> A -> res E B) (items : list A) : res E (list B) :=
  match items with
  | k :: v :: items => let? p := f k v in let? ps := by_two f items in Ok (p :: ps)
  | _ => Ok []
  end.

(** A loop that keeps the results that [f] selects. *)
Fixpoint filter_mapM {E A B} (f : A -> res E (option B)) (items : list A) : res E (list B) :=
  match items with
  | [] => Ok []
  | x :: items =>
      let? y := f x in
      let? ys := filter_mapM f items in
      Ok (match y with Some y => y :: ys | None => ys end)
  end.

Definition parse_double (s : bytes) : option f64 :=
  match parse_f64 s with Ok f => Some f | _ => None end.

(** A coordinate of a point: a text or an integer, 0 otherwise. *)
Definition coordinate (v : RespValue) : f64 :=
  match (match as_str v with Some s => parse_double s | None => None end) with
  | Some f => f
  | None => match as_int v with Some i => f64_of_i64 i | None => f64_zero end
  end.

Definition scalar_type (type_id : RespValue) : ScalarType.t :=
  default ScalarType.Null (ScalarType.from_int (default 1 (as_int type_id))).

(** [parse_node] and [parse_edge], over the parser of their properties. *)
Section elements.
Context (parse_properties : RespValue -> Result (list (Z * GraphValue))).

Definition node_with (val : RespValue) : Result (GraphNode GraphValue) :=
  match val with
  | Array (id :: labels :: properties :: _) =>
      let? props := parse_properties properties in
      Ok (mkNode (default 0 (as_int id))
            match labels with Array ids => map (fun v => default 0 (as_int v)) ids | _ => [] end
            props)
  | _ => Ok (mkNode 0 [] [])
  end.

Definition edge_with (val : RespValue) : Result (GraphEdge GraphValue) :=
  match val with
  | Array (id :: rel :: src :: dst :: properties :: _) =>
      let? props := parse_properties properties in
      Ok (mkEdge (default 0 (as_int id)) (default 0 (as_int rel)) (default 0 (as_int src))
            (default 0 (as_int dst)) props)
  | _ => Ok (mkEdge 0 0 0 0 [])
  end.
End elements.

(** One [[prop_id, type_id, value]] of the properties; others are skipped. *)
Definition property_with (parse_scalar : ScalarType.t -> RespValue -> Result GraphValue)
    (item : RespValue) : Result (option (Z * GraphValue)) :=
  match item with
  | Array (prop_id :: type_id :: v :: _) =>
      let? value := parse_scalar (scalar_type type_id) v in
      Ok (Some (default 0 (as_int prop_id), value))
  | _ => Ok None
  end.

(** The nodes, or the edges, of a path. *)
Definition select_cells {B} (select : GraphValue -> option B)
    (parse_cell : RespValue -> Result GraphValue) (cells : RespValue) : Result (list B) :=
  match cells with
  | Array cells => filter_mapM (fun cell => let? g := parse_cell cell in Ok (select g)) cells
  | _ => Ok []
  end.

Definition as_node (g : GraphValue) : option (GraphNode GraphValue) :=
  match g with GNode n => Some n | _ => None end.
Definition as_edge (g : GraphValue) : option (GraphEdge GraphValue) :=
  match g with GEdge e => Some e | _ => None end.

Fixpoint parse_scalar (typ : ScalarType.t) (val : RespValue) {struct val} : Result GraphValue :=
  match typ with
  | ScalarType.Null => Ok GNull
  | ScalarType.String => Ok (GString (default [] (as_str val)))
  | ScalarType.Integer => Ok (GInteger (default 0 (as_int val)))
  | ScalarType.Boolean =>
      Ok (GBoolean (bool_decide (default (bs "false") (as_str val) = bs "true")))
  | ScalarType.Double =>
      Ok (GDouble (default f64_zero (parse_double (default (bs "0") (as_str val)))))
  | ScalarType.Array =>
      match val with
      | Array items => let? result := mapM parse_cell items in Ok (GArray result)
      | _ => Ok (GArray [])
      end
  | ScalarType.Node => let? n := node_with parse_properties val in Ok (GNode n)
  | ScalarType.Edge => let? e := edge_with parse_properties val in Ok (GEdge e)
  | ScalarType.Path =>
      match val with
      | Array (ns :: es :: _) =>
          let? nodes := select_cells as_node parse_cell ns in
          let? edges := select_cells as_edge parse_cell es in
          Ok (GPath nodes edges)
      | _ => Ok (GPath [] [])
      end
  | ScalarType.Map =>
      match val with
      | Array items =>
          let? pairs := by_two (fun k v =>
            let? value := parse_cell v in Ok (default [] (as_str k), value)) items in
          Ok (GMap pairs)
      | _ => Ok (GMap [])
      end
  | ScalarType.Point =>
      match val with
      | Array (a :: b :: _) =>
          Ok (GPoint {| latitude := coordinate a; longitude := coordinate b |})
      | _ => Ok (GPoint {| latitude := f64_zero; longitude := f64_zero |})
      end
  end
with parse_cell (resp : RespValue) {struct resp} : Result GraphValue :=
  match resp with
  | Array (type_id :: val :: _) => parse_scalar (scalar_type type_id) val
  | Integer i => Ok (GInteger i)
  | _ => Ok GNull
  end
with parse_properties (val : RespValue) {struct val} : Result (list (Z * GraphValue)) :=
  match val with
  | Array items =>
      filter_mapM (property_with parse_scalar) items
  | _ => Ok []
  end.

Definition parse_node : RespValue -> Result (GraphNode GraphValue) := node_with parse_properties.
Definition parse_edge : RespValue -> Result (GraphEdge GraphValue) := edge_with parse_properties.

Definition parse_column (item : RespValue) : GraphColumn :=
  match item with
  | Array (col_type :: name :: _) =>
      {| column_type := ColumnType.from_int (default 0 (as_int col_type));
         name := default [] (as_str name) |}
  | _ => {| column_type := ColumnType.Unknown; name := [] |}
  end.

Definition parse_header (resp : RespValue) : Result (list GraphColumn) :=
  match resp with
  | Array items => Ok (map parse_column items)
  | _ => Ok []
  end.

Definition parse_result_set (resp : RespValue) : Result (list (list GraphValue)) :=
  match resp with
  | Array rows =>
      filter_mapM (fun row =>
        match row with
        | Array cells => let? parsed_row := mapM parse_cell cells in Ok (Some parsed_row)
        | _ => Ok None
        end) rows
  | _ => Ok []
  end.

(** One ["Key: Value"] line of the statistics. *)
Definition stat_line (s : bytes) : option (bytes * bytes) :=
  match split_once ":" s with
  | Some (key, val) => Some (trim key, trim val)
  | None => None
  end.

Definition set_stat (m : gmap bytes bytes) (s : bytes) : gmap bytes bytes :=
  match stat_line s with
  | Some (key, val) => <[key := val]> m
  | None => m
  end.

Definition add_stat (st : GraphStats) (item : RespValue) : GraphStats :=
  match as_str item with
  | Some s =>
      {| raw := raw st ++ [s];
         values := set_stat (values st) s |}
  | None => st
  end.

Definition no_stats : GraphStats := {| raw := []; values := ∅ |}.

Definition parse_stats (resp : RespValue) : Result GraphStats :=
  match resp with
  | Array items => Ok (fold_left add_stat items no_stats)
  | _ => Ok no_stats
  end.

Definition parse_graph_result (resp : RespValue) : Result GraphResult :=
  match resp with
  | Array [st] =>
      let? stats := parse_stats st in
      Ok {| columns := []; rows := []; stats := stats |}
  | Array (header :: result_set :: st :: _) =>
      let? columns := parse_header header in
      let? rows := parse_result_set result_set in
      let? stats := parse_stats st in
      Ok {| columns := columns; rows := rows; stats := stats |}
  | Array top =>
      Err (Graph (bs "expected 3-element array, got " ++ itoa (len top) ++ bs " elements"))
  | _ => Err (Graph (bs "expected Array, got " ++ quoted (type_name resp)))
  end.

(** * The parser never fails inside a result *)

Definition is_ok {E A} (r : res E A) : Prop := exists a, r = Ok a.

Lemma is_ok_bind {E A B} (r : res E A) (f : A -> res E B) :
  is_ok r -> (forall a, is_ok (f a)) -> is_ok (bind r f).
Proof. intros [a ->] Hf. apply Hf. Qed.

Lemma is_ok_ret {E A} (a : A) : is_ok (E := E) (Ok a).
Proof. by exists a. Qed.

(** Membership in a list written out. *)
Ltac listed := repeat (apply list_elem_of_here || apply list_elem_of_further).

#[local] Hint Resolve is_ok_ret is_ok_bind : core.

Lemma mapM_is_ok {E A B} (f : A -> res E B) l :
  (forall x, x ∈ l -> is_ok (f x)) -> is_ok (mapM f l).
Proof.
  induction l as [|x l IH]; intros Hf; simpl; [done|].
  apply is_ok_bind; [apply Hf; set_solver|]. intros y. apply is_ok_bind; [|done].
  apply IH. set_solver.
Qed.

Lemma filter_mapM_is_ok {E A B} (f : A -> res E (option B)) l :
  (forall x, x ∈ l -> is_ok (f x)) -> is_ok (filter_mapM f l).
Proof.
  induction l as [|x l IH]; intros Hf; simpl; [done|].
  apply is_ok_bind; [apply Hf; set_solver|]. intros y. apply is_ok_bind; [|done].
  apply IH. set_solver.
Qed.

Lemma by_two_is_ok {E A B} (f : A -> A -> res E B) n l :
  (length l <= n)%nat -> (forall x y, y ∈ l -> is_ok (f x y)) -> is_ok (by_two f l).
Proof.
  revert l. induction n as [|n IH]; intros [|x [|y l]] Hl Hf; simpl in *; try done; try lia.
  apply is_ok_bind; [apply Hf; set_solver|]. intros p. apply is_ok_bind; [|done].
  apply IH; [lia|]. set_solver.
Qed.

Lemma elements_ok props val :
  (forall v, depth v < depth val -> is_ok (props v)) ->
  is_ok (node_with props val) /\ is_ok (edge_with props val).
Proof.
  intros Hp. split; [unfold node_with|unfold edge_with];
    destruct val as [| | | |items| | | | | | | | | |]; try done.
  - destruct items as [|a [|b [|c items]]]; try done. apply is_ok_bind; [|done].
    apply Hp, depth_elem. listed.
  - destruct items as [|a [|b [|c [|d [|e items]]]]]; try done. apply is_ok_bind; [|done].
    apply Hp, depth_elem. listed.
Qed.

Lemma parse_all_ok (n : nat) v :
  depth v < Z.of_nat n ->
  (forall t, is_ok (parse_scalar t v)) /\ is_ok (parse_cell v) /\ is_ok (parse_properties v).
Proof.
  revert v. induction n as [|n IH]; intros v Hv; [pose proof (depth_nonneg v); lia|].
  assert (forall w, depth w < depth v -> is_ok (parse_properties w)) as Hprops
    by (intros w Hw; apply IH; lia).
  assert (forall w, depth w < depth v -> is_ok (parse_cell w)) as Hcell
    by (intros w Hw; apply IH; lia).
  assert (forall t w, depth w < depth v -> is_ok (parse_scalar t w)) as Hscalar
    by (intros t w Hw; apply IH; lia).
  destruct (elements_ok parse_properties v Hprops) as [Hnode Hedge].
  assert (forall {B} (sel : GraphValue -> option B) cells items, v = Array items ->
    cells ∈ items -> is_ok (select_cells sel parse_cell cells)) as Hpath.
  { intros B sel cells items -> Hin. unfold select_cells. destruct cells; auto.
    apply filter_mapM_is_ok. intros c Hc. apply is_ok_bind; [|done]. apply Hcell.
    pose proof (depth_elem c items0 Hc). pose proof (depth_elem _ _ Hin). lia. }
  split_and!.
  - intros []; destruct v as [| | | |items| | | | | | | | | |]; cbn [parse_scalar]; auto.
    + apply is_ok_bind; [|done]. apply mapM_is_ok. intros x Hx. by apply Hcell, depth_elem.
    + destruct items as [|ns [|es items]]; auto.
      apply is_ok_bind; [|intros nodes; apply is_ok_bind; [|done]]; (eapply Hpath; [done|listed]).
    + apply is_ok_bind; [|done]. eapply by_two_is_ok; [done|]. intros k x Hx.
      apply is_ok_bind; [|done]. by apply Hcell, depth_elem.
    + destruct items as [|a [|b items]]; auto.
  - destruct v as [| | | |items| | | | | | | | | |]; cbn [parse_cell]; auto.
    destruct items as [|t [|x items]]; auto. apply Hscalar, depth_elem. listed.
  - destruct v as [| | | |items| | | | | | | | | |]; cbn [parse_properties]; auto.
    apply filter_mapM_is_ok. intros x Hx. unfold property_with.
    destruct x as [| | | |trip| | | | | | | | | |]; auto.
    destruct trip as [|a [|b [|c trip]]]; auto. apply is_ok_bind; [|done].
    pose proof (depth_elem _ _ Hx).
    assert (depth c < depth (Array (a :: b :: c :: trip))) by (apply depth_elem; listed).
    apply Hscalar. lia.
Qed.

Lemma parse_cell_ok v : is_ok (parse_cell v).
Proof. apply (parse_all_ok (Z.to_nat (depth v + 1))). pose proof (depth_nonneg v). lia. Qed.

(** Reading a query result never panics, and fails exactly on replies of the
    wrong outer shape: every array of one element, or of three or more, gives a
    result, whatever it holds; nothing else does. *)
Theorem parse_graph_result_total resp :
  match parse_graph_result resp with
  | Ok _ => exists top, resp = Array top /\ (length top = 1 \/ 3 <= length top)%nat
  | Err e => (exists msg, e = Graph msg) /\
      forall top, resp = Array top -> (length top = 0 \/ length top = 2)%nat
  | Panic _ => False
  end.
Proof.
  assert (forall v, is_ok (parse_result_set v)) as Hrows.
  { intros [| | | |rows| | | | | | | | | |]; cbn [parse_result_set]; auto.
    apply filter_mapM_is_ok. intros [] _; auto. apply is_ok_bind; [|done].
    apply mapM_is_ok. intros. apply parse_cell_ok. }
  assert (forall v, is_ok (parse_header v) /\ is_ok (parse_stats v)) as Hrest
    by (intros []; split; simpl; auto).
  destruct resp as [| | | |top| | | | | | | | | |]; cbn [parse_graph_result];
    try (split; [by eexists|done]).
  destruct top as [|a [|b [|c top]]]; cbn [parse_graph_result].
  - split; [by eexists|]. intros ? [= <-]. by left.
  - destruct (proj2 (Hrest a)) as [st ->]. exists [a]. split; [done|by left].
  - split; [by eexists|]. intros ? [= <-]. by right.
  - destruct (proj1 (Hrest a)) as [cs ->], (Hrows b) as [rs ->], (proj2 (Hrest c)) as [st ->].
    cbn [bind]. eexists. split; [done|]. right. simpl. lia.
Qed.

(** * The compact format *)

(** How a text and a coordinate are sent. *)
Inductive text (s : bytes) : RespValue -> Prop :=
| text_simple : text s (SimpleString s)
| text_bulk : valid_utf8 s = true -> text s (BulkString s).

Inductive coord (f : f64) : RespValue -> Prop :=
| coord_text s v : text s v -> parse_f64 s = Ok f -> coord f v
| coord_int i : f64_of_i64 i = f -> coord f (Integer i).

(** The documented layout of values, cells [[type, value]], nodes, edges,
    properties [[id, type, value]] and map entries. *)
Inductive scalar : ScalarType.t -> GraphValue -> RespValue -> Prop :=
| scalar_null v : scalar ScalarType.Null GNull v
| scalar_string s v : text s v -> scalar ScalarType.String (GString s) v
| scalar_integer i : scalar ScalarType.Integer (GInteger i) (Integer i)
| scalar_boolean (b : bool) v :
    text (if b then bs "true" else bs "false") v -> scalar ScalarType.Boolean (GBoolean b) v
| scalar_double f s v : text s v -> parse_f64 s = Ok f -> scalar ScalarType.Double (GDouble f) v
| scalar_array gs vs : Forall2 cell gs vs -> scalar ScalarType.Array (GArray gs) (Array vs)
| scalar_node id labels props vs :
    Forall2 property props vs ->
    scalar ScalarType.Node (GNode (mkNode id labels props))
      (Array [Integer id; Array (map Integer labels); Array vs])
| scalar_edge id rel src dst props vs :
    Forall2 property props vs ->
    scalar ScalarType.Edge (GEdge (mkEdge id rel src dst props))
      (Array [Integer id; Integer rel; Integer src; Integer dst; Array vs])
| scalar_path ns es nvs evs :
    Forall2 (fun n v => cell (GNode n) v) ns nvs ->
    Forall2 (fun e v => cell (GEdge e) v) es evs ->
    scalar ScalarType.Path (GPath ns es) (Array [Array nvs; Array evs])
| scalar_map kvs vs :
    Forall2 entry kvs vs -> scalar ScalarType.Map (GMap kvs) (Array (concat vs))
| scalar_point lat lon a b :
    coord lat a -> coord lon b ->
    scalar ScalarType.Point (GPoint {| latitude := lat; longitude := lon |}) (Array [a; b])
with cell : GraphValue -> RespValue -> Prop :=
| cell_typed t g v : scalar t g v -> cell g (Array [Integer (ScalarType.code t); v])
| cell_integer i : cell (GInteger i) (Integer i)
| cell_null : cell GNull Null
with property : Z * GraphValue -> RespValue -> Prop :=
| property_triple id t g v :
    scalar t g v -> property (id, g) (Array [Integer id; Integer (ScalarType.code t); v])
with entry : bytes * GraphValue -> list RespValue -> Prop :=
| entry_pair k kv g v : text k kv -> cell g v -> entry (k, g) [kv; v].

Lemma as_str_text s v : text s v -> as_str v = Some s.
Proof. destruct 1 as [|Hu]; [done|]. simpl. by rewrite (from_utf8_valid _ Hu). Qed.

Lemma coordinate_coord f v : coord f v -> coordinate v = f.
Proof.
  destruct 1 as [s v Ht Hp|i Hi]; unfold coordinate, parse_double; simpl; [|done].
  by rewrite (as_str_text _ _ Ht), Hp.
Qed.

Lemma scalar_type_code t : scalar_type (Integer (ScalarType.code t)) = t.
Proof. unfold scalar_type. simpl. by rewrite ScalarType.from_code. Qed.

(** The loops of the parser over encodings of their elements. *)
Lemma mapM_encoded {E A B} (f : A -> res E B) gs vs :
  Forall2 (fun g v => f v = Ok g) gs vs -> mapM f vs = Ok gs.
Proof. induction 1 as [|g v gs vs Hv _ IH]; [done|]. simpl. by rewrite Hv, IH. Qed.

Lemma filter_mapM_encoded {E A B} (f : A -> res E (option B)) gs vs :
  Forall2 (fun g v => f v = Ok (Some g)) gs vs -> filter_mapM f vs = Ok gs.
Proof. induction 1 as [|g v gs vs Hv _ IH]; [done|]. simpl. by rewrite Hv, IH. Qed.

Lemma by_two_encoded {E A B} (f : A -> A -> res E B) gs vs :
  Forall2 (fun g l => exists k v, l = [k; v] /\ f k v = Ok g) gs vs ->
  by_two f (concat vs) = Ok gs.
Proof.
  induction 1 as [|g l gs vs (k & v & -> & Hf) _ IH]; [done|]. simpl. by rewrite Hf, IH.
Qed.

Lemma Forall2_elem {A B} (R Q : A -> B -> Prop) l k :
  Forall2 R l k -> (forall x y, y ∈ k -> R x y -> Q x y) -> Forall2 Q l k.
Proof.
  induction 1 as [|x y l k Hxy _ IH]; intros HQ; constructor.
  - apply HQ; [listed|done].
  - apply IH. intros x' y' Hy. apply HQ. by apply list_elem_of_further.
Qed.

Section reads_back.
Context (n : Z)
  (IHs : forall t g v, scalar t g v -> depth v < n -> parse_scalar t v = Ok g)
  (IHc : forall g v, cell g v -> depth v < n -> parse_cell v = Ok g).

Lemma cells_read {A} (into : A -> GraphValue) gs vs :
  Forall2 (fun g v => cell (into g) v) gs vs -> depth (Array vs) <= n ->
  Forall2 (fun g v => parse_cell v = Ok (into g)) gs vs.
Proof using IHc.
  intros Hf Hd. apply (Forall2_elem _ _ _ _ Hf). intros g v Hv Hc.
  apply IHc; [done|]. pose proof (depth_elem v vs Hv). lia.
Qed.

Lemma select_read {B} (into : B -> GraphValue) (select : GraphValue -> option B) gs vs :
  (forall b, select (into b) = Some b) ->
  Forall2 (fun g v => cell (into g) v) gs vs -> depth (Array vs) <= n ->
  select_cells select parse_cell (Array vs) = Ok gs.
Proof using IHc.
  intros Hsel Hf Hd. apply filter_mapM_encoded. eapply Forall2_impl; [by eapply cells_read|].
  intros g v Hv. cbn beta in *. rewrite Hv. simpl. by rewrite Hsel.
Qed.

Lemma properties_read props vs :
  Forall2 property props vs -> depth (Array vs) <= n ->
  parse_properties (Array vs) = Ok props.
Proof using IHs.
  intros Hf Hd. cbn [parse_properties]. apply filter_mapM_encoded.
  apply (Forall2_elem _ _ _ _ Hf). intros p v Hv Hp. destruct Hp as [id t g v Hs]. cbn.
  rewrite scalar_type_code, (IHs t g v Hs); [done|].
  pose proof (depth_elem _ vs Hv) as H1.
  assert (depth v < depth (Array [Integer id; Integer (ScalarType.code t); v]))
    by (apply depth_elem; listed). lia.
Qed.

Lemma entries_read kvs vs :
  Forall2 entry kvs vs -> depth (Array (concat vs)) <= n ->
  by_two (fun k v => let? value := parse_cell v in Ok (default [] (as_str k), value)) (concat vs) =
  Ok kvs.
Proof using IHc.
  intros Hf Hd. apply by_two_encoded. apply (Forall2_elem _ _ _ _ Hf).
  intros p l Hl Hp. destruct Hp as [k kv g v Hk Hc]. exists kv, v. split; [done|].
  rewrite (IHc g v Hc); [by rewrite (as_str_text _ _ Hk)|].
  assert (v ∈ concat vs) as Hin.
  { apply list_elem_of_In, in_concat. exists [kv; v]. split; [by apply list_elem_of_In|].
    simpl. auto. }
  pose proof (depth_elem v _ Hin). lia.
Qed.

Lemma scalar_read t g v : scalar t g v -> depth v <= n -> parse_scalar t v = Ok g.
Proof using IHs IHc.
  intros Hs Hd. assert (forall x l, v = Array l -> x ∈ l -> depth x <= n) as Hin.
  { intros x l -> Hx. pose proof (depth_elem x l Hx). lia. }
  destruct Hs as [v|s v Ht|i|b v Ht|f s v Ht Hp|gs vs Hf|id labels props vs Hf
    |id rel src dst props vs Hf|ns es nvs evs Hn He|kvs vs Hf|lat lon a b Ha Hb];
    cbn [parse_scalar].
  - by destruct v.
  - apply as_str_text in Ht. destruct v; cbn [parse_scalar]; by rewrite Ht.
  - done.
  - apply as_str_text in Ht. destruct v; cbn [parse_scalar]; rewrite Ht; by destruct b.
  - apply as_str_text in Ht.
    destruct v; cbn [parse_scalar]; rewrite Ht; cbn; unfold parse_double; by rewrite Hp.
  - rewrite (mapM_encoded _ gs vs); [done|]. by apply (cells_read id).
  - cbn [node_with]. rewrite (properties_read props vs Hf); [|apply (Hin _ _ eq_refl); listed].
    cbn. rewrite map_map. by rewrite map_id.
  - cbn [edge_with]. by rewrite (properties_read props vs Hf); [|apply (Hin _ _ eq_refl); listed].
  - rewrite (select_read GNode as_node ns nvs) by (done || (apply (Hin _ _ eq_refl); listed)).
    by rewrite (select_read GEdge as_edge es evs) by (done || (apply (Hin _ _ eq_refl); listed)).
  - by rewrite (entries_read kvs vs Hf).
  - by rewrite (coordinate_coord _ _ Ha), (coordinate_coord _ _ Hb).
Qed.

Lemma cell_read g v : cell g v -> depth v <= n -> parse_cell v = Ok g.
Proof using IHs.
  destruct 1 as [t g v Hs| |]; intros Hd; cbn [parse_cell]; [|done..].
  rewrite scalar_type_code. apply IHs; [done|].
  assert (depth v < depth (Array [Integer (ScalarType.code t); v])) by (apply depth_elem; listed).
  lia.
Qed.
End reads_back.

Lemma reads_back (n : nat) :
  (forall t g v, scalar t g v -> depth v < Z.of_nat n -> parse_scalar t v = Ok g) /\
  (forall g v, cell g v -> depth v < Z.of_nat n -> parse_cell v = Ok g).
Proof.
  induction n as [|n [IHs IHc]].
  { split; intros; pose proof (depth_nonneg v); lia. }
  split; intros; [eapply scalar_read|eapply cell_read]; try done; lia.
Qed.

Lemma cell_reads_back g v : cell g v -> parse_cell v = Ok g.
Proof.
  intros Hc. apply (reads_back (Z.to_nat (depth v + 1))); [done|].
  pose proof (depth_nonneg v). lia.
Qed.

(** A column and a row as the server sends them. *)
Inductive column : GraphColumn -> RespValue -> Prop :=
| column_pair t s v :
    text s v ->
    column {| column_type := t; name := s |} (Array [Integer (ColumnType.code t); v]).

Inductive row : list GraphValue -> RespValue -> Prop :=
| row_cells gs vs : Forall2 cell gs vs -> row gs (Array vs).

(** * Statistics *)

(** A line [Key: Value]: the key is what stands before the first colon and the value
    all that follows it, both without the white space around them. *)
Inductive stat_entry : bytes -> bytes -> bytes -> Prop :=
| stat_key_value a b : (":"%byte ∉ a) -> stat_entry (trim a) (trim b) (a ++ bs ":" ++ b).

Lemma stat_line_spec s k v : stat_line s = Some (k, v) <-> stat_entry k v s.
Proof.
  unfold stat_line. split.
  - destruct (split_once ":" s) as [[a b]|] eqn:Hs; [|done].
    apply split_once_Some in Hs as [-> Ha]. intros [= <- <-]. by apply stat_key_value.
  - intros [a b Ha]. change (a ++ bs ":" ++ b) with (a ++ ":"%byte :: b).
    by rewrite split_once_app.
Qed.

Lemma add_stats_text ss items st :
  Forall2 text ss items ->
  raw (fold_left add_stat items st) = raw st ++ ss /\
  values (fold_left add_stat items st) =
    fold_left set_stat ss (values st).
Proof.
  intros Hs. revert st. induction Hs as [|s v ss items Hv _ IH]; intros st; cbn [fold_left].
  { by rewrite app_nil_r. }
  destruct (IH (add_stat st v)) as [-> ->]. unfold add_stat. rewrite (as_str_text _ _ Hv).
  cbn [raw values]. by rewrite <- app_assoc.
Qed.

(** The value a list of lines gives a key: that of the last line with the key. *)
Lemma stats_lookup ss m k v :
  fold_left set_stat ss m !! k = Some v <->
  (exists l1 s l2, ss = l1 ++ s :: l2 /\ stat_line s = Some (k, v) /\
     Forall (fun t => forall v', stat_line t <> Some (k, v')) l2) \/
  (m !! k = Some v /\ Forall (fun t => forall v', stat_line t <> Some (k, v')) ss).
Proof.
  revert m. induction ss as [|s ss IH]; intros m; cbn [fold_left].
  { split; [by right|]. intros [(l1 & s & l2 & He & _)|[? _]]; [|done]. by destruct l1. }
  rewrite IH. unfold set_stat at 1. split.
  - intros [(l1 & t & l2 & -> & Ht)|[Hm Hss]]; [left; by exists (s :: l1), t, l2|].
    destruct (stat_line s) as [[k' v']|] eqn:Hs.
    + destruct (decide (k' = k)) as [->|Hk].
      * rewrite lookup_insert_eq in Hm. injection Hm as ->. left. by exists [], s, ss.
      * rewrite lookup_insert_ne in Hm by done. right. split; [done|]. constructor; naive_solver.
    + right. split; [done|]. constructor; naive_solver.
  - intros [(l1 & t & l2 & He & Ht & Hl2)|[Hm Hss]].
    + destruct l1 as [|s' l1]; simplify_eq/=; [|left; by exists l1, t, l2].
      right. rewrite Ht. by rewrite lookup_insert_eq.
    + apply Forall_cons in Hss as [Hs Hss]. right. split; [|done].
      destruct (stat_line s) as [[k' v']|] eqn:E; [|done].
      rewrite lookup_insert_ne; naive_solver.
Qed.

(** C29: a query result reads back: from a reply that lays out columns, rows of
    cells (of any nesting of arrays, maps, nodes, edges, paths and points) and
    statistics lines in the compact format, the parser returns exactly those
    columns (types by their codes 0 to 3), rows and lines, and gives each statistics
    key the value of the last line [Key: Value] that has it. *)
Theorem graph_result_roundtrip cols hs rws rs lines ls :
  Forall2 column cols hs -> Forall2 row rws rs -> Forall2 text lines ls ->
  exists st,
    parse_graph_result (Array [Array hs; Array rs; Array ls]) =
      Ok {| columns := cols; rows := rws; stats := st |} /\
    raw st = lines /\
    forall k v, values st !! k = Some v <->
      exists l1 s l2, lines = l1 ++ s :: l2 /\ stat_entry k v s /\
        Forall (fun t => forall v', ~ stat_entry k v' t) l2.
Proof.
  intros Hc Hr Hl. exists (fold_left add_stat ls no_stats).
  destruct (add_stats_text _ _ no_stats Hl) as [Hraw Hvals]. split_and!.
  - cbn. assert (map parse_column hs = cols) as ->.
    { induction Hc as [|? ? ? ? Hcol _ IH]; [done|]. destruct Hcol as [t s v Hv]. cbn.
      by rewrite IH, ColumnType.column_from_code, (as_str_text _ _ Hv). }
    rewrite (filter_mapM_encoded _ rws rs); [done|]. eapply Forall2_impl; [exact Hr|].
    intros gs v Hrow. destruct Hrow as [gs vs Hf]. cbn beta iota.
    rewrite (mapM_encoded _ gs vs); [done|]. eapply Forall2_impl; [exact Hf|].
    apply cell_reads_back.
  - exact Hraw.
  - intros k v. rewrite Hvals, stats_lookup. cbn [values no_stats].
    rewrite lookup_empty. setoid_rewrite <- stat_line_spec. naive_solver.
Qed.

(** * The theorem at a concrete reply *)

Lemma graph_result_roundtrip_witness :
  exists st,
    parse_graph_result (Array [Array [Array [Integer 2; BulkString (bs "n")]];
      Array [Array [Array [Integer 8; Array [Integer 7; Array [Integer 0];
        Array [Array [Integer 2; Integer 3; Integer 42]]]]]];
      Array [BulkString (bs " Cached execution : 0")]]) =
    Ok {| columns := [{| column_type := ColumnType.Node; name := bs "n" |}];
          rows := [[GNode (mkNode 7 [0] [(2, GInteger 42)])]]; stats := st |} /\
    values st !! bs "Cached execution" = Some (bs "0").
Proof.
  destruct (graph_result_roundtrip
    [{| column_type := ColumnType.Node; name := bs "n" |}]
    [Array [Integer 2; BulkString (bs "n")]]
    [[GNode (mkNode 7 [0] [(2, GInteger 42)])]]
    [Array [Array [Integer 8; Array [Integer 7; Array [Integer 0];
      Array [Array [Integer 2; Integer 3; Integer 42]]]]]]
    [bs " Cached execution : 0"] [BulkString (bs " Cached execution : 0")])
    as (st & Hp & _ & Hv).
  - constructor; [apply (column_pair ColumnType.Node); by constructor|constructor].
  - constructor; [|constructor]. constructor. constructor; [|constructor].
    apply (cell_typed ScalarType.Node). apply (scalar_node 7 [0]). constructor; [|constructor].
    apply (property_triple 2 ScalarType.Integer). constructor.
  - constructor; [by constructor|constructor].
  - exists st. split; [exact Hp|]. apply Hv. exists [], (bs " Cached execution : 0"), [].
    split_and!; [done| |constructor].
    apply (stat_key_value (bs " Cached execution ") (bs " 0")). by apply (bool_decide_unpack _).
Defined.
