(* ===== verification/Cluster.v ===== *)
(** src/router/cluster.rs: the slot map, the key of a command, and the router
    that sends each command to the node of its slot, follows redirections and
    splits pipelines by node. The nodes' pools are behind the interface
    [Transport], which Standalone's pools implement. *)

From Stdlib Require Import Strings.Byte.
From stdpp Require Import gmap.
From S2P Require Import Prelude RustStd Utf8 RustStr Error Types Parser ParserFacts ParserProps.
From S2P Require Import Wire Writer Crc16 Config Tcp TcpProps Pool Standalone.

Definition MAX_REDIRECTS : nat := 5.
(** In milliseconds. *)
Definition SLOT_REFRESH_INTERVAL : Z := 30000.

(** * Classification of commands *)

Definition one_of (names : list string) (s : bytes) : bool :=
  existsb (fun n => bool_decide (s = bs n)) names.

Definition read_only_commands : list string :=
  ["GET"; "MGET"; "KEYS"; "SCAN"; "TYPE"; "TTL"; "PTTL"; "EXISTS"; "STRLEN"; "GETRANGE";
    "SUBSTR"; "HGET"; "HMGET"; "HGETALL"; "HKEYS"; "HVALS"; "HLEN"; "HEXISTS"; "HSCAN";
    "HRANDFIELD"; "LRANGE"; "LLEN"; "LINDEX"; "LPOS"; "SMEMBERS"; "SCARD"; "SISMEMBER";
    "SMISMEMBER"; "SRANDMEMBER"; "SSCAN"; "SUNION"; "SINTER"; "SDIFF"; "ZRANGE";
    "ZRANGEBYSCORE"; "ZRANGEBYLEX"; "ZREVRANGE"; "ZREVRANGEBYSCORE"; "ZREVRANGEBYLEX"; "ZCARD";
    "ZSCORE"; "ZMSCORE"; "ZCOUNT"; "ZLEXCOUNT"; "ZRANK"; "ZREVRANK"; "ZRANDMEMBER"; "ZSCAN";
    "XRANGE"; "XREVRANGE"; "XLEN"; "XREAD"; "XINFO"; "OBJECT"; "DEBUG"; "BITCOUNT"; "BITPOS";
    "GETBIT"; "PFCOUNT"; "GEODIST"; "GEOHASH"; "GEOPOS"; "GEORADIUS_RO";
    "GEORADIUSBYMEMBER_RO"; "GEOSEARCH"; "GRAPH.RO_QUERY"].

Definition is_read_only_command (cmd : bytes) : bool :=
  one_of read_only_commands (to_ascii_uppercase cmd).

Definition keyless_commands : list string :=
  ["PING"; "INFO"; "DBSIZE"; "CLUSTER"; "CONFIG"; "CLIENT"; "COMMAND"; "TIME"; "RANDOMKEY";
    "WAIT"; "SAVE"; "BGSAVE"; "BGREWRITEAOF"; "FLUSHALL"; "FLUSHDB"; "LASTSAVE"; "SLOWLOG";
    "DEBUG"; "MULTI"; "EXEC"; "DISCARD"; "SCRIPT"; "SUBSCRIBE"; "UNSUBSCRIBE"; "PSUBSCRIBE";
    "PUNSUBSCRIBE"; "QUIT"].

(** [args.iter().enumerate()] looking for [STREAMS] with something after it. *)
Fixpoint after_streams (args : list bytes) : option bytes :=
  match args with
  | arg :: (next :: _) as rest =>
      if eq_ignore_ascii_case arg (bs "STREAMS") then Some next else after_streams rest
  | _ => None
  end.

Definition extract_key (args : list bytes) : option bytes :=
  match args with
  | [] => None
  | name :: params =>
      let cmd := to_ascii_uppercase name in
      if one_of keyless_commands cmd then None
      else if one_of ["EVAL"; "EVALSHA"] cmd then
        match params with
        | _ :: n :: key :: _ =>
            match parse_usize n with
            | Some numkeys => if 0 <? numkeys then Some key else None
            | None => None
            end
        | _ => None
        end
      else if one_of ["XREAD"; "XREADGROUP"] cmd then after_streams args
      else head params
  end.

(** * The slot map *)

Record SlotRange := { start : Z; end_ : Z; master : bytes; replicas : list bytes }.
Record SlotMap := { ranges : list SlotRange }.

(** [slice::binary_search_by]: the window [base, base + size) halves until one
    element is left. *)
Fixpoint search_loop {A} (cmp : A -> comparison) (l : list A) (fuel base size : nat) : nat :=
  match fuel with
  | O => base
  | S fuel =>
      if (size <=? 1)%nat then base else
      let half := Nat.div2 size in
      let mid := (base + half)%nat in
      let base := match l !! mid with
                  | Some x => match cmp x with Gt => base | _ => mid end
                  | None => base
                  end in
      search_loop cmp l fuel base (size - half)%nat
  end.

Definition binary_search_by {A} (cmp : A -> comparison) (l : list A) : option nat :=
  let i := search_loop cmp l (length l) 0 (length l) in
  match l !! i with
  | Some x => match cmp x with Eq => Some i | _ => None end
  | None => None
  end.

Definition master_for_slot (m : SlotMap) (slot : Z) : option bytes :=
  match binary_search_by (fun r =>
    if slot <? start r then Gt else if end_ r <? slot then Lt else Eq) (ranges m) with
  | Some i => master <$> ranges m !! i
  | None => None
  end.

Definition pick_replica (slot : Z) (range : SlotRange) : bytes :=
  if bool_decide (replicas range = []) then master range else
  let idx := slot mod len (replicas range) in
  nth (Z.to_nat idx) (replicas range) [].

Definition replica_for_slot (m : SlotMap) (slot : Z) : option bytes :=
  match binary_search_by (fun r =>
    if slot <? start r then Gt else if end_ r <? slot then Lt else Eq) (ranges m) with
  | Some i => pick_replica slot <$> ranges m !! i
  | None => None
  end.

Definition set_master (addr : bytes) (r : SlotRange) : SlotRange :=
  {| start := start r; end_ := end_ r; master := addr; replicas := replicas r |}.

Definition update_slot_master (slot : Z) (addr : bytes) (m : SlotMap) : SlotMap :=
  match binary_search_by (fun r =>
    if slot <? start r then Gt else if end_ r <? slot then Lt else Eq) (ranges m) with
  | Some i => {| ranges := alter (set_master addr) i (ranges m) |}
  | None => m
  end.

(** [as u16]. *)
Definition as_u16 (i : Z) : Z := i mod 2 ^ 16.

Definition cluster_err {A} (msg : string) : Result A := Err (Cluster (bs msg)).

Definition parse_node_addr (val : RespValue) : Result bytes :=
  match val with
  | Array (h :: p :: _) =>
      let? host := ok_or (as_str h) (Cluster (bs "CLUSTER SLOTS: invalid host")) in
      let? port := ok_or (as_int p) (Cluster (bs "CLUSTER SLOTS: invalid port")) in
      Ok (host ++ bs ":" ++ to_string port)
  | Array _ => cluster_err "CLUSTER SLOTS: node array too short"
  | _ => cluster_err "CLUSTER SLOTS: expected node array"
  end.

Definition replica_addrs (nodes : list RespValue) : list bytes :=
  omap (fun node => match parse_node_addr node with Ok addr => Some addr | _ => None end) nodes.

Definition push_range (rs : list SlotRange) (entry : RespValue) : Result (list SlotRange) :=
  match entry with
  | Array (s :: e :: m :: nodes) =>
      let? start := ok_or (as_int s) (Cluster (bs "CLUSTER SLOTS: invalid slot start")) in
      let? end_ := ok_or (as_int e) (Cluster (bs "CLUSTER SLOTS: invalid slot end")) in
      let? master := parse_node_addr m in
      Ok (rs ++ [{| start := as_u16 start; end_ := as_u16 end_; master := master;
                    replicas := replica_addrs nodes |}])
  | _ => Ok rs
  end.

(** [sort_by_key(|r| r.start)], a stable sort. *)
Fixpoint insert_range (r : SlotRange) (l : list SlotRange) : list SlotRange :=
  match l with
  | [] => [r]
  | x :: l' => if start r <=? start x then r :: l else x :: insert_range r l'
  end.

Definition sort_by_start (l : list SlotRange) : list SlotRange := foldr insert_range [] l.

Definition from_cluster_slots (resp : RespValue) : Result SlotMap :=
  match resp with
  | Array slots =>
      let? rs := foldM push_range slots [] in
      Ok {| ranges := sort_by_start rs |}
  | _ => Err (Cluster (bs "CLUSTER SLOTS: expected array, got " ++ quoted (type_name resp)))
  end.

(** * The nodes

    What the router asks of the nodes' pools: [t_get addr] is
    [get_pool(addr).get().await], a guard that [t_drop] gives back; sending and
    reading go through the guard; [t_dial] opens a connection outside the pools;
    [t_ensure] is [ensure_pool_for], [t_addrs] the keys of the map of pools;
    [t_sleep] lets time pass. *)
Class Transport (N G : Type) := {
  t_get : bytes -> stm N PyrsedisError G;
  t_drop : G -> N -> N;
  t_send : bytes -> stm G PyrsedisError unit;
  t_recv : stm G PyrsedisError RespValue;
  t_dial : bytes -> N -> DialOutcome * N;
  t_ensure : bytes -> N -> N;
  t_addrs : N -> list bytes;
  t_sleep : Z -> N -> N
}.

(** A [HashMap] is iterated in an order of its own. *)
Class HashOrder := {
  iter_order {A} : list A -> list A;
  iter_order_perm {A} (l : list A) : iter_order l ≡ₚ l
}.

Record ClusterRouter (N : Type) := {
  nodes : N;
  slot_map : SlotMap;
  config : ConnectionConfig;
  read_from_replicas : bool
}.
Arguments nodes {N}.
Arguments slot_map {N}.
Arguments config {N}.
Arguments read_from_replicas {N}.

Section router.
Context `{Target} `{BytesMut} {N G : Type} `{Transport N G}.

Abbreviation cluster_io := (stm (ClusterRouter N) PyrsedisError).
Abbreviation guard_io := (stm G PyrsedisError).

Definition set_nodes (n : N) (r : ClusterRouter N) : ClusterRouter N :=
  {| nodes := n; slot_map := slot_map r; config := config r;
     read_from_replicas := read_from_replicas r |}.
Definition set_slot_map (m : SlotMap) (r : ClusterRouter N) : ClusterRouter N :=
  {| nodes := nodes r; slot_map := m; config := config r;
     read_from_replicas := read_from_replicas r |}.

(** ** Topology *)

(** The pools of all nodes of a map. *)
Definition ensure_all (m : SlotMap) (n : N) : N :=
  fold_left (fun n range => fold_left (fun n replica => t_ensure replica n) (replicas range)
                              (t_ensure (master range) n)) (ranges m) n.

(** The reply to CLUSTER SLOTS, on a connection of its own that is dropped at the
    end. *)
Definition cluster_slots (addr : bytes) : cluster_io RespValue :=
  fun r =>
    let '(outcome, n) := t_dial addr (nodes r) in
    ((let? conn := connect_timeout_with_max_buf outcome addr
        (connect_timeout_ms (config r)) (max_buffer_size (config r)) in
      let '(ready, conn) := init (username (config r)) (password (config r)) 0 conn in
      let? _ := ready in
      fst (execute_str [bs "CLUSTER"; bs "SLOTS"] conn)), set_nodes n r).

(** [*self.slot_map.write() = new_map], after creating the missing pools. *)
Definition install (new_map : SlotMap) : cluster_io unit :=
  modify (fun r => set_slot_map new_map (set_nodes (ensure_all new_map (nodes r)) r)).

Definition refresh_slots_from (addr : bytes) : cluster_io unit :=
  let! resp := cluster_slots addr in
  let! new_map := lift (from_cluster_slots resp) in
  install new_map.

(** The first seed that answers, or the last error. *)
Fixpoint try_seeds (seeds : list (bytes * Z)) (last_err : option PyrsedisError)
    : cluster_io unit :=
  match seeds with
  | [] =>
      match last_err with
      | Some e => lift (Err (Cluster (bs "could not connect to any seed node: " ++ show_error e)))
      | None => lift (Ok tt)
      end
  | (host, port) :: seeds =>
      fun r =>
        match refresh_slots_from (host ++ bs ":" ++ to_string port) r with
        | (Ok _, r) => (Ok tt, r)
        | (Err e, r) => try_seeds seeds (Some e) r
        | (Panic p, r) => (Panic p, r)
        end
  end.

(** [ClusterRouter::new]; the task it spawns is [background_refresh]. *)
Definition new (n : N) (seeds : list (bytes * Z)) (cfg : ConnectionConfig) (replicas : bool)
    : Result (ClusterRouter N) :=
  if bool_decide (seeds = []) then cluster_err "at least one seed node is required" else
  let router := {| nodes := n; slot_map := {| ranges := [] |}; config := cfg;
                   read_from_replicas := replicas |} in
  let '(res, router) := try_seeds seeds None router in
  let? _ := res in
  Ok router.

(** A turn of the background task, while the router is alive: any node that has a
    pool is asked, and an error changes nothing. *)
Definition background_refresh `{HashOrder} (r : ClusterRouter N) : ClusterRouter N :=
  let r := set_nodes (t_sleep SLOT_REFRESH_INTERVAL (nodes r)) r in
  match head (iter_order (t_addrs (nodes r))) with
  | Some addr => snd (refresh_slots_from addr r)
  | None => r
  end.

(** ** Routing *)

Definition slot_of (args : list bytes) : Result (option Z) :=
  match extract_key args with
  | Some k => let? slot := hash_slot k in Ok (Some slot)
  | None => Ok None
  end.

(** The node of a slot, or any master for a command without key; empty when
    there is none. *)
Definition target (r : ClusterRouter N) (slot : option Z) (is_read : bool) : bytes :=
  match slot with
  | Some slot =>
      let of_master := default [] (master_for_slot (slot_map r) slot) in
      if is_read && read_from_replicas r
      then default of_master (replica_for_slot (slot_map r) slot)
      else of_master
  | None => default [] (master <$> head (ranges (slot_map r)))
  end.

(** The guard of a node around some I/O; it is not dropped while the I/O waits
    for ever. *)
Definition with_node {A} (addr : bytes) (body : guard_io A) : cluster_io A :=
  fun r =>
    match t_get addr (nodes r) with
    | (Ok g, n) =>
        let '(res, g) := body g in
        (res, set_nodes (if hangs res then n else t_drop g n) r)
    | (Err e, n) => (Err e, set_nodes n r)
    | (Panic p, n) => (Panic p, set_nodes n r)
    end.

Definition round_trip (args : list bytes) : guard_io RespValue :=
  let! _ := t_send (encode_command_str args) in t_recv.

Definition asking (args : list bytes) : guard_io RespValue :=
  let! _ := round_trip [bs "ASKING"] in round_trip args.

Definition sleep (ms : Z) : cluster_io unit :=
  modify (fun r => set_nodes (t_sleep ms (nodes r)) r).
Definition moved (slot : Z) (addr : bytes) : cluster_io unit :=
  modify (fun r => set_slot_map (update_slot_master slot addr (slot_map r)) r).

Fixpoint execute_on (addr : bytes) (args : list bytes) (redirects_left : nat)
    : cluster_io RespValue :=
  let! result := with_node addr (round_trip args) in
  match result with
  | Error msg =>
      match fst (RedisErrorKind.from_error_msg msg), redirects_left with
      | RedisErrorKind.Moved _ _, O => lift (cluster_err "too many MOVED redirects")
      | RedisErrorKind.Moved slot new_addr, S k =>
          let! _ := moved slot new_addr in
          execute_on new_addr args k
      | RedisErrorKind.Ask _ _, O => lift (cluster_err "too many ASK redirects")
      | RedisErrorKind.Ask _ new_addr, S _ => with_node new_addr (asking args)
      | RedisErrorKind.ClusterDown, _ => lift (Err (Cluster msg))
      | RedisErrorKind.TryAgain, O => lift (Err (redis msg))
      | RedisErrorKind.TryAgain, S k =>
          let! _ := sleep 50 in
          execute_on addr args k
      | _, _ => lift (Ok result)
      end
  | _ => lift (Ok result)
  end.

Definition execute_routed (args : list bytes) : cluster_io RespValue :=
  match args with
  | [] => lift (Err (Protocol (bs "empty command")))
  | cmd :: _ =>
      fun r =>
        match slot_of args with
        | Ok slot =>
            let addr := target r slot (is_read_only_command cmd) in
            if bool_decide (addr = []) then (cluster_err "no node available for command", r)
            else execute_on addr args MAX_REDIRECTS r
        | Err e => (Err e, r)
        | Panic p => (Panic p, r)
        end
  end.

(** ** Pipelines *)

Abbreviation Group := (list (nat * list bytes)).
Abbreviation Results := (list (option RespValue)).

(** The guard of the group's node is held while its replies are read and
    redirections are followed: the state is the guard and the router. *)
Definition on_guard {A} (m : guard_io A) : stm (G * ClusterRouter N) PyrsedisError A :=
  fun '(g, r) => let '(res, g) := m g in (res, (g, r)).
Definition on_router {A} (m : cluster_io A) : stm (G * ClusterRouter N) PyrsedisError A :=
  fun '(g, r) => let '(res, r) := m r in (res, (g, r)).

(** A reply of the pipeline, after following its redirection. *)
Definition redirected (cmd : list bytes) (resp : RespValue) : cluster_io RespValue :=
  match resp with
  | Error msg =>
      match fst (RedisErrorKind.from_error_msg msg) with
      | RedisErrorKind.Moved slot new_addr =>
          let! _ := moved slot new_addr in
          execute_on new_addr cmd (MAX_REDIRECTS - 1)
      | RedisErrorKind.Ask _ new_addr => with_node new_addr (asking cmd)
      | _ => lift (Ok resp)
      end
  | _ => lift (Ok resp)
  end.

Fixpoint send_group (group : Group) : guard_io unit :=
  match group with
  | [] => lift (Ok tt)
  | (_, cmd) :: group => let! _ := t_send (encode_command_str cmd) in send_group group
  end.

Fixpoint read_group (group : Group) (results : Results)
    : stm (G * ClusterRouter N) PyrsedisError Results :=
  match group with
  | [] => lift (Ok results)
  | (idx, cmd) :: group =>
      let! resp := on_guard t_recv in
      let! v := on_router (redirected cmd resp) in
      read_group group (<[idx := Some v]> results)
  end.

Definition run_group (results : Results) (addr : bytes) (group : Group) : cluster_io Results :=
  if bool_decide (addr = []) then
    lift (Ok (fold_left (fun rs '(idx, _) =>
                <[idx := Some (Error (bs "no node for slot"))]> rs) group results))
  else fun r =>
    match t_get addr (nodes r) with
    | (Ok g, n) =>
        let '(res, (g, r)) :=
          (let! _ := on_guard (send_group group) in read_group group results)
            (g, set_nodes n r) in
        (res, if hangs res then r else set_nodes (t_drop g (nodes r)) r)
    | (Err e, n) => (Err e, set_nodes n r)
    | (Panic p, n) => (Panic p, set_nodes n r)
    end.

Fixpoint run_groups (groups : list (bytes * Group)) (results : Results) : cluster_io Results :=
  match groups with
  | [] => lift (Ok results)
  | (addr, group) :: groups =>
      let! results := run_group results addr group in
      run_groups groups results
  end.

(** The node of a command of a pipeline. *)
Definition route (r : ClusterRouter N) (cmd : list bytes) : Result bytes :=
  let? slot := slot_of cmd in
  Ok (target r slot match cmd with [] => false | name :: _ => is_read_only_command name end).

(** [groups.entry(addr).or_default().push((idx, cmd))]. *)
Definition push_group (groups : gmap bytes Group) (addr : bytes) (item : nat * list bytes)
    : gmap bytes Group :=
  <[addr := default [] (groups !! addr) ++ [item]]> groups.

Fixpoint group_by_node (r : ClusterRouter N) (idx : nat) (commands : list (list bytes))
    (groups : gmap bytes Group) : Result (gmap bytes Group) :=
  match commands with
  | [] => Ok groups
  | cmd :: commands =>
      let? addr := route r cmd in
      group_by_node r (S idx) commands (push_group groups addr (idx, cmd))
  end.

Definition pipeline `{HashOrder} (commands : list (list bytes)) : cluster_io (list RespValue) :=
  fun r =>
    match group_by_node r 0 commands ∅ with
    | Ok groups =>
        (let! results := run_groups (iter_order (map_to_list groups))
                           (replicate (length commands) None) in
         lift (Ok (map (default Null) results))) r
    | Err e => (Err e, r)
    | Panic p => (Panic p, r)
    end.
End router.

(** * The nodes' pools *)

(** [nodes: HashMap<String, Arc<ConnectionPool>>] with the configuration that new
    pools copy, and the network: what each address answers to the dials of a pool
    created for it, and what the connections opened outside the pools meet. *)
Record Nodes := {
  pools : gmap bytes StandaloneRouter;
  base : ConnectionConfig;
  network : bytes -> list DialOutcome;
  seed_dials : list DialOutcome;
  clock : Z
}.

Definition set_pools (ps : gmap bytes StandaloneRouter) (n : Nodes) : Nodes :=
  {| pools := ps; base := base n; network := network n; seed_dials := seed_dials n;
     clock := clock n |}.

Definition ensure_pool_for (addr : bytes) (n : Nodes) : Nodes :=
  match pools n !! addr with
  | Some _ => n
  | None =>
      match rsplit_once ":" addr with
      | Some (h, p) =>
          let cfg := set_db (set_addr (base n) h (default 6379 (parse_u16 p))) 0 in
          set_pools (<[addr := router_new cfg (network n (primary_addr cfg)) (clock n)]> (pools n)) n
      | None => n
      end
  end.

(** The pool of an address; one that cannot be created is replaced by a pool of
    the base configuration that nobody else sees. *)
Definition get_pool (addr : bytes) (n : Nodes) : StandaloneRouter * Nodes :=
  match pools n !! addr with
  | Some p => (p, n)
  | None =>
      let n := ensure_pool_for addr n in
      (default (router_new (base n) (network n (primary_addr (base n))) (clock n))
         (pools n !! addr), n)
  end.

(** A pool sees the time of the router. *)
Definition pool_at (t : Z) (p : StandaloneRouter) : StandaloneRouter :=
  {| rpool := rpool p; rconfig := rconfig p; dials := dials p; time := t |}.

(** Writing a pool back; an unlisted one is forgotten. *)
Definition put_pool (addr : bytes) (p : StandaloneRouter) (n : Nodes) : Nodes :=
  match pools n !! addr with
  | Some _ => set_pools (<[addr := p]> (pools n)) n
  | None => n
  end.

Section pools.
Context `{Target} `{BytesMut}.

Definition pool_get (addr : bytes) : stm Nodes PyrsedisError (bytes * RedisConnection) :=
  fun n =>
    let '(p, n) := get_pool addr n in
    let p := pool_at (clock n) p in
    if permits (rpool p) <=? 0 then (Panic Pending, n) else
    let '(got, p) := checkout p in
    ((let? c := got in Ok (addr, c)), put_pool addr p n).

Definition pool_drop (g : bytes * RedisConnection) (n : Nodes) : Nodes :=
  match pools n !! g.1 with
  | Some p =>
      put_pool g.1 (set_rpool (add_permits 1 (return_connection (clock n) g.2 (rpool p)))
        (dials p) p) n
  | None => n
  end.

#[global] Instance pooled_nodes : Transport Nodes (bytes * RedisConnection) := {
  t_get := pool_get;
  t_drop := pool_drop;
  t_send data := fun '(a, c) => let '(r, c) := send_raw data c in (r, (a, c));
  t_recv := fun '(a, c) => let '(r, c) := read_response c in (r, (a, c));
  t_dial _ n :=
    match seed_dials n with
    | [] => (NoAnswer, n)
    | o :: ds =>
        (o, {| pools := pools n; base := base n; network := network n; seed_dials := ds;
               clock := clock n |})
    end;
  t_ensure := ensure_pool_for;
  t_addrs n := map fst (map_to_list (pools n));
  t_sleep ms n :=
    {| pools := pools n; base := base n; network := network n; seed_dials := seed_dials n;
       clock := clock n + ms |}
}.

Definition pool_idle_count (r : ClusterRouter Nodes) : Z :=
  map_fold (fun _ p n => Standalone.pool_idle_count p + n) 0 (pools (nodes r)).
Definition pool_available (r : ClusterRouter Nodes) : Z :=
  map_fold (fun _ p n => Standalone.pool_available p + n) 0 (pools (nodes r)).
End pools.
