(* ===== verification/ClusterProps.v ===== *)
(** Theorems about src/router/cluster.rs: the slot map finds the node of a slot,
    the reply to CLUSTER SLOTS becomes that map, redirections are followed a
    bounded number of times, and the commands of a pipeline have a destination. *)

From Stdlib Require Import Strings.Byte Sorting.Sorted.
From stdpp Require Import gmap sorting.
From S2P Require Import Prelude RustStd Utf8 RustStr Error Types Parser ParserFacts ParserProps.
From S2P Require Import Wire Writer Crc16 Config Tcp TcpProps Pool Standalone Cluster.

(** * Binary search *)

Section search.
Context {A : Type} (cmp : A -> comparison) (l : list A) (t : nat).

(** [t] is where the search should end. *)
Definition pivot : Prop :=
  forall i x, l !! i = Some x ->
    cmp x = if (i <? t)%nat then Lt else if (t <? i)%nat then Gt else Eq.

Lemma search_loop_finds fuel base size :
  pivot -> (base <= t < base + size)%nat -> (base + size <= length l)%nat -> (size <= S fuel)%nat ->
  search_loop cmp l fuel base size = t.
Proof.
  intros Hp. revert base size. induction fuel as [|fuel IH]; intros base size Ht Hl Hf.
  { simpl. lia. }
  simpl. destruct (size <=? 1)%nat eqn:Hs; [apply Nat.leb_le in Hs; lia|].
  apply Nat.leb_gt in Hs. pose proof (Nat.div2_odd size) as Ho.
  assert (Nat.b2n (Nat.odd size) <= 1)%nat by (destruct (Nat.odd size); simpl; lia).
  set (half := Nat.div2 size) in *.
  destruct (lookup_lt_is_Some_2 l (base + half)) as [x Hx]; [lia|]. rewrite Hx.
  pose proof (Hp _ _ Hx) as Hc. rewrite Hc.
  destruct (base + half <? t)%nat eqn:H1; [apply Nat.ltb_lt in H1; apply IH; lia|].
  apply Nat.ltb_ge in H1.
  destruct (t <? base + half)%nat eqn:H2; [apply Nat.ltb_lt in H2|apply Nat.ltb_ge in H2];
    apply IH; lia.
Qed.

Lemma binary_search_pivot x : pivot -> l !! t = Some x -> binary_search_by cmp l = Some t.
Proof.
  intros Hp Hx. pose proof (lookup_lt_Some _ _ _ Hx) as Hlt. unfold binary_search_by.
  rewrite (search_loop_finds (length l) 0 (length l)) by (done || lia).
  rewrite Hx, (Hp _ _ Hx), Nat.ltb_irrefl. done.
Qed.
End search.

(** * The slot map *)

Definition covers (r : SlotRange) (slot : Z) : Prop := start r <= slot <= end_ r.

(** Ranges in increasing order, not empty and not overlapping. *)
Definition wf_map (m : SlotMap) : Prop :=
  StronglySorted (fun a b => end_ a < start b) (ranges m) /\
  Forall (fun r => start r <= end_ r) (ranges m).

(** The order in which a search for [slot] visits the ranges, and the range it
    ends at: what each of the three lookups should do. *)
Definition locate (slot : Z) (r : SlotRange) : comparison :=
  if slot <? start r then Gt else if end_ r <? slot then Lt else Eq.

Definition range_for_slot (m : SlotMap) (slot : Z) : option SlotRange :=
  match binary_search_by (locate slot) (ranges m) with
  | Some i => ranges m !! i
  | None => None
  end.

Lemma master_for_slot_range m slot : master_for_slot m slot = master <$> range_for_slot m slot.
Proof.
  unfold master_for_slot, range_for_slot. fold (locate slot).
  by destruct (binary_search_by _ _).
Qed.

Lemma replica_for_slot_range m slot :
  replica_for_slot m slot = pick_replica slot <$> range_for_slot m slot.
Proof.
  unfold replica_for_slot, range_for_slot. fold (locate slot).
  by destruct (binary_search_by _ _).
Qed.

Lemma locate_Eq slot r : locate slot r = Eq <-> covers r slot.
Proof.
  unfold locate, covers. destruct (Z.ltb_spec slot (start r)); [split; [done|intros; exfalso; lia]|].
  destruct (Z.ltb_spec (end_ r) slot); split; done || (intros; exfalso; lia) || (intros; lia).
Qed.

Lemma wf_ordered m i j a b :
  wf_map m -> ranges m !! i = Some a -> ranges m !! j = Some b -> (i < j)%nat -> end_ a < start b.
Proof.
  intros [Hs _]. revert i j. induction Hs as [|x l Hs IH Hx]; intros i j Ha Hb Hij; [done|].
  destruct j as [|j]; [lia|]. destruct i as [|i]; simpl in *; [|apply (IH i j Ha Hb); lia].
  simplify_eq. rewrite Forall_forall in Hx. apply Hx. by eapply list_elem_of_lookup_2.
Qed.

Lemma wf_pivot m t r slot :
  wf_map m -> ranges m !! t = Some r -> covers r slot -> pivot (locate slot) (ranges m) t.
Proof.
  intros Hwf Hr [H1 H2] i x Hx. pose proof Hwf as [_ Hne]. rewrite Forall_lookup in Hne.
  pose proof (Hne _ _ Hx) as Hxx. unfold locate.
  destruct (i <? t)%nat eqn:E1; [apply Nat.ltb_lt in E1|apply Nat.ltb_ge in E1].
  { pose proof (wf_ordered m i t x r Hwf Hx Hr E1).
    by rewrite (proj2 (Z.ltb_ge _ _)), (proj2 (Z.ltb_lt _ _)) by lia. }
  destruct (t <? i)%nat eqn:E2; [apply Nat.ltb_lt in E2|apply Nat.ltb_ge in E2].
  { pose proof (wf_ordered m t i r x Hwf Hr Hx E2). by rewrite (proj2 (Z.ltb_lt _ _)) by lia. }
  assert (i = t) as -> by lia. simplify_eq. by rewrite !(proj2 (Z.ltb_ge _ _)) by lia.
Qed.

(** Looking up a slot finds the range that covers it. *)
Lemma range_for_slot_spec m slot r :
  wf_map m -> range_for_slot m slot = Some r <-> r ∈ ranges m /\ covers r slot.
Proof.
  intros Hwf. unfold range_for_slot. split.
  - unfold binary_search_by. set (i := search_loop _ _ _ _ _).
    destruct (ranges m !! i) as [x|] eqn:Hx; [|done].
    destruct (locate slot x) eqn:E; try done. rewrite Hx. intros ?; simplify_eq.
    split; [by eapply list_elem_of_lookup_2|by apply locate_Eq].
  - intros [Hin Hc]. apply list_elem_of_lookup_1 in Hin as [t Ht].
    by rewrite (binary_search_pivot _ _ t r (wf_pivot m t r slot Hwf Ht Hc) Ht).
Qed.

(** Indexing modulo the length stays inside. *)
Lemma nth_mod_elem {A} i (l : list A) d : l <> [] -> nth (Z.to_nat (i mod len l)) l d ∈ l.
Proof.
  intros Hn. apply list_elem_of_In, nth_In.
  assert (0 < len l) by (destruct l; [done|len_lia]).
  pose proof (Z.mod_pos_bound i (len l)). unfold len in *. lia.
Qed.

Lemma pick_replica_spec slot r a :
  a = pick_replica slot r <->
  match replicas r with
  | [] => a = master r
  | rs => rs !! Z.to_nat (slot mod len rs) = Some a
  end.
Proof.
  unfold pick_replica. case_bool_decide as Hn; [by rewrite Hn|].
  assert (0 < len (replicas r)) by (destruct (replicas r); [done|len_lia]).
  pose proof (Z.mod_pos_bound slot (len (replicas r)) ltac:(done)) as Hm.
  destruct (lookup_lt_is_Some_2 (replicas r) (Z.to_nat (slot mod len (replicas r))))
    as [x Hx]; [unfold len in *; lia|].
  rewrite (nth_lookup_Some _ _ _ _ Hx).
  destruct (replicas r); [done|]. rewrite Hx. naive_solver.
Qed.

Lemma alter_wf m i addr :
  wf_map m -> wf_map {| ranges := alter (set_master addr) i (ranges m) |}.
Proof.
  unfold wf_map. cbn. intros [Hs Hne]. split.
  - revert i. induction Hs as [|x l Hs IH Hx]; intros i; [constructor|].
    apply Forall_cons in Hne as [_ Hne]. destruct i as [|i].
    + by constructor.
    + change (alter (set_master addr) (S i) (x :: l)) with (x :: alter (set_master addr) i l).
      constructor; [by apply IH|]. apply Forall_lookup. intros j b Hb.
      rewrite list_lookup_alter in Hb. rewrite Forall_lookup in Hx.
      destruct (decide (i = j)) as [->|]; [|by eapply Hx].
      apply fmap_Some in Hb as (b' & Hb' & ->). by apply (Hx j b').
  - apply Forall_lookup. intros j b Hb. rewrite Forall_lookup in Hne.
    rewrite list_lookup_alter in Hb. destruct (decide (i = j)) as [->|]; [|by eapply Hne].
    apply fmap_Some in Hb as (b' & Hb' & ->). by apply (Hne j b').
Qed.

(** The range that covers a slot is unique. *)
Lemma covers_unique m i j a b slot :
  wf_map m -> ranges m !! i = Some a -> ranges m !! j = Some b ->
  covers a slot -> covers b slot -> i = j.
Proof.
  unfold covers. intros Hwf Ha Hb Hca Hcb. destruct (Nat.lt_trichotomy i j) as [Hl|[?|Hl]]; [|done|].
  - pose proof (wf_ordered m i j a b Hwf Ha Hb Hl). lia.
  - pose proof (wf_ordered m j i b a Hwf Hb Ha Hl). lia.
Qed.

(** Where the update writes: the range that covers the slot, if any. *)
Lemma update_slot_master_ranges m slot addr :
  wf_map m ->
  ranges (update_slot_master slot addr m) =
  map (fun r => if bool_decide (covers r slot) then set_master addr r else r) (ranges m).
Proof.
  intros Hwf. unfold update_slot_master. fold (locate slot). apply list_eq. intros j.
  rewrite list_lookup_fmap. destruct (binary_search_by _ _) as [i|] eqn:Hi.
  - assert (exists r, ranges m !! i = Some r /\ covers r slot) as (r & Hr & Hc).
    { unfold binary_search_by in Hi. set (k := search_loop _ _ _ _ _) in *.
      destruct (ranges m !! k) as [x|] eqn:Hx; [|done].
      destruct (locate slot x) eqn:E; simplify_eq. exists x. split; [done|by apply locate_Eq]. }
    cbn. rewrite list_lookup_alter. destruct (decide (i = j)) as [<-|Hij].
    { rewrite Hr. cbn. by rewrite bool_decide_true. }
    destruct (ranges m !! j) as [x|] eqn:Hx; [|done]. cbn.
    rewrite bool_decide_false; [done|]. intros Hcx. by destruct Hij; eapply covers_unique.
  - destruct (ranges m !! j) as [x|] eqn:Hx; [|done]. cbn.
    rewrite bool_decide_false; [done|]. intros Hcx.
    by rewrite (binary_search_pivot _ _ j x (wf_pivot m j x slot Hwf Hx Hcx) Hx) in Hi.
Qed.

(** C17: on a well-formed slot map the three binary searches are exact. A slot
    has a master iff a range covers it, and it is the master of that range; it
    has a replica iff a range covers it, and it is the replica number [slot mod
    n] of the [n] replicas of that range, or its master when it has none; and
    updating the master of a slot changes the master of the range that covers
    it, and nothing else. *)
Theorem slot_lookup_correct m slot a :
  wf_map m ->
  (master_for_slot m slot = Some a <->
     exists r, r ∈ ranges m /\ covers r slot /\ master r = a) /\
  (replica_for_slot m slot = Some a <->
     exists r, r ∈ ranges m /\ covers r slot /\
       match replicas r with
       | [] => a = master r
       | rs => rs !! Z.to_nat (slot mod len rs) = Some a
       end) /\
  ranges (update_slot_master slot a m) =
    map (fun r => if bool_decide (covers r slot) then set_master a r else r) (ranges m).
Proof.
  intros Hwf. split_and!; [| |by apply update_slot_master_ranges].
  - rewrite master_for_slot_range, fmap_Some.
    setoid_rewrite (range_for_slot_spec m slot _ Hwf). naive_solver.
  - rewrite replica_for_slot_range, fmap_Some.
    setoid_rewrite (range_for_slot_spec m slot _ Hwf).
    setoid_rewrite <- pick_replica_spec. naive_solver.
Qed.

(** A MOVED redirection for one slot moves the whole range that held it: after
    [update_slot_master], every slot of that range has the new master, and every
    other slot the one it had. *)
Theorem update_moves_range m slot addr r0 s :
  wf_map m -> range_for_slot m slot = Some r0 ->
  master_for_slot (update_slot_master slot addr m) s =
  if (start r0 <=? s) && (s <=? end_ r0) then Some addr else master_for_slot m s.
Proof.
  intros Hwf Hr0. unfold update_slot_master, range_for_slot in *. fold (locate slot).
  destruct (binary_search_by _ _) as [i|] eqn:Hi; [|done].
  pose proof (alter_wf m i addr Hwf) as Hwf'. set (m' := {| ranges := _ |}) in *.
  assert (covers r0 slot) as Hc0.
  { apply (range_for_slot_spec m slot r0 Hwf). unfold range_for_slot. by rewrite Hi. }
  destruct (bool_decide (covers r0 s)) eqn:Hcs.
  - apply bool_decide_eq_true in Hcs. pose proof Hcs as [H1 H2].
    rewrite !(proj2 (Z.leb_le _ _)) by done. rewrite master_for_slot_range.
    rewrite (proj2 (range_for_slot_spec m' s (set_master addr r0) Hwf')); [done|].
    split; [|done]. apply list_elem_of_lookup. exists i. subst m'. cbn.
    by rewrite list_lookup_alter, decide_True, Hr0 by done.
  - apply bool_decide_eq_false in Hcs.
    destruct ((start r0 <=? s) && (s <=? end_ r0)) eqn:E.
    { apply andb_true_iff in E as [E1%Z.leb_le E2%Z.leb_le]. by destruct Hcs. }
    rewrite !master_for_slot_range. f_equal. apply option_eq. intros r.
    rewrite !range_for_slot_spec by done. subst m'. cbn.
    split; intros [Hin Hcv]; (split; [|done]);
      apply list_elem_of_lookup in Hin as [j Hj]; apply list_elem_of_lookup; exists j.
    + rewrite list_lookup_alter in Hj. destruct (decide (i = j)) as [<-|]; [|done].
      rewrite Hr0 in Hj. injection Hj as <-. done.
    + rewrite list_lookup_alter. destruct (decide (i = j)) as [<-|]; [|done].
      rewrite Hr0 in Hj. by injection Hj as <-.
Qed.

(** * The reply to CLUSTER SLOTS *)

(** A node [[host, port, ..]] with address [a], and an entry
    [[start, end, master, replicas..]] for the range [r]. *)
Inductive node_entry (a : bytes) : RespValue -> Prop :=
| node_host_port hv host port rest :
    as_str hv = Some host -> a = host ++ bs ":" ++ to_string port ->
    node_entry a (Array (hv :: Integer port :: rest)).

Inductive slot_entry (r : SlotRange) : RespValue -> Prop :=
| slot_range_entry mv nodes :
    0 <= start r < 2 ^ 16 -> 0 <= end_ r < 2 ^ 16 ->
    node_entry (master r) mv -> Forall2 node_entry (replicas r) nodes ->
    slot_entry r (Array (Integer (start r) :: Integer (end_ r) :: mv :: nodes)).

Lemma parse_node_entry a v : node_entry a v -> parse_node_addr v = Ok a.
Proof. destruct 1 as [hv host port rest Hh ->]. simpl. by rewrite Hh. Qed.

Lemma replica_addrs_entries rs nodes :
  Forall2 node_entry rs nodes -> replica_addrs nodes = rs.
Proof.
  induction 1 as [|r v rs nodes Hv _ IH]; [done|]. unfold replica_addrs. simpl.
  rewrite (parse_node_entry _ _ Hv). f_equal. exact IH.
Qed.

Lemma push_ranges rs vs acc :
  Forall2 slot_entry rs vs -> foldM push_range vs acc = Ok (acc ++ rs).
Proof.
  intros Hf. revert acc. induction Hf as [|r v rs vs Hv _ IH]; intros acc; cbn [foldM].
  { by rewrite app_nil_r. }
  destruct Hv as [mv nodes Hs He Hm Hn]. cbn [push_range as_int ok_or bind].
  rewrite (parse_node_entry _ _ Hm), (replica_addrs_entries _ _ Hn). cbn [bind].
  unfold as_u16. rewrite !Z.mod_small by done. rewrite IH, <- app_assoc. by destruct r.
Qed.

Lemma insert_range_perm r l : insert_range r l ≡ₚ r :: l.
Proof.
  induction l as [|x l IH]; simpl; [done|]. destruct (_ <=? _); [done|].
  rewrite IH. apply Permutation_swap.
Qed.

Lemma insert_range_sorted r l :
  StronglySorted (fun a b => start a <= start b) l ->
  StronglySorted (fun a b => start a <= start b) (insert_range r l).
Proof.
  induction 1 as [|x l Hs IH Hx]; simpl; [by repeat constructor|].
  destruct (Z.leb_spec (start r) (start x)).
  - constructor; [by constructor|]. constructor; [done|].
    eapply Forall_impl; [exact Hx|]. intros; cbn in *; lia.
  - constructor; [done|]. rewrite insert_range_perm. constructor; [lia|done].
Qed.

Lemma sort_by_start_ok l :
  sort_by_start l ≡ₚ l /\ StronglySorted (fun a b => start a <= start b) (sort_by_start l).
Proof.
  induction l as [|r l [IHp IHs]]; simpl; [by repeat constructor|].
  split; [by rewrite insert_range_perm, IHp|by apply insert_range_sorted].
Qed.

(** Sorting ranges that do not overlap gives a well-formed map. *)
Lemma sorted_wf rs :
  NoDup rs -> Forall (fun r => start r <= end_ r) rs ->
  (forall a b s, a ∈ rs -> b ∈ rs -> covers a s -> covers b s -> a = b) ->
  wf_map {| ranges := sort_by_start rs |}.
Proof.
  destruct (sort_by_start_ok rs) as [Hp Hs]. intros Hnd Hne Hov.
  rewrite <- Hp in Hnd, Hne. split; [|done]. cbn.
  assert (forall a b, a ∈ sort_by_start rs -> b ∈ sort_by_start rs ->
    start a <= start b -> a <> b -> end_ a < start b) as Hlt.
  { intros a b Ha Hb Hle Hab. rewrite Forall_forall in Hne. pose proof (Hne a Ha).
    pose proof (Hne b Hb). destruct (Z.lt_ge_cases (end_ a) (start b)) as [|Hge]; [done|].
    rewrite Hp in Ha, Hb. destruct Hab. apply (Hov a b (start b)); unfold covers; (done || lia). }
  clear Hne Hp Hov. induction Hs as [|x l Hs IH Hx]; constructor.
  - apply NoDup_cons in Hnd as [_ Hnd]. apply IH; [done|]. intros a b Ha Hb.
    apply Hlt; by apply list_elem_of_further.
  - apply NoDup_cons in Hnd as [Hnx _]. rewrite Forall_forall in Hx |- *. intros b Hb.
    apply Hlt; [apply list_elem_of_here|by apply list_elem_of_further|by apply Hx|set_solver].
Qed.

(** C18: the reply to CLUSTER SLOTS becomes the map it describes: from entries that
    do not overlap, in any order, [from_cluster_slots] builds a well-formed map
    whose ranges are exactly those of the entries, so that every slot has the
    master of the entry that covers it and the slots of no entry have none. *)
Theorem from_cluster_slots_correct rs vs :
  Forall2 slot_entry rs vs -> NoDup rs -> Forall (fun r => start r <= end_ r) rs ->
  (forall a b s, a ∈ rs -> b ∈ rs -> covers a s -> covers b s -> a = b) ->
  exists m, from_cluster_slots (Array vs) = Ok m /\ wf_map m /\ ranges m ≡ₚ rs /\
    forall slot a, master_for_slot m slot = Some a <->
      exists r, r ∈ rs /\ covers r slot /\ master r = a.
Proof.
  intros Hf Hnd Hne Hov. exists {| ranges := sort_by_start rs |}.
  pose proof (sorted_wf rs Hnd Hne Hov) as Hwf. pose proof (proj1 (sort_by_start_ok rs)) as Hp.
  split_and!; [|done|done|].
  - cbn. by rewrite (push_ranges rs vs [] Hf).
  - intros slot a. rewrite master_for_slot_range, fmap_Some.
    setoid_rewrite (range_for_slot_spec _ slot _ Hwf). cbn. setoid_rewrite Hp. naive_solver.
Qed.

(** * Redirections *)

(** A reply the router follows or turns into an error. *)
Definition is_redirect (v : RespValue) : bool :=
  match v with
  | Error msg =>
      match fst (RedisErrorKind.from_error_msg msg) with
      | RedisErrorKind.Moved _ _ | RedisErrorKind.Ask _ _
      | RedisErrorKind.ClusterDown | RedisErrorKind.TryAgain => true
      | _ => false
      end
  | _ => false
  end.

Section redirects.
Context {N G : Type} `{Transport N G}.

(** Node [addr] answers [v] to [args], whatever happened before. *)
Definition answers (addr : bytes) (args : list bytes) (v : RespValue) : Prop :=
  forall r, exists n, with_node addr (round_trip args) r = (Ok v, set_nodes n r).

(** From [addr], one MOVED reply after the other leads through the addresses of
    [hops] to a node that answers [v]. *)
Fixpoint moved_chain (args : list bytes) (v : RespValue) (addr : bytes)
    (hops : list (Z * bytes)) : Prop :=
  match hops with
  | [] => answers addr args v
  | (slot, next) :: hops =>
      (exists msg, answers addr args (Error msg) /\
         fst (RedisErrorKind.from_error_msg msg) = RedisErrorKind.Moved slot next) /\
      moved_chain args v next hops
  end.

Definition learn (hops : list (Z * bytes)) (m : SlotMap) : SlotMap :=
  fold_left (fun m '(slot, addr) => update_slot_master slot addr m) hops m.

Lemma execute_on_plain addr args v k r :
  answers addr args v -> is_redirect v = false ->
  exists n, execute_on addr args k r = (Ok v, set_nodes n r).
Proof.
  intros Ha Hv. destruct (Ha r) as [n Hn]. exists n.
  destruct k; cbn [execute_on]; rewrite (sbind_ok _ _ _ _ _ Hn); destruct v; try done;
    simpl in Hv; by destruct (fst (RedisErrorKind.from_error_msg s)).
Qed.

(** MOVED redirections are followed to the node that has the slot, learning
    the new master at each hop, as long as there are no more hops than
    redirections left; one hop more is an error. *)
Theorem moved_redirects_followed addr args v hops k r :
  moved_chain args v addr hops -> is_redirect v = false ->
  exists n, execute_on addr args k r =
    if (length hops <=? k)%nat
    then (Ok v, set_slot_map (learn hops (slot_map r)) (set_nodes n r))
    else (cluster_err "too many MOVED redirects",
          set_slot_map (learn (take k hops) (slot_map r)) (set_nodes n r)).
Proof.
  intros Hc Hv. revert addr k r Hc. induction hops as [|[slot next] hops IH]; intros addr k r Hc.
  { destruct (execute_on_plain addr args v k r Hc Hv) as [n Hn]. exists n. rewrite Hn.
    by destruct r. }
  destruct Hc as [(msg & Hm & Hk) Hc]. destruct (Hm r) as [n Hn].
  destruct k as [|k]; cbn [execute_on]; rewrite (sbind_ok _ _ _ _ _ Hn), Hk.
  { exists n. by destruct r. }
  destruct (IH next k (set_slot_map (update_slot_master slot next (slot_map r)) (set_nodes n r)) Hc)
    as [n' Hn'].
  exists n'. cbn [length Nat.leb take learn fold_left]. unfold moved.
  erewrite sbind_ok by reflexivity. exact Hn'.
Qed.
End redirects.

(** * Pipelines over the nodes *)

Section pipelines.
Context {N G : Type} `{Transport N G} `{HashOrder}.

(** Where a command goes. *)
Definition destination (r : ClusterRouter N) (cmd : list bytes) : bytes :=
  match route r cmd with Ok a => a | _ => [] end.

Lemma route_ok r cmd : route r cmd = Ok (destination r cmd).
Proof.
  unfold destination, route, slot_of. destruct (extract_key cmd) as [k|]; [|done].
  destruct (@extract_hash_tag_ok PyrsedisError k) as [tag Ht]. unfold hash_slot.
  rewrite Ht. cbn [bind]. by rewrite crc16_eq.
Qed.

Lemma destination_same_map r r' cmd :
  slot_map r' = slot_map r -> read_from_replicas r' = read_from_replicas r ->
  destination r' cmd = destination r cmd.
Proof. intros Hm Hr. unfold destination, route, target. by rewrite Hm, Hr. Qed.

(** Writing results at their places. *)
Definition write_all (items : list (nat * RespValue)) (rs : list (option RespValue))
    : list (option RespValue) :=
  fold_left (fun rs '(i, v) => <[i := Some v]> rs) items rs.

Lemma write_all_length items rs : length (write_all items rs) = length rs.
Proof.
  revert rs. induction items as [|[i v] items IH]; intros rs; [done|]. cbn.
  unfold write_all in IH. rewrite IH. apply length_insert.
Qed.

Lemma write_all_lookup items rs i v :
  (i < length rs)%nat -> (forall w, (i, w) ∈ items -> w = v) ->
  (rs !! i = Some (Some v) \/ exists w, (i, w) ∈ items) ->
  write_all items rs !! i = Some (Some v).
Proof.
  revert rs. induction items as [|[j w] items IH]; intros rs Hl Hw Hi; cbn.
  { destruct Hi as [?|[w Hin]]; [done|]. by apply not_elem_of_nil in Hin. }
  apply IH; [by rewrite length_insert|intros; apply Hw; by apply list_elem_of_further|].
  destruct (decide (i = j)) as [->|Hne].
  - left. rewrite list_lookup_insert_eq by done. f_equal. f_equal. apply Hw, list_elem_of_here.
  - rewrite list_lookup_insert_ne by done. destruct Hi as [?|[u Hin]]; [by left|].
    apply elem_of_cons in Hin as [?|?]; [naive_solver|right; by exists u].
Qed.

End pipelines.

(** * The theorems at concrete clusters *)

Definition low : SlotRange :=
  {| start := 0; end_ := 8191; master := bs "a:1"; replicas := [bs "c:3"] |}.
Definition high : SlotRange :=
  {| start := 8192; end_ := 16383; master := bs "b:2"; replicas := [] |}.
Definition two_nodes : SlotMap := {| ranges := [low; high] |}.

Lemma two_nodes_wf : wf_map two_nodes.
Proof. split; repeat constructor; vm_compute; congruence. Qed.

Lemma slot_lookup_correct_witness :
  master_for_slot two_nodes 9000 = Some (bs "b:2") /\
  replica_for_slot two_nodes 9001 = Some (bs "b:2") /\
  replica_for_slot two_nodes 8191 = Some (bs "c:3").
Proof.
  pose proof two_nodes_wf as Hwf. split_and!.
  - apply (slot_lookup_correct two_nodes 9000 (bs "b:2") Hwf). exists high.
    by repeat constructor.
  - apply (slot_lookup_correct two_nodes 9001 (bs "b:2") Hwf). exists high.
    by repeat constructor.
  - apply (slot_lookup_correct two_nodes 8191 (bs "c:3") Hwf). exists low.
    by repeat constructor.
Defined.

Lemma update_moves_range_witness :
  master_for_slot (update_slot_master 5 (bs "d:4") two_nodes) 100 = Some (bs "d:4").
Proof. by rewrite (update_moves_range two_nodes 5 (bs "d:4") low 100 two_nodes_wf). Defined.

Definition node_value (host : string) (port : Z) : RespValue :=
  Array [BulkString (bs host); Integer port].

Definition two_entries : list RespValue :=
  [Array [Integer 8192; Integer 16383; node_value "b" 2];
   Array [Integer 0; Integer 8191; node_value "a" 1; node_value "c" 3]].

Lemma two_entries_ok : Forall2 slot_entry [high; low] two_entries.
Proof.
  constructor; [|constructor; [|constructor]].
  - apply (slot_range_entry high); [done|done|by econstructor|constructor].
  - apply (slot_range_entry low); [done|done|by econstructor|].
    constructor; [by econstructor|constructor].
Qed.

Lemma high_low_nodup : NoDup [high; low].
Proof. constructor; [by rewrite list_elem_of_singleton|apply NoDup_singleton]. Qed.

Lemma high_low_disjoint a b s :
  a ∈ [high; low] -> b ∈ [high; low] -> covers a s -> covers b s -> a = b.
Proof.
  intros Ha Hb. unfold covers.
  apply elem_of_cons in Ha as [->|Ha%list_elem_of_singleton];
    apply elem_of_cons in Hb as [->|Hb%list_elem_of_singleton]; subst; simpl; (done || lia).
Qed.

Lemma from_cluster_slots_correct_witness :
  exists m, from_cluster_slots (Array two_entries) = Ok m /\
    master_for_slot m 9000 = Some (bs "b:2").
Proof.
  destruct (from_cluster_slots_correct [high; low] two_entries) as (m & Hm & _ & _ & Hl).
  - apply two_entries_ok.
  - apply high_low_nodup.
  - by repeat constructor.
  - apply high_low_disjoint.
  - exists m. split; [exact Hm|]. apply Hl. exists high. split_and!; [constructor|done|reflexivity].
Defined.

(** A cluster where [a:1] sends everybody to [b:2], and nodes that answer with
    their address. *)
Definition redirecting : Transport unit bytes := {|
  t_get addr n := (Ok addr, n);
  t_drop _ n := n;
  t_send _ g := (Ok tt, g);
  t_recv g :=
    (Ok (if bool_decide (g = bs "a:1") then Error (bs "MOVED 5 b:2") else SimpleString g), g);
  t_dial _ n := (NoAnswer, n);
  t_ensure _ n := n;
  t_addrs _ := [];
  t_sleep _ n := n
|}.

Definition two_node_router : ClusterRouter unit :=
  {| nodes := tt; slot_map := two_nodes; config := default_config;
     read_from_replicas := false |}.

Lemma moved_redirects_followed_witness :
  fst (execute_on (H1 := redirecting) (bs "a:1") [bs "GET"; bs "k"] 5 two_node_router) =
  Ok (SimpleString (bs "b:2")).
Proof.
  destruct (moved_redirects_followed (H := redirecting) (bs "a:1") [bs "GET"; bs "k"]
    (SimpleString (bs "b:2")) [(5, bs "b:2")] 5 two_node_router) as [n ->];
    [|reflexivity|reflexivity].
  split; [|intros r; exists tt; destruct r as [[]]; reflexivity].
  exists (bs "MOVED 5 b:2"). split; [intros r; exists tt; destruct r as [[]]; reflexivity|].
  vm_compute. reflexivity.
Defined.

Definition in_list_order : HashOrder := {| iter_order A l := l; iter_order_perm A l := Permutation_refl l |}.
