(* ===== verification/ClusterTopology.v ===== *)
(** The slot map of a cluster router over time (src/router/cluster.rs): callers
    and the background task write it under its lock, in any order; it stays well
    formed, and every command goes to the node that owns the slot of its key. *)

From Stdlib Require Import Strings.Byte.
From stdpp Require Import gmap.
From S2P Require Import Prelude RustStd Utf8 RustStr Error Types Parser ParserFacts ParserProps.
From S2P Require Import Wire Writer Crc16 Config Tcp TcpProps Pool Standalone Cluster ClusterProps.

(** A reply to CLUSTER SLOTS whose ranges do not overlap. *)
Definition disjoint_slots (resp : RespValue) : Prop :=
  exists rs vs, resp = Array vs /\ Forall2 slot_entry rs vs /\ NoDup rs /\
    Forall (fun r => start r <= end_ r) rs /\
    forall a b s, a ∈ rs -> b ∈ rs -> covers a s -> covers b s -> a = b.

Lemma disjoint_slots_wf resp m :
  disjoint_slots resp -> from_cluster_slots resp = Ok m -> wf_map m.
Proof.
  intros (rs & vs & -> & Hf & Hnd & Hne & Hov). cbn. rewrite (push_ranges rs vs [] Hf). cbn.
  intros [= <-]. by apply sorted_wf.
Qed.

Lemma update_wf slot addr m : wf_map m -> wf_map (update_slot_master slot addr m).
Proof.
  intros Hwf. unfold update_slot_master. destruct (binary_search_by _ _) as [i|]; [|done].
  by apply alter_wf.
Qed.

Section topology.
Context `{Target} `{BytesMut} {N G : Type} `{Transport N G}.

(** * The atomic steps of a router

    Every access of the router's state is one of these, and holds one of its
    locks; the pools ([set_nodes]) have locks of their own. The tasks that share
    the router interleave such steps. *)
Inductive action (r : ClusterRouter N) : ClusterRouter N -> Prop :=
| act_pools n : action r (set_nodes n r)
| act_moved slot addr :
    action r (set_slot_map (update_slot_master slot addr (slot_map r)) r)
| act_install resp m addr s s' :
    config s = config r -> cluster_slots addr s = (Ok resp, s') ->
    from_cluster_slots resp = Ok m -> action r (set_slot_map m r).

(** Operations that are made of such steps, whatever their outcome. *)
Definition atomic {A} (m : stm (ClusterRouter N) PyrsedisError A) : Prop :=
  forall r, rtc action r (m r).2.

Lemma atomic_lift {A} (x : Result A) : atomic (lift x).
Proof. intros r. constructor. Qed.

Lemma atomic_bind {A B} (m : stm (ClusterRouter N) PyrsedisError A)
    (f : A -> stm (ClusterRouter N) PyrsedisError B) :
  atomic m -> (forall a, atomic (f a)) -> atomic (sbind m f).
Proof.
  intros Hm Hf r. specialize (Hm r). unfold sbind. destruct (m r) as [[a|e|p] r']; [|done..].
  etransitivity; [exact Hm|apply Hf].
Qed.

Lemma atomic_with_node {A} addr (body : stm G PyrsedisError A) : atomic (with_node addr body).
Proof.
  intros r. unfold with_node. destruct (t_get addr (nodes r)) as [[g|e|p] n];
    [destruct (body g)|..]; apply rtc_once, act_pools.
Qed.

Lemma atomic_moved slot addr : atomic (moved slot addr).
Proof. intros r. apply rtc_once, act_moved. Qed.

Lemma atomic_sleep ms : atomic (sleep ms).
Proof. intros r. apply rtc_once, act_pools. Qed.
#[local] Hint Resolve atomic_lift atomic_bind atomic_with_node atomic_moved atomic_sleep : core.

Lemma atomic_execute_on addr args k : atomic (execute_on addr args k).
Proof.
  revert addr. induction k as [|k IH]; intros addr; cbn [execute_on];
    (apply atomic_bind; [done|]); intros v; destruct v as [|msg| | | | | | | | | | | | |]; auto;
    destruct (fst (RedisErrorKind.from_error_msg msg)); auto.
Qed.

Lemma atomic_redirected cmd resp : atomic (redirected cmd resp).
Proof.
  unfold redirected. destruct resp as [|msg| | | | | | | | | | | | |]; auto.
  pose proof atomic_execute_on. destruct (fst (RedisErrorKind.from_error_msg msg)); auto.
Qed.

Lemma atomic_refresh addr : atomic (refresh_slots_from addr).
Proof.
  intros r. unfold refresh_slots_from, sbind. destruct (cluster_slots addr r) as [o r'] eqn:Hq.
  assert (r' = set_nodes (t_dial addr (nodes r)).2 r) as ->.
  { unfold cluster_slots in Hq. destruct (t_dial addr (nodes r)). by injection Hq. }
  eapply rtc_l; [apply act_pools|]. destruct o as [resp|e|p]; [|constructor..]. cbn.
  destruct (from_cluster_slots resp) as [m|e|p] eqn:Hm; [|constructor..]. cbn.
  eapply rtc_l; [apply (act_pools _ (ensure_all m (t_dial addr (nodes r)).2))|].
  apply rtc_once. by eapply (act_install _ resp m addr r).
Qed.

Lemma atomic_execute_routed args : atomic (execute_routed args).
Proof.
  unfold execute_routed. destruct args as [|cmd args]; auto.
  intros r. destruct (slot_of _) as [slot|e|p]; [|constructor..].
  case_bool_decide; [constructor|apply atomic_execute_on].
Qed.

(** The guard of a group is not part of the router. *)
Lemma atomic_read_group group results g r :
  rtc action r (read_group group results (g, r)).2.2.
Proof.
  revert results g r. induction group as [|[i cmd] group IH]; intros results g r; [constructor|].
  cbn [read_group]. unfold sbind, on_guard, on_router.
  destruct (t_recv g) as [[v|e|p] g']; [|constructor..].
  pose proof (atomic_redirected cmd v r) as Hr.
  destruct (redirected cmd v r) as [[w|e|p] r']; [|done..].
  etransitivity; [exact Hr|apply IH].
Qed.

(** Dropping the guard, or not. *)
Lemma atomic_drop (hung : bool) n r : rtc action r (if hung then r else set_nodes n r).
Proof. destruct hung; [constructor|apply rtc_once, act_pools]. Qed.

Lemma atomic_run_group results addr group : atomic (run_group results addr group).
Proof.
  unfold run_group. case_bool_decide; [auto|]. intros r.
  destruct (t_get addr (nodes r)) as [[g|e|p] n]; [|apply rtc_once, act_pools..].
  eapply rtc_l; [apply (act_pools _ n)|]. unfold sbind, on_guard.
  destruct (send_group group g) as [[[]|e|p] g']; [|apply atomic_drop..].
  pose proof (atomic_read_group group results g' (set_nodes n r)) as Hr.
  destruct (read_group group results (g', set_nodes n r)) as [o [g2 r2]].
  etransitivity; [exact Hr|apply atomic_drop].
Qed.

Lemma atomic_run_groups groups results : atomic (run_groups groups results).
Proof.
  pose proof atomic_run_group. revert results.
  induction groups as [|[addr group] groups IH]; intros results; cbn [run_groups]; auto.
Qed.

Context `{HashOrder}.

Lemma atomic_pipeline cmds : atomic (pipeline cmds).
Proof.
  pose proof atomic_run_groups. intros r. unfold pipeline.
  destruct (group_by_node r 0 cmds ∅) as [gs|e|p]; [|constructor..].
  by apply atomic_bind; auto.
Qed.

Lemma atomic_background r : rtc action r (background_refresh r).
Proof.
  unfold background_refresh. eapply rtc_l; [apply act_pools|].
  destruct (head _) as [addr|]; [|constructor]. apply atomic_refresh.
Qed.

(** * The invariant *)

(** Nodes whose replies to CLUSTER SLOTS, on a router of configuration [cfg], list
    ranges that do not overlap. *)
Definition consistent (cfg : ConnectionConfig) : Prop :=
  forall addr r resp r', config r = cfg -> cluster_slots addr r = (Ok resp, r') ->
    disjoint_slots resp.

Lemma action_inv cfg r r' :
  consistent cfg -> config r = cfg /\ wf_map (slot_map r) -> action r r' ->
  config r' = cfg /\ wf_map (slot_map r').
Proof.
  intros Hc [Hcfg Hwf] Ha. destruct Ha as [n|slot addr|resp m addr s s' Hs Hq Hm]; (split; [done|]).
  - done.
  - by apply update_wf.
  - eapply disjoint_slots_wf; [|exact Hm]. apply (Hc addr s resp s'); [by rewrite Hs|done].
Qed.

Lemma actions_inv cfg r r' :
  consistent cfg -> config r = cfg /\ wf_map (slot_map r) -> rtc action r r' ->
  config r' = cfg /\ wf_map (slot_map r').
Proof. intros Hc Hi. induction 1; [done|]. by eauto using action_inv. Qed.

Lemma atomic_try_seeds seeds last_err : atomic (try_seeds seeds last_err).
Proof.
  revert last_err. induction seeds as [|[host port] seeds IH]; intros last_err; cbn [try_seeds].
  { destruct last_err; auto. }
  intros r. pose proof (atomic_refresh (host ++ bs ":" ++ to_string port) r) as Hr.
  destruct (refresh_slots_from _ r) as [[[]|e|p] r']; [done| |done].
  etransitivity; [exact Hr|apply IH].
Qed.

Lemma new_inv n seeds cfg reps r :
  consistent cfg -> new n seeds cfg reps = Ok r -> config r = cfg /\ wf_map (slot_map r).
Proof.
  intros Hc. unfold new. case_bool_decide; [done|].
  match goal with |- context [try_seeds seeds None ?r0] =>
    pose proof (atomic_try_seeds seeds None r0) as Ha; set (r0' := r0) in * end.
  destruct (try_seeds seeds None r0') as [[[]|e|p] r1]; [|done..]. cbn. intros [= <-].
  eapply actions_inv; [exact Hc| |exact Ha]. by repeat constructor.
Qed.

(** C19: The slot map stays well formed however the callers and the background
    task interleave: from a new router of a cluster whose replies to CLUSTER SLOTS
    do not overlap, every state reached by atomic steps has a well-formed map, and
    from there every operation is again a sequence of such steps, whether it
    succeeds or fails. *)
Theorem slot_map_stays_wf n seeds cfg reps r r' :
  consistent cfg -> new n seeds cfg reps = Ok r -> rtc action r r' ->
  wf_map (slot_map r') /\
  (forall args, rtc action r' (execute_routed args r').2) /\
  (forall cmds, rtc action r' (pipeline cmds r').2) /\
  rtc action r' (background_refresh r').
Proof.
  intros Hc Hn Ha. destruct (actions_inv cfg r r' Hc (new_inv _ _ _ _ _ Hc Hn) Ha) as [_ Hwf].
  split_and!; [done|intros; apply atomic_execute_routed|intros; apply atomic_pipeline|].
  apply atomic_background.
Qed.

(** C20: A command with a key goes to the node that owns the slot of the key: to a
    replica of the range that covers the slot when the command only reads, replicas
    are allowed and the range has some, to its master otherwise. When no range
    covers the slot, it fails and nothing changes. *)
Theorem command_reaches_owner r cmd args k s :
  wf_map (slot_map r) -> extract_key (cmd :: args) = Some k ->
  hash_slot k = @Ok PyrsedisError Z s ->
  (forall rng, rng ∈ ranges (slot_map r) -> covers rng s ->
     Forall (fun a => a <> []) (master rng :: replicas rng) ->
     exists a, execute_routed (cmd :: args) r = execute_on a (cmd :: args) MAX_REDIRECTS r /\
       a ∈ if is_read_only_command cmd && read_from_replicas r &&
              negb (bool_decide (replicas rng = []))
           then replicas rng else [master rng]) /\
  ((forall rng, rng ∈ ranges (slot_map r) -> ~ covers rng s) ->
     execute_routed (cmd :: args) r = (cluster_err "no node available for command", r)).
Proof.
  intros Hwf Hk Hs. unfold execute_routed, slot_of, target. rewrite Hk, Hs. cbn [bind].
  rewrite master_for_slot_range, replica_for_slot_range.
  generalize (is_read_only_command cmd && read_from_replicas r) as reading. intros reading. split.
  - intros rng Hin Hc Hne. rewrite (proj2 (range_for_slot_spec _ s rng Hwf)) by done. cbn.
    assert (pick_replica s rng ∈ if negb (bool_decide (replicas rng = [])) then replicas rng
            else [master rng]) as Hp.
    { unfold pick_replica. case_bool_decide as Hr; cbn; [apply list_elem_of_here|].
      apply (nth_mod_elem s (replicas rng) [] Hr). }
    rewrite Forall_forall in Hne.
    assert (forall a, a ∈ master rng :: replicas rng -> bool_decide (a = []) = false) as Hb
      by (intros a Ha; by apply bool_decide_eq_false, Hne).
    destruct reading; cbn.
    + exists (pick_replica s rng). split; [|exact Hp]. rewrite Hb; [done|].
      destruct (negb _); [by apply list_elem_of_further|].
      apply list_elem_of_singleton in Hp as ->. apply list_elem_of_here.
    + exists (master rng). rewrite Hb by apply list_elem_of_here.
      split; [done|apply list_elem_of_here].
  - intros Hno. destruct (range_for_slot (slot_map r) s) as [rng|] eqn:Hr.
    { apply (range_for_slot_spec _ s rng Hwf) in Hr as [Hin Hc]. by destruct (Hno rng). }
    by destruct reading.
Qed.
End topology.

(** * The theorems at a concrete cluster *)

(** A cluster of two nodes: every new connection is answered with the map, every
    pooled one with the address of its node. *)
Definition slots_wire : bytes :=
  crlf_lines ["*2"; "*3"; ":8192"; ":16383"; "*2"; "$1"; "b"; ":2";
    "*4"; ":0"; ":8191"; "*2"; "$1"; "a"; ":1"; "*2"; "$1"; "c"; ":3"].

Definition described : Transport unit bytes := {|
  t_get addr n := (Ok addr, n);
  t_drop _ n := n;
  t_send _ g := (Ok tt, g);
  t_recv g := (Ok (SimpleString g), g);
  t_dial _ n := (Connected [Data slots_wire] [] 0, n);
  t_ensure _ n := n;
  t_addrs _ := [bs "a:1"; bs "b:2"];
  t_sleep _ n := n
|}.

Lemma described_consistent :
  consistent (H := release64) (H0 := exact_bytes) (H1 := described) default_config.
Proof.
  intros addr [[] m cfg reps] resp r' Hcfg. cbn [config] in Hcfg. subst cfg.
  vm_compute. intros [= <- _]. exists [high; low], two_entries.
  split_and!; [reflexivity|apply two_entries_ok|apply high_low_nodup|by repeat constructor|].
  apply high_low_disjoint.
Qed.

Definition described_router : ClusterRouter unit :=
  {| nodes := tt; slot_map := two_nodes; config := default_config;
     read_from_replicas := true |}.

Lemma described_new :
  new (H := release64) (H0 := exact_bytes) (H1 := described) tt [(bs "a", 1)] default_config true
  = Ok described_router.
Proof. vm_compute. reflexivity. Qed.

Lemma slot_map_stays_wf_witness :
  wf_map (slot_map (background_refresh (H := release64) (H0 := exact_bytes) (H1 := described)
    (H2 := in_list_order) described_router)).
Proof.
  apply (slot_map_stays_wf (H := release64) (H0 := exact_bytes) (H1 := described)
    (H2 := in_list_order) tt [(bs "a", 1)] default_config true described_router).
  - apply described_consistent.
  - apply described_new.
  - apply atomic_background.
Defined.

Lemma command_reaches_owner_witness :
  fst (execute_routed (H1 := described) [bs "GET"; bs "bar"] described_router) =
  Ok (SimpleString (bs "c:3")).
Proof.
  destruct (command_reaches_owner (H1 := described) described_router (bs "GET") [bs "bar"]
    (bs "bar") 5061) as [Ho _]; [apply two_nodes_wf|reflexivity|vm_compute; reflexivity|].
  destruct (Ho low) as (a & -> & Ha); [apply list_elem_of_here|vm_compute; by split|by repeat constructor|].
  apply list_elem_of_singleton in Ha as ->. reflexivity.
Defined.

(** ** Arguments taken for keys *)

(** The cursor of SCAN is at the place of a key: the calls of one iteration over a
    cluster go to different nodes, although a cursor means something only to the node
    that gave it. *)
Example scan_changes_nodes :
  route described_router [bs "SCAN"; bs "0"] = Ok (bs "b:2") /\
  route described_router [bs "SCAN"; bs "28"] = Ok (bs "c:3").
Proof. by vm_compute. Qed.
