(* ===== verification/ClusterPools.v ===== *)
(** The cluster router over real pools (src/router/cluster.rs with
    src/connection/pool.rs): no operation leaks or mints permits, whatever
    redirections, errors and groups it goes through, and a command makes the trip
    from its key to the bytes on a pooled connection and back. *)

From Stdlib Require Import Strings.Byte.
From stdpp Require Import gmap.
From S2P Require Import Prelude RustStd Utf8 RustStr Error Types Parser ParserFacts ParserProps.
From S2P Require Import Wire Writer Crc16 Config Tcp TcpProps Pool Standalone Cluster ClusterProps.
From S2P Require Import ClusterTopology.

(** * Permits *)

(** Guards on the pool of [a] among the addresses of the guards in use. *)
Definition guards_on (a : bytes) (held : list bytes) : Z := len (filter (a =.) held).

(** Each pool's free permits and the guards in use on it make up its size; a
    guard is on a listed pool, or on one that cannot be listed. *)
Record balanced (n : Nodes) (held : list bytes) : Prop := {
  balance a p : pools n !! a = Some p -> permits (rpool p) + guards_on a held = pool_size (base n);
  listed a : a ∈ held -> is_Some (pools n !! a) \/ rsplit_once ":" a = None
}.

Lemma guards_on_cons a b held :
  guards_on a (b :: held) = guards_on a held + if decide (a = b) then 1 else 0.
Proof. unfold guards_on. rewrite filter_cons. repeat case_decide; (done || len_lia). Qed.

Lemma guards_on_none a held : a ∉ held -> guards_on a held = 0.
Proof.
  intros Ha. unfold guards_on. induction held as [|b held IH]; [done|].
  apply not_elem_of_cons in Ha as [Hb Ha]. rewrite filter_cons, decide_False by done. auto.
Qed.

(** A node that has not been used. *)
Lemma unused_balanced n : pools n = ∅ -> balanced n [].
Proof.
  intros Hp. constructor; intros a; [rewrite Hp, lookup_empty; done|].
  by intros ?%not_elem_of_nil.
Qed.

(** Changing a listed pool. *)
Lemma balanced_put n held held' a p p' :
  balanced n held -> pools n !! a = Some p ->
  permits (rpool p') + guards_on a held' = permits (rpool p) + guards_on a held ->
  (forall b, b <> a -> guards_on b held' = guards_on b held) ->
  (forall b, b ∈ held' -> b = a \/ b ∈ held) ->
  balanced (put_pool a p' n) held'.
Proof.
  intros [Hb Hl] Ha Hp Ho Hs. unfold put_pool. rewrite Ha. constructor; cbn.
  - intros b q. destruct (decide (b = a)) as [->|Hne].
    + rewrite lookup_insert_eq. intros [= <-]. rewrite Hp. by apply Hb.
    + rewrite lookup_insert_ne by done. rewrite Ho by done. apply Hb.
  - intros b Hin. destruct (Hs b Hin) as [->|Hin']; [left; rewrite lookup_insert_eq; eauto|].
    destruct (Hl b Hin') as [Hlb|]; [|by right]. left.
    destruct (decide (b = a)) as [->|]; [rewrite lookup_insert_eq; eauto|by rewrite lookup_insert_ne].
Qed.

Lemma ensure_balanced a n held : balanced n held -> balanced (ensure_pool_for a n) held.
Proof.
  intros [Hb Hl]. unfold ensure_pool_for. destruct (pools n !! a) as [q|] eqn:Ha; [done|].
  destruct (rsplit_once ":" a) as [[h p]|] eqn:Hr; [|done].
  assert (a ∉ held) as Hna.
  { intros Hin. destruct (Hl a Hin) as [[q Hq]|Hq]; congruence. }
  constructor; cbn.
  - intros b q. destruct (decide (b = a)) as [->|Hne].
    + rewrite lookup_insert_eq. intros [= <-]. cbn. rewrite guards_on_none by done. cbn. lia.
    + rewrite lookup_insert_ne by done. apply Hb.
  - intros b Hin. destruct (Hl b Hin) as [[q Hq]|]; [|by right]. left.
    rewrite lookup_insert_ne by (intros ->; congruence). eauto.
Qed.

Lemma get_pool_spec a n p n' :
  get_pool a n = (p, n') ->
  (n' = n \/ n' = ensure_pool_for a n) /\
  (pools n' !! a = Some p \/ (pools n' !! a = None /\ rsplit_once ":" a = None)).
Proof.
  unfold get_pool. destruct (pools n !! a) as [q|] eqn:Ha.
  { intros [= <- <-]. auto. }
  intros [= <- <-]. split; [by right|].
  destruct (pools (ensure_pool_for a n) !! a) as [q|] eqn:He; [by left|right].
  split; [done|]. unfold ensure_pool_for in He. rewrite Ha in He.
  destruct (rsplit_once ":" a) as [[h p]|]; [|done]. cbn in He. by rewrite lookup_insert_eq in He.
Qed.

Section pools.
Context `{Target} `{BytesMut}.
Abbreviation Guard := (bytes * RedisConnection)%type.
Abbreviation node_io := (stm (ClusterRouter Nodes) PyrsedisError).

Lemma pool_get_balanced a n held got n' :
  balanced n held -> pool_get a n = (got, n') ->
  match got with
  | Ok g => g.1 = a /\ balanced n' (a :: held)
  | Err _ => balanced n' held
  | Panic _ => True
  end.
Proof.
  intros Hb. unfold pool_get. destruct (get_pool a n) as [p n1] eqn:Hg.
  apply get_pool_spec in Hg as [Hn1 Hp].
  assert (balanced n1 held) as Hb1
    by (destruct Hn1 as [->| ->]; [done|by apply ensure_balanced]).
  destruct (_ <=? 0); [by intros [= <- _]|].
  destruct (checkout (pool_at (clock n1) p)) as [o p2] eqn:Hc.
  apply checkout_permits in Hc as (_ & _ & _ & Hperm). cbn in Hperm.
  intros [= <- <-]. destruct Hp as [Hp|[Hp Hcolon]].
  - destruct o as [c|e|q]; cbn; [split; [done|]| |done].
    + eapply balanced_put; [exact Hb1|exact Hp|..].
      * rewrite guards_on_cons, decide_True by done. lia.
      * intros b Hne. rewrite guards_on_cons, decide_False by done. lia.
      * intros b [->|?]%elem_of_cons; auto.
    + eapply balanced_put; [exact Hb1|exact Hp|lia|done|auto].
  - unfold put_pool. rewrite Hp. destruct o as [c|e|q]; cbn; [split; [done|]|done|done].
    destruct Hb1 as [Hbal Hl]. constructor.
    + intros b q Hq. rewrite guards_on_cons, decide_False by (intros ->; congruence).
      rewrite Z.add_0_r. by apply Hbal.
    + intros b [->|?]%elem_of_cons; auto.
Qed.

Lemma pool_drop_balanced (g : Guard) n held :
  balanced n (g.1 :: held) -> balanced (pool_drop g n) held.
Proof.
  intros Hb. unfold pool_drop. destruct (pools n !! g.1) as [p|] eqn:Hp.
  - eapply balanced_put; [exact Hb|exact Hp|..].
    + cbn. rewrite (proj1 (return_permits _ _ _)), guards_on_cons, decide_True by done. lia.
    + intros b Hne. rewrite guards_on_cons, decide_False by done. lia.
    + intros b Hin. right. by apply list_elem_of_further.
  - destruct Hb as [Hbal Hl]. constructor.
    + intros b q Hq. specialize (Hbal b q Hq).
      rewrite guards_on_cons, decide_False in Hbal by (intros ->; congruence). lia.
    + intros b Hin. apply Hl. by apply list_elem_of_further.
Qed.

(** ** Operations *)

Definition returned {E A} (o : res E A) : Prop := match o with Panic _ => False | _ => True end.

Lemma returned_not_hung {E A} (o : res E A) : returned o -> hangs o = false.
Proof. by destruct o as [| |[]]. Qed.

(** An operation that returns leaves as many permits as it found, whatever guards
    its caller holds. *)
Definition conserves {A} (m : node_io A) : Prop :=
  forall held r o r', balanced (nodes r) held -> m r = (o, r') -> returned o ->
    balanced (nodes r') held.

(** I/O under a guard stays on the guard's connection. *)
Definition stays {A} (m : stm Guard PyrsedisError A) : Prop :=
  forall g o g', m g = (o, g') -> g'.1 = g.1.

Lemma stays_send data : stays (t_send data).
Proof. intros [a c] o g'. cbn. destruct (send_raw data c). by intros [= _ <-]. Qed.
Lemma stays_recv : stays t_recv.
Proof. intros [a c] o g'. cbn [t_recv pooled_nodes]. destruct (read_response c). by intros [= _ <-]. Qed.
Lemma stays_lift {A} (x : Result A) : stays (lift x).
Proof. by intros g o g' [= _ <-]. Qed.
Lemma stays_bind {A B} (m : stm Guard PyrsedisError A) (f : A -> stm Guard PyrsedisError B) :
  stays m -> (forall a, stays (f a)) -> stays (sbind m f).
Proof.
  intros Hm Hf g o g'. unfold sbind. destruct (m g) as [[a|e|p] g1] eqn:E; apply Hm in E.
  - intros Hg. rewrite (Hf a g1 o g' Hg). exact E.
  - by intros [= _ <-].
  - by intros [= _ <-].
Qed.
#[local] Hint Resolve stays_send stays_recv stays_lift stays_bind : core.

Lemma stays_round_trip args : stays (round_trip args).
Proof. unfold round_trip. auto. Qed.
#[local] Hint Resolve stays_round_trip : core.
Lemma stays_asking args : stays (asking args).
Proof. unfold asking. auto. Qed.
#[local] Hint Resolve stays_asking : core.
Lemma stays_send_group group : stays (send_group group).
Proof. induction group as [|[i cmd] group IH]; cbn [send_group]; auto. Qed.
#[local] Hint Resolve stays_send_group : core.

Lemma conserves_lift {A} (x : Result A) : conserves (lift x).
Proof. by intros held r o r' Hb [= _ <-] _. Qed.

Lemma conserves_bind {A B} (m : node_io A) (f : A -> node_io B) :
  conserves m -> (forall a, conserves (f a)) -> conserves (sbind m f).
Proof.
  intros Hm Hf held r o r' Hb. unfold sbind. destruct (m r) as [[a|e|p] r1] eqn:E.
  - intros Hr Ho. eapply Hf; [|exact Hr|exact Ho]. by eapply Hm.
  - intros [= <- <-] _. by eapply Hm.
  - by intros [= <- _] [].
Qed.

Lemma conserves_moved slot addr : conserves (moved slot addr).
Proof. by intros held r o r' Hb [= _ <-] _. Qed.

Lemma conserves_sleep ms : conserves (sleep ms).
Proof. intros held r o r' [Hb Hl] [= _ <-] _. by constructor. Qed.

Lemma conserves_with_node {A} addr (body : stm Guard PyrsedisError A) :
  stays body -> conserves (with_node addr body).
Proof.
  intros Hs held r o r' Hb. unfold with_node. change (t_get addr) with (pool_get addr).
  destruct (pool_get addr (nodes r)) as [got n] eqn:Hg.
  pose proof (pool_get_balanced _ _ _ _ _ Hb Hg) as Hn.
  destruct got as [g|e|p]; [|by intros [= <- <-]|by intros [= <- _] []].
  destruct Hn as [Ha Hn]. destruct (body g) as [res g'] eqn:Hbody. apply Hs in Hbody.
  intros [= <- <-] Ho%returned_not_hung. cbn. rewrite Ho. apply pool_drop_balanced.
  by rewrite Hbody, Ha.
Qed.
#[local] Hint Resolve conserves_lift conserves_bind conserves_moved conserves_sleep
  conserves_with_node : core.

Lemma conserves_execute_on addr args k : conserves (execute_on addr args k).
Proof.
  revert addr. induction k as [|k IH]; intros addr; cbn [execute_on];
    (apply conserves_bind; [auto|]); intros v; destruct v as [|msg| | | | | | | | | | | | |]; auto;
    destruct (fst (RedisErrorKind.from_error_msg msg)); auto.
Qed.
#[local] Hint Resolve conserves_execute_on : core.

Lemma conserves_redirected cmd resp : conserves (redirected cmd resp).
Proof.
  unfold redirected. destruct resp as [|msg| | | | | | | | | | | | |]; auto.
  destruct (fst (RedisErrorKind.from_error_msg msg)); auto.
Qed.

Lemma conserves_execute_routed args : conserves (execute_routed args).
Proof.
  unfold execute_routed. destruct args as [|cmd args]; auto.
  intros held r o r' Hb. destruct (slot_of _) as [slot|e|p].
  - case_bool_decide; [by intros [= _ <-]|]. intros Hr Ho. by eapply conserves_execute_on.
  - by intros [= _ <-].
  - by intros [= <- _] [].
Qed.

Lemma read_group_balanced group results held (g : Guard) r o g' r' :
  balanced (nodes r) (g.1 :: held) ->
  read_group group results (g, r) = (o, (g', r')) -> returned o ->
  g'.1 = g.1 /\ balanced (nodes r') (g.1 :: held).
Proof.
  revert results g r. induction group as [|[i cmd] group IH]; intros results g r Hb.
  { by intros [= <- <- <-] _. }
  cbn [read_group]. unfold sbind, on_guard, on_router.
  destruct (t_recv g) as [[v|e|p] g1] eqn:Hv; apply stays_recv in Hv;
    [|by intros [= <- <- <-] _|by intros [= <- _] []].
  destruct (redirected cmd v r) as [[w|e|p] r1] eqn:Hw; [| |by intros [= <- _] []].
  - intros Hr Ho. rewrite <- Hv. eapply IH; [|exact Hr|exact Ho].
    rewrite Hv. by eapply conserves_redirected.
  - intros [= <- <- <-] _. split; [done|]. by eapply conserves_redirected.
Qed.

Lemma conserves_run_group results addr group : conserves (run_group results addr group).
Proof.
  unfold run_group. case_bool_decide; [auto|]. intros held r o r' Hb.
  change (t_get addr) with (pool_get addr).
  destruct (pool_get addr (nodes r)) as [got n] eqn:Hg.
  pose proof (pool_get_balanced _ _ _ _ _ Hb Hg) as Hn.
  destruct got as [g|e|p]; [|by intros [= <- <-]|by intros [= <- _] []].
  destruct Hn as [Ha Hn]. unfold sbind, on_guard.
  destruct (send_group group g) as [[[]|e|p] g1] eqn:Hs; apply stays_send_group in Hs.
  - destruct (read_group group results (g1, set_nodes n r)) as [res [g2 r2]] eqn:Hr.
    intros [= <- <-] Ho. rewrite (returned_not_hung _ Ho). subst addr.
    destruct (read_group_balanced group results held g1 (set_nodes n r) res g2 r2) as [H2 Hb2];
      [by rewrite Hs|done|done|]. apply pool_drop_balanced. by rewrite H2.
  - intros [= <- <-] _. apply pool_drop_balanced. by rewrite Hs, Ha.
  - by intros [= <- _] [].
Qed.
#[local] Hint Resolve conserves_run_group : core.

Lemma conserves_run_groups groups results : conserves (run_groups groups results).
Proof.
  revert results. induction groups as [|[addr group] groups IH]; intros results; cbn [run_groups];
    auto.
Qed.
#[local] Hint Resolve conserves_run_groups : core.

Lemma conserves_pipeline `{HashOrder} cmds : conserves (pipeline cmds).
Proof.
  intros held r o r' Hb. unfold pipeline. destruct (group_by_node r 0 cmds ∅) as [gs|e|p].
  - intros Hr Ho. eapply (conserves_bind _ (fun rs => lift (Ok (map (default Null) rs))));
      [auto|auto|exact Hb|exact Hr|exact Ho].
  - by intros [= _ <-].
  - by intros [= <- _] [].
Qed.

(** ** Discovery *)

Lemma ensure_all_balanced m n held : balanced n held -> balanced (ensure_all m n) held.
Proof.
  unfold ensure_all. generalize (ranges m) as rs. intros rs. revert n.
  induction rs as [|r rs IH]; intros n Hb; [done|]. apply IH. clear IH rs.
  apply (ensure_balanced (master r)) in Hb. change (ensure_pool_for (master r) n) with
    (t_ensure (master r) n) in Hb. revert Hb. generalize (t_ensure (master r) n) as n1.
  induction (replicas r) as [|a reps IH]; intros n1 Hb; [done|]. apply IH, ensure_balanced, Hb.
Qed.

(** Refreshing the map touches no permit, even when it fails or hangs. *)
Lemma refresh_balanced addr held r :
  balanced (nodes r) held -> balanced (nodes (refresh_slots_from addr r).2) held.
Proof.
  intros Hb. unfold refresh_slots_from, sbind.
  assert (balanced (nodes (cluster_slots addr r).2) held) as Hq.
  { unfold cluster_slots. cbn [t_dial pooled_nodes]. destruct (seed_dials (nodes r)); [exact Hb|].
    cbn. destruct Hb as [Hbal Hl]. by constructor. }
  destruct (cluster_slots addr r) as [[resp|e|p] r1]; cbn in Hq |- *; [|done..].
  destruct (from_cluster_slots resp) as [m|e|p]; cbn; [|done..]. by apply ensure_all_balanced.
Qed.

Lemma try_seeds_balanced seeds last_err held r :
  balanced (nodes r) held -> balanced (nodes (try_seeds seeds last_err r).2) held.
Proof.
  revert last_err r. induction seeds as [|[h p] seeds IH]; intros last_err r Hb; cbn [try_seeds].
  { by destruct last_err. }
  pose proof (refresh_balanced (h ++ bs ":" ++ to_string p) held r Hb) as Hr.
  destruct (refresh_slots_from _ r) as [[[]|e|q] r1]; [done|by apply IH|done].
Qed.

(** * Runs *)

Context `{HashOrder}.

(** What happens to a router: a command, a batch, a turn of the background
    task. *)
Inductive Call :=
| Command (args : list bytes)
| Batch (cmds : list (list bytes))
| Background.

Definition perform (c : Call) : node_io unit :=
  match c with
  | Command args => let! _ := execute_routed args in lift (Ok tt)
  | Batch cmds => let! _ := pipeline cmds in lift (Ok tt)
  | Background => modify background_refresh
  end.

Lemma conserves_perform c : conserves (perform c).
Proof.
  destruct c as [args|cmds|]; cbn [perform].
  - apply conserves_bind; [apply conserves_execute_routed|auto].
  - apply conserves_bind; [apply conserves_pipeline|auto].
  - intros held r o r' Hb [= _ <-] _. unfold background_refresh.
    assert (balanced (t_sleep SLOT_REFRESH_INTERVAL (nodes r)) held) as Hs
      by (destruct Hb as [Hbal Hl]; by constructor).
    destruct (head _); [by apply refresh_balanced|done].
Qed.

Lemma run_conserves calls held r rs r' :
  balanced (nodes r) held -> run_all (map perform calls) r = (rs, r') -> Forall returned rs ->
  balanced (nodes r') held.
Proof.
  revert r rs. induction calls as [|c calls IH]; intros r rs Hb; cbn [map run_all].
  { by intros [= _ <-]. }
  destruct (perform c r) as [o r1] eqn:Hc.
  destruct (run_all (map perform calls) r1) as [os r2] eqn:Hr.
  intros [= <- <-] [Ho Hos]%Forall_cons. eapply IH; [|exact Hr|exact Hos].
  by eapply conserves_perform.
Qed.

(** C23: The cluster router never leaks or mints permits: from its creation, after
    any calls that returned (with a reply or an error, after any redirections,
    through any groups of a batch, between refreshes of the map), every node's
    pool has all its permits again. *)
Theorem cluster_conserves_permits n seeds cfg reps calls r rs r' :
  pools n = ∅ -> new n seeds cfg reps = Ok r ->
  run_all (map perform calls) r = (rs, r') -> Forall returned rs ->
  forall a p, pools (nodes r') !! a = Some p -> permits (rpool p) = pool_size (base (nodes r')).
Proof.
  intros Hn Hnew Hr Hrs a p Ha.
  assert (balanced (nodes r) []) as Hb.
  { unfold new in Hnew. case_bool_decide; [done|].
    match type of Hnew with context [try_seeds seeds None ?r0] =>
      pose proof (try_seeds_balanced seeds None [] r0 (unused_balanced n Hn)) as Hb;
      destruct (try_seeds seeds None r0) as [[[]|e|q] r1] end; [|done..].
    cbn in Hnew, Hb. by injection Hnew as <-. }
  destruct (run_conserves calls [] r rs r' Hb Hr Hrs) as [Hbal _].
  specialize (Hbal a p Ha). change (guards_on a []) with 0 in Hbal. lia.
Qed.

(** * A command from its key to the wire and back *)

(** Taking a connection from a listed pool that has an idle one. *)
Lemma pool_get_idle a n p c rest :
  pools n !! a = Some p -> 0 < permits (rpool p) ->
  take_healthy_connection (clock n) (idle_timeout (rpool p)) (idle (rpool p)) = (Some c, rest) ->
  pool_get a n = (Ok (a, at_time (clock n) c),
    set_pools (<[a := set_rpool (set_idle rest (add_permits (-1) (rpool p))) (dials p)
                        (pool_at (clock n) p)]> (pools n)) n).
Proof.
  intros Hp Hperm Ht. unfold pool_get, get_pool. rewrite Hp.
  cbn [rpool pool_at]. rewrite (proj2 (Z.leb_gt _ _)) by lia.
  unfold checkout. cbn [rpool pool_at time idle_timeout idle add_permits dials]. rewrite Ht.
  cbn. unfold put_pool. by rewrite Hp.
Qed.

(** C22: A command with a key that is not a read for a replica, end to end: when the
    slot map is well formed and the master of the slot's range has a permit and an idle
    connection that is not stale, whose writes succeed and whose next bytes encode [v],
    in any pieces within the limits of the buffer, [v] not being a redirection, then
    exactly the encoding of the command is sent on that connection, [v] is returned,
    and the connection goes back to that master's pool with the reply consumed; no
    other pool changes, nor the slot map. *)
Theorem cluster_end_to_end r cmd args k s rng p c rest v w extra :
  wf_map (slot_map r) -> extract_key (cmd :: args) = Some k ->
  hash_slot k = @Ok PyrsedisError Z s -> rng ∈ ranges (slot_map r) -> covers rng s ->
  master rng <> [] -> is_read_only_command cmd && read_from_replicas r = false ->
  pools (nodes r) !! master rng = Some p -> 0 < permits (rpool p) ->
  take_healthy_connection (clock (nodes r)) (idle_timeout (rpool p)) (idle (rpool p)) =
    (Some c, rest) ->
  writes c = [] -> Forall delivers (inbox c) -> stream c = w ++ extra -> wire v w ->
  size_of_pair * (1 + len (w ++ extra)) <= ISIZE_MAX -> len w + 4096 <= max_buf_size c ->
  is_redirect v = false ->
  exists c' r', execute_routed (cmd :: args) r = (Ok v, r') /\
    sent c' = sent c ++ encode_command (cmd :: args) /\ stream c' = extra /\
    slot_map r' = slot_map r /\
    (exists p', pools (nodes r') !! master rng = Some p' /\
       rpool p' = add_permits 1 (return_connection (clock (nodes r)) c'
                    (set_idle rest (add_permits (-1) (rpool p))))) /\
    forall b, b <> master rng -> pools (nodes r') !! b = pools (nodes r) !! b.
Proof.
  intros Hwf Hk Hs Hin Hc Hne Hrd Hp Hperm Ht Hwr Hd Hst Hw Hm Hmax Hv.
  set (a := master rng) in *.
  assert (execute_routed (cmd :: args) r = execute_on a (cmd :: args) MAX_REDIRECTS r) as ->.
  { unfold execute_routed, slot_of, target. rewrite Hk, Hs. cbn [bind]. rewrite Hrd.
    rewrite master_for_slot_range, (proj2 (range_for_slot_spec _ s rng Hwf)) by done.
    change (default [] (master <$> Some rng)) with a. by rewrite bool_decide_false. }
  set (t := clock (nodes r)).
  destruct (Tcp.execute (cmd :: args) (at_time t c)) as [o c'] eqn:He.
  pose proof (execute_stream (cmd :: args) v w extra (at_time t c) Hw Hm Hwr Hst Hd) as Ho.
  pose proof (execute_session (cmd :: args) v w extra (at_time t c) Hw Hm Hwr Hst Hd) as Hsent.
  rewrite He in Ho, Hsent. cbn [fst snd] in Ho, Hsent.
  destruct Ho as [[-> Hc']|[_ Hover]]; [|cbn in Hover; lia].
  assert (with_node a (round_trip (cmd :: args)) r =
    (Ok v, set_nodes (pool_drop (a, c') (pool_get a (nodes r)).2) r)) as Hwn.
  { unfold with_node. change (t_get a) with (pool_get a).
    rewrite (pool_get_idle a (nodes r) p c rest Hp Hperm Ht). cbn [snd]. fold t.
    assert (round_trip (cmd :: args) (a, at_time t c) = (Ok v, (a, c'))) as ->; [|done].
    unfold round_trip, sbind. cbn [t_send t_recv pooled_nodes].
    unfold Tcp.execute, sbind in He. unfold encode_command_str.
    destruct (send_raw _ (at_time t c)) as [[[]|e|q] c1]; [|done..]. by rewrite He. }
  exists c'. eexists. split.
  { unfold MAX_REDIRECTS. cbn [execute_on]. rewrite (sbind_ok _ _ _ _ _ Hwn).
    destruct v as [|msg| | | | | | | | | | | | |]; try reflexivity.
    cbn in Hv. by destruct (fst (RedisErrorKind.from_error_msg msg)). }
  rewrite (pool_get_idle a (nodes r) p c rest Hp Hperm Ht). cbn [snd].
  unfold pool_drop. cbn [fst snd pools set_pools]. rewrite lookup_insert_eq.
  unfold put_pool. cbn [pools set_pools]. rewrite lookup_insert_eq.
  split_and!; [exact Hsent|exact Hc'|done| |].
  - eexists. cbn. rewrite lookup_insert_eq. by split.
  - intros b Hb. cbn. by rewrite !lookup_insert_ne by done.
Qed.
End pools.

(** * The theorems at a concrete cluster *)

(** Nodes that answer PONG to the first command of every connection, and a seed
    that knows the map. *)
Definition cold : Nodes :=
  {| pools := ∅; base := default_config;
     network := fun _ => [Connected [Data pong_frame; Data pong_frame] [] 0];
     seed_dials := [Connected [Data slots_wire] [] 0]; clock := 0 |}.

Definition release_nodes : Transport Nodes (bytes * RedisConnection) :=
  pooled_nodes (H := release64) (H0 := exact_bytes).

Definition calls : list Call :=
  [Command [bs "GET"; bs "bar"]; Background; Batch [[bs "GET"; bs "foo"]; [bs "GET"; bs "bar"]]].

Definition started : ClusterRouter Nodes :=
  match new (H := release64) (H0 := exact_bytes) (H1 := release_nodes) cold [(bs "a", 1)]
          default_config false with
  | Ok r => r
  | _ => {| nodes := cold; slot_map := {| ranges := [] |}; config := default_config;
            read_from_replicas := false |}
  end.

Definition after_calls : list (Result unit) * ClusterRouter Nodes :=
  run_all (map (perform (H := release64) (H0 := exact_bytes) (H1 := in_list_order)) calls) started.

Lemma started_new :
  new (H := release64) (H0 := exact_bytes) (H1 := release_nodes) cold [(bs "a", 1)]
    default_config false = Ok started.
Proof. vm_compute. reflexivity. Qed.

Lemma calls_return : after_calls.1 = [Ok tt; Ok tt; Ok tt].
Proof. vm_compute. reflexivity. Qed.

Lemma cluster_conserves_permits_witness :
  exists p, pools (nodes after_calls.2) !! bs "a:1" = Some p /\
    permits (rpool p) = pool_size (base (nodes after_calls.2)).
Proof.
  destruct (pools (nodes after_calls.2) !! bs "a:1") as [p|] eqn:Hp;
    [|vm_compute in Hp; discriminate].
  exists p. split; [done|].
  apply (cluster_conserves_permits (H := release64) (H0 := exact_bytes) (H1 := in_list_order)
    cold [(bs "a", 1)] default_config false calls started after_calls.1 after_calls.2 eq_refl
    started_new (surjective_pairing after_calls)) with (a := bs "a:1"); [|exact Hp].
  rewrite calls_return. by repeat constructor.
Defined.

Definition warm : ClusterRouter Nodes :=
  {| nodes := {| pools := {[ bs "a:1" := one_idle (test_conn [Data (take 3 pong_frame);
                                                             Data (drop 3 pong_frame)]) ]};
                 base := default_config; network := fun _ => []; seed_dials := []; clock := 0 |};
     slot_map := two_nodes; config := default_config; read_from_replicas := false |}.

Lemma cluster_end_to_end_witness :
  fst (execute_routed (H1 := release_nodes) [bs "GET"; bs "bar"] warm) = Ok (SimpleString (bs "PONG")).
Proof.
  unfold release_nodes. destruct (cluster_end_to_end (H := release64) (H0 := exact_bytes) warm (bs "GET") [bs "bar"]
    (bs "bar") 5061 low (one_idle (test_conn [Data (take 3 pong_frame); Data (drop 3 pong_frame)]))
    (test_conn [Data (take 3 pong_frame); Data (drop 3 pong_frame)]) []
    (SimpleString (bs "PONG")) pong_frame []) as (c' & r' & -> & _);
    [apply two_nodes_wf|reflexivity|vm_compute; reflexivity|apply list_elem_of_here
    |vm_compute; by split|done|reflexivity|vm_compute; reflexivity|reflexivity|reflexivity
    |reflexivity|by repeat constructor|reflexivity|apply wire_PONG|vm_compute; discriminate
    |vm_compute; discriminate|reflexivity|reflexivity].
Defined.
