(* ===== verification/Redirects.v ===== *)
(** The redirections of a cluster (src/router/cluster.rs, [execute_on] and
    [pipeline]): every way in which a node can send a command elsewhere or put it
    off, alone and one after the other, with the number of attempts bounded; and
    what holding a connection while following a redirection can lead to. *)

From Stdlib Require Import Strings.Byte.
From stdpp Require Import gmap.
From S2P Require Import Prelude RustStd Error Types Parser Wire Writer Config Tcp Pool.
From S2P Require Import Standalone Cluster ClusterProps ClusterPools.

(** * The ways of a command *)

(** A reply that makes the router try again: at another node, or at the same
    after a pause. *)
Inductive Hop :=
| MovedTo (slot : Z) (next : bytes)
| Later (msg : bytes).

(** How the last attempt ends. *)
Inductive Outcome :=
| Answered (v : RespValue)
| AskedAt (next : bytes) (v : RespValue)
| Down (msg : bytes).

Section ways.
Context {N G : Type} `{Transport N G} (args : list bytes).
Abbreviation kind msg := (fst (RedisErrorKind.from_error_msg msg)).

(** The command is written on a connection and [v] is the next reply on it. *)
Definition exchange (cmd : list bytes) (v : RespValue) (g g' : G) : Prop :=
  exists g1, t_send (encode_command cmd) g = (Ok tt, g1) /\ t_recv g1 = (Ok v, g').

(** A connection to [addr] is taken, gives [v] as the reply to the command, and is
    given back. *)
Definition replies_at (addr : bytes) (v : RespValue) (r r1 : ClusterRouter N) : Prop :=
  exists g g' n, t_get addr (nodes r) = (Ok g, n) /\ exchange args v g g' /\
    r1 = set_nodes (t_drop g' n) r.

(** The same, with ASKING written, and any reply to it read, before the command. *)
Definition asked_at (addr : bytes) (v : RespValue) (r r1 : ClusterRouter N) : Prop :=
  exists g g1 g2 n ok, t_get addr (nodes r) = (Ok g, n) /\
    exchange [bs "ASKING"] ok g g1 /\ exchange args v g1 g2 /\
    r1 = set_nodes (t_drop g2 n) r.

(** The state after a hop. *)
Definition hopped (h : Hop) (r : ClusterRouter N) : ClusterRouter N :=
  match h with
  | MovedTo slot next => set_slot_map (update_slot_master slot next (slot_map r)) r
  | Later _ => set_nodes (t_sleep 50 (nodes r)) r
  end.

Definition hop_addr (addr : bytes) (h : Hop) : bytes :=
  match h with MovedTo _ next => next | Later _ => addr end.

(** The way of the command from [addr] in [r]: its hops, how it ends, and the
    state it ends in. *)
Inductive way : bytes -> ClusterRouter N -> list Hop -> Outcome -> ClusterRouter N -> Prop :=
| way_answered addr r v r1 :
    replies_at addr v r r1 -> is_redirect v = false -> way addr r [] (Answered v) r1
| way_down addr r msg r1 :
    replies_at addr (Error msg) r r1 -> kind msg = RedisErrorKind.ClusterDown ->
    way addr r [] (Down msg) r1
| way_asked addr r msg slot next v r1 r2 :
    replies_at addr (Error msg) r r1 -> kind msg = RedisErrorKind.Ask slot next ->
    asked_at next v r1 r2 -> way addr r [] (AskedAt next v) r2
| way_moved addr r msg slot next r1 hops o r2 :
    replies_at addr (Error msg) r r1 -> kind msg = RedisErrorKind.Moved slot next ->
    way next (hopped (MovedTo slot next) r1) hops o r2 ->
    way addr r (MovedTo slot next :: hops) o r2
| way_later addr r msg r1 hops o r2 :
    replies_at addr (Error msg) r r1 -> kind msg = RedisErrorKind.TryAgain ->
    way addr (hopped (Later msg) r1) hops o r2 -> way addr r (Later msg :: hops) o r2.

(** What the caller gets at the end of the way; the reply after an ASK is final,
    even if it is a redirection. *)
Definition outcome (o : Outcome) : Result RespValue :=
  match o with
  | Answered v | AskedAt _ v => Ok v
  | Down msg => Err (Error.Cluster msg)
  end.

(** An ASK takes a redirection too. *)
Definition cost (o : Outcome) : nat := match o with AskedAt _ _ => 1 | _ => 0 end.

(** The error when the redirections run out at a hop, or at an ASK. *)
Definition exhausted (hops : list Hop) (k : nat) : Result RespValue :=
  match hops !! k with
  | Some (MovedTo _ _) => cluster_err "too many MOVED redirects"
  | Some (Later msg) => Err (redis msg)
  | None => cluster_err "too many ASK redirects"
  end.

(** The masters learned on the way. *)
Definition learned (hops : list Hop) (m : SlotMap) : SlotMap :=
  fold_left (fun m h => match h with
                        | MovedTo slot next => update_slot_master slot next m
                        | Later _ => m
                        end) hops m.

Lemma with_node_map {A} addr (body : stm G PyrsedisError A) r o r1 :
  with_node addr body r = (o, r1) -> slot_map r1 = slot_map r.
Proof.
  unfold with_node. destruct (t_get addr (nodes r)) as [[g|e|p] n]; [|by intros [= _ <-]..].
  destruct (body g). by intros [= _ <-].
Qed.

Lemma round_trip_exchange cmd v g g' : exchange cmd v g g' -> round_trip cmd g = (Ok v, g').
Proof.
  intros (g1 & Hs & Hr). unfold round_trip. rewrite (sbind_ok _ _ _ _ _ Hs). exact Hr.
Qed.

Lemma with_node_replies addr v r r1 :
  replies_at addr v r r1 -> with_node addr (round_trip args) r = (Ok v, r1).
Proof.
  intros (g & g' & n & Hg & He & ->). unfold with_node.
  by rewrite Hg, (round_trip_exchange _ _ _ _ He).
Qed.

Lemma with_node_asked addr v r r1 :
  asked_at addr v r r1 -> with_node addr (asking args) r = (Ok v, r1).
Proof.
  intros (g & g1 & g2 & n & ok & Hg & Ha & He & ->). unfold with_node, asking.
  by rewrite Hg, (sbind_ok _ _ _ _ _ (round_trip_exchange _ _ _ _ Ha)),
    (round_trip_exchange _ _ _ _ He).
Qed.

Lemma hopped_map h r : slot_map (hopped h r) = learned [h] (slot_map r).
Proof. by destruct h. Qed.

(** One more redirection, spent on a hop. *)
Lemma execute_on_hop addr r h hops o r2 k :
  way addr r (h :: hops) o r2 ->
  exists r1, slot_map r1 = slot_map r /\
    execute_on addr args 0 r = (exhausted (h :: hops) 0, r1) /\
    execute_on addr args (S k) r = execute_on (hop_addr addr h) args k (hopped h r1) /\
    way (hop_addr addr h) (hopped h r1) hops o r2.
Proof.
  inversion 1 as [| | |? ? msg slot next r1 ? ? ? Hr Hk Hw|? ? msg r1 ? ? ? Hr Hk Hw]; subst;
    apply with_node_replies in Hr; exists r1; (split; [by eapply with_node_map|]);
    cbn [execute_on]; rewrite !(sbind_ok _ _ _ _ _ Hr), Hk; by split_and!.
Qed.

(** C24: How redirections are followed. MOVED and TRYAGAIN, in any order: MOVED to
    the node it names, which becomes the master of the whole range that holds the
    slot; TRYAGAIN after a pause at the same node. The last of them may be an ASK:
    the command goes to the node it names after ASKING was sent there and answered,
    and the reply is returned as it is, even if it is another redirection.
    CLUSTERDOWN is an error at once. Where every reply on the way comes, a way of
    no more redirections than are left gives its outcome, a longer one the error of
    the redirection that is one too many; and the slot map learns exactly the MOVED
    hops that were followed. *)
Theorem redirections_followed addr r hops o r2 k :
  way addr r hops o r2 ->
  exists r', execute_on addr args k r =
      (if (length hops + cost o <=? k)%nat then outcome o else exhausted hops k, r') /\
    slot_map r' = learned (take k hops) (slot_map r) /\
    ((length hops + cost o <= k)%nat -> r' = r2).
Proof.
  revert addr r k. induction hops as [|h hops IH]; intros addr r k Hw.
  - inversion Hw as [? ? v r1 Hr Hv|? ? msg r1 Hr Hk|? ? msg slot next v r1 ? Hr Hk Ha%with_node_asked| |]; subst;
      apply with_node_replies in Hr;
      pose proof (with_node_map _ _ _ _ _ Hr) as Hm;
      destruct k as [|k]; cbn [execute_on]; rewrite (sbind_ok _ _ _ _ _ Hr), ?Hk.
    1-2: exists r2; split; [|done]; destruct v; try done; cbn in Hv;
      by destruct (fst (RedisErrorKind.from_error_msg s)).
    1-2: by exists r2.
    + exists r1. split_and!; [done|done|]. cbn. lia.
    + exists r2. split_and!; [exact Ha| |done]. rewrite <- Hm. by eapply with_node_map.
  - destruct (execute_on_hop addr r h hops o r2 (pred k) Hw) as (r1 & Hm & H0 & HS & Hrest).
    destruct k as [|k].
    { exists r1. split_and!; [exact H0|done|]. cbn. lia. }
    destruct (IH _ _ k Hrest) as (r' & He & Hl & Hr2). exists r'. cbn [pred] in HS.
    rewrite HS, He. split_and!; [done| |intros Hk; apply Hr2; cbn in Hk; lia].
    rewrite Hl, hopped_map, Hm. by destruct h.
Qed.
End ways.

(** * The theorem at a concrete cluster *)

(** Nodes that give the replies of one script, whoever is asked. *)
Definition scripted : Transport (list RespValue) (list RespValue) := {|
  t_get _ n := (Ok n, []);
  t_drop g _ := g;
  t_send _ g := (Ok tt, g);
  t_recv g := match g with v :: g => (Ok v, g) | [] => (Panic Pending, []) end;
  t_dial _ n := (NoAnswer, n);
  t_ensure _ n := n;
  t_addrs _ := [];
  t_sleep _ n := n
|}.

Definition with_script (script : list RespValue) : ClusterRouter (list RespValue) :=
  {| nodes := script; slot_map := two_nodes; config := default_config;
     read_from_replicas := false |}.

Definition get_bar : list bytes := [bs "GET"; bs "bar"].

(** The command is put off, moved, asked for elsewhere and answered there. *)
Definition long_way : ClusterRouter (list RespValue) :=
  with_script [Error (bs "TRYAGAIN"); Error (bs "MOVED 5061 b:2"); Error (bs "ASK 5061 c:3");
               SimpleString (bs "OK"); SimpleString (bs "v")].

Lemma long_way_way : exists r2,
  way (H := scripted) get_bar (bs "a:1") long_way
    [Later (bs "TRYAGAIN"); MovedTo 5061 (bs "b:2")]
    (AskedAt (bs "c:3") (SimpleString (bs "v"))) r2.
Proof.
  eexists. eapply way_later; [by repeat eexists|reflexivity|].
  eapply way_moved; [by repeat eexists|reflexivity|].
  eapply way_asked; [by repeat eexists|reflexivity|by repeat eexists].
Qed.

Lemma redirections_followed_witness :
  fst (execute_on (H1 := scripted) (bs "a:1") get_bar MAX_REDIRECTS long_way) =
    Ok (SimpleString (bs "v")) /\
  fst (execute_on (H1 := scripted) (bs "a:1") get_bar 2 long_way) =
    cluster_err "too many ASK redirects" /\
  fst (execute_on (H1 := scripted) (bs "a:1") get_bar 0 long_way) =
    Err (redis (bs "TRYAGAIN")).
Proof.
  destruct long_way_way as [r2 Hw]. split_and!.
  - by destruct (redirections_followed (H := scripted) _ _ _ _ _ _ MAX_REDIRECTS Hw) as (r' & -> & _).
  - by destruct (redirections_followed (H := scripted) _ _ _ _ _ _ 2 Hw) as (r' & -> & _).
  - by destruct (redirections_followed (H := scripted) _ _ _ _ _ _ 0 Hw) as (r' & -> & _).
Defined.

(** After an ASK nothing more is followed: the node named by the ASK has moved the
    slot, and its MOVED is what the caller gets, with five redirections left. *)
Example asked_reply_is_final :
  fst (execute_on (H1 := scripted) (bs "a:1") get_bar MAX_REDIRECTS
    (with_script [Error (bs "ASK 5061 c:3"); SimpleString (bs "OK"); Error (bs "MOVED 5061 b:2");
                  SimpleString (bs "v")])) =
  Ok (Error (bs "MOVED 5061 b:2")).
Proof. by vm_compute. Qed.

(** * A redirection back to the node whose connection is held *)

Definition error_frame (msg : string) : bytes := header "-" (bs msg) [].

(** A pool of [size] connections, one of them idle; a new one would get PONG. *)
Definition small (size : Z) (c : RedisConnection) : StandaloneRouter :=
  {| rpool := {| idle := [c]; permits := size; max_size := size; idle_timeout := 1000 |};
     rconfig := default_config; dials := [Connected [Data pong_frame] [] 0]; Standalone.time := 0 |}.

(** During a migration [a:1] and [b:2] each name the other as the owner. *)
Definition migrating (size : Z) : ClusterRouter Nodes :=
  {| nodes := {| pools := {[ bs "a:1" := small size (test_conn
                               [Data (error_frame "MOVED 5061 b:2"); Data pong_frame]);
                             bs "b:2" := small size (test_conn
                               [Data (error_frame "MOVED 5061 a:1")]) ]};
                 base := default_config; network := fun _ => []; seed_dials := []; clock := 0 |};
     slot_map := two_nodes; config := default_config; read_from_replicas := false |}.

(** With pools of one connection a single command follows the redirections and is
    answered at the third attempt; the same command as a batch waits for ever, since
    [pipeline] keeps its connection to [a:1] while [execute_on] asks the pool of
    [a:1] for another. With two connections the batch is answered. *)
Example redirect_cycle_blocks_batch :
  fst (execute_routed (H1 := release_nodes) get_bar (migrating 1)) =
    Ok (SimpleString (bs "PONG")) /\
  fst (pipeline (H1 := release_nodes) (H2 := in_list_order) [get_bar] (migrating 1)) =
    Panic Pending /\
  fst (pipeline (H1 := release_nodes) (H2 := in_list_order) [get_bar] (migrating 2)) =
    Ok [SimpleString (bs "PONG")].
Proof. by vm_compute. Qed.

(** * A redirection that fails in the middle of a batch *)

(** [a:1] asks the first command of a batch to go to [c:3], which cannot be reached,
    and answers the second; another connection to [a:1] would get PONG. *)
Definition unreachable_target : ClusterRouter Nodes :=
  {| nodes := {| pools := {[ bs "a:1" := small 2 (test_conn
                               [Data (error_frame "ASK 5061 c:3");
                                Data (header "+" (bs "second") [])]) ]};
                 base := default_config; network := fun _ => [NoAnswer]; seed_dials := [];
                 clock := 0 |};
     slot_map := two_nodes; config := default_config; read_from_replicas := false |}.

(** The batch fails with the timeout of the connection to [c:3], and its guard puts
    the connection to [a:1] back with the second reply unread: the next command on
    that node, whoever sends it, receives it as its own reply. *)
Example failed_redirect_leaves_replies :
  let '(batch, r) := pipeline (H1 := release_nodes) (H2 := in_list_order)
                       [get_bar; [bs "GET"; bs "hello"]] unreachable_target in
  match batch with Err (Timeout _) => True | _ => False end /\
  fst (execute_routed (H1 := release_nodes) [bs "PING"] r) = Ok (SimpleString (bs "second")).
Proof. by vm_compute. Qed.
