(* ===== verification/ClusterLocks.v ===== *)
(** Waiting for connections in a cluster (src/router/cluster.rs over
    src/connection/pool.rs): the permits that concurrent commands and batches take
    and give back, read off the router's own code. A command never holds one permit
    while it waits for another, so commands cannot block each other for ever; a batch
    that is redirected does, and batches can. *)

From Stdlib Require Import Strings.Byte.
From stdpp Require Import gmap relations.
From S2P Require Import Prelude RustStd Error Types Parser Wire Writer Config Tcp Pool.
From S2P Require Import Standalone Cluster ClusterProps.

(** * What an operation does to the permits *)

(** [pool.get().await] and the drop of its guard. *)
Inductive Lock := Got (addr : bytes) | Gave (addr : bytes).

(** Any nodes, with a record of the permits taken and given back. A [get] that fails
    after it got its permit gives it back. *)
Definition traced {N G} (T : Transport N G) : Transport (N * list Lock) (bytes * G) := {|
  t_get addr '(n, tr) :=
    match t_get addr n with
    | (Ok g, n) => (Ok (addr, g), (n, tr ++ [Got addr]))
    | (Err e, n) => (Err e, (n, tr ++ [Got addr; Gave addr]))
    | (Panic p, n) => (Panic p, (n, tr))
    end;
  t_drop '(addr, g) '(n, tr) := (t_drop g n, tr ++ [Gave addr]);
  t_send d '(addr, g) := let '(r, g) := t_send d g in (r, (addr, g));
  t_recv '(addr, g) := let '(r, g) := t_recv g in (r, (addr, g));
  t_dial addr '(n, tr) := let '(o, n) := t_dial addr n in (o, (n, tr));
  t_ensure addr '(n, tr) := (t_ensure addr n, tr);
  t_addrs '(n, _) := t_addrs n;
  t_sleep ms '(n, tr) := (t_sleep ms n, tr)
|}.

(** Permits taken one at a time. *)
Inductive flat : list Lock -> Prop :=
| flat_nil : flat []
| flat_pair a tr : flat tr -> flat (Got a :: Gave a :: tr).

(** Permits taken one at a time, and others one at a time while holding one. *)
Inductive nested : list Lock -> Prop :=
| nested_nil : nested []
| nested_pair a inner tr : flat inner -> nested tr -> nested (Got a :: inner ++ Gave a :: tr).

Lemma flat_app tr tr' : flat tr -> flat tr' -> flat (tr ++ tr').
Proof. induction 1; [done|]. intros. constructor. auto. Qed.

Lemma nested_app tr tr' : nested tr -> nested tr' -> nested (tr ++ tr').
Proof.
  induction 1; [done|]. intros. cbn. rewrite <- app_assoc. cbn. constructor; auto.
Qed.

Section traces.
Context {N G : Type} (T : Transport N G).
Abbreviation router := (ClusterRouter (N * list Lock)).
Abbreviation guard := (bytes * G)%type.
#[local] Existing Instance traced.

Definition trace (r : router) : list Lock := snd (nodes r).

(** The operation, when it ends, has added to the record something of the shape
    [P]. *)
Definition shape {A} (P : list Lock -> Prop) (m : stm router PyrsedisError A) : Prop :=
  forall r o r', m r = (o, r') -> hangs o = false ->
  exists tr, trace r' = trace r ++ tr /\ P tr.

(** I/O on a guard keeps the guard's node. *)
Definition local {A} (m : stm guard PyrsedisError A) : Prop :=
  forall g o g', m g = (o, g') -> fst g' = fst g.

Lemma local_bind {A B} (m : stm guard PyrsedisError A) (f : A -> stm guard PyrsedisError B) :
  local m -> (forall a, local (f a)) -> local (sbind m f).
Proof.
  intros Hm Hf g o g'. unfold sbind. destruct (m g) as [[a|e|p] g1] eqn:E; apply Hm in E.
  - intros Hr. apply Hf in Hr. congruence.
  - by intros [= _ <-].
  - by intros [= _ <-].
Qed.
Lemma local_send d : local (t_send (Transport := traced T) d).
Proof. intros [a g] o g'. cbn. destruct (t_send d g). by intros [= _ <-]. Qed.
Lemma local_recv : local (t_recv (Transport := traced T)).
Proof. intros [a g] o g'. cbn. destruct (t_recv g). by intros [= _ <-]. Qed.
#[local] Hint Resolve local_bind local_send local_recv : core.

Lemma local_round_trip args : local (round_trip (H1 := traced T) args).
Proof. unfold round_trip. auto. Qed.
Lemma local_asking args : local (asking (H1 := traced T) args).
Proof. unfold asking. pose proof local_round_trip. auto. Qed.
#[local] Hint Resolve local_round_trip local_asking : core.

Lemma shape_nothing {A} P (m : stm router PyrsedisError A) :
  P [] -> (forall r o r', m r = (o, r') -> trace r' = trace r) -> shape P m.
Proof. intros HP Hm r o r' Hr _. exists []. rewrite app_nil_r. split; [by eapply Hm|done]. Qed.

Lemma shape_bind {A B} P (m : stm router PyrsedisError A) (f : A -> stm router PyrsedisError B) :
  P [] -> (forall x y, P x -> P y -> P (x ++ y)) ->
  shape P m -> (forall a, shape P (f a)) -> shape P (sbind m f).
Proof.
  intros H0 Happ Hm Hf r o r'. unfold sbind.
  destruct (m r) as [[a|e|p] r1] eqn:E.
  - destruct (Hm r _ _ E eq_refl) as (tr & Htr & HP). intros Hr Ho.
    destruct (Hf a r1 _ _ Hr Ho) as (tr' & Htr' & HP'). exists (tr ++ tr').
    rewrite Htr', Htr, app_assoc. auto.
  - intros [= _ <-] _. apply (Hm r _ _ E eq_refl).
  - intros [= <- <-] Ho. apply (Hm r _ _ E Ho).
Qed.

Lemma flat_lift {A} (x : Result A) : shape flat (lift x).
Proof. apply shape_nothing; [constructor|]. by intros r o r' [= _ <-]. Qed.
Lemma flat_bind {A B} (m : stm router PyrsedisError A) (f : A -> stm router PyrsedisError B) :
  shape flat m -> (forall a, shape flat (f a)) -> shape flat (sbind m f).
Proof. apply shape_bind; [constructor|apply flat_app]. Qed.
Lemma flat_moved slot addr : shape flat (moved slot addr).
Proof. apply shape_nothing; [constructor|]. by intros r o r' [= _ <-]. Qed.
Lemma flat_sleep ms : shape flat (sleep (H1 := traced T) ms).
Proof.
  apply shape_nothing; [constructor|]. intros r o r' [= _ <-]. unfold trace. cbn.
  by destruct (nodes r).
Qed.

Lemma flat_with_node {A} addr (body : stm guard PyrsedisError A) :
  local body -> shape flat (with_node (H1 := traced T) addr body).
Proof.
  intros Hb r o r'. unfold with_node, trace. destruct (nodes r) as [n tr] eqn:Hn.
  cbn [t_get traced]. destruct (t_get addr n) as [[g|e|p] n'].
  - destruct (body (addr, g)) as [res [a g']] eqn:E. apply Hb in E. cbn in E. subst a.
    intros [= <- <-] Ho. cbn. rewrite Ho. exists [Got addr; Gave addr]. cbn. rewrite <- app_assoc.
    split; [done|repeat constructor].
  - intros [= _ <-] _. cbn. exists [Got addr; Gave addr]. split; [done|repeat constructor].
  - intros [= _ <-] _. cbn. exists []. rewrite app_nil_r. split; [done|constructor].
Qed.
#[local] Hint Resolve flat_lift flat_bind flat_moved flat_sleep flat_with_node : core.

Lemma flat_execute_on addr args k : shape flat (execute_on (H1 := traced T) addr args k).
Proof.
  revert addr. induction k as [|k IH]; intros addr; cbn [execute_on];
    (apply flat_bind; [auto|]); intros v; destruct v as [|msg| | | | | | | | | | | | |]; auto;
    destruct (fst (RedisErrorKind.from_error_msg msg)); auto.
Qed.

Lemma flat_execute_routed args : shape flat (execute_routed (H1 := traced T) args).
Proof.
  unfold execute_routed. destruct args as [|cmd args]; [apply flat_lift|]. intros r o r'.
  assert (forall x : Result RespValue, (x, r) = (o, r') -> hangs o = false ->
    exists tr, trace r' = trace r ++ tr /\ flat tr) as Hsame.
  { intros x [= _ <-] _. exists []. rewrite app_nil_r. split; [done|constructor]. }
  destruct (slot_of _) as [slot|e|p]; [|apply Hsame..].
  case_bool_decide; [apply Hsame|]. apply flat_execute_on.
Qed.

(** ** Batches *)

Lemma flat_redirected cmd v : shape flat (redirected (H1 := traced T) cmd v).
Proof.
  unfold redirected. destruct v as [|msg| | | | | | | | | | | | |]; auto.
  pose proof flat_execute_on. destruct (fst (RedisErrorKind.from_error_msg msg)); auto.
Qed.

Section batch.
(** What following a redirection does while the batch holds its guard. *)
Context (P : list Lock -> Prop) (Hnil : P []) (Happ : forall x y, P x -> P y -> P (x ++ y)).
Context (Hfollow : forall g v g' cmd,
  t_recv (Transport := traced T) g = (Ok v, g') -> shape P (redirected (H1 := traced T) cmd v)).

Lemma local_send_group group : local (send_group (H1 := traced T) group).
Proof.
  induction group as [|[i cmd] group IH]; cbn [send_group]; [by intros g o g' [= _ <-]|auto].
Qed.

Lemma read_group_shape group results g r o g' r' :
  read_group (H1 := traced T) group results (g, r) = (o, (g', r')) -> hangs o = false ->
  fst g' = fst g /\ exists tr, trace r' = trace r ++ tr /\ P tr.
Proof using Hnil Happ Hfollow.
  revert results g r. induction group as [|[i cmd] group IH]; intros results g r; cbn [read_group].
  { intros [= _ <- <-] _. split; [done|]. exists []. by rewrite app_nil_r. }
  unfold sbind, on_guard, on_router.
  destruct (t_recv g) as [[v|e|p] g1] eqn:Hrecv; pose proof (local_recv _ _ _ Hrecv) as Hg1.
  2-3: intros [= _ <- <-] _; split; [done|]; exists []; by rewrite app_nil_r.
  destruct (redirected cmd v r) as [o1 r1] eqn:Hred.
  pose proof (Hfollow _ _ _ cmd Hrecv _ _ _ Hred) as Hone.
  destruct o1 as [v'|e|p]; [|intros [= <- <- <-] Ho; split; [done|exact (Hone Ho)]..].
  destruct (Hone eq_refl) as (tr & Htr & HP).
  intros Hr Ho. destruct (IH _ _ _ Hr Ho) as (Hg' & tr' & Htr' & HP'). split; [congruence|].
  exists (tr ++ tr'). rewrite Htr', Htr, app_assoc. auto.
Qed.

(** The permits of a group: its own around those of the redirections. *)
Definition around (tr : list Lock) : Prop :=
  tr = [] \/ (exists a, tr = [Got a; Gave a]) \/
  exists a inner, tr = Got a :: inner ++ [Gave a] /\ P inner.

Lemma run_group_shape results addr group :
  shape around (run_group (H1 := traced T) results addr group).
Proof using Hnil Happ Hfollow.
  unfold run_group. case_bool_decide.
  { apply shape_nothing; [by left|]. by intros r o r' [= _ <-]. }
  intros r o r'. unfold trace. destruct (nodes r) as [n tr] eqn:Hn. cbn [t_get traced].
  destruct (t_get addr n) as [[g|e|p] n'].
  - destruct ((let! _ := on_guard (send_group group) in read_group group results)
      ((addr, g), set_nodes (n', tr ++ [Got addr]) r)) as [o1 [[a g2] r2]] eqn:E.
    intros [= <- <-] Ho. rewrite Ho.
    assert (a = addr /\ exists inner, trace r2 = (tr ++ [Got addr]) ++ inner /\ P inner)
      as (-> & inner & Htr & HP).
    { unfold sbind, on_guard in E.
      destruct (send_group group (addr, g)) as [o2 g1] eqn:Hs. apply local_send_group in Hs.
      destruct o2 as [[]|e|p].
      - destruct (read_group_shape _ _ _ _ _ _ _ E Ho) as (Hg & inner & Htr & HP). cbn in Hg, Hs. split; [congruence|].
        by exists inner.
      - injection E as _ -> <-. split; [exact Hs|]. exists []. by rewrite app_nil_r.
      - injection E as _ -> <-. split; [exact Hs|]. exists []. by rewrite app_nil_r. }
    unfold trace in Htr. cbn in *. destruct (nodes r2) as [n2 tr2]. cbn in *. subst tr2.
    exists (Got addr :: inner ++ [Gave addr]). split; [by rewrite <- !app_assoc|].
    right. right. by exists addr, inner.
  - intros [= _ <-] _. cbn. exists [Got addr; Gave addr]. split; [done|]. right. left. by exists addr.
  - intros [= _ <-] _. cbn. exists []. rewrite app_nil_r. by split; [|left].
Qed.

Context (Q : list Lock -> Prop) (Qnil : Q []) (Qapp : forall x y, Q x -> Q y -> Q (x ++ y)).
Context (Haround : forall tr, around tr -> Q tr).

Lemma pipeline_shape `{HashOrder} cmds : shape Q (pipeline (H1 := traced T) cmds).
Proof using Hnil Happ Hfollow Qnil Qapp Haround.
  intros r o r'. unfold pipeline.
  assert (forall x : Result (list RespValue), (x, r) = (o, r') -> hangs o = false ->
    exists tr, trace r' = trace r ++ tr /\ Q tr) as Hsame.
  { intros x [= _ <-] _. exists []. by rewrite app_nil_r. }
  destruct (group_by_node r 0 cmds ∅) as [gs|e|p]; [|apply Hsame..].
  revert r o r' Hsame. intros r o r' _. revert r o r'. change (shape Q
    (let! results := run_groups (H1 := traced T) (iter_order (map_to_list gs))
       (replicate (length cmds) None) in lift (Ok (map (default Null) results)))).
  apply shape_bind; [done|done| |].
  - generalize (replicate (length cmds) (@None RespValue)) as results.
    induction (iter_order (map_to_list gs)) as [|[addr group] groups IH]; intros results;
      cbn [run_groups].
    + apply shape_nothing; [done|]. by intros r o r' [= _ <-].
    + apply shape_bind; [done|done| |done]. intros r o r' Hr Ho.
      destruct (run_group_shape _ _ _ _ _ _ Hr Ho) as (tr & Htr & Ha). exists tr. auto.
  - intros rs. apply shape_nothing; [done|]. by intros r o r' [= _ <-].
Qed.
End batch.

Lemma nested_pipeline `{HashOrder} cmds : shape nested (pipeline (H1 := traced T) cmds).
Proof.
  apply (pipeline_shape flat); [constructor|apply flat_app| |constructor|apply nested_app|].
  - intros g v g' cmd _. apply flat_redirected.
  - intros tr [->|[[a ->]|(a & inner & -> & Hf)]]; [constructor| |].
    + apply (nested_pair a [] []); constructor.
    + apply (nested_pair a inner []); [done|constructor].
Qed.

(** Nodes that never redirect. *)
Definition plain : Prop :=
  forall g v g', t_recv (Transport := T) g = (Ok v, g') -> is_redirect v = false.

Lemma flat_pipeline `{HashOrder} cmds : plain -> shape flat (pipeline (H1 := traced T) cmds).
Proof.
  intros Hp. apply (pipeline_shape (eq [])); [done|by intros ? ? <- <-| |constructor|apply flat_app|].
  - intros [a g] v g' cmd. cbn. destruct (t_recv g) as [o g1] eqn:Hr. intros [= -> _].
    apply Hp in Hr. apply shape_nothing; [done|]. intros r o r'. unfold redirected.
    destruct v as [|msg| | | | | | | | | | | | |]; try by intros [= _ <-].
    cbn in Hr. destruct (fst (RedisErrorKind.from_error_msg msg)); try done; by intros [= _ <-].
  - intros tr [->|[[a ->]|(a & inner & -> & <-)]]; repeat constructor.
Qed.
End traces.

(** * Operations that share the pools *)

(** What an operation has still to do, and the nodes whose permits it holds, the
    last one first. *)
Record Op := { todo : list Lock; holds : list bytes }.

(** Permits in use at a node, by all operations; each pool has [size]. *)
Definition used (a : bytes) (ops : list Op) : Z := len (filter (a =.) (concat (map holds ops))).

Inductive step (size : Z) : list Op -> list Op -> Prop :=
| step_got l1 l2 a tr hs :
    used a (l1 ++ {| todo := Got a :: tr; holds := hs |} :: l2) < size ->
    step size (l1 ++ {| todo := Got a :: tr; holds := hs |} :: l2)
              (l1 ++ {| todo := tr; holds := a :: hs |} :: l2)
| step_gave l1 l2 a tr hs :
    step size (l1 ++ {| todo := Gave a :: tr; holds := a :: hs |} :: l2)
              (l1 ++ {| todo := tr; holds := hs |} :: l2).

Definition begin (tr : list Lock) : Op := {| todo := tr; holds := [] |}.
Definition done_op (o : Op) : Prop := todo o = [].

(** ** One permit at a time *)

(** Between two permits, or holding one. *)
Definition simple (o : Op) : Prop :=
  (holds o = [] /\ flat (todo o)) \/
  exists a tr, holds o = [a] /\ todo o = Gave a :: tr /\ flat tr.

Lemma simple_step size ops ops' : Forall simple ops -> step size ops ops' -> Forall simple ops'.
Proof.
  intros Hs Hst. destruct Hst as [l1 l2 a tr hs _|l1 l2 a tr hs];
    apply Forall_app in Hs as [H1 [Ho H2]%Forall_cons]; apply Forall_app; (split; [done|]);
    constructor; try done.
  - destruct Ho as [[Hh Hf]|(b & tr' & _ & Ht & _)]; [|done]. cbn in Hh, Hf. subst hs. right.
    inversion Hf as [|a' tr' Hf']; subst. by exists a, tr'.
  - destruct Ho as [[Hh _]|(b & tr' & Hh & Ht & Hf)]; [done|]. cbn in Hh, Ht.
    injection Hh as -> ->. injection Ht as ->. by left.
Qed.

Lemma none_held ops a :
  Forall (fun o => holds o = []) ops -> used a ops = 0.
Proof.
  intros Hh. unfold used. replace (concat (map holds ops)) with (@nil bytes); [done|].
  induction Hh as [|o ops Ho _ IH]; [done|]. cbn. by rewrite Ho.
Qed.

Lemma simple_progress size ops :
  1 <= size -> Forall simple ops -> Forall done_op ops \/ exists ops', step size ops ops'.
Proof.
  intros Hsize Hs. destruct (decide (Forall (fun o => holds o = []) ops)) as [Hn|Hn].
  - destruct (decide (Forall (fun o => todo o = []) ops)) as [|Hd]; [by left|right].
    apply not_Forall_Exists in Hd; [|apply _].
    apply Exists_exists in Hd as (o & Hin & Ht). apply list_elem_of_split in Hin as (l1 & l2 & ->).
    apply Forall_app in Hs as [_ [Ho _]%Forall_cons]. destruct o as [tr hs]. cbn in *.
    destruct Ho as [[Hh Hf]|(a & tr' & Hh & _ & _)].
    + cbn in Hh, Hf. destruct Hf as [|a tr Hf]; [done|]. eexists. apply step_got.
      rewrite none_held by done. lia.
    + cbn in Hh. apply Forall_app in Hn as [_ [Hn _]%Forall_cons]. cbn in Hn. congruence.
  - right. apply not_Forall_Exists in Hn; [|apply _].
    apply Exists_exists in Hn as (o & Hin & Hh). apply list_elem_of_split in Hin as (l1 & l2 & ->).
    apply Forall_app in Hs as [_ [Ho _]%Forall_cons]. destruct o as [tr hs].
    destruct Ho as [[Hh' _]|(a & tr' & Hh' & Ht & _)]; [done|]. cbn in *. subst. eexists.
    apply step_gave.
Qed.

(** The trace of a command that ends: what [execute_routed] did, on some nodes,
    whatever they answered, until it returned a reply or an error. *)
Definition command_trace (tr : list Lock) : Prop :=
  exists (N G : Type) (T : Transport N G) args (r r' : ClusterRouter (N * list Lock)) o,
    execute_routed (H1 := traced T) args r = (o, r') /\ hangs o = false /\
    trace r' = trace r ++ tr.

(** The trace of a batch that ends, on nodes that do not redirect it. *)
Definition plain_batch_trace (tr : list Lock) : Prop :=
  exists (N G : Type) (T : Transport N G) (O : HashOrder) cmds (r r' : ClusterRouter (N * list Lock)) o,
    plain T /\ pipeline (H1 := traced T) cmds r = (o, r') /\ hangs o = false /\
    trace r' = trace r ++ tr.

Lemma command_flat tr : command_trace tr -> flat tr.
Proof.
  intros (N & G & T & args & r & r' & o & Hr & Ho & Htr).
  destruct (flat_execute_routed T _ _ _ _ Hr Ho) as (tr' & Htr' & Hf). rewrite Htr in Htr'.
  by apply app_inv_head in Htr' as ->.
Qed.

Lemma plain_batch_flat tr : plain_batch_trace tr -> flat tr.
Proof.
  intros (N & G & T & O & cmds & r & r' & o & Hp & Hr & Ho & Htr).
  destruct (flat_pipeline T _ Hp _ _ _ Hr Ho) as (tr' & Htr' & Hf). rewrite Htr in Htr'.
  by apply app_inv_head in Htr' as ->.
Qed.

(** C26: Commands, and batches that are not redirected, do not block each other:
    in pools of at least one connection, for any operations of which each ends when
    it gets its permits (no node leaves it without an answer for ever), whatever the
    nodes answer and however the operations interleave, as long as not all are done
    some operation can go on. The permits of an operation are those that
    [execute_routed] or [pipeline] took and gave back, on any nodes. *)
Theorem commands_never_block size trs :
  1 <= size -> Forall (fun tr => command_trace tr \/ plain_batch_trace tr) trs ->
  forall ops, rtc (step size) (map begin trs) ops ->
    Forall done_op ops \/ exists ops', step size ops ops'.
Proof.
  intros Hsize Htrs ops Hrun.
  assert (Forall simple (map begin trs)) as Hs.
  { apply Forall_map. eapply Forall_impl; [exact Htrs|]. intros tr Htr. left. split; [done|].
    destruct Htr; [by apply command_flat|by apply plain_batch_flat]. }
  apply simple_progress; [done|]. clear Htrs.
  induction Hrun as [|ops ops1 ops2 Hst _ IH]; [done|]. apply IH. by eapply simple_step.
Qed.

(** ** Batches that wait for each other *)

Lemma used_app a ops ops' : used a (ops ++ ops') = used a ops + used a ops'.
Proof. unfold used, len. rewrite map_app, concat_app, filter_app, length_app. lia. Qed.

Lemma used_cons a o ops : used a (o :: ops) = used a [o] + used a ops.
Proof. apply (used_app a [o]). Qed.

Lemma used_replicate a k o : used a (replicate k o) = Z.of_nat k * used a [o].
Proof.
  induction k as [|k IH]; [done|]. cbn [replicate]. rewrite used_cons, IH. lia.
Qed.

(** While there are permits, one operation after the other takes its first. *)
Lemma all_take size a tr l1 l2 k :
  used a (l1 ++ l2) + Z.of_nat k <= size ->
  rtc (step size) (l1 ++ replicate k (begin (Got a :: tr)) ++ l2)
                  (l1 ++ replicate k {| todo := tr; holds := [a] |} ++ l2).
Proof.
  revert l1. induction k as [|k IH]; intros l1 Hk; [done|]. cbn [replicate app].
  eapply rtc_l.
  - apply step_got. rewrite used_app in *. rewrite used_cons, used_app, used_replicate.
    change (used a [_]) with 0. lia.
  - rewrite (cons_middle _ l1), (cons_middle _ l1 (replicate k {| todo := tr; holds := [a] |} ++ l2)).
    rewrite !(app_assoc l1 [_]). apply IH. rewrite !used_app in *.
    assert (used a [{| todo := tr; holds := [a] |}] = 1) as ->; [|lia].
    unfold used. cbn. by rewrite decide_True.
Qed.

(** Two nodes have swapped a slot each, and the router's map is the old one: [a:1]
    sends those who ask for [bar] to [b:2], which sends those who ask for [foo] to
    [a:1]. *)
Definition get_cmd (key : string) : list bytes := [bs "GET"; bs key].
Definition swapped_reply (addr data : bytes) : RespValue :=
  if bool_decide (addr = bs "a:1" /\ data = encode_command_str (get_cmd "bar"))
  then Error (bs "MOVED 5061 b:2")
  else if bool_decide (addr = bs "b:2" /\ data = encode_command_str (get_cmd "foo"))
  then Error (bs "MOVED 12182 a:1")
  else SimpleString addr.
Definition swapped : Transport unit (bytes * list RespValue) := {|
  t_get addr n := (Ok (addr, []), n);
  t_drop _ n := n;
  t_send d '(a, vs) := (Ok tt, (a, vs ++ [swapped_reply a d]));
  t_recv '(a, vs) :=
    match vs with v :: vs => (Ok v, (a, vs)) | [] => (Panic Pending, (a, vs)) end;
  t_dial _ n := (NoAnswer, n);
  t_ensure _ n := n;
  t_addrs _ := [];
  t_sleep _ n := n
|}.

Definition old_map : ClusterRouter (unit * list Lock) :=
  {| nodes := (tt, []); slot_map := two_nodes; config := default_config;
     read_from_replicas := false |}.

(** The permits of a batch of one command there. *)
Definition swapped_batch (key : string) : list Lock :=
  trace (snd (pipeline (H1 := traced swapped) (H2 := in_list_order) [get_cmd key] old_map)).

Lemma swapped_batches :
  swapped_batch "bar" = [Got (bs "a:1"); Got (bs "b:2"); Gave (bs "b:2"); Gave (bs "a:1")] /\
  swapped_batch "foo" = [Got (bs "b:2"); Got (bs "a:1"); Gave (bs "a:1"); Gave (bs "b:2")].
Proof. by vm_compute. Qed.

(** Each operation holds a permit of one node, and waits for the other. *)
Definition crossed (a b : bytes) : Op := {| todo := [Got b; Gave b; Gave a]; holds := [a] |}.

Lemma crossed_stuck a b k ops' :
  a <> b -> ~ step (Z.of_nat k) (replicate k (crossed a b) ++ replicate k (crossed b a)) ops'.
Proof.
  intros Hab. remember (replicate k (crossed a b) ++ replicate k (crossed b a)) as ops eqn:Hops.
  assert (forall o, o ∈ ops -> o = crossed a b \/ o = crossed b a) as Hin.
  { intros o. rewrite Hops, elem_of_app, !elem_of_replicate. naive_solver. }
  assert (used a ops = Z.of_nat k /\ used b ops = Z.of_nat k) as [Ha Hb].
  { subst ops. rewrite !used_app, !used_replicate. unfold used. cbn.
    rewrite !(decide_True (P := a = a)), !(decide_True (P := b = b)),
      !(decide_False (P := a = b)), !(decide_False (P := b = a)) by congruence.
    unfold len. cbn. lia. }
  clear Hops. destruct 1 as [l1 l2 c tr hs Hu|l1 l2 c tr hs].
  - destruct (Hin {| todo := Got c :: tr; holds := hs |}) as [Ho|Ho]; [by set_solver|..];
      injection Ho as -> -> ->; lia.
  - destruct (Hin {| todo := Gave c :: tr; holds := c :: hs |}) as [Ho|Ho]; [by set_solver|done..].
Qed.

(** C27: Redirected batches can wait for each other for ever, in pools of any size:
    when two nodes have swapped slots, as many batches for each node as its pool has
    connections can take them all; each is then redirected to the other node and asks
    for a permit there while it keeps its own. *)
Theorem batches_can_block (k : nat) :
  exists ops,
    rtc (step (Z.of_nat k)) (replicate k (begin (swapped_batch "bar")) ++
                  replicate k (begin (swapped_batch "foo"))) ops /\
    length ops = (2 * k)%nat /\ Forall (fun o => ~ done_op o) ops /\
    ~ exists ops', step (Z.of_nat k) ops ops'.
Proof.
  exists (replicate k (crossed (bs "a:1") (bs "b:2")) ++ replicate k (crossed (bs "b:2") (bs "a:1"))).
  destruct swapped_batches as [-> ->]. split_and!.
  - etrans.
    + apply (all_take (Z.of_nat k) (bs "a:1") _ []). cbn [app]. rewrite used_replicate.
      change (used _ [_]) with 0. lia.
    + cbn [app]. pose proof (all_take (Z.of_nat k) (bs "b:2") [Got (bs "a:1"); Gave (bs "a:1"); Gave (bs "b:2")]
        (replicate k (crossed (bs "a:1") (bs "b:2"))) [] k) as Ht.
      rewrite !app_nil_r in Ht. apply Ht. rewrite used_replicate.
      change (used _ [_]) with 0. lia.
  - rewrite length_app, !length_replicate. lia.
  - apply Forall_app. split; by apply Forall_replicate.
  - intros [ops' Hst]. by apply crossed_stuck in Hst.
Qed.

(** * The theorem at concrete operations *)

(** A node that never answers: the command keeps its permit for ever. *)
Definition silent : Transport unit unit := {|
  t_get _ n := (Ok tt, n); t_drop _ n := n; t_send _ g := (Ok tt, g);
  t_recv g := (Panic Pending, g); t_dial _ n := (NoAnswer, n); t_ensure _ n := n;
  t_addrs _ := []; t_sleep _ n := n
|}.

Example hung_command_keeps_permit :
  let '(o, r) := execute_routed (H1 := traced silent) (get_cmd "bar") old_map in
  hangs o = true /\ trace r = [Got (bs "a:1")].
Proof. by vm_compute. Qed.

Lemma moved_command : command_trace [Got (bs "a:1"); Gave (bs "a:1"); Got (bs "b:2"); Gave (bs "b:2")].
Proof.
  exists unit, _, swapped, (get_cmd "bar"), old_map. eexists _, _. split; [reflexivity|].
  by vm_compute.
Qed.

Lemma commands_never_block_witness :
  exists ops', step 1 (map begin [[Got (bs "a:1"); Gave (bs "a:1"); Got (bs "b:2"); Gave (bs "b:2")]]) ops'.
Proof.
  destruct (commands_never_block 1
    [[Got (bs "a:1"); Gave (bs "a:1"); Got (bs "b:2"); Gave (bs "b:2")]]) with
    (ops := map begin [[Got (bs "a:1"); Gave (bs "a:1"); Got (bs "b:2"); Gave (bs "b:2")]])
    as [Hd|Hst].
  - lia.
  - constructor; [left; apply moved_command|constructor].
  - apply rtc_refl.
  - exfalso. inversion Hd as [|o ops Ho _]. discriminate Ho.
  - exact Hst.
Defined.
