(* ===== verification/ClusterOnce.v ===== *)
(** What a cluster router writes to its nodes and reads from them
    (src/router/cluster.rs, [execute_on] and [pipeline]): the conversations on its
    connections, in order. A redirected command is sent again, but only after a
    reply by which a node has refused it was read, whatever the nodes answer,
    wherever the redirections lead and whichever operation fails. *)

From Stdlib Require Import Strings.Byte.
From stdpp Require Import gmap.
From S2P Require Import Prelude RustStd Error Types Parser Writer Config Tcp Pool Standalone.
From S2P Require Import Cluster ClusterProps Redirects.

(** * What goes over the connections *)

(** What was written and read under one guard, in order, and the node whose pool
    the guard is from. *)
Record Conversation := { peer : bytes; wrote : list bytes; read : list (Result RespValue) }.

Definition hush (addr : bytes) : Conversation := {| peer := addr; wrote := []; read := [] |}.
Definition write (d : bytes) (c : Conversation) : Conversation :=
  {| peer := peer c; wrote := wrote c ++ [d]; read := read c |}.
Definition hear (r : Result RespValue) (c : Conversation) : Conversation :=
  {| peer := peer c; wrote := wrote c; read := read c ++ [r] |}.

(** Any nodes, with a record of the conversations on their connections, each
    written down when its guard is dropped. *)
Definition recorded {N G} (T : Transport N G)
    : Transport (N * list Conversation) (G * Conversation) := {|
  t_get addr '(n, tr) :=
    match t_get addr n with
    | (Ok g, n) => (Ok (g, hush addr), (n, tr))
    | (Err e, n) => (Err e, (n, tr))
    | (Panic p, n) => (Panic p, (n, tr))
    end;
  t_drop '(g, c) '(n, tr) := (t_drop g n, tr ++ [c]);
  t_send d '(g, c) := let '(r, g) := t_send d g in (r, (g, write d c));
  t_recv '(g, c) := let '(r, g) := t_recv g in (r, (g, hear r c));
  t_dial addr '(n, tr) := let '(o, n) := t_dial addr n in (o, (n, tr));
  t_ensure addr '(n, tr) := (t_ensure addr n, tr);
  t_addrs '(n, _) := t_addrs n;
  t_sleep ms '(n, tr) := (t_sleep ms n, tr)
|}.

(** The replies by which a node refuses a command without running it. *)
Definition refused (v : RespValue) : bool :=
  match v with
  | Error msg =>
      match fst (RedisErrorKind.from_error_msg msg) with
      | RedisErrorKind.Moved _ _ | RedisErrorKind.Ask _ _
      | RedisErrorKind.TryAgain | RedisErrorKind.ClusterDown => true
      | _ => false
      end
  | _ => false
  end.

Definition declined (rs : list (Result RespValue)) : bool :=
  match rs with Ok v :: _ => refused v | _ => false end.

Definition one_if (b : bool) : nat := if b then 1 else 0.
#[local] Arguments one_if : simpl never.

(** How often the command [d] was written without a refusal having been read for it,
    when the n-th reply read under a guard is taken for the answer to the n-th
    command written under it (a command whose reply did not come counts). This is how
    the router itself matches replies with commands; it is not the number of times
    the command ran where a connection came with replies left over from before. *)
Fixpoint unrefused_in (d : bytes) (ds : list bytes) (rs : list (Result RespValue)) : nat :=
  match ds with
  | [] => 0
  | d' :: ds => one_if (bool_decide (d' = d) && negb (declined rs)) + unrefused_in d ds (tail rs)
  end.

Definition unrefused (d : bytes) (tr : list Conversation) : nat :=
  list_sum (map (fun c => unrefused_in d (wrote c) (read c)) tr).

(** How often [d] is among some commands. *)
Definition times (d : bytes) (cmds : list (list bytes)) : nat :=
  list_sum (map (fun cmd => one_if (bool_decide (encode_command_str cmd = d))) cmds).

Lemma unrefused_app d a b : unrefused d (a ++ b) = (unrefused d a + unrefused d b)%nat.
Proof. unfold unrefused. by rewrite map_app, list_sum_app. Qed.

Lemma one_if_le b : (one_if b <= 1)%nat.
Proof. destruct b; unfold one_if; lia. Qed.

Lemma one_if_and a b : (one_if (a && b) <= one_if a)%nat.
Proof. destruct a, b; unfold one_if; cbn; lia. Qed.

Lemma unrefused_in_le d ds rs : (unrefused_in d ds rs <= list_sum (map (fun d' => one_if (bool_decide (d' = d))) ds))%nat.
Proof.
  revert rs. induction ds as [|d' ds IH]; intros rs; [done|]. cbn.
  pose proof (one_if_and (bool_decide (d' = d)) (negb (declined rs))). specialize (IH (tail rs)). unfold list_sum in *. lia.
Qed.

(** * One command *)

Section once.
Context {N G : Type} (T : Transport N G).
Abbreviation router := (ClusterRouter (N * list Conversation)).
Abbreviation guard := (G * Conversation)%type.

Definition record (r : router) : list Conversation := snd (nodes r).

(** The operation does [tr], of which [P] holds. *)
Definition does {A} (P : Result A -> list Conversation -> Prop) (m : stm router PyrsedisError A) : Prop :=
  forall r o r', m r = (o, r') -> exists tr, record r' = record r ++ tr /\ P o tr.

(** The command that is counted; it is not the ASKING that the router sends itself. *)
Context (d : bytes) (Hask : encode_command_str [bs "ASKING"] <> d).

(** An operation for the command [args] that ended with [o] and did [tr] has sent [d]
    at most once without reading a refusal, and not unless it is that command; when
    it returned a reply, exactly if that is not a refusal; and when it waits for ever,
    all its earlier sendings were refused. *)
Definition once (args : list bytes) (o : Result RespValue) (tr : list Conversation) : Prop :=
  let mine := bool_decide (encode_command_str args = d) in
  (unrefused d tr <= one_if mine)%nat /\
  (forall v, o = Ok v -> unrefused d tr = one_if (mine && negb (refused v))) /\
  (hangs o = true -> unrefused d tr = 0%nat).

(** A command written and its reply read, on a guard. *)
Lemma round_trip_talk args g c o g' c' :
  round_trip (H1 := recorded T) args (g, c) = (o, (g', c')) ->
  c' = write (encode_command_str args) c /\ (forall v, o <> Ok v) \/
  c' = hear o (write (encode_command_str args) c).
Proof.
  unfold round_trip, sbind. cbn. destruct (t_send _ g) as [[[]|e|p] g1].
  2-3: intros [= <- _ <-]; by left.
  destruct (t_recv g1) as [r g2]. intros [= <- _ <-]. by right.
Qed.

Lemma with_node_does P addr (body : stm guard PyrsedisError RespValue) :
  (forall o, (forall v, o <> Ok v) -> P o []) ->
  (forall p, P (Panic p) []) ->
  (forall g o g' c', body (g, hush addr) = (o, (g', c')) -> hangs o = false -> P o [c']) ->
  does P (with_node (H1 := recorded T) addr body).
Proof.
  intros Hnil Hpanic Hbody r o r'. unfold with_node, record. destruct (nodes r) as [n tr].
  cbn [t_get recorded]. destruct (t_get addr n) as [[g|e|p] n'].
  - destruct (body (g, hush addr)) as [res [g' c]] eqn:E. intros [= <- <-].
    pose proof (Hbody _ _ _ _ E) as Hp. destruct (hangs res) eqn:Hh.
    { destruct res as [| |q]; [done..|]. exists []. rewrite app_nil_r. by split; [|apply Hpanic]. }
    cbn. exists [c]. by split; [|apply Hp].
  - intros [= <- <-]. exists []. rewrite app_nil_r. split; [done|by apply Hnil].
  - intros [= <- <-]. exists []. rewrite app_nil_r. split; [done|by apply Hnil].
Qed.

Lemma nothing_once args o : (forall v, o <> Ok v) -> once args o [].
Proof. intros Hno. split_and!; [cbn; lia| |done]. intros v ->. by destruct (Hno v). Qed.

Lemma round_trip_once addr args :
  does (once args) (with_node (H1 := recorded T) addr (round_trip (H1 := recorded T) args)).
Proof.
  apply with_node_does; [apply nothing_once|intros p; by apply nothing_once|].
  intros g o g' c' Hr Hh.
  apply round_trip_talk in Hr as [[-> Hno]| ->]; unfold once, unrefused; cbn; rewrite Hh, !Nat.add_0_r.
  - split_and!; [apply one_if_and| |done]. intros v ->. by destruct (Hno v).
  - split_and!; [apply one_if_and| |done]. by intros v ->.
Qed.

Lemma asking_once addr args :
  does (once args) (with_node (H1 := recorded T) addr (asking (H1 := recorded T) args)).
Proof using Hask.
  apply with_node_does; [apply nothing_once|intros p; by apply nothing_once|].
  intros g o g' c' Hr Hh. unfold asking, sbind in Hr.
  destruct (round_trip [bs "ASKING"] (g, hush addr)) as [o1 [g1 c1]] eqn:E1.
  assert (forall rs, unrefused_in d [encode_command_str [bs "ASKING"]] rs = 0%nat) as H0.
  { intros rs. cbn. by rewrite bool_decide_false. }
  destruct o1 as [v|e|p].
  - apply round_trip_talk in E1 as [[_ Hno]| ->]; [by destruct (Hno v)|].
    apply round_trip_talk in Hr as [[-> Hno]| ->]; unfold once, unrefused; cbn;
      rewrite (bool_decide_false (encode_command_str [bs "ASKING"] = d)) by done; cbn;
      rewrite Hh, !Nat.add_0_r.
    + split_and!; [apply one_if_and| |done]. intros v' ->. by destruct (Hno v').
    + split_and!; [apply one_if_and| |done]. by intros v' ->.
  - injection Hr as <- _ <-. split; [|split; [done|by rewrite Hh]].
    apply round_trip_talk in E1 as [[-> _]| ->]; unfold unrefused; cbn [wrote read write hear hush map list_sum app];
      cbn -[unrefused_in]; rewrite H0; cbn; lia.
  - injection Hr as <- _ <-. split; [|split; [done|by rewrite Hh]].
    apply round_trip_talk in E1 as [[-> _]| ->]; unfold unrefused; cbn [wrote read write hear hush map list_sum app];
      cbn -[unrefused_in]; rewrite H0; cbn; lia.
Qed.

Lemma lift_does {A} P (o : Result A) : P o [] -> does P (lift o).
Proof. intros HP r o' r' [= <- <-]. exists []. by rewrite app_nil_r. Qed.

Lemma fail_once args (e : PyrsedisError) : does (once args) (lift (Err e)).
Proof. by apply lift_does, nothing_once. Qed.

(** Bookkeeping of the router does not go over a connection. *)
Lemma quiet_then {A} P (m : stm router PyrsedisError unit) (f : unit -> stm router PyrsedisError A) :
  (forall r, exists r', m r = (Ok tt, r') /\ record r' = record r) -> does P (f tt) ->
  does P (sbind m f).
Proof.
  intros Hm Hf r o r' Hr. destruct (Hm r) as (r1 & Hm1 & Hrec).
  rewrite (sbind_ok _ _ _ _ _ Hm1) in Hr. rewrite <- Hrec. by apply Hf.
Qed.

Lemma moved_then {A} P slot addr (f : unit -> stm router PyrsedisError A) :
  does P (f tt) -> does P (sbind (moved slot addr) f).
Proof. apply quiet_then. intros r. by eexists. Qed.

Lemma sleep_then {A} P ms (f : unit -> stm router PyrsedisError A) :
  does P (f tt) -> does P (sbind (sleep (H1 := recorded T) ms) f).
Proof.
  apply quiet_then. intros r. eexists. split; [done|]. unfold record. cbn. by destruct (nodes r).
Qed.

(** A refused command may be sent again. *)
Lemma follow_refusal args v m r r1 tr1 o r' :
  refused v = true -> does (once args) m -> record r1 = record r ++ tr1 -> once args (Ok v) tr1 ->
  m r1 = (o, r') -> exists tr, record r' = record r ++ tr /\ once args o tr.
Proof.
  intros Hv Hm Hr1 (_ & Ho & _) Hr. apply Hm in Hr as (tr2 & -> & H2).
  rewrite Hr1, <- app_assoc. exists (tr1 ++ tr2). split; [done|].
  assert (unrefused d tr1 = 0%nat) as H0 by (rewrite (Ho v eq_refl), Hv; by rewrite andb_false_r).
  unfold once. by rewrite unrefused_app, H0.
Qed.

Lemma execute_on_once args addr k : does (once args) (execute_on (H1 := recorded T) addr args k).
Proof using Hask.
  revert addr. induction k as [|k IH]; intros addr r o r'; cbn [execute_on];
    unfold sbind at 1; destruct (with_node addr (round_trip args) r) as [[v|e|p] r1] eqn:E;
    apply round_trip_once in E as (tr1 & Hr1 & H1);
    try (intros [= <- <-]; by exists tr1).
  all: destruct v as [|msg| | | | | | | | | | | | |]; try (intros [= <- <-]; by exists tr1).
  all: destruct (fst (RedisErrorKind.from_error_msg msg)) eqn:Hk; try (intros [= <- <-]; by exists tr1).
  all: apply (follow_refusal _ (Error msg) _ r r1 tr1); [cbn; by rewrite Hk| |done|done].
  all: first [apply fail_once|by apply asking_once|apply moved_then, IH|apply sleep_then, IH].
Qed.

Lemma execute_routed_once args : does (once args) (execute_routed (H1 := recorded T) args).
Proof using Hask.
  unfold execute_routed. destruct args as [|cmd args]; [apply fail_once|]. intros r o r'.
  destruct (slot_of (cmd :: args)) as [slot|e|p].
  - case_bool_decide; [apply fail_once|apply execute_on_once].
  - apply fail_once.
  - apply (lift_does _ (Panic p)). by apply nothing_once.
Qed.

(** * Batches *)

(** Following the redirection of a reply runs the command only if it was refused. *)
Lemma redirected_once cmd v :
  does (fun _ tr => (unrefused d tr <=
    one_if (bool_decide (encode_command_str cmd = d) && refused v))%nat)
    (redirected (H1 := recorded T) cmd v).
Proof using Hask.
  assert (forall m : stm router PyrsedisError RespValue, does (once cmd) m -> refused v = true ->
    does (fun _ tr => (unrefused d tr <= one_if (bool_decide (encode_command_str cmd = d) && refused v))%nat) m)
    as Hm.
  { intros m Hm Hv r o r' Hr. apply Hm in Hr as (tr & Htr & Hle & _). exists tr. rewrite Hv, andb_true_r.
    done. }
  unfold redirected. destruct v as [|msg| | | | | | | | | | | | |]; try (apply lift_does; cbn; lia).
  destruct (fst (RedisErrorKind.from_error_msg msg)) eqn:Hk; try (apply lift_does; cbn; lia);
    (apply Hm; [|cbn; by rewrite Hk]).
  - apply moved_then, execute_on_once.
  - apply asking_once.
Qed.

Abbreviation Group := (list (nat * list bytes)).
Definition sends (group : Group) : list bytes := map (fun '(_, cmd) => encode_command_str cmd) group.
Definition group_times (group : Group) : nat := times d (map snd group).

Lemma unrefused_in_group group rs : (unrefused_in d (sends group) rs <= group_times group)%nat.
Proof.
  etrans; [apply unrefused_in_le|]. unfold sends, group_times, times. rewrite !map_map. apply Nat.eq_le_incl.
  f_equal. apply map_ext. by intros [].
Qed.

Lemma unrefused_in_cons i cmd group v rs :
  unrefused_in d (sends ((i, cmd) :: group)) (Ok v :: rs) =
  (one_if (bool_decide (encode_command_str cmd = d) && negb (refused v)) + unrefused_in d (sends group) rs)%nat.
Proof. done. Qed.

Lemma group_times_cons i cmd group :
  group_times ((i, cmd) :: group) =
  (one_if (bool_decide (encode_command_str cmd = d)) + group_times group)%nat.
Proof. done. Qed.

Lemma send_group_talk group g c o g' c' :
  send_group (H1 := recorded T) group (g, c) = (o, (g', c')) ->
  read c' = read c /\ exists k, wrote c' = wrote c ++ sends (take k group) /\
    (o = Ok tt -> sends (take k group) = sends group).
Proof.
  revert g c. induction group as [|[i cmd] group IH]; intros g c; cbn [send_group].
  { intros [= _ _ <-]. split; [done|]. exists 0%nat. by rewrite app_nil_r. }
  unfold sbind at 1. cbn. destruct (t_send _ g) as [[[]|e|p] g1].
  2-3: intros [= <- _ <-]; (split; [done|]); exists 1%nat; by destruct group.
  intros Hr. apply IH in Hr as (Hread & k & Hw & Hk). split; [done|]. exists (Datatypes.S k).
  split; [by rewrite Hw; cbn; rewrite <- app_assoc|]. intros Ho. cbn. f_equal. by apply Hk.
Qed.

Lemma read_group_once group results g c r o g' c' r' :
  read_group (H1 := recorded T) group results ((g, c), r) = (o, ((g', c'), r')) ->
  exists rs tr, wrote c' = wrote c /\ read c' = read c ++ rs /\ record r' = record r ++ tr /\
    (unrefused_in d (sends group) rs + unrefused d tr <= group_times group)%nat.
Proof using Hask.
  revert results g c r. induction group as [|[i cmd] group IH]; intros results g c r; cbn [read_group].
  { intros [= _ _ <- <-]. exists [], []. by rewrite !app_nil_r. }
  unfold sbind, on_guard, on_router. cbn [t_recv recorded]. destruct (t_recv g) as [[v|e|p] g1].
  2: { intros [= _ _ <- <-]. exists [Err e], []. rewrite app_nil_r, Nat.add_0_r.
       split_and!; [done..|]. apply (unrefused_in_group ((i, cmd) :: group)). }
  2: { intros [= _ _ <- <-]. exists [Panic p], []. rewrite app_nil_r, Nat.add_0_r.
       split_and!; [done..|]. apply (unrefused_in_group ((i, cmd) :: group)). }
  destruct (redirected cmd v r) as [o1 r1] eqn:Hred.
  apply redirected_once in Hred as (tr & Htr & Hle). rewrite group_times_cons.
  assert (one_if (bool_decide (encode_command_str cmd = d) && negb (refused v)) + unrefused d tr <=
    one_if (bool_decide (encode_command_str cmd = d)))%nat as Hone.
  { revert Hle. destruct (bool_decide _), (refused v); unfold one_if; cbn; lia. }
  destruct o1 as [v'|e|p].
  - intros Hr. apply IH in Hr as (rs & tr' & Hw & Hread & Hrec & Hle').
    exists (Ok v :: rs), (tr ++ tr'). rewrite Hw, Hread, Hrec, Htr.
    cbn [read wrote hear]. rewrite <- !app_assoc.
    split_and!; [done..|]. rewrite unrefused_app, unrefused_in_cons. lia.
  - intros [= _ _ <- <-]. exists [Ok v], tr. split_and!; [done..|].
    pose proof (unrefused_in_group group []). rewrite unrefused_in_cons. lia.
  - intros [= _ _ <- <-]. exists [Ok v], tr. split_and!; [done..|].
    pose proof (unrefused_in_group group []). rewrite unrefused_in_cons. lia.
Qed.

Lemma group_times_take k group : (group_times (take k group) <= group_times group)%nat.
Proof.
  revert k. induction group as [|[i cmd] group IH]; intros [|k]; cbn [take]; [done|done|cbn; lia|].
  rewrite !group_times_cons. specialize (IH k). lia.
Qed.

Lemma run_group_once results addr group :
  does (fun _ tr => (unrefused d tr <= group_times group)%nat) (run_group (H1 := recorded T) results addr group).
Proof using Hask.
  unfold run_group. case_bool_decide; [apply lift_does; cbn; lia|]. intros r o r'.
  unfold record. destruct (nodes r) as [n tr] eqn:Hn. cbn [t_get recorded].
  destruct (t_get addr n) as [[g|e|p] n'].
  2-3: intros [= <- <-]; exists []; rewrite app_nil_r; cbn; split; [done|lia].
  unfold sbind, on_guard at 1. destruct (send_group group (g, hush addr)) as [os [g1 c1]] eqn:Hs.
  apply send_group_talk in Hs as (Hread & k & Hw & Hk). cbn in Hread, Hw.
  pose proof (unrefused_in_group (take k group) []) as Hran. pose proof (group_times_take k group) as Htake.
  destruct os as [[]|e|p].
  - destruct (read_group group results (g1, c1, set_nodes (n', tr) r)) as [o1 [[g2 c2] r2]] eqn:E.
    apply read_group_once in E as (rs & tr' & Hw2 & Hread2 & Hrec & Hle). intros [= _ <-].
    unfold record in Hrec. destruct (hangs o1); [exists tr'; split; [exact Hrec|lia]|].
    cbn in Hrec |- *. destruct (nodes r2) as [n2 tr2]. cbn in *. subst tr2.
    exists (tr' ++ [c2]). rewrite <- app_assoc. split; [done|]. rewrite unrefused_app. unfold unrefused at 2. cbn.
    rewrite Hw2, Hread2, Hw, Hread, (Hk eq_refl). cbn. lia.
  - intros [= _ <-]. cbn. exists [c1]. split; [done|]. unfold unrefused. cbn. rewrite Hw, Hread. lia.
  - intros [= _ <-]. exists (if hangs (@Panic PyrsedisError unit p) then [] else [c1]).
    destruct p; cbn; rewrite ?app_nil_r; (split; [done|]); unfold unrefused; cbn;
      rewrite ?Hw, ?Hread; lia.
Qed.

Definition groups_times (groups : list (bytes * Group)) : nat :=
  list_sum (map (fun '(_, group) => group_times group) groups).

Lemma groups_times_perm gs gs' : gs ≡ₚ gs' -> groups_times gs = groups_times gs'.
Proof.
  unfold groups_times. induction 1 as [|[a g] gs gs' _ IH|[a g] [b g'] gs|gs1 gs2 gs3 _ IH1 _ IH2];
    cbn; unfold list_sum in *; lia.
Qed.

Lemma group_times_app g g' : group_times (g ++ g') = (group_times g + group_times g')%nat.
Proof. unfold group_times, times. by rewrite !map_app, list_sum_app. Qed.

Lemma groups_times_cons a g gs :
  groups_times ((a, g) :: gs) = (group_times g + groups_times gs)%nat.
Proof. done. Qed.

Lemma push_group_times gs addr i cmd :
  groups_times (map_to_list (push_group gs addr (i, cmd))) =
  (groups_times (map_to_list gs) + one_if (bool_decide (encode_command_str cmd = d)))%nat.
Proof.
  assert (group_times [(i, cmd)] = one_if (bool_decide (encode_command_str cmd = d))) as Hone.
  { rewrite group_times_cons. apply Nat.add_0_r. }
  unfold push_group. destruct (gs !! addr) as [g|] eqn:Hg.
  - rewrite <- insert_delete_eq, <- (groups_times_perm _ _ (map_to_list_delete gs addr g Hg)).
    rewrite (groups_times_perm _ _ (map_to_list_insert (delete addr gs) addr _ (lookup_delete_eq _ _))).
    rewrite !groups_times_cons, group_times_app, Hone. unfold from_option, id. lia.
  - rewrite (groups_times_perm _ _ (map_to_list_insert gs addr _ Hg)), groups_times_cons.
    change (default [] None ++ [(i, cmd)]) with [(i, cmd)]. rewrite Hone. lia.
Qed.

Lemma group_by_node_times (r : router) idx cmds gs gs' :
  group_by_node r idx cmds gs = Ok gs' ->
  groups_times (map_to_list gs') = (groups_times (map_to_list gs) + times d cmds)%nat.
Proof.
  revert idx gs. induction cmds as [|cmd cmds IH]; intros idx gs; cbn [group_by_node].
  - intros [= ->]. unfold times. cbn. lia.
  - destruct (route r cmd) as [addr|e|p]; [|done..]. cbn [bind]. intros ->%IH.
    rewrite push_group_times. unfold times, list_sum. cbn. lia.
Qed.

Lemma run_groups_once groups results :
  does (fun _ tr => (unrefused d tr <= groups_times groups)%nat) (run_groups (H1 := recorded T) groups results).
Proof using Hask.
  revert results. induction groups as [|[addr group] groups IH]; intros results; cbn [run_groups].
  { apply lift_does. cbn. lia. }
  intros r o r'. unfold sbind.
  destruct (run_group results addr group r) as [o1 r1] eqn:E.
  apply run_group_once in E as (tr & Htr & Hle). unfold groups_times. cbn.
  destruct o1 as [rs|e|p].
  - intros Hr. apply IH in Hr as (tr' & Htr' & Hle'). exists (tr ++ tr').
    rewrite Htr', Htr, <- app_assoc, unrefused_app. split; [done|]. unfold groups_times, list_sum in *. lia.
  - intros [= _ <-]. exists tr. split; [done|]. unfold list_sum. lia.
  - intros [= _ <-]. exists tr. split; [done|]. unfold list_sum. lia.
Qed.

Lemma pipeline_once `{HashOrder} cmds :
  does (fun _ tr => (unrefused d tr <= times d cmds)%nat) (pipeline (H1 := recorded T) cmds).
Proof using Hask.
  intros r o r'. unfold pipeline. destruct (group_by_node r 0 cmds ∅) as [gs|e|p] eqn:Hg.
  2-3: intros [= _ <-]; exists []; rewrite app_nil_r; cbn; split; [done|lia].
  apply group_by_node_times in Hg. rewrite map_to_list_empty in Hg.
  rewrite <- (groups_times_perm _ _ (iter_order_perm (map_to_list gs))) in Hg. cbn in Hg.
  unfold sbind. destruct (run_groups _ _ r) as [o1 r1] eqn:E.
  apply run_groups_once in E as (tr & Htr & Hle).
  destruct o1 as [rs|e|p]; intros [= _ <-]; exists tr; (split; [done|lia]).
Qed.
End once.

(** C25: A command is sent again only after a refusal was read for it. Whatever the
    nodes answer, in whatever order redirections, pauses and failures come: among the
    conversations of [execute_routed] there is at most one sending of its command for
    which no refusal (MOVED, ASK, TRYAGAIN or CLUSTERDOWN) was read, the n-th reply
    under a guard being taken for the answer to the n-th command, and no sending of
    any other command but ASKING; when a reply is returned there is exactly one, or,
    if that reply is itself a refusal, none; when it waits for an answer for ever,
    every earlier sending was refused. And a batch sends no command more often
    without a refusal than it contains it. *)
Theorem resent_only_if_refused {N G} (T : Transport N G) `{HashOrder} d :
  encode_command_str [bs "ASKING"] <> d ->
  (forall args r o r', execute_routed (H1 := recorded T) args r = (o, r') ->
     exists tr, record r' = record r ++ tr /\
       (unrefused d tr <= one_if (bool_decide (encode_command_str args = d)))%nat /\
       (forall v, o = Ok v -> encode_command_str args = d ->
         unrefused d tr = if refused v then 0%nat else 1%nat) /\
       (hangs o = true -> unrefused d tr = 0%nat)) /\
  (forall cmds r o r', pipeline (H1 := recorded T) cmds r = (o, r') ->
     exists tr, record r' = record r ++ tr /\ (unrefused d tr <= times d cmds)%nat).
Proof.
  intros Hask. split; [intros args r o r' Hr|intros cmds r o r' Hr].
  - apply (execute_routed_once T d Hask) in Hr as (tr & Htr & Hle & Ho & Hh). exists tr.
    split_and!; [done..| |done]. intros v -> <-. rewrite (Ho v eq_refl), bool_decide_true by done.
    by destruct (refused v).
  - by apply (pipeline_once T d Hask) in Hr.
Qed.

(** * The theorem at a concrete cluster *)

(** The command is put off, moved, asked for elsewhere and answered there: it is sent
    four times, and refused three times. *)
Definition long_record : ClusterRouter (list RespValue * list Conversation) :=
  {| nodes := (nodes long_way, []); slot_map := slot_map long_way; config := config long_way;
     read_from_replicas := false |}.

Definition long_run : Result RespValue * ClusterRouter (list RespValue * list Conversation) :=
  execute_routed (H1 := recorded scripted) get_bar long_record.

Lemma long_run_sends :
  fst long_run = Ok (SimpleString (bs "v")) /\
  map wrote (record (snd long_run)) =
    [[encode_command_str get_bar]; [encode_command_str get_bar]; [encode_command_str get_bar];
     [encode_command_str [bs "ASKING"]; encode_command_str get_bar]].
Proof. by vm_compute. Qed.

Lemma resent_only_if_refused_witness :
  unrefused (encode_command_str get_bar) (record (snd long_run)) = 1%nat.
Proof.
  destruct (resent_only_if_refused (H := in_list_order) scripted (encode_command_str get_bar)) as [Hone _].
  - by apply (bool_decide_unpack _).
  - destruct long_run as [o r'] eqn:E.
    destruct (Hone _ _ _ _ E) as (tr & Htr & _ & Ho & _).
    pose proof (f_equal fst E) as Ho'. rewrite (proj1 long_run_sends) in Ho'. cbn in Ho' |- *.
    rewrite Htr. by apply (Ho (SimpleString (bs "v"))).
Defined.
