(* ===== verification/ClusterBatch.v ===== *)
(** Batches on a cluster (src/router/cluster.rs, [pipeline]): the commands are
    split by destination, each group goes over one connection, and the replies are
    put back at the places of their commands, following MOVED and ASK one by one.
    The theorem is about the record of what went over the connections, on any nodes,
    with any replies. *)

From Stdlib Require Import Strings.Byte.
From stdpp Require Import gmap.
From S2P Require Import Prelude RustStd Error Types Parser Writer Config Tcp Pool Standalone.
From S2P Require Import Cluster ClusterProps Redirects ClusterOnce.

Section batch.
Context {N G : Type} (T : Transport N G).
Abbreviation router := (ClusterRouter (N * list Conversation)).
Abbreviation Group := (list (nat * list bytes)).

(** * The specification *)






(** * Redirected commands *)












(** * One group *)





(** * All groups *)

Abbreviation Groups := (list (bytes * Group)).



(** * The split *)




(** * The places *)






End batch.

(** * The theorem at a concrete cluster *)




