(* ===== verification/Sentinel.v ===== *)
(** src/router/sentinel.rs: the router that asks the sentinels where the master
    is, keeps a pool to it, and retries after asking again. *)

From Stdlib Require Import Strings.Byte.
From S2P Require Import Prelude RustStd Utf8 RustStr Error Types Parser ParserFacts ParserProps.
From S2P Require Import Wire Writer Config Tcp TcpProps Pool Standalone.

Definition DEFAULT_RETRY_COUNT : nat := 3.
Definition DEFAULT_RETRY_BACKOFF_MS : Z := 100.

(** The router with its world: how the dials to the sentinels end, and what the
    pool of a master at an address will meet. *)
Record SentinelRouter := {
  master_pool : StandaloneRouter;
  master_addr : bytes;
  sentinels : list (bytes * Z);
  master_name : bytes;
  config : ConnectionConfig;
  retry_count : nat;
  retry_backoff : Z;
  sentinel_dials : list DialOutcome;
  network : bytes -> list DialOutcome
}.

Abbreviation sentinel_io := (stm SentinelRouter PyrsedisError).

Definition set_pool (p : StandaloneRouter) (s : SentinelRouter) : SentinelRouter :=
  {| master_pool := p; master_addr := master_addr s; sentinels := sentinels s;
     master_name := master_name s; config := config s; retry_count := retry_count s;
     retry_backoff := retry_backoff s; sentinel_dials := sentinel_dials s;
     network := network s |}.
Definition set_master (a : bytes) (p : StandaloneRouter) (s : SentinelRouter) : SentinelRouter :=
  {| master_pool := p; master_addr := a; sentinels := sentinels s;
     master_name := master_name s; config := config s; retry_count := retry_count s;
     retry_backoff := retry_backoff s; sentinel_dials := sentinel_dials s;
     network := network s |}.
Definition set_dials (d : list DialOutcome) (s : SentinelRouter) : SentinelRouter :=
  {| master_pool := master_pool s; master_addr := master_addr s; sentinels := sentinels s;
     master_name := master_name s; config := config s; retry_count := retry_count s;
     retry_backoff := retry_backoff s; sentinel_dials := d; network := network s |}.

Section sentinel.
Context `{Target} `{BytesMut}.

(** What one sentinel, once connected, says: the address of the master, or the
    error that is remembered while the next sentinel is asked ([inr]), or an error
    that ends the search. *)
Definition ask_sentinel (addr master_name : bytes) (config : ConnectionConfig)
    (conn : RedisConnection) : Result (bytes + PyrsedisError) :=
  let '(authenticated, conn) :=
    match password config with
    | Some pass => auth (username config) pass conn
    | None => (Ok tt, conn)
    end in
  match authenticated with
  | Panic p => Panic p
  | _ =>
      match fst (execute_str [bs "SENTINEL"; bs "get-master-addr-by-name"; master_name] conn) with
      | Ok (Array (h :: p :: _)) =>
          let? host := ok_or (as_str h) (Sentinel (bs "invalid master host")) in
          let? port := ok_or (as_str p) (Sentinel (bs "invalid master port")) in
          Ok (inl (host ++ bs ":" ++ port))
      | Ok Null =>
          Ok (inr (Sentinel (bs "master '" ++ master_name ++ bs "' not found by sentinel at " ++ addr)))
      | Ok other =>
          Ok (inr (Sentinel (bs "unexpected sentinel response: " ++ quoted (type_name other))))
      | Err e => Ok (inr e)
      | Panic p => Panic p
      end
  end.

(** The loop over the sentinels; [d] are the outcomes of the next dials. *)
Fixpoint resolve_from (sentinels : list (bytes * Z)) (master_name : bytes)
    (config : ConnectionConfig) (last_err : option PyrsedisError)
    : stm (list DialOutcome) PyrsedisError bytes :=
  match sentinels with
  | [] =>
      lift (Err (default (Sentinel (bs "could not contact any sentinel")) last_err))
  | (host, port) :: sentinels =>
      fun d =>
        let addr := host ++ bs ":" ++ itoa port in
        match connect_timeout (default NoAnswer (head d)) addr (connect_timeout_ms config) with
        | Ok conn =>
            match ask_sentinel addr master_name config conn with
            | Ok (inl found) => (Ok found, tail d)
            | Ok (inr e) => resolve_from sentinels master_name config (Some e) (tail d)
            | Err e => (Err e, tail d)
            | Panic p => (Panic p, tail d)
            end
        | Err e => resolve_from sentinels master_name config (Some e) (tail d)
        | Panic p => (Panic p, tail d)
        end
  end.

Definition resolve_master (sentinels : list (bytes * Z)) (master_name : bytes)
    (config : ConnectionConfig) : stm (list DialOutcome) PyrsedisError bytes :=
  resolve_from sentinels master_name config None.

(** The configuration of the pool for the master at [addr]: the address is cut at
    its last colon. *)
Definition master_config (addr : bytes) (config : ConnectionConfig) : ConnectionConfig :=
  match rsplit_once ":" addr with
  | Some (h, p) => set_addr config h (default 6379 (parse_u16 p))
  | None => config
  end.

(** [create_master_pool] at time [t]: the pool will meet what the network holds at
    the host and port of its configuration. *)
Definition create_master_pool (addr : bytes) (config : ConnectionConfig)
    (network : bytes -> list DialOutcome) (t : Z) : StandaloneRouter :=
  let cfg := master_config addr config in
  router_new cfg (network (primary_addr cfg)) t.

Definition new (d : list DialOutcome) (network : bytes -> list DialOutcome) (t : Z)
    (sentinels : list (bytes * Z)) (master_name : bytes) (config : ConnectionConfig)
    (retry_count : option nat) (retry_backoff_ms : option Z) : Result SentinelRouter :=
  if bool_decide (sentinels = [])
  then Err (Sentinel (bs "at least one sentinel is required")) else
  let '(addr, d) := resolve_master sentinels master_name config d in
  let? addr := addr in
  Ok {| master_pool := create_master_pool addr config network t; master_addr := addr;
        sentinels := sentinels; master_name := master_name; config := config;
        retry_count := default DEFAULT_RETRY_COUNT retry_count;
        retry_backoff := default DEFAULT_RETRY_BACKOFF_MS retry_backoff_ms;
        sentinel_dials := d; network := network |}.

Definition failover : sentinel_io unit :=
  fun s =>
    let '(found, d) := resolve_master (sentinels s) (master_name s) (config s) (sentinel_dials s) in
    let s := set_dials d s in
    match found with
    | Ok new_addr =>
        if bool_decide (new_addr = master_addr s) then (Ok tt, s)
        else (Ok tt, set_master new_addr
                (create_master_pool new_addr (config s) (network s) (time (master_pool s))) s)
    | Err e => (Err e, s)
    | Panic p => (Panic p, s)
    end.

(** I/O under a guard of the current pool. *)
Definition on_master {A} (body : conn_io A) : sentinel_io A :=
  fun s => let '(r, p) := with_guard body (master_pool s) in (r, set_pool p s).

(** Sending and reading, with the failures kept apart: [inl] when sending failed. *)
Definition send_then_read (args : list bytes) : conn_io (PyrsedisError + Result RespValue) :=
  fun c =>
    match send_raw (encode_command_str args) c with
    | (Ok _, c) =>
        match read_response c with
        | (Panic p, c) => (Panic p, c)
        | (r, c) => (Ok (inr r), c)
        end
    | (Err e, c) => (Ok (inl e), c)
    | (Panic p, c) => (Panic p, c)
    end.

Definition is_connection (e : PyrsedisError) : bool :=
  match e with Connection _ => true | _ => false end.

(** One attempt: [inr e] asks for another. *)
Definition attempt (args : list bytes) : sentinel_io (RespValue + PyrsedisError) :=
  fun s =>
    match on_master (send_then_read args) s with
    | (Ok (inr (Ok resp)), s) =>
        match resp with
        | Error msg => if starts_with (bs "READONLY") msg then (Ok (inr (redis msg)), s)
                       else (Ok (inl resp), s)
        | _ => (Ok (inl resp), s)
        end
    | (Ok (inr (Err e)), s) => if is_connection e then (Ok (inr e), s) else (Err e, s)
    | (Ok (inr (Panic p)), s) => (Panic p, s)
    | (Ok (inl e), s) => (Ok (inr e), s)
    | (Err e, s) => (Ok (inr e), s)
    | (Panic p, s) => (Panic p, s)
    end.

Definition sleep (ms : Z) (s : SentinelRouter) : SentinelRouter :=
  let p := master_pool s in
  set_pool {| rpool := rpool p; rconfig := rconfig p; dials := dials p; time := time p + ms |} s.

(** The attempts after the first, each after a pause and a [failover]. *)
Fixpoint retry (args : list bytes) (left_ : nat) (last_err : PyrsedisError)
    : sentinel_io RespValue :=
  match left_ with
  | O => lift (Err last_err)
  | S left_ =>
      fun s =>
        match failover (sleep (retry_backoff s) s) with
        | (Ok _, s) =>
            match attempt args s with
            | (Ok (inl resp), s) => (Ok resp, s)
            | (Ok (inr e), s) => retry args left_ e s
            | (Err e, s) => (Err e, s)
            | (Panic p, s) => (Panic p, s)
            end
        | (Err e, s) => retry args left_ e s
        | (Panic p, s) => (Panic p, s)
        end
  end.

Definition execute_with_retry (args : list bytes) : sentinel_io RespValue :=
  fun s =>
    match attempt args s with
    | (Ok (inl resp), s) => (Ok resp, s)
    | (Ok (inr e), s) => retry args (retry_count s) e s
    | (Err e, s) => (Err e, s)
    | (Panic p, s) => (Panic p, s)
    end.

(** One write per command, then one reply per command. *)
Fixpoint send_each (commands : list (list bytes)) : conn_io unit :=
  match commands with
  | [] => lift (Ok tt)
  | cmd :: commands => let! _ := send_raw (encode_command_str cmd) in send_each commands
  end.

Definition pipeline (commands : list (list bytes)) : sentinel_io (list RespValue) :=
  on_master (let! _ := send_each commands in read_each read_response commands).

Definition pool_idle_count (s : SentinelRouter) : Z := Standalone.pool_idle_count (master_pool s).
Definition pool_available (s : SentinelRouter) : Z := Standalone.pool_available (master_pool s).

(** * Finding the master *)

(** Dials that do not give a connection. *)
Definition unreachable (o : DialOutcome) : Prop :=
  match o with Connected _ _ _ => False | _ => True end.

(** The search skips sentinels that cannot be reached. *)
Lemma resolve_skips before more name cfg e d_before d :
  Forall unreachable d_before -> length d_before = length before ->
  exists e', resolve_from (before ++ more) name cfg e (d_before ++ d) =
             resolve_from more name cfg e' d.
Proof.
  revert e d_before. induction before as [|[h p] before IH]; intros e d_before Hu Hl.
  { destruct d_before; [|done]. by exists e. }
  destruct d_before as [|o d_before]; [done|]. apply Forall_cons in Hu as [Ho Hu].
  injection Hl as Hl. cbn [app resolve_from head tail default].
  destruct o as [| |]; [done|..]; cbn; by apply IH.
Qed.

(** The master is the one named by the first sentinel that can be reached:
    sentinels that refuse or do not answer the dial are skipped, and the address
    in the reply (read in any pieces) is returned. *)
Theorem resolve_first_answer before host port after name cfg d_before i t d_after h p w extra :
  password cfg = None -> Forall unreachable d_before -> length d_before = length before ->
  wire (Array [BulkString h; BulkString p]) w -> valid_utf8 h = true -> valid_utf8 p = true ->
  Forall delivers i -> concat (map event_data i) = w ++ extra ->
  size_of_pair * (1 + len (w ++ extra)) <= ISIZE_MAX -> len w + 4096 <= DEFAULT_MAX_BUF_SIZE ->
  resolve_master (before ++ (host, port) :: after) name cfg
    (d_before ++ Connected i [] t :: d_after) = (Ok (h ++ bs ":" ++ p), d_after).
Proof.
  intros Hpw Hu Hl Hw Hh Hp Hi Hs Hm Hlim. unfold resolve_master.
  destruct (resolve_skips before ((host, port) :: after) name cfg None d_before
    (Connected i [] t :: d_after) Hu Hl) as [e ->].
  cbn [resolve_from tail]. set (c := opened i [] t DEFAULT_MAX_BUF_SIZE).
  change (connect_timeout _ _ _) with (@Ok PyrsedisError _ c). unfold ask_sentinel. rewrite Hpw.
  destruct (execute_stream [bs "SENTINEL"; bs "get-master-addr-by-name"; name] _ w extra c
    Hw Hm eq_refl Hs Hi) as [[Ho _]|[_ Ho]]; [|exfalso; cbn in Ho; lia].
  cbv beta iota zeta. change (execute_str ?a c) with (execute a c). rewrite Ho. cbn.
  by rewrite (from_utf8_valid _ Hh), (from_utf8_valid _ Hp).
Qed.

(** A sentinel that accepts the connection and stays silent blocks the search
    for ever, whatever the other sentinels would answer: the connections to the
    sentinels have no read timeout. *)
Theorem silent_sentinel_blocks before host port after name cfg d_before t d_after :
  password cfg = None -> Forall unreachable d_before -> length d_before = length before ->
  fst (resolve_master (before ++ (host, port) :: after) name cfg
    (d_before ++ Connected [] [] t :: d_after)) = Panic Pending.
Proof.
  intros Hpw Hu Hl. unfold resolve_master.
  destruct (resolve_skips before ((host, port) :: after) name cfg None d_before
    (Connected [] [] t :: d_after) Hu Hl) as [e ->].
  cbn [resolve_from tail]. set (c := opened [] [] t DEFAULT_MAX_BUF_SIZE).
  change (connect_timeout _ _ _) with (@Ok PyrsedisError _ c). unfold ask_sentinel. rewrite Hpw.
  cbv beta iota zeta. change (execute_str ?a c) with (execute a c). rewrite execute_sends by done.
  set (c1 := touch _).
  pose proof (first_read_fails c1 (Panic Pending) (set_inbox [] c1) eq_refl ltac:(done) eq_refl) as Hr.
  cbv beta iota in Hr. by rewrite Hr.
Qed.

(** * Retries on a closed connection *)

Lemma attempt_closed args s c events :
  let p := master_pool s in
  0 < permits (rpool p) -> 1 <= max_size (rpool p) -> 0 <= idle_timeout (rpool p) ->
  idle (rpool p) = [c] -> time p - last_used c <= idle_timeout (rpool p) ->
  buf c = [] -> writes c = [] -> 4096 <= cap c -> inbox c = Data [] :: events ->
  exists c1, last_used c1 = time p /\ buf c1 = [] /\ writes c1 = [] /\ cap c1 = cap c /\
    inbox c1 = events /\
    attempt args s =
      (Ok (inr closed_by_server), set_pool (set_rpool (set_idle [c1] (rpool p)) (dials p) p) s).
Proof.
  intros p Hp Hm Hi Hidle Hlu Hb Hw Hcap Hin. set (c0 := at_time (time p) c).
  exists (set_inbox events (touch (log_sent (encode_command args) [] c0))).
  split_and!; try done. unfold attempt, on_master. fold p.
  assert (send_then_read args c0 = (Ok (inr (Err closed_by_server)),
    set_inbox events (touch (log_sent (encode_command args) [] c0)))) as Hs.
  { unfold send_then_read, send_raw. change (writes c0) with (writes c). rewrite Hw.
    pose proof (first_read_fails (touch (log_sent (encode_command_str args) [] c0))
      (Err closed_by_server) (set_inbox events (touch (log_sent (encode_command args) [] c0)))
      Hb Hcap) as ->; [done|].
    unfold read_with_timeout. cbn [inbox touch log_sent]. change (inbox c0) with (inbox c).
    by rewrite Hin. }
  by rewrite (only_idle_connection _ p c _ _ Hp Hm Hi Hidle Hlu Hs eq_refl eq_refl).
Qed.

(** The sentinels name the same master the next [k] times they are asked. *)
Fixpoint steady (k : nat) (s : SentinelRouter) (d : list DialOutcome) : Prop :=
  match k with
  | O => True
  | S k => exists d', resolve_master (sentinels s) (master_name s) (config s) d =
                      (Ok (master_addr s), d') /\ steady k s d'
  end.

Lemma steady_ext k s s' d :
  sentinels s' = sentinels s -> master_name s' = master_name s -> config s' = config s ->
  master_addr s' = master_addr s -> steady k s d -> steady k s' d.
Proof.
  intros H1 H2 H3 H4. revert d. induction k as [|k IH]; intros d Hs; [done|].
  cbn in *. rewrite H1, H2, H3, H4. destruct Hs as (d' & ? & ?). exists d'. naive_solver.
Qed.

Lemma retry_closed args k s c e :
  let p := master_pool s in
  0 < permits (rpool p) -> 1 <= max_size (rpool p) -> 0 <= retry_backoff s <= idle_timeout (rpool p) ->
  idle (rpool p) = [c] -> last_used c = time p ->
  buf c = [] -> writes c = [] -> 4096 <= cap c -> inbox c = repeat (Data []) k ->
  steady k s (sentinel_dials s) -> e = closed_by_server ->
  fst (retry args k e s) = Err closed_by_server.
Proof.
  revert s c e. induction k as [|k IH]; intros s c e p Hp Hm Hi Hidle Hlu Hb Hw Hcap Hin Hst ->;
    [done|].
  cbn [retry repeat] in *. destruct Hst as (d' & Hd & Hst).
  unfold failover. cbn [sleep set_pool sentinels master_name config sentinel_dials].
  change (sentinels (sleep _ s)) with (sentinels s).
  change (master_name (sleep _ s)) with (master_name s).
  change (config (sleep _ s)) with (config s).
  change (sentinel_dials (sleep _ s)) with (sentinel_dials s). rewrite Hd.
  rewrite bool_decide_true by done. set (s1 := set_dials d' (sleep (retry_backoff s) s)).
  destruct (attempt_closed args s1 c (repeat (Data []) k)) as (c1 & Hl1 & Hb1 & Hw1 & Hc1 & Hi1 & ->);
    try done.
  { change (0 <= idle_timeout (rpool p)). lia. }
  { change (time p + retry_backoff s - last_used c <= idle_timeout (rpool p)). lia. }
  eapply IH; try done; [by rewrite Hc1|]. by eapply steady_ext; [..|exact Hst].
Qed.

(** Retrying does not help against a closed connection: while the sentinels
    name the same master, every attempt takes the same dead connection back from
    the pool, so a command fails after all its retries although the master could
    be dialled again. *)
Theorem retries_reuse_closed_connection args s c :
  let p := master_pool s in
  0 < permits (rpool p) -> 1 <= max_size (rpool p) -> 0 <= retry_backoff s <= idle_timeout (rpool p) ->
  idle (rpool p) = [c] -> time p - last_used c <= idle_timeout (rpool p) ->
  buf c = [] -> writes c = [] -> 4096 <= cap c ->
  inbox c = repeat (Data []) (S (retry_count s)) ->
  steady (retry_count s) s (sentinel_dials s) ->
  fst (execute_with_retry args s) = Err closed_by_server.
Proof.
  intros p Hp Hm Hi Hidle Hlu Hb Hw Hcap Hin Hst. unfold execute_with_retry. cbn [repeat] in Hin.
  assert (0 <= idle_timeout (rpool p)) as Hi0 by lia.
  destruct (attempt_closed args s c _ Hp Hm Hi0 Hidle Hlu Hb Hw Hcap Hin)
    as (c1 & Hl1 & Hb1 & Hw1 & Hc1 & Hi1 & ->).
  eapply (retry_closed args (retry_count s)); try done; [by rewrite Hc1|].
  by eapply steady_ext; [..|exact Hst].
Qed.

(** * Failing over *)

(** Sending a command and reading the reply that is next in the stream. *)
Lemma send_then_read_stream args v w extra c :
  wire v w -> size_of_pair * (1 + len (w ++ extra)) <= ISIZE_MAX ->
  writes c = [] -> stream c = w ++ extra -> Forall delivers (inbox c) ->
  len w + 4096 <= max_buf_size c ->
  exists c', send_then_read args c = (Ok (inr (Ok v)), c') /\
    sent c' = sent c ++ encode_command args.
Proof.
  intros Hw Hm Hwr Hs Hd Hlim. unfold send_then_read, send_raw. rewrite Hwr.
  set (c1 := touch _).
  destruct (read_response_stream v w extra c1 Hw Hm Hs Hd) as ((_ & Hsent & _) & _ & Ho).
  destruct (read_response c1) as [r c2]. cbn [fst snd] in Ho, Hsent. exists c2.
  destruct Ho as [[-> _]|[_ Ho]]; [by rewrite Hsent|]. change (max_buf_size c1) with (max_buf_size c) in Ho. lia.
Qed.

(** An address in its usual form is cut into its host and port. *)
Lemma master_config_addr h n cfg :
  0 <= n <= U16_MAX -> master_config (h ++ bs ":" ++ itoa n) cfg = set_addr cfg h n.
Proof.
  intros Hn. unfold master_config. cbn [bs app].
  change (h ++ (bs ":") ++ itoa n) with (h ++ ":"%byte :: itoa n).
  rewrite rsplit_once_app by (apply itoa_no; [lia|done]).
  unfold parse_u16. by rewrite parse_unsigned_itoa by lia.
Qed.

(** The pool of a new master opens a connection for its first command, sends it and
    reads its reply. *)
Lemma first_connection args v w extra cfg i t0 ds t :
  tls cfg = false -> password cfg = None -> db cfg = 0 -> 0 < pool_size cfg ->
  wire v w -> size_of_pair * (1 + len (w ++ extra)) <= ISIZE_MAX ->
  Forall delivers i -> concat (map event_data i) = w ++ extra ->
  len w + 4096 <= max_buffer_size cfg ->
  exists c', sent c' = encode_command args /\
    with_guard (send_then_read args) (router_new cfg (Connected i [] t0 :: ds) t) =
    (Ok (inr (Ok v)),
     {| rpool := add_permits 1 (return_connection t c' (add_permits (-1) (Pool.new cfg)));
        rconfig := cfg; dials := ds; time := t |}).
Proof.
  intros Htls Hpw Hdb Hps Hw Hm Hi Hs Hlim. unfold with_guard, checkout, router_new.
  cbn [rpool Pool.new permits idle idle_timeout add_permits time dials rconfig].
  rewrite (proj2 (Z.leb_gt _ _)) by lia. cbn [take_healthy_connection pop_healthy reverse rev_append].
  unfold take_healthy_connection. cbn [reverse rev_append pop_healthy].
  unfold create_connection. rewrite Htls. cbn [connect_timeout_with_max_buf connect_with_max_buf bind].
  unfold init. rewrite Hpw, Hdb. cbn.
  destruct (send_then_read_stream args v w extra
    (at_time t (set_read_timeout (read_timeout_ms cfg) (opened i [] t0 (max_buffer_size cfg)))))
    as (c' & Hc' & Hsent); try done.
  exists c'. split; [exact Hsent|]. unfold send_then_read in *. cbn in Hc'. by rewrite Hc'.
Qed.

Definition readonly (v : RespValue) : bool :=
  match v with Error msg => starts_with (bs "READONLY") msg | _ => false end.

(** A reply that is not READONLY ends the attempt. *)
Lemma attempt_answered args s v p :
  with_guard (send_then_read args) (master_pool s) = (Ok (inr (Ok v)), p) ->
  attempt args s =
  (Ok (if readonly v then inr (redis match v with Error msg => msg | _ => [] end) else inl v),
   set_pool p s).
Proof.
  intros Hg. unfold attempt, on_master. rewrite Hg. destruct v; try done. cbn.
  by destruct (starts_with _ _).
Qed.

(** C30: a demoted master is replaced. When the master, on an idle connection,
    answers READONLY to a command and the sentinels then name another address
    [h:n], the router makes a pool for host [h] and port [n], the first connection
    it opens there is sent exactly the command (a configuration without password,
    database or TLS), its reply is returned if it is not READONLY too, and the
    router records the new master. *)
Theorem readonly_fails_over args s c rest msg w1 extra1 h n d' i t0 ds v w2 extra2 :
  let p := master_pool s in let a := h ++ bs ":" ++ itoa n in
  0 <= n <= U16_MAX -> 0 < permits (rpool p) ->
  take_healthy_connection (time p) (idle_timeout (rpool p)) (idle (rpool p)) = (Some c, rest) ->
  writes c = [] -> Forall delivers (inbox c) -> stream c = w1 ++ extra1 ->
  wire (Error msg) w1 -> starts_with (bs "READONLY") msg = true ->
  size_of_pair * (1 + len (w1 ++ extra1)) <= ISIZE_MAX -> len w1 + 4096 <= max_buf_size c ->
  (1 <= retry_count s)%nat -> a <> master_addr s ->
  resolve_master (sentinels s) (master_name s) (config s) (sentinel_dials s) = (Ok a, d') ->
  network s a = Connected i [] t0 :: ds -> Forall delivers i ->
  concat (map event_data i) = w2 ++ extra2 -> wire v w2 -> readonly v = false ->
  size_of_pair * (1 + len (w2 ++ extra2)) <= ISIZE_MAX ->
  len w2 + 4096 <= max_buffer_size (config s) ->
  tls (config s) = false -> password (config s) = None -> db (config s) = 0 ->
  0 < pool_size (config s) ->
  exists c' s', execute_with_retry args s = (Ok v, s') /\ master_addr s' = a /\
    sent c' = encode_command args /\
    let p' := master_pool s' in
    host (rconfig p') = h /\ port (rconfig p') = n /\ dials p' = ds /\
    rpool p' = add_permits 1 (return_connection (time p') c'
                 (add_permits (-1) (Pool.new (rconfig p')))).
Proof.
  intros p a Hn Hp Ht Hwr Hd Hs Hw1 Hro Hm1 Hl1 Hk Ha Hres Hnet Hi Hs2 Hw2 Hv Hm2 Hl2 Htls Hpw Hdb Hps.
  destruct (send_then_read_stream args _ w1 extra1 (at_time (time p) c) Hw1 Hm1 Hwr Hs Hd Hl1)
    as (c1 & Hc1 & _).
  assert (exists p1, attempt args s = (Ok (inr (redis msg)), set_pool p1 s)) as [p1 Hat].
  { eexists. erewrite (attempt_answered args s (Error msg))
      by (by apply (with_guard_idle _ p rest c _ c1 Hp Ht Hc1)).
    cbn [readonly]. by rewrite Hro. }
  unfold execute_with_retry. rewrite Hat. cbn [retry_count set_pool].
  destruct (retry_count s) as [|k]; [lia|]. cbn [retry].
  unfold failover. cbn [sleep set_pool sentinels master_name config sentinel_dials master_pool
    network master_addr retry_backoff]. rewrite Hres.
  cbn [set_dials master_addr]. rewrite bool_decide_false by done.
  cbn [config network master_pool]. set (s1 := set_dials d' _).
  change (config s1) with (config s). change (network s1) with (network s).
  assert (master_config a (config s) = set_addr (config s) h n) as Hmc
    by (by apply master_config_addr).
  unfold create_master_pool. rewrite Hmc.
  change (network s (primary_addr _)) with (network s a). rewrite Hnet.
  edestruct (first_connection args v w2 extra2 (set_addr (config s) h n) i t0 ds)
    as (c2 & Hc2 & Hp2); [done..|].
  erewrite attempt_answered by (exact Hp2). rewrite Hv. cbn. by exists c2; eexists.
Qed.

(** * Batches *)

(** Writing the commands one by one puts on the stream what one write of the batch
    does. *)
Lemma send_each_batch cmd cmds c :
  writes c = [] -> send_each (cmd :: cmds) c = send_raw (encode_pipeline (cmd :: cmds)) c.
Proof.
  revert cmd c. induction cmds as [|cmd' cmds IH]; intros cmd c Hw; cbn [send_each].
  - unfold sbind, send_raw. rewrite Hw, encode_pipeline_eq. cbn. by rewrite app_nil_r.
  - unfold sbind at 1. unfold send_raw at 1. rewrite Hw.
    change (let! _ := send_raw (encode_command_str cmd') in send_each cmds)
      with (send_each (cmd' :: cmds)).
    rewrite IH by done. unfold send_raw. cbn [writes touch log_sent]. rewrite Hw.
    rewrite (encode_pipeline_cons cmd). unfold touch, log_sent. cbn. by rewrite app_assoc.
Qed.

(** A batch on a sentinel router is the batch on the pool of its current master: no
    command of it is tried again, no sentinel is asked, and a READONLY reply is
    returned as it came. *)
Theorem sentinel_batch_is_standalone cmd cmds s :
  (forall c p, checkout (master_pool s) = (Ok c, p) -> writes c = []) ->
  pipeline (cmd :: cmds) s =
  let '(r, p) := router_pipeline (cmd :: cmds) (master_pool s) in (r, set_pool p s).
Proof.
  intros Hw. unfold pipeline, on_master, router_pipeline, with_guard.
  destruct (_ <=? 0); [done|]. destruct (checkout (master_pool s)) as [[c|e|q] p]; [|done..].
  unfold sbind. by rewrite send_each_batch by (by eapply Hw).
Qed.
End sentinel.

(** * The theorems at concrete deployments *)

Definition bulk (s : bytes) : bytes := header "$" (itoa (len s)) (s ++ CRLF).

Lemma bulk_wire s : len s <= I64_MAX -> wire (BulkString s) (bulk s).
Proof.
  intros Hs. apply wire_bulk, (int_text_itoa).
  pose proof (len_nonneg s). lia.
Qed.

Definition addr_reply : bytes := header "*" (bs "2") (bulk (bs "m") ++ bulk (bs "6380")).

Lemma addr_wire :
  wire (Array [BulkString (bs "m"); BulkString (bs "6380")]) addr_reply.
Proof.
  unfold addr_reply. change (bulk (bs "m") ++ bulk (bs "6380")) with
    (concat [bulk (bs "m"); bulk (bs "6380")]).
  apply wire_array; [apply (int_text_itoa 2); done|].
  constructor; [by apply bulk_wire|]. constructor; [by apply bulk_wire|constructor].
Qed.

Definition two_sentinels : list (bytes * Z) := [(bs "s1", 26379); (bs "s2", 26379)].

Lemma resolve_first_answer_witness :
  resolve_master (H := release64) (H0 := exact_bytes) two_sentinels (bs "mymaster")
    default_config [NoAnswer; Connected [Data (take 7 addr_reply); Data (drop 7 addr_reply)] [] 0] =
  (Ok (bs "m:6380"), []).
Proof.
  apply (resolve_first_answer (H := release64) (H0 := exact_bytes) [(bs "s1", 26379)]
    (bs "s2") 26379 [] (bs "mymaster") default_config [NoAnswer]
    [Data (take 7 addr_reply); Data (drop 7 addr_reply)] 0 [] (bs "m") (bs "6380") addr_reply []);
    [done|by repeat constructor|done|apply addr_wire|done|done|by repeat constructor
    |reflexivity|vm_compute; discriminate|vm_compute; discriminate].
Defined.

Lemma silent_sentinel_blocks_witness :
  fst (resolve_master (H := release64) (H0 := exact_bytes) two_sentinels (bs "mymaster")
    default_config [Connected [] [] 0; Connected [Data addr_reply] [] 0]) = Panic Pending.
Proof.
  apply (silent_sentinel_blocks (H := release64) (H0 := exact_bytes) [] (bs "s1") 26379
    [(bs "s2", 26379)] (bs "mymaster") default_config [] 0 [Connected [Data addr_reply] [] 0]);
    [done|constructor|done].
Defined.

(** A router whose master is [m:6380], with one connection in its pool. *)
Definition sentinel_router (c : RedisConnection) (current : bytes) (d : list DialOutcome)
    (net : bytes -> list DialOutcome) : SentinelRouter :=
  {| master_pool := one_idle c; master_addr := current; sentinels := [(bs "s1", 26379)];
     master_name := bs "mymaster"; config := default_config; retry_count := 1;
     retry_backoff := 100; sentinel_dials := d; network := net |}.

Definition knows_master : DialOutcome := Connected [Data addr_reply] [] 0.

Lemma resolve_known d :
  resolve_master (H := release64) (H0 := exact_bytes) [(bs "s1", 26379)] (bs "mymaster")
    default_config (knows_master :: d) = (Ok (bs "m:6380"), d).
Proof. vm_compute. reflexivity. Qed.

Lemma retries_reuse_closed_connection_witness :
  fst (execute_with_retry (H := release64) (H0 := exact_bytes) [bs "PING"]
    (sentinel_router (test_conn [Data []; Data []]) (bs "m:6380") [knows_master]
       (fun _ => [Connected [Data pong_frame] [] 0]))) = Err closed_by_server.
Proof.
  apply (retries_reuse_closed_connection (H := release64) (H0 := exact_bytes) [bs "PING"] _
    (test_conn [Data []; Data []]));
    [done|done|done|done|done|done|done|done|done|].
  exists []. split; [apply resolve_known|done].
Defined.

Definition readonly_msg : bytes := bs "READONLY You can't write against a read only replica.".

Lemma readonly_wire : wire (Error readonly_msg) (header "-" readonly_msg []).
Proof. apply wire_error. split; [reflexivity|]. by apply memchr_None. Qed.

Lemma readonly_fails_over_witness :
  let s := sentinel_router (test_conn [Data (header "-" readonly_msg [])]) (bs "old:6379")
             [knows_master]
             (fun a => if bool_decide (a = bs "m:6380") then [Connected [Data pong_frame] [] 0] else []) in
  exists c' s', execute_with_retry (H := release64) (H0 := exact_bytes) [bs "PING"] s =
    (Ok (SimpleString (bs "PONG")), s') /\ master_addr s' = bs "m:6380" /\
    sent c' = encode_command [bs "PING"] /\
    host (rconfig (master_pool s')) = bs "m" /\ port (rconfig (master_pool s')) = 6380.
Proof.
  cbv zeta. set (s := sentinel_router _ _ _ _).
  destruct (readonly_fails_over (H := release64) (H0 := exact_bytes) [bs "PING"] s
    (test_conn [Data (header "-" readonly_msg [])]) [] readonly_msg
    (header "-" readonly_msg []) [] (bs "m") 6380 [] [Data pong_frame] 0 []
    (SimpleString (bs "PONG")) pong_frame [])
    as (c' & s' & Ho & Ha & Hsent & Hh & Hport & _); cycle -1.
  { exists c', s'. exact (conj Ho (conj Ha (conj Hsent (conj Hh Hport)))). }
  all: try reflexivity; try (by repeat constructor); try (vm_compute; discriminate).
  - apply readonly_wire.
  - apply wire_PONG.
Defined.

(** * A command that takes effect twice *)

Definition incr : list bytes := [bs "INCR"; bs "k"].

(** The old master takes the command and closes the connection before it answers; the
    sentinels name another one. The router sends the command again: a command that is
    not idempotent can take effect twice, once on either master. *)
Example retry_sends_again :
  let s := sentinel_router (test_conn [Data []]) (bs "old:6379") [knows_master]
             (fun _ => [Connected [Data pong_frame] [] 0]) in
  let tried := attempt (H := release64) (H0 := exact_bytes) incr s in
  let o := execute_with_retry (H := release64) (H0 := exact_bytes) incr s in
  tried.1 = Ok (inr closed_by_server) /\
  map sent (idle (rpool (master_pool tried.2))) = [encode_command incr] /\
  o.1 = Ok (SimpleString (bs "PONG")) /\
  map sent (idle (rpool (master_pool o.2))) = [encode_command incr].
Proof. by vm_compute. Qed.

Lemma sentinel_batch_is_standalone_witness :
  let s := sentinel_router (test_conn [Data (header "-" readonly_msg [])]) (bs "old:6379")
             [knows_master] (fun _ => []) in
  fst (pipeline (H := release64) (H0 := exact_bytes) [incr] s) = Ok [Error readonly_msg].
Proof.
  cbv zeta. rewrite (sentinel_batch_is_standalone (H := release64) (H0 := exact_bytes) incr []).
  - vm_compute. reflexivity.
  - intros c p Hc. vm_compute in Hc. by injection Hc as <- _.
Defined.
