(* ===== verification/Failover.v ===== *)
(** Concurrent failovers of a sentinel router (src/router/sentinel.rs,
    [failover]). The pool and the address of the master are behind two locks, so
    [failover] is a sequence of atomic steps that other calls interleave with: one
    failover at a time keeps the pool and the address in agreement, two at once
    can leave the router connected to a server that is not its recorded master. *)

From Stdlib Require Import Strings.Byte.
From stdpp Require Import relations.
From S2P Require Import Prelude RustStd RustStr Error Types Parser Wire Writer Config Tcp Pool.
From S2P Require Import Standalone Sentinel.

Section failover.
Context `{Target} `{BytesMut}.

(** Where a call of [failover] is: not running; with the sentinels' answer;
    having read a different current address; having replaced the pool. *)
Inductive Caller :=
| Away
| Resolved (a : bytes)
| Swapping (a : bytes)
| Swapped (a : bytes).

Definition World : Type := SentinelRouter * list Caller.
Definition at_caller (s : SentinelRouter) (l1 : list Caller) (t : Caller) (l2 : list Caller) : World :=
  (s, l1 ++ t :: l2).

Definition set_addr (a : bytes) (s : SentinelRouter) : SentinelRouter :=
  set_master a (master_pool s) s.

Definition ask (s : SentinelRouter) : Result bytes * list DialOutcome :=
  resolve_master (sentinels s) (master_name s) (config s) (sentinel_dials s).

Definition pool_for (a : bytes) (s : SentinelRouter) : StandaloneRouter :=
  create_master_pool a (config s) (network s) (time (master_pool s)).

Inductive step : World -> World -> Prop :=
(** [resolve_master(..).await?] *)
| step_resolved s l1 l2 a d :
    ask s = (Ok a, d) -> step (at_caller s l1 Away l2) (at_caller (set_dials d s) l1 (Resolved a) l2)
| step_unresolved s l1 l2 e d :
    ask s = (Err e, d) -> step (at_caller s l1 Away l2) (at_caller (set_dials d s) l1 Away l2)
(** [self.master_addr.read().clone()] and the comparison *)
| step_same s l1 l2 a :
    master_addr s = a -> step (at_caller s l1 (Resolved a) l2) (at_caller s l1 Away l2)
| step_differs s l1 l2 a :
    master_addr s <> a -> step (at_caller s l1 (Resolved a) l2) (at_caller s l1 (Swapping a) l2)
(** [*self.master_pool.write() = ..] *)
| step_pool s l1 l2 a :
    step (at_caller s l1 (Swapping a) l2) (at_caller (set_pool (pool_for a s) s) l1 (Swapped a) l2)
(** [*self.master_addr.write() = ..] *)
| step_addr s l1 l2 a :
    step (at_caller s l1 (Swapped a) l2) (at_caller (set_addr a s) l1 Away l2)
(** commands use the current pool *)
| step_command s ts p :
    rconfig p = rconfig (master_pool s) -> step (s, ts) (set_pool p s, ts).

(** A pool with the configuration [cfg] connects to the server at [a]: where [a] is
    [host:port] with a port in decimal, they are the host and port of [cfg]. *)
Definition connects_to (a : bytes) (cfg : ConnectionConfig) : Prop :=
  forall h n, 0 <= n <= U16_MAX -> a = h ++ bs ":" ++ itoa n -> host cfg = h /\ port cfg = n.

(** The pool connects to the recorded master. *)
Definition agrees (s : SentinelRouter) : Prop :=
  connects_to (master_addr s) (rconfig (master_pool s)).

Lemma master_pool_connects a cfg net t : connects_to a (rconfig (create_master_pool a cfg net t)).
Proof.
  intros h n Hn ->. unfold create_master_pool. by rewrite (master_config_addr h n cfg Hn).
Qed.

Lemma new_agrees d net t ss name cfg rc rb s : new d net t ss name cfg rc rb = Ok s -> agrees s.
Proof.
  unfold new. case_bool_decide; [done|]. destruct (resolve_master _ _ _ _) as [[a|e|p] d']; [|done..].
  intros [= <-]. apply master_pool_connects.
Qed.

(** The steps of a lone caller are the function of Sentinel.v. *)
Lemma failover_steps s r s' :
  failover s = (r, s') -> (forall p, r <> Panic p) -> rtc step (s, [Away]) (s', [Away]).
Proof.
  unfold failover. change (resolve_master _ _ _ _) with (ask s).
  destruct (ask s) as [[a|e|p] d] eqn:Ha; [|intros [= <- <-] _|intros [= <- _] Hp; by destruct (Hp p)].
  - case_bool_decide as Hc; intros [= _ <-] _.
    + eapply rtc_l; [by apply (step_resolved s [] [] a d)|].
      apply rtc_once. by apply (step_same _ [] []).
    + eapply rtc_l; [by apply (step_resolved s [] [] a d)|].
      eapply rtc_l; [apply (step_differs _ [] []); exact (not_eq_sym Hc)|].
      eapply rtc_l; [apply (step_pool _ [] [])|]. apply rtc_once.
      exact (step_addr (set_pool (pool_for a (set_dials d s)) (set_dials d s)) [] [] a).
  - apply rtc_once. by apply (step_unresolved s [] [] e d).
Qed.

(** * One failover at a time *)

Definition away (t : Caller) : bool := match t with Away => true | _ => false end.
Definition running (ts : list Caller) : nat := length (filter (fun t => away t = false) ts).

(** Steps during which at most one call is inside [failover]. *)
Definition serial (w w' : World) : Prop := step w w' /\ (running w'.2 <= 1)%nat.

Lemma running_at l1 t l2 :
  running (l1 ++ t :: l2) = (running (l1 ++ l2) + if away t then 0 else 1)%nat.
Proof.
  unfold running. rewrite !filter_app, !length_app, filter_cons.
  destruct (away t) eqn:E; case_decide; simpl; (congruence || lia).
Qed.

Lemma none_running ts a : running ts = 0%nat -> Swapped a ∉ ts.
Proof.
  unfold running. intros Hr Hin. apply length_zero_iff_nil in Hr.
  assert (Swapped a ∈ filter (fun t => away t = false) ts) as Hf
    by (apply list_elem_of_filter; by split).
  rewrite Hr in Hf. by apply not_elem_of_nil in Hf.
Qed.

(** The two halves of a world. *)
Ltac world := unfold at_caller in *; cbn [fst snd] in *.

Record serial_ok (w : World) : Prop := {
  serial_one : (running w.2 <= 1)%nat;
  serial_swapped a : Swapped a ∈ w.2 -> connects_to a (rconfig (master_pool w.1));
  serial_agrees : (forall a, Swapped a ∉ w.2) -> agrees w.1
}.

(** What the invariant says of the one caller that moves. *)
Lemma serial_at s l1 t l2 :
  away t = false -> serial_ok (at_caller s l1 t l2) <->
  running (l1 ++ l2) = 0%nat /\
  match t with Swapped a => connects_to a (rconfig (master_pool s)) | _ => agrees s end.
Proof.
  intros Ht. split.
  - intros [Hone Hs Ha]. world. rewrite running_at, Ht in Hone.
    assert (running (l1 ++ l2) = 0%nat) as H0r by lia. split; [done|].
    assert (forall a, t <> Swapped a -> Swapped a ∉ l1 ++ t :: l2) as Hno.
    { intros a Hta Hin. apply (none_running _ a H0r). rewrite elem_of_app, elem_of_cons in Hin.
      rewrite elem_of_app. naive_solver. }
    destruct t as [| | |a]; [done|by apply Ha; intros a'; apply Hno..|].
    apply Hs. apply elem_of_app. right. apply list_elem_of_here.
  - intros [H0r Hm]. constructor; world.
    + rewrite running_at, Ht. lia.
    + intros a Hin. pose proof (none_running _ a H0r) as Hno. rewrite elem_of_app in Hno.
      rewrite elem_of_app, elem_of_cons in Hin. destruct Hin as [?|[<-|?]]; naive_solver.
    + intros Hno. destruct t as [| | |a]; [done..|]. destruct (Hno a).
      apply elem_of_app. right. apply list_elem_of_here.
Qed.

Lemma serial_away s l1 l2 :
  running (l1 ++ l2) = 0%nat -> serial_ok (at_caller s l1 Away l2) <-> agrees s.
Proof.
  intros H0r. assert (running (l1 ++ Away :: l2) = 0%nat) as H1 by (rewrite running_at; cbn; lia).
  split.
  - intros [_ _ Ha]. apply Ha. intros a. by apply none_running.
  - intros Ha. constructor; world; [lia| |done]. intros a Hin. by destruct (none_running _ a H1).
Qed.

Lemma serial_step w w' : serial_ok w -> serial w w' -> serial_ok w'.
Proof.
  intros Hok [Hs Hone].
  destruct Hs as [s l1 l2 a d Ha|s l1 l2 e d Ha|s l1 l2 a Hc|s l1 l2 a Hc|s l1 l2 a|s l1 l2 a
    |s ts p Hp].
  - world. rewrite running_at in Hone. cbn [away] in Hone.
    apply serial_away in Hok; [|lia]. apply serial_at; [done|]. split; [lia|exact Hok].
  - destruct Hok as [H1 H2 H3]. by constructor.
  - apply serial_at in Hok as [H0r Ha]; [|done]. by apply serial_away.
  - apply serial_at in Hok; [|done]. by apply serial_at.
  - apply serial_at in Hok as [H0r _]; [|done]. apply serial_at; [done|].
    split; [done|apply master_pool_connects].
  - apply serial_at in Hok as [H0r Ha]; [|done]. by apply serial_away.
  - destruct Hok as [H1 H2 H3]. constructor; world; [done|intros; cbn; rewrite Hp; by apply H2|].
    intros Hn. specialize (H3 Hn). unfold agrees in *. cbn. by rewrite Hp.
Qed.

(** C31: Failovers that do not overlap keep the pool and the address in agreement:
    from the creation of the router, whatever the sentinels answer, whenever no call
    is inside [failover] and the recorded master is [h:n], the configuration of the
    router's pool has host [h] and port [n]. *)
Theorem serial_failovers_agree d net t ss name cfg rc rb s k w :
  new d net t ss name cfg rc rb = Ok s -> rtc serial (s, repeat Away k) w ->
  running w.2 = 0%nat ->
  forall h n, 0 <= n <= U16_MAX -> master_addr w.1 = h ++ bs ":" ++ itoa n ->
    host (rconfig (master_pool w.1)) = h /\ port (rconfig (master_pool w.1)) = n.
Proof.
  intros Ha%new_agrees Hr H0r. fold (agrees w.1).
  assert (running (repeat Away k) = 0%nat) as Hn.
  { clear. unfold running. induction k as [|k IH]; [done|]. cbn. exact IH. }
  assert (serial_ok w) as [_ _ Hw].
  { eapply (rtc_ind_r serial_ok); [| |exact Hr].
    - constructor; world; [lia| |done]. intros a Hin. by destruct (none_running _ a Hn).
    - intros x y _ Hs Hok. by eapply serial_step. }
  apply Hw. intros a. by apply none_running.
Qed.

(** * Two failovers at once *)

(** C32: Two overlapping failovers can leave the router on the wrong server: when the
    sentinels name first [a] and then [b], there is an interleaving after which
    both calls have returned, the recorded master is [b] and the pool connects to
    [a]; from then on, as long as the sentinels keep answering [b], a failover sees
    no change and keeps that pool. *)
Theorem failover_race s a b d1 d2 :
  ask s = (Ok a, d1) -> ask (set_dials d1 s) = (Ok b, d2) ->
  a <> master_addr s -> b <> master_addr s ->
  exists s', rtc step (s, [Away; Away]) (s', [Away; Away]) /\
    master_addr s' = b /\ rconfig (master_pool s') = master_config a (config s) /\
    forall d3, ask s' = (Ok b, d3) -> failover s' = (Ok tt, set_dials d3 s').
Proof.
  intros Ha Hb Hca Hcb. set (s2 := set_dials d2 (set_dials d1 s)).
  set (s3 := set_pool (pool_for b s2) s2). set (s4 := set_pool (pool_for a s3) s3).
  exists (set_addr b (set_addr a s4)). split_and!; [|done|done|].
  - eapply rtc_l; [exact (step_resolved s [] [Away] a d1 Ha)|].
    eapply rtc_l; [exact (step_resolved _ [Resolved a] [] b d2 Hb)|].
    eapply rtc_l; [exact (step_differs s2 [] [Resolved b] a (not_eq_sym Hca))|].
    eapply rtc_l; [exact (step_differs s2 [Swapping a] [] b (not_eq_sym Hcb))|].
    eapply rtc_l; [exact (step_pool s2 [Swapping a] [] b)|].
    eapply rtc_l; [exact (step_pool s3 [] [Swapped b] a)|].
    eapply rtc_l; [exact (step_addr s4 [] [Swapped b] a)|].
    apply rtc_once. exact (step_addr (set_addr a s4) [Away] [] b).
  - intros d3 H3. unfold failover. change (resolve_master _ _ _ _) with (ask (set_addr b (set_addr a s4))).
    rewrite H3. by rewrite bool_decide_true by done.
Qed.
End failover.

(** * The theorems at a concrete router *)

(** A sentinel that names the master [host:6380]. *)
Definition names (host : string) : DialOutcome :=
  Connected [Data (header "*" (bs "2") (bulk (bs host) ++ bulk (bs "6380")))] [] 0.

Definition watched (d : list DialOutcome) : SentinelRouter :=
  {| master_pool := router_new (master_config (bs "old:6379") default_config) [] 0;
     master_addr := bs "old:6379"; sentinels := [(bs "s1", 26379)];
     master_name := bs "mymaster"; config := default_config; retry_count := 1;
     retry_backoff := 100; sentinel_dials := d; network := fun _ => [] |}.

Lemma failover_race_witness :
  exists s', rtc (step (H := release64) (H0 := exact_bytes))
      (watched [names "a"; names "b"; names "b"], [Away; Away]) (s', [Away; Away]) /\
    master_addr s' = bs "b:6380" /\ host (rconfig (master_pool s')) = bs "a".
Proof.
  destruct (failover_race (H := release64) (H0 := exact_bytes)
    (watched [names "a"; names "b"; names "b"]) (bs "a:6380") (bs "b:6380")
    [names "b"; names "b"] [names "b"]) as (s' & Hr & Hm & Hp & _);
    [vm_compute; reflexivity|vm_compute; reflexivity|done|done|].
  exists s'. split_and!; [exact Hr|exact Hm|]. rewrite Hp. reflexivity.
Defined.

#[local] Ltac one_running := unfold at_caller, running; cbn; repeat constructor.

(** A router that a sentinel has told of [old:6380], and that will hear of [a:6380]. *)
Definition started : SentinelRouter :=
  {| master_pool := create_master_pool (bs "old:6380") default_config (fun _ => []) 0;
     master_addr := bs "old:6380"; sentinels := [(bs "s1", 26379)];
     master_name := bs "mymaster"; config := default_config; retry_count := 1;
     retry_backoff := 100; sentinel_dials := [names "a"]; network := fun _ => [] |}.

Lemma serial_failovers_agree_witness :
  let s := snd (failover (H := release64) (H0 := exact_bytes) started) in
  host (rconfig (master_pool s)) = bs "a" /\ port (rconfig (master_pool s)) = 6380.
Proof.
  cbv zeta. set (s := started).
  apply (serial_failovers_agree (H := release64) (H0 := exact_bytes) [names "old"; names "a"]
    (fun _ => []) 0 [(bs "s1", 26379)] (bs "mymaster") default_config (Some 1%nat) (Some 100) s 1
    (snd (failover (H := release64) (H0 := exact_bytes) s), [Away]));
    [vm_compute; reflexivity| |reflexivity|done|vm_compute; reflexivity].
  eapply rtc_l.
  { split; [apply (step_resolved s [] [] (bs "a:6380") []); vm_compute; reflexivity|one_running]. }
  eapply rtc_l; [split; [apply (step_differs _ [] []); done|one_running]|].
  eapply rtc_l; [split; [apply (step_pool _ [] [])|one_running]|].
  apply rtc_once. split; [|one_running].
  exact (step_addr (set_pool (pool_for (bs "a:6380") (set_dials [] s)) (set_dials [] s)) [] []
    (bs "a:6380")).
Defined.
