(* ===== verification/Router.v ===== *)
(** src/router/mod.rs: the [Router] trait and its three implementations. What a
    user of the trait relies on, whatever the topology, is a class of laws that
    each router discharges. *)

From Stdlib Require Import Strings.Byte.
From stdpp Require Import gmap.
From S2P Require Import Prelude RustStd Error Types Parser Wire Writer Config Tcp TcpProps Pool.
From S2P Require Import Standalone Cluster ClusterProps Sentinel.

(** [trait Router], a class of routers [W]. *)
Record Router (W : Type) := {
  execute : list bytes -> stm W PyrsedisError RespValue;
  pipeline : list (list bytes) -> stm W PyrsedisError (list RespValue);
  pool_idle_count : W -> Z;
  pool_available : W -> Z
}.
Existing Class Router.
Arguments execute {W r}.
Arguments pipeline {W r}.
Arguments pool_idle_count {W r}.
Arguments pool_available {W r}.

(** A batch has one reply per command. *)
Class RouterLaws (W : Type) `{Router W} : Prop := {
  pipeline_length cmds w rs w' : pipeline cmds w = (Ok rs, w') -> length rs = length cmds
}.

Section routers.
Context `{Target} `{BytesMut}.

Definition standalone_trait : Router StandaloneRouter := {|
  execute := Standalone.router_execute;
  pipeline := Standalone.router_pipeline;
  pool_idle_count := Standalone.pool_idle_count;
  pool_available := Standalone.pool_available
|}.

Definition sentinel_trait : Router SentinelRouter := {|
  execute := Sentinel.execute_with_retry;
  pipeline := Sentinel.pipeline;
  pool_idle_count := Sentinel.pool_idle_count;
  pool_available := Sentinel.pool_available
|}.

Definition cluster_trait `{HashOrder} : Router (ClusterRouter Nodes) := {|
  execute := Cluster.execute_routed;
  pipeline := Cluster.pipeline;
  pool_idle_count := Cluster.pool_idle_count;
  pool_available := Cluster.pool_available
|}.

#[export] Existing Instances standalone_trait sentinel_trait cluster_trait.

(** * One reply per command *)

Lemma read_each_length {A B} (reader : conn_io A) (cmds : list B) c rs c' :
  read_each reader cmds c = (Ok rs, c') -> length rs = length cmds.
Proof.
  revert c rs c'. induction cmds as [|cmd cmds IH]; intros c rs c' Hr; [by injection Hr as <- _|].
  cbn [read_each] in Hr. apply sbind_inv in Hr as (a & c1 & _ & Hr).
  apply sbind_inv in Hr as (as' & c2 & Has & Hr). injection Hr as <- _.
  cbn. f_equal. by eapply IH.
Qed.

(** What a guarded computation returns is what its body returned. *)
Lemma with_guard_ok {A} (body : conn_io A) r a r' :
  with_guard body r = (Ok a, r') -> exists c c', body c = (Ok a, c').
Proof.
  unfold with_guard. destruct (_ <=? 0); [done|].
  destruct (checkout r) as [[c|e|p] r1]; [|done..].
  destruct (body c) as [res c'] eqn:Hb. intros [= -> _]. by exists c, c'.
Qed.

Lemma guarded_batch_length {A B} (first : conn_io B) (cmds : list (list bytes)) reader r rs r' :
  with_guard (let! _ := first in read_each (A := A) reader cmds) r = (Ok rs, r') ->
  length rs = length cmds.
Proof.
  intros Hg. apply with_guard_ok in Hg as (c & c' & Hb).
  apply sbind_inv in Hb as (a & c1 & _ & Hb). by eapply read_each_length.
Qed.

#[export] Instance standalone_laws : RouterLaws StandaloneRouter.
Proof.
  constructor. intros cmds w rs w' Hp. cbn in Hp. unfold router_pipeline in Hp.
  by eapply guarded_batch_length.
Qed.

#[export] Instance sentinel_laws : RouterLaws SentinelRouter.
Proof.
  constructor. intros cmds w rs w' Hp. cbn in Hp. unfold Sentinel.pipeline, on_master in Hp.
  destruct (with_guard _ _) as [o p] eqn:Hg. injection Hp as -> _. by eapply guarded_batch_length.
Qed.

Lemma write_errors_length (group : list (nat * list bytes)) v (results : list (option RespValue)) :
  length (fold_left (fun rs '(idx, _) => <[idx := v]> rs) group results) = length results.
Proof.
  revert results. induction group as [|[i cmd] group IH]; intros results; [done|]. cbn.
  rewrite IH. apply length_insert.
Qed.

Lemma read_group_length {N G} `{Transport N G} group results s rs s' :
  read_group group results s = (Ok rs, s') -> length rs = length results.
Proof.
  revert results s. induction group as [|[i cmd] group IH]; intros results s Hr;
    [by injection Hr as <- _|].
  cbn [read_group] in Hr. apply sbind_inv in Hr as (v & s1 & _ & Hr).
  apply sbind_inv in Hr as (v' & s2 & _ & Hr). apply IH in Hr as ->. apply length_insert.
Qed.

Lemma run_group_length {N G} `{Transport N G} addr group results r rs r' :
  run_group results addr group r = (Ok rs, r') -> length rs = length results.
Proof.
  unfold run_group. case_bool_decide.
  { intros [= <- _]. apply write_errors_length. }
  destruct (t_get addr (nodes r)) as [[g|e|p] n]; [|done..].
  destruct ((let! _ := on_guard (send_group group) in read_group group results) (g, set_nodes n r))
    as [o [g' r1]] eqn:Hb. intros [= -> _].
  apply sbind_inv in Hb as (a & s1 & _ & Hb). by eapply read_group_length.
Qed.

Lemma run_groups_length {N G} `{Transport N G} groups results r rs r' :
  run_groups groups results r = (Ok rs, r') -> length rs = length results.
Proof.
  revert results r. induction groups as [|[addr group] groups IH]; intros results r Hr;
    [by injection Hr as <- _|].
  cbn [run_groups] in Hr. apply sbind_inv in Hr as (rs1 & r1 & Hg & Hr).
  apply IH in Hr as ->. by eapply run_group_length.
Qed.

#[export] Instance cluster_laws `{HashOrder} : RouterLaws (ClusterRouter Nodes).
Proof.
  constructor. intros cmds r rs r' Hp. cbn in Hp. unfold Cluster.pipeline in Hp.
  destruct (group_by_node r 0 cmds ∅) as [gs|e|p]; [|done..].
  apply sbind_inv in Hp as (rs1 & r1 & Hg & Hp). injection Hp as <- _.
  rewrite length_map. apply run_groups_length in Hg as ->. apply length_replicate.
Qed.
End routers.

(** Whatever the topology, a caller can pair the replies of a successful batch
    with its commands: every command has its reply. *)
Theorem every_command_answered `{RouterLaws W} cmds w rs w' i cmd :
  pipeline cmds w = (Ok rs, w') -> cmds !! i = Some cmd ->
  exists v, zip cmds rs !! i = Some (cmd, v).
Proof.
  intros Hp Hc. apply pipeline_length in Hp.
  destruct (rs !! i) as [v|] eqn:Hr.
  - exists v. by rewrite lookup_zip_with, Hc, Hr.
  - apply lookup_ge_None_1 in Hr. apply lookup_lt_Some in Hc. lia.
Qed.
